(* ===== verification/_CoqProject ===== *)
-Q . S2P
Prelude.v
Bytes.v
Float64.v
Util.v
Bucket.v
Sketch.v
XXHash.v
Concrete.v
SketchSpec.v
Dsu.v
Graph.v
Configuration.v
CCSketchAlg.v
ReturnTypes.v
Partition.v
MergeInstr.v
Boruvka.v
BoruvkaRound.v
BoruvkaThreads.v
BoruvkaLoop.v
CCQuery.v
Driver.v
DriverProgress.v
CCDriver.v
MCSketchAlg.v
MCFilter.v
MCQuery.v
MCProps.v
EdgeStore.v
EdgeStoreSpec.v
McGpu.v
EdgeStoreInv.v
McGpuSpec.v
McGpuProps.v
CudaKernel.v
CudaKernelSpec.v
CudaStream.v
CudaStreamSpec.v
CudaStreamProps.v
CCGpu.v
CCGpuSpec.v
Serial.v
SerialSpec.v
CudaUvm.v
CudaUvmSpec.v
CudaUvmProps.v
SkGpu.v
SkGpuSpec.v
SkGpuProps.v
Typing.v
GraphVerifier.v
GraphVerifierSpec.v
GraphVerifierProps.v
DeviceHash.v
DeviceHash32.v
DeviceHashSpec.v
DeviceHashProps.v
MCSerial.v
ManagedSketch.v
MinCutQuery.v
MinCutProps.v
BinStream.v
BinStreamSpec.v
BinStreamMT.v
BinStreamProps.v
StreamGen.v
StreamGenSpec.v
StreamGenProps.v
StreamTools.v
StreamToolsSpec.v
StreamToolsProps.v
DsuMT.v
DsuMTSpec.v
DsuMTProgress.v
DsuMTProps.v
