(* ===== verification/Prelude.v ===== *)
(** * GraphZeppelin: a verification development

    GraphZeppelin answers connectivity queries on a graph given as a stream of
    edge insertions and deletions. It keeps, for every node, a linear sketch of
    the edges at that node; a query runs Boruvka's algorithm on the sketches,
    whose sums are sketches of the edges that leave a component.

    ** The program and where it is modelled

    - src/src/util.cpp: identifiers of edges. File [Util].
    - src/include/bucket.h: the cells of a sketch. [Bucket]. The hash function
      XXH3 comes from a library and is the class [Bucket.Hashing]; every theorem
      holds for every hash. [XXHash] models the program's own device copy of it
      (src/include/cuda_xxhash64.cuh) for 8-byte keys and is the instance the
      examples run on; [DeviceHash] models it for keys of any length, [DeviceHash32] the
      32-bit hash of src/include/cuda_xxhash32.cuh. [DeviceHashSpec], [DeviceHashProps].
    - src/include/sketch.h, src/src/sketch.cpp: class [Sketch], in both builds
      (switch [L0_SAMPLING] of the class [Sketch.BuildConfig]). [Sketch] has the
      operations, [SketchSpec] the abstract value: a sketch refines a finite set
      of indices under symmetric difference.
    - src/include/dsu.h: both union-find classes. [Dsu] has the operations called by one
      thread; [DsuMT] the atomic one called by threads, [DsuMTSpec] its invariant,
      [DsuMTProgress] why its calls finish, [DsuMTProps] the properties.
    - src/src/cc_alg_configuration.cpp, src/src/driver_configuration.cpp:
      [Configuration].
    - src/src/cc_sketch_alg.cpp: class [CCSketchAlg]. Ingestion (constructor,
      [pre_insert], batches, raw deltas, [update]) is in [CCSketchAlg]; the split
      of the parallel loops in [Partition]; the regrouping of nodes between
      rounds in [MergeInstr]; the rounds and the emulation loop in [Boruvka];
      the queries in [CCQuery].
    - src/src/return_types.cpp: query results. [ReturnTypes].
    - src/include/graph_sketch_driver.h, src/include/worker_thread_group.h: the
      stream driver and its worker threads. [Driver] is a step relation of the
      threads of [process_stream_until] and [prep_query], against the interface
      [Driver.AlgMeaning] of an algorithm; [DriverProgress] has its progress
      argument and [CCDriver] the instance for [CCSketchAlg].
    - src/src/mc_sketch_alg.cpp: class [MCSketchAlg], several sketch graphs over one
      set of nodes. [MCSketchAlg] has the operations, [MCFilter] the threads of
      [filter_sf_edges], [MCQuery] the queries and [MCProps] the properties; [MCSerial]
      has its saving and loading. [ManagedSketch] has the constructors that build
      sketches in memory shared with the GPU and shows that they build the same sketches.
    - src/tools/min_cut.cu: the program that answers minimum cuts. [MinCutQuery] has its
      parameters and its query loop, [MinCutProps] what the answer says.
    - src/src/edge_store.cpp: class [EdgeStore], adjacency lists of the edges that are
      too deep for the sketch graphs. [EdgeStore] has the operations,
      [EdgeStoreSpec] the merge into a vertex's list, [EdgeStoreInv] the invariant
      of the store through its contractions.
    - src/src/mc_gpu_sketch_alg.cpp: class [MCGPUSketchAlg] divides the updates among
      sketch graphs and the store. [McGpu] has the operations, [McGpuSpec] the
      gutters and buffers, [McGpuProps] the property of a whole run.

    - [write_binary], [construct_from_serialized_data] and the sketch's own reading and
      writing: [Serial], [SerialSpec].
    - src/src/cuda_kernel.cu: the kernels that update sketches on a GPU. [CudaKernel];
      [CudaKernelSpec] compares them with [Sketch].
    - src/include/cuda_stream.h: class [CudaStream], the buffers between host and GPU.
      [CudaStream], [CudaStreamSpec] (the invariant of its halves), [CudaStreamProps];
      the mode in which the sketches lie in managed memory, where the kernels write
      them directly, is in [CudaUvm], [CudaUvmSpec], [CudaUvmProps].
    - src/src/cc_gpu_sketch_alg.cpp: class [CCGPUSketchAlg], [CCSketchAlg] with a
      stream per worker. [CCGpu], [CCGpuSpec]. The stream gives its deltas to the
      interface [CudaStream.RawBucketsAlg], which [CCSketchAlg] implements.
    - src/src/sk_gpu_sketch_alg.cpp: class [SKGPUSketchAlg] records batches that concurrent
      workers give it and updates all sketches afterwards, on CPU threads, in one kernel
      launch or through streams. [SkGpu], [SkGpuSpec] (the buffer the workers share),
      [SkGpuProps].
    - src/test/util/graph_verifier.cpp: class [GraphVerifier], the exact check of query
      answers. [GraphVerifier], [GraphVerifierSpec] (the matrix and Kruskal's algorithm),
      [GraphVerifierProps] (the two checks).
    - src/CUDAtest/include/binary_graph_stream.h: the readers of a binary stream file, of
      one thread and of threads that share it. [BinStream] has the operations and the steps,
      [BinStreamSpec] the file format and one reader, [BinStreamMT] the invariant of the
      threads, [BinStreamProps] the properties.
    - src/tools/stream_generators: the programs that write streams and METIS files.
      [StreamGen], [StreamGenSpec] (what a file has been given so far), [StreamGenProps].
    - src/tools/converter, src/tools/others/stream_shuffler.cpp,
      src/tools/adjlist_test.cpp: programs that turn one file into another. [StreamTools],
      [StreamToolsSpec] (writing through an array), [StreamToolsProps].
    - [Typing] states which words, array lengths and indices every state of a sketch and
      of [CCSketchAlg] has.

    [Prelude] (this file) holds machine words, the error monad, parity sets and
    interleavings; [Bytes] words as bytes; [Float64] the arithmetic of [double]; [Graph] the
    graph theory: edges as indices, cuts, connectivity, forests; [Concrete] the
    instances of the parameters that the examples use.

    ** How state and effects are modelled

    Words are [N] with their wrap-around written out, node ids and array indices
    are [nat], [double] is the Standard Library's binary64. An array access out
    of bounds is the error [OutOfBounds], a C++ exception is another error of
    [outcome], so a theorem that ends in [Ok] also says that nothing is accessed
    out of bounds. An operation that can throw half way returns the outcome and
    the state it leaves ([CCQuery.boruvka_emulation]).

    A parallel section is the list of its threads' programs, each a list of
    atomic actions, and an arbitrary schedule that interleaves them
    ([Prelude.interleave]); theorems quantify over the schedule. The actions of
    a merging round are the locked merges into a shared sketch, the samples of
    a sketch together with the union-find merge they cause, and the write of a
    merge count; those of the regrouping are the root lookups, the atomic
    captures and the writes. In [Driver] the steps are those of the queue, the
    mutexes and the condition variables; [pre_insert] and one batch are one step
    each. An operation of [EdgeStore] or [McGpu] runs alone. In [CudaKernel] the
    steps are the accesses of the GPU's threads to shared and global memory. In
    [CudaStream] the device does any number of the queued operations before each
    call of the host; the two only share what the queued operations name. In
    [BinStream] and [DsuMT] a step is one access of a thread to an atomic that the threads
    share; what a thread then does to its own memory belongs to the step. The memory is
    sequentially consistent, the order the code asks of its atomics except for one relaxed
    fetch-and-add, whose offset is accessed by nothing but atomics. The programs of
    [StreamGen] and [StreamTools] are functions from what they read, and the random
    numbers they draw, to the calls they make of the stream file and the lines they write.

    ** What the theorems show

    - [SketchSpec]: whatever its history, a sketch holds exactly the indices
      toggled an odd number of times, and what a sample says of them.
    - [Dsu]: sequences of merges build the equivalence closure, in a forest
      ordered by priority. [DsuMTProps]: merges of concurrent threads act one at a time
      and each finishes in a bounded number of its own steps; concurrent searches find the
      roots of a forest whose paths have at most two links, and on longer paths may not.
    - [CCSketchAlg]: updates and batches keep every node's sketch equal to its
      incident edges and the cached answer right whenever it is marked valid.
    - [MergeInstr], [BoruvkaRound], [BoruvkaThreads], [BoruvkaLoop]: every
      schedule of every round merges each component's sketches exactly once,
      samples it exactly once, and the emulation ends within one round per
      sample with the connectivity and a spanning forest, or throws.
      [BoruvkaRound] proves the round against the interface [RoundMeaning],
      which says what a sketch holds and what a sample promises; the rounds with
      samples left and without are its two instances.
    - [CCQuery]: each query answers about the current graph and leaves a state
      the next operation can rely on, or throws OutOfSamples.
    - [Driver], [CCDriver]: updates are conserved between the stream, the gutters, the
      queue and the sketches in every reachable state; a query that returns from
      its flush sees the whole stream; the flush can always finish after start-up
      and can hang after a query.
    - [MCProps]: each sketch graph follows its own graph; the disjoint forests of a
      graph are right and leave it unchanged.
    - [MinCutProps]: [k] disjoint spanning forests keep every cut of fewer than [k] edges,
      so the cut answered is a cut of a sampled graph with the value reported, and a
      smallest one when VieCut finds a smallest one of the certificate.
    - [McGpuProps]: after a flush, sketch graphs and edge store hold each edge's
      updates on exactly one side, through any number of contractions.
    - [SerialSpec]: a saved algorithm is loaded bit for bit and answers about the same
      graph.
    - [CudaKernelSpec]: under any schedule of a launch, the kernels leave the buckets
      that the host's sketches would have.
    - [DeviceHashProps]: the device hash of a key of any length reads only the key and the
      secret, and gives the published values; the two builds of the 32-bit hash agree.
    - [CudaStreamProps]: every batch given to a stream is applied exactly once by one
      flush, however far the device is at each call.
    - [CCGpuSpec]: a whole run of the GPU algorithm, from construction to the flush,
      leaves the sketches of its batches.
    - [CudaUvmProps], [SkGpuProps]: the same of runs over managed memory and of the three
      ways of the single-kernel algorithm.
    - [Typing]: every operation, returned or thrown, keeps the state in its types.
    - [GraphVerifierProps]: the verifier accepts exactly the right answers; those of
      [CCSketchAlg] pass a verifier of the same stream.
    - [BinStreamProps]: a reader returns the file; threads that share a stream return
      every update once whatever the schedule, all stop, and a registered query splits
      the updates exactly at its index.
    - [StreamGenProps]: each generator writes as many updates as its header says; what
      they insert and delete is a stream of the intended graph, and the METIS file lists
      the same edges.
    - [StreamToolsProps]: the METIS file of an edge list has each edge twice and the
      counts it states; a shuffled stream of distinct insertions is converted to the
      same edge list.
    - [Partition], [Util]: where rounding and 32-bit arithmetic break the code.

    ** Hypotheses

    [MergeInstr], [Boruvka] and [ReturnTypes] take a merge and a search for a root as one
    step. For merges [DsuMTProps.concurrent_merges_linearize] justifies it. For searches it is
    a hypothesis: [DsuMTProps.concurrent_finds_on_shallow_forest] gives it while paths are
    short, and [DsuMTProps.concurrent_find_misses_root] shows that the code does not give it
    in general.

    A sketch finds edges only while its checksums do not collide: theorems on
    samples assume [SketchSpec.checksum_sound] of the current edge set, which
    [SketchSpec.checksum_soundb] decides. The split among threads is computed
    in floating point and is not always right; theorems on parallel rounds
    assume [Partition.partition_ok], which [Partition.partition_okb] decides.
    The host hashes with the XXH3 library and the GPU with the program's own code:
    theorems on kernels assume [CudaKernelSpec.device_hash_agrees], that the two
    agree, and the CameoSketch build, the only one the kernels implement. A stream
    is right if it was sent at least one full half before its only flush; without
    that it is not ([CudaStreamProps.second_flush_applies_again],
    [CudaStreamProps.early_flush_applies_junk]).
    A read of a stream file's bytes is assumed to give all of them
    ([BinStreamProps.reads_fully]); it need not, and then the readers are wrong
    ([BinStreamProps.short_read_makes_up_updates]). The random generator's numbers are in
    the range asked for and vary ([StreamGenProps.draws_in_range],
    [StreamGenProps.draws_vary]); a shuffle is a permutation.
    VieCut is assumed to return a cut with its value ([MinCutProps.viecut_sound]); that
    it is a smallest one is assumed only where the theorem says so.

    ** Fuel

    [Dsu.find_root] gets one more turn than there are nodes; a path rises in
    priority, so it is never longer. [Boruvka.boruvka_rounds] gets two more turns
    than a sketch has samples; a round without a sample left throws.
    [EdgeStore.vertex_advance_loop] takes a ticket per turn and there is one per
    vertex; [DeviceHash32.XXH32_blocks] and [DeviceHash32.rerolled4] take a turn per block
    and get one per byte; [McGpu.flush_task] hands out a vertex or ends per turn.
    [BinStream.pread_loop] gets one more turn than the bytes it is to read;
    [StreamGen.reroll] as many as the random numbers need to vary;
    [StreamTools.read_stream] ends with the breakpoint that ends every stream.
    [MergeInstr.last_of_root] gets one more turn than there are instructions;
    the search halves its range. All are proved to be enough.

    ** Not modelled

    The guttering system, the library's own stream classes and VieCut (other
    repositories; a gutter's contents, the stream's updates and the computed cut are
    parameters), the CUDA runtime beyond the order of a stream's operations, printing and
    timing. The remaining command-line tools parse arguments and time parts that are
    modelled; k_connectivity.cu and og_k_connectivity.cpp use classes the repository no
    longer has. Of src/CUDAtest, an earlier prototype that no build target uses, the
    sketches, the supernodes and the graph are left out: they are superseded by the
    classes above. *)

From Stdlib Require Import NArith Lia.
From stdpp Require Import base list gmap sets fin_sets numbers.

Declare Scope gz_scope.
Delimit Scope gz_scope with gz.

(** ** Machine words

    Every integer type of the program is unsigned, so words are [N] and a
    [w]-bit operation writes its wrap-around out. *)

Definition wrap (w x : N) : N := (x mod 2 ^ w)%N.
Abbreviation u32 := (wrap 32).
Abbreviation u64 := (wrap 64).

(** [a - b] on [w]-bit unsigned operands. *)
Definition wsub (w a b : N) : N := wrap w (a + (2 ^ w - wrap w b))%N.

Lemma pow2_pos (w : N) : (0 < 2 ^ w)%N.
Proof. apply N.neq_0_lt_0, N.pow_nonzero; lia. Qed.

Lemma wrap_lt (w x : N) : (wrap w x < 2 ^ w)%N.
Proof. apply N.mod_lt, N.pow_nonzero; lia. Qed.

Lemma wrap_small (w x : N) : (x < 2 ^ w)%N → wrap w x = x.
Proof. apply N.mod_small. Qed.

Lemma wrap_wrap (w x : N) : wrap w (wrap w x) = wrap w x.
Proof. apply wrap_small, wrap_lt. Qed.

Lemma wsub_small (w a b : N) : (b ≤ a)%N → (a < 2 ^ w)%N → wsub w a b = (a - b)%N.
Proof.
  intros Hba Ha. unfold wsub. rewrite (wrap_small w b) by lia. unfold wrap.
  replace (a + (2 ^ w - b))%N with ((a - b) + 1 * 2 ^ w)%N by lia.
  rewrite N.Div0.mod_add. apply N.mod_small. lia.
Qed.

Lemma testbit_lt_pow2 (w x i : N) : (x < 2 ^ w)%N → (w ≤ i)%N → N.testbit x i = false.
Proof.
  intros Hx Hi. destruct (decide (x = 0%N)) as [->|Hnz]; [apply N.bits_0|].
  apply N.bits_above_log2. apply N.log2_lt_pow2; [lia|].
  apply N.lt_le_trans with (2 ^ w)%N; [done|]. apply N.pow_le_mono_r; lia.
Qed.

(** A value whose bits at [w] and above are all clear fits in [w] bits. *)
Lemma lt_pow2_testbit (w x : N) : (∀ i, (w ≤ i)%N → N.testbit x i = false) → (x < 2 ^ w)%N.
Proof.
  intros Hb. destruct (decide (x = 0%N)) as [->|Hnz]; [apply pow2_pos|].
  apply N.log2_lt_pow2; [lia|]. apply N.nle_gt. intros Hle.
  specialize (Hb _ Hle). by rewrite N.bit_log2 in Hb.
Qed.

Lemma lxor_lt (w x y : N) : (x < 2 ^ w)%N → (y < 2 ^ w)%N → (N.lxor x y < 2 ^ w)%N.
Proof.
  intros Hx Hy. apply lt_pow2_testbit. intros i Hi.
  by rewrite N.lxor_spec, (testbit_lt_pow2 w x), (testbit_lt_pow2 w y).
Qed.

Lemma lor_lt (w x y : N) : (x < 2 ^ w)%N → (y < 2 ^ w)%N → (N.lor x y < 2 ^ w)%N.
Proof.
  intros Hx Hy. apply lt_pow2_testbit. intros i Hi.
  by rewrite N.lor_spec, (testbit_lt_pow2 w x), (testbit_lt_pow2 w y).
Qed.

(** ** Outcomes

    A C++ call returns, throws an exception of the program, or has undefined
    behaviour (an access outside an array). *)

Inductive exn :=
  | OutOfSamplesException (seed : N) (num_samples sample_idx : nat)
  | UpdateLockedException
  | BadEdgeException
  | IncorrectCCException
  | IncorrectForestException
  | RuntimeError
  | OutOfBounds
  | OutOfFuel
  | AssertionFailed
  | BadStreamException
  | StreamFailedException.

Inductive outcome (A : Type) :=
  | Ok (a : A)
  | Throw (e : exn).
Arguments Ok {A} a.
Arguments Throw {A} e.

#[global] Instance exn_eq_dec : EqDecision exn.
Proof. solve_decision. Defined.

#[global] Instance outcome_ret : MRet outcome := λ A a, Ok a.
#[global] Instance outcome_bind : MBind outcome := λ A B f m,
  match m with Ok a => f a | Throw e => Throw e end.
#[global] Instance outcome_fmap : FMap outcome := λ A B f m,
  match m with Ok a => Ok (f a) | Throw e => Throw e end.

(** Checked array access: outside the array the behaviour is undefined. *)
Definition arr_get {A} (l : list A) (i : nat) : outcome A :=
  match l !! i with Some x => Ok x | None => Throw OutOfBounds end.

Definition arr_set {A} (l : list A) (i : nat) (x : A) : outcome (list A) :=
  if decide (i < length l) then Ok (<[i := x]> l) else Throw OutOfBounds.

Lemma arr_get_Ok {A} (l : list A) i x : l !! i = Some x → arr_get l i = Ok x.
Proof. intros H. unfold arr_get. by rewrite H. Qed.

Lemma arr_get_inv {A} (l : list A) i x : arr_get l i = Ok x → l !! i = Some x.
Proof. unfold arr_get. destruct (l !! i); naive_solver. Qed.

Lemma arr_set_Ok {A} (l : list A) i x : i < length l → arr_set l i x = Ok (<[i := x]> l).
Proof. intros H. unfold arr_set. by rewrite decide_True. Qed.

Lemma sum_list_with_insert {X} (f : X → nat) (l : list X) i x y :
  l !! i = Some x → sum_list_with f (<[i := y]> l) + f x = sum_list_with f l + f y.
Proof.
  revert i. induction l as [|z l IH]; intros [|i] Hi; simpl in *; [done|done| |].
  - injection Hi as ->. lia.
  - specialize (IH i Hi). lia.
Qed.

(** Run a list of computations in order. *)
Fixpoint outcome_list {A} (l : list (outcome A)) : outcome (list A) :=
  match l with
  | [] => Ok []
  | x :: l => x ← x; l ← outcome_list l; Ok (x :: l)
  end.

Lemma outcome_list_fmap {A B} (f : A → outcome B) (g : A → B) (l : list A) :
  (∀ x, x ∈ l → f x = Ok (g x)) → outcome_list (f <$> l) = Ok (g <$> l).
Proof.
  induction l as [|x l IH]; intros Hf; [done|].
  rewrite !fmap_cons. cbn [outcome_list]. rewrite Hf, IH by set_solver. done.
Qed.

Lemma outcome_list_imap {A B} (f : nat → A → outcome B) (g : nat → A → B) (l : list A) :
  (∀ i x, l !! i = Some x → f i x = Ok (g i x)) → outcome_list (imap f l) = Ok (imap g l).
Proof.
  revert f g. induction l as [|x l IH]; intros f g Hf; [done|]. cbn [imap outcome_list].
  rewrite (Hf 0 x), (IH _ (g ∘ S)); [done| |done]. intros i y. apply (Hf (S i)).
Qed.

(** Run a sequence of steps from a state, stopping at the first exception. *)
Fixpoint outcome_fold {A S} (step : S → A → outcome S) (st : S) (l : list A) : outcome S :=
  match l with
  | [] => Ok st
  | a :: l => st ← step st a; outcome_fold step st l
  end.

Lemma outcome_fold_app {A S} (step : S → A → outcome S) (l1 l2 : list A) st :
  outcome_fold step st (l1 ++ l2) = (st ← outcome_fold step st l1; outcome_fold step st l2).
Proof.
  revert st. induction l1 as [|a l1 IH]; intros st; [done|]. cbn [outcome_fold app].
  destruct (step st a); [apply IH|done].
Qed.

Lemma outcome_fold_fmap {A B S} (f : B → A) (step : S → A → outcome S) (l : list B) st :
  outcome_fold step st (f <$> l) = outcome_fold (λ st b, step st (f b)) st l.
Proof.
  revert st. induction l as [|b l IH]; intros st; [done|]. rewrite fmap_cons.
  cbn [outcome_fold]. destruct (step st (f b)); [apply IH|done].
Qed.

(** What every successful step preserves holds after the run. *)
Lemma outcome_fold_inv {A S} (step : S → A → outcome S) (P : S → Prop) (l : list A) st st' :
  (∀ st a st', step st a = Ok st' → P st → P st') → outcome_fold step st l = Ok st' → P st → P st'.
Proof.
  intros Hstep. revert st. induction l as [|a l IH]; intros st Hrun Hst; cbn [outcome_fold] in Hrun; [by injection Hrun as <-|].
  destruct (step st a) as [st1|] eqn:Hone; [|done]. by apply (IH st1); [|by eapply Hstep].
Qed.

(** ** Parity sets

    An update stream toggles coordinates of a vector over the two-element
    field, so the abstract value of a stream is the finite set of coordinates
    toggled an odd number of times. *)

Section parity.
Context {A : Type} `{Countable A}.
Implicit Types (x y : A) (X Y Z : gset A).

Definition toggle x X : gset A := if decide (x ∈ X) then X ∖ {[x]} else {[x]} ∪ X.
Definition symdiff X Y : gset A := (X ∖ Y) ∪ (Y ∖ X).
Definition toggle_all (l : list A) X : gset A := foldl (λ X x, toggle x X) X l.

Lemma elem_of_toggle x y X : y ∈ toggle x X ↔ (y = x ∧ y ∉ X) ∨ (y ≠ x ∧ y ∈ X).
Proof. unfold toggle. destruct (decide (y = x)); case_decide; set_solver. Qed.

Lemma elem_of_symdiff x X Y : x ∈ symdiff X Y ↔ (x ∈ X ∧ x ∉ Y) ∨ (x ∈ Y ∧ x ∉ X).
Proof. unfold symdiff. set_solver. Qed.

Lemma symdiff_comm X Y : symdiff X Y = symdiff Y X.
Proof. apply set_eq. intros z. rewrite !elem_of_symdiff. naive_solver. Qed.

Lemma symdiff_assoc X Y Z : symdiff X (symdiff Y Z) = symdiff (symdiff X Y) Z.
Proof.
  apply set_eq. intros z. rewrite !elem_of_symdiff.
  destruct (decide (z ∈ X)), (decide (z ∈ Y)), (decide (z ∈ Z)); naive_solver.
Qed.

Lemma symdiff_nilpotent X : symdiff X X = ∅.
Proof. apply set_eq. intros z. rewrite elem_of_symdiff. set_solver. Qed.

Lemma symdiff_empty_l X : symdiff ∅ X = X.
Proof. apply set_eq. intros z. rewrite elem_of_symdiff. set_solver. Qed.

Lemma symdiff_empty_r X : symdiff X ∅ = X.
Proof. rewrite symdiff_comm. apply symdiff_empty_l. Qed.

Lemma toggle_symdiff x X : toggle x X = symdiff {[x]} X.
Proof.
  apply set_eq. intros z. rewrite elem_of_toggle, elem_of_symdiff, elem_of_singleton.
  naive_solver.
Qed.

Lemma toggle_toggle x X : toggle x (toggle x X) = X.
Proof. by rewrite !toggle_symdiff, symdiff_assoc, symdiff_nilpotent, symdiff_empty_l. Qed.

Lemma toggle_comm x y X : toggle x (toggle y X) = toggle y (toggle x X).
Proof.
  rewrite !toggle_symdiff, !symdiff_assoc. by rewrite (symdiff_comm {[x]} {[y]}).
Qed.

Lemma toggle_symdiff_l x X Y : toggle x (symdiff X Y) = symdiff (toggle x X) Y.
Proof. by rewrite !toggle_symdiff, symdiff_assoc. Qed.

Lemma toggle_all_symdiff l X Y : toggle_all l (symdiff X Y) = symdiff (toggle_all l X) Y.
Proof.
  revert X. induction l as [|x l IH]; intros X; simpl; [done|].
  by rewrite toggle_symdiff_l, IH.
Qed.

Lemma toggle_all_empty l X : toggle_all l X = symdiff X (toggle_all l ∅).
Proof.
  rewrite <- (symdiff_empty_l X) at 1. rewrite toggle_all_symdiff. apply symdiff_comm.
Qed.

Lemma toggle_all_involutive l X : toggle_all l (toggle_all l X) = X.
Proof.
  rewrite (toggle_all_empty l (toggle_all l X)), (toggle_all_empty l X).
  by rewrite <- symdiff_assoc, symdiff_nilpotent, symdiff_empty_r.
Qed.

(** Toggling members of a set, each once, removes them. *)
Lemma toggle_all_difference l X :
  NoDup l → list_to_set l ⊆ X → toggle_all l X = X ∖ list_to_set l.
Proof.
  revert X. induction l as [|x l IH]; intros X Hnd Hsub; simpl; [set_solver|].
  apply list.NoDup_cons in Hnd as [Hx Hnd]. simpl in Hsub.
  assert (toggle x X = X ∖ {[x]}) as -> by (unfold toggle; rewrite decide_True by set_solver; done).
  rewrite IH; [set_solver|done|]. intros y Hy. apply elem_of_difference. split; [set_solver|].
  rewrite elem_of_singleton. intros ->. apply Hx. by apply elem_of_list_to_set in Hy.
Qed.

Lemma toggle_all_app l1 l2 X : toggle_all (l1 ++ l2) X = toggle_all l2 (toggle_all l1 X).
Proof. unfold toggle_all. by rewrite foldl_app. Qed.

Lemma toggle_all_perm l1 l2 X : l1 ≡ₚ l2 → toggle_all l1 X = toggle_all l2 X.
Proof.
  intros Hp. revert X. induction Hp as [| | |? ? ? ? IH1 ? IH2]; intros X; simpl; try done.
  - by rewrite toggle_comm.
  - by rewrite IH1, IH2.
Qed.
End parity.

(** ** Exclusive-or over a finite set *)

Section xsum.
Context {A : Type} `{Countable A}.
Implicit Types (f : A → N) (x : A) (X Y : gset A).

Definition xor_all (l : list N) : N := foldr N.lxor 0%N l.
Definition xsum f X : N := xor_all (f <$> elements X).

#[local] Instance lxor_comm_inst : Comm (=) N.lxor.
Proof. intros x y. apply N.lxor_comm. Qed.

Lemma xor_all_perm (l1 l2 : list N) : l1 ≡ₚ l2 → xor_all l1 = xor_all l2.
Proof.
  induction 1; simpl; try congruence.
  by rewrite <- !N.lxor_assoc, (N.lxor_comm y x).
Qed.

Lemma xsum_empty f : xsum f ∅ = 0%N.
Proof. unfold xsum. by rewrite elements_empty. Qed.

Lemma xsum_singleton f x : xsum f {[x]} = f x.
Proof. unfold xsum. rewrite elements_singleton. simpl. apply N.lxor_0_r. Qed.

Lemma xsum_insert f x X : x ∉ X → xsum f ({[x]} ∪ X) = N.lxor (f x) (xsum f X).
Proof.
  intros Hx. unfold xsum.
  rewrite (xor_all_perm _ (f <$> (x :: elements X))); [done|].
  apply fmap_Permutation, elements_union_singleton, Hx.
Qed.

Lemma xsum_toggle f x X : xsum f (toggle x X) = N.lxor (f x) (xsum f X).
Proof.
  unfold toggle. case_decide as Hx; [|by apply xsum_insert].
  assert (X = {[x]} ∪ X ∖ {[x]}) as HX
    by (apply union_difference_L; set_solver).
  rewrite HX at 2. rewrite xsum_insert by set_solver.
  by rewrite <- N.lxor_assoc, N.lxor_nilpotent, N.lxor_0_l.
Qed.

Lemma xsum_symdiff f X Y : xsum f (symdiff X Y) = N.lxor (xsum f X) (xsum f Y).
Proof.
  induction X as [|x X Hx IH] using set_ind_L.
  - by rewrite symdiff_empty_l, xsum_empty, N.lxor_0_l.
  - replace ({[x]} ∪ X) with (toggle x X) by (unfold toggle; by rewrite decide_False).
    by rewrite <- toggle_symdiff_l, !xsum_toggle, IH, N.lxor_assoc.
Qed.

Lemma xsum_ext f g X : (∀ x, x ∈ X → f x = g x) → xsum f X = xsum g X.
Proof.
  intros Hfg. unfold xsum. f_equal. apply list_fmap_ext. intros i x Hi.
  apply Hfg, elem_of_elements, list_elem_of_lookup. eauto.
Qed.

Lemma filter_none_L (b : A → bool) X :
  (∀ x, x ∈ X → b x = false) → filter (λ x, b x = true) X = ∅.
Proof.
  intros Hb. apply set_eq. intros z. rewrite elem_of_filter. split; [|set_solver].
  intros [Hz HzX]. apply Hb in HzX. congruence.
Qed.

Lemma filter_insert_true (b : A → bool) x X :
  b x = true → filter (λ x, b x = true) ({[x]} ∪ X) = {[x]} ∪ filter (λ x, b x = true) X.
Proof.
  intros Hb. apply set_eq. intros z.
  rewrite elem_of_union, !elem_of_filter, elem_of_union, elem_of_singleton. split.
  - intros [? [->|?]]; auto.
  - intros [->|[? ?]]; auto.
Qed.

Lemma filter_insert_false (b : A → bool) x X :
  b x = false → filter (λ x, b x = true) ({[x]} ∪ X) = filter (λ x, b x = true) X.
Proof.
  intros Hb. apply set_eq. intros z.
  rewrite !elem_of_filter, elem_of_union, elem_of_singleton. split.
  - intros [? [->|?]]; [congruence|auto].
  - intros [? ?]; auto.
Qed.

(** Masking the summand is summing over the filtered set. *)
Lemma xsum_mask (b : A → bool) f X :
  xsum (λ x, if b x then f x else 0%N) X = xsum f (filter (λ x, b x = true) X).
Proof.
  induction X as [|x X Hx IH] using set_ind_L.
  - rewrite xsum_empty, (filter_none_L b ∅), xsum_empty; set_solver.
  - rewrite xsum_insert by done. rewrite IH. destruct (b x) eqn:Hb.
    + rewrite filter_insert_true by done.
      rewrite xsum_insert; [done|]. rewrite elem_of_filter. by intros [_ ?].
    + rewrite filter_insert_false by done. apply N.lxor_0_l.
Qed.

Lemma xsum_lt w f X : (∀ x, x ∈ X → (f x < 2 ^ w)%N) → (xsum f X < 2 ^ w)%N.
Proof.
  induction X as [|x X Hx IH] using set_ind_L; intros Hf.
  - rewrite xsum_empty. apply pow2_pos.
  - rewrite xsum_insert by done. apply lxor_lt; [apply Hf; set_solver|].
    apply IH. set_solver.
Qed.
End xsum.

(** Symmetric difference of a family, used for "exclusive-or of the sketches of
    a component". *)
Definition symdiff_all `{Countable A} (l : list (gset A)) : gset A := foldr symdiff ∅ l.

Lemma symdiff_all_app `{Countable A} (l1 l2 : list (gset A)) :
  symdiff_all (l1 ++ l2) = symdiff (symdiff_all l1) (symdiff_all l2).
Proof.
  induction l1 as [|X l1 IH]; simpl; [by rewrite symdiff_empty_l|].
  by rewrite IH, symdiff_assoc.
Qed.

Lemma symdiff_all_perm `{Countable A} (l1 l2 : list (gset A)) :
  l1 ≡ₚ l2 → symdiff_all l1 = symdiff_all l2.
Proof.
  induction 1 as [|X l1 l2 _ IH|X Y l|l1 l2 l3 _ IH1 _ IH2]; simpl; [done|by rewrite IH| |congruence].
  rewrite !symdiff_assoc. by rewrite (symdiff_comm X Y).
Qed.

(** The part of a concatenation that one entry makes. *)
Lemma concat_fmap_entry {A B} (f : A → list B) (l : list A) i x :
  l !! i = Some x →
  ∃ rest, concat (f <$> l) ≡ₚ f x ++ rest ∧ ∀ y, concat (f <$> <[i := y]> l) ≡ₚ f y ++ rest.
Proof.
  intros Hx. exists (concat (f <$> take i l) ++ concat (f <$> drop (S i) l)).
  assert (∀ y, concat (f <$> (take i l ++ y :: drop (S i) l)) ≡ₚ
    f y ++ concat (f <$> take i l) ++ concat (f <$> drop (S i) l)) as Hperm.
  { intros y. rewrite fmap_app, concat_app. cbn [fmap list_fmap concat]. solve_Permutation. }
  split; [by rewrite <- Hperm, take_drop_middle|]. intros y. rewrite <- Hperm, insert_take_drop; [done|].
  by eapply lookup_lt_Some.
Qed.

Lemma concat_fmap_perm {A B} (f : A → list B) (l l' : list A) :
  l ≡ₚ l' → concat (f <$> l) ≡ₚ concat (f <$> l').
Proof.
  induction 1 as [|x l l' _ IH|x y l|l1 l2 l3 _ IH1 _ IH2]; simpl; [done| | |by etrans].
  - by rewrite IH.
  - rewrite !app_assoc. f_equiv. apply Permutation_app_comm.
Qed.

(** ** Interleavings

    Threads are lists of atomic actions. A schedule is a list of thread ids:
    each takes the next action of that thread, if it has one; when the schedule
    ends the remaining actions run thread by thread. Every interleaving is the
    run of some schedule. *)

Section interleave.
Context {A : Type}.
Implicit Types (ts : list (list A)) (sched : list nat).

Fixpoint interleave sched ts : list (nat * A) :=
  match sched with
  | [] => concat (imap (λ t l, (t,.) <$> l) ts)
  | t :: sched =>
      match ts !! t with
      | Some (a :: l) => (t, a) :: interleave sched (<[t := l]> ts)
      | _ => interleave sched ts
      end
  end.

Lemma snd_pair_fmap (t : nat) (l : list A) : ((t,.) <$> l).*2 = l.
Proof. induction l as [|a l IH]; [done|]. simpl. by rewrite <- IH at 2. Qed.

Lemma snd_concat_imap (k : nat → nat) ts :
  (concat (imap (λ t l, (k t,.) <$> l) ts)).*2 = concat ts.
Proof.
  revert k. induction ts as [|l ts IH]; intros k; simpl; [done|].
  rewrite fmap_app, snd_pair_fmap. f_equal.
  specialize (IH (k ∘ S)). by rewrite <- IH.
Qed.

Lemma concat_take_drop ts t a l :
  ts !! t = Some (a :: l) → concat ts ≡ₚ a :: concat (<[t := l]> ts).
Proof.
  intros Ht. rewrite <- (take_drop_middle ts t (a :: l)) at 1 by done.
  rewrite insert_take_drop by (by eapply lookup_lt_Some).
  rewrite !concat_app. simpl. symmetry. apply Permutation_middle.
Qed.

(** Every action runs exactly once. *)
Lemma interleave_perm sched ts : (interleave sched ts).*2 ≡ₚ concat ts.
Proof.
  revert ts. induction sched as [|t sched IH]; intros ts; simpl.
  - by rewrite (snd_concat_imap id).
  - destruct (ts !! t) as [[|a l]|] eqn:Ht; [apply IH| |apply IH]. simpl.
    rewrite IH. symmetry. by apply concat_take_drop.
Qed.

(** The actions of one thread run in the thread's order. *)
Definition thread_of (t : nat) (l : list (nat * A)) : list A :=
  (filter (λ x, x.1 = t) l).*2.

Lemma thread_of_app t l1 l2 : thread_of t (l1 ++ l2) = thread_of t l1 ++ thread_of t l2.
Proof. unfold thread_of. by rewrite list.filter_app, fmap_app. Qed.

Lemma thread_of_cons t u a l :
  thread_of t ((u, a) :: l) = if decide (u = t) then a :: thread_of t l else thread_of t l.
Proof. unfold thread_of. rewrite filter_cons. simpl. by repeat case_decide. Qed.

Lemma thread_of_pairs t k l : thread_of t ((k,.) <$> l) = if decide (k = t) then l else [].
Proof.
  unfold thread_of. induction l as [|a l IH]; simpl; [by case_decide|].
  rewrite filter_cons. simpl. repeat case_decide; try done.
  simpl. by f_equal.
Qed.

Lemma thread_of_others (f : nat → nat) t ts :
  (∀ i, f i ≠ t) → thread_of t (concat (imap (λ i l, (f i,.) <$> l) ts)) = [].
Proof.
  revert f. induction ts as [|l ts IH]; intros f Hf; simpl; [done|].
  rewrite thread_of_app, thread_of_pairs, decide_False by apply Hf. simpl.
  apply (IH (f ∘ S)). intros i. apply Hf.
Qed.

Lemma thread_of_rest (f : nat → nat) t ts :
  Inj (=) (=) f →
  thread_of (f t) (concat (imap (λ i l, (f i,.) <$> l) ts)) = default [] (ts !! t).
Proof.
  revert f t. induction ts as [|l ts IH]; intros f t Hf; simpl; [done|].
  rewrite thread_of_app, thread_of_pairs. destruct t as [|t]; simpl.
  - rewrite decide_True by done.
    rewrite <- (app_nil_r l) at 2. f_equal.
    apply (thread_of_others (f ∘ S)). intros i Hi. by apply (inj f) in Hi.
  - rewrite decide_False by (intros Hi; by apply (inj f) in Hi). simpl.
    apply (IH (f ∘ S)). intros x y Hxy. apply (inj f) in Hxy. by injection Hxy.
Qed.

Lemma thread_of_interleave sched ts t :
  thread_of t (interleave sched ts) = default [] (ts !! t).
Proof.
  revert ts. induction sched as [|u sched IH]; intros ts; simpl.
  - apply (thread_of_rest id t ts). by intros x y.
  - destruct (ts !! u) as [[|a l]|] eqn:Hu; [apply IH| |apply IH].
    rewrite thread_of_cons, IH. case_decide as Ht.
    + subst u. rewrite list_lookup_insert_eq by (by eapply lookup_lt_Some). by rewrite Hu.
    + by rewrite list_lookup_insert_ne by done.
Qed.

(** Collecting the actions thread by thread loses none of them. *)
Lemma thread_of_concat T (l : list (nat * A)) :
  (∀ x, x ∈ l → x.1 < T) → concat ((λ t, thread_of t l) <$> seq 0 T) ≡ₚ l.*2.
Proof.
  induction l as [|[u a] l IH]; intros Hl; simpl.
  - clear. induction (seq 0 T); [done|]. by simpl.
  - rewrite <- IH by set_solver. clear IH.
    assert (∀ s k, s ≤ u < s + k →
      concat ((λ t, thread_of t ((u, a) :: l)) <$> seq s k) ≡ₚ
      a :: concat ((λ t, thread_of t l) <$> seq s k)) as Hk.
    { intros s k. revert s. induction k as [|k IHk]; intros s Hs; [lia|].
      cbn [seq]. rewrite !fmap_cons, !concat_cons, thread_of_cons. case_decide as Hu.
      - rewrite <- app_comm_cons. f_equiv. f_equiv.
        assert ((λ t, thread_of t ((u, a) :: l)) <$> seq (S s) k =
                (λ t, thread_of t l) <$> seq (S s) k) as ->; [|done].
        apply list_fmap_ext. intros i t Ht. apply lookup_seq in Ht as [-> _].
        rewrite thread_of_cons, decide_False by lia. done.
      - rewrite IHk by lia. symmetry. apply Permutation_middle. }
    apply Hk. specialize (Hl (u, a) ltac:(set_solver)). simpl in Hl. lia.
Qed.

Lemma interleave_lt sched ts x : x ∈ interleave sched ts → x.1 < length ts.
Proof.
  revert ts. induction sched as [|t sched IH]; intros ts; simpl.
  - rewrite list_elem_of_In, in_concat. intros (l & Hl & Hx). apply list_elem_of_In in Hl, Hx.
    apply list_elem_of_lookup in Hl as [i Hi]. rewrite list_lookup_imap in Hi.
    destruct (ts !! i) as [l'|] eqn:Hl; simpl in Hi; [|done]. injection Hi as <-.
    apply list_elem_of_fmap in Hx as (a & -> & _). simpl. by eapply lookup_lt_Some.
  - destruct (ts !! t) as [[|a l]|] eqn:Ht; [apply IH| |apply IH].
    rewrite elem_of_cons. intros [->|Hx]; [by eapply lookup_lt_Some|].
    apply IH in Hx. by rewrite length_insert in Hx.
Qed.

(** Rule induction over an interleaved run: a property of the remaining actions
    and the shared state that every enabled action preserves holds at the end,
    when no action remains. *)
Section invariant.
Context {S : Type} (step : S → nat * A → outcome S) (I : list (list A) → S → Prop).
Hypothesis Hstep : ∀ ts t a l st,
  ts !! t = Some (a :: l) → I ts st → ∃ st', step st (t, a) = Ok st' ∧ I (<[t := l]> ts) st'.

Lemma rest_invariant prefix rest st :
  Forall (λ l, l = []) prefix → I (prefix ++ rest) st →
  ∃ st' ts', outcome_fold step st
      (concat (imap (λ i l, (length prefix + i,.) <$> l) rest)) = Ok st' ∧
    Forall (λ l, l = []) ts' ∧ length ts' = length prefix + length rest ∧ I ts' st'.
Proof.
  revert prefix st. induction rest as [|l rest IH]; intros prefix st Hpre HI.
  { exists st, prefix. rewrite app_nil_r in HI. simpl. split_and!; (done || lia). }
  revert st HI. induction l as [|a l IHl]; intros st HI.
  - destruct (IH (prefix ++ [[]]) st) as (st' & ts' & Hrun & Hnil & Hlen & HI').
    + apply Forall_app. by repeat constructor.
    + by rewrite <- app_assoc.
    + exists st', ts'. split; [|split; [done|split; [|done]]].
      * rewrite <- Hrun. simpl. do 2 f_equal. apply imap_ext. intros i x _. simpl.
        by rewrite length_app, <- Nat.add_assoc.
      * rewrite Hlen, length_app. simpl. lia.
  - destruct (Hstep (prefix ++ (a :: l) :: rest) (length prefix) a l st)
      as (st1 & Hst1 & HI1); [by apply list_lookup_middle|done|].
    rewrite insert_app_r_alt, Nat.sub_diag in HI1 by done. simpl in HI1.
    destruct (IHl st1 HI1) as (st' & ts' & Hrun & Hnil & Hlen & HI').
    exists st', ts'. split; [|done]. simpl. rewrite Nat.add_0_r, Hst1. simpl.
    simpl in Hrun. by rewrite Nat.add_0_r in Hrun.
Qed.

Lemma interleave_invariant sched ts st :
  I ts st →
  ∃ st' ts', outcome_fold step st (interleave sched ts) = Ok st' ∧
    Forall (λ l, l = []) ts' ∧ length ts' = length ts ∧ I ts' st'.
Proof.
  revert ts st. induction sched as [|t sched IH]; intros ts st HI; simpl.
  { apply (rest_invariant [] ts st); [constructor|done]. }
  destruct (ts !! t) as [[|a l]|] eqn:Ht; [by apply IH| |by apply IH].
  destruct (Hstep ts t a l st Ht HI) as (st1 & Hst1 & HI1). simpl. rewrite Hst1. simpl.
  destruct (IH _ _ HI1) as (st' & ts' & Hrun & Hnil & Hlen & HI').
  exists st', ts'. rewrite length_insert in Hlen. done.
Qed.
End invariant.
End interleave.

Lemma interleave_fmap {A B} (f : A → B) (sched : list nat) (ts : list (list A)) :
  interleave sched ((λ l : list A, f <$> l) <$> ts) =
    (λ x : nat * A, (x.1, f x.2)) <$> interleave sched ts.
Proof.
  revert ts. induction sched as [|t sched IH]; intros ts; simpl.
  - assert (∀ k : nat → nat, 
      concat (imap (λ t l, (k t,.) <$> l) ((λ l : list A, f <$> l) <$> ts)) =
      (λ x : nat * A, (x.1, f x.2)) <$> concat (imap (λ t l, (k t,.) <$> l) ts)) as Hk; [|apply (Hk id)].
    induction ts as [|l ts IH]; intros k; [done|]. rewrite fmap_cons, !imap_cons, !concat_cons, fmap_app.
    f_equal; [|apply (IH (k ∘ S))]. rewrite <- !list_fmap_compose. done.
  - rewrite list_lookup_fmap. destruct (ts !! t) as [[|a l]|]; simpl; [done| |done].
    by rewrite <- list_fmap_insert, IH.
Qed.
