(* ===== verification/Bytes.v ===== *)
(** * Words in a binary file

    Values as bytes, in the little-endian order of the machine, and reads of a file:
    a file is a list of bytes, each an [N] below 256. A read past the end of a file
    is not an error of the program: it leaves what it was to fill as it was, so reads
    take the bytes that memory holds there, [junk]. *)

From Stdlib Require Import NArith Lia.
From stdpp Require Import base list numbers.
From S2P Require Import Prelude.

Fixpoint le_bytes (k : nat) (x : N) : list N :=
  match k with
  | O => []
  | S k => (x mod 256)%N :: le_bytes k (x / 256)
  end.

Definition of_le_bytes (l : list N) : N := foldr (λ b a, b + 256 * a)%N 0%N l.

(** [k] bytes from position [pos] of the file. *)
Definition read_bytes (file : list N) (junk : nat → N) (pos k : nat) : list N :=
  (λ i, default (junk i) (file !! i)) <$> seq pos k.

Definition read_word (file : list N) (junk : nat → N) (pos k : nat) : N :=
  of_le_bytes (read_bytes file junk pos k).

(** ** Round trips *)

Lemma length_le_bytes k x : length (le_bytes k x) = k.
Proof. revert x. induction k as [|k IH]; intros x; [done|]. cbn. by rewrite IH. Qed.

Lemma le_bytes_byte k x : Forall (λ b, b < 256)%N (le_bytes k x).
Proof.
  revert x. induction k as [|k IH]; intros x; [constructor|]. cbn [le_bytes]. constructor; [|apply IH].
  apply N.mod_lt. lia.
Qed.

Lemma of_le_bytes_le_bytes k x : (x < 2 ^ (8 * N.of_nat k))%N → of_le_bytes (le_bytes k x) = x.
Proof.
  revert x. induction k as [|k IH]; intros x Hx.
  { change (2 ^ (8 * N.of_nat 0))%N with 1%N in Hx. cbn. lia. }
  cbn [le_bytes of_le_bytes foldr]. fold (of_le_bytes (le_bytes k (x / 256))). rewrite IH.
  - pose proof (N.div_mod x 256). lia.
  - apply N.Div0.div_lt_upper_bound. replace (8 * N.of_nat (S k))%N with (8 + 8 * N.of_nat k)%N in Hx by lia.
    by rewrite N.pow_add_r in Hx.
Qed.

Lemma read_bytes_ok pre mid post junk : read_bytes (pre ++ mid ++ post) junk (length pre) (length mid) = mid.
Proof.
  unfold read_bytes. apply list_eq_same_length with (n := length mid); [done|by rewrite length_fmap, length_seq|].
  intros i x y Hi Hx Hy. rewrite list_lookup_fmap, lookup_seq_lt in Hx by done. cbn in Hx. injection Hx as <-.
  rewrite lookup_app_r by lia. rewrite Nat.add_comm, Nat.add_sub, lookup_app_l by done. by rewrite Hy.
Qed.

Lemma read_word_ok pre k x post junk :
  (x < 2 ^ (8 * N.of_nat k))%N → read_word (pre ++ le_bytes k x ++ post) junk (length pre) k = x.
Proof.
  intros Hx. unfold read_word. rewrite <- (length_le_bytes k x) at 2. rewrite read_bytes_ok. by apply of_le_bytes_le_bytes.
Qed.
