(* ===== verification/Float64.v ===== *)
(** * IEEE binary64 arithmetic

    The C++ type [double], as the program uses it: conversion from unsigned
    integers, [+], [*], [/], [<=], [ceil] and the truncating conversion back to
    an unsigned integer. Values and operations are those of the Standard
    Library's executable specification of binary floating point at precision 53
    and maximal exponent 1024, with rounding to nearest, ties to even. *)

From Stdlib Require Import NArith ZArith SpecFloat Lia.
From stdpp Require Import base numbers.

Abbreviation double := spec_float.

Definition prec64 : Z := 53.
Definition emax64 : Z := 1024.

(** [double(n)] for an unsigned integer [n]. *)
Definition of_N (n : N) : double :=
  match n with
  | N0 => S754_zero false
  | Npos p => binary_normalize prec64 emax64 (Zpos p) 0 false
  end.

Definition dadd (x y : double) : double := SFadd prec64 emax64 x y.
Definition dmul (x y : double) : double := SFmul prec64 emax64 x y.
Definition ddiv (x y : double) : double := SFdiv prec64 emax64 x y.
Definition dleb (x y : double) : bool := SFleb x y.
Definition dltb (x y : double) : bool := SFltb x y.

(** [std::min(x, y)] returns [y] only when it is smaller. *)
Definition dmin (x y : double) : double := if dltb y x then y else x.

(** The conversion of [ceil(x)] to an unsigned integer, for a nonnegative
    finite [x] (the only arguments it is applied to; others give 0). *)
Definition ceil_to_N (x : double) : N :=
  match x with
  | S754_finite false m e =>
      match e with
      | Z0 => Npos m
      | Zpos k => Npos m * 2 ^ Npos k
      | Zneg k => (Npos m + (2 ^ Npos k - 1)) / 2 ^ Npos k
      end
  | _ => 0
  end%N.

(** The truncating conversion of [x] to an unsigned integer. *)
Definition trunc_to_N (x : double) : N :=
  match x with
  | S754_finite false m e =>
      match e with
      | Z0 => Npos m
      | Zpos k => Npos m * 2 ^ Npos k
      | Zneg k => Npos m / 2 ^ Npos k
      end
  | _ => 0
  end%N.

Example double_third : trunc_to_N (dmul (ddiv (of_N 1) (of_N 3)) (of_N 3)) = 1%N.
Proof. vm_compute. reflexivity. Qed.

Example double_round_above_53_bits : ceil_to_N (of_N (2 ^ 53 + 1)) = (2 ^ 53)%N.
Proof. vm_compute. reflexivity. Qed.
