(* ===== verification/Util.v ===== *)
(** * Edge identifiers: src/src/util.cpp

    A graph edge is stored in a sketch as one 64-bit vector index. This file
    models the pairing functions between unordered pairs of 32-bit node ids and
    vector indices, and proves the pairing the sketches use to be a bijection
    onto the indices whose high word is at most the low word. *)

From Stdlib Require Import NArith ZArith SpecFloat Lia.
From stdpp Require Import base list gmap numbers.
From S2P Require Import Prelude Float64.

(** Node ids index arrays throughout the program, so they are [nat]; a node id
    is valid when it fits in 32 bits. *)
Abbreviation node_id_t := nat.
Definition node_ok (v : node_id_t) : Prop := (N.of_nat v < 2 ^ 32)%N.

Record Edge := mkEdge { src : node_id_t; dst : node_id_t }.

#[global] Instance Edge_eq_dec : EqDecision Edge.
Proof. solve_decision. Defined.

Definition num_bits : N := 32.

(** The compiled constant of [sizeof(node_id_t) * 8] is the width of the ids. *)
Definition concat_pairing_fn (i j : node_id_t) : N :=
  let '(i, j) := if decide (j < i) then (j, i) else (i, j) in
  N.lor (u64 (N.shiftl (N.of_nat i) num_bits)) (N.of_nat j).

Definition inv_concat_pairing_fn (idx : N) : Edge :=
  let j := u32 (N.land idx 0xFFFFFFFF) in
  let i := u32 (N.shiftr idx num_bits) in
  mkEdge (N.to_nat i) (N.to_nat j).

Definition double_to_ull (d epsilon : double) : N := trunc_to_N (dadd d epsilon).

(** [i] and [j] have the 32-bit type of node ids, [jm] is 64 bits wide; the
    compound assignment [j *= jm] multiplies at 64 bits and stores 32. *)
Definition nondirectional_non_self_edge_pairing_fn (i j : N) : N :=
  let '(i, j) := (if (j <? i)%N then (j, i) else (i, j)) in
  let jm := wsub 64 j 1 in
  let '(j, jm) :=
    (if (N.land j 1 =? 0)%N then (N.shiftr j 1, jm) else (j, N.shiftr jm 1)) in
  let j := u32 (u64 (j * jm)) in
  u32 (i + j).

Definition inv_nondir_non_self_edge_pairing_fn (idx : N) : N * N :=
  let eidx := u64 (8 * idx + 1) in
  let eidx := trunc_to_N (dadd (SFsqrt prec64 emax64 (of_N eidx)) (of_N 1)) in
  let j := (eidx / 2)%N in
  let i := if (N.land j 1 =? 0)%N
           then wsub 64 idx (u64 (N.shiftr j 1 * wsub 64 j 1))
           else wsub 64 idx (u64 (j * N.shiftr (wsub 64 j 1) 1)) in
  (u32 i, u32 j).

(** ** The concatenating pairing *)

Lemma concat_pairing_fn_comm i j : concat_pairing_fn i j = concat_pairing_fn j i.
Proof.
  unfold concat_pairing_fn. destruct (decide (j < i)), (decide (i < j)); try lia; try done.
  by replace i with j by lia.
Qed.

Lemma land_shiftl_low (a b w : N) : (b < 2 ^ w)%N → N.land (N.shiftl a w) b = 0%N.
Proof.
  intros Hb. apply N.bits_inj. intros k. rewrite N.land_spec, N.bits_0.
  destruct (N.lt_ge_cases k w) as [Hk|Hk].
  - by rewrite N.shiftl_spec_low.
  - rewrite (testbit_lt_pow2 w b) by done. by rewrite andb_false_r.
Qed.

Lemma lor_shiftl_add (a b w : N) : (b < 2 ^ w)%N → N.lor (N.shiftl a w) b = (a * 2 ^ w + b)%N.
Proof.
  intros Hb. pose proof (land_shiftl_low a b w Hb) as Hl.
  by rewrite <- N.lxor_lor, <- N.add_nocarry_lxor, N.shiftl_mul_pow2.
Qed.

(** On valid ids the vector index is [min * 2^32 + max]. *)
Lemma concat_pairing_fn_arith i j :
  node_ok i → node_ok j →
  concat_pairing_fn i j = (N.of_nat (i `min` j) * 2 ^ 32 + N.of_nat (i `max` j))%N.
Proof.
  unfold node_ok, concat_pairing_fn, num_bits. intros Hi Hj.
  destruct (decide (j < i)).
  - rewrite Nat.min_r, Nat.max_l by lia.
    rewrite wrap_small, lor_shiftl_add; [done|lia|]. rewrite N.shiftl_mul_pow2.
    change (2 ^ 64)%N with (2 ^ 32 * 2 ^ 32)%N. apply N.mul_lt_mono_pos_r; lia.
  - rewrite Nat.min_l, Nat.max_r by lia.
    rewrite wrap_small, lor_shiftl_add; [done|lia|]. rewrite N.shiftl_mul_pow2.
    change (2 ^ 64)%N with (2 ^ 32 * 2 ^ 32)%N. apply N.mul_lt_mono_pos_r; lia.
Qed.

Lemma concat_pairing_fn_lt i j :
  node_ok i → node_ok j → (concat_pairing_fn i j < 2 ^ 64)%N.
Proof.
  intros Hi Hj. rewrite concat_pairing_fn_arith by done. unfold node_ok in *. lia.
Qed.

Lemma inv_concat_pairing_fn_arith idx :
  (idx < 2 ^ 64)%N →
  inv_concat_pairing_fn idx = mkEdge (N.to_nat (idx / 2 ^ 32)) (N.to_nat (idx mod 2 ^ 32)).
Proof.
  intros Hidx. unfold inv_concat_pairing_fn, num_bits. f_equal; f_equal.
  - rewrite wrap_small, N.shiftr_div_pow2; [done|].
    rewrite N.shiftr_div_pow2. apply N.Div0.div_lt_upper_bound. lia.
  - change 0xFFFFFFFF%N with (N.ones 32). rewrite N.land_ones.
    apply wrap_wrap.
Qed.

(** Decoding returns the endpoints of an encoded edge, smaller one first. *)
Lemma inv_concat_pairing_fn_concat i j :
  node_ok i → node_ok j →
  inv_concat_pairing_fn (concat_pairing_fn i j) = mkEdge (i `min` j) (i `max` j).
Proof.
  intros Hi Hj. rewrite inv_concat_pairing_fn_arith by by apply concat_pairing_fn_lt.
  rewrite concat_pairing_fn_arith by done. unfold node_ok in *. f_equal.
  - rewrite N.div_add_l, N.div_small by lia. lia.
  - rewrite N.add_comm, N.Div0.mod_add, N.mod_small by lia. lia.
Qed.

Lemma concat_pairing_fn_inj i j i' j' :
  node_ok i → node_ok j → node_ok i' → node_ok j' →
  concat_pairing_fn i j = concat_pairing_fn i' j' →
  (i = i' ∧ j = j') ∨ (i = j' ∧ j = i').
Proof.
  intros Hi Hj Hi' Hj' Heq. apply (f_equal inv_concat_pairing_fn) in Heq.
  rewrite !inv_concat_pairing_fn_concat in Heq by done. simplify_eq. lia.
Qed.

(** ** The triangular pairing *)

Lemma half_product (j : N) :
  (1 ≤ j)%N →
  (if (N.land j 1 =? 0)%N then N.shiftr j 1 * (j - 1) else j * N.shiftr (j - 1) 1)%N
  = (j * (j - 1) / 2)%N.
Proof.
  intros Hj. change 1%N with (N.ones 1) at 1. rewrite N.land_ones, N.pow_1_r.
  rewrite !N.shiftr_div_pow2, N.pow_1_r.
  assert (j mod 2 = 0 ∨ j mod 2 = 1)%N as [Hm|Hm] by (pose proof (N.mod_lt j 2 ltac:(lia)) as Hb;
      revert Hb; generalize (j mod 2)%N; intros; lia).
  - rewrite Hm. change (0 =? 0)%N with true. cbv iota.
    apply N.Div0.mod_divides in Hm as [q ->].
    rewrite (N.mul_comm 2 q), N.div_mul by lia.
    replace (q * 2 * (q * 2 - 1))%N with (q * (q * 2 - 1) * 2)%N by lia.
    by rewrite N.div_mul by lia.
  - rewrite Hm. change (1 =? 0)%N with false. cbv iota.
    pose proof (N.Div0.div_mod j 2) as Hd. rewrite Hm in Hd.
    revert Hd. generalize (j / 2)%N. intros q ->.
    replace (2 * q + 1 - 1)%N with (q * 2)%N by lia.
    rewrite N.div_mul, N.mul_assoc, N.div_mul by lia. done.
Qed.

(** Within 32 bits the code computes the documented [i + j*(j-1)/2]. *)
Lemma nondirectional_pairing_small i j :
  (i < j)%N → (i + j * (j - 1) / 2 < 2 ^ 32)%N →
  nondirectional_non_self_edge_pairing_fn i j = (i + j * (j - 1) / 2)%N.
Proof.
  intros Hij Hlt. unfold nondirectional_non_self_edge_pairing_fn.
  replace (j <? i)%N with false by (symmetry; apply N.ltb_ge; lia).
  assert (j < 2 ^ 64)%N as Hj.
  { apply N.nle_gt. intros Hle.
    assert (1 * j ≤ j * (j - 1) / 2)%N; [|lia].
    apply N.div_le_lower_bound; [lia|]. nia. }
  rewrite wsub_small by lia.
  pose proof (half_product j ltac:(lia)) as Hh. destruct (N.land j 1 =? 0)%N.
  all: rewrite Hh; clear Hh; revert Hlt; generalize (j * (j - 1) / 2)%N; intros q Hlt.
  all: rewrite (wrap_small 64 q), (wrap_small 32 q), (wrap_small 32); lia.
Qed.

(** The 32-bit product: two different edges of a graph on 92684 nodes get the
    same index, and it is not the documented one. *)
Lemma nondirectional_pairing_truncates :
  nondirectional_non_self_edge_pairing_fn 0 92683 = 55607%N ∧
  (0 + 92683 * (92683 - 1) / 2 = 4295022903)%N ∧
  nondirectional_non_self_edge_pairing_fn 2 334 = 55613%N ∧
  nondirectional_non_self_edge_pairing_fn 6 92683 = 55613%N.
Proof. vm_compute. done. Qed.

(** ** Properties *)

(** C40. The concatenating pairing is a bijection between unordered pairs of 32-bit
    node ids and the 64-bit indices whose high word is at most the low word:
    decoding an encoded edge gives its endpoints with the smaller first, encoding
    a decoded index gives the index, the order of the endpoints does not matter
    and no two different edges share an index. *)
Theorem concat_pairing_bijection i j idx :
  node_ok i → node_ok j → (idx < 2 ^ 64)%N → (idx / 2 ^ 32 ≤ idx mod 2 ^ 32)%N →
  (concat_pairing_fn i j < 2 ^ 64)%N ∧
  inv_concat_pairing_fn (concat_pairing_fn i j) = mkEdge (i `min` j) (i `max` j) ∧
  concat_pairing_fn j i = concat_pairing_fn i j ∧
  concat_pairing_fn (src (inv_concat_pairing_fn idx)) (dst (inv_concat_pairing_fn idx)) = idx.
Proof.
  intros Hi Hj Hidx Hle. split_and!.
  - by apply concat_pairing_fn_lt.
  - by apply inv_concat_pairing_fn_concat.
  - apply concat_pairing_fn_comm.
  - rewrite inv_concat_pairing_fn_arith by done. simpl.
    pose proof (N.mod_lt idx (2 ^ 32) ltac:(lia)) as Hm.
    rewrite concat_pairing_fn_arith by (unfold node_ok; rewrite N2Nat.id; lia).
    rewrite Nat2N.inj_min, Nat2N.inj_max, !N2Nat.id, N.min_l, N.max_r by done.
    rewrite N.mul_comm. symmetry. apply N.Div0.div_mod.
Qed.

Lemma concat_pairing_bijection_witness :
  inv_concat_pairing_fn (concat_pairing_fn 9 4) = mkEdge 4 9 ∧
  concat_pairing_fn (src (inv_concat_pairing_fn 17179869193))
    (dst (inv_concat_pairing_fn 17179869193)) = 17179869193%N.
Proof.
  destruct (concat_pairing_bijection 9 4 17179869193) as (_ & H1 & _ & H2);
    [by vm_compute..|]. exact (conj H1 H2).
Defined.

(** The triangular pairing computes the documented [i + j*(j-1)/2] as long as
    that fits in 32 bits; beyond, its 32-bit product wraps, and two different
    edges of one graph get the same index. *)
Theorem nondirectional_pairing_range i j :
  (i < j)%N →
  ((i + j * (j - 1) / 2 < 2 ^ 32)%N →
    nondirectional_non_self_edge_pairing_fn i j = (i + j * (j - 1) / 2)%N) ∧
  nondirectional_non_self_edge_pairing_fn 2 334 =
    nondirectional_non_self_edge_pairing_fn 6 92683.
Proof.
  intros Hij. split; [by apply nondirectional_pairing_small|by vm_compute].
Qed.

Lemma nondirectional_pairing_range_witness :
  nondirectional_non_self_edge_pairing_fn 3 1000 = (3 + 1000 * (1000 - 1) / 2)%N.
Proof. apply (nondirectional_pairing_range 3 1000); by vm_compute. Defined.
