(* ===== verification/Bucket.v ===== *)
(** * Buckets: src/include/bucket.h

    A bucket keeps the exclusive-or of the vector indices it received
    ([alpha]) and of their checksums ([gamma]). The hash function and the width
    of a checksum come from libraries outside the repository and are the class
    [Hashing]; the theorems about buckets, sketches and graphs are proved for
    every instance. *)

From Stdlib Require Import NArith Lia.
From stdpp Require Import base list gmap numbers.
From S2P Require Import Prelude.

(** [xxh3 key seed] is [XXH3_64bits_withSeed(&key, 8, seed)] for a 64-bit key;
    the library documents a 64-bit result. [vec_hash_bytes] is
    [sizeof(vec_hash_t)]. *)
Class Hashing := {
  xxh3 : N → N → N;
  xxh3_lt : ∀ key seed, (xxh3 key seed < 2 ^ 64)%N;
  vec_hash_bytes : nat;
}.

Definition vec_hash_bits `{Hashing} : N := 8 * N.of_nat vec_hash_bytes.

Record Bucket := mkBucket { alpha : N; gamma : N }.

#[global] Instance Bucket_eq_dec : EqDecision Bucket.
Proof. solve_decision. Defined.
#[global] Instance Bucket_inhabited : Inhabited Bucket := populate (mkBucket 0 0).

(** [__builtin_ctzll]: the number of trailing zeros; undefined at 0. *)
Fixpoint pos_ctz (p : positive) : N :=
  match p with
  | xO q => N.succ (pos_ctz q)
  | _ => 0
  end.

Definition ctzll (v : N) : N := match v with N0 => 64 | Npos p => pos_ctz p end.

Lemma pos_ctz_bit p : N.testbit (Npos p) (pos_ctz p) = true.
Proof.
  induction p as [p IH|p IH|]; [done| |done]. simpl pos_ctz.
  change (Npos p~0) with (N.double (Npos p)).
  rewrite N.double_spec, N.testbit_even_succ by lia. done.
Qed.

Lemma pos_ctz_below p i : (i < pos_ctz p)%N → N.testbit (Npos p) i = false.
Proof.
  revert i. induction p as [p IH|p IH|]; intros i Hi; simpl pos_ctz in Hi; [lia| |lia].
  change (Npos p~0) with (N.double (Npos p)). rewrite N.double_spec.
  destruct (decide (i = 0%N)) as [->|Hi0]; [apply N.testbit_even_0|].
  replace i with (N.succ (N.pred i)) by lia.
  rewrite N.testbit_even_succ by lia. apply IH. lia.
Qed.

Lemma ctzll_bit v : v ≠ 0%N → N.testbit v (ctzll v) = true.
Proof. destruct v; [done|]. intros _. apply pos_ctz_bit. Qed.

Lemma ctzll_below v i : v ≠ 0%N → (i < ctzll v)%N → N.testbit v i = false.
Proof. destruct v; [done|]. intros _. apply pos_ctz_below. Qed.

(** The trailing-zero count is at most the position of any set bit. *)
Lemma ctzll_le_bit v i : N.testbit v i = true → (ctzll v ≤ i)%N.
Proof.
  intros Hi. destruct (decide (v = 0%N)) as [->|Hv]; [by rewrite N.bits_0 in Hi|].
  apply N.nlt_ge. intros Hlt. rewrite (ctzll_below v i) in Hi; done.
Qed.

Module Bucket_Boruvka.
Section ops.
Context `{Hashing}.

(** [long seed_and_col] is converted back to the unsigned 64-bit seed. *)
Definition get_index_depth (update_idx seed_and_col max_depth : N) : N :=
  let depth_hash := xxh3 update_idx (u64 seed_and_col) in
  let depth_hash := N.lor depth_hash (u64 (N.shiftl 1 max_depth)) in
  ctzll depth_hash.

(** The 64-bit hash is stored in a [vec_hash_t]. *)
Definition get_index_hash (update_idx sketch_seed : N) : N :=
  wrap vec_hash_bits (xxh3 update_idx (u64 sketch_seed)).

Definition is_good (bucket : Bucket) (sketch_seed : N) : bool :=
  (gamma bucket =? get_index_hash (alpha bucket) sketch_seed)%N.

Definition update (bucket : Bucket) (update_idx update_hash : N) : Bucket :=
  mkBucket (N.lxor (alpha bucket) update_idx) (N.lxor (gamma bucket) update_hash).

Lemma get_index_hash_lt x s : (get_index_hash x s < 2 ^ vec_hash_bits)%N.
Proof. apply wrap_lt. Qed.

(** The guard bit: the depth never exceeds [max_depth]. *)
Lemma get_index_depth_le x s max_depth :
  (max_depth < 64)%N → (get_index_depth x s max_depth ≤ max_depth)%N.
Proof.
  intros Hm. apply ctzll_le_bit. rewrite N.lor_spec. apply orb_true_iff. right.
  rewrite wrap_small.
  - rewrite N.shiftl_spec_high' by lia. by rewrite N.sub_diag.
  - rewrite N.shiftl_1_l. apply N.pow_lt_mono_r; lia.
Qed.

(** Below the cap the depth is the trailing-zero count of the hash. *)
Lemma get_index_depth_below x s max_depth d :
  (max_depth < 64)%N → (d < max_depth)%N →
  get_index_depth x s max_depth = d ↔
    N.testbit (xxh3 x (u64 s)) d = true ∧
    ∀ i, (i < d)%N → N.testbit (xxh3 x (u64 s)) i = false.
Proof.
  intros Hm Hd. unfold get_index_depth. set (h := xxh3 x (u64 s)).
  set (g := u64 (N.shiftl 1 max_depth)).
  assert (g = N.shiftl 1 max_depth) as Hg.
  { apply wrap_small. rewrite N.shiftl_1_l. apply N.pow_lt_mono_r; lia. }
  assert (∀ i, (i < max_depth)%N → N.testbit (N.lor h g) i = N.testbit h i) as Hlow.
  { intros i Hi. rewrite N.lor_spec, Hg, N.shiftl_spec_low by done. apply orb_false_r. }
  assert (N.lor h g ≠ 0%N) as Hnz.
  { intros Hz. assert (N.testbit (N.lor h g) max_depth = false) as Hb
      by (rewrite Hz; apply N.bits_0).
    rewrite N.lor_spec, Hg, N.shiftl_spec_high', N.sub_diag, orb_true_r in Hb by lia.
    done. }
  split.
  - intros <-. split; [rewrite <- Hlow by done; by apply ctzll_bit|].
    intros i Hi. rewrite <- Hlow by lia. by apply ctzll_below.
  - intros [Hb Hlt]. apply N.le_antisymm.
    + apply ctzll_le_bit. by rewrite Hlow.
    + apply N.nlt_ge. intros Hc. pose proof (ctzll_bit _ Hnz) as Ht.
      rewrite Hlow, Hlt in Ht; [done|lia|lia].
Qed.

Lemma update_update b x h : update (update b x h) x h = b.
Proof.
  destruct b as [a g]. unfold update. simpl.
  by rewrite !N.lxor_assoc, !N.lxor_nilpotent, !N.lxor_0_r.
Qed.
End ops.
End Bucket_Boruvka.

(** Buckets under exclusive-or. *)
Definition bxor (b c : Bucket) : Bucket :=
  mkBucket (N.lxor (alpha b) (alpha c)) (N.lxor (gamma b) (gamma c)).

Definition bzero : Bucket := mkBucket 0 0.

Lemma bxor_assoc a b c : bxor a (bxor b c) = bxor (bxor a b) c.
Proof. unfold bxor. simpl. by rewrite !N.lxor_assoc. Qed.

Lemma bxor_comm a b : bxor a b = bxor b a.
Proof. unfold bxor. by rewrite (N.lxor_comm (alpha a)), (N.lxor_comm (gamma a)). Qed.

Lemma bxor_zero_r b : bxor b bzero = b.
Proof. destruct b. unfold bxor. simpl. by rewrite !N.lxor_0_r. Qed.

Lemma bxor_zero_l b : bxor bzero b = b.
Proof. by rewrite bxor_comm, bxor_zero_r. Qed.

(** ** Properties *)

(** The depth of an index in a column is the number of trailing zeros of its
    hash, capped at [max_depth]; the guard bit makes [__builtin_ctzll] defined
    for every hash, and the shift that sets it is within the word. *)
Theorem index_depth_is_capped_ctz `{Hashing} x s max_depth d :
  (max_depth < 64)%N →
  (Bucket_Boruvka.get_index_depth x s max_depth ≤ max_depth)%N ∧
  ((d < max_depth)%N →
    Bucket_Boruvka.get_index_depth x s max_depth = d ↔
      N.testbit (xxh3 x (u64 s)) d = true ∧
      ∀ i, (i < d)%N → N.testbit (xxh3 x (u64 s)) i = false).
Proof.
  intros Hm. split; [by apply Bucket_Boruvka.get_index_depth_le|].
  intros Hd. by apply Bucket_Boruvka.get_index_depth_below.
Qed.

(** A hash that returns its key, for the example. *)
Lemma wrap_key_lt key seed : ((λ k _ : N, u64 k) key seed < 2 ^ 64)%N.
Proof. apply wrap_lt. Qed.

Lemma index_depth_is_capped_ctz_witness :
  let Hh := {| xxh3 := λ k _ : N, u64 k; xxh3_lt := wrap_key_lt; vec_hash_bytes := 8 |} in
  (@Bucket_Boruvka.get_index_depth Hh 24 5 6 ≤ 6)%N ∧
  @Bucket_Boruvka.get_index_depth Hh 24 5 6 = 3%N.
Proof.
  intros Hh.
  destruct (@index_depth_is_capped_ctz Hh 24 5 6 3) as [Hle Hd]; [lia|].
  split; [exact Hle|]. apply Hd; [lia|]. split; [reflexivity|].
  intros i Hi. destruct (decide (i = 0 ∨ i = 1 ∨ i = 2)%N) as [[->|[->| ->]]|]; [reflexivity..|lia].
Defined.
