(* ===== verification/Sketch.v ===== *)
(** * Sketches: src/include/sketch.h and src/src/sketch.cpp

    The state and operations of class [Sketch], in both builds (CameoSketch,
    the default, and CubeSketch under [L0_SAMPLING]), and the abstract value of
    a sketch: the set of vector indices updated an odd number of times. *)

From Stdlib Require Import NArith ZArith SpecFloat Lia.
From stdpp Require Import base list gmap numbers.
From S2P Require Import Prelude Float64 Bucket.

(** Compile-time switches of the build (CMakeLists.txt). *)
Class BuildConfig := { L0_SAMPLING : bool; NO_EAGER_DSU : bool }.

(** [log2] of the C mathematics library, on doubles. *)
Class Libm := { log2 : double → double }.

Inductive SampleResult := GOOD | ZERO | FAIL.

#[global] Instance SampleResult_eq_dec : EqDecision SampleResult.
Proof. solve_decision. Defined.

Record SketchSample := mkSample { sample_index : N; result : SampleResult }.
Record ExhaustiveSketchSample := mkExhaustive { idxs : gset N; ex_result : SampleResult }.

(** [seed] is a 64-bit word; the sizes and the position of the next sample are
    [nat]. *)
Record Sketch := mkSketch {
  seed : N;
  num_samples : nat;
  cols_per_sample : nat;
  num_columns : nat;
  bkt_per_col : nat;
  num_buckets : nat;
  sample_idx : nat;
  buckets : list Bucket;
}.

#[global] Instance Sketch_eq_dec : EqDecision Sketch.
Proof. solve_decision. Defined.

Definition set_buckets (s : Sketch) (b : list Bucket) : Sketch :=
  mkSketch (seed s) (num_samples s) (cols_per_sample s) (num_columns s) (bkt_per_col s)
    (num_buckets s) (sample_idx s) b.

Definition set_sample_idx (s : Sketch) (i : nat) : Sketch :=
  mkSketch (seed s) (num_samples s) (cols_per_sample s) (num_columns s) (bkt_per_col s)
    (num_buckets s) i (buckets s).

Section static.
Context `{BuildConfig, Libm}.

(** [num_vertices - 1] is computed on 32-bit node ids. *)
Definition calc_vector_length (num_vertices : N) : N :=
  ceil_to_N (ddiv (dmul (of_N num_vertices) (of_N (wsub 32 num_vertices 1))) (of_N 2)).

Definition default_cols_per_sample : nat := if L0_SAMPLING then 7 else 1.

(** [log2(3) - 1], or [1 - 0.263034406], as doubles. *)
Definition num_samples_div : double :=
  if L0_SAMPLING then S754_finite false 5268873800547024 (-53)
  else S754_finite false 6637995949046552 (-53).

Definition calc_cc_samples (num_vertices : N) (f : double) : nat :=
  18 `max` N.to_nat (ceil_to_N (ddiv (dmul f (log2 (of_N num_vertices))) num_samples_div)).

Definition calc_bkt_per_col (n : N) : nat :=
  let temp := N.to_nat (ceil_to_N (log2 (of_N n))) + 1 in
  if decide (temp mod 16 = 0) then temp + 1 else temp.

(** The constructor with a bucket array of its own. *)
Definition new_sketch (vector_len sd : N) (_samples _cols : nat) : Sketch :=
  let num_columns := _samples * _cols in
  let bkt_per_col := calc_bkt_per_col vector_len in
  let num_buckets := num_columns * bkt_per_col + 1 in
  mkSketch sd _samples _cols num_columns bkt_per_col num_buckets 0
    (replicate num_buckets bzero).
End static.

(** The copy constructor does not copy the number of samples performed. *)
Definition copy_sketch (s : Sketch) : Sketch :=
  mkSketch (seed s) (num_samples s) (cols_per_sample s) (num_columns s) (bkt_per_col s)
    (num_buckets s) 0 (buckets s).

Definition column_seed (s : Sketch) (column_idx : nat) : N :=
  u64 (seed s + N.of_nat column_idx * 5).
Definition checksum_seed (s : Sketch) : N := seed s.

Section ops.
Context `{BuildConfig, Hashing}.

(** The body of the loop over columns of [Sketch::update] (CameoSketch). *)
Definition cameo_column (s : Sketch) (update_idx checksum : N) (bkts : list Bucket)
    (i : nat) : list Bucket :=
  let depth := Bucket_Boruvka.get_index_depth update_idx (column_seed s i)
                 (N.of_nat (bkt_per_col s)) in
  let bucket_id := i * bkt_per_col s + N.to_nat depth in
  if (depth <? N.of_nat (bkt_per_col s))%N
  then alter (λ b, Bucket_Boruvka.update b update_idx checksum) bucket_id bkts
  else bkts.

(** The same under [L0_SAMPLING] (CubeSketch): every bucket up to the depth. *)
Definition cube_column (s : Sketch) (update_idx checksum : N) (bkts : list Bucket)
    (i : nat) : list Bucket :=
  let depth := Bucket_Boruvka.get_index_depth update_idx (column_seed s i)
                 (N.of_nat (bkt_per_col s)) in
  if (depth <? N.of_nat (bkt_per_col s))%N
  then foldl (λ bkts j,
         alter (λ b, Bucket_Boruvka.update b update_idx checksum)
           (i * bkt_per_col s + j) bkts) bkts (seq 0 (S (N.to_nat depth)))
  else bkts.

Definition update_column (s : Sketch) := if L0_SAMPLING then cube_column s else cameo_column s.

Definition update (s : Sketch) (update_idx : N) : Sketch :=
  let checksum := Bucket_Boruvka.get_index_hash update_idx (checksum_seed s) in
  let bkts := alter (λ b, Bucket_Boruvka.update b update_idx checksum)
                (num_buckets s - 1) (buckets s) in
  set_buckets s (foldl (update_column s update_idx checksum) bkts (seq 0 (num_columns s))).

Definition reset_sample_state (s : Sketch) : Sketch := set_sample_idx s 0.

Definition zero_contents (s : Sketch) : Sketch :=
  reset_sample_state (set_buckets s
    (foldl (λ bkts i, <[i := bzero]> bkts) (buckets s) (seq 0 (num_buckets s)))).

(** The scan of the columns of one sample: the first good bucket. *)
Fixpoint first_good (s : Sketch) (ids : list nat) : option N :=
  match ids with
  | [] => None
  | bucket_id :: ids =>
      let b := buckets s !!! bucket_id in
      if Bucket_Boruvka.is_good b (checksum_seed s) then Some (alpha b) else first_good s ids
  end.

Definition sample_bucket_ids (s : Sketch) (first_column : nat) : list nat :=
  i ← seq 0 (cols_per_sample s); j ← seq 0 (bkt_per_col s);
  [(i + first_column) * bkt_per_col s + j].

Definition det_bucket (s : Sketch) : Bucket := buckets s !!! (num_buckets s - 1).

Definition bucket_is_zero (b : Bucket) : bool := (alpha b =? 0)%N && (gamma b =? 0)%N.

Definition sample (s : Sketch) : outcome SketchSample * Sketch :=
  if decide (num_samples s ≤ sample_idx s)
  then (Throw (OutOfSamplesException (seed s) (num_samples s) (sample_idx s)), s)
  else
    let idx := sample_idx s in
    let s := set_sample_idx s (S idx) in
    let first_column := idx * cols_per_sample s in
    if bucket_is_zero (det_bucket s) then (Ok (mkSample 0 ZERO), s)
    else if Bucket_Boruvka.is_good (det_bucket s) (checksum_seed s)
    then (Ok (mkSample (alpha (det_bucket s)) GOOD), s)
    else match first_good s (sample_bucket_ids s first_column) with
         | Some a => (Ok (mkSample a GOOD), s)
         | None => (Ok (mkSample 0 FAIL), s)
         end.

Definition all_good (s : Sketch) (ids : list nat) : gset N :=
  foldl (λ ret bucket_id,
    let b := buckets s !!! bucket_id in
    if Bucket_Boruvka.is_good b (checksum_seed s) then {[alpha b]} ∪ ret else ret) ∅ ids.

Definition exhaustive_sample (s : Sketch) : outcome ExhaustiveSketchSample * Sketch :=
  if decide (num_samples s ≤ sample_idx s)
  then (Throw (OutOfSamplesException (seed s) (num_samples s) (sample_idx s)), s)
  else
    let idx := sample_idx s in
    let s := set_sample_idx s (S idx) in
    let first_column := idx * cols_per_sample s in
    if bucket_is_zero (det_bucket s) then (Ok (mkExhaustive ∅ ZERO), s)
    else if Bucket_Boruvka.is_good (det_bucket s) (checksum_seed s)
    then (Ok (mkExhaustive {[alpha (det_bucket s)]} GOOD), s)
    else
      let ret := all_good s (sample_bucket_ids s first_column) in
      if decide (size ret = 0) then (Ok (mkExhaustive ret FAIL), s)
      else (Ok (mkExhaustive ret GOOD), s).

(** The exclusive-or of the buckets at [ids] with those of another array. *)
Definition xor_at (ids : list nat) (bkts other : list Bucket) : list Bucket :=
  foldl (λ bkts i, alter (λ b, bxor b (other !!! i)) i bkts) bkts ids.

Definition merge (s other : Sketch) : Sketch :=
  set_buckets s (xor_at (seq 0 (num_buckets s)) (buckets s) (buckets other)).

Definition merge_raw_bucket_buffer (s : Sketch) (raw_buckets : list Bucket) : Sketch :=
  set_buckets s (xor_at (seq 0 (num_buckets s)) (buckets s) raw_buckets).

(** In release builds the failed [assert] has no effect. *)
Definition range_merge (s other : Sketch) (start_sample n_samples : nat) : Sketch :=
  if decide (num_samples s < start_sample + n_samples)
  then set_sample_idx s (num_samples s)
  else
    let s := set_sample_idx s (sample_idx s `max` start_sample) in
    let bkts := xor_at [num_buckets s - 1] (buckets s) (buckets other) in
    let start_bucket_id := start_sample * cols_per_sample s * bkt_per_col s in
    let n_buckets := n_samples * cols_per_sample s * bkt_per_col s in
    set_buckets s (xor_at (seq start_bucket_id n_buckets) bkts (buckets other)).

(** [operator==]. *)
Definition sketch_eqb (s1 s2 : Sketch) : bool :=
  bool_decide (num_buckets s1 = num_buckets s2) && (seed s1 =? seed s2)%N &&
  forallb (λ i, let b1 := buckets s1 !!! i in let b2 := buckets s2 !!! i in
    (alpha b1 =? alpha b2)%N && (gamma b1 =? gamma b2)%N) (seq 0 (num_buckets s1)).

Definition bucket_array_bytes (s : Sketch) : nat := num_buckets s * (8 + vec_hash_bytes).
End ops.
