(* ===== verification/XXHash.v ===== *)
(** * The hash of an 8-byte key: src/include/cuda_xxhash64.cuh

    The device code of the program carries its own copy of XXH3. A vector index
    is 8 bytes long, so of that file only the path for keys of 4 to 8 bytes
    runs; this file models it, byte for byte, and makes it an instance of the
    class [Hashing] the sketches are parameterised by. *)

From Stdlib Require Import NArith Lia.
From stdpp Require Import base list numbers.
From S2P Require Import Prelude Bucket.

#[local] Open Scope N_scope.

Definition CUDA_XXH3_kSecret : list N :=
  [
    0xb8; 0xfe; 0x6c; 0x39; 0x23; 0xa4; 0x4b; 0xbe; 0x7c; 0x01; 0x81; 0x2c;
    0xf7; 0x21; 0xad; 0x1c; 0xde; 0xd4; 0x6d; 0xe9; 0x83; 0x90; 0x97; 0xdb;
    0x72; 0x40; 0xa4; 0xa4; 0xb7; 0xb3; 0x67; 0x1f; 0xcb; 0x79; 0xe6; 0x4e;
    0xcc; 0xc0; 0xe5; 0x78; 0x82; 0x5a; 0xd0; 0x7d; 0xcc; 0xff; 0x72; 0x21;
    0xb8; 0x08; 0x46; 0x74; 0xf7; 0x43; 0x24; 0x8e; 0xe0; 0x35; 0x90; 0xe6;
    0x81; 0x3a; 0x26; 0x4c; 0x3c; 0x28; 0x52; 0xbb; 0x91; 0xc3; 0x00; 0xcb;
    0x88; 0xd0; 0x65; 0x8b; 0x1b; 0x53; 0x2e; 0xa3; 0x71; 0x64; 0x48; 0x97;
    0xa2; 0x0d; 0xf9; 0x4e; 0x38; 0x19; 0xef; 0x46; 0xa9; 0xde; 0xac; 0xd8;
    0xa8; 0xfa; 0x76; 0x3f; 0xe3; 0x9c; 0x34; 0x3f; 0xf9; 0xdc; 0xbb; 0xc7;
    0xc7; 0x0b; 0x4f; 0x1d; 0x8a; 0x51; 0xe0; 0x4b; 0xcd; 0xb4; 0x59; 0x31;
    0xc8; 0x9f; 0x7e; 0xc9; 0xd9; 0x78; 0x73; 0x64; 0xea; 0xc5; 0xac; 0x83;
    0x34; 0xd3; 0xeb; 0xc3; 0xc5; 0x81; 0xa0; 0xff; 0xfa; 0x13; 0x63; 0xeb;
    0x17; 0x0d; 0xdd; 0x51; 0xb7; 0xf0; 0xda; 0x49; 0xd3; 0x16; 0x55; 0x26;
    0x29; 0xd4; 0x68; 0x9e; 0x2b; 0x16; 0xbe; 0x58; 0x7d; 0x47; 0xa1; 0xfc;
    0x8f; 0xf8; 0xb8; 0xd1; 0x7a; 0xd0; 0x31; 0xce; 0x45; 0xcb; 0x3a; 0x8f;
    0x95; 0x16; 0x04; 0x28; 0xaf; 0xd7; 0xfb; 0xca; 0xbb; 0x4b; 0x40; 0x7e].

(** Little-endian reads of [n] bytes at an offset. *)
Fixpoint readLE (n : nat) (p : list N) : N :=
  match n, p with
  | S n, b :: p => N.lor b (N.shiftl (readLE n p) 8)
  | _, _ => 0
  end.

Definition CUDA_XXH_readLE32 (p : list N) : N := readLE 4 p.
Definition CUDA_XXH_readLE64 (p : list N) : N := readLE 8 p.

Definition CUDA_XXH_swap32 (x : N) : N :=
  N.lor (N.lor (N.lor (N.land (u32 (N.shiftl x 24)) 0xff000000)
                      (N.land (u32 (N.shiftl x 8)) 0x00ff0000))
               (N.land (N.shiftr x 8) 0x0000ff00))
        (N.land (N.shiftr x 24) 0x000000ff).

Definition CUDA_XXH_rotl64 (x r : N) : N := N.lor (u64 (N.shiftl x r)) (N.shiftr x (64 - r)).

Definition CUDA_XXH_xorshift64 (v64 shift : N) : N := N.lxor v64 (N.shiftr v64 shift).

Definition CUDA_XXH3_rrmxmx (h64 len : N) : N :=
  let h64 := N.lxor h64 (N.lxor (CUDA_XXH_rotl64 h64 49) (CUDA_XXH_rotl64 h64 24)) in
  let h64 := u64 (h64 * 0x9FB21C651E98DF25) in
  let h64 := N.lxor h64 (u64 (N.shiftr h64 35 + len)) in
  let h64 := u64 (h64 * 0x9FB21C651E98DF25) in
  CUDA_XXH_xorshift64 h64 28.

Definition CUDA_XXH3_len_4to8_64b (input secret : list N) (seed : N) : N :=
  let len := N.of_nat (length input) in
  let seed := N.lxor seed (u64 (N.shiftl (CUDA_XXH_swap32 (u32 seed)) 32)) in
  let input1 := CUDA_XXH_readLE32 input in
  let input2 := CUDA_XXH_readLE32 (drop (length input - 4) input) in
  let bitflip := wsub 64 (N.lxor (CUDA_XXH_readLE64 (drop 8 secret))
                                 (CUDA_XXH_readLE64 (drop 16 secret))) seed in
  let input64 := u64 (input2 + u64 (N.shiftl input1 32)) in
  let keyed := N.lxor input64 bitflip in
  CUDA_XXH3_rrmxmx keyed len.

(** The memory of a [vec_t]: eight bytes, least significant first. *)
Fixpoint to_bytes (n : nat) (x : N) : list N :=
  match n with
  | O => []
  | S n => wrap 8 x :: to_bytes n (N.shiftr x 8)
  end.

(** [CUDA_XXH64(&key, sizeof(vec_t), seed)]. *)
Definition CUDA_XXH64 (key seed : N) : N :=
  CUDA_XXH3_len_4to8_64b (to_bytes 8 key) CUDA_XXH3_kSecret seed.

Lemma CUDA_XXH64_lt key seed : CUDA_XXH64 key seed < 2 ^ 64.
Proof.
  unfold CUDA_XXH64, CUDA_XXH3_len_4to8_64b, CUDA_XXH3_rrmxmx, CUDA_XXH_xorshift64.
  apply lxor_lt; [apply wrap_lt|]. rewrite N.shiftr_div_pow2.
  apply N.Div0.div_lt_upper_bound. eapply N.lt_le_trans; [apply wrap_lt|]. done.
Qed.

(** The hash of the program, with 64-bit checksums. *)
#[global] Instance xxh3_hashing : Hashing :=
  {| xxh3 := CUDA_XXH64; xxh3_lt := CUDA_XXH64_lt; vec_hash_bytes := 8 |}.
