(* ===== verification/Concrete.v ===== *)
(** * Concrete instances of the parameters

    The build switches, the C mathematics library and the hash function are
    parameters of the development. The examples that evaluate the definitions
    use the default build, the hash of [XXHash] and an integral [log2]. *)

From Stdlib Require Import NArith.
From stdpp Require Import base numbers.
From S2P Require Import Prelude Float64 Bucket Sketch XXHash.

(** The build of CMakeLists.txt without options, and with [-DL0_SAMPLING]. *)
Definition default_build : BuildConfig := {| L0_SAMPLING := false; NO_EAGER_DSU := false |}.
Definition l0_build : BuildConfig := {| L0_SAMPLING := true; NO_EAGER_DSU := false |}.
Definition lazy_build : BuildConfig := {| L0_SAMPLING := false; NO_EAGER_DSU := true |}.

(** A base-two logarithm that is exact on powers of two and rounds up between. *)
Definition integral_libm : Libm := {| log2 := λ x, of_N (N.log2_up (trunc_to_N x)) |}.
