(* ===== verification/SketchSpec.v ===== *)
(** * The abstract value of a sketch

    A sketch refines a vector over the two-element field, given as the finite
    set of its nonzero coordinates. [update] toggles a coordinate, [merge] is
    the symmetric difference, and what [sample] answers is related to that set.
    All of it is proved for any hash function. *)

From Stdlib Require Import NArith ZArith Lia.
From stdpp Require Import base list gmap numbers.
From S2P Require Import Prelude Float64 Bucket Sketch XXHash Concrete.

(** ** Arrays of buckets *)

Lemma lookup_xor_at ids bkts other j :
  NoDup ids →
  xor_at ids bkts other !! j =
    if decide (j ∈ ids) then (λ b, bxor b (other !!! j)) <$> bkts !! j else bkts !! j.
Proof.
  revert bkts. induction ids as [|i ids IH]; intros bkts Hnd; [done|].
  apply list.NoDup_cons in Hnd as [Hi Hnd]. change (xor_at (i :: ids) bkts other)
    with (xor_at ids (alter (λ b, bxor b (other !!! i)) i bkts) other).
  rewrite IH by done. destruct (decide (i = j)) as [->|Hne].
  - rewrite decide_False, decide_True by set_solver. by rewrite list_lookup_alter_eq.
  - rewrite list_lookup_alter_ne by done.
    destruct (decide (j ∈ ids)), (decide (j ∈ i :: ids)); set_solver.
Qed.

Lemma length_xor_at ids bkts other : length (xor_at ids bkts other) = length bkts.
Proof.
  revert bkts. induction ids as [|i ids IH]; intros bkts; simpl; [done|].
  by rewrite IH, length_alter.
Qed.

Lemma foldl_insert_lookup (ids : list nat) (bkts : list Bucket) (v : Bucket) j :
  foldl (λ bkts i, <[i := v]> bkts) bkts ids !! j =
    if decide (j ∈ ids) then (λ _, v) <$> bkts !! j else bkts !! j.
Proof.
  revert bkts. induction ids as [|i ids IH]; intros bkts; [done|]. cbn [foldl].
  rewrite IH. destruct (decide (i = j)) as [->|Hne].
  - rewrite (decide_True (P := j ∈ j :: ids)) by set_solver.
    destruct (bkts !! j) as [b|] eqn:Hj.
    + rewrite list_lookup_insert_eq by by eapply lookup_lt_Some. simpl.
      by destruct (decide (j ∈ ids)).
    + rewrite list_insert_ge by by apply lookup_ge_None. rewrite Hj.
      by destruct (decide (j ∈ ids)).
  - rewrite list_lookup_insert_ne by done.
      destruct (decide (j ∈ ids)), (decide (j ∈ i :: ids)); set_solver.
Qed.

(** ** Geometry and well-formedness *)

(** Everything of a sketch but its buckets and its sample position. *)
Definition geometry (s : Sketch) : N * nat * nat * nat * nat * nat :=
  (seed s, num_samples s, cols_per_sample s, num_columns s, bkt_per_col s, num_buckets s).

Record sketch_wf (s : Sketch) : Prop := {
  wf_columns : num_columns s = num_samples s * cols_per_sample s;
  wf_buckets : num_buckets s = num_columns s * bkt_per_col s + 1;
  wf_length : length (buckets s) = num_buckets s;
  wf_bpc_pos : 0 < bkt_per_col s;
  wf_bpc_lt : bkt_per_col s < 64;
}.

Section spec.
Context `{BuildConfig, Hashing}.
Implicit Types (s t : Sketch) (X Y : gset N).

(** Whether bucket [j] receives index [x]: the last bucket receives all, the
    bucket of row [r] in column [i] those of depth [r] (CameoSketch) or of
    depth at least [r] (CubeSketch). *)
Definition depth_of s (i : nat) (x : N) : N :=
  Bucket_Boruvka.get_index_depth x (column_seed s i) (N.of_nat (bkt_per_col s)).

Definition row_touched (d r bpc : N) : bool :=
  (d <? bpc)%N && (if L0_SAMPLING then (r <=? d)%N else (r =? d)%N).

Definition touches s (j : nat) (x : N) : bool :=
  bool_decide (j = num_buckets s - 1) ||
  row_touched (depth_of s (j / bkt_per_col s) x) (N.of_nat (j mod bkt_per_col s))
    (N.of_nat (bkt_per_col s)).

Definition checksum s (x : N) : N := Bucket_Boruvka.get_index_hash x (checksum_seed s).

(** The bucket that holds the set [Y]. *)
Definition bucket_of s Y : Bucket := mkBucket (xsum id Y) (xsum (checksum s) Y).

Definition content s (j : nat) X : Bucket :=
  bucket_of s (filter (λ x, touches s j x = true) X).

(** [represents_at s k X]: the deterministic bucket and the columns of sample
    [k] hold [X]. [represents s X]: all buckets do. *)
Definition sample_range s (k j : nat) : Prop :=
  j = num_buckets s - 1 ∨
  k * cols_per_sample s * bkt_per_col s ≤ j < S k * cols_per_sample s * bkt_per_col s.

Definition represents s X : Prop :=
  sketch_wf s ∧ ∀ j, j < num_buckets s → buckets s !! j = Some (content s j X).

Definition represents_at s k X : Prop :=
  sketch_wf s ∧
  ∀ j, j < num_buckets s → sample_range s k j → buckets s !! j = Some (content s j X).

Lemma represents_represents_at s k X : represents s X → represents_at s k X.
Proof. intros [? Hr]. split; [done|]. intros j Hj _. by apply Hr. Qed.

Lemma sample_range_geometry s t k j :
  geometry s = geometry t → sample_range s k j → sample_range t k j.
Proof.
  unfold geometry, sample_range. intros Hg. injection Hg as _ _ -> _ -> ->. done.
Qed.

(** *** Linearity of bucket contents *)

Lemma content_masked s j X :
  content s j X = mkBucket (xsum (λ x, if touches s j x then x else 0%N) X)
                           (xsum (λ x, if touches s j x then checksum s x else 0%N) X).
Proof.
  unfold content, bucket_of. f_equal.
  - by rewrite <- (xsum_mask (touches s j) id).
  - by rewrite <- (xsum_mask (touches s j) (checksum s)).
Qed.

Lemma content_symdiff s j X Y :
  content s j (symdiff X Y) = bxor (content s j X) (content s j Y).
Proof. rewrite !content_masked. unfold bxor. simpl. by rewrite !xsum_symdiff. Qed.

Lemma content_empty s j : content s j ∅ = bzero.
Proof. rewrite content_masked. by rewrite !xsum_empty. Qed.

Lemma content_toggle s j x X :
  content s j (toggle x X) =
    if touches s j x then Bucket_Boruvka.update (content s j X) x (checksum s x)
    else content s j X.
Proof.
  rewrite !content_masked, !xsum_toggle. unfold Bucket_Boruvka.update. simpl.
  destruct (touches s j x).
  - by rewrite (N.lxor_comm x), (N.lxor_comm (checksum s x)).
  - by rewrite !N.lxor_0_l.
Qed.

Lemma content_geometry s t j X : geometry s = geometry t → content s j X = content t j X.
Proof.
  intros Hg. unfold geometry in Hg. simplify_eq.
  unfold content, bucket_of, touches, depth_of, column_seed, checksum, checksum_seed.
  by repeat match goal with Heq : _ s = _ t |- _ => rewrite Heq; clear Heq end.
Qed.

Lemma content_set_buckets s b j X : content (set_buckets s b) j X = content s j X.
Proof. by apply content_geometry. Qed.

Lemma content_set_sample_idx s i j X : content (set_sample_idx s i) j X = content s j X.
Proof. by apply content_geometry. Qed.

(** *** Updates *)

Definition upd (x c : N) (b : Bucket) : Bucket := Bucket_Boruvka.update b x c.

(** Toggling every bucket of a run of indices. *)
Lemma lookup_foldl_alter (f : Bucket → Bucket) (base n : nat) (bkts : list Bucket) j :
  foldl (λ bkts k, alter f (base + k) bkts) bkts (seq 0 n) !! j =
    if decide (base ≤ j < base + n) then f <$> bkts !! j else bkts !! j.
Proof.
  induction n as [|n IH].
  - case_decide; [lia|done].
  - rewrite seq_S, foldl_app. simpl. destruct (decide (base + n = j)) as [<-|Hne].
    + rewrite list_lookup_alter_eq, IH.
      by rewrite decide_False, decide_True by lia.
    + rewrite list_lookup_alter_ne, IH by done.
      destruct (decide (base ≤ j < base + n)), (decide (base ≤ j < base + S n));
        try lia; done.
Qed.

(** The whole of a column, in both builds. *)
Lemma lookup_update_column s x c bkts i j :
  0 < bkt_per_col s →
  update_column s x c bkts i !! j =
    if decide (j / bkt_per_col s = i) then
      if row_touched (depth_of s i x) (N.of_nat (j mod bkt_per_col s))
           (N.of_nat (bkt_per_col s))
      then upd x c <$> bkts !! j else bkts !! j
    else bkts !! j.
Proof.
  intros Hpos. unfold update_column, row_touched.
  pose proof (Nat.div_mod_eq j (bkt_per_col s)) as Hdm.
  pose proof (Nat.mod_upper_bound j (bkt_per_col s) ltac:(lia)) as Hmod.
  assert (∀ r, r < bkt_per_col s → i * bkt_per_col s + r = j →
            j / bkt_per_col s = i ∧ j mod bkt_per_col s = r) as Huniq.
  { intros r Hr <-. rewrite Nat.add_comm, Nat.div_add, Nat.div_small by lia.
    by rewrite Nat.Div0.mod_add, Nat.mod_small. }
  destruct L0_SAMPLING; unfold cube_column, cameo_column; fold (depth_of s i x).
  - destruct (N.ltb_spec (depth_of s i x) (N.of_nat (bkt_per_col s))) as [Hd|Hd];
      [|by destruct (decide _)].
    rewrite lookup_foldl_alter. simpl. case_decide as Hin.
    + destruct (Huniq (j - i * bkt_per_col s)) as [-> ->]; [lia..|].
      rewrite decide_True by done.
      by replace (_ <=? _)%N with true by (symmetry; apply N.leb_le; lia).
    + case_decide as Hi; [|done]. destruct (N.leb_spec (N.of_nat (j mod bkt_per_col s))
        (depth_of s i x)); [|done]. subst i. lia.
  - destruct (N.ltb_spec (depth_of s i x) (N.of_nat (bkt_per_col s))) as [Hd|Hd];
      [|by destruct (decide _)]. simpl.
    destruct (decide (i * bkt_per_col s + N.to_nat (depth_of s i x) = j)) as [Hj|Hj].
    + destruct (Huniq (N.to_nat (depth_of s i x)) ltac:(lia) Hj) as [-> ->].
      rewrite decide_True by done. rewrite Hj, list_lookup_alter_eq.
      by replace (_ =? _)%N with true by (symmetry; apply N.eqb_eq; lia).
    + rewrite list_lookup_alter_ne by done. case_decide as Hi; [|done].
      destruct (N.eqb_spec (N.of_nat (j mod bkt_per_col s)) (depth_of s i x)); [|done].
      subst i. lia.
Qed.

Lemma lookup_update_columns s x c bkts n j :
  0 < bkt_per_col s →
  foldl (update_column s x c) bkts (seq 0 n) !! j =
    if decide (j / bkt_per_col s < n) then
      if row_touched (depth_of s (j / bkt_per_col s) x)
           (N.of_nat (j mod bkt_per_col s)) (N.of_nat (bkt_per_col s))
      then upd x c <$> bkts !! j else bkts !! j
    else bkts !! j.
Proof.
  intros Hpos. induction n as [|n IH].
  - case_decide; [lia|done].
  - rewrite seq_S, foldl_app. simpl. rewrite lookup_update_column, IH by done.
    destruct (decide (j / bkt_per_col s = n)) as [->|Hne].
    + by rewrite decide_False, decide_True by lia.
    + destruct (decide (j / bkt_per_col s < n)), (decide (j / bkt_per_col s < S n));
        try lia; done.
Qed.

Lemma lookup_update s x j :
  sketch_wf s → j < num_buckets s →
  buckets (update s x) !! j =
    if touches s j x then upd x (checksum s x) <$> buckets s !! j else buckets s !! j.
Proof.
  intros [Hc Hb Hl Hp _] Hj. unfold update, touches. simpl.
  rewrite lookup_update_columns by done. fold (checksum s x).
  destruct (decide (num_buckets s - 1 = j)) as [Hlast|Hlast].
  - assert (j / bkt_per_col s = num_columns s) as Hdiv.
    { replace j with (num_columns s * bkt_per_col s) by lia. by apply Nat.div_mul; lia. }
    rewrite bool_decide_true by done. rewrite decide_False by lia.
    rewrite Hlast. by rewrite list_lookup_alter_eq.
  - rewrite bool_decide_false by done. simpl.
    assert (j / bkt_per_col s < num_columns s).
    { apply Nat.Div0.div_lt_upper_bound. lia. }
    rewrite decide_True by done. by rewrite list_lookup_alter_ne by done.
Qed.

(** *** Well-formedness of every operation *)

Lemma length_update_columns s x c bkts n :
  length (foldl (update_column s x c) bkts (seq 0 n)) = length bkts.
Proof.
  assert (∀ i b, length (update_column s x c b i) = length b) as Hcol.
  { intros i b. unfold update_column, cube_column, cameo_column.
    destruct L0_SAMPLING; case_match; try done; [|by rewrite length_alter].
    generalize (seq 0 (S (N.to_nat (Bucket_Boruvka.get_index_depth x (column_seed s i)
      (N.of_nat (bkt_per_col s)))))) as l. intros l. revert b.
    induction l as [|k l IH]; intros b; simpl; [done|].
    by rewrite IH, length_alter. }
  revert bkts. generalize (seq 0 n) as l.
  induction l as [|i l IH]; intros bkts; simpl; [done|]. by rewrite IH.
Qed.

Lemma sketch_wf_intro s t :
  sketch_wf s → geometry t = geometry s → length (buckets t) = length (buckets s) →
  sketch_wf t.
Proof.
  intros [] Hg Hl. unfold geometry in Hg. simplify_eq.
  constructor; congruence.
Qed.

Lemma update_wf s x : sketch_wf s → sketch_wf (update s x).
Proof.
  intros Hwf. eapply sketch_wf_intro; [done|done|]. simpl.
  by rewrite length_update_columns, length_alter.
Qed.

Lemma merge_wf s t : sketch_wf s → sketch_wf (merge s t).
Proof. intros Hwf. eapply sketch_wf_intro; [done|done|]. apply length_xor_at. Qed.

Lemma range_merge_wf s t k n : sketch_wf s → sketch_wf (range_merge s t k n).
Proof.
  intros Hwf. unfold range_merge. case_decide; (eapply sketch_wf_intro; [done|done|]).
  - done.
  - simpl. by rewrite length_xor_at, length_alter.
Qed.

Lemma range_merge_geometry s t k n : geometry (range_merge s t k n) = geometry s.
Proof. unfold range_merge. by case_decide. Qed.

Lemma zero_contents_wf s : sketch_wf s → sketch_wf (zero_contents s).
Proof.
  intros Hwf. eapply sketch_wf_intro; [done|done|]. simpl. generalize (buckets s) as b.
  generalize (seq 0 (num_buckets s)) as l. induction l as [|i l IH]; intros b; simpl; [done|].
  by rewrite IH, length_insert.
Qed.

(** *** The refinement: operations on sketches are operations on sets *)

Lemma represents_update s x X : represents s X → represents (update s x) (toggle x X).
Proof.
  intros [Hwf Hr]. split; [by apply update_wf|]. intros j Hj. simpl in Hj.
  rewrite lookup_update by done. rewrite Hr by done.
  rewrite (content_geometry (update s x) s) by done. rewrite content_toggle.
  by destruct (touches s j x).
Qed.

Lemma represents_update_all s l X :
  represents s X → represents (foldl update s l) (toggle_all l X).
Proof.
  revert s X. induction l as [|x l IH]; intros s X Hr; simpl; [done|].
  by apply IH, represents_update.
Qed.

Lemma geometry_update_all s l : geometry (foldl update s l) = geometry s.
Proof. revert s. induction l as [|x l IH]; intros s; simpl; [done|]. by rewrite IH. Qed.

Lemma represents_xor s raw X Y t :
  represents s X → represents t Y → geometry s = geometry t → raw = buckets t →
  represents (set_buckets s (xor_at (seq 0 (num_buckets s)) (buckets s) raw)) (symdiff X Y).
Proof.
  intros [Hwf Hr] [Hwft Hrt] Hg ->. split.
  { apply (sketch_wf_intro s); [done|done|]. apply length_xor_at. }
  simpl. intros j Hj. rewrite lookup_xor_at by apply NoDup_seq.
  rewrite decide_True by (apply elem_of_seq; lia). rewrite Hr by done. simpl. f_equal.
  rewrite content_set_buckets, content_symdiff. f_equal.
  rewrite (content_geometry s t) by done. apply list_lookup_total_correct, Hrt.
  unfold geometry in Hg. simplify_eq. lia.
Qed.

Lemma represents_merge s t X Y :
  represents s X → represents t Y → geometry s = geometry t →
  represents (merge s t) (symdiff X Y).
Proof. intros. by eapply represents_xor. Qed.

Lemma represents_zero_contents s : sketch_wf s → represents (zero_contents s) ∅.
Proof.
  intros Hwf. split; [by apply zero_contents_wf|]. simpl. intros j Hj.
  rewrite foldl_insert_lookup, decide_True by (apply elem_of_seq; lia).
  rewrite content_empty.
  destruct (lookup_lt_is_Some_2 (buckets s) j) as [b ->]; [|done].
  rewrite wf_length by done. lia.
Qed.

Lemma represents_set_sample_idx s i X : represents s X → represents (set_sample_idx s i) X.
Proof.
  intros [Hwf Hr]. split; [by eapply sketch_wf_intro|]. intros j Hj. by apply Hr.
Qed.

Lemma represents_geometry s t X :
  represents s X → geometry t = geometry s → buckets t = buckets s → represents t X.
Proof.
  intros [Hwf Hr] Hg Hb. split; [by eapply sketch_wf_intro; [done..|congruence]|].
  intros j Hj. rewrite Hb, (content_geometry t s) by done. apply Hr.
  unfold geometry in Hg. simplify_eq. lia.
Qed.

(** [range_merge] of one sample, on sketches valid at that sample. *)
Lemma represents_at_range_merge s t k X Y :
  represents_at s k X → represents_at t k Y → geometry s = geometry t →
  k < num_samples s →
  represents_at (range_merge s t k 1) k (symdiff X Y).
Proof.
  intros [Hwf Hr] [Hwft Hrt] Hg Hk. split; [by apply range_merge_wf|]. intros j Hj HR.
  unfold range_merge in *. rewrite decide_False in * by lia. simpl in *.
  rewrite lookup_xor_at by apply NoDup_seq.
  assert (j ∈ seq (k * cols_per_sample s * bkt_per_col s)
                (1 * cols_per_sample s * bkt_per_col s) ∨ j = num_buckets s - 1) as Hin.
  { unfold sample_range in HR. simpl in HR. rewrite elem_of_seq. lia. }
  assert (S k * cols_per_sample s * bkt_per_col s ≤ num_buckets s - 1) as Hend.
  { destruct Hwf as [Hc Hb _ _ _]. rewrite Hb, Hc.
    transitivity (num_samples s * cols_per_sample s * bkt_per_col s); [|lia].
    apply Nat.mul_le_mono_r, Nat.mul_le_mono_r. lia. }
  assert (bxor (content s j X) (buckets t !!! j) =
          content (set_buckets (set_sample_idx s (sample_idx s `max` k))
            (xor_at (seq (k * cols_per_sample s * bkt_per_col s)
              (1 * cols_per_sample s * bkt_per_col s))
              (xor_at [num_buckets s - 1] (buckets s) (buckets t)) (buckets t))) j
            (symdiff X Y)) as Hx.
  { rewrite content_set_buckets, content_set_sample_idx, content_symdiff. f_equal.
    rewrite (content_geometry s t) by done. apply list_lookup_total_correct, Hrt.
    - unfold geometry in Hg. simplify_eq. lia.
    - by eapply (sample_range_geometry s). }
  change (alter _ (num_buckets s - 1) (buckets s))
    with (xor_at [num_buckets s - 1] (buckets s) (buckets t)).
  rewrite lookup_xor_at by (apply list.NoDup_cons; split; [set_solver|constructor]).
  rewrite Hr by done. simpl. rewrite elem_of_seq in Hin.
  destruct (decide (j ∈ seq _ _)) as [Hs|Hs].
  - rewrite elem_of_seq in Hs. rewrite decide_False by (rewrite list_elem_of_singleton; lia).
    simpl. by rewrite Hx.
  - rewrite elem_of_seq in Hs. rewrite decide_True by (rewrite list_elem_of_singleton; lia).
    simpl. by rewrite Hx.
Qed.

(** *** What a sample says about the set *)

(** The checksum has no accidental match inside [X]: among the subsets of
    [X], only singletons look good and only the empty set looks empty. *)
Definition checksum_sound (sd : N) X : Prop :=
  ∀ Y, Y ⊆ X →
    (xsum (λ x, Bucket_Boruvka.get_index_hash x sd) Y
       = Bucket_Boruvka.get_index_hash (xsum id Y) sd → ∃ x, Y = {[x]}) ∧
    (xsum id Y = 0%N → xsum (λ x, Bucket_Boruvka.get_index_hash x sd) Y = 0%N → Y = ∅).

Lemma checksum_sound_mono sd X Y : checksum_sound sd X → Y ⊆ X → checksum_sound sd Y.
Proof. intros Hs HYX Z HZ. apply Hs. set_solver. Qed.

(** The same as a test on the sublists of a list of indices. *)
Fixpoint sublists {A} (l : list A) : list (list A) :=
  match l with
  | [] => [[]]
  | x :: l => let ls := sublists l in ls ++ (cons x <$> ls)
  end.

Definition checksum_soundb (sd : N) (l : list N) : bool :=
  forallb (λ ys,
    let a := xor_all ys in
    let g := xor_all ((λ x, Bucket_Boruvka.get_index_hash x sd) <$> ys) in
    (negb (g =? Bucket_Boruvka.get_index_hash a sd)%N || bool_decide (length ys = 1)) &&
    (negb ((a =? 0) && (g =? 0))%N || bool_decide (length ys = 0))) (sublists l).

Lemma sublists_filter {A} (P : A → Prop) `{∀ x, Decision (P x)} (l : list A) :
  filter P l ∈ sublists l.
Proof.
  induction l as [|x l IH]; simpl; [set_solver|]. rewrite filter_cons, elem_of_app.
  case_decide; [right|by left]. by apply list_elem_of_fmap_2.
Qed.

Lemma checksum_soundb_spec sd l :
  NoDup l → checksum_soundb sd l = true → checksum_sound sd (list_to_set l).
Proof.
  intros Hnd Hb Y HY. unfold checksum_soundb in Hb. rewrite forallb_forall in Hb.
  specialize (Hb _ (proj1 (list_elem_of_In _ _) (sublists_filter (λ x, x ∈ Y) l))). simpl in Hb.
  assert (elements Y ≡ₚ filter (λ x, x ∈ Y) l) as Hp.
  { apply NoDup_Permutation; [apply NoDup_elements|by apply list.NoDup_filter|].
    intros x. rewrite elem_of_elements, list_elem_of_filter. set_solver. }
  assert (xsum id Y = xor_all (filter (λ x, x ∈ Y) l)) as Hid.
  { unfold xsum. rewrite list_fmap_id. by apply xor_all_perm. }
  assert (∀ f, xsum f Y = xor_all (f <$> filter (λ x, x ∈ Y) l)) as Hf.
  { intros f. unfold xsum. apply xor_all_perm. by rewrite Hp. }
  rewrite <- Hid, <- Hf in Hb. apply Permutation_length in Hp.
  apply andb_true_iff in Hb as [H1 H2]. split.
  - intros Hg. rewrite Hg, N.eqb_refl in H1. simpl in H1.
    apply bool_decide_eq_true in H1. rewrite <- Hp in H1.
    apply size_1_elem_of in H1 as [x Hx%leibniz_equiv]. by exists x.
  - intros Ha Hg. rewrite Ha, Hg in H2. simpl in H2. apply bool_decide_eq_true in H2.
    rewrite <- Hp in H2. by apply leibniz_equiv, size_empty_iff.
Qed.

Lemma content_det s X : content s (num_buckets s - 1) X = bucket_of s X.
Proof.
  rewrite content_masked. unfold bucket_of. f_equal; apply xsum_ext; intros x _;
    unfold touches; by rewrite bool_decide_true.
Qed.

Lemma content_good s j X :
  checksum_sound (seed s) X →
  Bucket_Boruvka.is_good (content s j X) (checksum_seed s) = true →
  alpha (content s j X) ∈ X.
Proof.
  intros Hs Hg. apply N.eqb_eq in Hg. unfold content, bucket_of in *. simpl in *.
  set (Y := filter _ X) in *.
  assert (Y ⊆ X) as HYX by (intros z [_ ?]%elem_of_filter; done).
  destruct (proj1 (Hs Y HYX) Hg) as [x Hx]. rewrite Hx in *. rewrite xsum_singleton.
  unfold id. set_solver.
Qed.

Lemma first_good_spec s ids :
  match first_good s ids with
  | Some a => ∃ i, i ∈ ids ∧ a = alpha (buckets s !!! i) ∧
                Bucket_Boruvka.is_good (buckets s !!! i) (checksum_seed s) = true
  | None => ∀ i, i ∈ ids →
              Bucket_Boruvka.is_good (buckets s !!! i) (checksum_seed s) = false
  end.
Proof.
  induction ids as [|i ids IH]; simpl; [set_solver|].
  destruct (Bucket_Boruvka.is_good (buckets s !!! i) (checksum_seed s)) eqn:Hg.
  - exists i. split; [set_solver|done].
  - destruct (first_good s ids).
    + destruct IH as (k & ? & ? & ?). exists k. split; [set_solver|done].
    + intros k Hk. apply elem_of_cons in Hk as [->|?]; auto.
Qed.

Lemma sample_bucket_ids_range s k j :
  sketch_wf s → k < num_samples s →
  j ∈ sample_bucket_ids s (k * cols_per_sample s) →
  sample_range s k j ∧ j < num_buckets s.
Proof.
  intros [Hc Hb _ _ _] Hk Hj. unfold sample_bucket_ids in Hj.
  apply list_elem_of_bind in Hj as (i & Hj & Hi).
  apply list_elem_of_bind in Hj as (r & Hj & Hr).
  apply list_elem_of_singleton in Hj as ->. apply elem_of_seq in Hi, Hr.
  assert ((i + k * cols_per_sample s) * bkt_per_col s + r <
          S k * cols_per_sample s * bkt_per_col s) as Hlt.
  { apply Nat.lt_le_trans with ((i + k * cols_per_sample s + 1) * bkt_per_col s); [lia|].
    apply Nat.mul_le_mono_r. lia. }
  split.
  - right. split; [|done]. rewrite Nat.mul_add_distr_r. lia.
  - apply Nat.lt_le_trans with (num_samples s * cols_per_sample s * bkt_per_col s); [|lia].
    eapply Nat.lt_le_trans; [exact Hlt|]. apply Nat.mul_le_mono_r, Nat.mul_le_mono_r. lia.
Qed.

Lemma represents_at_lookup s k X j :
  represents_at s k X → j < num_buckets s → sample_range s k j →
  buckets s !!! j = content s j X.
Proof. intros [_ Hr] Hj HR. by apply list_lookup_total_correct, Hr. Qed.

Lemma represents_at_det s k X : represents_at s k X → det_bucket s = bucket_of s X.
Proof.
  intros Hr. unfold det_bucket. rewrite <- content_det.
  eapply represents_at_lookup; [done| |by left].
  destruct Hr as [[_ Hb _ _ _] _]. lia.
Qed.

Definition sample_meaning (r : SketchSample) X : Prop :=
  match result r with
  | ZERO => X = ∅
  | GOOD => sample_index r ∈ X
  | FAIL => 2 ≤ size X
  end.

Lemma det_not_zero_not_good s X :
  bucket_is_zero (bucket_of s X) = false →
  Bucket_Boruvka.is_good (bucket_of s X) (seed s) = false → 2 ≤ size X.
Proof.
  intros Hz Hg. destruct (decide (size X = 0)) as [Hs0|Hs0].
  { apply size_empty_inv, leibniz_equiv in Hs0. subst X.
    unfold bucket_of, bucket_is_zero in Hz. by rewrite !xsum_empty in Hz. }
  destruct (decide (size X = 1)) as [Hs1|Hs1]; [|lia].
  apply size_1_elem_of in Hs1 as [x HX%leibniz_equiv]. subst X.
  unfold bucket_of, Bucket_Boruvka.is_good in Hg. simpl in Hg.
  rewrite !xsum_singleton in Hg. unfold checksum, checksum_seed, id in Hg.
  by rewrite N.eqb_refl in Hg.
Qed.

Lemma sample_spec s X :
  represents_at s (sample_idx s) X → checksum_sound (seed s) X →
  sample_idx s < num_samples s →
  ∃ r, sample s = (Ok r, set_sample_idx s (S (sample_idx s))) ∧ sample_meaning r X.
Proof.
  intros Hr Hs Hk. unfold sample. rewrite decide_False by lia. simpl.
  change (det_bucket (set_sample_idx s (S (sample_idx s)))) with (det_bucket s).
  change (checksum_seed (set_sample_idx s (S (sample_idx s)))) with (seed s).
  rewrite (represents_at_det s _ X) by done.
  destruct (bucket_is_zero (bucket_of s X)) eqn:Hz.
  { eexists. split; [done|]. unfold bucket_is_zero in Hz. simpl in *.
    apply andb_true_iff in Hz as [Ha%N.eqb_eq Hg%N.eqb_eq].
    by apply (proj2 (Hs X ltac:(done))). }
  destruct (Bucket_Boruvka.is_good (bucket_of s X) (seed s)) eqn:Hg.
  { eexists. split; [done|]. unfold sample_meaning. simpl.
    rewrite <- content_det in Hg. apply content_good in Hg; [|done].
    by rewrite content_det in Hg. }
  pose proof (first_good_spec (set_sample_idx s (S (sample_idx s)))
    (sample_bucket_ids (set_sample_idx s (S (sample_idx s)))
      (sample_idx s * cols_per_sample s))) as Hf.
  destruct (first_good _ _) as [a|].
  - eexists. split; [done|]. destruct Hf as (i & Hi & -> & Hgi). simpl in *.
    apply (sample_bucket_ids_range s) in Hi as [HR Hi]; [|by destruct Hr|done].
    rewrite (represents_at_lookup s _ X) in * by done. by apply content_good.
  - eexists. split; [done|]. unfold sample_meaning. simpl.
    by eapply det_not_zero_not_good.
Qed.

Lemma sample_exhausted s :
  num_samples s ≤ sample_idx s →
  sample s = (Throw (OutOfSamplesException (seed s) (num_samples s) (sample_idx s)), s).
Proof. intros Hk. unfold sample. by rewrite decide_True. Qed.

(** *** Exhaustive sampling *)

Lemma elem_of_all_good s ids x :
  x ∈ all_good s ids ↔
  ∃ i, i ∈ ids ∧ x = alpha (buckets s !!! i) ∧
    Bucket_Boruvka.is_good (buckets s !!! i) (checksum_seed s) = true.
Proof.
  unfold all_good. rewrite <- (reverse_involutive ids).
  induction (reverse ids) as [|i l IH]; [rewrite reverse_nil; set_solver|].
  rewrite reverse_cons, foldl_app. simpl.
  destruct (Bucket_Boruvka.is_good (buckets s !!! i) (checksum_seed s)) eqn:Hg.
  - rewrite elem_of_union, elem_of_singleton, IH. split.
    + intros [->|(k & ? & ? & ?)]; [exists i|exists k]; set_solver.
    + intros (k & [Hk| ->%list_elem_of_singleton]%elem_of_app & ? & ?); eauto.
  - rewrite IH. split.
    + intros (k & ? & ? & ?). exists k. set_solver.
    + intros (k & [Hk| ->%list_elem_of_singleton]%elem_of_app & ? & ?); [eauto|congruence].
Qed.

Definition exhaustive_meaning (r : ExhaustiveSketchSample) X : Prop :=
  match ex_result r with
  | ZERO => X = ∅ ∧ idxs r = ∅
  | GOOD => idxs r ≠ ∅ ∧ idxs r ⊆ X
  | FAIL => 2 ≤ size X ∧ idxs r = ∅
  end.

Lemma exhaustive_sample_spec s X :
  represents_at s (sample_idx s) X → checksum_sound (seed s) X →
  sample_idx s < num_samples s →
  ∃ r, exhaustive_sample s = (Ok r, set_sample_idx s (S (sample_idx s))) ∧
       exhaustive_meaning r X.
Proof.
  intros Hr Hs Hk. unfold exhaustive_sample. rewrite decide_False by lia. simpl.
  change (det_bucket (set_sample_idx s (S (sample_idx s)))) with (det_bucket s).
  change (checksum_seed (set_sample_idx s (S (sample_idx s)))) with (seed s).
  rewrite (represents_at_det s _ X) by done.
  destruct (bucket_is_zero (bucket_of s X)) eqn:Hz.
  { eexists. split; [done|]. unfold bucket_is_zero in Hz. simpl in *.
    apply andb_true_iff in Hz as [Ha%N.eqb_eq Hg%N.eqb_eq].
    split; [|done]. by apply (proj2 (Hs X ltac:(done))). }
  destruct (Bucket_Boruvka.is_good (bucket_of s X) (seed s)) eqn:Hg.
  { eexists. split; [done|]. unfold exhaustive_meaning. simpl.
    rewrite <- content_det in Hg. apply content_good in Hg; [|done].
    rewrite content_det in Hg. set_solver. }
  set (s' := set_sample_idx s (S (sample_idx s))).
  set (ids := sample_bucket_ids s' (sample_idx s * cols_per_sample s)).
  case_decide as Hsz.
  - eexists. split; [done|]. unfold exhaustive_meaning. simpl.
    split; [by eapply det_not_zero_not_good|].
    by apply size_empty_inv, leibniz_equiv in Hsz.
  - eexists. split; [done|]. unfold exhaustive_meaning. simpl. split.
    { intros He. rewrite He, size_empty in Hsz. done. }
    intros x (i & Hi & -> & Hgi)%elem_of_all_good.
    apply (sample_bucket_ids_range s) in Hi as [HR Hi]; [|by destruct Hr|done].
    change (buckets s' !!! i) with (buckets s !!! i) in *.
    rewrite (represents_at_lookup s _ X) in * by done. by apply content_good.
Qed.

(** *** Equality of sketches *)

Lemma sketch_eqb_spec s t :
  sketch_wf s → sketch_wf t →
  sketch_eqb s t = true ↔ seed s = seed t ∧ buckets s = buckets t.
Proof.
  intros Hs Ht. unfold sketch_eqb. rewrite !andb_true_iff, bool_decide_eq_true, N.eqb_eq.
  rewrite forallb_forall. split.
  - intros [[Hn Hsd] Hall]. split; [done|].
    apply list_eq_same_length with (length (buckets s));
      [by rewrite (wf_length t), (wf_length s)|done|].
    intros i b c Hi Hb Hc. rewrite wf_length in Hi by done.
    specialize (Hall i ltac:(apply in_seq; lia)).
    rewrite (list_lookup_total_correct _ _ _ Hb), (list_lookup_total_correct _ _ _ Hc) in Hall.
    apply andb_true_iff in Hall as [?%N.eqb_eq ?%N.eqb_eq]. destruct b, c. simpl in *. by subst.
  - intros [Hsd Hb]. split; [split; [|done]|].
    + by rewrite <- (wf_length s), <- (wf_length t), Hb.
    + intros i _. rewrite Hb. by rewrite !N.eqb_refl.
Qed.
End spec.

(** ** Construction *)

Section construction.
Context `{BuildConfig, Libm, Hashing}.

Lemma calc_bkt_per_col_pos n : 0 < calc_bkt_per_col n.
Proof. unfold calc_bkt_per_col. case_decide; lia. Qed.

Lemma calc_bkt_per_col_mod16 n : calc_bkt_per_col n mod 16 ≠ 0.
Proof.
  unfold calc_bkt_per_col. case_decide as Hm; [|done].
  revert Hm. generalize (N.to_nat (ceil_to_N (log2 (of_N n))) + 1). intros t Hm.
  apply Nat.Div0.mod_divides in Hm as [c ->].
  by rewrite (Nat.mul_comm 16 c), (Nat.add_comm _ 1), Nat.Div0.mod_add.
Qed.

(** The shift [1ull << bkt_per_col] stays below the width of the word. *)
Lemma calc_bkt_per_col_lt n :
  (ceil_to_N (log2 (of_N n)) ≤ 62)%N → calc_bkt_per_col n < 64.
Proof.
  intros Hc. unfold calc_bkt_per_col. set (c := ceil_to_N _) in *.
  case_decide as Hm; [|lia].
  assert (N.to_nat c + 1 ≠ 63) as H63 by (intros Heq; rewrite Heq in Hm; done). lia.
Qed.

Lemma new_sketch_wf v sd n c :
  calc_bkt_per_col v < 64 → sketch_wf (new_sketch v sd n c).
Proof.
  intros Hb. constructor; simpl; try done; [by rewrite length_replicate|].
  apply calc_bkt_per_col_pos.
Qed.

Lemma represents_new_sketch v sd n c :
  calc_bkt_per_col v < 64 → represents (new_sketch v sd n c) ∅.
Proof.
  intros Hb. split; [by apply new_sketch_wf|]. intros j Hj. simpl.
  rewrite content_empty. apply lookup_replicate. done.
Qed.
End construction.

(** ** Properties *)

(** The sketches a program can hold: those of one size and seed, built by the
    constructor and changed by the operations of the class, with the set each
    operation is meant to leave. *)
Inductive history `{BuildConfig, Libm, Hashing} (vlen sd : N) (ns cols : nat)
    : Sketch → gset N → Prop :=
  | history_new : history vlen sd ns cols (new_sketch vlen sd ns cols) ∅
  | history_update s X x :
      history vlen sd ns cols s X → history vlen sd ns cols (update s x) (toggle x X)
  | history_merge s t X Y :
      history vlen sd ns cols s X → history vlen sd ns cols t Y →
      history vlen sd ns cols (merge s t) (symdiff X Y)
  | history_raw s t X Y :
      history vlen sd ns cols s X → history vlen sd ns cols t Y →
      history vlen sd ns cols (merge_raw_bucket_buffer s (buckets t)) (symdiff X Y)
  | history_zero s X :
      history vlen sd ns cols s X → history vlen sd ns cols (zero_contents s) ∅
  | history_reset s X :
      history vlen sd ns cols s X → history vlen sd ns cols (reset_sample_state s) X
  | history_sample s X :
      history vlen sd ns cols s X → history vlen sd ns cols (sample s).2 X
  | history_exhaustive s X :
      history vlen sd ns cols s X → history vlen sd ns cols (exhaustive_sample s).2 X
  | history_copy s X :
      history vlen sd ns cols s X → history vlen sd ns cols (copy_sketch s) X.

Section properties.
Context `{BuildConfig, Libm, Hashing}.

Lemma sample_state s : ∃ i, (sample s).2 = set_sample_idx s i.
Proof.
  unfold sample. repeat case_match; simplify_eq/=; try (by eexists).
  exists (sample_idx s). by destruct s.
Qed.

Lemma exhaustive_state s : ∃ i, (exhaustive_sample s).2 = set_sample_idx s i.
Proof.
  unfold exhaustive_sample. repeat case_match; simplify_eq/=; try (by eexists).
  exists (sample_idx s). by destruct s.
Qed.

Lemma history_ok vlen sd ns cols s X :
  calc_bkt_per_col vlen < 64 → history vlen sd ns cols s X →
  represents s X ∧ geometry s = geometry (new_sketch vlen sd ns cols).
Proof.
  intros Hb. induction 1 as [|s X x _ [Hr Hg]|s t X Y _ [Hr Hg] _ [Ht Hgt]
    |s t X Y _ [Hr Hg] _ [Ht Hgt]|s X _ [Hr Hg]|s X _ [Hr Hg]|s X _ [Hr Hg]|s X _ [Hr Hg]
    |s X _ [Hr Hg]]; (split; [|try done]).
  - by apply represents_new_sketch.
  - by apply represents_update.
  - apply represents_merge; [done..|congruence].
  - eapply represents_xor; [done..|congruence|done].
  - apply represents_zero_contents. by destruct Hr.
  - by apply represents_set_sample_idx.
  - destruct (sample_state s) as [i ->]. by apply represents_set_sample_idx.
  - by destruct (sample_state s) as [i ->].
  - destruct (exhaustive_state s) as [i ->]. by apply represents_set_sample_idx.
  - by destruct (exhaustive_state s) as [i ->].
  - by apply (represents_set_sample_idx s 0).
Qed.
End properties.

Section theorems.
Context `{BuildConfig, Libm, Hashing}.



(** [exhaustive_sample] answers ZERO only for the empty set, GOOD with a
    nonempty subset of the set, and FAIL with no index and only when the set
    has two members or more; without samples left it throws. *)
Theorem exhaustive_sample_answers s X :
  represents_at s (sample_idx s) X → checksum_sound (seed s) X →
  (sample_idx s < num_samples s →
    ∃ r, exhaustive_sample s = (Ok r, set_sample_idx s (S (sample_idx s))) ∧
      match ex_result r with
      | ZERO => X = ∅ ∧ idxs r = ∅
      | GOOD => idxs r ≠ ∅ ∧ idxs r ⊆ X
      | FAIL => 2 ≤ size X ∧ idxs r = ∅
      end) ∧
  (num_samples s ≤ sample_idx s →
    exhaustive_sample s =
      (Throw (OutOfSamplesException (seed s) (num_samples s) (sample_idx s)), s)).
Proof.
  intros Hr Hs. split; [by apply exhaustive_sample_spec|].
  intros Hk. unfold exhaustive_sample. by rewrite decide_True.
Qed.

(** [range_merge] of the sample of one round makes that sample answer for
    the symmetric difference and never moves the sample position back; past the
    last sample it leaves a sketch whose next sample throws. *)
Theorem range_merge_one_sample s t k X Y :
  represents_at s k X → represents_at t k Y → geometry s = geometry t →
  (k < num_samples s →
    represents_at (range_merge s t k 1) k (symdiff X Y) ∧
    sample_idx (range_merge s t k 1) = sample_idx s `max` k) ∧
  (num_samples s ≤ k →
    ∃ i, (sample (range_merge s t k 1)).1 =
      Throw (OutOfSamplesException (seed s) (num_samples s) i)).
Proof.
  intros Hs Ht Hg. split; intros Hk.
  - split; [by apply represents_at_range_merge|].
    unfold range_merge. by rewrite decide_False by lia.
  - exists (num_samples s). unfold range_merge. rewrite decide_True by lia.
    by rewrite sample_exhausted.
Qed.

(** [operator==] on sketches decides whether seed and all buckets agree. *)
Theorem sketch_equality s t :
  sketch_wf s → sketch_wf t →
  sketch_eqb s t = true ↔ seed s = seed t ∧ buckets s = buckets t.
Proof. apply sketch_eqb_spec. Qed.
End theorems.

(** ** Witnesses *)

Section witnesses.
#[local] Existing Instances default_build integral_libm xxh3_hashing.

(** A sketch of 6 coordinates with two samples, holding coordinates 3 and 5. *)
Definition example_sketch : Sketch :=
  merge (update (update (new_sketch 6 7 2 1) 3) 1) (update (update (new_sketch 6 7 2 1) 5) 1).

Definition example_set : gset N :=
  symdiff (toggle 1%N (toggle 3%N ∅)) (toggle 1%N (toggle 5%N ∅)).

Lemma example_history : history 6 7 2 1 example_sketch example_set.
Proof.
  unfold example_sketch, example_set.
  apply history_merge; do 2 apply history_update; apply history_new.
Qed.

Lemma example_bkt : calc_bkt_per_col 6 < 64.
Proof. vm_compute. lia. Qed.

Lemma example_sound : checksum_sound 7 example_set.
Proof.
  replace example_set with (list_to_set [3%N; 5%N] : gset N) by by vm_compute.
  apply checksum_soundb_spec; [|by vm_compute]. repeat constructor; set_solver.
Qed.

Lemma example_represents : represents example_sketch example_set.
Proof. exact (proj1 (history_ok 6 7 2 1 _ _ example_bkt example_history)). Qed.



Lemma exhaustive_sample_answers_witness :
  ∃ r, exhaustive_sample example_sketch = (Ok r, set_sample_idx example_sketch 1) ∧
    match ex_result r with
    | ZERO => example_set = ∅ ∧ idxs r = ∅
    | GOOD => idxs r ≠ ∅ ∧ idxs r ⊆ example_set
    | FAIL => 2 ≤ size example_set ∧ idxs r = ∅
    end.
Proof.
  apply (exhaustive_sample_answers example_sketch example_set).
  - apply represents_represents_at. exact example_represents.
  - exact example_sound.
  - vm_compute. lia.
Defined.

Lemma range_merge_one_sample_witness :
  represents_at (range_merge example_sketch example_sketch 1 1) 1
    (symdiff example_set example_set) ∧
  sample_idx (range_merge example_sketch example_sketch 1 1) = 1.
Proof.
  apply (range_merge_one_sample example_sketch example_sketch 1 example_set example_set).
  - apply represents_represents_at. exact example_represents.
  - apply represents_represents_at. exact example_represents.
  - reflexivity.
  - vm_compute. lia.
Defined.

Lemma sketch_equality_witness :
  sketch_eqb example_sketch example_sketch = true ↔
    seed example_sketch = seed example_sketch ∧ buckets example_sketch = buckets example_sketch.
Proof.
  apply (sketch_equality example_sketch example_sketch); apply example_represents.
Defined.

End witnesses.
