(* ===== verification/Dsu.v ===== *)
(** * Disjoint set union: src/include/dsu.h

    Union-find with path halving and union by random priority. The file models
    [DisjointSetUnion] and, run by one thread, [DisjointSetUnion_MT]; the
    interleavings of the latter are the subject of [DsuMT]. Priorities drawn by
    the constructor are an argument of it. *)

From Stdlib Require Import NArith Lia.
From stdpp Require Import base list numbers relations.
From S2P Require Import Prelude.

Record DSUMergeRet := mkMergeRet { merged : bool; ret_root : nat; ret_child : nat }.

Record DSU := mkDSU { dsu_n : nat; parent : list nat; priority : list N }.

Definition set_parent (d : DSU) (p : list nat) : DSU := mkDSU (dsu_n d) p (priority d).

(** The constructor: [prio] are the values drawn from the generator. *)
Definition new_dsu (n : nat) (prio : list N) : DSU := mkDSU n (seq 0 n) prio.

Definition reset (d : DSU) : DSU := set_parent d (seq 0 (dsu_n d)).

(** [order_edge(a, b)]: the node of higher priority comes first, the smaller id
    on a tie. *)
Definition order_edge (d : DSU) (a b : nat) : outcome (nat * nat) :=
  pa ← arr_get (priority d) a; pb ← arr_get (priority d) b;
  let '(a, b, pa, pb) :=
    (if decide (pa = pb ∧ b < a) then (b, a, pb, pa) else (a, b, pa, pb)) in
  if decide (pa < pb)%N then Ok (b, a) else Ok (a, b).

(** The loop of [find_root]; each turn halves the path. *)
Fixpoint find_root_loop (fuel : nat) (p : list nat) (u : nat) : outcome (nat * list nat) :=
  match fuel with
  | O => Throw OutOfFuel
  | S fuel =>
      pu ← arr_get p u; ppu ← arr_get p pu;
      if decide (ppu = pu) then Ok (pu, p)
      else p ← arr_set p u ppu; find_root_loop fuel p ppu
  end.

(** A path visits each node at most once, so [n] turns are enough. *)
Definition find_root (d : DSU) (u : nat) : outcome (nat * DSU) :=
  rp ← find_root_loop (S (dsu_n d)) (parent d) u; Ok (rp.1, set_parent d rp.2).

Module DisjointSetUnion.
Definition merge (d : DSU) (u v : nat) : outcome (DSUMergeRet * DSU) :=
  ad ← find_root d u; bd ← find_root ad.2 v;
  let '(a, b, d) := (ad.1, bd.1, bd.2) in
  if decide (a = b) then Ok (mkMergeRet false 0 0, d)
  else ab ← order_edge d a b;
       p ← arr_set (parent d) ab.2 ab.1;
       Ok (mkMergeRet true ab.1 ab.2, set_parent d p).
End DisjointSetUnion.

Module DisjointSetUnion_MT.
(** The loop of [merge]. [spurious] are the answers of the weak
    compare-and-exchange that fail although the values agree; a failed
    exchange stores the value it saw in [b]. *)
Fixpoint merge_loop (fuel : nat) (spurious : list bool) (d : DSU) (a b : nat)
    : outcome (DSUMergeRet * DSU) :=
  match fuel with
  | O => Throw OutOfFuel
  | S fuel =>
      ad ← find_root d a; bd ← find_root ad.2 b;
      let '(a, b, d) := (ad.1, bd.1, bd.2) in
      if decide (a = b) then Ok (mkMergeRet false 0 0, d)
      else
        ab ← order_edge d a b;
        seen ← arr_get (parent d) ab.2;
        if decide (seen = ab.2 ∧ hd false spurious = false) then
          p ← arr_set (parent d) ab.2 ab.1;
          Ok (mkMergeRet true ab.1 ab.2, set_parent d p)
        else merge_loop fuel (tl spurious) d ab.1 seen
  end.

Definition merge (spurious : list bool) (d : DSU) (u v : nat) : outcome (DSUMergeRet * DSU) :=
  merge_loop (S (length spurious)) spurious d u v.
End DisjointSetUnion_MT.

(** ** The order of priorities *)

Section order.
Context (prio : list N).

(** [above a b]: [a] may be the parent of [b]. *)
Definition above (a b : nat) : Prop :=
  (prio !!! b < prio !!! a)%N ∨ (prio !!! a = prio !!! b ∧ a < b).

#[global] Instance above_dec a b : Decision (above a b).
Proof. unfold above. apply _. Defined.

Lemma above_irrefl a : ¬ above a a.
Proof. unfold above. lia. Qed.

Lemma above_trans a b c : above a b → above b c → above a c.
Proof. unfold above. lia. Qed.

Lemma above_total a b : a ≠ b → above a b ∨ above b a.
Proof. unfold above. lia. Qed.

(** How many of the first [n] nodes are above [u]. *)
Definition rank (n u : nat) : nat := length (filter (λ v, above v u) (seq 0 n)).

Lemma rank_le n u : rank n u ≤ n.
Proof.
  unfold rank. rewrite <- (length_seq n 0) at 2. apply length_filter.
Qed.

Lemma length_filter_lt {A} (P Q : A → Prop) `{∀ x, Decision (P x), ∀ x, Decision (Q x)}
    (l : list A) x :
  (∀ y, P y → Q y) → x ∈ l → Q x → ¬ P x →
  length (filter P l) < length (filter Q l).
Proof.
  intros HPQ Hx HQ HP.
  assert (∀ l', length (filter P l') ≤ length (filter Q l')) as Hle.
  { induction l' as [|y l' IH]; [done|]. rewrite !filter_cons.
    destruct (decide (P y)), (decide (Q y)); simpl; try lia. naive_solver. }
  induction l as [|y l IH]; [set_solver|]. rewrite !filter_cons.
  apply elem_of_cons in Hx as [->|Hx].
  - rewrite decide_False, decide_True by done. simpl. specialize (Hle l). lia.
  - specialize (IH Hx). destruct (decide (P y)), (decide (Q y)); simpl; try lia. naive_solver.
Qed.

Lemma rank_lt n u v : above v u → v < n → rank n v < rank n u.
Proof.
  intros Hvu Hv. unfold rank. apply (length_filter_lt _ _ _ v).
  - intros w Hw. by eapply above_trans.
  - apply elem_of_seq. lia.
  - done.
  - apply above_irrefl.
Qed.
End order.

(** ** Forests *)

(** [root_of p u r]: following parents from [u] ends in the root [r]. *)
Inductive root_of (p : list nat) : nat → nat → Prop :=
  | root_here r : p !! r = Some r → root_of p r r
  | root_up u v r : p !! u = Some v → u ≠ v → root_of p v r → root_of p u r.

Record forest_wf (n : nat) (prio : list N) (p : list nat) : Prop := {
  fw_parent : length p = n;
  fw_prio : length prio = n;
  fw_range : ∀ u v, p !! u = Some v → v < n;
  fw_above : ∀ u v, p !! u = Some v → v = u ∨ above prio v u;
}.

Definition dsu_wf (d : DSU) : Prop := forest_wf (dsu_n d) (priority d) (parent d).

Lemma root_of_root p u r : root_of p u r → p !! r = Some r.
Proof. by induction 1. Qed.

Lemma root_of_det p u r r' : root_of p u r → root_of p u r' → r = r'.
Proof.
  intros Hr. revert r'. induction Hr as [r Hr|u v r Hu Hne Hv IH]; intros r' Hr'.
  - inversion Hr'; congruence.
  - inversion Hr'; simplify_eq. by apply IH.
Qed.

Lemma root_of_step p u v r : root_of p u r → p !! u = Some v → root_of p v r.
Proof.
  intros Hr Hu. destruct Hr as [r Hr|u v' r Hu' Hne Hv]; [|congruence].
  assert (v = r) as -> by congruence. by constructor.
Qed.

Lemma root_of_ex n prio p u : forest_wf n prio p → u < n → ∃ r, root_of p u r.
Proof.
  intros Hwf. remember (rank prio n u) as k eqn:Hk. revert u Hk.
  induction (lt_wf k) as [k _ IH]. intros u -> Hu.
  destruct (lookup_lt_is_Some_2 p u) as [v Hv]; [by rewrite (fw_parent _ _ _ Hwf)|].
  destruct (decide (u = v)) as [->|Hne]; [exists v; by constructor|].
  destruct (fw_above _ _ _ Hwf u v Hv) as [?|Hab]; [done|].
  pose proof (fw_range _ _ _ Hwf u v Hv) as Hvn.
  destruct (IH (rank prio n v) (rank_lt prio n u v Hab Hvn) v eq_refl Hvn) as [r Hr].
  exists r. by eapply root_up.
Qed.

Lemma root_of_lt n prio p u r : forest_wf n prio p → root_of p u r → u < n ∧ r < n.
Proof.
  intros Hwf Hr. split.
  - destruct Hr; (erewrite <- fw_parent; [|done]); by eapply lookup_lt_Some.
  - eapply fw_range; [done|]. by eapply root_of_root.
Qed.

(** Two forests with the same nodes in which roots carry over one way have the
    same roots. *)
Lemma root_of_iff n prio prio' p p' :
  forest_wf n prio p → forest_wf n prio' p' →
  (∀ u r, root_of p u r → root_of p' u r) →
  ∀ u r, root_of p u r ↔ root_of p' u r.
Proof.
  intros Hwf Hwf' Himp u r. split; [apply Himp|]. intros Hr.
  destruct (root_of_ex n prio p u Hwf) as [r0 Hr0].
  { by eapply root_of_lt in Hr as [? _]. }
  by rewrite (root_of_det p' u r r0 Hr (Himp _ _ Hr0)).
Qed.

(** *** Path halving *)

Lemma halve_wf n prio p u v w :
  forest_wf n prio p → p !! u = Some v → p !! v = Some w → forest_wf n prio (<[u := w]> p).
Proof.
  intros Hwf Hu Hv. destruct Hwf as [Hl Hp Hr Ha]. constructor; [by rewrite length_insert|done|..].
  - intros x y Hxy. destruct (decide (x = u)) as [->|Hne].
    + rewrite list_lookup_insert_eq in Hxy by by eapply lookup_lt_Some.
      injection Hxy as <-. by eapply Hr.
    + rewrite list_lookup_insert_ne in Hxy by done. by eapply Hr.
  - intros x y Hxy. destruct (decide (x = u)) as [->|Hne].
    + rewrite list_lookup_insert_eq in Hxy by by eapply lookup_lt_Some.
      injection Hxy as <-.
      destruct (Ha u v Hu) as [Huv|Huv], (Ha v w Hv) as [Hvw|Hvw]; subst; auto.
      right. by eapply above_trans.
    + rewrite list_lookup_insert_ne in Hxy by done. by eapply Ha.
Qed.

Lemma halve_root_of n prio p u v w x r :
  forest_wf n prio p → p !! u = Some v → p !! v = Some w →
  root_of p x r ↔ root_of (<[u := w]> p) x r.
Proof.
  intros Hwf Hu Hv. revert x r.
  apply (root_of_iff n prio prio); [done|by eapply halve_wf|]. intros x r Hr.
  assert (∀ y s, root_of p y s → rank prio n y ≤ rank prio n x →
            root_of (<[u := w]> p) y s) as Hgen.
  2: by apply Hgen. clear Hr r.
  remember (rank prio n x) as k eqn:Hk. clear Hk x. induction (lt_wf k) as [k _ IH].
  intros y s Hs Hle. destruct Hs as [s Hs|y z s Hy Hne Hz].
  - constructor. destruct (decide (s = u)) as [->|Hsu].
    + rewrite list_lookup_insert_eq by by eapply lookup_lt_Some. congruence.
    + by rewrite list_lookup_insert_ne.
  - assert (above prio z y) as Hzy by (destruct (fw_above _ _ _ Hwf y z Hy); [congruence|done]).
    pose proof (fw_range _ _ _ Hwf y z Hy) as Hzn.
    pose proof (rank_lt prio n y z Hzy Hzn) as Hrk.
    destruct (decide (y = u)) as [->|Hyu].
    + assert (z = v) as -> by congruence. assert (w = v ∨ above prio w v) as Hwv by by eapply fw_above.
      eapply root_up.
      * apply list_lookup_insert_eq. by eapply lookup_lt_Some.
      * intros ->. destruct Hwv as [?|Hwv]; [done|]. by eapply above_irrefl, above_trans.
      * apply (IH (rank prio n v)); [lia|by eapply root_of_step|].
        destruct Hwv as [->|Hwv]; [done|].
        apply Nat.lt_le_incl, rank_lt; [done|by eapply fw_range].
    + eapply root_up; [by rewrite list_lookup_insert_ne|done|].
      by apply (IH (rank prio n z)); [lia| |].
Qed.

(** *** [find_root] *)

Lemma find_root_loop_spec n prio fuel p u :
  forest_wf n prio p → u < n → rank prio n u < fuel →
  ∃ r p', find_root_loop fuel p u = Ok (r, p') ∧ root_of p u r ∧
    forest_wf n prio p' ∧ ∀ v w, root_of p v w ↔ root_of p' v w.
Proof.
  revert p u. induction fuel as [|fuel IH]; intros p u Hwf Hu Hfuel; [lia|].
  destruct (lookup_lt_is_Some_2 p u) as [v Hv]; [by rewrite (fw_parent _ _ _ Hwf)|].
  pose proof (fw_range _ _ _ Hwf u v Hv) as Hvn.
  destruct (lookup_lt_is_Some_2 p v) as [w Hw]; [by rewrite (fw_parent _ _ _ Hwf)|].
  pose proof (fw_range _ _ _ Hwf v w Hw) as Hwn.
  simpl. rewrite (arr_get_Ok p u v) by done. simpl. rewrite (arr_get_Ok p v w) by done. simpl.
  case_decide as Hwv.
  - subst w. exists v, p. split; [done|]. split; [|done].
    destruct (decide (u = v)) as [->|Hne]; [by constructor|].
    eapply root_up; [done..|by constructor].
  - rewrite arr_set_Ok by by eapply lookup_lt_Some. simpl.
    assert (above prio v u) as Hvu.
    { destruct (fw_above _ _ _ Hwf u v Hv) as [->|?]; [congruence|done]. }
    assert (above prio w v) as Hwv'.
    { by destruct (fw_above _ _ _ Hwf v w Hw). }
    pose proof (rank_lt prio n u w (above_trans _ _ _ _ Hwv' Hvu) Hwn) as Hrk.
    destruct (IH (<[u := w]> p) w) as (r & p' & -> & Hr & Hwf' & Heq);
      [by eapply halve_wf|done|lia|].
    exists r, p'. split; [done|]. split; [|split; [done|]].
    + apply (halve_root_of n prio p u v w u r); [done..|]. eapply root_up; [| |done].
      * apply list_lookup_insert_eq. by eapply lookup_lt_Some.
      * intros ->. by eapply above_irrefl, above_trans.
    + intros x y. rewrite <- Heq. by eapply halve_root_of.
Qed.

Lemma find_root_spec d u :
  dsu_wf d → u < dsu_n d →
  ∃ r d', find_root d u = Ok (r, d') ∧ root_of (parent d) u r ∧ dsu_wf d' ∧
    dsu_n d' = dsu_n d ∧ priority d' = priority d ∧
    ∀ v w, root_of (parent d) v w ↔ root_of (parent d') v w.
Proof.
  intros Hwf Hu. unfold find_root.
  destruct (find_root_loop_spec (dsu_n d) (priority d) (S (dsu_n d)) (parent d) u)
    as (r & p' & -> & Hr & Hwf' & Heq); [done..| |].
  { pose proof (rank_le (priority d) (dsu_n d) u). lia. }
  by exists r, (set_parent d p').
Qed.

(** *** Linking two roots *)

Lemma order_edge_spec d a b :
  dsu_wf d → a < dsu_n d → b < dsu_n d → a ≠ b →
  order_edge d a b = Ok (if decide (above (priority d) a b) then (a, b) else (b, a)).
Proof.
  intros Hwf Ha Hb Hne. unfold order_edge.
  destruct (lookup_lt_is_Some_2 (priority d) a) as [pa Hpa]; [by rewrite (fw_prio _ _ _ Hwf)|].
  destruct (lookup_lt_is_Some_2 (priority d) b) as [pb Hpb]; [by rewrite (fw_prio _ _ _ Hwf)|].
  rewrite (arr_get_Ok _ _ _ Hpa). simpl. rewrite (arr_get_Ok _ _ _ Hpb). simpl.
  apply list_lookup_total_correct in Hpa, Hpb.
  repeat case_decide; unfold above in *; (done || lia).
Qed.

Section link.
Context (n : nat) (prio : list N) (p : list nat) (a b : nat).
Hypothesis Hwf : forest_wf n prio p.
Hypothesis Ha : p !! a = Some a.
Hypothesis Hb : p !! b = Some b.
Hypothesis Hab : above prio a b.

Let p' := <[b := a]> p.

Lemma link_wf : forest_wf n prio p'.
Proof.
  destruct Hwf as [Hl Hp Hr Hab']. unfold p'.
  constructor; [by rewrite length_insert|done|..].
  - intros x y Hxy. destruct (decide (x = b)) as [->|Hne].
    + rewrite list_lookup_insert_eq in Hxy by by eapply lookup_lt_Some.
      injection Hxy as <-. by eapply Hr.
    + rewrite list_lookup_insert_ne in Hxy by done. by eapply Hr.
  - intros x y Hxy. destruct (decide (x = b)) as [->|Hne].
    + rewrite list_lookup_insert_eq in Hxy by by eapply lookup_lt_Some.
      injection Hxy as <-. by right.
    + rewrite list_lookup_insert_ne in Hxy by done. by eapply Hab'.
Qed.

Lemma link_neq : a ≠ b.
Proof. intros Heq. rewrite Heq in Hab. by eapply above_irrefl. Qed.

Lemma link_root_a : root_of p' a a.
Proof. constructor. unfold p'. rewrite list_lookup_insert_ne; [done|].
  apply not_eq_sym, link_neq. Qed.

Lemma link_root_child x : root_of p x b → root_of p' x a.
Proof.
  assert (∀ r, root_of p x r → r = b → root_of p' x a) as Hgen; [|by intros ?; eapply Hgen].
  intros r Hx. induction Hx as [r Hx|x y r Hx Hne Hy IH]; intros Hr.
  - rewrite Hr. eapply root_up; [|apply not_eq_sym, link_neq|apply link_root_a].
    apply list_lookup_insert_eq. by eapply lookup_lt_Some.
  - eapply root_up; [|done|by apply IH]. unfold p'.
    rewrite list_lookup_insert_ne; [done|]. congruence.
Qed.

Lemma link_root_other x r : r ≠ b → root_of p x r → root_of p' x r.
Proof.
  intros Hr Hx. induction Hx as [r Hx|x y r Hx Hne Hy IH].
  - constructor. unfold p'. by rewrite list_lookup_insert_ne.
  - eapply root_up; [|done|by apply IH]. unfold p'.
    rewrite list_lookup_insert_ne; [done|]. congruence.
Qed.
End link.

(** ** The equivalence a forest represents *)

Definition same_set (p : list nat) (x y : nat) : Prop := ∃ r, root_of p x r ∧ root_of p y r.

Definition dsu_rel (d : DSU) : nat → nat → Prop := same_set (parent d).

Lemma same_set_refl n prio p x : forest_wf n prio p → x < n → same_set p x x.
Proof. intros Hwf Hx. destruct (root_of_ex n prio p x) as [r ?]; [done..|]. by exists r. Qed.

#[global] Instance same_set_sym p : Symmetric (same_set p).
Proof. intros x y (r & ? & ?). by exists r. Qed.

#[global] Instance same_set_trans p : Transitive (same_set p).
Proof.
  intros x y z (r & Hx & Hy) (r' & Hy' & Hz). exists r. split; [done|].
  by rewrite (root_of_det p y r r').
Qed.

Lemma same_set_root p x r : root_of p x r → same_set p x r.
Proof. intros Hr. exists r. split; [done|]. constructor. by eapply root_of_root. Qed.

Lemma same_set_roots p x y r r' :
  root_of p x r → root_of p y r' → same_set p x y ↔ r = r'.
Proof.
  intros Hx Hy. split.
  - intros (s & Hxs & Hys). by rewrite (root_of_det p x r s), (root_of_det p y r' s).
  - intros ->. by exists r'.
Qed.

(** The equivalence generated by [R] and one more pair. *)
Definition join_rel (R : nat → nat → Prop) (u v x y : nat) : Prop :=
  R x y ∨ (R x u ∧ R v y) ∨ (R x v ∧ R u y).

Lemma link_same_set n prio p a b x y :
  forest_wf n prio p → p !! a = Some a → p !! b = Some b → above prio a b →
  x < n → y < n →
  same_set (<[b := a]> p) x y ↔ join_rel (same_set p) a b x y.
Proof.
  intros Hwf Ha Hb Hab Hx Hy.
  destruct (root_of_ex n prio p x) as [rx Hrx]; [done..|].
  destruct (root_of_ex n prio p y) as [ry Hry]; [done..|].
  assert (∀ z r, root_of p z r → root_of (<[b := a]> p) z (if decide (r = b) then a else r)) as Hnew.
  { intros z r Hz. case_decide as Hr; [subst r; by eapply link_root_child|].
    by eapply link_root_other. }
  assert (root_of p a a) as Haa by by constructor.
  assert (root_of p b b) as Hbb by by constructor.
  unfold join_rel.
  rewrite (same_set_roots _ _ _ _ _ (Hnew _ _ Hrx) (Hnew _ _ Hry)).
  rewrite (same_set_roots _ _ _ _ _ Hrx Hry), (same_set_roots _ _ _ _ _ Hrx Haa),
    (same_set_roots _ _ _ _ _ Hbb Hry), (same_set_roots _ _ _ _ _ Hrx Hbb),
    (same_set_roots _ _ _ _ _ Haa Hry).
  assert (a ≠ b) by (intros ->; by eapply above_irrefl).
  repeat case_decide; subst; naive_solver.
Qed.

Lemma same_set_ext p p' :
  (∀ v w, root_of p v w ↔ root_of p' v w) → ∀ x y, same_set p x y ↔ same_set p' x y.
Proof. intros Heq x y. unfold same_set. by setoid_rewrite Heq. Qed.

Lemma join_rel_mono (R : nat → nat → Prop) u v u' v' x y :
  Transitive R → (∀ z, R z u → R z u') → (∀ z, R v z → R v' z) →
  (∀ z, R z v → R z v') → (∀ z, R u z → R u' z) →
  join_rel R u v x y → join_rel R u' v' x y.
Proof. intros Ht H1 H2 H3 H4 [?|[[? ?]|[? ?]]]; unfold join_rel; auto. Qed.

Lemma join_rel_ext (R : nat → nat → Prop) u v u' v' x y :
  Symmetric R → Transitive R → R u u' → R v v' →
  join_rel R u v x y ↔ join_rel R u' v' x y.
Proof.
  intros Hs Ht Hu Hv.
  split; apply join_rel_mono; try done; intros z Hz; (etrans; [|exact Hz]) || (etrans; [exact Hz|]);
    first [done|by symmetry].
Qed.

Lemma join_rel_comm (R : nat → nat → Prop) u v x y : join_rel R u v x y ↔ join_rel R v u x y.
Proof. unfold join_rel. tauto. Qed.

(** A merge of related nodes changes nothing. *)
Lemma join_rel_related (R : nat → nat → Prop) u v x y :
  Symmetric R → Transitive R → R u v → join_rel R u v x y ↔ R x y.
Proof.
  intros Hs Ht Huv. unfold join_rel.
  assert (∀ a b c, R a b → R b c → R a c) as HT by exact Ht.
  assert (∀ a b, R a b → R b a) as HS by exact Hs.
  split; [intros [?|[[? ?]|[? ?]]]; eauto 10|auto].
Qed.

(** What a call of [merge] promises, in both classes: it succeeds, reports
    whether the arguments were apart, and joins their sets. *)
Definition merge_promise (d : DSU) (u v : nat) (res : outcome (DSUMergeRet * DSU)) : Prop :=
  ∃ m d', res = Ok (m, d') ∧ dsu_wf d' ∧ dsu_n d' = dsu_n d ∧ priority d' = priority d ∧
    (merged m = true ↔ ¬ dsu_rel d u v) ∧
    (merged m = true → parent d' !! ret_child m = Some (ret_root m) ∧
                       parent d' !! ret_root m = Some (ret_root m) ∧
                       above (priority d) (ret_root m) (ret_child m)) ∧
    ∀ x y, x < dsu_n d → y < dsu_n d →
      dsu_rel d' x y ↔ join_rel (dsu_rel d) u v x y.

(** The common tail: both roots are known, they differ, and the lower one is
    linked below the higher one. *)
Lemma link_promise d d0 u v a b :
  dsu_wf d0 → dsu_wf d → dsu_n d = dsu_n d0 → priority d = priority d0 →
  (∀ x w, root_of (parent d0) x w ↔ root_of (parent d) x w) →
  root_of (parent d0) u a → root_of (parent d0) v b → a ≠ b →
  let '(hi, lo) := if decide (above (priority d) a b) then (a, b) else (b, a) in
  lo < length (parent d) ∧ parent d !! lo = Some lo ∧
  merge_promise d0 u v (Ok (mkMergeRet true hi lo, set_parent d (<[lo := hi]> (parent d)))).
Proof.
  intros Hwf0 Hwf Hn Hp Heq Hu Hv Hne.
  assert (¬ dsu_rel d0 u v) as Hapart.
  { unfold dsu_rel. by rewrite (same_set_roots _ _ _ _ _ Hu Hv). }
  assert (parent d !! a = Some a) as Ha by (eapply root_of_root, Heq, Hu).
  assert (parent d !! b = Some b) as Hb by (eapply root_of_root, Heq, Hv).
  assert (∀ hi lo, above (priority d) hi lo → parent d !! hi = Some hi →
    parent d !! lo = Some lo →
    (∀ x y, join_rel (dsu_rel d0) hi lo x y ↔ join_rel (dsu_rel d0) u v x y) →
    lo < length (parent d) ∧ parent d !! lo = Some lo ∧
    merge_promise d0 u v (Ok (mkMergeRet true hi lo, set_parent d (<[lo := hi]> (parent d))))) as Hgo.
  { intros hi lo Hab Hhi Hlo Hj. split; [by eapply lookup_lt_Some|]. split; [done|].
    assert (hi ≠ lo) by (intros ->; by eapply above_irrefl).
    eexists _, _. split; [done|]. simpl. split; [by eapply link_wf|].
    split; [done|]. split; [done|]. split; [done|]. split.
    - intros _. rewrite list_lookup_insert_eq by by eapply lookup_lt_Some.
      rewrite list_lookup_insert_ne by done. by rewrite <- Hp.
    - intros x y Hx Hy. rewrite <- Hj. unfold dsu_rel. simpl.
      rewrite (link_same_set (dsu_n d) (priority d)) by (done || lia).
      unfold join_rel. by rewrite !(same_set_ext _ _ Heq). }
  assert (∀ x y, join_rel (dsu_rel d0) a b x y ↔ join_rel (dsu_rel d0) u v x y) as Hj.
  { intros x y. apply join_rel_ext; [apply _..| |]; symmetry; by apply same_set_root. }
  case_decide as Hab.
  - by apply Hgo.
  - apply Hgo; [by destruct (above_total (priority d) a b Hne)|done..|].
    intros x y. by rewrite join_rel_comm, Hj.
Qed.

Lemma same_promise d d0 u v a :
  dsu_wf d → dsu_n d = dsu_n d0 → priority d = priority d0 →
  (∀ x w, root_of (parent d0) x w ↔ root_of (parent d) x w) →
  root_of (parent d0) u a → root_of (parent d0) v a →
  merge_promise d0 u v (Ok (mkMergeRet false 0 0, d)).
Proof.
  intros Hwf Hn Hp Heq Hu Hv. eexists _, _. split; [done|]. simpl.
  assert (dsu_rel d0 u v) as Huv by by exists a.
  split_and!; try done.
  intros x y _ _. rewrite join_rel_related by (apply _ || done).
  symmetry. by apply same_set_ext.
Qed.

Lemma find_roots_spec d u v :
  dsu_wf d → u < dsu_n d → v < dsu_n d →
  ∃ a b d1 d2, find_root d u = Ok (a, d1) ∧ find_root d1 v = Ok (b, d2) ∧
    root_of (parent d) u a ∧ root_of (parent d) v b ∧
    dsu_wf d2 ∧ dsu_n d2 = dsu_n d ∧ priority d2 = priority d ∧
    ∀ x w, root_of (parent d) x w ↔ root_of (parent d2) x w.
Proof.
  intros Hwf Hu Hv.
  destruct (find_root_spec d u Hwf Hu) as (a & d1 & H1 & Ha & Hwf1 & Hn1 & Hp1 & He1).
  destruct (find_root_spec d1 v Hwf1 ltac:(lia)) as (b & d2 & H2 & Hb & Hwf2 & Hn2 & Hp2 & He2).
  exists a, b, d1, d2. split_and!; try done; try congruence.
  - by apply He1.
  - intros x w. by rewrite He1.
Qed.

Lemma DisjointSetUnion_merge_ok d u v :
  dsu_wf d → u < dsu_n d → v < dsu_n d →
  merge_promise d u v (DisjointSetUnion.merge d u v).
Proof.
  intros Hwf Hu Hv. unfold DisjointSetUnion.merge.
  destruct (find_roots_spec d u v Hwf Hu Hv)
    as (a & b & d1 & d2 & -> & H2 & Ha & Hb & Hwf2 & Hn2 & Hp2 & He2).
  simpl. rewrite H2. simpl. case_decide as Hab.
  - subst b. by eapply same_promise.
  - pose proof (link_promise d2 d u v a b Hwf Hwf2 Hn2 Hp2 He2 Ha Hb Hab) as Hl.
    rewrite order_edge_spec; [|done| | |done].
    2,3: rewrite Hn2; by eapply root_of_lt.
    destruct (decide (above (priority d2) a b)); simpl; destruct Hl as (Hlt & _ & Hl);
      by rewrite arr_set_Ok.
Qed.

(** Spurious failures of the weak exchange only repeat the search. *)
Lemma DisjointSetUnion_MT_merge_ok spurious d u v :
  dsu_wf d → u < dsu_n d → v < dsu_n d →
  merge_promise d u v (DisjointSetUnion_MT.merge spurious d u v).
Proof.
  intros Hwf Hu Hv. unfold DisjointSetUnion_MT.merge.
  assert (∀ fuel sp d0 u0 v0, length sp < fuel → dsu_wf d0 → dsu_n d0 = dsu_n d →
    priority d0 = priority d → (∀ x w, root_of (parent d) x w ↔ root_of (parent d0) x w) →
    u0 < dsu_n d → v0 < dsu_n d →
    (∀ x y, join_rel (dsu_rel d) u0 v0 x y ↔ join_rel (dsu_rel d) u v x y) →
    (dsu_rel d u0 v0 ↔ dsu_rel d u v) →
    merge_promise d u v (DisjointSetUnion_MT.merge_loop fuel sp d0 u0 v0)) as Hgen.
  2: { apply Hgen; try done. lia. }
  clear spurious. induction fuel as [|fuel IH]; [lia|].
  intros sp d0 u0 v0 Hsp Hwf0 Hn0 Hp0 He0 Hu0 Hv0 Hj Hrel. simpl.
  destruct (find_roots_spec d0 u0 v0 Hwf0 ltac:(lia) ltac:(lia))
    as (a & b & d1 & d2 & -> & H2 & Ha & Hb & Hwf2 & Hn2 & Hp2 & He2).
  simpl. rewrite H2. simpl.
  apply He0 in Ha, Hb.
  assert (∀ x w, root_of (parent d) x w ↔ root_of (parent d2) x w) as He
    by (intros; by rewrite He0).
  assert (∀ res, merge_promise d u0 v0 res → merge_promise d u v res) as Hconv.
  { intros res (m & d' & -> & ? & ? & ? & Hm & ? & Hr). exists m, d'.
    split_and!; try done; [by rewrite <- Hrel|]. intros x y Hx Hy. by rewrite <- Hj, Hr. }
  case_decide as Hab.
  - subst b. apply Hconv. eapply same_promise; try done; congruence.
  - pose proof (link_promise d2 d u0 v0 a b Hwf Hwf2 ltac:(congruence) ltac:(congruence)
      He Ha Hb Hab) as Hl.
    pose proof (root_of_lt _ _ _ _ _ Hwf Ha) as [_ Han].
    pose proof (root_of_lt _ _ _ _ _ Hwf Hb) as [_ Hbn].
    rewrite order_edge_spec; [|done|lia|lia|done].
    assert (∀ hi lo, (hi = a ∧ lo = b) ∨ (hi = b ∧ lo = a) → 
      (∀ x y, join_rel (dsu_rel d) hi lo x y ↔ join_rel (dsu_rel d) u v x y) ∧
      (dsu_rel d hi lo ↔ dsu_rel d u v)) as Hback.
    { intros hi lo Hhl.
      assert (∀ x y, join_rel (dsu_rel d) a b x y ↔ join_rel (dsu_rel d) u v x y) as Hja.
      { intros x y. rewrite <- Hj. apply join_rel_ext; [apply _..| |];
          symmetry; by apply same_set_root. }
      assert (dsu_rel d a b ↔ dsu_rel d u v) as Hra.
      { rewrite <- Hrel. apply same_set_root in Ha, Hb. unfold dsu_rel. split; intros Hd.
        - etrans; [exact Ha|]. etrans; [exact Hd|]. by symmetry.
        - etrans; [symmetry; exact Ha|]. by etrans. }
      destruct Hhl as [[-> ->]|[-> ->]]; [done|]. split.
      - intros x y. by rewrite join_rel_comm.
      - rewrite <- Hra. split; apply same_set_sym. }
    destruct (decide (above (priority d2) a b)); simpl; destruct Hl as (Hlt & Hroot & Hl);
      rewrite (arr_get_Ok _ _ _ Hroot); simpl; case_decide as Hcas.
    + rewrite arr_set_Ok by done. by apply Hconv.
    + apply IH; try done; try congruence; [|by apply Hback; auto..].
      destruct sp; [by destruct Hcas|simpl in *; lia].
    + rewrite arr_set_Ok by done. by apply Hconv.
    + apply IH; try done; try congruence; [|by apply Hback; auto..].
      destruct sp; [by destruct Hcas|simpl in *; lia].
Qed.

Lemma new_dsu_wf n prio : length prio = n → dsu_wf (new_dsu n prio).
Proof.
  intros Hp. constructor; simpl; [by rewrite length_seq|done|..].
  - intros u v Huv. apply lookup_seq in Huv. lia.
  - intros u v Huv. apply lookup_seq in Huv. lia.
Qed.

Lemma reset_wf d : dsu_wf d → dsu_wf (reset d).
Proof. intros Hwf. apply (new_dsu_wf (dsu_n d) (priority d)). by apply Hwf. Qed.

Lemma reset_rel d x y : dsu_rel (reset d) x y ↔ x = y ∧ x < dsu_n d.
Proof.
  unfold dsu_rel, reset. simpl. split.
  - assert (∀ u r, root_of (seq 0 (dsu_n d)) u r → u = r ∧ u < dsu_n d) as Hid.
    { intros u r Hr. induction Hr as [r Hr|u v r Hu Hne Hv IH];
        [apply lookup_seq in Hr; lia|apply lookup_seq in Hu; lia]. }
    intros (r & Hx%Hid & Hy%Hid). lia.
  - intros [-> Hx]. exists y. split; constructor; apply lookup_seq; lia.
Qed.

(** ** Sequences of merges *)

(** The equivalence closure of a list of pairs. *)
Definition linked (l : list (nat * nat)) (x y : nat) : Prop := (x, y) ∈ l ∨ (y, x) ∈ l.

Lemma linked_sym l : Symmetric (rtc (linked l)).
Proof.
  intros x y Hxy. induction Hxy as [|x z y Hxz _ IH]; [constructor|].
  etrans; [exact IH|]. apply rtc_once. destruct Hxz; [by right|by left].
Qed.

Lemma linked_snoc l u v x y :
  rtc (linked (l ++ [(u, v)])) x y ↔ join_rel (rtc (linked l)) u v x y.
Proof.
  assert (∀ a b, linked (l ++ [(u, v)]) a b ↔
    linked l a b ∨ (a = u ∧ b = v) ∨ (a = v ∧ b = u)) as Hstep.
  { intros a b. unfold linked. rewrite !elem_of_app, !list_elem_of_singleton. naive_solver. }
  assert (∀ a b, rtc (linked l) a b → rtc (linked (l ++ [(u, v)])) a b) as Hmono.
  { intros a b. apply rtc_subrel. intros c d Hcd. apply Hstep. by left. }
  assert (rtc (linked (l ++ [(u, v)])) u v) as Huv by (apply rtc_once, Hstep; auto).
  split.
  - induction 1 as [|x z y Hxz _ IH]; [left; constructor|]. apply Hstep in Hxz. unfold join_rel in *.
    destruct Hxz as [Hxz|[[-> ->]|[-> ->]]].
    + apply rtc_once in Hxz.
      destruct IH as [?|[[? ?]|[? ?]]]; [left|right; left|right; right];
        try split; try done; by etrans.
    + destruct IH as [?|[[? ?]|[? ?]]]; [right; left|right; left|left]; try split; done || constructor.
    + destruct IH as [?|[[? ?]|[? ?]]]; [right; right|left|right; right]; try split; done || constructor.
  - intros [?|[[? ?]|[? ?]]]; [by apply Hmono| |].
    + etrans; [by apply Hmono|]. etrans; [exact Huv|by apply Hmono].
    + etrans; [by apply Hmono|]. etrans; [by apply linked_sym|by apply Hmono].
Qed.

(** A run of [DisjointSetUnion_MT::merge] over [l]; every entry carries the
    spurious failures of its exchange. *)
Definition merge_all : DSU → list (list bool * (nat * nat)) → outcome DSU :=
  outcome_fold (λ d x, md ← DisjointSetUnion_MT.merge x.1 d x.2.1 x.2.2; Ok md.2).

Lemma merge_all_ok n prio l :
  length prio = n → Forall (λ x, x.2.1 < n ∧ x.2.2 < n) l →
  ∃ d, merge_all (new_dsu n prio) l = Ok d ∧ dsu_wf d ∧ dsu_n d = n ∧ priority d = prio ∧
    ∀ x y, x < n → y < n → dsu_rel d x y ↔ rtc (linked l.*2) x y.
Proof.
  intros Hp. induction l as [|[sp [u v]] l IH] using rev_ind; intros Hl.
  - exists (new_dsu n prio). split; [done|]. split; [by apply new_dsu_wf|]. split_and!; [done..|].
    intros x y Hx Hy. rewrite (reset_rel (new_dsu n prio) x y). simpl. split.
    + intros [-> _]. constructor.
    + destruct 1 as [|? ? ? [?|?]]; [done|set_solver..].
  - apply Forall_app in Hl as [Hl Huv]. inversion Huv as [|? ? [Hu Hv] _]; subst. simpl in *.
    destruct (IH Hl) as (d & Hrun & Hwf & Hn & Hpr & Hrel). unfold merge_all in *.
    rewrite outcome_fold_app, Hrun. simpl.
    destruct (DisjointSetUnion_MT_merge_ok sp d u v Hwf) as (m & d' & -> & Hwf' & Hn' & Hp' & _ & _ & Hr);
      [lia..|]. simpl. exists d'. split_and!; [done..|lia|congruence|].
    intros x y Hx Hy. rewrite Hr by lia. rewrite fmap_app. simpl. rewrite linked_snoc.
    unfold join_rel. by rewrite !Hrel by lia.
Qed.

(** ** Properties *)

(** A union-find built by any sequence of merges, whatever the random
    priorities and however often the weak exchanges fail spuriously, relates two
    nodes exactly when the merged pairs connect them; another merge reports
    [merged] exactly when its arguments were not yet connected, and [find_root]
    then gives two nodes the same root exactly when they are. *)
Theorem merges_build_equivalence n prio l sp u v :
  length prio = n → Forall (λ x, x.2.1 < n ∧ x.2.2 < n) l → u < n → v < n →
  ∃ d, merge_all (new_dsu n prio) l = Ok d ∧
    (∀ x y, x < n → y < n → dsu_rel d x y ↔ rtc (linked l.*2) x y) ∧
    (∃ m d', DisjointSetUnion_MT.merge sp d u v = Ok (m, d') ∧
      (merged m = true ↔ ¬ rtc (linked l.*2) u v)) ∧
    (∃ ru rv d1 d2, find_root d u = Ok (ru, d1) ∧ find_root d1 v = Ok (rv, d2) ∧
      (ru = rv ↔ rtc (linked l.*2) u v)).
Proof.
  intros Hp Hl Hu Hv. destruct (merge_all_ok n prio l Hp Hl) as (d & Hrun & Hwf & Hn & Hpr & Hrel).
  exists d. split; [done|]. split; [done|]. split.
  - destruct (DisjointSetUnion_MT_merge_ok sp d u v Hwf) as (m & d' & Hm & _ & _ & _ & Hmerged & _);
      [lia..|]. exists m, d'. split; [done|]. rewrite Hmerged, Hrel by done. done.
  - destruct (find_roots_spec d u v Hwf) as (a & b & d1 & d2 & H1 & H2 & Ha & Hb & _); [lia..|].
    exists a, b, d1, d2. split_and!; [done..|]. rewrite <- Hrel by done.
    symmetry. by apply same_set_roots.
Qed.

Lemma merges_build_equivalence_witness :
  ∃ d, merge_all (new_dsu 4 [3; 1; 2; 2]%N) [([true], (0, 1)); ([], (3, 2))] = Ok d ∧
    ∃ m d', DisjointSetUnion_MT.merge [true] d 1 3 = Ok (m, d') ∧
      (merged m = true ↔ ¬ rtc (linked [(0, 1); (3, 2)]) 1 3).
Proof.
  destruct (merges_build_equivalence 4 [3; 1; 2; 2]%N [([true], (0, 1)); ([], (3, 2))] [true] 1 3)
    as (d & H1 & _ & H2 & _); [reflexivity|repeat constructor; simpl; lia|lia|lia|].
  exists d. exact (conj H1 H2).
Defined.

(** A merge keeps the parent array a forest in which every link goes to a node
    of higher priority (the smaller id on a tie), in both classes; it returns the
    root and the child it linked. *)
Theorem merge_keeps_priority_forest d u v sp :
  dsu_wf d → u < dsu_n d → v < dsu_n d →
  ∀ res, res ∈ [DisjointSetUnion.merge d u v; DisjointSetUnion_MT.merge sp d u v] →
  ∃ m d', res = Ok (m, d') ∧ dsu_wf d' ∧ dsu_n d' = dsu_n d ∧
    (merged m = true → parent d' !! ret_child m = Some (ret_root m) ∧
                       parent d' !! ret_root m = Some (ret_root m) ∧
                       above (priority d) (ret_root m) (ret_child m)) ∧
    (merged m = false → ∀ x y, x < dsu_n d → y < dsu_n d → dsu_rel d' x y ↔ dsu_rel d x y).
Proof.
  intros Hwf Hu Hv res Hres.
  assert (merge_promise d u v res) as (m & d' & -> & Hwf' & Hn & _ & Hm & Hl & Hr).
  { rewrite !elem_of_cons in Hres. destruct Hres as [->|[->|?%not_elem_of_nil]]; [| |done].
    - by apply DisjointSetUnion_merge_ok.
    - by apply DisjointSetUnion_MT_merge_ok. }
  exists m, d'. split_and!; [done..|]. intros Hf x y Hx Hy. rewrite Hr by done.
  apply join_rel_related; [apply _..|]. destruct (root_of_ex _ _ _ u Hwf Hu) as [ru Hru].
  destruct (root_of_ex _ _ _ v Hwf Hv) as [rv Hrv]. unfold dsu_rel.
  rewrite (same_set_roots _ _ _ _ _ Hru Hrv). destruct (decide (ru = rv)) as [|Hne]; [done|].
  exfalso. rewrite (proj2 Hm) in Hf; [done|]. unfold dsu_rel. by rewrite (same_set_roots _ _ _ _ _ Hru Hrv).
Qed.

Lemma merge_keeps_priority_forest_witness :
  ∃ m d', DisjointSetUnion.merge (new_dsu 3 [1; 1; 5]%N) 0 2 = Ok (m, d') ∧ dsu_wf d'.
Proof.
  destruct (merge_keeps_priority_forest (new_dsu 3 [1; 1; 5]%N) 0 2 []
    (new_dsu_wf 3 [1; 1; 5]%N eq_refl) ltac:(simpl; lia) ltac:(simpl; lia)
    (DisjointSetUnion.merge (new_dsu 3 [1; 1; 5]%N) 0 2)) as (m & d' & H1 & H2 & _).
  - left.
  - exists m, d'. exact (conj H1 H2).
Defined.
