(* ===== verification/Graph.v ===== *)
(** * Graphs as sets of edge indices

    The abstract state the algorithms refine: an undirected graph on [n] nodes
    is the finite set of the vector indices of its edges. The file proves the
    two facts the sketching algorithm rests on: the exclusive-or of the incident
    edge sets of a set of nodes is the set of edges that leave it, and adding
    an edge joins exactly two connected components. *)

From Stdlib Require Import NArith Lia.
From stdpp Require Import base list gmap numbers relations.
From S2P Require Import Prelude Util Dsu.

(** ** Edges *)

Section graph.
Context (n : nat).
Implicit Types (E F : gset N) (u v x y : nat).

(** [e] is the index of an edge between two different nodes of the graph. *)
Definition is_edge (e : N) : Prop :=
  ∃ u v, u < n ∧ v < n ∧ u ≠ v ∧ e = concat_pairing_fn u v.

Definition graph_ok E : Prop := ∀ e, e ∈ E → is_edge e.

Definition has_end (v : nat) (e : N) : bool :=
  let ed := inv_concat_pairing_fn e in bool_decide (src ed = v) || bool_decide (dst ed = v).

Definition incident E v : gset N := filter (λ e, has_end v e = true) E.

(** Whether exactly one endpoint lies in the list [S]. *)
Definition crosses (S : list nat) (e : N) : bool :=
  let ed := inv_concat_pairing_fn e in
  xorb (bool_decide (src ed ∈ S)) (bool_decide (dst ed ∈ S)).

Definition cut E (S : list nat) : gset N := filter (λ e, crosses S e = true) E.

Definition adj E u v : Prop := u < n ∧ v < n ∧ u ≠ v ∧ concat_pairing_fn u v ∈ E.

Definition conn E : nat → nat → Prop := rtc (adj E).

(** A forest: every edge was added between two different trees. *)
Inductive forest : gset N → Prop :=
  | forest_empty : forest ∅
  | forest_add F u v :
      forest F → u < n → v < n → u ≠ v → ¬ conn F u v →
      forest ({[concat_pairing_fn u v]} ∪ F).

Hypothesis n_ok : (N.of_nat n ≤ 2 ^ 32)%N.

Lemma node_ok_lt u : u < n → node_ok u.
Proof. unfold node_ok. lia. Qed.

Lemma concat_inv u v :
  u < n → v < n → inv_concat_pairing_fn (concat_pairing_fn u v) = mkEdge (u `min` v) (u `max` v).
Proof. intros. apply inv_concat_pairing_fn_concat; by apply node_ok_lt. Qed.

Lemma has_end_concat u v x :
  u < n → v < n → has_end x (concat_pairing_fn u v) = bool_decide (x = u ∨ x = v).
Proof.
  intros Hu Hv. unfold has_end. rewrite concat_inv by done. simpl.
  rewrite <- bool_decide_or. apply bool_decide_ext. lia.
Qed.

Lemma elem_of_incident E v e : e ∈ incident E v ↔ has_end v e = true ∧ e ∈ E.
Proof. unfold incident. by rewrite elem_of_filter. Qed.

Lemma elem_of_cut E S e : e ∈ cut E S ↔ crosses S e = true ∧ e ∈ E.
Proof. unfold cut. by rewrite elem_of_filter. Qed.

(** *** The exclusive-or of incident edges is the cut *)

Lemma crosses_nil e : crosses [] e = false.
Proof. unfold crosses. rewrite !bool_decide_false by set_solver. done. Qed.

Lemma is_edge_ends e :
  is_edge e → ∃ u v, u < v ∧ v < n ∧ inv_concat_pairing_fn e = mkEdge u v ∧
                     e = concat_pairing_fn u v.
Proof.
  intros (u & v & Hu & Hv & Hne & ->).
  exists (u `min` v), (u `max` v). split_and!; [lia|lia|by apply concat_inv|].
  destruct (decide (u < v)).
  - by rewrite Nat.min_l, Nat.max_r by lia.
  - rewrite Nat.min_r, Nat.max_l by lia. apply concat_pairing_fn_comm.
Qed.

Lemma crosses_cons v S e :
  is_edge e → v ∉ S → crosses (v :: S) e = xorb (has_end v e) (crosses S e).
Proof.
  intros He HvS. destruct (is_edge_ends e He) as (a & b & Hab & _ & Hinv & _).
  unfold crosses, has_end. rewrite Hinv. simpl.
  destruct (decide (a = v)) as [->|Ha].
  - rewrite (bool_decide_true (v ∈ v :: S)), (bool_decide_false (v ∈ S)) by set_solver.
    rewrite (bool_decide_true (v = v)) by done.
    rewrite (bool_decide_ext (b ∈ v :: S) (b ∈ S)); [by destruct (bool_decide (b ∈ S))|].
    rewrite elem_of_cons. split; [intros [?|?]; [lia|done]|auto].
  - rewrite (bool_decide_false (a = v)) by done. simpl.
    rewrite (bool_decide_ext (a ∈ v :: S) (a ∈ S))
      by (rewrite elem_of_cons; split; [intros [?|?]; [congruence|done]|auto]).
    destruct (decide (b = v)) as [->|Hb].
    + rewrite (bool_decide_true (v ∈ v :: S)), (bool_decide_false (v ∈ S)) by set_solver.
      rewrite (bool_decide_true (v = v)) by done. by destruct (bool_decide (a ∈ S)).
    + rewrite (bool_decide_false (b = v)) by done. simpl.
      rewrite (bool_decide_ext (b ∈ v :: S) (b ∈ S))
        by (rewrite elem_of_cons; split; [intros [?|?]; [congruence|done]|auto]).
      by destruct (bool_decide (a ∈ S)), (bool_decide (b ∈ S)).
Qed.

Lemma cut_nil E : cut E [] = ∅.
Proof.
  apply set_eq. intros e. rewrite elem_of_cut, crosses_nil. set_solver.
Qed.

Lemma cut_cons E v S :
  graph_ok E → v ∉ S → cut E (v :: S) = symdiff (incident E v) (cut E S).
Proof.
  intros HE HvS. apply set_eq. intros e.
  rewrite elem_of_symdiff, elem_of_incident, !elem_of_cut. split.
  - intros [Hc He]. rewrite crosses_cons in Hc by auto.
    destruct (has_end v e), (crosses S e); simpl in Hc; naive_solver.
  - intros [[[Hh He] Hn]|[[Hc He] Hn]]; (split; [|done]); rewrite crosses_cons by auto;
      destruct (has_end v e), (crosses S e); simpl; try done; naive_solver.
Qed.

(** The exclusive-or over the nodes of [S] of their incident edges is the set
    of edges with one endpoint in [S]. *)
Lemma symdiff_incident_cut E (S : list nat) :
  graph_ok E → NoDup S → symdiff_all (incident E <$> S) = cut E S.
Proof.
  intros HE Hnd. induction Hnd as [|v S HvS Hnd IH]; [by rewrite cut_nil|].
  rewrite cut_cons by done. by rewrite <- IH.
Qed.

Lemma cut_perm E S S' : S ≡ₚ S' → cut E S = cut E S'.
Proof.
  intros Hp. apply set_eq. intros e. rewrite !elem_of_cut. unfold crosses.
  rewrite (bool_decide_ext (src (inv_concat_pairing_fn e) ∈ S)
             (src (inv_concat_pairing_fn e) ∈ S')) by by rewrite Hp.
  by rewrite (bool_decide_ext (dst (inv_concat_pairing_fn e) ∈ S)
             (dst (inv_concat_pairing_fn e) ∈ S')) by by rewrite Hp.
Qed.

Lemma incident_toggle E x u v :
  u < n → v < n →
  incident (toggle (concat_pairing_fn u v) E) x =
    if decide (x = u ∨ x = v) then toggle (concat_pairing_fn u v) (incident E x)
    else incident E x.
Proof.
  intros Hu Hv. apply set_eq. intros e. rewrite elem_of_incident, elem_of_toggle.
  case_decide as Hx.
  - rewrite elem_of_toggle, elem_of_incident. split.
    + intros [Hh [[-> ?]|[? ?]]]; [left|right]; naive_solver.
    + intros [[-> Hn]|[? [? ?]]]; [|naive_solver].
      rewrite has_end_concat, bool_decide_true in * by done. split; [done|]. left. naive_solver.
  - rewrite elem_of_incident. split.
    + intros [Hh [[-> ?]|[? ?]]]; [|done].
      by rewrite has_end_concat, bool_decide_false in Hh by done.
    + intros [Hh He]. split; [done|]. right. split; [|done]. intros ->.
      by rewrite has_end_concat, bool_decide_false in Hh by done.
Qed.

Lemma graph_ok_toggle E u v :
  graph_ok E → u < n → v < n → u ≠ v → graph_ok (toggle (concat_pairing_fn u v) E).
Proof.
  intros HE Hu Hv Hne e [[-> _]|[_ He]]%elem_of_toggle; [|by apply HE].
  by exists u, v.
Qed.

(** *** Connectivity *)

Lemma adj_sym E : Symmetric (adj E).
Proof.
  intros u v (Hu & Hv & Hne & He). split_and!; try done.
  by rewrite concat_pairing_fn_comm.
Qed.

#[local] Instance adj_sym_inst E : Symmetric (adj E) := adj_sym E.

Lemma conn_sym E : Symmetric (conn E).
Proof. unfold conn. apply _. Qed.

Lemma conn_trans E : Transitive (conn E).
Proof. unfold conn. apply _. Qed.

#[local] Instance conn_sym_inst E : Symmetric (conn E) := conn_sym E.
#[local] Instance conn_trans_inst E : Transitive (conn E) := conn_trans E.

Lemma conn_refl E x : conn E x x.
Proof. constructor. Qed.

Lemma conn_mono E F x y : E ⊆ F → conn E x y → conn F x y.
Proof.
  intros HEF Hxy. induction Hxy as [|x z y Hxz Hzy IH]; [constructor|].
  eapply rtc_l; [|done]. destruct Hxz as (? & ? & ? & ?). split_and!; try done. set_solver.
Qed.

Lemma conn_lt E x y : conn E x y → x = y ∨ (x < n ∧ y < n).
Proof.
  induction 1 as [x|x z y (Hx & Hz & _) _ IH]; [by left|]. right. lia.
Qed.

(** If every edge of [E] is connected in [F], so is every pair connected in [E]. *)
Lemma conn_sub E F x y :
  (∀ u v, adj E u v → conn F u v) → conn E x y → conn F x y.
Proof.
  intros HEF. induction 1 as [|x z y Hxz Hzy IH]; [constructor|].
  etrans; [by apply HEF|done].
Qed.

Lemma adj_insert E u v x y :
  u < n → v < n →
  adj ({[concat_pairing_fn u v]} ∪ E) x y →
  adj E x y ∨ (x = u ∧ y = v) ∨ (x = v ∧ y = u).
Proof.
  intros Hu Hv (Hx & Hy & Hne & He). apply elem_of_union in He as [He|He].
  - right. apply elem_of_singleton in He.
    apply concat_pairing_fn_inj in He; [done|by apply node_ok_lt..].
  - left. by split_and!.
Qed.

(** Adding an edge joins the components of its endpoints, and no others. *)
Lemma conn_insert E u v x y :
  u < n → v < n → u ≠ v →
  conn ({[concat_pairing_fn u v]} ∪ E) x y ↔ join_rel (conn E) u v x y.
Proof.
  intros Hu Hv Hne. split.
  - induction 1 as [x|x z y Hxz Hzy IH]; [left; constructor|].
    apply adj_insert in Hxz; [|done..]. unfold join_rel in *.
    destruct Hxz as [Hxz|[[-> ->]|[-> ->]]].
    + assert (conn E x z) as Hc by by apply rtc_once.
      destruct IH as [?|[[? ?]|[? ?]]]; [left|right; left|right; right];
        try split; try done; by etrans.
    + destruct IH as [?|[[? ?]|[? ?]]].
      * right. left. split; [constructor|done].
      * right. left. split; [constructor|]. done.
      * left. done.
    + destruct IH as [?|[[? ?]|[? ?]]].
      * right. right. split; [constructor|done].
      * left. done.
      * right. right. split; [constructor|done].
  - assert (conn ({[concat_pairing_fn u v]} ∪ E) u v) as Huv.
    { apply rtc_once. split_and!; try done. set_solver. }
    assert (∀ a b, conn E a b → conn ({[concat_pairing_fn u v]} ∪ E) a b) as Hm.
    { intros a b. apply conn_mono. set_solver. }
    intros [?|[[? ?]|[? ?]]].
    + by apply Hm.
    + etrans; [by apply Hm|]. etrans; [exact Huv|]. by apply Hm.
    + etrans; [by apply Hm|]. etrans; [symmetry; exact Huv|]. by apply Hm.
Qed.

(** A set of nodes that no edge leaves is closed under connectivity. *)
Lemma cut_empty_closed E S x y :
  graph_ok E → cut E S = ∅ → x ∈ S → conn E x y → y ∈ S.
Proof.
  intros HE Hcut Hx Hxy. induction Hxy as [|x z y (Hxn & Hzn & Hne & He) Hzy IH]; [done|].
  apply IH. destruct (decide (z ∈ S)) as [|Hz]; [done|]. exfalso.
  assert (concat_pairing_fn x z ∈ cut E S); [|set_solver].
  apply elem_of_cut. split; [|done]. unfold crosses. rewrite concat_inv by done. simpl.
  destruct (decide (x < z)).
  - rewrite Nat.min_l, Nat.max_r by lia.
    by rewrite bool_decide_true, bool_decide_false.
  - rewrite Nat.min_r, Nat.max_l by lia.
    by rewrite bool_decide_false, bool_decide_true.
Qed.

(** An edge of the cut of [S] has one endpoint in [S] and one outside. *)
Lemma cut_edge_ends E S e :
  graph_ok E → e ∈ cut E S →
  let ed := inv_concat_pairing_fn e in
  src ed < n ∧ dst ed < n ∧ adj E (src ed) (dst ed) ∧
  concat_pairing_fn (src ed) (dst ed) = e ∧
  ((src ed ∈ S ∧ (dst ed ∉ S)) ∨ ((src ed ∉ S) ∧ dst ed ∈ S)).
Proof.
  intros HE [Hc He]%elem_of_cut.
  destruct (is_edge_ends e (HE e He)) as (u & v & Huv & Hv & Hinv & ->).
  unfold crosses in Hc. rewrite Hinv in *. simpl in *.
  split_and!; try lia; try done.
  - split_and!; try lia; done.
  - destruct (decide (u ∈ S)), (decide (v ∈ S));
      rewrite ?bool_decide_true, ?bool_decide_false in Hc by done; naive_solver.
Qed.
End graph.

(** ** Updates per node

    An update of an edge reaches the sketches as two pairs of a node and its
    neighbour. [node_indices app v] are the indices that the pairs [app] toggle at
    node [v]. *)
Definition node_indices (app : list (nat * nat)) (v : nat) : list N :=
  (λ p, concat_pairing_fn p.1 p.2) <$> filter (λ p, p.1 = v) app.

Definition node_content (app : list (nat * nat)) (v : nat) : gset N :=
  toggle_all (node_indices app v) ∅.

Lemma node_content_perm app app' v : app ≡ₚ app' → node_content app v = node_content app' v.
Proof. intros Hp. apply toggle_all_perm. unfold node_indices. by rewrite Hp. Qed.

Lemma node_indices_app app app' v :
  node_indices (app ++ app') v = node_indices app v ++ node_indices app' v.
Proof. unfold node_indices. by rewrite list.filter_app, fmap_app. Qed.

Definition both_ways (e : Edge) : list (nat * nat) := [(src e, dst e); (dst e, src e)].

Definition edge_index (e : Edge) : N := concat_pairing_fn (src e) (dst e).

Section both_ways.
Context (n : nat) (n_ok : (N.of_nat n ≤ 2 ^ 32)%N).

(** Pairs in both directions toggle exactly the incident edges of every node. *)
Lemma toggle_both_ways (es : list Edge) E v :
  Forall (λ e, src e < n ∧ dst e < n ∧ src e ≠ dst e) es →
  toggle_all (node_indices (concat (both_ways <$> es)) v) (incident E v) =
    incident (toggle_all (edge_index <$> es) E) v.
Proof.
  revert E. induction es as [|[u w] es IH]; intros E Hall; [done|].
  apply list.Forall_cons in Hall as ((Hu & Hw & Hne) & Hall). simpl in Hu, Hw, Hne.
  rewrite !fmap_cons, concat_cons, node_indices_app, toggle_all_app.
  change (toggle_all (edge_index (mkEdge u w) :: (edge_index <$> es)) E)
    with (toggle_all (edge_index <$> es) (toggle (concat_pairing_fn u w) E)).
  rewrite <- IH by done. f_equal. rewrite (incident_toggle n n_ok) by done.
  unfold node_indices, both_ways. cbn [src dst]. destruct (decide (u = v)) as [->|Huv].
  - rewrite filter_cons_True, filter_cons_False by (simpl; congruence). simpl.
    by rewrite decide_True by auto.
  - rewrite filter_cons_False by (simpl; congruence). destruct (decide (w = v)) as [->|Hwv].
    + rewrite filter_cons_True by done. simpl. rewrite decide_True by auto.
      by rewrite concat_pairing_fn_comm.
    + rewrite filter_cons_False by (simpl; congruence). simpl. by rewrite decide_False by naive_solver.
Qed.
End both_ways.
