(* ===== verification/Configuration.v ===== *)
(** * Configuration objects: src/src/cc_alg_configuration.cpp and
    src/src/driver_configuration.cpp

    The setters check their argument and fall back to a default. *)

From Stdlib Require Import NArith SpecFloat String Lia.
From stdpp Require Import base numbers relations.
From S2P Require Import Prelude Float64.

Record CCAlgConfiguration := mkCCConf {
  _disk_dir : string;
  _sketches_factor : double;
  _batch_factor : double;
}.

Definition d_zero : double := S754_zero false.
Definition d_one : double := of_N 1.

Module CCConf.
Definition default : CCAlgConfiguration := mkCCConf "." d_one d_one.

Definition disk_dir (c : CCAlgConfiguration) (dir : string) : CCAlgConfiguration :=
  mkCCConf dir (_sketches_factor c) (_batch_factor c).

Definition sketches_factor (c : CCAlgConfiguration) (factor : double) : CCAlgConfiguration :=
  mkCCConf (_disk_dir c) (if dleb factor d_zero then d_one else factor) (_batch_factor c).

Definition batch_factor (c : CCAlgConfiguration) (factor : double) : CCAlgConfiguration :=
  mkCCConf (_disk_dir c) (_sketches_factor c) (if dleb factor d_zero then d_one else factor).

Definition positive_factors (c : CCAlgConfiguration) : Prop :=
  dleb (_sketches_factor c) d_zero = false ∧ dleb (_batch_factor c) d_zero = false.

Lemma clamp_positive factor :
  dleb (if dleb factor d_zero then d_one else factor) d_zero = false.
Proof. destruct (dleb factor d_zero) eqn:Hf; [by vm_compute|done]. Qed.
End CCConf.

Inductive GutterSystem := GUTTERTREE | STANDALONE | CACHETREE.

#[global] Instance GutterSystem_eq_dec : EqDecision GutterSystem.
Proof. solve_decision. Defined.

(** The configuration of the guttering system belongs to another repository and
    is kept as an opaque value. *)
Record DriverConfiguration (G : Type) := mkDriverConf {
  _gutter_sys : GutterSystem;
  _driver_disk_dir : string;
  _num_worker_threads : nat;
  _gutter_conf : G;
}.
Arguments mkDriverConf {G}.
Arguments _gutter_sys {G}.
Arguments _driver_disk_dir {G}.
Arguments _num_worker_threads {G}.
Arguments _gutter_conf {G}.

Module DriverConf.
Section conf.
Context {G : Type}.
Implicit Types (c : DriverConfiguration G).

Definition default (g : G) : DriverConfiguration G := mkDriverConf STANDALONE "." 1 g.

Definition gutter_sys c (sys : GutterSystem) : DriverConfiguration G :=
  mkDriverConf sys (_driver_disk_dir c) (_num_worker_threads c) (_gutter_conf c).

Definition disk_dir c (dir : string) : DriverConfiguration G :=
  mkDriverConf (_gutter_sys c) dir (_num_worker_threads c) (_gutter_conf c).

Definition worker_threads c (num_worker_threads : nat) : DriverConfiguration G :=
  mkDriverConf (_gutter_sys c) (_driver_disk_dir c)
    (if decide (num_worker_threads < 1) then 1 else num_worker_threads) (_gutter_conf c).

Definition gutter_conf c (g : G) : DriverConfiguration G :=
  mkDriverConf (_gutter_sys c) (_driver_disk_dir c) (_num_worker_threads c) g.
End conf.
End DriverConf.

(** A configuration built from the default by any sequence of setters. *)
Inductive cc_conf_step : CCAlgConfiguration → CCAlgConfiguration → Prop :=
  | conf_disk c d : cc_conf_step c (CCConf.disk_dir c d)
  | conf_sketches c f : cc_conf_step c (CCConf.sketches_factor c f)
  | conf_batch c f : cc_conf_step c (CCConf.batch_factor c f).

Lemma cc_conf_step_positive c c' :
  cc_conf_step c c' → CCConf.positive_factors c → CCConf.positive_factors c'.
Proof.
  unfold CCConf.positive_factors. destruct 1; intros [? ?]; simpl; auto using CCConf.clamp_positive.
Qed.

(** The same for the driver. *)
Inductive driver_conf_step {G} : DriverConfiguration G → DriverConfiguration G → Prop :=
  | driver_sys c x : driver_conf_step c (DriverConf.gutter_sys c x)
  | driver_disk c d : driver_conf_step c (DriverConf.disk_dir c d)
  | driver_threads c k : driver_conf_step c (DriverConf.worker_threads c k)
  | driver_gutter c g : driver_conf_step c (DriverConf.gutter_conf c g).

Lemma driver_conf_step_threads {G} (c c' : DriverConfiguration G) :
  driver_conf_step c c' → 0 < _num_worker_threads c → 0 < _num_worker_threads c'.
Proof. destruct 1; simpl; [done..| |done]. case_decide; lia. Qed.

(** No sequence of setters, starting from the default configuration, leaves a
    sketch or batch factor that compares at most zero, nor a driver without
    worker threads, whatever values the setters are given. *)
Theorem configurations_stay_usable {G} (g : G) c d :
  rtc cc_conf_step CCConf.default c → rtc driver_conf_step (DriverConf.default g) d →
  CCConf.positive_factors c ∧ 0 < _num_worker_threads d.
Proof.
  intros Hc Hd. split.
  - assert (CCConf.positive_factors CCConf.default) as H0 by by vm_compute.
    induction Hc; eauto using cc_conf_step_positive.
  - assert (0 < _num_worker_threads (DriverConf.default g)) as H0 by (simpl; lia).
    induction Hd; eauto using driver_conf_step_threads.
Qed.

Lemma configurations_stay_usable_witness :
  CCConf.positive_factors (CCConf.batch_factor CCConf.default d_zero) ∧
  0 < _num_worker_threads (DriverConf.worker_threads (DriverConf.default tt) 0).
Proof.
  apply (configurations_stay_usable tt); apply rtc_once; constructor.
Defined.
