(* ===== verification/CCSketchAlg.v ===== *)
(** * The connected components algorithm, stream side:
    src/include/cc_sketch_alg.h and src/src/cc_sketch_alg.cpp

    The state of [CCSketchAlg] and every operation that ingests updates:
    construction, the eager union-find of [pre_insert], batches, raw bucket
    deltas and direct updates. Queries are in [Boruvka]. *)

From Stdlib Require Import NArith Lia.
From stdpp Require Import base list gmap numbers relations.
From S2P Require Import Prelude Float64 Util Bucket Sketch XXHash Concrete SketchSpec Dsu Graph Configuration.

Inductive UpdateType := INSERT | DELETE | BREAKPOINT.

#[global] Instance UpdateType_eq_dec : EqDecision UpdateType.
Proof. solve_decision. Defined.

Record GraphUpdate := mkUpdate { edge : Edge; type : UpdateType }.

Inductive QueryCode := CONNECTIVITY | KSPANNINGFORESTS.

#[global] Instance QueryCode_eq_dec : EqDecision QueryCode.
Proof. solve_decision. Defined.

Record CCSketchAlg := mkCC {
  num_vertices : nat;
  cc_seed : N;
  update_locked : bool;
  representatives : gset nat;
  sketches : list Sketch;
  dsu : DSU;
  dsu_valid : bool;
  shared_dsu_valid : bool;
  spanning_forest : list (gset nat);
  delta_sketches : list Sketch;
  config : CCAlgConfiguration;
  last_query_rounds : nat;
}.

Definition set_locked (c : CCSketchAlg) (b : bool) : CCSketchAlg :=
  mkCC (num_vertices c) (cc_seed c) b (representatives c) (sketches c) (dsu c) (dsu_valid c)
    (shared_dsu_valid c) (spanning_forest c) (delta_sketches c) (config c) (last_query_rounds c).
Definition set_sketches (c : CCSketchAlg) (sk : list Sketch) : CCSketchAlg :=
  mkCC (num_vertices c) (cc_seed c) (update_locked c) (representatives c) sk (dsu c) (dsu_valid c)
    (shared_dsu_valid c) (spanning_forest c) (delta_sketches c) (config c) (last_query_rounds c).
Definition set_dsu (c : CCSketchAlg) (d : DSU) : CCSketchAlg :=
  mkCC (num_vertices c) (cc_seed c) (update_locked c) (representatives c) (sketches c) d
    (dsu_valid c) (shared_dsu_valid c) (spanning_forest c) (delta_sketches c) (config c)
    (last_query_rounds c).
Definition set_valid (c : CCSketchAlg) (b : bool) : CCSketchAlg :=
  mkCC (num_vertices c) (cc_seed c) (update_locked c) (representatives c) (sketches c) (dsu c)
    b b (spanning_forest c) (delta_sketches c) (config c) (last_query_rounds c).
Definition set_forest (c : CCSketchAlg) (f : list (gset nat)) : CCSketchAlg :=
  mkCC (num_vertices c) (cc_seed c) (update_locked c) (representatives c) (sketches c) (dsu c)
    (dsu_valid c) (shared_dsu_valid c) f (delta_sketches c) (config c) (last_query_rounds c).
Definition set_deltas (c : CCSketchAlg) (ds : list Sketch) : CCSketchAlg :=
  mkCC (num_vertices c) (cc_seed c) (update_locked c) (representatives c) (sketches c) (dsu c)
    (dsu_valid c) (shared_dsu_valid c) (spanning_forest c) ds (config c) (last_query_rounds c).
Definition set_rounds (c : CCSketchAlg) (r : nat) : CCSketchAlg :=
  mkCC (num_vertices c) (cc_seed c) (update_locked c) (representatives c) (sketches c) (dsu c)
    (dsu_valid c) (shared_dsu_valid c) (spanning_forest c) (delta_sketches c) (config c) r.

Section ops.
Context `{BuildConfig, Libm, Hashing}.

(** The sketch every component of the algorithm allocates. *)
Definition alg_sketch (nv : nat) (sd : N) (sketches_factor : double) : Sketch :=
  new_sketch (calc_vector_length (N.of_nat nv)) sd
    (calc_cc_samples (N.of_nat nv) sketches_factor) default_cols_per_sample.

(** The constructor; [prio] are the random priorities of the union-find. *)
Definition new_CCSketchAlg (nv : nat) (sd : N) (prio : list N) (cfg : CCAlgConfiguration)
    : CCSketchAlg :=
  mkCC nv sd false (list_to_set (seq 0 nv))
    ((λ _, alg_sketch nv sd (_sketches_factor cfg)) <$> seq 0 nv)
    (new_dsu nv prio) true true (replicate nv ∅) [] cfg 0.

Definition allocate_worker_memory (c : CCSketchAlg) (num_workers : nat) : CCSketchAlg :=
  set_deltas c (replicate num_workers
    (alg_sketch (num_vertices c) (cc_seed c) (_sketches_factor (config c)))).

(** [num *= config._batch_factor] multiplies as doubles and truncates. *)
Definition get_desired_updates_per_batch (c : CCSketchAlg) : outcome N :=
  s ← arr_get (sketches c) 0;
  let num := N.of_nat (bucket_array_bytes s / 4) in
  Ok (trunc_to_N (dmul (of_N num) (_batch_factor (config c)))).

Definition pre_insert (c : CCSketchAlg) (upd : GraphUpdate) : outcome CCSketchAlg :=
  if NO_EAGER_DSU then Ok (if dsu_valid c then set_valid c false else c)
  else if dsu_valid c then
    let s := src (edge upd) `min` dst (edge upd) in
    let d := src (edge upd) `max` dst (edge upd) in
    md ← DisjointSetUnion_MT.merge [] (dsu c) s d;
    let c := set_dsu c md.2 in
    f ← arr_get (spanning_forest c) s;
    if merged md.1 then Ok (set_forest c (<[s := {[d]} ∪ f]> (spanning_forest c)))
    else if decide (d ∈ f) then Ok (set_valid c false)
    else Ok c
  else Ok c.

Definition apply_update_batch (c : CCSketchAlg) (thr_id : nat) (src_vertex : nat)
    (dst_vertices : list nat) : outcome CCSketchAlg :=
  if update_locked c then Throw UpdateLockedException
  else
    delta ← arr_get (delta_sketches c) thr_id;
    let delta := zero_contents delta in
    let delta := foldl (λ delta d, update delta (concat_pairing_fn src_vertex d))
                   delta dst_vertices in
    s ← arr_get (sketches c) src_vertex;
    let c := set_deltas c (<[thr_id := delta]> (delta_sketches c)) in
    Ok (set_sketches c (<[src_vertex := merge s delta]> (sketches c))).

Definition apply_raw_buckets_update (c : CCSketchAlg) (src_vertex : nat)
    (raw_buckets : list Bucket) : outcome CCSketchAlg :=
  s ← arr_get (sketches c) src_vertex;
  Ok (set_sketches c (<[src_vertex := merge_raw_bucket_buffer s raw_buckets]> (sketches c))).

(** The updates of the two endpoints' sketches. *)
Definition update_sketch (c : CCSketchAlg) (v : nat) (idx : N) : outcome CCSketchAlg :=
  s ← arr_get (sketches c) v;
  Ok (set_sketches c (<[v := update s idx]> (sketches c))).

Definition update_alg (c : CCSketchAlg) (upd : GraphUpdate) : outcome CCSketchAlg :=
  c ← pre_insert c upd;
  let e := edge upd in
  c ← update_sketch c (src e) (concat_pairing_fn (src e) (dst e));
  update_sketch c (dst e) (concat_pairing_fn (src e) (dst e)).

Definition has_cached_query (c : CCSketchAlg) (code : QueryCode) : bool :=
  if decide (code = CONNECTIVITY) then shared_dsu_valid c else false.
End ops.

(** ** The edges of a spanning forest array *)

(** [spanning_forest[s]] holds the larger endpoints of the forest edges whose
    smaller endpoint is [s]. *)
Definition forest_edges (f : list (gset nat)) : gset N :=
  list_to_set (s ← seq 0 (length f); concat_pairing_fn s <$> elements (f !!! s)).

Lemma elem_of_forest_edges f e :
  e ∈ forest_edges f ↔ ∃ s D d, f !! s = Some D ∧ d ∈ D ∧ e = concat_pairing_fn s d.
Proof.
  unfold forest_edges. rewrite elem_of_list_to_set, list_elem_of_bind. split.
  - intros (s & He & Hs). apply list_elem_of_fmap in He as (d & -> & Hd).
    apply elem_of_seq in Hs. destruct (lookup_lt_is_Some_2 f s) as [D HD]; [lia|].
    rewrite (list_lookup_total_correct _ _ _ HD), elem_of_elements in Hd. eauto 10.
  - intros (s & D & d & HD & Hd & ->). exists s. split.
    + apply list_elem_of_fmap. exists d. split; [done|].
      by rewrite (list_lookup_total_correct _ _ _ HD), elem_of_elements.
    + apply elem_of_seq. apply lookup_lt_Some in HD. lia.
Qed.

Definition forest_array_ok (n : nat) (f : list (gset nat)) : Prop :=
  length f = n ∧ ∀ s D d, f !! s = Some D → d ∈ D → s < d < n.

Lemma forest_edges_insert f s D d :
  f !! s = Some D →
  forest_edges (<[s := {[d]} ∪ D]> f) = {[concat_pairing_fn s d]} ∪ forest_edges f.
Proof.
  intros Hs. apply set_eq. intros e.
  rewrite elem_of_union, elem_of_singleton, !elem_of_forest_edges. split.
  - intros (s' & D' & d' & HD' & Hd' & ->). destruct (decide (s' = s)) as [->|Hne].
    + rewrite list_lookup_insert_eq in HD' by by eapply lookup_lt_Some. injection HD' as <-.
      apply elem_of_union in Hd' as [->%elem_of_singleton|Hd']; [by left|]. right. eauto 10.
    + rewrite list_lookup_insert_ne in HD' by done. right. eauto 10.
  - intros [->|(s' & D' & d' & HD' & Hd' & ->)].
    + exists s, ({[d]} ∪ D), d. rewrite list_lookup_insert_eq by by eapply lookup_lt_Some.
      split; [done|]. set_solver.
    + destruct (decide (s' = s)) as [->|Hne].
      * exists s, ({[d]} ∪ D), d'. rewrite list_lookup_insert_eq by by eapply lookup_lt_Some.
        split; [done|]. simplify_eq. set_solver.
      * exists s', D', d'. rewrite list_lookup_insert_ne by done. done.
Qed.

Lemma forest_edges_empty n : forest_edges (replicate n ∅) = ∅.
Proof.
  apply set_eq. intros e. rewrite elem_of_forest_edges. split; [|set_solver].
  intros (s & D & d & HD & Hd & _). apply lookup_replicate in HD as [-> _]. set_solver.
Qed.

(** ** The cached answer *)

(** What [dsu_valid] promises about the current graph [E]: the union-find is its
    connectivity and the forest array is a spanning forest of it. *)
Record cached_answer (n : nat) (E : gset N) (d : DSU) (f : list (gset nat)) : Prop := {
  ca_conn : ∀ x y, x < n → y < n → dsu_rel d x y ↔ conn n E x y;
  ca_sub : forest_edges f ⊆ E;
  ca_forest : forest n (forest_edges f);
  ca_span : ∀ x y, conn n (forest_edges f) x y ↔ conn n E x y;
}.

Record dsu_state_ok (n : nat) (d : DSU) (f : list (gset nat)) : Prop := {
  ds_wf : dsu_wf d;
  ds_n : dsu_n d = n;
  ds_forest : forest_array_ok n f;
}.

Section cached.
Context (n : nat) (n_ok : (N.of_nat n ≤ 2 ^ 32)%N).
Implicit Types (E : gset N).

Lemma join_rel_iff (R R' : nat → nat → Prop) u v x y :
  R x y ↔ R' x y → R x u ↔ R' x u → R x v ↔ R' x v → R u y ↔ R' u y → R v y ↔ R' v y →
  join_rel R u v x y ↔ join_rel R' u v x y.
Proof. unfold join_rel. tauto. Qed.

(** A new edge between two components: the merge and the forest edge that
    records it. *)
Lemma cached_answer_add E d f d' s t D :
  cached_answer n E d f → dsu_state_ok n d f →
  s < t → t < n → f !! s = Some D → ¬ conn n E s t →
  (∀ x y, x < n → y < n → dsu_rel d' x y ↔ join_rel (dsu_rel d) s t x y) →
  cached_answer n (toggle (concat_pairing_fn s t) E) d' (<[s := {[t]} ∪ D]> f).
Proof.
  intros [Hc Hsub Hfor Hspan] [Hwf Hn [Hlen Hfa]] Hst Ht HD Hnc Hrel.
  assert (concat_pairing_fn s t ∉ E) as HnE.
  { intros He. apply Hnc, rtc_once. split_and!; (done || lia). }
  assert (toggle (concat_pairing_fn s t) E = {[concat_pairing_fn s t]} ∪ E) as HE'
    by (unfold toggle; by rewrite decide_False).
  assert (forest_edges (<[s := {[t]} ∪ D]> f) = {[concat_pairing_fn s t]} ∪ forest_edges f)
    as Hfe by by apply forest_edges_insert.
  rewrite HE'. constructor.
  - intros x y Hx Hy. rewrite Hrel, conn_insert by lia.
    apply join_rel_iff; apply Hc; lia.
  - rewrite Hfe. set_solver.
  - rewrite Hfe. constructor; try lia; [done|]. by rewrite Hspan.
  - intros x y. rewrite Hfe, !conn_insert by lia. by apply join_rel_iff.
Qed.

(** An update inside a component that is not a forest edge leaves the answer
    as it was, whether it inserts or deletes. *)
Lemma cached_answer_inside E d f d' s t :
  cached_answer n E d f → s < t → t < n → conn n E s t →
  concat_pairing_fn s t ∉ forest_edges f →
  (∀ x y, x < n → y < n → dsu_rel d' x y ↔ dsu_rel d x y) →
  cached_answer n (toggle (concat_pairing_fn s t) E) d' f.
Proof.
  intros [Hc Hsub Hfor Hspan] Hst Ht Hcon HnF Hrel.
  assert (forest_edges f ⊆ toggle (concat_pairing_fn s t) E) as Hsub'.
  { intros e He. apply elem_of_toggle. right. split; [by intros ->|by apply Hsub]. }
  assert (∀ x y, conn n (toggle (concat_pairing_fn s t) E) x y ↔ conn n E x y) as Heq.
  { intros x y. split.
    - intros Hxy. apply (conn_sub n (toggle (concat_pairing_fn s t) E)); [|done].
      intros u v (Hu & Hv & Hne & [[He _]|[_ He]]%elem_of_toggle); [|apply rtc_once; by split_and!].
      apply concat_pairing_fn_inj in He; [|by apply (node_ok_lt n); lia..].
      destruct He as [[-> ->]|[-> ->]]; [done|]. by apply conn_sym.
    - rewrite <- Hspan. by apply conn_mono. }
  constructor.
  - intros x y Hx Hy. by rewrite Hrel, Heq, Hc.
  - done.
  - done.
  - intros x y. by rewrite Heq.
Qed.
End cached.

(** ** Invariants of the algorithm's state *)

Section invariants.
Context `{BuildConfig, Libm, Hashing}.
Context (n : nat) (n_ok : (N.of_nat n ≤ 2 ^ 32)%N).
Implicit Types (c : CCSketchAlg) (E : gset N) (V : nat → gset N).

(** The eager side: well-formed union-find and forest, and a correct cached
    answer whenever it is marked valid. *)
Record eager_ok E c : Prop := {
  eo_n : num_vertices c = n;
  eo_state : dsu_state_ok n (dsu c) (spanning_forest c);
  eo_shared : shared_dsu_valid c = dsu_valid c;
  eo_cached : dsu_valid c = true → cached_answer n E (dsu c) (spanning_forest c);
}.

(** The sketch side: the sketch of node [v] holds the set [V v], all sketches
    have one geometry [G], the workers' scratch sketches too. *)
Record sketches_ok G V c : Prop := {
  so_length : length (sketches c) = n;
  so_repr : ∀ v s, sketches c !! v = Some s →
    represents s (V v) ∧ geometry s = G ∧ sample_idx s = 0;
  so_delta : ∀ t s, delta_sketches c !! t = Some s → sketch_wf s ∧ geometry s = G;
}.

(** The fields other than the union-find, the forest and the flags. *)
Definition same_sketches c c' : Prop :=
  sketches c' = sketches c ∧ delta_sketches c' = delta_sketches c ∧
  update_locked c' = update_locked c ∧ config c' = config c ∧ cc_seed c' = cc_seed c.

Lemma sketches_ok_same G V c c' : same_sketches c c' → sketches_ok G V c → sketches_ok G V c'.
Proof.
  intros (Hs & Hd & _ & _ & _) [Hl Hr Hdel]. constructor; rewrite ?Hs, ?Hd; done.
Qed.

(** One update: whatever its declared type, it toggles one edge of the graph,
    and [pre_insert] keeps the cached answer correct or drops it. *)
Lemma pre_insert_ok E c upd :
  eager_ok E c →
  src (edge upd) < n → dst (edge upd) < n → src (edge upd) ≠ dst (edge upd) →
  ∃ c', pre_insert c upd = Ok c' ∧ same_sketches c c' ∧
    eager_ok (toggle (concat_pairing_fn (src (edge upd)) (dst (edge upd))) E) c'.
Proof.
  intros [Hn Hst Hsh Hca] Hu Hv Hne. unfold pre_insert.
  assert (∀ E' b, eager_ok E' (set_valid c false) ∧ same_sketches c (set_valid c b)) as Hinval.
  { intros E' b. split; [|done]. by constructor. }
  destruct NO_EAGER_DSU.
  { destruct (dsu_valid c) eqn:Hval.
    - eexists. split; [done|]. split; [by apply (Hinval ∅)|by apply (Hinval _ true)].
    - eexists. split; [done|]. split; [done|]. constructor; try done; congruence. }
  destruct (dsu_valid c) eqn:Hval.
  2: { eexists. split; [done|]. split; [done|]. constructor; try done; congruence. }
  specialize (Hca eq_refl). destruct (edge upd) as [u v]. simpl in *.
  set (s := u `min` v). set (t := u `max` v).
  assert (s < t ∧ t < n) as [Hlt Htn] by (unfold s, t; lia).
  assert (concat_pairing_fn u v = concat_pairing_fn s t) as ->.
  { destruct (decide (u < v)); unfold s, t.
    - by rewrite Nat.min_l, Nat.max_r by lia.
    - rewrite Nat.min_r, Nat.max_l by lia. apply concat_pairing_fn_comm. }
  destruct (DisjointSetUnion_MT_merge_ok [] (dsu c) s t)
    as (m & d' & -> & Hwf' & Hn' & Hp' & Hm & _ & Hrel);
    [apply Hst|rewrite (ds_n _ _ _ Hst); lia|rewrite (ds_n _ _ _ Hst); lia|].
  rewrite (ds_n _ _ _ Hst) in Hrel, Hn'. simpl.
  destruct (ds_forest _ _ _ Hst) as [Hlen Hfa].
  destruct (lookup_lt_is_Some_2 (spanning_forest c) s) as [D HD]; [lia|].
  rewrite (arr_get_Ok _ _ _ HD). simpl.
  assert (dsu_rel (dsu c) s t ↔ conn n E s t) as Hst' by (apply Hca; lia).
  destruct (merged m) eqn:Hmerged.
  - assert (¬ conn n E s t) as Hnc by (rewrite <- Hst'; by apply Hm).
    eexists. split; [done|]. split; [done|]. constructor; simpl; try done; [|congruence|].
    + constructor; [done|done|]. split; [by rewrite length_insert|].
      intros a B b HB Hb. destruct (decide (a = s)) as [->|Has].
      * rewrite list_lookup_insert_eq in HB by lia. injection HB as <-.
        apply elem_of_union in Hb as [->%elem_of_singleton|Hb]; [lia|]. by eapply Hfa.
      * rewrite list_lookup_insert_ne in HB by done. by eapply Hfa.
    + intros _. by eapply cached_answer_add.
  - assert (dsu_rel (dsu c) s t) as Hin.
    { destruct (root_of_ex _ _ _ s (ds_wf _ _ _ Hst)) as [rs Hrs];
        [rewrite (ds_n _ _ _ Hst); lia|].
      destruct (root_of_ex _ _ _ t (ds_wf _ _ _ Hst)) as [rt Hrt];
        [rewrite (ds_n _ _ _ Hst); lia|].
      unfold dsu_rel. rewrite (same_set_roots _ _ _ _ _ Hrs Hrt).
      destruct (decide (rs = rt)) as [|Hd]; [done|]. exfalso.
      assert (false = true); [apply Hm|done].
      unfold dsu_rel. by rewrite (same_set_roots _ _ _ _ _ Hrs Hrt). }
    case_decide as HtD.
    + eexists. split; [done|]. split; [done|]. by constructor.
    + eexists. split; [done|]. split; [done|]. constructor; simpl; [done|by constructor|congruence|].
      intros _. eapply (cached_answer_inside n n_ok); [done|done|done|by apply Hst'| |].
      * rewrite elem_of_forest_edges. intros (a & B & b & HB & Hb & He).
        pose proof (Hfa _ _ _ HB Hb).
        apply concat_pairing_fn_inj in He; [|by apply (node_ok_lt n); lia..].
        destruct He as [[-> ->]|[-> ->]]; [|lia]. simplify_eq.
      * intros x y Hx Hy. rewrite Hrel by done.
        apply join_rel_related; [apply _..|done].
Qed.

(** *** Sketch updates *)

Definition fun_upd V (v : nat) (X : gset N) (w : nat) : gset N :=
  if decide (w = v) then X else V w.

Lemma set_sketch_ok G V c v s X :
  sketches_ok G V c → represents s X → geometry s = G → sample_idx s = 0 →
  sketches_ok G (fun_upd V v X) (set_sketches c (<[v := s]> (sketches c))).
Proof.
  intros [Hl Hr Hd] Hs Hg Hi. constructor; simpl; [by rewrite length_insert| |done].
  intros w s' Hw. unfold fun_upd. destruct (decide (w = v)) as [->|Hwv].
  - assert (v < length (sketches c)) as Hv.
    { apply lookup_lt_Some in Hw. by rewrite length_insert in Hw. }
    rewrite list_lookup_insert_eq in Hw by done. by injection Hw as <-.
  - rewrite list_lookup_insert_ne in Hw by done. by apply Hr.
Qed.

Lemma sketches_ok_ext G V V' c :
  (∀ v, v < n → V v = V' v) → sketches_ok G V c → sketches_ok G V' c.
Proof.
  intros HV [Hl Hr Hd]. constructor; [done| |done]. intros v s Hv.
  rewrite <- HV; [by apply Hr|]. rewrite <- Hl. by eapply lookup_lt_Some.
Qed.

Lemma update_sketch_ok G V c v idx :
  sketches_ok G V c → v < n →
  ∃ c', update_sketch c v idx = Ok c' ∧
    sketches_ok G (fun_upd V v (toggle idx (V v))) c' ∧
    c' = set_sketches c (sketches c').
Proof.
  intros Hok Hv. destruct (lookup_lt_is_Some_2 (sketches c) v) as [s Hs].
  { by rewrite (so_length _ _ _ Hok). }
  destruct (so_repr _ _ _ Hok v s Hs) as (Hr & Hg & Hi).
  unfold update_sketch. rewrite (arr_get_Ok _ _ _ Hs). simpl.
  eexists. split; [done|]. split; [|done].
  apply set_sketch_ok; [done|by apply represents_update|done|done].
Qed.

(** A batch for one node toggles one index per destination in its sketch,
    whatever was in the worker's scratch sketch before. *)
Lemma apply_update_batch_ok G V c thr v dsts :
  sketches_ok G V c → v < n → thr < length (delta_sketches c) → update_locked c = false →
  ∃ c', apply_update_batch c thr v dsts = Ok c' ∧
    sketches_ok G (fun_upd V v (toggle_all (concat_pairing_fn v <$> dsts) (V v))) c' ∧
    length (delta_sketches c') = length (delta_sketches c) ∧
    c' = set_deltas (set_sketches c (sketches c')) (delta_sketches c').
Proof.
  intros Hok Hv Ht Hul. unfold apply_update_batch. rewrite Hul.
  destruct (lookup_lt_is_Some_2 (delta_sketches c) thr Ht) as [dl Hdl].
  destruct (so_delta _ _ _ Hok thr dl Hdl) as [Hdwf Hdg].
  destruct (lookup_lt_is_Some_2 (sketches c) v) as [s Hs].
  { by rewrite (so_length _ _ _ Hok). }
  destruct (so_repr _ _ _ Hok v s Hs) as (Hr & Hg & Hi).
  rewrite (arr_get_Ok _ _ _ Hdl). simpl. rewrite (arr_get_Ok _ _ _ Hs). simpl.
  set (delta := foldl _ _ dsts).
  assert (represents delta (toggle_all (concat_pairing_fn v <$> dsts) ∅) ∧
          geometry delta = G) as [Hdr Hdg'].
  { unfold delta. rewrite <- (foldl_fmap update _ dsts (concat_pairing_fn v)).
    split; [by apply represents_update_all, represents_zero_contents|].
    by rewrite geometry_update_all. }
  eexists. split; [done|]. simpl. split; [|split; [by rewrite length_insert|done]].
  assert (sketches_ok G V (set_deltas c (<[thr := delta]> (delta_sketches c)))) as Hok'.
  { destruct Hok as [Hl Hrr Hdd]. constructor; simpl; [done|done|].
    intros t s' Hs'. destruct (decide (t = thr)) as [->|Hne].
    - rewrite list_lookup_insert_eq in Hs' by done. injection Hs' as <-.
      split; [by destruct Hdr|done].
    - rewrite list_lookup_insert_ne in Hs' by done. by eapply Hdd. }
  rewrite toggle_all_empty.
  apply (set_sketch_ok G V (set_deltas c (<[thr := delta]> (delta_sketches c)))); [done| |done|done].
  apply represents_merge; [done..|congruence].
Qed.

Lemma apply_raw_buckets_update_ok G V c v raw t X :
  sketches_ok G V c → v < n → represents t X → geometry t = G → raw = buckets t →
  ∃ c', apply_raw_buckets_update c v raw = Ok c' ∧
    sketches_ok G (fun_upd V v (symdiff (V v) X)) c' ∧ c' = set_sketches c (sketches c').
Proof.
  intros Hok Hv Ht Hg ->. destruct (lookup_lt_is_Some_2 (sketches c) v) as [s Hs].
  { by rewrite (so_length _ _ _ Hok). }
  destruct (so_repr _ _ _ Hok v s Hs) as (Hr & Hg' & Hi).
  unfold apply_raw_buckets_update. rewrite (arr_get_Ok _ _ _ Hs). simpl.
  eexists. split; [done|]. split; [|done]. apply set_sketch_ok; [done| |done|done].
  eapply represents_xor; [done..|congruence|done].
Qed.

(** The index of an update's edge. *)
Definition upd_index (upd : GraphUpdate) : N :=
  concat_pairing_fn (src (edge upd)) (dst (edge upd)).

Definition upd_ok (upd : GraphUpdate) : Prop :=
  src (edge upd) < n ∧ dst (edge upd) < n ∧ src (edge upd) ≠ dst (edge upd).

(** A direct update keeps the whole state in step with the toggled graph. *)
Lemma update_alg_ok G E c upd :
  eager_ok E c → sketches_ok G (incident E) c → upd_ok upd →
  ∃ c', update_alg c upd = Ok c' ∧
    eager_ok (toggle (upd_index upd) E) c' ∧
    sketches_ok G (incident (toggle (upd_index upd) E)) c' ∧
    update_locked c' = update_locked c.
Proof.
  intros Hea Hsk (Hu & Hv & Hne). unfold update_alg, upd_index.
  destruct (pre_insert_ok E c upd Hea Hu Hv Hne) as (c1 & -> & Hsame & Hea1).
  apply (sketches_ok_same _ _ _ _ Hsame) in Hsk. simpl.
  destruct (edge upd) as [u v]. simpl in *.
  destruct (update_sketch_ok G _ c1 u (concat_pairing_fn u v) Hsk Hu) as (c2 & -> & Hsk2 & Hc2).
  simpl.
  destruct (update_sketch_ok G _ c2 v (concat_pairing_fn u v) Hsk2 Hv) as (c3 & -> & Hsk3 & Hc3).
  exists c3. split; [done|]. split; [|split].
  - rewrite Hc3, Hc2. destruct Hea1 as [? ? ? ?]. by constructor.
  - eapply sketches_ok_ext; [|exact Hsk3]. intros w Hw. unfold fun_upd.
    rewrite (incident_toggle n n_ok) by done. symmetry.
    destruct (decide (w = v)) as [->|Hwv].
    + rewrite decide_True by auto. by rewrite decide_False by auto.
    + destruct (decide (w = u)) as [->|Hwu]; [by rewrite decide_True by auto|].
      rewrite decide_False; [done|]. naive_solver.
  - rewrite Hc3, Hc2. simpl. apply Hsame.
Qed.

(** A sequence of direct updates, stopping at the first exception. *)
Fixpoint update_all_alg (c : CCSketchAlg) (upds : list GraphUpdate) : outcome CCSketchAlg :=
  match upds with
  | [] => Ok c
  | upd :: upds => c ← update_alg c upd; update_all_alg c upds
  end.

Lemma update_all_alg_ok G E c upds :
  eager_ok E c → sketches_ok G (incident E) c → Forall upd_ok upds →
  ∃ c', update_all_alg c upds = Ok c' ∧
    eager_ok (toggle_all (upd_index <$> upds) E) c' ∧
    sketches_ok G (incident (toggle_all (upd_index <$> upds) E)) c' ∧
    update_locked c' = update_locked c.
Proof.
  revert E c. induction upds as [|upd upds IH]; intros E c Hea Hsk Hall; [by exists c|].
  apply list.Forall_cons in Hall as [Hupd Hall]. simpl.
  destruct (update_alg_ok G E c upd Hea Hsk Hupd) as (c1 & -> & Hea1 & Hsk1 & Hl1). simpl.
  destruct (IH _ _ Hea1 Hsk1 Hall) as (c2 & -> & ? & ? & ?). exists c2. split_and!; try done.
  congruence.
Qed.

Lemma graph_ok_toggle_all E upds :
  graph_ok n E → Forall upd_ok upds → graph_ok n (toggle_all (upd_index <$> upds) E).
Proof.
  revert E. induction upds as [|upd upds IH]; intros E HE Hall; [done|].
  apply list.Forall_cons in Hall as [(Hu & Hv & Hne) Hall]. simpl. apply IH; [|done].
  by apply graph_ok_toggle.
Qed.

(** *** Construction *)

Lemma conn_empty x y : conn n ∅ x y ↔ x = y.
Proof.
  split; [|intros ->; constructor].
  destruct 1 as [|x z y (_ & _ & _ & He) _]; [done|set_solver].
Qed.

Lemma new_eager_ok sd prio cfg :
  length prio = n → eager_ok ∅ (new_CCSketchAlg n sd prio cfg).
Proof.
  intros Hp. constructor; simpl; [done| |done|].
  - constructor; [by apply new_dsu_wf|done|]. split; [by rewrite length_replicate|].
    intros s D d HD Hd. apply lookup_replicate in HD as [-> _]. set_solver.
  - intros _. constructor.
    + intros x y Hx Hy. rewrite conn_empty.
      rewrite (reset_rel (new_dsu n prio) x y). simpl. naive_solver.
    + by rewrite forest_edges_empty.
    + rewrite forest_edges_empty. constructor.
    + intros x y. by rewrite forest_edges_empty.
Qed.

Definition alg_geometry sd cfg :=
  geometry (alg_sketch n sd (_sketches_factor cfg)).

Lemma new_sketches_ok sd prio cfg workers :
  calc_bkt_per_col (calc_vector_length (N.of_nat n)) < 64 →
  sketches_ok (alg_geometry sd cfg) (incident ∅)
    (allocate_worker_memory (new_CCSketchAlg n sd prio cfg) workers).
Proof.
  intros Hb. constructor; simpl.
  - by rewrite length_fmap, length_seq.
  - intros v s Hs. rewrite list_lookup_fmap in Hs.
    destruct (seq 0 n !! v); simpl in Hs; [|done]. injection Hs as <-. split; [|by split].
    replace (incident ∅ v) with (∅ : gset N); [by apply represents_new_sketch|].
    symmetry. apply set_eq. intros e. rewrite elem_of_incident. set_solver.
  - intros t s Hs. apply lookup_replicate in Hs as [-> _]. split; [|done].
    by apply new_sketch_wf.
Qed.

Lemma allocate_eager_ok E c workers :
  eager_ok E c → eager_ok E (allocate_worker_memory c workers).
Proof. intros [? ? ? ?]. by constructor. Qed.
End invariants.

(** ** Properties *)

Section theorems.
Context `{BuildConfig, Libm, Hashing}.

(** C28. Whether the build has the eager union-find or not, and whether an update
    inserts or deletes, [pre_insert] keeps the promise of [dsu_valid]: when the
    flag is still set afterwards, the union-find relates exactly the connected
    nodes of the updated graph and the forest array is a spanning forest of it.
    It never touches a sketch. *)
Theorem pre_insert_keeps_cached_answer n E c upd :
  (N.of_nat n ≤ 2 ^ 32)%N → eager_ok n E c → upd_ok n upd →
  ∃ c', pre_insert c upd = Ok c' ∧ eager_ok n (toggle (upd_index upd) E) c' ∧
    (dsu_valid c' = true →
      cached_answer n (toggle (upd_index upd) E) (dsu c') (spanning_forest c')) ∧
    (dsu_valid c = false → dsu_valid c' = false) ∧
    sketches c' = sketches c ∧ delta_sketches c' = delta_sketches c.
Proof.
  intros Hn Hea (Hu & Hv & Hne).
  destruct (pre_insert_ok n Hn E c upd Hea Hu Hv Hne) as (c' & Hrun & Hsame & Hea').
  exists c'. split; [done|]. split; [done|]. split; [apply Hea'|].
  split; [|by destruct Hsame as (? & ? & _)].
  intros Hval. revert Hrun. unfold pre_insert. rewrite Hval. destruct NO_EAGER_DSU; by intros [= <-].
Qed.

(** A batch of any length for one node toggles one edge index per destination
    in that node's sketch, whatever the worker's scratch sketch held, leaves
    every other node's sketch as it was, and is refused with
    [UpdateLockedException] while a query runs. *)
Theorem batch_toggles_one_node n G V c thr v dsts :
  sketches_ok n G V c → v < n → thr < length (delta_sketches c) →
  (update_locked c = true → apply_update_batch c thr v dsts = Throw UpdateLockedException) ∧
  (update_locked c = false →
    ∃ c', apply_update_batch c thr v dsts = Ok c' ∧
      sketches_ok n G
        (λ w, if decide (w = v) then toggle_all (concat_pairing_fn v <$> dsts) (V v) else V w) c' ∧
      (∀ w, w ≠ v → sketches c' !! w = sketches c !! w) ∧
      dsu c' = dsu c ∧ dsu_valid c' = dsu_valid c).
Proof.
  intros Hok Hv Ht. split; [intros Hl; unfold apply_update_batch; by rewrite Hl|].
  intros Hl. destruct (apply_update_batch_ok n G V c thr v dsts Hok Hv Ht Hl)
    as (c' & Hrun & Hok' & _ & Hc'). exists c'. split; [done|]. split; [done|].
  split; [|by rewrite Hc']. intros w Hw. revert Hrun. unfold apply_update_batch. rewrite Hl.
  destruct (arr_get (delta_sketches c) thr); simpl; [|done].
  destruct (arr_get (sketches c) v); simpl; [|done]. intros [= <-]. simpl.
  by rewrite list_lookup_insert_ne.
Qed.

(** From construction, any sequence of direct updates succeeds; the sketch of
    every node then holds exactly the edges at that node of the graph the
    updates describe, the workers' scratch sketches have the same size, and the
    cached answer is right whenever it is marked valid. *)
Theorem direct_updates_track_graph n sd prio cfg workers upds :
  (N.of_nat n ≤ 2 ^ 32)%N → length prio = n →
  calc_bkt_per_col (calc_vector_length (N.of_nat n)) < 64 →
  Forall (upd_ok n) upds →
  ∃ c, update_all_alg (allocate_worker_memory (new_CCSketchAlg n sd prio cfg) workers) upds = Ok c ∧
    (∀ v, v < n → ∃ s, sketches c !! v = Some s ∧
      represents s (incident (toggle_all (upd_index <$> upds) ∅) v)) ∧
    length (delta_sketches c) = workers ∧
    (dsu_valid c = true →
      cached_answer n (toggle_all (upd_index <$> upds) ∅) (dsu c) (spanning_forest c)).
Proof.
  intros Hn Hp Hb Hall.
  pose proof (new_sketches_ok n Hn sd prio cfg workers Hb) as Hsk.
  pose proof (allocate_eager_ok n ∅ _ workers (new_eager_ok n Hn sd prio cfg Hp)) as Hea.
  destruct (update_all_alg_ok n Hn _ ∅ _ upds Hea Hsk Hall) as (c & Hrun & Hea' & Hsk' & _).
  exists c. split; [done|]. split; [|split].
  - intros v Hv. destruct (lookup_lt_is_Some_2 (sketches c) v) as [s Hs].
    { by rewrite (so_length _ _ _ _ Hsk'). }
    exists s. split; [done|]. by apply (so_repr _ _ _ _ Hsk' v s).
  - assert (∀ upds c c', update_all_alg c upds = Ok c' →
      length (delta_sketches c') = length (delta_sketches c)) as Hlen.
    { clear. intros upds. induction upds as [|upd upds IH]; intros c c'; simpl; [by intros [= <-]|].
      destruct (update_alg c upd) as [c1|] eqn:Hu; simpl; [|done]. intros Hc%IH. rewrite Hc.
      revert Hu. unfold update_alg. destruct (pre_insert c upd) as [c2|] eqn:Hpre; simpl; [|done].
      assert (delta_sketches c2 = delta_sketches c) as <-.
      { revert Hpre. unfold pre_insert. destruct NO_EAGER_DSU.
        { intros [= <-]. by destruct (dsu_valid c). }
        destruct (dsu_valid c); [|by intros [= <-]].
        destruct (DisjointSetUnion_MT.merge _ _ _ _) as [[m d]|]; simpl; [|done].
        destruct (arr_get _ _); simpl; [|done]. repeat case_match; by intros [= <-]. }
      unfold update_sketch. destruct (arr_get (sketches c2) _); simpl; [|done].
      destruct (arr_get (<[_:=_]> (sketches c2)) _); simpl; [|done]. by intros [= <-]. }
    rewrite (Hlen _ _ _ Hrun). simpl. apply length_replicate.
  - apply Hea'.
Qed.
End theorems.

(** ** Witnesses *)

Section witnesses.
#[local] Existing Instances default_build integral_libm xxh3_hashing.

Definition example_alg : CCSketchAlg :=
  allocate_worker_memory (new_CCSketchAlg 4 7 [5; 1; 4; 4]%N CCConf.default) 2.

Lemma example_eager : eager_ok 4 ∅ example_alg.
Proof. by apply allocate_eager_ok, new_eager_ok. Qed.

Lemma example_sketches : sketches_ok 4 (alg_geometry 4 7 CCConf.default) (incident ∅) example_alg.
Proof. apply new_sketches_ok; [by vm_compute|]. vm_compute. lia. Qed.

Lemma pre_insert_keeps_cached_answer_witness :
  ∃ c', pre_insert example_alg (mkUpdate (mkEdge 2 1) DELETE) = Ok c' ∧
    eager_ok 4 (toggle (concat_pairing_fn 2 1) ∅) c'.
Proof.
  destruct (pre_insert_keeps_cached_answer 4 ∅ example_alg (mkUpdate (mkEdge 2 1) DELETE))
    as (c' & H1 & H2 & _); [by vm_compute|exact example_eager|repeat split; simpl; lia|].
  exists c'. exact (conj H1 H2).
Defined.

Lemma batch_toggles_one_node_witness :
  ∃ c', apply_update_batch example_alg 1 2 [3; 1; 3] = Ok c' ∧
    ∀ w, w ≠ 2 → sketches c' !! w = sketches example_alg !! w.
Proof.
  destruct (batch_toggles_one_node 4 _ _ example_alg 1 2 [3; 1; 3] example_sketches)
    as [_ Hok]; [lia|simpl; lia|].
  destruct (Hok eq_refl) as (c' & H1 & _ & H2 & _). exists c'. exact (conj H1 H2).
Defined.

Lemma direct_updates_track_graph_witness :
  ∃ c, update_all_alg example_alg
      [mkUpdate (mkEdge 0 1) INSERT; mkUpdate (mkEdge 3 1) INSERT] = Ok c ∧
    ∃ s, sketches c !! 1 = Some s ∧
      represents s (incident (toggle_all (concat_pairing_fn 0 1 :: [concat_pairing_fn 3 1]) ∅) 1).
Proof.
  destruct (direct_updates_track_graph 4 7 [5; 1; 4; 4]%N CCConf.default 2
    [mkUpdate (mkEdge 0 1) INSERT; mkUpdate (mkEdge 3 1) INSERT]) as (c & H1 & H2 & _).
  - by vm_compute.
  - reflexivity.
  - vm_compute. lia.
  - repeat constructor; simpl; lia.
  - exists c. split; [exact H1|]. apply H2. lia.
Defined.
End witnesses.
