(* ===== verification/ReturnTypes.v ===== *)
(** * Query results: src/include/return_types.h and src/src/return_types.cpp

    The connected components and the spanning forest a query returns: how they
    are read off the union-find and the forest array, and what their accessors
    answer. *)

From Stdlib Require Import NArith Lia.
From stdpp Require Import base list gmap sets numbers sorting relations.
From S2P Require Import Prelude Util Bucket Dsu Graph CCSketchAlg.

Record ConnectedComponents := mkComponents {
  parent_arr : list nat;
  cc_num_vertices : nat;
  num_cc : nat;
}.

(** One iteration of the parallel loop of the constructor. *)
Definition components_step (st : outcome (DSU * list nat * nat)) (i : nat)
    : outcome (DSU * list nat * nat) :=
  x ← st; let '(d, arr, temp_cc) := x in
  rd ← find_root d i;
  Ok (rd.2, <[i := rd.1]> arr, if decide (rd.1 = i) then S temp_cc else temp_cc).

(** The constructor; [order] is the order in which the iterations run. *)
Definition new_ConnectedComponents (order : list nat) (num_vertices : nat) (d : DSU)
    : outcome (ConnectedComponents * DSU) :=
  x ← foldl components_step (Ok (d, replicate num_vertices 0, 0)) order;
  let '(d, arr, temp_cc) := x in
  Ok (mkComponents arr num_vertices temp_cc, d).

Definition is_connected (cc : ConnectedComponents) (a b : nat) : outcome bool :=
  pa ← arr_get (parent_arr cc) a; pb ← arr_get (parent_arr cc) b; Ok (bool_decide (pa = pb)).

(** [temp[parent_arr[i]].insert(i)]. *)
Definition group_step (cc : ConnectedComponents) (temp : gmap nat (gset nat)) (i : nat)
    : gmap nat (gset nat) :=
  <[parent_arr cc !!! i := {[i]} ∪ default ∅ (temp !! (parent_arr cc !!! i))]> temp.

(** The sets in the ascending order of the map's keys. *)
Definition get_component_sets (cc : ConnectedComponents) : list (gset nat) :=
  let temp := foldl (group_step cc) ∅ (seq 0 (cc_num_vertices cc)) in
  omap (λ k, temp !! k) (merge_sort (≤) (elements (dom temp))).

Record SpanningForest := mkForest {
  sf_num_vertices : nat;
  edges : list Edge;
  sorted_adjacency : list Edge;
  has_adjacency : bool;
}.

Definition new_SpanningForest (num_vertices : nat) (spanning_forest : list (gset nat))
    : SpanningForest :=
  mkForest num_vertices
    (s ← seq 0 num_vertices; mkEdge s <$> elements (spanning_forest !!! s)) [] false.

(** [sort] is [std::sort] with the order of [Edge], a type of the stream library. *)
Definition get_sorted_adjacency (sort : list Edge → list Edge) (sf : SpanningForest)
    : list Edge * SpanningForest :=
  if has_adjacency sf then (sorted_adjacency sf, sf)
  else
    let adj := sort (edges sf ++ ((λ e, mkEdge (dst e) (src e)) <$> edges sf)) in
    (adj, mkForest (sf_num_vertices sf) (edges sf) adj true).

(** ** Components *)

(** [arr] holds the roots of the nodes of [vs]. *)
Definition roots_in (d : DSU) (arr : list nat) (vs : list nat) : Prop :=
  ∀ v, v ∈ vs → ∃ r, arr !! v = Some r ∧ root_of (parent d) v r.

Lemma components_run n order d d0 arr k done :
  dsu_wf d → dsu_n d = n → (∀ v w, root_of (parent d0) v w ↔ root_of (parent d) v w) →
  NoDup (done ++ order) → Forall (λ v, v < n) order → length arr = n →
  roots_in d0 arr done → k = length (filter (λ v, parent d0 !! v = Some v) done) →
  ∃ d' arr' k', foldl components_step (Ok (d, arr, k)) order = Ok (d', arr', k') ∧
    dsu_wf d' ∧ dsu_n d' = n ∧ (∀ v w, root_of (parent d0) v w ↔ root_of (parent d') v w) ∧
    length arr' = n ∧ roots_in d0 arr' (done ++ order) ∧
    k' = length (filter (λ v, parent d0 !! v = Some v) (done ++ order)).
Proof.
  revert d arr k done. induction order as [|v order IH];
    intros d arr k done Hwf Hn Heq Hnd Hlt Hlen Hin Hk.
  { exists d, arr, k. rewrite app_nil_r. by split_and!. }
  apply list.Forall_cons in Hlt as [Hv Hlt].
  destruct (find_root_spec d v Hwf) as (r & d1 & Hfr & Hr & Hwf1 & Hn1 & _ & Heq1); [lia|].
  assert (v ∉ done) as Hvd by (apply NoDup_app in Hnd as (_ & Hd & _); set_solver).
  destruct (IH d1 (<[v := r]> arr) (if decide (r = v) then S k else k) (done ++ [v]))
    as (d' & arr' & k' & Hrun & Hrest); try done.
  - lia.
  - intros u w. by rewrite Heq, Heq1.
  - by rewrite <- app_assoc.
  - by rewrite length_insert.
  - intros u [Hu| ->%list_elem_of_singleton]%elem_of_app.
    + rewrite list_lookup_insert_ne by (intros ->; done). by apply Hin.
    + exists r. rewrite list_lookup_insert_eq by lia. split; [done|]. by apply Heq.
  - rewrite list.filter_app, length_app, Hk, filter_cons, filter_nil.
    assert (parent d0 !! v = Some v ↔ r = v) as Hiff.
    { apply Heq in Hr. split.
      - intros Hroot. apply (root_of_det (parent d0) v); [done|by constructor].
      - intros ->. by eapply root_of_root. }
    destruct (decide (r = v)) as [Hrv|Hrv].
    + rewrite decide_True by by apply Hiff. simpl. lia.
    + rewrite decide_False by (by rewrite Hiff). simpl. lia.
  - exists d', arr', k'. rewrite <- app_assoc in Hrest. split; [|exact Hrest].
    rewrite <- Hrun. cbn [foldl]. f_equal. unfold components_step, mbind, outcome_bind.
    by rewrite Hfr.
Qed.

Section components.
Context (n : nat) (order : list nat) (d : DSU).
Hypothesis Hwf : dsu_wf d.
Hypothesis Hn : dsu_n d = n.
Hypothesis Horder : order ≡ₚ seq 0 n.

(** What the constructed value holds: the root of every node, and the number
    of roots. *)
Record components_of (cc : ConnectedComponents) : Prop := {
  co_n : cc_num_vertices cc = n;
  co_length : length (parent_arr cc) = n;
  co_roots : ∀ v, v < n → ∃ r, parent_arr cc !! v = Some r ∧ root_of (parent d) v r;
  co_count : num_cc cc = length (filter (λ v, parent d !! v = Some v) (seq 0 n));
}.

Lemma new_ConnectedComponents_ok :
  ∃ cc d', new_ConnectedComponents order n d = Ok (cc, d') ∧ components_of cc ∧
    dsu_wf d' ∧ dsu_n d' = n ∧ (∀ v w, root_of (parent d) v w ↔ root_of (parent d') v w).
Proof.
  unfold new_ConnectedComponents.
  destruct (components_run n order d d (replicate n 0) 0 [])
    as (d' & arr & k & -> & Hwf' & Hn' & Heq & Hlen & Hin & Hk); try done.
  { simpl. rewrite Horder. apply NoDup_seq. } { rewrite Horder. apply Forall_seq. lia. }
  { apply length_replicate. } { intros v Hv. set_solver. }
  simpl. eexists _, _. split; [done|]. split; [|done]. constructor; simpl; try done.
  - intros v Hv. apply Hin. simpl. rewrite Horder. apply elem_of_seq. lia.
  - rewrite Hk. simpl. by rewrite Horder.
Qed.

Lemma is_connected_ok cc a b :
  components_of cc → a < n → b < n →
  ∃ r, is_connected cc a b = Ok r ∧ (r = true ↔ dsu_rel d a b).
Proof.
  intros [_ _ Hr _] Ha Hb. destruct (Hr a Ha) as (ra & Hpa & Hra), (Hr b Hb) as (rb & Hpb & Hrb).
  unfold is_connected. rewrite (arr_get_Ok _ _ _ Hpa), (arr_get_Ok _ _ _ Hpb). simpl.
  eexists. split; [done|]. rewrite bool_decide_eq_true. symmetry. by apply same_set_roots.
Qed.
End components.

(** The components only depend on the roots. *)
Lemma components_of_roots n d d' cc :
  dsu_wf d → dsu_wf d' → (∀ v w, root_of (parent d) v w ↔ root_of (parent d') v w) →
  components_of n d cc → components_of n d' cc.
Proof.
  intros Hwf Hwf' Heq [C1 C2 C3 C4]. constructor; try done.
  - intros v Hv. destruct (C3 v Hv) as (r & Hr & Hroot). exists r. split; [done|]. by apply Heq.
  - rewrite C4. f_equal. apply list_filter_iff. intros v.
    split; intros Hr; (eapply root_of_root; apply Heq; by constructor).
Qed.


(** ** Component sets *)

Section groups.
Context (cc : ConnectedComponents).

(** The group of key [k] after the nodes [l] were inserted. *)
Lemma group_lookup l k :
  match foldl (group_step cc) ∅ l !! k with
  | Some X => X ≠ ∅ ∧ ∀ i, i ∈ X ↔ i ∈ l ∧ parent_arr cc !!! i = k
  | None => ∀ i, i ∈ l → parent_arr cc !!! i ≠ k
  end.
Proof.
  induction l as [|v l IH] using rev_ind; [set_solver|].
  rewrite foldl_app. simpl. unfold group_step at 1.
  destruct (decide (parent_arr cc !!! v = k)) as [<-|Hne].
  - rewrite lookup_insert_eq. split; [set_solver|]. intros i.
    destruct (foldl (group_step cc) ∅ l !! (parent_arr cc !!! v)) as [X|]; simpl.
    + destruct IH as [_ IH].
      rewrite elem_of_union, elem_of_singleton, elem_of_app, list_elem_of_singleton, IH.
      split; [intros [->|[? ?]]; split; auto|intros [[?| ->] ?]; [right|left]; auto].
    + rewrite elem_of_union, elem_of_singleton, elem_of_app, list_elem_of_singleton. set_solver.
  - rewrite lookup_insert_ne by done. destruct (foldl (group_step cc) ∅ l !! k) as [X|].
    + destruct IH as [Hne' IH]. split; [done|]. intros i. rewrite IH, elem_of_app, list_elem_of_singleton.
      naive_solver.
    + intros i [Hi| ->%list_elem_of_singleton]%elem_of_app; [by apply IH|done].
Qed.

Lemma elem_of_component_sets X :
  X ∈ get_component_sets cc ↔
  ∃ k, (∃ i, i < cc_num_vertices cc ∧ parent_arr cc !!! i = k) ∧
    ∀ i, i ∈ X ↔ i < cc_num_vertices cc ∧ parent_arr cc !!! i = k.
Proof.
  unfold get_component_sets. set (temp := foldl _ _ _).
  assert (∀ i, i ∈ seq 0 (cc_num_vertices cc) ↔ i < cc_num_vertices cc) as Hseq
    by (intros i; rewrite elem_of_seq; lia).
  rewrite list_elem_of_omap. split.
  - intros (k & _ & HS). exists k. pose proof (group_lookup (seq 0 (cc_num_vertices cc)) k) as Hg.
    fold temp in Hg. rewrite HS in Hg. destruct Hg as [Hne Hg]. setoid_rewrite Hseq in Hg.
    split; [|done]. apply set_choose_L in Hne as [i Hi]. exists i. by apply Hg.
  - intros (k & (i & Hi & Hik) & HS). exists k.
    pose proof (group_lookup (seq 0 (cc_num_vertices cc)) k) as Hg. fold temp in Hg.
    destruct (temp !! k) as [X'|] eqn:Ht.
    + split; [rewrite merge_sort_Permutation; apply elem_of_elements, elem_of_dom; eauto|].
      f_equal. apply set_eq. intros j. rewrite (proj2 Hg), Hseq. by rewrite HS.
    + exfalso. apply (Hg i); [by apply Hseq|done].
Qed.

Lemma dom_groups l : dom (foldl (group_step cc) ∅ l) =@{gset nat} list_to_set ((λ i, parent_arr cc !!! i) <$> l).
Proof.
  induction l as [|v l IH] using rev_ind; [apply dom_empty_L|].
  rewrite foldl_app, fmap_app, list_to_set_app_L. simpl. unfold group_step at 1.
  rewrite dom_insert_L, IH. set_solver.
Qed.

(** One set for every key of the map. *)
Lemma length_component_sets :
  length (get_component_sets cc) =
    size (list_to_set ((λ i, parent_arr cc !!! i) <$> seq 0 (cc_num_vertices cc)) : gset nat).
Proof.
  unfold get_component_sets. set (temp := foldl _ _ _). rewrite <- dom_groups. fold temp.
  unfold size, set_size. simpl. rewrite <- (Permutation_length (merge_sort_Permutation (≤) _)).
  set (ks := merge_sort _ _).
  assert (∀ k, k ∈ ks → is_Some (temp !! k)) as Hks.
  { intros k. unfold ks. rewrite merge_sort_Permutation, elem_of_elements, elem_of_dom. done. }
  clearbody ks. induction ks as [|k ks IH]; [done|]. simpl.
  destruct (Hks k ltac:(set_solver)) as [X ->]. simpl. f_equal. apply IH. set_solver.
Qed.
End groups.

Section component_sets.
Context (n : nat) (d : DSU).
Hypothesis Hwf : dsu_wf d.
Hypothesis Hn : dsu_n d = n.

Lemma arr_root cc v : components_of n d cc → v < n → root_of (parent d) v (parent_arr cc !!! v).
Proof.
  intros Hc Hv. destruct (co_roots _ _ _ Hc v Hv) as (r & Hr & Hroot).
  by rewrite (list_lookup_total_correct _ _ _ Hr).
Qed.

Lemma same_arr cc u v :
  components_of n d cc → u < n → v < n →
  parent_arr cc !!! u = parent_arr cc !!! v ↔ dsu_rel d u v.
Proof.
  intros Hc Hu Hv. symmetry. apply same_set_roots; by apply arr_root.
Qed.

(** The sets are the classes of the union-find, one for each root. *)
Lemma get_component_sets_ok cc :
  components_of n d cc →
  (∀ u v, u < n → v < n →
    dsu_rel d u v ↔ ∃ X, X ∈ get_component_sets cc ∧ u ∈ X ∧ v ∈ X) ∧
  (∀ X, X ∈ get_component_sets cc → X ≠ ∅ ∧ ∀ v, v ∈ X → v < n) ∧
  length (get_component_sets cc) = num_cc cc.
Proof.
  intros Hc. pose proof (co_n _ _ _ Hc) as Hcn. split; [|split].
  - intros u v Hu Hv. rewrite <- (same_arr cc) by done. split.
    + intros Heq. set (X := list_to_set (filter (λ i, parent_arr cc !!! i = parent_arr cc !!! u)
        (seq 0 n)) : gset nat).
      assert (∀ i, i ∈ X ↔ i < n ∧ parent_arr cc !!! i = parent_arr cc !!! u) as HS.
      { intros i. unfold X. rewrite elem_of_list_to_set, list_elem_of_filter, elem_of_seq.
        intuition lia. }
      exists X. split; [|rewrite !HS; naive_solver]. apply elem_of_component_sets.
      rewrite Hcn. exists (parent_arr cc !!! u). split; [by exists u|done].
    + intros (X & HS & HuS & HvS). apply elem_of_component_sets in HS as (k & _ & Hk).
      apply Hk in HuS as [_ ->], HvS as [_ ->]. done.
  - intros X HS. apply elem_of_component_sets in HS as (k & (i & Hi) & Hk).
    rewrite Hcn in *. split; [|intros v Hv; by apply Hk in Hv as [? _]].
    intros ->. specialize (Hk i). set_solver.
  - rewrite length_component_sets, Hcn, (co_count _ _ _ Hc).
    assert (list_to_set ((λ i, parent_arr cc !!! i) <$> seq 0 n) =
      (list_to_set (filter (λ v, parent d !! v = Some v) (seq 0 n)) : gset nat)) as ->.
    { apply set_eq. intros r. rewrite !elem_of_list_to_set, list_elem_of_filter, list_elem_of_fmap. split.
      - intros (v & -> & Hv%elem_of_seq). pose proof (arr_root cc v Hc ltac:(lia)) as Hr.
        split; [by eapply root_of_root|].
        destruct (root_of_lt _ _ _ _ _ Hwf Hr). apply elem_of_seq. lia.
      - intros [Hr Hrn]. exists r. split; [|done]. apply elem_of_seq in Hrn as Hrn'.
        apply (root_of_det (parent d) r); [by constructor|apply arr_root; [done|lia]]. }
    apply size_list_to_set. apply NoDup_filter, NoDup_seq.
Qed.
End component_sets.

(** ** Forests *)

Lemma elem_of_edges n f e :
  e ∈ edges (new_SpanningForest n f) ↔ src e < n ∧ dst e ∈ f !!! src e.
Proof.
  simpl. rewrite list_elem_of_bind. split.
  - intros (s & He & Hs%elem_of_seq). apply list_elem_of_fmap in He as (t & -> & Ht).
    simpl. split; [lia|by apply elem_of_elements].
  - intros [Hs Ht]. exists (src e). split; [|apply elem_of_seq; lia].
    apply list_elem_of_fmap. exists (dst e). split; [by destruct e|by apply elem_of_elements].
Qed.

(** The returned edges are the edges of the array, each once. *)
Lemma edges_forest n f :
  forest_array_ok n f →
  list_to_set ((λ e, concat_pairing_fn (src e) (dst e)) <$> edges (new_SpanningForest n f)) =
    forest_edges f.
Proof.
  intros [Hlen Hfa]. apply set_eq. intros e.
  rewrite elem_of_list_to_set, list_elem_of_fmap, elem_of_forest_edges. split.
  - intros (ed & -> & He). apply elem_of_edges in He as [Hs Hd].
    destruct (lookup_lt_is_Some_2 f (src ed)) as [D HD]; [lia|].
    rewrite (list_lookup_total_correct _ _ _ HD) in Hd. by exists (src ed), D, (dst ed).
  - intros (s & D & d & HD & Hd & ->). exists (mkEdge s d). split; [done|].
    apply elem_of_edges. simpl. rewrite (list_lookup_total_correct _ _ _ HD). split; [|done].
    rewrite <- Hlen. by eapply lookup_lt_Some.
Qed.

Lemma edges_NoDup n f : NoDup (edges (new_SpanningForest n f)).
Proof.
  simpl. assert (∀ l, NoDup l → NoDup (s ← l; mkEdge s <$> elements (f !!! s))) as Hl;
    [|apply Hl, NoDup_seq].
  induction 1 as [|s l Hs Hl IH]; simpl; [by apply NoDup_nil_2|].
  apply NoDup_app. split_and!; [|clear IH|done].
  - apply NoDup_fmap_2; [by intros x y [= ->]|apply NoDup_elements].
  - intros e (t & -> & _)%list_elem_of_fmap. rewrite list_elem_of_bind.
    intros (s' & (t' & Heq & _)%list_elem_of_fmap & Hs'). injection Heq as -> _. done.
Qed.

(** ** Properties *)

(** Built from a well-formed union-find, in whatever order the parallel loop
    runs, the result answers [is_connected] as the union-find does, its component
    sets are nonempty, contain only nodes, put two nodes together exactly when
    they are connected, and [size()] is their number. Path halving during the
    construction does not change the union-find's relation. *)
Theorem components_match_dsu n order d :
  dsu_wf d → dsu_n d = n → order ≡ₚ seq 0 n →
  ∃ cc d', new_ConnectedComponents order n d = Ok (cc, d') ∧
    (∀ v w, root_of (parent d) v w ↔ root_of (parent d') v w) ∧
    (∀ a b, a < n → b < n → ∃ r, is_connected cc a b = Ok r ∧ (r = true ↔ dsu_rel d a b)) ∧
    (∀ a b, a < n → b < n →
      dsu_rel d a b ↔ ∃ X, X ∈ get_component_sets cc ∧ a ∈ X ∧ b ∈ X) ∧
    (∀ X, X ∈ get_component_sets cc → X ≠ ∅ ∧ ∀ v, v ∈ X → v < n) ∧
    length (get_component_sets cc) = num_cc cc.
Proof.
  intros Hwf Hn Ho. destruct (new_ConnectedComponents_ok n order d Hwf Hn Ho)
    as (cc & d' & Hrun & Hcc & _ & _ & Heq).
  destruct (get_component_sets_ok n d Hwf Hn cc Hcc) as (H1 & H2 & H3).
  exists cc, d'. split_and!; try done. intros a b. by apply is_connected_ok.
Qed.

Lemma components_match_dsu_witness :
  let d := mkDSU 4 [1; 1; 2; 2] [0; 5; 3; 3]%N in
  ∃ cc d', new_ConnectedComponents [3; 0; 2; 1] 4 d = Ok (cc, d') ∧
    length (get_component_sets cc) = num_cc cc.
Proof.
  intros d. destruct (components_match_dsu 4 [3; 0; 2; 1] d) as (cc & d' & H1 & _ & _ & _ & _ & H2).
  - constructor; [reflexivity|reflexivity|..].
    + intros u v Hu. destruct u as [|[|[|[|u]]]]; simpl in Hu; [injection Hu as <-; simpl; lia..|discriminate].
    + intros u v Hu. destruct u as [|[|[|[|u]]]]; simpl in Hu; [injection Hu as <-..|discriminate];
        first [by left|right; unfold above; simpl; lia].
  - reflexivity.
  - by apply (bool_decide_unpack _); vm_compute.
  - exists cc, d'. exact (conj H1 H2).
Defined.

(** The edges of a spanning forest are the entries of the forest array, each
    once; the sorted adjacency lists every edge in both directions, and later
    calls return the stored array. *)
Theorem forest_edges_and_adjacency n f sort :
  forest_array_ok n f → (∀ l, sort l ≡ₚ l) →
  let sf := new_SpanningForest n f in
  NoDup (edges sf) ∧
  (∀ e, e ∈ edges sf ↔ ∃ D, f !! src e = Some D ∧ dst e ∈ D) ∧
  (∀ e, e ∈ (get_sorted_adjacency sort sf).1 ↔ e ∈ edges sf ∨ mkEdge (dst e) (src e) ∈ edges sf) ∧
  get_sorted_adjacency sort (get_sorted_adjacency sort sf).2 = get_sorted_adjacency sort sf.
Proof.
  intros [Hlen Hfa] Hsort sf. split; [apply edges_NoDup|]. split; [|split; [|done]].
  - intros e. unfold sf. rewrite elem_of_edges. split.
    + intros [Hs Hd]. destruct (lookup_lt_is_Some_2 f (src e)) as [D HD]; [lia|].
      exists D. split; [done|]. by rewrite (list_lookup_total_correct _ _ _ HD) in Hd.
    + intros (D & HD & Hd). rewrite (list_lookup_total_correct _ _ _ HD). split; [|done].
      rewrite <- Hlen. by eapply lookup_lt_Some.
  - intros e. unfold get_sorted_adjacency. change (has_adjacency sf) with false. cbv iota. cbn [fst].
    rewrite Hsort, elem_of_app, list_elem_of_fmap. split.
    + intros [He|(e' & -> & He)]; [by left|right]. by destruct e'.
    + intros [He|He]; [by left|right]. exists (mkEdge (dst e) (src e)). split; [by destruct e|done].
Qed.

Lemma forest_edges_and_adjacency_witness :
  let sf := new_SpanningForest 3 [{[1; 2]}; ∅; ∅] in
  NoDup (edges sf) ∧ (mkEdge 2 0 ∈ (get_sorted_adjacency id sf).1 ↔
    mkEdge 2 0 ∈ edges sf ∨ mkEdge 0 2 ∈ edges sf).
Proof.
  intros sf. destruct (forest_edges_and_adjacency 3 [{[1; 2]}; ∅; ∅] id) as (H1 & _ & H2 & _).
  - split; [reflexivity|]. intros s D d. destruct s as [|[|[|s]]]; simpl; intros [= <-]; set_solver by lia.
  - intros l. reflexivity.
  - exact (conj H1 (H2 (mkEdge 2 0))).
Defined.
