(* ===== verification/Partition.v ===== *)
(** * Work partitions: src/src/cc_sketch_alg.cpp and src/src/mc_sketch_alg.cpp

    The parallel loops of a query split an index range into one half-open
    segment per thread with floating-point arithmetic. This file models the
    split and its inverse, states what the callers need of them, and records
    the inputs on which rounding breaks it. *)

From Stdlib Require Import NArith Lia.
From stdpp Require Import base list numbers.
From S2P Require Import Prelude Float64.

(** The split of the connected components algorithm. *)
Definition get_ith_partition (length : nat) (i divisions : nat) : nat * nat :=
  let div_factor := ddiv (of_N (N.of_nat length)) (of_N (N.of_nat divisions)) in
  (N.to_nat (ceil_to_N (dmul div_factor (of_N (N.of_nat i)))),
   N.to_nat (ceil_to_N (dmul div_factor (of_N (N.of_nat (i + 1)))))).

(** The split of the minimum cut algorithm caps the end of the segment. *)
Definition mc_get_ith_partition (length : nat) (i divisions : nat) : nat * nat :=
  let div_factor := ddiv (of_N (N.of_nat length)) (of_N (N.of_nat divisions)) in
  (N.to_nat (ceil_to_N (dmul div_factor (of_N (N.of_nat i)))),
   N.to_nat (ceil_to_N (dmin (of_N (N.of_nat length))
      (of_N (ceil_to_N (dmul div_factor (of_N (N.of_nat (i + 1))))))))).

(** The segment that should contain [idx]. *)
Definition get_partition_idx (length idx divisions : nat) : nat :=
  let div_factor := ddiv (of_N (N.of_nat length)) (of_N (N.of_nat divisions)) in
  N.to_nat (trunc_to_N (ddiv (of_N (N.of_nat idx)) div_factor)).

#[global] Arguments get_ith_partition : simpl never.
#[global] Arguments mc_get_ith_partition : simpl never.
#[global] Arguments get_partition_idx : simpl never.

(** ** What the loops need

    The segments are nonempty, follow each other from 0 to [len], and
    [get_partition_idx] finds the segment of an index. *)
Record partition_ok (part : nat → nat → nat → nat * nat) (len T : nat) : Prop := {
  po_threads : 0 < T;
  po_start : (part len 0 T).1 = 0;
  po_end : (part len (T - 1) T).2 = len;
  po_next : ∀ i, S i < T → (part len i T).2 = (part len (S i) T).1;
  po_nonempty : ∀ i, i < T → (part len i T).1 < (part len i T).2;
  po_inverse : ∀ i k, i < T → (part len i T).1 ≤ k < (part len i T).2 →
                 get_partition_idx len k T = i;
}.

(** The same as a test. *)
Definition partition_okb (part : nat → nat → nat → nat * nat) (len T : nat) : bool :=
  bool_decide (0 < T) && bool_decide ((part len 0 T).1 = 0) &&
  bool_decide ((part len (T - 1) T).2 = len) &&
  forallb (λ i, bool_decide ((part len i T).2 = (part len (S i) T).1)) (seq 0 (T - 1)) &&
  forallb (λ i, bool_decide ((part len i T).1 < (part len i T).2) &&
     forallb (λ k, bool_decide (get_partition_idx len k T = i))
       (seq (part len i T).1 ((part len i T).2 - (part len i T).1))) (seq 0 T).

Lemma partition_okb_spec part len T : partition_okb part len T = true → partition_ok part len T.
Proof.
  unfold partition_okb. rewrite !andb_true_iff, !bool_decide_eq_true, !forallb_forall.
  intros [[[[HT Hs] He] Hn] Hi].
  assert (∀ i, i < T → (part len i T).1 < (part len i T).2 ∧
     ∀ k, (part len i T).1 ≤ k < (part len i T).2 → get_partition_idx len k T = i) as Hi'.
  { intros i Hlt. specialize (Hi i ltac:(apply in_seq; lia)).
    apply andb_true_iff in Hi as [Hne Hk]. apply bool_decide_eq_true in Hne.
    rewrite forallb_forall in Hk. split; [done|]. intros k Hk'.
    specialize (Hk k ltac:(apply in_seq; lia)). by apply bool_decide_eq_true in Hk. }
  constructor; try done.
  - intros i Hlt. specialize (Hn i ltac:(apply in_seq; lia)). by apply bool_decide_eq_true in Hn.
  - intros i Hlt. by apply Hi'.
  - intros i k Hlt Hk. by apply Hi'.
Qed.

(** ** Consequences *)

Section tiles.
Context (part : nat → nat → nat → nat * nat) (len T : nat).
Hypothesis Hp : partition_ok part len T.

(** Where thread [k]'s segment starts; the end of the range for [k = T]. *)
Definition part_bound (k : nat) : nat := if decide (k < T) then (part len k T).1 else len.

Lemma part_bound_0 : part_bound 0 = 0.
Proof.
  unfold part_bound. rewrite decide_True by apply (po_threads _ _ _ Hp). apply (po_start _ _ _ Hp).
Qed.

Lemma part_bound_T : part_bound T = len.
Proof. unfold part_bound. by rewrite decide_False by lia. Qed.

Lemma part_bounds k : k < T → part len k T = (part_bound k, part_bound (S k)).
Proof.
  intros Hk. unfold part_bound. rewrite (decide_True (P := k < T)) by done. case_decide.
  - rewrite <- (po_next _ _ _ Hp) by done. by destruct (part len k T).
  - replace k with (T - 1) by lia. rewrite <- (po_end _ _ _ Hp) at 3.
    by destruct (part len (T - 1) T).
Qed.

Lemma part_bound_lt k : k < T → part_bound k < part_bound (S k).
Proof. intros Hk. pose proof (po_nonempty _ _ _ Hp k Hk) as Hne. by rewrite part_bounds in Hne. Qed.

Lemma part_bound_le i k : i ≤ k → k ≤ T → part_bound i ≤ part_bound k.
Proof.
  intros Hik HT. induction k as [|k IH]; [by replace i with 0 by lia|].
  destruct (decide (i = S k)) as [->|Hne]; [done|]. etrans; [apply IH; lia|].
  apply Nat.lt_le_incl, part_bound_lt. lia.
Qed.

Lemma part_bound_inverse i k : i < T → part_bound i ≤ k < part_bound (S i) →
  get_partition_idx len k T = i.
Proof. intros Hi Hk. apply (po_inverse _ _ _ Hp); [done|]. by rewrite part_bounds. Qed.

Lemma part_end_le i : i < T → (part len i T).2 ≤ len.
Proof.
  intros Hi. rewrite part_bounds by done. rewrite <- part_bound_T. by apply part_bound_le.
Qed.

(** Every index is in a segment. *)
Lemma part_bound_find k : k < len → ∃ i, i < T ∧ part_bound i ≤ k < part_bound (S i).
Proof.
  intros Hk. assert (∀ m, m ≤ T → k < part_bound m → ∃ i, i < m ∧
    part_bound i ≤ k < part_bound (S i)) as Hm.
  { induction m as [|m IH]; intros Hm Hlt; [rewrite part_bound_0 in Hlt; lia|].
    destruct (decide (k < part_bound m)) as [Hlt'|Hge].
    - destruct IH as (i & Hi & Hik); [lia|done|]. exists i. lia.
    - exists m. lia. }
  apply (Hm T); [done|]. by rewrite part_bound_T.
Qed.

(** Concatenated, the segments are the whole range. *)
Lemma part_segments :
  concat ((λ t, seq (part len t T).1 ((part len t T).2 - (part len t T).1)) <$> seq 0 T)
  = seq 0 len.
Proof.
  assert (∀ k, k ≤ T →
    concat ((λ t, seq (part len t T).1 ((part len t T).2 - (part len t T).1)) <$> seq 0 k)
    = seq 0 (part_bound k)) as Hk.
  { induction k as [|k IH]; intros Hk; [by rewrite part_bound_0|].
    rewrite seq_S, fmap_app, concat_app, IH by lia. simpl. rewrite app_nil_r, part_bounds by lia.
    simpl. pose proof (part_bound_lt k Hk).
    replace (part_bound (S k)) with (part_bound k + (part_bound (S k) - part_bound k)) at 2 by lia.
    by rewrite seq_app. }
  rewrite Hk by done. by rewrite part_bound_T.
Qed.
End tiles.

(** ** Properties *)

(** On every size up to 47 the split among 1, 2, 4, 8 or 16 threads (at most
    one per node) is exact: nonempty consecutive segments from 0 to the size, with
    [get_partition_idx] their inverse. On other inputs rounding breaks it: the
    last segment of 29 nodes among 7 threads ends at 30, past the array (only the
    minimum cut version caps it); index 9 of 18 nodes among 14 threads lies in
    segment 7 while [get_partition_idx] answers 6; and with more threads than
    nodes a segment is empty and starts at the end of the array. *)
Theorem partition_exact_and_rounded :
  (∀ T len, T ∈ [1; 2; 4; 8; 16] → T ≤ len < 48 →
    partition_ok get_ith_partition len T ∧ partition_ok mc_get_ith_partition len T) ∧
  (get_ith_partition 29 6 7).2 = 30 ∧ (mc_get_ith_partition 29 6 7).2 = 29 ∧
  (get_ith_partition 18 7 14 = (9, 11) ∧ get_partition_idx 18 9 14 = 6) ∧
  get_ith_partition 2 3 4 = (2, 2).
Proof.
  split; [|by vm_compute]. intros T len HT Hlen.
  assert (forallb (λ T, forallb (λ len, partition_okb get_ith_partition len T &&
    partition_okb mc_get_ith_partition len T) (seq T (48 - T))) [1; 2; 4; 8; 16] = true) as Hall
    by vm_cast_no_check (eq_refl true).
  rewrite forallb_forall in Hall. specialize (Hall T (proj1 (list_elem_of_In _ _) HT)).
  rewrite forallb_forall in Hall. specialize (Hall len ltac:(apply in_seq; lia)).
  apply andb_true_iff in Hall as [? ?]. split; by apply partition_okb_spec.
Qed.
