(* ===== verification/MergeInstr.v ===== *)
(** * Merge instructions: src/src/cc_sketch_alg.cpp

    Between two rounds of Boruvka the threads of a query regroup the nodes by
    the root of their component. Each thread collects the nodes of its segment
    by root, reserves room for them in the block of every root with an atomic
    add, and after a parallel prefix sum writes them to their places. The
    regrouping is shown right for every order of the atomic adds, of the
    lookups and of the writes. *)

From Stdlib Require Import NArith Lia.
From stdpp Require Import base list numbers sets.
From S2P Require Import Prelude Util Dsu Partition.

Record MergeInstr := mkInstr { root : nat; child : nat }.

#[global] Instance MergeInstr_eq_dec : EqDecision MergeInstr.
Proof. solve_decision. Defined.

Definition instr_ltb (a b : MergeInstr) : bool :=
  if decide (root a = root b) then bool_decide (child a < child b)
  else bool_decide (root a < root b).

(** The loop of the binary search of [find_last_partition_of_root]; the target's
    child is [(node_id_t) -1], above every node id. *)
Fixpoint last_of_root_loop (fuel : nat) (instrs : list MergeInstr) (r mn mx : nat) : outcome nat :=
  match fuel with
  | O => Throw OutOfFuel
  | S fuel =>
      if decide (mn < mx) then
        let mid := mn + (mx - mn) / 2 in
        x ← arr_get instrs mid;
        if instr_ltb x (mkInstr r (N.to_nat (2 ^ 32 - 1)))
        then last_of_root_loop fuel instrs r (mid + 1) mx
        else last_of_root_loop fuel instrs r mn mid
      else Ok mn
  end.

(** The search and the step back that follows it. *)
Definition last_of_root (instrs : list MergeInstr) (r min_hint : nat) : outcome nat :=
  mn ← last_of_root_loop (S (length instrs)) instrs r min_hint (length instrs - 1);
  x ← arr_get instrs mn;
  Ok (if decide (root x = r) then mn else mn - 1).

Definition find_last_partition_of_root (instrs : list MergeInstr) (r min_hint num_threads : nat)
    : outcome nat :=
  mn ← last_of_root instrs r min_hint;
  Ok (get_partition_idx (length instrs) mn num_threads).

(** ** [create_merge_instructions] *)

(** One thread's [local_ccs]: the nodes of its segment by root. *)
Abbreviation local_ccs := (list (nat * list nat)).

Fixpoint push_local (r c : nat) (l : local_ccs) : local_ccs :=
  match l with
  | [] => [(r, [c])]
  | (r', cs) :: l => if decide (r = r') then (r', cs ++ [c]) :: l else (r', cs) :: push_local r c l
  end.

(** One iteration of the first loop of thread [t]: look a child's root up. *)
Definition lookup_step (st : outcome (DSU * list local_ccs)) (a : nat * nat)
    : outcome (DSU * list local_ccs) :=
  dl ← st; let '(d, ls) := dl in let '(t, c) := a in
  rd ← find_root d c;
  Ok (rd.2, alter (push_local rd.1 c) t ls).

(** The atomic capture of thread [t] for one of its components. *)
Definition capture_step (st : outcome (list nat * list (list nat))) (a : nat * (nat * list nat))
    : outcome (list nat * list (list nat)) :=
  ci ← st; let '(cc_prefix, idx) := ci in let '(t, (r, vertices)) := a in
  i ← arr_get cc_prefix r;
  Ok (<[r := i + length vertices]> cc_prefix, alter (λ l, l ++ [i]) t idx).

(** [cc_prefix[i] += cc_prefix[i-1]]. *)
Definition prefix_step (st : outcome (list nat)) (i : nat) : outcome (list nat) :=
  p ← st; a ← arr_get p i; b ← arr_get p (i - 1); Ok (<[i := a + b]> p).

Definition add_step (k : nat) (st : outcome (list nat)) (i : nat) : outcome (list nat) :=
  p ← st; a ← arr_get p i; Ok (<[i := a + k]> p).

Definition segment (part : nat * nat) : list nat := seq part.1 (part.2 - part.1).

(** The writes of one thread, in order. *)
Definition placements (cc_prefix : list nat) (l : local_ccs) (idx : list nat)
    : outcome (list (nat * MergeInstr)) :=
  foldr (λ x rest,
    let '((r, vertices), thr_idx) := x in
    before ← (if decide (0 < r) then arr_get cc_prefix (r - 1) else Ok 0);
    ws ← rest;
    Ok (imap (λ j v, (thr_idx + before + j, mkInstr r v)) vertices ++ ws)) (Ok []) (zip l idx).

Definition write_step (st : outcome (list MergeInstr)) (w : nat * (nat * MergeInstr))
    : outcome (list MergeInstr) :=
  m ← st; arr_set m w.2.1 w.2.2.

(** The orders the run-time chooses: the interleavings of the three parallel
    phases and the iteration order of each thread's hash map. *)
Record MergeSchedule := mkMergeSchedule {
  lookup_order : list nat;
  map_order : local_ccs → local_ccs;
  capture_order : list nat;
  write_order : list nat;
}.

(** [part] is the split of the algorithm, [get_ith_partition] or the capped one. *)
Section create.
Context (part : nat → nat → nat → nat * nat) (num_vertices T : nat) (sch : MergeSchedule).

Definition partition (t : nat) : nat * nat := part num_vertices t T.

(** The prefix sums of the segments, the single-threaded sums of their last
    elements, and the second parallel pass that adds them. *)
Definition segment_sums (cc_prefix : list nat) : outcome (list nat) :=
  foldl (λ st t, foldl prefix_step st
           (seq (S (partition t).1) ((partition t).2 - S (partition t).1)))
    (Ok cc_prefix) (seq 0 T).

Fixpoint range_sums (cc_prefix : list nat) (t : nat) : outcome nat :=
  match t with
  | O => Ok 0
  | S t =>
      prev ← range_sums cc_prefix t;
      cur ← arr_get cc_prefix ((partition t).2 - 1);
      Ok (cur + prev)
  end.

Definition finish_sums (cc_prefix : list nat) : outcome (list nat) :=
  sums ← outcome_list (range_sums cc_prefix <$> seq 0 T);
  foldl (λ st t, foldl (add_step (sums !!! t)) st (segment (partition t)))
    (Ok cc_prefix) (seq 1 (T - 1)).

Definition create_merge_instructions (d : DSU) (merge_instr : list MergeInstr)
    : outcome (DSU * list MergeInstr) :=
  children ← outcome_list ((λ t,
    outcome_list ((λ i, child <$> arr_get merge_instr i) <$> segment (partition t))) <$> seq 0 T);
  dl ← foldl lookup_step (Ok (d, replicate T [])) (interleave (lookup_order sch) children);
  let '(d, ls) := dl in
  let ls := map_order sch <$> ls in
  ci ← foldl capture_step (Ok (replicate num_vertices 0, replicate T []))
         (interleave (capture_order sch) ls);
  let '(cc_prefix, idx) := ci in
  cc_prefix ← segment_sums cc_prefix;
  cc_prefix ← finish_sums cc_prefix;
  ws ← outcome_list (zip_with (placements cc_prefix) ls idx);
  m ← foldl write_step (Ok merge_instr) (interleave (write_order sch) ws);
  Ok (d, m).
End create.

(** ** Lookups *)

Definition children_of (l : local_ccs) : list nat := concat l.*2.

Lemma push_local_children r c l : children_of (push_local r c l) ≡ₚ c :: children_of l.
Proof.
  unfold children_of. induction l as [|[r' cs] l IH]; simpl; [done|]. case_decide; simpl.
  - rewrite <- app_assoc. simpl. by rewrite <- Permutation_middle.
  - rewrite IH. by rewrite Permutation_middle.
Qed.

(** Every entry holds nodes of its root [R]. *)
Definition local_ok (n : nat) (R : nat → nat) (l : local_ccs) : Prop :=
  Forall (λ e, e.1 < n ∧ Forall (λ c, R c = e.1) e.2) l.

Lemma push_local_ok n (R : nat → nat) c l :
  R c < n → local_ok n R l → local_ok n R (push_local (R c) c l).
Proof.
  unfold local_ok. intros Hc. induction l as [|[r' cs] l IH]; intros Hl; simpl.
  - repeat constructor; done.
  - apply list.Forall_cons in Hl as [[Hr Hcs] Hl]. case_decide; simplify_eq/=.
    + constructor; [|done]. simpl. split; [done|]. apply Forall_app. by repeat constructor.
    + constructor; [done|]. by apply IH.
Qed.

Section lookups.
Context (n : nat) (R : nat → nat).

Definition roots_are (d : DSU) : Prop :=
  dsu_wf d ∧ dsu_n d = n ∧ ∀ c, c < n → root_of (parent d) c (R c).

Lemma roots_are_lt d c : roots_are d → c < n → R c < n.
Proof.
  intros (Hwf & Hn & HR) Hc. rewrite <- Hn. eapply root_of_lt; [apply Hwf|by apply HR].
Qed.

Lemma lookup_children_alter (ls : list local_ccs) t r c :
  t < length ls →
  concat (children_of <$> alter (push_local r c) t ls) ≡ₚ c :: concat (children_of <$> ls).
Proof.
  intros Ht. destruct (lookup_lt_is_Some_2 ls t Ht) as [l Hl]. revert t Hl Ht.
  induction ls as [|l' ls IH]; intros [|t] Hl Ht; simplify_eq/=.
  - by rewrite push_local_children.
  - change (list_alter ?f t ls) with (alter f t ls).
    change (list_fmap _ _ ?f ?l) with (f <$> l).
    rewrite IH by (done || lia). symmetry. apply Permutation_middle.
Qed.

Lemma lookups_ok acts d ls :
  roots_are d → Forall (local_ok n R) ls →
  Forall (λ a, a.1 < length ls ∧ a.2 < n) acts →
  ∃ d' ls', foldl lookup_step (Ok (d, ls)) acts = Ok (d', ls') ∧
    roots_are d' ∧ Forall (local_ok n R) ls' ∧ length ls' = length ls ∧
    concat (children_of <$> ls') ≡ₚ acts.*2 ++ concat (children_of <$> ls).
Proof.
  revert d ls. induction acts as [|[t c] acts IH]; intros d ls Hd Hls Hacts; simpl.
  { eexists _, _. split_and!; done. }
  apply list.Forall_cons in Hacts as [[Ht Hc] Hacts]. simpl in Ht, Hc.
  pose proof Hd as (Hwf & Hn & HR).
  destruct (find_root_spec d c) as (r & d' & -> & Hr & Hwf' & Hn' & _ & Heq); [done|lia|].
  simpl. rewrite <- (root_of_det _ _ _ _ (HR c Hc) Hr).
  destruct (IH d' (alter (push_local (R c) c) t ls)) as (d'' & ls' & Hrun & Hd' & Hls' & Hlen & Hp).
  - split_and!; [done|lia|]. intros x Hx. by apply Heq, HR.
  - apply Forall_lookup. intros i l Hi. destruct (decide (i = t)) as [->|Hne].
    + rewrite list_lookup_alter_eq in Hi. destruct (ls !! t) as [l0|] eqn:Hl0; [|done].
      simpl in Hi. injection Hi as <-. apply push_local_ok; [by eapply roots_are_lt|].
      by eapply (Forall_lookup_1 _ _ _ _ Hls).
    + rewrite list_lookup_alter_ne in Hi by done. by eapply (Forall_lookup_1 _ _ _ _ Hls).
  - by rewrite length_alter.
  - exists d'', ls'. split; [done|]. split_and!; try done.
    { by rewrite Hlen, length_alter. }
    rewrite Hp, lookup_children_alter by done. symmetry. apply Permutation_middle.
Qed.
End lookups.

(** ** Reservations

    [annotate] pairs every component of a thread with the offset its atomic
    capture returns; [count_all] is the array after all captures. *)

Fixpoint annotate (cnt : list nat) (acts : list (nat * (nat * list nat)))
    : list (nat * ((nat * list nat) * nat)) :=
  match acts with
  | [] => []
  | (t, (r, vs)) :: acts =>
      (t, ((r, vs), cnt !!! r)) :: annotate (<[r := cnt !!! r + length vs]> cnt) acts
  end.

Definition count_step (cnt : list nat) (a : nat * (nat * list nat)) : list nat :=
  <[a.2.1 := cnt !!! a.2.1 + length a.2.2]> cnt.
Definition count_all := foldl count_step.

Lemma length_count_all acts cnt : length (count_all cnt acts) = length cnt.
Proof.
  revert cnt. induction acts as [|a acts IH]; intros cnt; simpl; [done|].
  by rewrite IH; unfold count_step; rewrite length_insert.
Qed.

Lemma thread_of_annotate_fst t cnt acts :
  (thread_of t (annotate cnt acts)).*1 = thread_of t acts.
Proof.
  revert cnt. induction acts as [|[u [r vs]] acts IH]; intros cnt; simpl; [done|].
  rewrite !thread_of_cons. case_decide; [|apply IH]. rewrite fmap_cons. by rewrite IH.
Qed.

Lemma captures_ok acts cnt idx :
  Forall (λ a, a.1 < length idx ∧ a.2.1 < length cnt) acts →
  foldl capture_step (Ok (cnt, idx)) acts =
    Ok (count_all cnt acts, imap (λ t l, l ++ (thread_of t (annotate cnt acts)).*2) idx).
Proof.
  revert cnt idx. induction acts as [|[t [r vs]] acts IH]; intros cnt idx Hacts.
  { simpl. do 2 f_equal. symmetry. apply list_eq. intros i. rewrite list_lookup_imap.
    destruct (idx !! i) as [l|]; simpl; [|done]. by rewrite app_nil_r. }
  apply list.Forall_cons in Hacts as [[Ht Hr] Hacts]. simpl in Ht, Hr.
  assert (capture_step (Ok (cnt, idx)) (t, (r, vs)) =
    Ok (<[r := cnt !!! r + length vs]> cnt, alter (λ l, l ++ [cnt !!! r]) t idx)) as Hstep.
  { simpl. by rewrite (arr_get_Ok cnt r (cnt !!! r)) by by apply list_lookup_lookup_total_lt. }
  cbn [foldl]. rewrite Hstep, IH.
  2: { eapply Forall_impl; [exact Hacts|]. intros a. simpl. by rewrite length_alter, length_insert. }
  do 2 f_equal. apply list_eq. intros i. rewrite !list_lookup_imap.
  cbn [annotate]. rewrite thread_of_cons. destruct (decide (t = i)) as [->|Hne].
  - rewrite list_lookup_alter_eq. destruct (idx !! i) as [l|]; simpl; [|done].
    by rewrite <- app_assoc.
  - by rewrite list_lookup_alter_ne by done.
Qed.

Section positions.
Context (P : nat → nat).

Definition block_pos (b : (nat * list nat) * nat) : list nat :=
  seq (b.2 + P b.1.1) (length b.1.2).
Definition block_writes (b : (nat * list nat) * nat) : list (nat * MergeInstr) :=
  imap (λ j v, (b.2 + P b.1.1 + j, mkInstr b.1.1 v)) b.1.2.

Lemma block_writes_pos b : (block_writes b).*1 = block_pos b.
Proof.
  destruct b as [[r vs] i]. unfold block_writes, block_pos. simpl.
  generalize (i + P r) as k. induction vs as [|v vs IH]; intros k; simpl; [done|].
  rewrite Nat.add_0_r. f_equal. rewrite <- IH. f_equal. apply imap_ext.
  intros j x _. simpl. f_equal. lia.
Qed.

Lemma block_writes_child b : child <$> (block_writes b).*2 = b.1.2.
Proof.
  destruct b as [[r vs] i]. unfold block_writes. simpl. generalize (i + P r) as k.
  induction vs as [|v vs IH]; intros k; simpl; [done|]. f_equal.
  rewrite <- (IH (S k)) at 2. do 2 f_equal. apply imap_ext. intros j x _. simpl. f_equal. lia.
Qed.

(** The room reserved so far, root by root. *)
Definition taken (n : nat) (cnt : list nat) : list nat :=
  concat ((λ r, seq (P r) (cnt !!! r)) <$> seq 0 n).

Lemma taken_step n cnt r k :
  r < n → length cnt = n →
  taken n (<[r := cnt !!! r + k]> cnt) ≡ₚ taken n cnt ++ seq (cnt !!! r + P r) k.
Proof.
  intros Hr Hlen. unfold taken.
  assert (∀ m s, s + m ≤ n →
    concat ((λ r', seq (P r') (<[r := cnt !!! r + k]> cnt !!! r')) <$> seq s m) ≡ₚ
    concat ((λ r', seq (P r') (cnt !!! r')) <$> seq s m) ++
    (if decide (s ≤ r < s + m) then seq (cnt !!! r + P r) k else [])) as Hm.
  { induction m as [|m IH]; intros s Hs; [simpl; by rewrite decide_False by lia|].
    cbn [seq]. rewrite !fmap_cons, !concat_cons, IH by lia.
    destruct (decide (s = r)) as [->|Hne].
    - rewrite list_lookup_total_insert_eq by lia. rewrite (decide_False (P := S r ≤ r < S r + m)),
        decide_True by lia. rewrite seq_app, app_nil_r, <- !app_assoc, (Nat.add_comm (P r)).
      f_equiv. apply Permutation_app_comm.
    - rewrite list_lookup_total_insert_ne by done. rewrite <- app_assoc. do 2 f_equiv.
      rewrite (decide_ext (S s ≤ r < S s + m) (s ≤ r < s + S m)) by lia. done. }
  rewrite Hm by lia. by rewrite decide_True by lia.
Qed.

Lemma positions_perm n acts cnt :
  length cnt = n → Forall (λ a, a.2.1 < n) acts →
  taken n cnt ++ concat (block_pos <$> (annotate cnt acts).*2) ≡ₚ taken n (count_all cnt acts).
Proof.
  revert cnt. induction acts as [|[t [r vs]] acts IH]; intros cnt Hlen Hacts.
  { simpl. by rewrite app_nil_r. }
  apply list.Forall_cons in Hacts as [Hr Hacts]. simpl in Hr. cbn [annotate count_all foldl].
  rewrite !fmap_cons, concat_cons. rewrite <- IH; [|by unfold count_step; rewrite length_insert|done].
  unfold count_step. simpl. rewrite taken_step by done. by rewrite <- app_assoc.
Qed.

Lemma taken_total n cnt :
  P 0 = 0 → (∀ r, r < n → P (S r) = P r + cnt !!! r) → taken n cnt = seq 0 (P n).
Proof.
  intros H0 HS. unfold taken. induction n as [|n IH]; [by rewrite H0|].
  rewrite seq_S, fmap_app, concat_app, IH by (intros; apply HS; lia). simpl.
  rewrite app_nil_r, HS, seq_app by lia. done.
Qed.

Lemma count_all_mono acts cnt r : cnt !!! r ≤ count_all cnt acts !!! r.
Proof.
  revert cnt. induction acts as [|[t [r' vs]] acts IH]; intros cnt; simpl; [done|].
  etrans; [|apply IH]. unfold count_step. simpl. destruct (decide (r' = r)) as [->|Hne].
  - destruct (decide (r < length cnt)).
    + rewrite list_lookup_total_insert_eq by done. lia.
    + by rewrite list_insert_ge by lia.
  - by rewrite list_lookup_total_insert_ne by done.
Qed.

Lemma annotate_bound acts cnt b :
  Forall (λ a, a.2.1 < length cnt) acts → b ∈ (annotate cnt acts).*2 →
  b.2 + length b.1.2 ≤ count_all cnt acts !!! b.1.1.
Proof.
  revert cnt. induction acts as [|[t [r vs]] acts IH]; intros cnt Hacts; simpl; [set_solver|].
  apply list.Forall_cons in Hacts as [Hr Hacts]. simpl in Hr.
  rewrite elem_of_cons. intros [->|Hb]; simpl.
  - etrans; [|apply count_all_mono]. unfold count_step. simpl.
    by rewrite list_lookup_total_insert_eq by done.
  - apply IH; [|done]. unfold count_step. by rewrite length_insert.
Qed.
End positions.

(** ** The parallel prefix sum *)

Definition sum_from (f : nat → nat) (s k : nat) : nat := sum_list_with f (seq s k).

Lemma sum_from_S f s k : sum_from f s (S k) = sum_from f s k + f (s + k).
Proof. unfold sum_from. rewrite seq_S, sum_list_with_app. simpl. lia. Qed.

Lemma sum_from_add f s k m : sum_from f s (k + m) = sum_from f s k + sum_from f (s + k) m.
Proof. unfold sum_from. by rewrite seq_app, sum_list_with_app. Qed.

Lemma sum_from_ext f g s k :
  (∀ i, s ≤ i < s + k → f i = g i) → sum_from f s k = sum_from g s k.
Proof.
  induction k as [|k IH]; intros Hfg; [done|]. rewrite !sum_from_S, IH, Hfg; [done|lia|].
  intros i Hi. apply Hfg. lia.
Qed.

Lemma sum_from_split f a b : a ≤ b → sum_from f 0 b = sum_from f 0 a + sum_from f a (b - a).
Proof. intros Hab. rewrite <- (sum_from_add f 0 a). f_equal. lia. Qed.

(** The array [p] holds the values of [f] on the first [n] indices. *)
Definition arr_is (p : list nat) (n : nat) (f : nat → nat) : Prop :=
  length p = n ∧ ∀ i, i < n → p !! i = Some (f i).

Lemma arr_is_ext p n f g : (∀ i, i < n → f i = g i) → arr_is p n f → arr_is p n g.
Proof. intros Hfg [Hl Hp]. split; [done|]. intros i Hi. by rewrite Hp, Hfg. Qed.

Lemma arr_is_insert p n f i x :
  i < n → arr_is p n f → arr_is (<[i := x]> p) n (λ j, if decide (j = i) then x else f j).
Proof.
  intros Hi [Hl Hp]. split; [by rewrite length_insert|]. intros j Hj. case_decide as Hji.
  - subst j. by rewrite list_lookup_insert_eq by lia.
  - rewrite list_lookup_insert_ne by done. by apply Hp.
Qed.

Section prefix_sums.
Context (part : nat → nat → nat → nat * nat) (n T : nat) (f : nat → nat).
Hypothesis Hp : partition_ok part n T.

Lemma prefix_run p g s k :
  arr_is p n g → s + k < n →
  ∃ p', foldl prefix_step (Ok p) (seq (S s) k) = Ok p' ∧
    arr_is p' n (λ i, if decide (s ≤ i ≤ s + k) then sum_from g s (S i - s) else g i).
Proof.
  intros Harr. induction k as [|k IH]; intros Hk.
  - eexists. split; [done|]. eapply arr_is_ext; [|done]. intros i Hi. simpl.
    case_decide; [|done]. replace i with s by lia. replace (S s - s) with 1 by lia.
    unfold sum_from. simpl. lia.
  - destruct IH as (p' & Hrun & Harr'); [lia|]. rewrite seq_S, foldl_app, Hrun. simpl.
    pose proof Harr' as [Hl Hlk].
    rewrite (arr_get_Ok _ _ _ (Hlk (S (s + k)) ltac:(lia))). simpl.
    rewrite (arr_get_Ok _ _ _ (Hlk (s + k - 0) ltac:(lia))). simpl.
    eexists. split; [done|]. eapply arr_is_ext; [|apply arr_is_insert; [|exact Harr']; lia].
    intros i Hi. simpl. rewrite (decide_False (P := s ≤ S (s + k) ≤ s + k)) by lia.
    rewrite (decide_True (P := s ≤ s + k - 0 ≤ s + k)) by lia.
    destruct (decide (i = S (s + k))) as [->|Hne].
    + rewrite decide_True by lia. replace (S (S (s + k)) - s) with (S (S k)) by lia.
      rewrite sum_from_S. replace (S (s + k - 0) - s) with (S k) by lia.
      replace (s + S k) with (S (s + k)) by lia. lia.
    + rewrite (decide_ext (s ≤ i ≤ s + k) (s ≤ i ≤ s + S k)) by lia. done.
Qed.

#[local] Abbreviation bound := (part_bound part n T).

(** The start of the segment an index is in. *)
Definition seg_start (i : nat) : nat := bound (get_partition_idx n i T).

Lemma seg_start_in t i : t < T → bound t ≤ i < bound (S t) → seg_start i = bound t.
Proof. intros Ht Hi. unfold seg_start. by rewrite (part_bound_inverse _ _ _ Hp t i). Qed.

Lemma segment_sums_ok p :
  arr_is p n f →
  ∃ p', segment_sums part n T p = Ok p' ∧
    arr_is p' n (λ i, sum_from f (seg_start i) (S i - seg_start i)).
Proof.
  intros Harr.
  assert (∀ k, k ≤ T → ∃ p',
    foldl (λ st t, foldl prefix_step st
      (seq (S (partition part n T t).1) ((partition part n T t).2 - S (partition part n T t).1)))
      (Ok p) (seq 0 k) = Ok p' ∧
    arr_is p' n (λ i, if decide (i < bound k)
      then sum_from f (seg_start i) (S i - seg_start i) else f i)) as Hk.
  { induction k as [|k IH]; intros Hk.
    - exists p. split; [done|]. eapply arr_is_ext; [|done]. intros i Hi.
      by rewrite (part_bound_0 _ _ _ Hp), decide_False by lia.
    - destruct IH as (p1 & Hrun & Harr1); [lia|].
      rewrite seq_S, foldl_app, Hrun. cbn [foldl]. unfold partition.
      rewrite (part_bounds _ _ _ Hp (0 + k)) by done. simpl.
      pose proof (part_bound_lt _ _ _ Hp k Hk) as Hne.
      pose proof (part_bound_le _ _ _ Hp (S k) T Hk ltac:(done)) as Hle.
      rewrite part_bound_T in Hle.
      destruct (prefix_run p1 _ (bound k) (bound (S k) - S (bound k)) Harr1)
        as (p2 & Hrun2 & Harr2); [lia|].
      exists p2. split; [exact Hrun2|]. eapply arr_is_ext; [|exact Harr2].
      intros i Hi. simpl. destruct (decide (i < bound k)) as [Hlt|Hge].
      + by rewrite decide_False, decide_True by lia.
      + destruct (decide (i < bound (S k))) as [Hlt'|Hge']; [|by rewrite decide_False by lia].
        rewrite decide_True, (seg_start_in k i) by lia.
        apply sum_from_ext. intros j Hj. by rewrite decide_False by lia. }
  destruct (Hk T ltac:(done)) as (p' & Hrun & Harr'). exists p'. split; [exact Hrun|].
  eapply arr_is_ext; [|exact Harr']. intros i Hi. simpl.
  by rewrite part_bound_T, decide_True by done.
Qed.

Lemma range_sums_ok p t :
  arr_is p n (λ i, sum_from f (seg_start i) (S i - seg_start i)) → t < T →
  range_sums part n T p t = Ok (sum_from f 0 (bound t)).
Proof.
  intros [Hl Harr]. induction t as [|t IH]; intros Ht; cbn [range_sums].
  - by rewrite (part_bound_0 _ _ _ Hp).
  - rewrite IH by lia. unfold mbind, outcome_bind, partition. rewrite (part_bounds _ _ _ Hp t) by lia.
    pose proof (part_bound_lt _ _ _ Hp t ltac:(lia)) as Hlt.
    pose proof (part_bound_le _ _ _ Hp (S t) T ltac:(lia) ltac:(done)) as Hle.
    rewrite part_bound_T in Hle. simpl.
    rewrite (arr_get_Ok _ _ _ (Harr (bound (S t) - 1) ltac:(lia))). simpl.
    rewrite (seg_start_in t) by lia. f_equal.
    rewrite (sum_from_split f (bound t) (bound (S t))) by lia.
    replace (S (bound (S t) - 1) - bound t) with (bound (S t) - bound t) by lia. lia.
Qed.

Lemma add_run k p g s m :
  arr_is p n g → s + m ≤ n →
  ∃ p', foldl (add_step k) (Ok p) (seq s m) = Ok p' ∧
    arr_is p' n (λ i, if decide (s ≤ i < s + m) then g i + k else g i).
Proof.
  intros Harr. induction m as [|m IH]; intros Hm.
  - eexists. split; [done|]. eapply arr_is_ext; [|done]. intros i Hi. simpl.
    by rewrite decide_False by lia.
  - destruct IH as (p' & Hrun & Harr'); [lia|]. rewrite seq_S, foldl_app, Hrun. simpl.
    pose proof Harr' as [Hl Hlk].
    rewrite (arr_get_Ok _ _ _ (Hlk (s + m) ltac:(lia))). simpl.
    eexists. split; [done|]. eapply arr_is_ext; [|apply arr_is_insert; [|exact Harr']; lia].
    intros i Hi. simpl. rewrite (decide_False (P := s ≤ s + m < s + m)) by lia.
    destruct (decide (i = s + m)) as [->|Hne]; [by rewrite decide_True by lia|].
    rewrite (decide_ext (s ≤ i < s + m) (s ≤ i < s + S m)) by lia. done.
Qed.

(** The second pass turns the sums of the segments into sums from 0. *)
Lemma finish_sums_ok p :
  arr_is p n (λ i, sum_from f (seg_start i) (S i - seg_start i)) →
  ∃ p', finish_sums part n T p = Ok p' ∧ arr_is p' n (λ i, sum_from f 0 (S i)).
Proof.
  intros Harr. unfold finish_sums.
  rewrite (outcome_list_fmap _ (λ t, sum_from f 0 (bound t))).
  2: { intros t Ht. apply elem_of_seq in Ht. apply range_sums_ok; [done|lia]. }
  simpl. pose proof (po_threads _ _ _ Hp) as HT.
  assert (∀ k, S k ≤ T → ∃ p',
    foldl (λ st t, foldl (add_step (((λ t, sum_from f 0 (bound t)) <$> seq 0 T) !!! t)) st
      (segment (partition part n T t))) (Ok p) (seq 1 k) = Ok p' ∧
    arr_is p' n (λ i, if decide (i < bound (S k)) then sum_from f 0 (S i)
      else sum_from f (seg_start i) (S i - seg_start i))) as Hk.
  { induction k as [|k IH]; intros Hk.
    - exists p. split; [done|]. eapply arr_is_ext; [|done]. intros i Hi. simpl.
      case_decide as Hlt; [|done].
      rewrite (seg_start_in 0 i), (part_bound_0 _ _ _ Hp); [by rewrite Nat.sub_0_r|lia|].
      rewrite (part_bound_0 _ _ _ Hp). lia.
    - destruct IH as (p1 & Hrun & Harr1); [lia|].
      rewrite seq_S, foldl_app, Hrun. cbn [foldl]. unfold partition, segment.
      rewrite (part_bounds _ _ _ Hp (1 + k)) by lia. cbn [fst snd Nat.add].
      rewrite (list_lookup_total_correct _ _ (sum_from f 0 (bound (S k)))).
      2: { rewrite list_lookup_fmap, lookup_seq_lt by lia. done. }
      pose proof (part_bound_lt _ _ _ Hp (S k) Hk) as Hne.
      pose proof (part_bound_le _ _ _ Hp (S (S k)) T Hk ltac:(done)) as Hle.
      rewrite part_bound_T in Hle.
      destruct (add_run (sum_from f 0 (bound (S k))) p1 _ (bound (S k))
        (bound (S (S k)) - bound (S k)) Harr1) as (p2 & Hrun2 & Harr2); [lia|].
      exists p2. split; [exact Hrun2|]. eapply arr_is_ext; [|exact Harr2].
      intros i Hi. simpl. destruct (decide (i < bound (S k))) as [Hlt|Hge].
      + by rewrite decide_False, decide_True by lia.
      + destruct (decide (i < bound (S (S k)))) as [Hlt'|Hge']; [|by rewrite decide_False by lia].
        rewrite decide_True, (seg_start_in (S k) i) by lia.
        rewrite (sum_from_split f (bound (S k)) (S i)) by lia. lia. }
  destruct (Hk (T - 1) ltac:(lia)) as (p' & Hrun & Harr'). exists p'. split; [exact Hrun|].
  eapply arr_is_ext; [|exact Harr']. intros i Hi. simpl.
  replace (S (T - 1)) with T by lia. by rewrite part_bound_T, decide_True by done.
Qed.
End prefix_sums.

(** ** Writes *)

Lemma writes_ok acts m :
  NoDup (acts.*2.*1) → Forall (λ p, p < length m) (acts.*2.*1) →
  ∃ m', foldl write_step (Ok m) acts = Ok m' ∧ length m' = length m ∧
    (∀ p x, (p, x) ∈ acts.*2 → m' !! p = Some x) ∧
    (∀ p, p ∉ acts.*2.*1 → m' !! p = m !! p).
Proof.
  revert m. induction acts as [|[t [p x]] acts IH]; intros m Hnd Hlt; simpl.
  { exists m. split_and!; try done. intros p x Hp. set_solver. }
  apply list.NoDup_cons in Hnd as [Hnp Hnd]. apply list.Forall_cons in Hlt as [Hp Hlt].
  rewrite arr_set_Ok by done.
  destruct (IH (<[p := x]> m)) as (m' & Hrun & Hlen & Hin & Hout); [done| |].
  { by rewrite length_insert. }
  exists m'. rewrite length_insert in Hlen. split_and!; try done.
  - intros q y. rewrite elem_of_cons. intros [Hq|Hq]; [|by apply Hin]. simplify_eq.
    rewrite Hout by done. by apply list_lookup_insert_eq.
  - intros q Hq. apply not_elem_of_cons in Hq as [Hq Hq']. rewrite Hout by done.
    by apply list_lookup_insert_ne.
Qed.

(** Writing every position once permutes the values into the array. *)
Lemma writes_perm acts m :
  acts.*2.*1 ≡ₚ seq 0 (length m) →
  ∃ m', foldl write_step (Ok m) acts = Ok m' ∧ m' ≡ₚ acts.*2.*2 ∧
    (∀ p x, (p, x) ∈ acts.*2 → m' !! p = Some x) ∧
    (∀ p x, m' !! p = Some x → (p, x) ∈ acts.*2).
Proof.
  intros Hperm. destruct (writes_ok acts m) as (m' & Hrun & Hlen & Hin & _).
  { rewrite Hperm. apply NoDup_seq. }
  { rewrite Hperm. apply Forall_seq. lia. }
  assert (∀ p x, m' !! p = Some x → (p, x) ∈ acts.*2) as Hback.
  { intros p x Hpx. assert (p ∈ acts.*2.*1) as Hp.
    { rewrite Hperm. apply elem_of_seq. apply lookup_lt_Some in Hpx. lia. }
    apply list_elem_of_fmap in Hp as ([q y] & -> & Hq). apply Hin in Hq as Hy. simpl in *. congruence. }
  exists m'. split; [done|]. split; [|done].
  assert (m' = (λ p, default (mkInstr 0 0) (m' !! p)) <$> seq 0 (length m)) as ->.
  { apply list_eq. intros i. rewrite list_lookup_fmap. destruct (decide (i < length m)) as [Hi|Hi].
    - rewrite lookup_seq_lt by done. simpl.
      destruct (lookup_lt_is_Some_2 m' i) as [x Hx]; [lia|]. by rewrite Hx.
    - rewrite lookup_seq_ge by lia. simpl. apply lookup_ge_None. lia. }
  rewrite <- Hperm. rewrite <- !list_fmap_compose. apply reflexive_eq, list_fmap_ext.
  intros i [t [p x]] Hi. simpl. rewrite (Hin p x); [done|].
  apply list_elem_of_fmap. eexists (t, (p, x)). split; [done|]. by eapply list_elem_of_lookup_2.
Qed.

Lemma placements_ok (P : nat → nat) n p l idx :
  arr_is p n (λ i, P (S i)) → P 0 = 0 → Forall (λ x, x.1 ≤ n) l →
  placements p l idx = Ok (concat (block_writes P <$> zip l idx)).
Proof.
  intros [_ Hp] H0. revert idx. induction l as [|[r vs] l IH]; intros idx Hl; [done|].
  apply list.Forall_cons in Hl as [Hr Hl]. simpl in Hr. destruct idx as [|i idx]; [done|].
  unfold placements in *. simpl. rewrite IH by done. clear IH.
  assert ((if decide (0 < r) then arr_get p (r - 1) else Ok 0) = Ok (P r)) as ->; [|done].
  destruct r as [|r]; [simpl; by rewrite H0|]. rewrite decide_True by lia.
  apply arr_get_Ok. rewrite Nat.sub_succ, Nat.sub_0_r. apply Hp. lia.
Qed.

(** ** Correctness *)

Record instrs_ok (n : nat) (p : list nat) (m : list MergeInstr) : Prop := {
  io_perm : child <$> m ≡ₚ seq 0 n;
  io_root : ∀ x, x ∈ m → root_of p (child x) (root x);
  io_sorted : ∀ i j x y, m !! i = Some x → m !! j = Some y → i < j → root x ≤ root y;
}.

Lemma concat_concat_fmap {A B} (f : A → list B) (ls : list (list A)) :
  concat (f <$> concat ls) = concat ((λ l, concat (f <$> l)) <$> ls).
Proof.
  induction ls as [|l ls IH]; simpl; [done|]. by rewrite fmap_app, concat_app, IH.
Qed.

Lemma children_segments part n T m :
  partition_ok part n T → length m = n →
  outcome_list ((λ t, outcome_list ((λ i, child <$> arr_get m i) <$> segment (partition part n T t)))
    <$> seq 0 T) =
  Ok ((λ t, (λ i, (child <$> m) !!! i) <$> segment (partition part n T t)) <$> seq 0 T) ∧
  concat ((λ t, (λ i, (child <$> m) !!! i) <$> segment (partition part n T t)) <$> seq 0 T) = child <$> m.
Proof.
  intros Hp Hm. split.
  - apply outcome_list_fmap. intros t Ht. apply elem_of_seq in Ht. apply outcome_list_fmap.
    intros i Hi. unfold segment in Hi. apply elem_of_seq in Hi.
    pose proof (part_end_le _ _ _ Hp t ltac:(lia)) as Hle. fold (partition part n T t) in Hle.
    destruct (lookup_lt_is_Some_2 m i) as [x Hx]; [lia|].
    rewrite (arr_get_Ok _ _ _ Hx). simpl. f_equal. symmetry. apply list_lookup_total_correct.
    by rewrite list_lookup_fmap, Hx.
  - pose proof (part_segments _ _ _ Hp) as Hs.
    apply (f_equal (fmap (λ i, (child <$> m) !!! i))) in Hs.
    etrans; [|etrans; [exact Hs|]].
    + clear. unfold segment, partition. induction (seq 0 T) as [|t l IH]; [done|].
      rewrite !fmap_cons, !concat_cons, fmap_app. by f_equal.
    + apply list_eq. intros i. rewrite list_lookup_fmap. destruct (decide (i < n)) as [Hi|Hi].
      * rewrite lookup_seq_lt by done. simpl. symmetry. apply list_lookup_lookup_total_lt.
        by rewrite length_fmap, Hm.
      * rewrite lookup_seq_ge by lia. symmetry. apply lookup_ge_None. rewrite length_fmap. lia.
Qed.

Lemma concat_fst {A B} (l : list (list (A * B))) : (concat l).*1 = concat ((λ x, x.*1) <$> l).
Proof. induction l as [|x l IH]; simpl; [done|]. by rewrite fmap_app, IH. Qed.

Lemma concat_fmap_in {A B} (f : A → B) (l : list (list A)) :
  f <$> concat l = concat ((λ x : list A, f <$> x) <$> l).
Proof. induction l as [|x l IH]; simpl; [done|]. by rewrite fmap_app, IH. Qed.

Lemma length_concat_ext {A B C} (f : A → list B) (g : A → list C) (l : list A) :
  (∀ x, length (f x) = length (g x)) → length (concat (f <$> l)) = length (concat (g <$> l)).
Proof.
  intros Hfg. induction l as [|x l IH]; [done|].
  by rewrite !fmap_cons, !concat_cons, !length_app, Hfg, IH.
Qed.

Section blocks.
Context (n : nat) (R : nat → nat) (ls : list local_ccs) (order : list nat).
Hypothesis Hls : Forall (local_ok n R) ls.
Hypothesis Hch : concat (children_of <$> ls) ≡ₚ seq 0 n.

Let A := interleave order ls.
Let cnt0 : list nat := replicate n 0.
Let ann := annotate cnt0 A.

(** The number of nodes of each root and the start of its block. *)
Definition block_size (r : nat) : nat := count_all cnt0 A !!! r.
Definition block_start : nat → nat := sum_from block_size 0.

Lemma acts_entry a : a ∈ A → a.1 < length ls ∧ a.2.1 < n ∧ Forall (λ c, R c = a.2.1) a.2.2.
Proof.
  intros Ha. split; [by eapply interleave_lt|].
  assert (a.2 ∈ concat ls) as Hc.
  { rewrite <- (interleave_perm order ls). by apply list_elem_of_fmap_2. }
  apply list_elem_of_In, in_concat in Hc as (l & Hl & Hal).
  apply list_elem_of_In in Hl, Hal. rewrite list.Forall_forall in Hls.
  specialize (Hls l Hl). unfold local_ok in Hls. rewrite list.Forall_forall in Hls.
  by apply Hls.
Qed.

Lemma acts_ok : Forall (λ a, a.1 < length ls ∧ a.2.1 < n) A.
Proof. apply list.Forall_forall. intros a Ha. by apply acts_entry in Ha as (? & ? & _). Qed.

Lemma annotate_forget acts cnt : (annotate cnt acts).*2.*1 = acts.*2.
Proof.
  revert cnt. induction acts as [|[t [r vs]] acts IH]; intros cnt; simpl; [done|]. by rewrite IH.
Qed.

Lemma ann_children : concat ((λ b, b.1.2) <$> ann.*2) ≡ₚ seq 0 n.
Proof.
  assert ((λ b : nat * list nat * nat, b.1.2) <$> ann.*2 = A.*2.*2) as ->.
  { unfold ann. rewrite <- (annotate_forget A cnt0), <- !list_fmap_compose. done. }
  rewrite <- Hch. etrans; [apply (concat_fmap_perm snd), (interleave_perm order ls)|].
  by rewrite concat_concat_fmap.
Qed.

Lemma block_start_S r : block_start (S r) = block_start r + block_size r.
Proof. apply sum_from_S. Qed.

Lemma ann_positions : concat (block_pos block_start <$> ann.*2) ≡ₚ seq 0 n.
Proof.
  pose proof (positions_perm block_start n A cnt0) as Hp.
  rewrite (taken_total block_start n (count_all cnt0 A)) in Hp; [|done|intros; apply block_start_S].
  assert (taken block_start n cnt0 = []) as H0.
  { unfold taken, cnt0. assert (∀ l : list nat, (∀ x, x ∈ l → x < n) →
      concat ((λ r, seq (block_start r) (replicate n 0 !!! r)) <$> l) = []) as Hl.
    { induction l as [|x l IH]; intros Hl; [done|]. rewrite fmap_cons, concat_cons.
      rewrite lookup_total_replicate_2 by set_solver. simpl. apply IH. set_solver. }
    apply Hl. intros x Hx. apply elem_of_seq in Hx. lia. }
  rewrite H0 in Hp. specialize (Hp ltac:(apply length_replicate)).
  assert (Forall (λ a : nat * (nat * list nat), a.2.1 < n) A) as HA.
  { eapply Forall_impl; [exact acts_ok|]. by intros a [_ ?]. }
  specialize (Hp HA). simpl in Hp. change (annotate cnt0 A) with ann in Hp.
  rewrite Hp. apply Permutation_length in Hp.
  rewrite (length_concat_ext _ (λ b, b.1.2)), ann_children, !length_seq in Hp.
  - by rewrite <- Hp.
  - intros b. apply length_seq.
Qed.

Definition all_writes : list (nat * MergeInstr) := concat (block_writes block_start <$> ann.*2).

Lemma all_writes_positions : all_writes.*1 ≡ₚ seq 0 n.
Proof.
  unfold all_writes. rewrite concat_fst, <- list_fmap_compose, <- ann_positions.
  apply reflexive_eq. f_equal. apply list_fmap_ext. intros i b _. apply block_writes_pos.
Qed.

Lemma all_writes_children : child <$> all_writes.*2 ≡ₚ seq 0 n.
Proof.
  unfold all_writes. rewrite <- list_fmap_compose, concat_fmap_in, <- list_fmap_compose.
  rewrite <- ann_children. apply reflexive_eq. f_equal. apply list_fmap_ext.
  intros i b _. simpl. rewrite list_fmap_compose. apply block_writes_child.
Qed.

Lemma all_writes_elem p x :
  (p, x) ∈ all_writes →
  R (child x) = root x ∧ block_start (root x) ≤ p < block_start (S (root x)).
Proof.
  unfold all_writes. intros Hx. apply list_elem_of_In, in_concat in Hx as (l & Hl & Hx).
  apply list_elem_of_In in Hl, Hx. apply list_elem_of_fmap in Hl as (b & -> & Hb).
  assert (b.1 ∈ A.*2) as HbA.
  { rewrite <- (annotate_forget A cnt0). by apply list_elem_of_fmap_2. }
  apply list_elem_of_fmap in HbA as (a & Hba & Ha). apply acts_entry in Ha as (_ & _ & HR).
  rewrite <- Hba in HR.
  pose proof (annotate_bound A cnt0 b) as Hbound. fold ann in Hbound.
  assert (b.2 + length b.1.2 ≤ block_size b.1.1) as Hle.
  { apply Hbound; [|done]. eapply Forall_impl; [exact acts_ok|].
    intros a'. unfold cnt0. rewrite length_replicate. tauto. }
  unfold block_writes in Hx. apply list_elem_of_lookup in Hx as [j Hj].
  rewrite list_lookup_imap in Hj. destruct (b.1.2 !! j) as [v|] eqn:Hv; simpl in Hj; [|done].
  injection Hj as <- <-. simpl. split.
  - rewrite list.Forall_forall in HR. apply HR. by eapply list_elem_of_lookup_2.
  - rewrite block_start_S. apply lookup_lt_Some in Hv. lia.
Qed.

Lemma block_start_mono r r' : r ≤ r' → block_start r ≤ block_start r'.
Proof. unfold block_start. intros Hr. rewrite (sum_from_split _ r r') by done. lia. Qed.

(** What the array holds once every write is done, in any order. *)
Lemma writes_sorted acts m :
  length m = n → acts.*2 ≡ₚ all_writes →
  ∃ m', foldl write_step (Ok m) acts = Ok m' ∧ child <$> m' ≡ₚ seq 0 n ∧
    (∀ x, x ∈ m' → R (child x) = root x) ∧
    (∀ i j x y, m' !! i = Some x → m' !! j = Some y → i < j → root x ≤ root y).
Proof.
  intros Hm Hacts. destruct (writes_perm acts m) as (m' & Hrun & Hp & _ & Hback).
  { by rewrite Hacts, all_writes_positions, Hm. }
  assert (∀ i x, m' !! i = Some x → R (child x) = root x ∧
    block_start (root x) ≤ i < block_start (S (root x))) as Hel.
  { intros i x Hi. apply all_writes_elem. rewrite <- Hacts. by apply Hback. }
  exists m'. split; [done|]. split; [by rewrite Hp, Hacts, all_writes_children|]. split.
  - intros x Hx. apply list_elem_of_lookup in Hx as [i Hi]. by eapply Hel.
  - intros i j x y Hx Hy Hij. apply Hel in Hx as [_ Hx]. apply Hel in Hy as [_ Hy].
    apply Nat.nlt_ge. intros Hlt. pose proof (block_start_mono (S (root y)) (root x) Hlt). lia.
Qed.
End blocks.

(** The root [find_root] answers. *)
Definition root_fun (d : DSU) (c : nat) : nat :=
  match find_root d c with Ok (r, _) => r | Throw _ => 0 end.

Lemma root_fun_roots n d : dsu_wf d → dsu_n d = n → roots_are n (root_fun d) d.
Proof.
  intros Hwf Hn. split_and!; [done..|]. intros c Hc. unfold root_fun.
  by destruct (find_root_spec d c) as (r & d' & -> & Hr & _); [done|lia|].
Qed.

Lemma roots_are_rel n R d x y :
  roots_are n R d → x < n → y < n → dsu_rel d x y ↔ R x = R y.
Proof.
  intros (_ & _ & HR) Hx Hy. split.
  - intros (r & Hxr & Hyr).
    by rewrite (root_of_det _ _ _ _ (HR x Hx) Hxr), (root_of_det _ _ _ _ (HR y Hy) Hyr).
  - intros Heq. exists (R x). split; [by apply HR|]. rewrite Heq. by apply HR.
Qed.

Lemma map_order_local_ok n R f (ls : list local_ccs) :
  (∀ l, f l ≡ₚ l) → Forall (local_ok n R) ls → Forall (local_ok n R) (f <$> ls).
Proof.
  intros Hf Hls. apply Forall_fmap. eapply Forall_impl; [exact Hls|].
  intros l Hl. simpl. unfold local_ok. by rewrite Hf.
Qed.

Lemma map_order_children f (ls : list local_ccs) :
  (∀ l, f l ≡ₚ l) → concat (children_of <$> (f <$> ls)) ≡ₚ concat (children_of <$> ls).
Proof.
  intros Hf. induction ls as [|l ls IH]; [done|]. rewrite !fmap_cons, !concat_cons, IH.
  apply Permutation_app_tail. apply (concat_fmap_perm snd), Hf.
Qed.

(** The writes of the threads together are the writes of all blocks. *)
Lemma thread_writes n R (ls : list local_ccs) order wo p :
  Forall (local_ok n R) ls → concat (children_of <$> ls) ≡ₚ seq 0 n →
  arr_is p n (λ i, block_start n ls order (S i)) →
  ∃ ws, outcome_list (zip_with (placements p) ls
      (imap (λ t l, l ++ (thread_of t (annotate (replicate n 0) (interleave order ls))).*2)
         (replicate (length ls) []))) = Ok ws ∧
    (interleave wo ws).*2 ≡ₚ all_writes n ls order.
Proof.
  intros Hls Hch Hp. set (A := interleave order ls). set (ann := annotate (replicate n 0) A).
  assert (zip_with (placements p) ls
      (imap (λ t l, l ++ (thread_of t ann).*2) (replicate (length ls) [])) =
    (λ t, placements p (thread_of t ann).*1 (thread_of t ann).*2) <$> seq 0 (length ls)) as ->.
  { apply list_eq. intros i. rewrite lookup_zip_with, list_lookup_imap, list_lookup_fmap.
    destruct (decide (i < length ls)) as [Hi|Hi].
    - rewrite lookup_replicate_2, lookup_seq_lt by done.
      destruct (lookup_lt_is_Some_2 ls i Hi) as [l Hl]. rewrite Hl. simpl.
      unfold ann. rewrite thread_of_annotate_fst. unfold A. rewrite thread_of_interleave.
      repeat f_equal. symmetry. exact (f_equal (default []) Hl).
    - rewrite lookup_seq_ge, (lookup_ge_None_2 ls) by lia. done. }
  rewrite (outcome_list_fmap _ (λ t, concat (block_writes (block_start n ls order) <$> thread_of t ann))).
  - eexists. split; [done|]. rewrite interleave_perm. unfold all_writes. fold A ann.
    rewrite <- (thread_of_concat (length ls) ann).
    + by rewrite concat_concat_fmap, <- list_fmap_compose.
    + intros x Hx. assert (x.1 ∈ A.*1) as Hx1.
      { assert (ann.*1 = A.*1) as <-; [|by apply list_elem_of_fmap_2].
        unfold ann. clear. generalize (replicate n 0). induction A as [|[t [r vs]] A IH]; intros c;
          simpl; [done|]. by rewrite IH. }
      apply list_elem_of_fmap in Hx1 as (a & -> & Ha). by apply interleave_lt in Ha.
  - intros t Ht. rewrite (placements_ok (block_start n ls order) n); [|done|done|].
    + by rewrite zip_fst_snd.
    + unfold ann. rewrite thread_of_annotate_fst. unfold thread_of. apply Forall_fmap.
      apply list.Forall_forall. intros a Ha. apply list_elem_of_filter in Ha as [_ Ha].
      destruct (acts_entry n R ls order Hls a Ha) as (_ & Hr & _). simpl. lia.
Qed.

(** Whatever the interleaving, the result lists every node once, under the root
    of its component, in the order of the roots. *)
Lemma create_merge_instructions_ok part n T sch d m :
  dsu_wf d → dsu_n d = n → child <$> m ≡ₚ seq 0 n →
  partition_ok part n T → (∀ l, map_order sch l ≡ₚ l) →
  ∃ d' m', create_merge_instructions part n T sch d m = Ok (d', m') ∧
    dsu_wf d' ∧ dsu_n d' = n ∧ (∀ x y, x < n → y < n → dsu_rel d' x y ↔ dsu_rel d x y) ∧
    instrs_ok n (parent d') m'.
Proof.
  intros Hwf Hn Hm Hp Hmap. set (R := root_fun d).
  assert (length m = n) as Hlen.
  { apply Permutation_length in Hm. by rewrite length_fmap, length_seq in Hm. }
  assert (roots_are n R d) as Hroots by by apply root_fun_roots.
  destruct (children_segments part n T m Hp Hlen) as [Hc1 Hc2].
  unfold create_merge_instructions. rewrite Hc1. cbn [mbind outcome_bind]. clear Hc1.
  set (children := (λ t, _) <$> seq 0 T) in *.
  destruct (lookups_ok n R (interleave (lookup_order sch) children) d (replicate T []))
    as (d' & ls & -> & Hd' & Hls & Hlls & Hch).
  { done. } { apply Forall_replicate. constructor. }
  { apply list.Forall_forall. intros a Ha. rewrite length_replicate. split.
    - apply interleave_lt in Ha. unfold children in Ha. by rewrite length_fmap, length_seq in Ha.
    - assert (a.2 ∈ seq 0 n) as Hin; [|apply elem_of_seq in Hin; lia].
      rewrite <- Hm, <- Hc2, <- (interleave_perm (lookup_order sch)). by apply list_elem_of_fmap_2. }
  assert (concat (children_of <$> replicate T ([] : local_ccs)) = []) as H0.
  { clear. by induction T. }
  rewrite H0, app_nil_r, interleave_perm, Hc2, Hm in Hch. rewrite length_replicate in Hlls.
  cbn [mbind outcome_bind]. set (ls' := map_order sch <$> ls).
  assert (Forall (local_ok n R) ls') as Hls' by by apply map_order_local_ok.
  assert (concat (children_of <$> ls') ≡ₚ seq 0 n) as Hch'.
  { unfold ls'. by rewrite map_order_children. }
  assert (length ls' = T) as Hl' by (unfold ls'; by rewrite length_fmap).
  rewrite captures_ok.
  2: { eapply Forall_impl; [by apply (acts_ok n R)|]. intros a. by rewrite !length_replicate, Hl'. }
  cbn [mbind outcome_bind].
  destruct (segment_sums_ok part n T (block_size n ls' (capture_order sch)) Hp
    (count_all (replicate n 0) (interleave (capture_order sch) ls'))) as (p1 & -> & Hp1).
  { split; [by rewrite length_count_all, length_replicate|]. intros i Hi.
    apply list_lookup_lookup_total_lt. by rewrite length_count_all, length_replicate. }
  cbn [mbind outcome_bind].
  destruct (finish_sums_ok part n T _ Hp p1 Hp1) as (p2 & -> & Hp2). cbn [mbind outcome_bind].
  destruct (thread_writes n R ls' (capture_order sch) (write_order sch) p2 Hls' Hch' Hp2)
    as (ws & Hws & Hwp).
  rewrite Hl' in Hws. rewrite Hws. cbn [mbind outcome_bind].
  destruct (writes_sorted n R ls' (capture_order sch) Hls' Hch' _ m Hlen Hwp)
    as (m' & -> & Hperm & Hroot & Hsort).
  exists d', m'. pose proof Hd' as (Hwf' & Hn' & HR'). split_and!; try done.
  - intros x y Hx Hy. by rewrite (roots_are_rel n R d'), (roots_are_rel n R d).
  - constructor; [done| |done]. intros x Hx. rewrite <- Hroot by done. apply HR'.
    assert (child x ∈ seq 0 n) as Hin; [|apply elem_of_seq in Hin; lia].
    rewrite <- Hperm. by apply list_elem_of_fmap_2.
Qed.

(** ** The last thread of a component *)

Section search.
Context (n : nat) (n_ok : (N.of_nat n < 2 ^ 32)%N) (p : list nat) (m : list MergeInstr).
Hypothesis Hm : instrs_ok n p m.

Lemma instrs_length : length m = n.
Proof.
  pose proof (Permutation_length (io_perm _ _ _ Hm)) as Hl.
  by rewrite length_fmap, length_seq in Hl.
Qed.

Lemma instr_child_lt x : x ∈ m → child x < n.
Proof.
  intros Hx. assert (child x ∈ seq 0 n) as Hin; [|apply elem_of_seq in Hin; lia].
  rewrite <- (io_perm _ _ _ Hm). by apply list_elem_of_fmap_2.
Qed.

Lemma target_above i x r :
  m !! i = Some x → instr_ltb x (mkInstr r (N.to_nat (2 ^ 32 - 1))) = true ↔ root x ≤ r.
Proof.
  intros Hx. pose proof (instr_child_lt x ltac:(by eapply list_elem_of_lookup_2)).
  unfold instr_ltb. simpl root. simpl child. case_decide; rewrite bool_decide_eq_true; lia.
Qed.

(** The search returns the first index of the range whose root exceeds [r], or
    the end of the range. *)
Lemma last_of_root_loop_ok fuel r mn mx :
  mx < n → mx - mn < fuel → mn ≤ mx →
  ∃ i, last_of_root_loop fuel m r mn mx = Ok i ∧ mn ≤ i ≤ mx ∧
    (∀ j x, mn ≤ j < i → m !! j = Some x → root x ≤ r) ∧
    (i < mx → ∀ x, m !! i = Some x → r < root x).
Proof.
  revert mn mx. induction fuel as [|fuel IH]; intros mn mx Hmx Hf Hle; [lia|].
  cbn [last_of_root_loop]. case_decide as Hlt.
  2: { exists mn. split; [done|]. split; [lia|]. split; intros; lia. }
  pose proof (Nat.div_lt (mx - mn) 2 ltac:(lia) ltac:(lia)) as Hdiv.
  set (mid := mn + (mx - mn) / 2) in *. assert (mn ≤ mid < mx) as Hmid by lia.
  destruct (lookup_lt_is_Some_2 m mid) as [x Hx]; [rewrite instrs_length; lia|].
  rewrite (arr_get_Ok _ _ _ Hx). cbn [mbind outcome_bind].
  pose proof (target_above mid x r Hx) as Ht.
  destruct (instr_ltb x _).
  - destruct (IH (mid + 1) mx) as (i & -> & Hi & Hbelow & Hat); [lia..|].
    exists i. split; [done|]. split; [lia|]. split; [|done]. intros j y Hj Hy.
    destruct (decide (j ≤ mid)) as [Hjm|]; [|apply (Hbelow j); [lia|done]].
    etrans; [|by apply Ht]. destruct (decide (j = mid)) as [->|]; [by simplify_eq|].
    apply (io_sorted _ _ _ Hm j mid); [done..|lia].
  - destruct (IH mn mid) as (i & -> & Hi & Hbelow & Hat); [lia..|].
    exists i. split; [done|]. split; [lia|]. split; [done|]. intros _ y Hy.
    destruct (decide (i < mid)) as [|Hge]; [by apply Hat|].
    replace i with mid in Hy by lia. simplify_eq.
    apply Nat.nle_gt. intros Hle'. apply Ht in Hle'. done.
Qed.

Lemma last_of_root_ok r k x min_hint :
  m !! k = Some x → root x = r → min_hint ≤ k →
  ∃ l y, last_of_root m r min_hint = Ok l ∧ k ≤ l ∧ m !! l = Some y ∧ root y = r ∧
    ∀ j z, l < j → m !! j = Some z → r < root z.
Proof.
  intros Hk Hr Hh. pose proof (lookup_lt_Some _ _ _ Hk) as Hkn. rewrite instrs_length in Hkn.
  unfold last_of_root. rewrite instrs_length.
  destruct (last_of_root_loop_ok (S n) r min_hint (n - 1)) as (i & -> & Hi & Hbelow & Hat); [lia..|].
  cbn [mbind outcome_bind].
  destruct (lookup_lt_is_Some_2 m i) as [y Hy]; [rewrite instrs_length; lia|].
  rewrite (arr_get_Ok _ _ _ Hy). cbn [mbind outcome_bind]. case_decide as Hyr.
  - exists i, y. split; [done|].
    assert (i = n - 1) as Hin.
    { destruct (decide (i < n - 1)) as [Hlt|]; [|lia]. specialize (Hat Hlt y Hy). lia. }
    split_and!; [lia|done|done|]. intros j z Hj Hz.
    apply lookup_lt_Some in Hz. rewrite instrs_length in Hz. lia.
  - assert (k < i ∧ r < root y) as [Hki Hry].
    { destruct (decide (i < n - 1)) as [Hlt|Hge].
      - specialize (Hat Hlt y Hy). split; [|done]. apply Nat.nle_gt. intros Hik.
        destruct (decide (i = k)) as [->|]; [simplify_eq; lia|].
        pose proof (io_sorted _ _ _ Hm i k y x Hy Hk ltac:(lia)). lia.
      - destruct (decide (k = i)) as [->|]; [simplify_eq; lia|].
        pose proof (io_sorted _ _ _ Hm k i x y Hk Hy ltac:(lia)). lia. }
    destruct (lookup_lt_is_Some_2 m (i - 1)) as [z Hz]; [rewrite instrs_length; lia|].
    exists (i - 1), z. split; [done|].
    assert (root z = r) as Hzr.
    { pose proof (Hbelow (i - 1) z ltac:(lia) Hz).
      destruct (decide (k = i - 1)) as [->|]; [by simplify_eq|].
      pose proof (io_sorted _ _ _ Hm k (i - 1) x z Hk Hz ltac:(lia)). lia. }
    split_and!; [lia|done|done|]. intros j w Hj Hw.
    destruct (decide (j = i)) as [->|]; [by simplify_eq|].
    pose proof (io_sorted _ _ _ Hm i j y w Hy Hw ltac:(lia)). lia.
Qed.
End search.

(** ** Properties *)



(** On grouped instructions the binary search ends and finds the thread whose
    segment holds the last instruction of a root, which is the thread that owns
    the root's global merge. *)
Theorem last_partition_holds_last_instruction part n T p m r k x min_hint :
  (N.of_nat n < 2 ^ 32)%N → instrs_ok n p m → partition_ok part n T →
  m !! k = Some x → root x = r → min_hint ≤ k →
  ∃ t l y, find_last_partition_of_root m r min_hint T = Ok t ∧ t < T ∧
    (part n t T).1 ≤ l < (part n t T).2 ∧ m !! l = Some y ∧ root y = r ∧
    ∀ j z, l < j → m !! j = Some z → r < root z.
Proof.
  intros Hn Hm Hp Hk Hr Hh.
  destruct (last_of_root_ok n Hn p m Hm r k x min_hint Hk Hr Hh) as (l & y & Hl & _ & Hy & Hyr & Hlast).
  pose proof (lookup_lt_Some _ _ _ Hy) as Hlt. rewrite (instrs_length n p m Hm) in Hlt.
  destruct (part_bound_find part n T Hp l Hlt) as (t & Ht & Htl).
  exists t, l, y. unfold find_last_partition_of_root. rewrite Hl. cbn [mbind outcome_bind].
  rewrite (instrs_length n p m Hm), (part_bound_inverse part n T Hp t l Ht Htl).
  split_and!; try done; rewrite (part_bounds part n T Hp) by done; simpl; lia.
Qed.

Lemma last_partition_holds_last_instruction_witness :
  let m := [mkInstr 1 1; mkInstr 1 2; mkInstr 3 0; mkInstr 3 3] in
  ∃ t l y, find_last_partition_of_root m 1 0 2 = Ok t ∧ m !! l = Some y ∧ root y = 1.
Proof.
  intros m. destruct (last_partition_holds_last_instruction get_ith_partition 4 2 [3; 1; 1; 3] m
    1 0 (mkInstr 1 1) 0) as (t & l & y & H1 & _ & _ & H2 & H3 & _).
  - by vm_compute.
  - constructor.
    + by apply (bool_decide_unpack _); vm_compute.
    + intros x Hx. assert (x ∈ m) as Hx' by exact Hx. unfold m in Hx'.
      rewrite !elem_of_cons, elem_of_nil in Hx'.
      destruct Hx' as [->|[->|[->|[->|[]]]]]; simpl;
        first [by constructor|by eapply root_up; [reflexivity|lia|constructor]].
    + intros i j x y Hx Hy Hij. destruct i as [|[|[|[|i]]]]; [..|discriminate];
        destruct j as [|[|[|[|j]]]]; simpl in *; simplify_eq; simpl; lia.
  - apply partition_okb_spec. by vm_compute.
  - reflexivity.
  - reflexivity.
  - lia.
  - exists t, l, y. exact (conj H1 (conj H2 H3)).
Defined.
