(* ===== verification/Boruvka.v ===== *)
(** * Boruvka rounds: src/src/cc_sketch_alg.cpp and src/src/mc_sketch_alg.cpp

    A query samples an edge out of every component, merges the components it
    joins, regroups the nodes and repeats. In a round every thread owns a
    segment of the merge instructions; a component inside one segment is merged
    and sampled by its thread, a component that spans segments is accumulated in
    the global sketch of its last thread, and the thread that completes the
    accumulation samples it. The file models a round as the interleaved run of
    the threads' actions. *)

From Stdlib Require Import NArith Lia.
From stdpp Require Import base list gmap sets numbers relations.
From S2P Require Import Prelude Float64 Util Bucket Sketch SketchSpec Dsu Graph Partition MergeInstr.

Record GlobalMergeData := mkGlobal {
  g_sketch : Sketch;
  num_merge_needed : N;
  num_merge_done : N;
}.

(** [(size_t) -1]. *)
Definition size_max : N := 2 ^ 64 - 1.

(** The state the threads of a round share: the union-find, the forest array, the
    global merges, every thread's [query_ready], and [modified] and [err] of the
    round. *)
Record RoundState := mkRound {
  r_dsu : DSU;
  r_forest : list (gset nat);
  r_global : list GlobalMergeData;
  r_ready : list bool;
  r_modified : bool;
  r_err : option exn;
}.

(** The steps of a thread that touch shared state, in the order of its code. *)
Inductive action :=
  | ASampleLocal (local_sketch : Sketch)
  | ASetNeeded (global_id : nat) (needed : N)
  | AMergeGlobal (global_id : nat) (local_sketch : Sketch)
  | AQueryGlobal (global_id : nat).

Section ops.
Context `{BuildConfig, Hashing}.

Definition sample_supernode (d : DSU) (f : list (gset nat)) (skt : Sketch)
    : outcome bool * DSU * list (gset nat) * Sketch :=
  let '(res, skt) := sample skt in
  match res with
  | Throw e => (Throw e, d, f, skt)
  | Ok smp =>
      let e := inv_concat_pairing_fn (sample_index smp) in
      match result smp with
      | FAIL => (Ok true, d, f, skt)
      | ZERO => (Ok false, d, f, skt)
      | GOOD =>
          match DisjointSetUnion_MT.merge [] d (src e) (dst e) with
          | Throw x => (Throw x, d, f, skt)
          | Ok (m_ret, d) =>
              if merged m_ret then
                let s := src e `min` dst e in
                let t := src e `max` dst e in
                match arr_get f s with
                | Ok D => (Ok true, d, <[s := {[t]} ∪ D]> f, skt)
                | Throw x => (Throw x, d, f, skt)
                end
              else (Ok false, d, f, skt)
          end
      end
  end.

(** A sample of a sketch by one of the threads: exceptions of the sketch are
    caught and kept for the end of the round. *)
Definition sample_caught (st : RoundState) (skt : Sketch) : outcome (RoundState * Sketch) :=
  let '(res, d, f, skt) := sample_supernode (r_dsu st) (r_forest st) skt in
  match res with
  | Ok b => Ok (mkRound d f (r_global st) (r_ready st) (r_modified st || b) (r_err st), skt)
  | Throw (OutOfSamplesException _ _ _ as e) =>
      Ok (mkRound d f (r_global st) (r_ready st) (r_modified st) (Some e), skt)
  | Throw e => Throw e
  end.

Definition set_global (st : RoundState) (g : nat) (x : GlobalMergeData) : RoundState :=
  mkRound (r_dsu st) (r_forest st) (<[g := x]> (r_global st)) (r_ready st) (r_modified st)
    (r_err st).

Definition set_ready (st : RoundState) (t : nat) (b : bool) : RoundState :=
  mkRound (r_dsu st) (r_forest st) (r_global st) (<[t := b]> (r_ready st)) (r_modified st)
    (r_err st).

Definition merge_global (cur_round : nat) (local_sketch : Sketch) (g : GlobalMergeData)
    : bool * GlobalMergeData :=
  let done := (num_merge_done g + 1)%N in
  ((num_merge_needed g <=? done)%N,
   mkGlobal (range_merge (g_sketch g) local_sketch cur_round 1) (num_merge_needed g) done).

(** One action of thread [t]. *)
Definition exec_action (cur_round : nat) (st : RoundState) (a : nat * action)
    : outcome RoundState :=
  match a.2 with
  | ASampleLocal skt => ss ← sample_caught st skt; Ok ss.1
  | ASetNeeded g k =>
      x ← arr_get (r_global st) g;
      Ok (set_global st g (mkGlobal (g_sketch x) k (num_merge_done x)))
  | AMergeGlobal g skt =>
      x ← arr_get (r_global st) g;
      let '(ready, x) := merge_global cur_round skt x in
      Ok (set_ready (set_global st g x) a.1 ready)
  | AQueryGlobal g =>
      if (r_ready st !!! a.1 : bool) then
        x ← arr_get (r_global st) g;
        ss ← sample_caught st (g_sketch x);
        Ok (set_global ss.1 g (mkGlobal ss.2 (num_merge_needed x) (num_merge_done x)))
      else Ok st
  end.

Definition exec_all (cur_round : nat) := outcome_fold (exec_action cur_round).
End ops.

(** ** The program of a thread *)

(** The thread's local variables over the loop, and the actions so far. *)
Record ThreadState := mkThread {
  cur_root : nat;
  root_from_left : bool;
  local_sketch : Sketch;
  actions : list action;
}.

Section thread.
Context (num_vertices base : nat) (fresh : Sketch) (sketches : list Sketch).
Context (part : nat → nat → nat → nat * nat) (T : nat).

Definition thread_step (cur_round thr_id : nat) (merge_instr : list MergeInstr)
    (st : outcome ThreadState) (i : nat) : outcome ThreadState :=
  st ← st;
  x ← arr_get merge_instr i;
  s ← arr_get sketches (base + child x);
  let st :=
    if decide (root x = cur_root st) then st
    else mkThread (root x) false (zero_contents (local_sketch st))
           (actions st ++
            if root_from_left st
            then [AMergeGlobal thr_id (local_sketch st); AQueryGlobal thr_id]
            else [ASampleLocal (local_sketch st)]) in
  Ok (mkThread (cur_root st) (root_from_left st)
        (range_merge (local_sketch st) s cur_round 1) (actions st)).

(** The parallel body of [perform_boruvka_round]; [fresh] is the new local
    sketch. *)
Definition thread_actions (cur_round thr_id : nat) (merge_instr : list MergeInstr)
    : outcome (list action) :=
  let '(start, stop) := part num_vertices thr_id T in
  first ← arr_get merge_instr start;
  from_left ← (if decide (0 < start)
               then x ← arr_get merge_instr (start - 1); Ok (bool_decide (root x = root first))
               else Ok false);
  exits_right ← (if decide (stop < num_vertices)
                 then x ← arr_get merge_instr (stop - 1); y ← arr_get merge_instr stop;
                      Ok (bool_decide (root x = root y))
                 else Ok false);
  st ← foldl (thread_step cur_round thr_id merge_instr)
         (Ok (mkThread (root first) from_left fresh [])) (seq start (stop - start));
  if exits_right || root_from_left st then
    global_id ← find_last_partition_of_root merge_instr (cur_root st) start T;
    Ok (actions st ++
        (if root_from_left st then []
         else [ASetNeeded global_id (u64 (wsub 64 (N.of_nat global_id) (N.of_nat thr_id) + 1))]) ++
        [AMergeGlobal global_id (local_sketch st); AQueryGlobal global_id])
  else Ok (actions st ++ [ASampleLocal (local_sketch st)]).
End thread.

(** ** Rounds *)

Section rounds.
Context `{BuildConfig, Hashing}.
Context (num_vertices base : nat) (fresh : Sketch).
Context (part : nat → nat → nat → nat * nat) (T : nat).

(** One iteration of the parallel loop of [run_round_zero]. *)
Definition round_zero_step (acc : outcome (RoundState * list Sketch)) (i : nat)
    : outcome (RoundState * list Sketch) :=
  x ← acc; let '(st, sks) := x in
  s ← arr_get sks (base + i);
  ss ← sample_caught st s;
  Ok (ss.1, <[base + i := ss.2]> sks).

(** [order] is the order in which the iterations happen to run. *)
Definition run_round_zero (order : list nat) (st : RoundState) (sketches : list Sketch)
    : outcome (RoundState * list Sketch) :=
  foldl round_zero_step (Ok (st, sketches)) order.

Definition reset_global (x : GlobalMergeData) : GlobalMergeData :=
  mkGlobal (zero_contents (g_sketch x)) size_max 0.

Definition perform_boruvka_round (zero_order sched : list nat) (cur_round : nat)
    (merge_instr : list MergeInstr) (d : DSU) (f : list (gset nat))
    (global_merges : list GlobalMergeData) (sketches : list Sketch)
    : outcome (RoundState * list Sketch) :=
  if decide (cur_round = 0) then
    run_round_zero zero_order (mkRound d f global_merges (replicate T false) false None) sketches
  else
    progs ← outcome_list ((λ t, thread_actions num_vertices base fresh sketches part T cur_round t
              merge_instr) <$> seq 0 T);
    st ← exec_all cur_round
           (mkRound d f (reset_global <$> global_merges) (replicate T false) false None)
           (interleave sched progs);
    Ok (st, sketches).
End rounds.

(** The orders the run-time chooses in one query, round by round. *)
Record QuerySchedule := mkQuerySchedule {
  zero_order : list nat;
  round_order : nat → list nat;
  merge_sched : nat → MergeSchedule;
}.

(** What a whole emulation leaves behind. *)
Record BoruvkaState := mkBoruvka {
  b_dsu : DSU;
  b_forest : list (gset nat);
  b_sketches : list Sketch;
  b_rounds : nat;
}.

Section emulation.
Context `{BuildConfig, Hashing}.
Context (num_vertices base : nat) (fresh : Sketch).
Context (part : nat → nat → nat → nat * nat) (T : nat) (sch : QuerySchedule).

(** The loop of [boruvka_emulation]. A round that caught an exception throws
    it, with the state as that round left it. *)
Fixpoint boruvka_loop (fuel : nat) (round_num : nat) (merge_instr : list MergeInstr)
    (global_merges : list GlobalMergeData) (b : BoruvkaState) : outcome unit * BoruvkaState :=
  match fuel with
  | O => (Throw OutOfFuel, b)
  | S fuel =>
      match perform_boruvka_round num_vertices base fresh part T (zero_order sch)
              (round_order sch round_num) round_num merge_instr (b_dsu b) (b_forest b)
              global_merges (b_sketches b) with
      | Throw e => (Throw e, b)
      | Ok (st, sks) =>
          let b := mkBoruvka (r_dsu st) (r_forest st) sks (b_rounds b) in
          match r_err st with
          | Some e => (Throw e, b)
          | None =>
              if r_modified st then
                match create_merge_instructions part num_vertices T (merge_sched sch round_num)
                        (b_dsu b) merge_instr with
                | Throw e => (Throw e, b)
                | Ok (d, merge_instr) =>
                    boruvka_loop fuel (S round_num) merge_instr (r_global st)
                      (mkBoruvka d (b_forest b) (b_sketches b) (b_rounds b))
                end
              else (Ok tt, mkBoruvka (b_dsu b) (b_forest b) (b_sketches b) round_num)
          end
      end
  end.

(** The samples of a sketch bound the rounds; [fuel] is one more than them. *)
Definition boruvka_rounds (d : DSU) (sketches : list Sketch) (rounds : nat)
    : outcome unit * BoruvkaState :=
  boruvka_loop (S (S (num_samples fresh))) 0
    ((λ i, mkInstr i i) <$> seq 0 num_vertices)
    (replicate T (mkGlobal fresh size_max 0))
    (mkBoruvka (reset d) (replicate num_vertices ∅) sketches rounds).
End emulation.
