(* ===== verification/BoruvkaRound.v ===== *)
(** * Correctness of a Boruvka round

    The run of a round under any interleaving of its threads: every sample
    keeps the union-find equal to the connectivity of the recorded forest, the
    forest stays inside the graph, and when no sample asks for another round
    every component has an empty cut. The threads' programs enter through
    [round_progs_ok], which [BoruvkaThreads] establishes for the code's
    programs. *)

From Stdlib Require Import NArith Lia.
From stdpp Require Import base list gmap sets numbers relations.
From S2P Require Import Prelude Float64 Util Bucket Sketch SketchSpec Dsu Graph CCSketchAlg Partition MergeInstr Boruvka.

Section round.
Context `{BuildConfig, Hashing}.
Context (n : nat) (n_ok : (N.of_nat n ≤ 2 ^ 32)%N).
Context (E : gset N) (E_ok : graph_ok n E).

(** The union-find is the connectivity of the forest array, which is a forest
    of edges of the graph. *)
Record partial_answer (d : DSU) (f : list (gset nat)) : Prop := {
  pa_state : dsu_state_ok n d f;
  pa_conn : ∀ x y, x < n → y < n → dsu_rel d x y ↔ conn n (forest_edges f) x y;
  pa_sub : forest_edges f ⊆ E;
  pa_forest : forest n (forest_edges f);
}.

(** What the exclusive-or of the sketches of the nodes [S] holds. *)
Definition node_sum (S : list nat) : gset N := symdiff_all (incident E <$> S).

Lemma node_sum_app S S' : node_sum (S ++ S') = symdiff (node_sum S) (node_sum S').
Proof. unfold node_sum. by rewrite fmap_app, symdiff_all_app. Qed.

Lemma node_sum_perm S S' : S ≡ₚ S' → node_sum S = node_sum S'.
Proof. intros HS. unfold node_sum. by apply symdiff_all_perm, fmap_Permutation. Qed.

Lemma node_sum_cut S : NoDup S → node_sum S = cut E S.
Proof. intros HS. by apply symdiff_incident_cut with n. Qed.

(** A set of nodes that is a union of classes of the union-find. *)
Definition closed (d : DSU) (S : list nat) : Prop :=
  ∀ x y, x < n → y < n → dsu_rel d x y → x ∈ S → y ∈ S.

Definition same_rel (d d' : DSU) : Prop :=
  ∀ x y, x < n → y < n → dsu_rel d' x y ↔ dsu_rel d x y.

Lemma closed_same d d' S : same_rel d d' → closed d S → closed d' S.
Proof. intros Hs Hc x y Hx Hy Hr. apply (Hc x y Hx Hy). by apply Hs. Qed.

Lemma partial_answer_same d d' f :
  partial_answer d f → dsu_wf d' → dsu_n d' = n → same_rel d d' → partial_answer d' f.
Proof.
  intros [[Hwf Hn Hfa] Hc Hs Hf] Hwf' Hn' Hrel. constructor; [by constructor| |done|done].
  intros x y Hx Hy. etrans; [by apply Hrel|by apply Hc].
Qed.

(** Recording a merging edge. *)
Lemma partial_answer_add d f d' s t D :
  partial_answer d f → s < t → t < n → f !! s = Some D → ¬ dsu_rel d s t →
  concat_pairing_fn s t ∈ E → dsu_wf d' → dsu_n d' = n →
  (∀ x y, x < n → y < n → dsu_rel d' x y ↔ join_rel (dsu_rel d) s t x y) →
  partial_answer d' (<[s := {[t]} ∪ D]> f).
Proof.
  intros [[Hwf Hn [Hlen Hfa]] Hc Hsub Hfor] Hst Ht HD Hnr HE Hwf' Hn' Hrel.
  assert (forest_edges (<[s := {[t]} ∪ D]> f) = {[concat_pairing_fn s t]} ∪ forest_edges f)
    as Hfe by by apply forest_edges_insert.
  constructor.
  - constructor; [done|done|]. split; [by rewrite length_insert|].
    intros a B b HB Hb. destruct (decide (a = s)) as [->|Hne].
    + rewrite list_lookup_insert_eq in HB by by eapply lookup_lt_Some. injection HB as <-.
      apply elem_of_union in Hb as [->%elem_of_singleton|Hb]; [done|by eapply Hfa].
    + rewrite list_lookup_insert_ne in HB by done. by eapply Hfa.
  - intros x y Hx Hy. rewrite Hfe, Hrel, conn_insert by lia.
    apply join_rel_iff; apply Hc; lia.
  - rewrite Hfe. set_solver.
  - rewrite Hfe. constructor; try lia; [done|]. rewrite <- Hc by lia. done.
Qed.

(** One sample of a sketch that holds the cut of [S]. *)
Lemma sample_supernode_ok d f skt S :
  partial_answer d f → represents_at skt (sample_idx skt) (cut E S) →
  checksum_sound (seed skt) E → sample_idx skt < num_samples skt →
  ∃ b d' f', sample_supernode d f skt =
      (Ok b, d', f', set_sample_idx skt (Datatypes.S (sample_idx skt))) ∧
    partial_answer d' f' ∧
    (b = false → same_rel d d' ∧ (closed d S → cut E S = ∅)).
Proof.
  intros Hpa Hr Hsound Hk. unfold sample_supernode.
  assert (cut E S ⊆ E) as Hsub by (intros e [_ He]%elem_of_cut; done).
  destruct (sample_spec skt (cut E S) Hr (checksum_sound_mono _ _ _ Hsound Hsub) Hk)
    as (smp & -> & Hm). unfold sample_meaning in Hm.
  destruct (result smp).
  - pose proof (cut_edge_ends n n_ok E S _ E_ok Hm) as Hends. cbv zeta in Hends |- *.
    set (e := inv_concat_pairing_fn (sample_index smp)) in *.
    destruct Hends as (Hu & Hv & Hadj & Hcp & Hside).
    pose proof Hpa as [[Hwf Hn [Hlen Hfa]] _ _ _].
    destruct (DisjointSetUnion_MT_merge_ok [] d (src e) (dst e) Hwf) as
      (m & d' & -> & Hwf' & Hn' & _ & Hmerged & _ & Hrel); [lia..|].
    rewrite Hn in Hn', Hrel. destruct (merged m) eqn:Hmm.
    + destruct (lookup_lt_is_Some_2 f (src e `min` dst e)) as [D HD]; [lia|].
      rewrite (arr_get_Ok _ _ _ HD). exists true, d', (<[src e `min` dst e := {[src e `max` dst e]} ∪ D]> f).
      split; [done|]. split; [|done]. destruct Hadj as (_ & _ & Hne & He).
      pose proof (proj1 Hmerged eq_refl) as Hnr.
      destruct (decide (src e < dst e)) as [Hlt|Hge].
      * rewrite Nat.min_l, Nat.max_r in * by lia.
        by apply (partial_answer_add d f d' (src e) (dst e) D Hpa).
      * rewrite Nat.min_r, Nat.max_l in * by lia.
        apply (partial_answer_add d f d' (dst e) (src e) D Hpa); try done; try lia.
        -- by rewrite concat_pairing_fn_comm.
        -- intros x y Hx Hy. by rewrite Hrel, join_rel_comm.
    + assert (dsu_rel d (src e) (dst e)) as Huv.
      { destruct (root_of_ex _ _ _ (src e) Hwf) as [ru Hru]; [lia|].
        destruct (root_of_ex _ _ _ (dst e) Hwf) as [rv Hrv]; [lia|].
        destruct (decide (ru = rv)) as [->|Hne]; [by exists rv|]. exfalso.
        assert (false = true) as Hf; [|done]. apply Hmerged.
        intros Hr'. apply Hne. by apply (same_set_roots _ _ _ _ _ Hru Hrv). }
      assert (same_rel d d') as Hsame.
      { intros x y Hx Hy. rewrite Hrel by done.
        apply join_rel_related; [apply _..|done]. }
      exists false, d', f. split; [done|]. split; [by eapply partial_answer_same|].
      intros _. split; [done|]. intros Hcl. exfalso.
      destruct Hside as [[Hin Hout]|[Hout Hin]]; apply Hout.
      * by apply (Hcl (src e) (dst e)).
      * by apply (Hcl (dst e) (src e)).
  - exists false, d, f. split; [done|]. split; [done|]. done.
  - exists true, d, f. done.
Qed.
End round.

(** ** The programs of a round *)

(** An action with the nodes whose sketches its local sketch merges. *)
Abbreviation gact := (action * list nat)%type.

Definition merge_nodes (g : nat) (a : gact) : list (list nat) :=
  match a.1 with
  | AMergeGlobal g' _ => if decide (g = g') then [a.2] else []
  | _ => []
  end.

Definition set_marks (g : nat) (a : gact) : list () :=
  match a.1 with
  | ASetNeeded g' _ => if decide (g = g') then [()] else []
  | _ => []
  end.

(** The merges into global [g] that remain, and the pending announcements of
    their number. *)
Definition merges_to (g : nat) (rem : list (list gact)) : list (list nat) :=
  concat (merge_nodes g <$> concat rem).
Definition sets_to (g : nat) (rem : list (list gact)) : list () :=
  concat (set_marks g <$> concat rem).

Lemma pop_perm {B} (h : gact → list B) (rem : list (list gact)) t a l :
  rem !! t = Some (a :: l) →
  concat (h <$> concat rem) ≡ₚ h a ++ concat (h <$> concat (<[t := l]> rem)).
Proof.
  intros Ht. rewrite (concat_fmap_perm h _ _ (concat_take_drop _ _ _ _ Ht)).
  by rewrite fmap_cons, concat_cons.
Qed.

(** What a round means to do with sketches: [holds s S] when the sketch [s]
    accumulates the nodes [S] and may be sampled, [provides s S] when it may be
    merged into one that does, [good S] when the nodes may be sampled together,
    [core] for the shared answer, and [settled S] once a sample of [S] is
    accounted for. The laws are what a round needs of them; a round with samples
    left and a round without are its two instances. *)
Class RoundMeaning `{BuildConfig, Hashing} (fresh : Sketch) (k : nat) := {
  holds : Sketch → list nat → Prop;
  provides : Sketch → list nat → Prop;
  good : list nat → Prop;
  core : DSU → list (gset nat) → bool → option exn → Prop;
  settled : bool → option exn → list nat → Prop;
  holds_zero : ∀ s, sketch_wf s → geometry s = geometry fresh → holds (zero_contents s) [];
  holds_provides : ∀ s S, holds s S → provides s S;
  holds_merge : ∀ s t S S', holds s S → provides t S' → holds (range_merge s t k 1) (S ++ S');
  holds_perm : ∀ s S S', S ≡ₚ S' → holds s S → holds s S';
  settled_perm : ∀ b e S S', S ≡ₚ S' → settled b e S → settled b e S';
  sample_law : ∀ d f gl rd b e s S,
    core d f b e → holds s S → good S → sketch_wf s →
    ∃ d' f' b' e' s', sample_caught (mkRound d f gl rd b e) s =
        Ok (mkRound d' f' gl rd b' e', s') ∧
      core d' f' b' e' ∧ settled b' e' S ∧ (∀ S0, settled b e S0 → settled b' e' S0) ∧
      geometry s' = geometry s ∧ sketch_wf s';
}.

Section programs.
Context `{BuildConfig, Hashing} {fresh : Sketch} {k : nat} `{!RoundMeaning fresh k} (T : nat).
Context (comps : list (list nat)) (gnodes : nat → list nat) (gcount : nat → nat).

Definition act_ok (a : gact) : Prop :=
  match a.1 with
  | ASampleLocal s => holds s a.2 ∧ good a.2 ∧ sketch_wf s
  | ASetNeeded g c => g < T ∧ c = N.of_nat (gcount g)
  | AMergeGlobal g s => g < T ∧ provides s a.2
  | AQueryGlobal g => g < T
  end.

(** A thread announces before it merges and asks right after it merged. *)
Inductive wf_prog : list gact → Prop :=
  | wf_nil : wf_prog []
  | wf_local s S l : act_ok (ASampleLocal s, S) → wf_prog l → wf_prog ((ASampleLocal s, S) :: l)
  | wf_merge g s S S' l :
      act_ok (AMergeGlobal g s, S) → wf_prog l →
      wf_prog ((AMergeGlobal g s, S) :: (AQueryGlobal g, S') :: l)
  | wf_set g c s S S' S'' l :
      act_ok (ASetNeeded g c, S'') → act_ok (AMergeGlobal g s, S) → wf_prog l →
      wf_prog ((ASetNeeded g c, S'') :: (AMergeGlobal g s, S) :: (AQueryGlobal g, S') :: l).

Definition wf_rem (l : list gact) : Prop :=
  wf_prog l ∨ ∃ g S l', l = (AQueryGlobal g, S) :: l' ∧ g < T ∧ wf_prog l'.

Definition local_pending (rem : list (list gact)) (S : list nat) : Prop :=
  ∃ s S', (ASampleLocal s, S') ∈ concat rem ∧ S' ≡ₚ S.

(** What the programs of the threads must look like together: global [g] gets
    [gcount g] merges, of the nodes [gnodes g] in total, announced once; every
    component of [comps] is sampled locally or through a global. *)
Record round_progs_ok (progs : list (list gact)) : Prop := {
  rp_length : length progs = T;
  rp_wf : Forall wf_prog progs;
  rp_count : ∀ g, length (merges_to g progs) = gcount g;
  rp_nodes : ∀ g, concat (merges_to g progs) ≡ₚ gnodes g;
  rp_sets : ∀ g, 0 < gcount g → length (sets_to g progs) = 1;
  rp_small : ∀ g, (N.of_nat (gcount g) < size_max)%N;
  rp_global : ∀ g, 0 < gcount g → good (gnodes g);
  rp_cover : ∀ S, S ∈ comps →
    local_pending progs S ∨ ∃ g, gnodes g ≡ₚ S ∧ 0 < gcount g;
}.

Record global_ok (g : nat) (M : list (list nat)) (Z : list ()) (x : GlobalMergeData) : Prop := {
  go_geometry : geometry (g_sketch x) = geometry fresh;
  go_wf : sketch_wf (g_sketch x);
  go_count : (num_merge_done x + N.of_nat (length M) = N.of_nat (gcount g))%N;
  go_needed : 0 < gcount g →
    num_merge_needed x = if decide (length Z = 0) then N.of_nat (gcount g) else size_max;
  go_once : length Z ≤ 1;
  go_value : M ≠ [] → ∃ S, S ++ concat M ≡ₚ gnodes g ∧ holds (g_sketch x) S;
}.

Definition ready_at (ready : list bool) (rem : list (list gact)) (g t : nat) : Prop :=
  (∃ S l, rem !! t = Some ((AQueryGlobal g, S) :: l)) ∧ ready !!! t = true.

Record round_inv (rem : list (list gact)) (st : RoundState) : Prop := {
  ri_length : length rem = T;
  ri_ready_length : length (r_ready st) = T;
  ri_global_length : length (r_global st) = T;
  ri_core : core (r_dsu st) (r_forest st) (r_modified st) (r_err st);
  ri_wf : Forall wf_rem rem;
  ri_global : ∀ g x, r_global st !! g = Some x →
    global_ok g (merges_to g rem) (sets_to g rem) x;
  ri_ready : ∀ g t x, ready_at (r_ready st) rem g t → r_global st !! g = Some x →
    merges_to g rem = [] ∧ 0 < gcount g ∧ holds (g_sketch x) (gnodes g);
  ri_unique : ∀ g t t', ready_at (r_ready st) rem g t → ready_at (r_ready st) rem g t' → t = t';
  ri_cover : ∀ S, S ∈ comps →
    settled (r_modified st) (r_err st) S ∨ local_pending rem S ∨
    ∃ g, gnodes g ≡ₚ S ∧ 0 < gcount g ∧
      (merges_to g rem ≠ [] ∨ ∃ t, ready_at (r_ready st) rem g t);
}.

Lemma global_ok_perm g M M' Z Z' x :
  M ≡ₚ M' → length Z = length Z' → global_ok g M Z x → global_ok g M' Z' x.
Proof.
  intros HM HZ [Hg Hw Hc Hn Ho Hv]. constructor; try done.
  - by rewrite <- HM.
  - intros Hp. rewrite Hn by done. by rewrite HZ.
  - by rewrite <- HZ.
  - intros Hne. destruct Hv as (S & HS & Hr).
    { intros ->. apply Hne. by apply Permutation_nil. }
    exists S. split; [|done]. rewrite <- HS. f_equiv.
    rewrite <- (list_fmap_id M), <- (list_fmap_id M'). by apply concat_fmap_perm.
Qed.

(** Popping an action that is no merge and no announcement changes neither. *)
Lemma merges_pop g rem t a l :
  rem !! t = Some (a :: l) →
  merges_to g rem ≡ₚ merge_nodes g a ++ merges_to g (<[t := l]> rem).
Proof. apply pop_perm. Qed.

Lemma sets_pop g rem t a l :
  rem !! t = Some (a :: l) →
  length (sets_to g rem) = length (set_marks g a) + length (sets_to g (<[t := l]> rem)).
Proof.
  intros Ht. rewrite <- length_app. by apply Permutation_length, pop_perm.
Qed.

Lemma wf_rem_pop rem t a l :
  Forall wf_rem rem → rem !! t = Some (a :: l) → wf_rem l → Forall wf_rem (<[t := l]> rem).
Proof. intros Hall Ht Hl. by apply Forall_insert. Qed.

Lemma ready_at_pop ready rem t l g u :
  wf_prog l → ready_at ready (<[t := l]> rem) g u → u ≠ t ∧ ready_at ready rem g u.
Proof.
  intros Hl [(S & l' & Hu) Hr]. destruct (decide (u = t)) as [->|Hne].
  - destruct (decide (t < length rem)) as [Hlt|Hge].
    + rewrite list_lookup_insert_eq in Hu by done. injection Hu as ->. inversion Hl.
    + rewrite list_insert_ge in Hu by lia. apply lookup_lt_Some in Hu. lia.
  - split; [done|]. rewrite list_lookup_insert_ne in Hu by done. split; [by eauto|done].
Qed.

Lemma ready_at_other ready rem t l g u :
  u ≠ t → ready_at ready rem g u → ready_at ready (<[t := l]> rem) g u.
Proof. intros Hne [Hu Hr]. split; [|done]. by rewrite list_lookup_insert_ne. Qed.

Lemma local_pending_pop rem t a l S :
  rem !! t = Some (a :: l) → local_pending rem S →
  local_pending (<[t := l]> rem) S ∨ ∃ s S', a = (ASampleLocal s, S') ∧ S' ≡ₚ S.
Proof.
  intros Ht (s & S' & Hin & HS). rewrite (concat_take_drop _ _ _ _ Ht) in Hin.
  apply elem_of_cons in Hin as [Ha|Hin]; [right|left]; by repeat eexists.
Qed.

(** An announcement that is still to come is followed by a merge. *)
Lemma set_then_merge g c S l :
  wf_rem l → (ASetNeeded g c, S) ∈ l → ∃ s S', (AMergeGlobal g s, S') ∈ l.
Proof.
  assert (∀ l, wf_prog l → (ASetNeeded g c, S) ∈ l → ∃ s S', (AMergeGlobal g s, S') ∈ l) as Hp.
  { clear l. induction 1 as [|s S' l Ha Hl IH|g' s S' Q l Ha Hl IH|g' c' s S' Q R l Hs Ha Hl IH].
    - set_solver.
    - intros [?|Hin]%elem_of_cons; [done|]. destruct (IH Hin) as (? & ? & ?). set_solver.
    - rewrite !elem_of_cons. intros [?|[?|Hin]]; [done..|].
      destruct (IH Hin) as (? & ? & ?). set_solver.
    - rewrite !elem_of_cons. intros [Heq|[?|[?|Hin]]]; [|done..|].
      + injection Heq as -> _ _. set_solver.
      + destruct (IH Hin) as (? & ? & ?). set_solver. }
  intros [Hw|(g' & Q & l' & -> & _ & Hw)]; [by apply Hp|].
  intros [?|Hin]%elem_of_cons; [done|]. destruct (Hp l' Hw Hin) as (? & ? & ?). set_solver.
Qed.

Lemma sets_then_merges g rem :
  Forall wf_rem rem → sets_to g rem = [] ∨ merges_to g rem ≠ [].
Proof.
  intros Hwf. destruct (sets_to g rem) as [|z Z] eqn:HZ; [by left|right].
  assert (z ∈ sets_to g rem) as Hz by (rewrite HZ; set_solver).
  apply list_elem_of_In, in_concat in Hz as (ms & Hms & Hz). apply list_elem_of_In in Hms, Hz.
  apply list_elem_of_fmap in Hms as ([a S] & -> & Ha).
  unfold set_marks in Hz. destruct a as [| g' c| |]; simpl in Hz; try (by apply not_elem_of_nil in Hz).
  case_decide as Hg; [subst g'|by apply not_elem_of_nil in Hz].
  apply list_elem_of_In, in_concat in Ha as (l & Hl & Ha). apply list_elem_of_In in Hl, Ha.
  rewrite list.Forall_forall in Hwf. destruct (set_then_merge g c S l (Hwf l Hl) Ha) as (s & S' & Hm).
  assert (S' ∈ merges_to g rem) as Hin.
  { apply list_elem_of_In, in_concat. exists [S']. split; [|by left].
    apply list_elem_of_In, list_elem_of_fmap. exists (AMergeGlobal g s, S').
    split; [unfold merge_nodes; simpl; by rewrite decide_True|].
    apply list_elem_of_In, in_concat. exists l. split; by apply list_elem_of_In. }
  intros Hnil. rewrite Hnil in Hin. by apply not_elem_of_nil in Hin.
Qed.
End programs.

(** ** One action preserves the invariant *)

Section steps.
Context `{BuildConfig, Hashing} {fresh : Sketch} {k : nat} `{!RoundMeaning fresh k} (T : nat).
Context (comps : list (list nat)) (gnodes : nat → list nat) (gcount : nat → nat).
Hypothesis Hsmall : ∀ g, (N.of_nat (gcount g) < size_max)%N.
Hypothesis Hglobal : ∀ g, 0 < gcount g → good (gnodes g).

#[local] Abbreviation inv := (round_inv T comps gnodes gcount).
#[local] Abbreviation act_ok := (act_ok T gcount).
#[local] Abbreviation wf_prog := (wf_prog T gcount).
#[local] Abbreviation wf_rem := (wf_rem T gcount).

Lemma head_wf rem st t a l :
  inv rem st → rem !! t = Some (a :: l) → wf_rem (a :: l) ∧ t < T.
Proof.
  intros Hi Ht. split.
  - by eapply (Forall_lookup_1 _ _ _ _ (ri_wf _ _ _ _ _ _ Hi)).
  - rewrite <- (ri_length _ _ _ _ _ _ Hi). by eapply lookup_lt_Some.
Qed.

(** Popping an action that neither merges nor asks: what stays as it was. *)
Lemma neutral_pop rem st t a l :
  inv rem st → rem !! t = Some (a :: l) → wf_prog l →
  (∀ g, merge_nodes g a = []) → (∀ g, ¬ ready_at (r_ready st) rem g t) →
  (∀ g, merges_to g rem ≡ₚ merges_to g (<[t := l]> rem)) ∧
  (∀ g, merges_to g rem = [] ↔ merges_to g (<[t := l]> rem) = []) ∧
  (∀ g u, ready_at (r_ready st) (<[t := l]> rem) g u → ready_at (r_ready st) rem g u) ∧
  (∀ S, S ∈ comps → settled (r_modified st) (r_err st) S ∨ local_pending (<[t := l]> rem) S ∨
    (∃ s S', a = (ASampleLocal s, S') ∧ S' ≡ₚ S) ∨
    ∃ g, gnodes g ≡ₚ S ∧ 0 < gcount g ∧ (merges_to g (<[t := l]> rem) ≠ [] ∨
      ∃ u, ready_at (r_ready st) (<[t := l]> rem) g u)).
Proof.
  intros Hi Ht Hl Hmn Hnq.
  assert (∀ g, merges_to g rem ≡ₚ merges_to g (<[t := l]> rem)) as HM.
  { intros g. rewrite (merges_pop g _ _ _ _ Ht). by rewrite Hmn. }
  assert (∀ g, merges_to g rem = [] ↔ merges_to g (<[t := l]> rem) = []) as HM0.
  { intros g. split; intros HMg; apply Permutation_nil; rewrite <- HMg; by rewrite HM. }
  split_and!; [done|done| |].
  - intros g u Hu. by apply (ready_at_pop T gcount) in Hu as [_ Hu].
  - intros S HS. destruct (ri_cover _ _ _ _ _ _ Hi S HS)
      as [Hc|[Hp|(g & Hgn & Hgc & Hgm)]]; [by left| |].
    + apply (local_pending_pop _ _ _ _ _ Ht) in Hp as [Hp|Hp]; tauto.
    + do 3 right. exists g. split_and!; [done..|]. destruct Hgm as [Hgm|[u Hu]].
      * left. by rewrite <- HM0.
      * right. exists u. apply ready_at_other; [|done]. intros ->. by apply (Hnq g).
Qed.

Lemma step_local rem st t s S l :
  inv rem st → rem !! t = Some ((ASampleLocal s, S) :: l) →
  ∃ st', exec_action k st (t, ASampleLocal s) = Ok st' ∧ inv (<[t := l]> rem) st'.
Proof.
  intros Hi Ht. destruct (head_wf _ _ _ _ _ Hi Ht) as [Hwf HtT].
  assert (act_ok (ASampleLocal s, S) ∧ wf_prog l) as [(Hh & Hgd & Hswf) Hl].
  { destruct Hwf as [Hwf|(? & ? & ? & ? & _)]; [by inversion Hwf|done]. }
  destruct (neutral_pop _ _ _ _ _ Hi Ht Hl) as (HM & HM0 & Hrd & Hcov); [done| |].
  { intros g' [(Q & l' & Hq) _]. congruence. }
  destruct Hi as [Hlen Hrlen Hglen Hcore Hwfs Hgl Hrdy Huniq _].
  destruct (sample_law _ _ (r_global st) (r_ready st) _ _ s S Hcore Hh Hgd Hswf)
    as (d & f & b & e & s' & Hsc & Hcore' & Hset & Hmono & _).
  destruct st as [d0 f0 gl rd b0 e0]. simpl in *.
  unfold exec_action. simpl. rewrite Hsc. simpl. eexists. split; [done|].
  constructor; simpl; try done.
  - by rewrite length_insert.
  - eapply wf_rem_pop; [done|done|by left].
  - intros g x Hx. eapply global_ok_perm; [apply HM|apply (sets_pop g _ _ _ _ Ht)|by apply Hgl].
  - intros g u x Hu Hx. rewrite <- HM0. by apply (Hrdy g u x); [apply Hrd|].
  - intros g u u' Hu Hu'. by apply (Huniq g); apply Hrd.
  - intros S0 HS0.
    destruct (Hcov S0 HS0) as [Hc|[Hp|[(s1 & S' & Heq & HS')|Hp]]]; [by auto..| |by auto].
    left. injection Heq as <- <-. by apply (settled_perm _ _ S).
Qed.

Lemma step_set rem st t g c S l :
  inv rem st → rem !! t = Some ((ASetNeeded g c, S) :: l) →
  ∃ st', exec_action k st (t, ASetNeeded g c) = Ok st' ∧ inv (<[t := l]> rem) st'.
Proof.
  intros Hi Ht. destruct (head_wf _ _ _ _ _ Hi Ht) as [Hwf HtT].
  assert ((g < T ∧ c = N.of_nat (gcount g)) ∧ wf_prog l) as [[Hg ->] Hl].
  { destruct Hwf as [Hwf|(? & ? & ? & ? & _)]; [|done].
    inversion Hwf as [| | |? ? ? ? ? ? ? Hs Hm Hl]; subst. split; [done|]. by constructor. }
  destruct (neutral_pop _ _ _ _ _ Hi Ht Hl) as (HM & HM0 & Hrd & Hcov); [done| |].
  { intros g' [(Q & l' & Hq) _]. congruence. }
  destruct Hi as [Hlen Hrlen Hglen Hcore Hwfs Hgl Hrdy Huniq _].
  destruct (lookup_lt_is_Some_2 (r_global st) g) as [x Hx]; [lia|].
  unfold exec_action. simpl. rewrite (arr_get_Ok _ _ _ Hx). simpl. eexists. split; [done|].
  constructor; simpl; try done.
  - by rewrite length_insert.
  - by rewrite length_insert.
  - eapply wf_rem_pop; [done|done|by left].
  - intros g' x' Hx'. pose proof (sets_pop g' _ _ _ _ Ht) as HZ. unfold set_marks in HZ. simpl in HZ.
    destruct (decide (g' = g)) as [->|Hne].
    + rewrite list_lookup_insert_eq in Hx' by lia. injection Hx' as <-. simpl in HZ.
      pose proof (global_ok_perm gnodes gcount _ _ _ _ _ _ (HM g) eq_refl (Hgl g x Hx))
        as [G1 G2 G3 G4 G5 G6].
      constructor; simpl; try done; [|lia]. intros _. by rewrite decide_True by lia.
    + rewrite list_lookup_insert_ne in Hx' by done. simpl in HZ.
      eapply global_ok_perm; [apply HM|exact HZ|by apply Hgl].
  - intros g' u x' Hu Hx'. apply Hrd in Hu. rewrite <- HM0.
    destruct (decide (g' = g)) as [->|Hne].
    + rewrite list_lookup_insert_eq in Hx' by lia. injection Hx' as <-. by apply (Hrdy g u x).
    + rewrite list_lookup_insert_ne in Hx' by done. by apply (Hrdy g' u x').
  - intros g' u u' Hu Hu'. by apply (Huniq g'); apply Hrd.
  - intros S0 HS0.
    destruct (Hcov S0 HS0) as [Hc|[Hp|[(s' & S' & Heq & HS')|Hp]]]; by auto.
Qed.

(** The merge into a global: the thread whose merge is the last one is told to
    ask, and only that thread. *)
Lemma global_merge_ok g M Z S skt x :
  global_ok gnodes gcount g (S :: M) Z x → 0 < gcount g → Z = [] ∨ M ≠ [] → provides skt S →
  ∃ ready x', merge_global k skt x = (ready, x') ∧
    global_ok gnodes gcount g M Z x' ∧
    (ready = true ↔ M = []) ∧ (M = [] → holds (g_sketch x') (gnodes g)).
Proof.
  intros [G1 G2 G3 G4 G5 G6] Hc HZ Hs. destruct G6 as (S0 & HS0 & Hh0); [done|].
  pose proof (holds_merge _ _ _ _ Hh0 Hs) as Hh'.
  simpl in G3. eexists _, _. split; [done|]. split; [|split].
  - constructor; simpl; try done.
    + by rewrite range_merge_geometry.
    + by apply range_merge_wf.
    + lia.
    + intros _. exists (S0 ++ S). split; [|done].
      rewrite <- HS0. simpl. by rewrite <- app_assoc.
  - rewrite N.leb_le, (G4 Hc). case_decide as HZ0.
    + split; [|intros ->; simpl in *; lia]. destruct M; [done|]. simpl in *. lia.
    + destruct HZ as [->|HM]; [done|]. split; [|done]. pose proof (Hsmall g). lia.
  - intros ->. simpl in HS0. rewrite app_nil_r in HS0. simpl. by apply (holds_perm _ _ _ HS0).
Qed.

(** Who may ask after thread [t]'s merge. *)
Lemma ready_at_merge ready rem t g b g' u q l :
  q.1 = AQueryGlobal g → t < length rem → t < length ready →
  ready_at (<[t := b]> ready) (<[t := q :: l]> rem) g' u →
  (u = t ∧ g' = g ∧ b = true) ∨ (u ≠ t ∧ ready_at ready rem g' u).
Proof.
  intros Hq Ht Hr [(Q & lq & Hlk) Hru]. destruct (decide (u = t)) as [->|Hne].
  - left. rewrite list_lookup_insert_eq in Hlk by done.
    rewrite list_lookup_total_insert_eq in Hru by lia. injection Hlk as -> _. by injection Hq.
  - right. rewrite list_lookup_insert_ne in Hlk by done.
    rewrite list_lookup_total_insert_ne in Hru by done. split; [done|]. split; [by eauto|done].
Qed.

Lemma step_merge rem st t g s S l :
  inv rem st → rem !! t = Some ((AMergeGlobal g s, S) :: l) →
  sets_to g rem = [] ∨ merges_to g (<[t := l]> rem) ≠ [] →
  ∃ st', exec_action k st (t, AMergeGlobal g s) = Ok st' ∧ inv (<[t := l]> rem) st'.
Proof.
  intros Hi Ht HZM. destruct (head_wf _ _ _ _ _ Hi Ht) as [Hwf HtT].
  assert (act_ok (AMergeGlobal g s, S) ∧ ∃ S' l', l = (AQueryGlobal g, S') :: l' ∧ wf_prog l')
    as [(Hg & Hh) (S' & l' & -> & Hl)].
  { destruct Hwf as [Hwf|(? & ? & ? & ? & _)]; [|done]. inversion Hwf; subst. eauto 10. }
  destruct Hi as [Hlen Hrlen Hglen Hcore Hwfs Hgl Hrdy Huniq Hcov].
  set (rem' := <[t := (AQueryGlobal g, S') :: l']> rem) in *.
  destruct (lookup_lt_is_Some_2 (r_global st) g) as [x Hx]; [lia|].
  pose proof (λ g', merges_pop g' _ _ _ _ Ht) as HM. pose proof (λ g', sets_pop g' _ _ _ _ Ht) as HZ.
  fold rem' in HM, HZ. unfold merge_nodes in HM. unfold set_marks in HZ. simpl in HM, HZ.
  pose proof (HM g) as HMg. rewrite decide_True in HMg by done. simpl in HMg.
  assert (global_ok gnodes gcount g (S :: merges_to g rem') (sets_to g rem') x) as Hgo.
  { eapply global_ok_perm; [exact HMg|apply HZ|by apply Hgl]. }
  assert (0 < gcount g) as Hgc by (destruct Hgo as [_ _ Hc _ _ _]; simpl in Hc; lia).
  destruct (global_merge_ok g (merges_to g rem') (sets_to g rem') S s x)
    as (ready & x' & Hmg & Hgo' & Hready & Hdone); [done|done| |done|].
  { destruct HZM as [HZM|HZM]; [left|by right]. specialize (HZ g). rewrite HZM in HZ.
    by destruct (sets_to g rem'). }
  unfold exec_action. simpl. rewrite (arr_get_Ok _ _ _ Hx). simpl. unfold merge_global in Hmg.
  injection Hmg as Hmg1 Hmg2. rewrite Hmg1, Hmg2. eexists. split; [done|].
  assert (∀ g', g' ≠ g → merges_to g' rem ≡ₚ merges_to g' rem') as HMo.
  { intros g' Hne. specialize (HM g'). by rewrite decide_False in HM. }
  pose proof (λ g' u, ready_at_merge (r_ready st) rem t g ready g' u (AQueryGlobal g, S') l'
    eq_refl ltac:(by eapply lookup_lt_Some) ltac:(lia)) as Hra. fold rem' in Hra.
  assert (∀ u, ¬ ready_at (r_ready st) rem g u) as Hnone.
  { intros u Hu. destruct (Hrdy g u x Hu Hx) as [Hnil _]. rewrite Hnil in HMg.
    by apply Permutation_nil_cons in HMg. }
  constructor; simpl; try done.
  - unfold rem'. by rewrite length_insert.
  - by rewrite length_insert.
  - by rewrite length_insert.
  - eapply wf_rem_pop; [done|done|]. right. by eexists _, _, _.
  - intros g' y Hy. destruct (decide (g' = g)) as [->|Hne].
    + rewrite list_lookup_insert_eq in Hy by lia. by injection Hy as <-.
    + rewrite list_lookup_insert_ne in Hy by done.
      eapply global_ok_perm; [by apply HMo|apply HZ|by apply Hgl].
  - intros g' u y Hu Hy. apply Hra in Hu as [(-> & -> & Hrt)|(Hut & Hu)].
    + rewrite list_lookup_insert_eq in Hy by lia. injection Hy as <-.
      apply Hready in Hrt. split_and!; [done|done|by apply Hdone].
    + assert (g' ≠ g) as Hne by (intros ->; by eapply Hnone).
      rewrite list_lookup_insert_ne in Hy by done. destruct (Hrdy g' u y Hu Hy) as (Hnil & ? & ?).
      split_and!; try done. apply Permutation_nil. rewrite <- Hnil. by apply HMo.
  - intros g' u u' Hu Hu'. apply Hra in Hu as [(-> & -> & _)|(? & Hu)], Hu' as [(-> & Hg' & _)|(? & Hu')];
      [done|by apply Hnone in Hu'|subst g'; by apply Hnone in Hu|by apply (Huniq g')].
  - intros S0 HS0. destruct (Hcov S0 HS0) as [Hc|[Hp|(g' & Hgn & Hgc' & Hgm)]]; [by left| |].
    + apply (local_pending_pop _ _ _ _ _ Ht) in Hp as [Hp|(s' & S1 & Heq & _)]; [|done]. by auto.
    + right. right. exists g'. split_and!; [done..|]. destruct (decide (g' = g)) as [->|Hne].
      * destruct (decide (merges_to g rem' = [])) as [Hnil|Hnn]; [right|by left].
        exists t. split.
        -- exists S', l'. unfold rem'. apply list_lookup_insert_eq. by eapply lookup_lt_Some.
        -- rewrite list_lookup_total_insert_eq by lia. by apply Hready.
      * destruct Hgm as [Hgm|[u Hu]].
        -- left. intros Hnil. apply Hgm. apply Permutation_nil. rewrite <- Hnil. symmetry.
           by apply HMo.
        -- right. exists u. assert (u ≠ t) as Hut.
           { intros ->. destruct Hu as [(? & ? & Hu) _]. congruence. }
           destruct Hu as [Hu Hru]. split.
           ++ unfold rem'. by rewrite list_lookup_insert_ne.
           ++ by rewrite list_lookup_total_insert_ne.
Qed.

Lemma step_query_ready rem st t g S l :
  inv rem st → rem !! t = Some ((AQueryGlobal g, S) :: l) → r_ready st !!! t = true →
  ∃ st', exec_action k st (t, AQueryGlobal g) = Ok st' ∧ inv (<[t := l]> rem) st'.
Proof.
  intros Hi Ht Hrt. destruct (head_wf _ _ _ _ _ Hi Ht) as [Hwf HtT].
  assert (g < T ∧ wf_prog l) as [Hg Hl].
  { destruct Hwf as [Hwf|(? & ? & ? & Heq & ? & ?)]; [by inversion Hwf|by simplify_eq]. }
  destruct Hi as [Hlen Hrlen Hglen Hcore Hwfs Hgl Hrdy Huniq Hcov].
  destruct (lookup_lt_is_Some_2 (r_global st) g) as [x Hx]; [lia|].
  assert (ready_at (r_ready st) rem g t) as Hrat by (split; [by eauto|done]).
  destruct (Hrdy g t x Hrat Hx) as (HMg & Hgc & Hh). pose proof (Hgl g x Hx) as Hgo.
  destruct (sample_law _ _ (r_global st) (r_ready st) _ _ (g_sketch x) (gnodes g) Hcore Hh
    (Hglobal g Hgc) (go_wf _ _ _ _ _ _ Hgo)) as (d & f & b & e & s' & Hsc & Hcore' & Hset & Hmono & Hg' & Hw').
  destruct st as [d0 f0 gl rd b0 e0]. simpl in *.
  unfold exec_action. simpl. rewrite Hrt, (arr_get_Ok _ _ _ Hx). simpl. rewrite Hsc. simpl.
  eexists. split; [done|].
  assert (∀ g', merges_to g' rem ≡ₚ merges_to g' (<[t := l]> rem)) as HM
    by (intros g'; apply (merges_pop g' _ _ _ _ Ht)).
  assert (∀ g' u, ready_at rd (<[t := l]> rem) g' u →
    u ≠ t ∧ g' ≠ g ∧ ready_at rd rem g' u) as Hrd.
  { intros g' u Hu. apply (ready_at_pop T gcount) in Hu as [Hut Hu]; [|done].
    split_and!; [done| |done]. intros ->. by apply Hut, (Huniq g). }
  constructor; simpl; try done.
  - by rewrite length_insert.
  - by rewrite length_insert.
  - eapply wf_rem_pop; [done|done|by left].
  - intros g' y Hy. eapply (global_ok_perm gnodes gcount g' (merges_to g' rem));
      [apply HM|apply (sets_pop g' _ _ _ _ Ht)|].
    destruct (decide (g' = g)) as [->|Hne].
    + rewrite list_lookup_insert_eq in Hy by lia. injection Hy as <-.
      destruct Hgo as [G1 G2 G3 G4 G5 G6]. constructor; simpl; try done. by rewrite Hg'.
    + rewrite list_lookup_insert_ne in Hy by done. by apply Hgl.
  - intros g' u y Hu Hy. apply Hrd in Hu as (Hut & Hne & Hu).
    rewrite list_lookup_insert_ne in Hy by done. destruct (Hrdy g' u y Hu Hy) as (Hnil & ? & ?).
    split_and!; try done. apply Permutation_nil. rewrite <- Hnil. by apply HM.
  - intros g' u u' Hu Hu'. apply Hrd in Hu as (_ & _ & Hu), Hu' as (_ & _ & Hu').
    by apply (Huniq g').
  - intros S0 HS0. destruct (Hcov S0 HS0) as [Hc|[Hp|(g' & Hgn & Hgc' & Hgm)]]; [by auto| |].
    + apply (local_pending_pop _ _ _ _ _ Ht) in Hp as [Hp|(? & ? & ? & _)]; [by auto|done].
    + destruct (decide (g' = g)) as [->|Hne]; [left; by apply (settled_perm _ _ _ _ Hgn)|].
      right. right. exists g'. split_and!; [done..|]. destruct Hgm as [Hgm|[u Hu]].
      * left. intros Hnil. apply Hgm, Permutation_nil. rewrite <- Hnil. symmetry. by apply HM.
      * right. exists u. apply ready_at_other; [|done]. intros ->.
        destruct Hu as [(? & ? & Hu) _]. congruence.
Qed.

Lemma step_query_idle rem st t g S l :
  inv rem st → rem !! t = Some ((AQueryGlobal g, S) :: l) → r_ready st !!! t = false →
  ∃ st', exec_action k st (t, AQueryGlobal g) = Ok st' ∧ inv (<[t := l]> rem) st'.
Proof.
  intros Hi Ht Hrt. destruct (head_wf _ _ _ _ _ Hi Ht) as [Hwf HtT].
  assert (wf_prog l) as Hl.
  { destruct Hwf as [Hwf|(? & ? & ? & Heq & ? & ?)]; [by inversion Hwf|by simplify_eq]. }
  destruct (neutral_pop _ _ _ _ _ Hi Ht Hl) as (HM & HM0 & Hrd & Hcov); [done| |].
  { intros g' [_ Hr]. congruence. }
  destruct Hi as [Hlen Hrlen Hglen Hcore Hwfs Hgl Hrdy Huniq _].
  unfold exec_action. simpl. rewrite Hrt. exists st. split; [done|].
  constructor; try done.
  - by rewrite length_insert.
  - eapply wf_rem_pop; [done|done|by left].
  - intros g' y Hy. eapply global_ok_perm; [apply HM|apply (sets_pop g' _ _ _ _ Ht)|by apply Hgl].
  - intros g' u y Hu Hy. rewrite <- HM0. by apply (Hrdy g' u y); [apply Hrd|].
  - intros g' u u' Hu Hu'. by apply (Huniq g'); apply Hrd.
  - intros S0 HS0.
    destruct (Hcov S0 HS0) as [Hc|[Hp|[(s' & S' & Heq & HS')|Hp]]]; by auto.
Qed.

(** Every action of the remaining programs runs and keeps the invariant. *)
Lemma step_ok rem st t a l :
  inv rem st → rem !! t = Some (a :: l) →
  ∃ st', exec_action k st (t, a.1) = Ok st' ∧ inv (<[t := l]> rem) st'.
Proof.
  intros Hi Ht. destruct a as [[s|g c|g s|g] S]; simpl.
  - by eapply step_local.
  - by eapply step_set.
  - eapply step_merge; [done|done|]. destruct (head_wf _ _ _ _ _ Hi Ht) as [Hwf _].
    assert (wf_rem l) as Hl.
    { destruct Hwf as [Hwf|(? & ? & ? & ? & _)]; [|done]. inversion Hwf; subst.
      match goal with Ha : act_ok (AMergeGlobal _ _, _) |- _ => destruct Ha as [Hg _] end.
      right. by eexists _, _, _. }
    pose proof (sets_pop g _ _ _ _ Ht) as HZ. unfold set_marks in HZ. simpl in HZ.
    destruct (sets_then_merges T gnodes gcount g (<[t := l]> rem)) as [HZ0|HM]; [|left|by right].
    + eapply wf_rem_pop; [by apply Hi|done|done].
    + rewrite HZ0 in HZ. by destruct (sets_to g rem).
  - destruct (r_ready st !!! t) eqn:Hr; [by eapply step_query_ready|by eapply step_query_idle].
Qed.
End steps.

(** ** A whole round *)

Definition globals_ok (fresh : Sketch) (T : nat) (gs : list GlobalMergeData) : Prop :=
  length gs = T ∧
  ∀ g x, gs !! g = Some x → sketch_wf (g_sketch x) ∧ geometry (g_sketch x) = geometry fresh.

Section run.
Context `{BuildConfig, Hashing} {fresh : Sketch} {k : nat} `{!RoundMeaning fresh k} (T : nat).
Context (comps : list (list nat)) (gnodes : nat → list nat) (gcount : nat → nat).

Lemma round_inv_start progs d f gs :
  round_progs_ok T comps gnodes gcount progs → globals_ok fresh T gs → core d f false None →
  round_inv T comps gnodes gcount progs
    (mkRound d f (reset_global <$> gs) (replicate T false) false None).
Proof.
  intros [Pl Pwf Pc Pn Ps Psm Pg Pcov] [Hgl Hgs] Hcore.
  assert (∀ g t, ¬ ready_at (replicate T false) progs g t) as Hnr.
  { intros g t [(Q & l & Ht) Hr]. apply lookup_lt_Some in Ht.
    by rewrite lookup_total_replicate_2 in Hr by lia. }
  assert (Forall (wf_rem T gcount) progs) as Hwf.
  { eapply Forall_impl; [exact Pwf|]. intros l Hl. by left. }
  constructor; simpl; try done.
  - by rewrite length_replicate.
  - by rewrite length_fmap.
  - intros g x Hx. rewrite list_lookup_fmap in Hx.
    destruct (gs !! g) as [y|] eqn:Hy; simpl in Hx; [|done]. injection Hx as <-.
    destruct (Hgs g y Hy) as [Hw Hg]. constructor; simpl.
    + done.
    + by apply zero_contents_wf.
    + rewrite Pc. lia.
    + intros Hc. rewrite decide_False; [done|]. rewrite Ps by done. lia.
    + destruct (decide (0 < gcount g)) as [Hc|Hc]; [by rewrite Ps|].
      destruct (sets_then_merges T gnodes gcount g progs Hwf) as [->|HM]; [simpl; lia|].
      specialize (Pc g). destruct (merges_to g progs); [done|]. simpl in Pc. lia.
    + intros _. exists []. split; [apply Pn|by apply holds_zero].
  - intros g t x Hr. by apply Hnr in Hr.
  - intros g t t' Hr. by apply Hnr in Hr.
  - intros S HS. right. destruct (Pcov S HS) as [Hl|(g & Hgn & Hgc)]; [by left|right].
    exists g. split_and!; [done..|]. left. intros HM. specialize (Pc g). rewrite HM in Pc.
    simpl in Pc. lia.
Qed.

(** Whatever the interleaving, the round runs to its end and every component
    is settled. *)
Lemma round_run_ok progs sched d f gs :
  round_progs_ok T comps gnodes gcount progs → globals_ok fresh T gs → core d f false None →
  ∃ st, exec_all k (mkRound d f (reset_global <$> gs) (replicate T false) false None)
      (interleave sched ((λ l : list gact, l.*1) <$> progs)) = Ok st ∧
    core (r_dsu st) (r_forest st) (r_modified st) (r_err st) ∧
    globals_ok fresh T (r_global st) ∧
    ∀ S, S ∈ comps → settled (r_modified st) (r_err st) S.
Proof.
  intros Hp Hgs Hcore. pose proof (round_inv_start progs d f gs Hp Hgs Hcore) as Hi.
  destruct Hp as [_ _ _ _ _ Psm Pg _].
  unfold exec_all. rewrite interleave_fmap, outcome_fold_fmap.
  destruct (interleave_invariant (λ st b, exec_action k st (b.1, b.2.1))
    (round_inv T comps gnodes gcount)) with (sched := sched) (ts := progs)
    (st := mkRound d f (reset_global <$> gs) (replicate T false) false None)
    as (st & rem & -> & Hnil & Hlen & Hinv); [|done|].
  { intros rem t a l st Ht Hinv. by apply step_ok. }
  exists st. destruct Hinv as [_ _ Hgl Hc _ Hgo _ _ Hcov]. split; [done|]. split; [done|].
  assert (concat rem = []) as Hrem.
  { clear -Hnil. induction Hnil as [|l rem -> _ IH]; [done|]. by simpl. }
  split.
  - split; [done|]. intros g x Hx. destruct (Hgo g x Hx). done.
  - intros S HS. destruct (Hcov S HS) as [|[(s & S' & Hin & _)|(g & _ & _ & [Hm|(t & (Q & l & Ht) & _)])]];
      [done| | |].
    + rewrite Hrem in Hin. by apply not_elem_of_nil in Hin.
    + destruct Hm. unfold merges_to. by rewrite Hrem.
    + apply (Forall_lookup_1 _ _ _ _ Hnil) in Ht. done.
Qed.
End run.

(** ** The meaning of a round that still has samples *)

Section sampling.
Context `{BuildConfig, Hashing}.
Context (n : nat) (n_ok : (N.of_nat n ≤ 2 ^ 32)%N).
Context (E : gset N) (E_ok : graph_ok n E).
Context (fresh : Sketch) (k : nat) (d0 : DSU).
Hypothesis Hsound : checksum_sound (seed fresh) E.
Hypothesis Hk : k < num_samples fresh.

Definition cut_holds (s : Sketch) (S : list nat) : Prop :=
  represents_at s k (node_sum E S) ∧ geometry s = geometry fresh ∧
  sample_idx s ≤ k ∧ (S ≠ [] → sample_idx s = k).

Definition cut_provides (s : Sketch) (S : list nat) : Prop :=
  represents_at s k (node_sum E S) ∧ geometry s = geometry fresh.

Definition cut_good (S : list nat) : Prop := S ≠ [] ∧ NoDup S ∧ closed n d0 S.

(** No exception, and as long as no sample asked for another round the
    union-find relates what it related at the start. *)
Definition cut_core (d : DSU) (f : list (gset nat)) (b : bool) (e : option exn) : Prop :=
  partial_answer n E d f ∧ e = None ∧ (b = false → same_rel n d0 d).

Definition cut_settled (b : bool) (e : option exn) (S : list nat) : Prop :=
  b = true ∨ cut E S = ∅.

Lemma cut_holds_merge s t S S' :
  cut_holds s S → cut_provides t S' → cut_holds (range_merge s t k 1) (S ++ S').
Proof.
  intros (Hr & Hg & Hi & _) (Hr' & Hg').
  assert (k < num_samples s) as Hks by (unfold geometry in Hg; injection Hg as _ -> _ _ _ _; done).
  assert (sample_idx (range_merge s t k 1) = k) as Hidx.
  { unfold range_merge. rewrite decide_False by lia. simpl. lia. }
  split_and!; [|by rewrite range_merge_geometry|lia|done].
  rewrite node_sum_app. apply represents_at_range_merge; [done..|congruence|done].
Qed.

Lemma cut_sample_ok d f gl rd b e s S :
  cut_core d f b e → cut_holds s S → cut_good S →
  ∃ d' f' b', sample_caught (mkRound d f gl rd b e) s =
      Ok (mkRound d' f' gl rd b' None, set_sample_idx s (Datatypes.S k)) ∧
    cut_core d' f' b' None ∧ (b' = false → b = false ∧ cut E S = ∅).
Proof.
  intros (Hpa & -> & Hsame) (Hr & Hg & _ & Hidx) (Hne & Hnd & Hcl). specialize (Hidx Hne).
  rewrite (node_sum_cut n) in Hr by done.
  assert (seed s = seed fresh ∧ num_samples s = num_samples fresh) as [Hsd Hns]
    by (unfold geometry in Hg; split; congruence).
  destruct (sample_supernode_ok n n_ok E E_ok d f s S)
    as (m & d' & f' & Hss & Hpa' & Hm); [done|by rewrite Hidx|by rewrite Hsd|lia|].
  unfold sample_caught. simpl. rewrite Hss, Hidx.
  eexists _, _, _. split; [done|]. unfold cut_core.
  assert (b || m = false → b = false ∧ same_rel n d0 d' ∧ cut E S = ∅) as Hb.
  { intros [Hb ->]%orb_false_iff. destruct (Hm eq_refl) as [Hsr Hcut].
    specialize (Hsame Hb). split_and!; [done| |by apply Hcut; eapply closed_same].
    intros x y Hx Hy. etrans; [by apply Hsr|by apply Hsame]. }
  split_and!; try done; intros Hbm; destruct (Hb Hbm) as (? & ? & ?); done.
Qed.

Lemma cut_sample_law d f gl rd b e s S :
  cut_core d f b e → cut_holds s S → cut_good S → sketch_wf s →
  ∃ d' f' b' e' s', sample_caught (mkRound d f gl rd b e) s =
      Ok (mkRound d' f' gl rd b' e', s') ∧
    cut_core d' f' b' e' ∧ cut_settled b' e' S ∧
    (∀ S0, cut_settled b e S0 → cut_settled b' e' S0) ∧
    geometry s' = geometry s ∧ sketch_wf s'.
Proof.
  intros Hc Hh Hgd Hwf. destruct (cut_sample_ok d f gl rd b e s S Hc Hh Hgd)
    as (d' & f' & b' & Hsc & Hc' & Hb').
  exists d', f', b', None. eexists. split; [exact Hsc|]. unfold cut_settled.
  split_and!; [done| | |done|by eapply sketch_wf_intro].
  - destruct b'; [by left|right]. by apply Hb'.
  - intros S0 [->|?]; [|by right]. left. destruct b'; [done|]. by destruct (Hb' eq_refl).
Qed.

#[refine] Instance cut_meaning : RoundMeaning fresh k := {|
  holds := cut_holds; provides := cut_provides; good := cut_good; core := cut_core; settled := cut_settled
|}.
Proof.
  - intros s Hwf Hg. split_and!; [|done|simpl; lia|done].
    apply represents_represents_at. by apply represents_zero_contents.
  - by intros s S (? & ? & _).
  - exact cut_holds_merge.
  - intros s S S' HS (Hr & Hg & Hi & Hn). split_and!; [|done|done|].
    + by rewrite <- (node_sum_perm _ _ _ HS).
    + intros Hne. apply Hn. intros ->. apply Hne. by apply Permutation_nil.
  - intros b e S S' HS [?|Hc]; [by left|right]. by rewrite <- (cut_perm E _ _ HS).
  - exact cut_sample_law.
Defined.
End sampling.

(** ** The meaning of a round without samples left *)

Section exhausted.
Context `{BuildConfig, Hashing}.
Context (n : nat) (E : gset N) (fresh : Sketch) (k : nat).
Hypothesis Hk : num_samples fresh ≤ k.

Definition out_holds (s : Sketch) (S : list nat) : Prop :=
  geometry s = geometry fresh ∧ (S ≠ [] → num_samples fresh ≤ sample_idx s).

Definition out_core (d : DSU) (f : list (gset nat)) (b : bool) (e : option exn) : Prop :=
  partial_answer n E d f ∧
  ∀ x, e = Some x → ∃ i, x = OutOfSamplesException (seed fresh) (num_samples fresh) i.

Definition out_settled (b : bool) (e : option exn) (S : list nat) : Prop := e ≠ None.

Lemma out_sample_law d f gl rd b e s S :
  out_core d f b e → out_holds s S → S ≠ [] → sketch_wf s →
  ∃ d' f' b' e' s', sample_caught (mkRound d f gl rd b e) s =
      Ok (mkRound d' f' gl rd b' e', s') ∧
    out_core d' f' b' e' ∧ out_settled b' e' S ∧
    (∀ S0, out_settled b e S0 → out_settled b' e' S0) ∧
    geometry s' = geometry s ∧ sketch_wf s'.
Proof.
  intros [Hpa He] [Hg Hidx] Hne Hwf. specialize (Hidx Hne).
  assert (seed s = seed fresh ∧ num_samples s = num_samples fresh) as [Hsd Hns]
    by (unfold geometry in Hg; split; congruence).
  unfold sample_caught, sample_supernode. rewrite sample_exhausted by lia. simpl.
  eexists _, _, _, _, _. split; [done|]. split_and!; try done.
  split; [done|]. intros x [= <-]. rewrite Hsd, Hns. by eexists.
Qed.

#[refine] Instance out_meaning : RoundMeaning fresh k := {|
  holds := out_holds; provides := λ _ _, True; good := λ S, S ≠ []; core := out_core; settled := out_settled
|}.
Proof.
  - intros s Hwf Hg. by split.
  - done.
  - intros s t S S' [Hg Hi] _. split; [by rewrite range_merge_geometry|]. intros _.
    assert (num_samples s = num_samples fresh) as Hns
      by (unfold geometry in Hg; congruence).
    unfold range_merge. rewrite decide_True by lia. simpl. lia.
  - intros s S S' HS [Hg Hi]. split; [done|]. intros Hne. apply Hi. intros ->.
    apply Hne. by apply Permutation_nil.
  - done.
  - exact out_sample_law.
Defined.
End exhausted.
