(* ===== verification/BoruvkaThreads.v ===== *)
(** * The threads' programs cover every component

    The program a thread derives from its segment of the merge instructions,
    run by run, and the fact that the programs of all threads together satisfy
    [round_progs_ok]: every component is sampled by one thread, or merged into
    the global of its last thread by exactly the announced number of threads. *)

From Stdlib Require Import NArith Lia.
From stdpp Require Import base list gmap sets numbers relations.
From S2P Require Import Prelude Float64 Util Bucket Sketch SketchSpec Dsu Graph CCSketchAlg Partition MergeInstr Boruvka BoruvkaRound.

(** ** The block of a root *)

Section blocks.
Context (n : nat) (n_ok : (N.of_nat n < 2 ^ 32)%N) (p : list nat) (m : list MergeInstr).
Hypothesis Hm : instrs_ok n p m.
Context (part : nat → nat → nat → nat * nat) (T : nat).
Hypothesis Hp : partition_ok part n T.

#[local] Abbreviation bound := (part_bound part n T).

Definition occurs (r : nat) : Prop := ∃ x, x ∈ m ∧ root x = r.

Lemma length_m : length m = n.
Proof. by eapply instrs_length. Qed.

(** The indices of a root are an interval. *)
Lemma root_block r :
  occurs r → ∃ a b z, a ≤ b < n ∧ last_of_root m r 0 = Ok b ∧
    list_find (λ x, root x = r) m = Some (a, z) ∧
    ∀ i x, m !! i = Some x → root x = r ↔ a ≤ i ≤ b.
Proof.
  intros (x & Hx & Hr). apply list_elem_of_lookup in Hx as [k Hk].
  destruct (last_of_root_ok n n_ok p m Hm r k x 0 Hk Hr ltac:(lia))
    as (b & y & Hlast & Hkb & Hb & Hyr & Hafter).
  destruct (list_find (λ x, root x = r) m) as [[a z]|] eqn:Hf.
  2: { apply list_find_None in Hf. rewrite list.Forall_forall in Hf.
       destruct (Hf x); [by eapply list_elem_of_lookup_2|done]. }
  apply list_find_Some in Hf as (Ha & Hzr & Hbefore).
  exists a, b, z. pose proof (lookup_lt_Some _ _ _ Hb) as Hbn. rewrite length_m in Hbn.
  assert (a ≤ k) as Hak.
  { apply Nat.nlt_ge. intros Hka. by destruct (Hbefore k x Hk Hka). }
  split_and!; [lia|lia|done|done|]. intros i w Hw. split.
  - intros Hwr. split.
    + apply Nat.nlt_ge. intros Hia. by destruct (Hbefore i w Hw Hia).
    + apply Nat.nlt_ge. intros Hbi. pose proof (Hafter i w Hbi Hw). lia.
  - intros [Hai Hib].
    assert (root z ≤ root w) as Hzw.
    { destruct (decide (a = i)) as [->|]; [by simplify_eq|].
      apply (io_sorted _ _ _ Hm a i); [done..|lia]. }
    assert (root w ≤ root y) as Hwy.
    { destruct (decide (i = b)) as [->|]; [by simplify_eq|].
      apply (io_sorted _ _ _ Hm i b); [done..|lia]. }
    lia.
Qed.

(** The thread of an index, and of the first and last index of a root. *)
Definition thread_of_index (i : nat) : nat := get_partition_idx n i T.
Definition last_thread (r : nat) : nat :=
  match last_of_root m r 0 with Ok b => thread_of_index b | Throw _ => 0 end.

Definition first_thread (r : nat) : nat :=
  match list_find (λ x, root x = r) m with Some (a, _) => thread_of_index a | None => 0 end.

Lemma thread_of_index_spec i :
  i < n → thread_of_index i < T ∧ bound (thread_of_index i) ≤ i < bound (S (thread_of_index i)).
Proof.
  intros Hi. destruct (part_bound_find _ _ _ Hp i Hi) as (t & Ht & Hb).
  unfold thread_of_index. by rewrite (part_bound_inverse _ _ _ Hp t i).
Qed.

Lemma thread_of_index_le i t : i < n → t ≤ T → thread_of_index i < t ↔ i < bound t.
Proof.
  intros Hi Ht. destruct (thread_of_index_spec i Hi) as [HT Hb]. split; intros Hlt.
  - pose proof (part_bound_le _ _ _ Hp (S (thread_of_index i)) t ltac:(lia) Ht). lia.
  - apply Nat.nle_gt. intros Hge.
    pose proof (part_bound_le _ _ _ Hp t (thread_of_index i) Hge ltac:(lia)). lia.
Qed.

(** ** Segments *)

Definition seg (t : nat) : list MergeInstr :=
  take (bound (S t) - bound t) (drop (bound t) m).
Definition seg_nodes (t r : nat) : list nat := child <$> filter (λ x, root x = r) (seg t).
Definition all_nodes (r : nat) : list nat := child <$> filter (λ x, root x = r) m.
Definition in_seg (t r : nat) : Prop := ∃ x, x ∈ seg t ∧ root x = r.

#[global] Instance in_seg_dec t r : Decision (in_seg t r).
Proof.
  refine (cast_if (decide (Exists (λ x, root x = r) (seg t))));
    unfold in_seg; by rewrite <- Exists_exists.
Defined.

Lemma bound_le_n t : t ≤ T → bound t ≤ n.
Proof. 
  intros Ht. pose proof (part_bound_le _ _ _ Hp t T Ht ltac:(done)) as Hle.
  by rewrite part_bound_T in Hle.
Qed.

Lemma elem_of_seg t x :
  t < T → x ∈ seg t ↔ ∃ i, bound t ≤ i < bound (S t) ∧ m !! i = Some x.
Proof.
  intros Ht. pose proof (part_bound_lt _ _ _ Hp t Ht). unfold seg. rewrite list_elem_of_lookup. split.
  - intros [i Hi]. apply lookup_take_Some in Hi as [Hi Hlt]. rewrite lookup_drop in Hi.
    exists (bound t + i). split; [lia|done].
  - intros (i & Hi & Hx). exists (i - bound t). rewrite lookup_take_lt, lookup_drop by lia.
    by replace (bound t + (i - bound t)) with i by lia.
Qed.

Lemma segs_concat (f : list MergeInstr → list MergeInstr) :
  f [] = [] → (∀ l l', f (l ++ l') = f l ++ f l') →
  concat ((λ t, f (seg t)) <$> seq 0 T) = f m.
Proof.
  intros Hnil Happ.
  assert (∀ k, k ≤ T → concat ((λ t, f (seg t)) <$> seq 0 k) = f (take (bound k) m)) as Hk.
  { induction k as [|k IH]; intros Hk; [by rewrite (part_bound_0 _ _ _ Hp)|].
    rewrite seq_S, fmap_app, concat_app, IH by lia. simpl. rewrite app_nil_r, <- Happ. f_equal.
    unfold seg. pose proof (part_bound_lt _ _ _ Hp k Hk).
    by rewrite take_take_drop, Nat.add_comm, Nat.sub_add by lia. }
  rewrite Hk by done. rewrite part_bound_T, take_ge; [done|]. by rewrite length_m.
Qed.

(** Where a root occurs: from the thread of its first index to that of its
    last. *)
Lemma root_threads r :
  occurs r → first_thread r ≤ last_thread r < T ∧
    (∀ t, t < T → in_seg t r ↔ first_thread r ≤ t ≤ last_thread r) ∧
    (∀ t x, t < T → in_seg t r → m !! (bound t - 1) = Some x → 0 < bound t →
       root x = r ↔ first_thread r < t) ∧
    (∀ t x, t < T → in_seg t r → m !! bound (S t) = Some x → root x = r ↔ t < last_thread r) ∧
    (∀ t, in_seg t r → t < T → bound t = 0 → first_thread r = t) ∧
    (∀ t, in_seg t r → t < T → bound (S t) = n → last_thread r = t).
Proof.
  intros Hocc. destruct (root_block r Hocc) as (a & b & z & Hab & Hlast & Hfirst & Hiff).
  assert (last_thread r = thread_of_index b) as Hlt by (unfold last_thread; by rewrite Hlast).
  assert (first_thread r = thread_of_index a) as Hft by (unfold first_thread; by rewrite Hfirst).
  rewrite Hlt, Hft.
  assert (∀ i t, i < n → t ≤ T → thread_of_index i < t ↔ i < bound t) as Hti
    by (intros; by apply thread_of_index_le).
  pose proof (thread_of_index_spec a ltac:(lia)) as [HaT Ha].
  pose proof (thread_of_index_spec b ltac:(lia)) as [HbT Hb].
  assert (∀ t, t < T → in_seg t r ↔ thread_of_index a ≤ t ≤ thread_of_index b) as Hin.
  { intros t Ht. pose proof (part_bound_lt _ _ _ Hp t Ht) as Hbt.
    pose proof (Hti a (S t) ltac:(lia) ltac:(lia)) as H1. pose proof (Hti b t ltac:(lia) ltac:(lia)) as H2.
    split.
    - intros (x & Hx & Hr). apply (elem_of_seg t x Ht) in Hx as (i & Hi & Hx).
      apply (Hiff i x Hx) in Hr. lia.
    - intros [H3 H4]. pose proof (bound_le_n (S t) ltac:(lia)) as Hbn.
      destruct (lookup_lt_is_Some_2 m (a `max` bound t)) as [x Hx]; [rewrite length_m; lia|].
      exists x. split; [apply elem_of_seg; [done|]; exists (a `max` bound t); split; [lia|done]|].
      apply (Hiff _ _ Hx). lia. }
  split; [split; [|done]|split; [exact Hin|]].
  { apply Nat.nlt_ge. intros Hc. apply Hti in Hc; lia. }
  split; [|split; [|split]].
  - intros t x Ht His Hx Hpos. apply Hin in His; [|done]. rewrite (Hiff _ _ Hx), Hti by lia.
    pose proof (Hti b t ltac:(lia) ltac:(lia)). lia.
  - intros t x Ht His Hx. apply Hin in His; [|done]. rewrite (Hiff _ _ Hx).
    pose proof (Hti a (S t) ltac:(lia) ltac:(lia)). pose proof (Hti b (S t) ltac:(lia) ltac:(lia)). lia.
  - intros t His Ht H0. apply Hin in His; [|done].
    destruct (decide (thread_of_index a = t)) as [|Hne]; [done|].
    pose proof (Hti a t ltac:(lia) ltac:(lia)). lia.
  - intros t His Ht Hend. apply Hin in His; [|done].
    destruct (decide (thread_of_index b = t)) as [|Hne]; [done|].
    pose proof (Hti b (S t) ltac:(lia) ltac:(lia)). lia.
Qed.

(** A root that leaves its segment on neither side lies in one segment. *)
Lemma first_le_in_seg t r : t < T → in_seg t r → occurs r.
Proof.
  intros Ht (x & Hx & Hr). apply elem_of_seg in Hx as (i & _ & Hx); [|done].
  exists x. split; [by eapply list_elem_of_lookup_2|done].
Qed.

(** The part of segment [t] before index [i]. *)
Definition seg_prefix (t i : nat) : list MergeInstr := take (i - bound t) (drop (bound t) m).

Lemma seg_prefix_S t i y :
  bound t ≤ i → m !! i = Some y → seg_prefix t (S i) = seg_prefix t i ++ [y].
Proof.
  intros Hi Hy. unfold seg_prefix. replace (S i - bound t) with (S (i - bound t)) by lia.
  apply take_S_r. rewrite lookup_drop. by replace (bound t + (i - bound t)) with i by lia.
Qed.

Lemma elem_of_seg_prefix t i x :
  x ∈ seg_prefix t i → ∃ j, bound t ≤ j < i ∧ m !! j = Some x.
Proof.
  unfold seg_prefix. intros [j Hj]%list_elem_of_lookup.
  apply lookup_take_Some in Hj as [Hj Hlt]. rewrite lookup_drop in Hj.
  exists (bound t + j). split; [lia|done].
Qed.

(** Once the root has changed, the nodes of the earlier root are complete. *)
Lemma seg_nodes_complete t i r y :
  t < T → bound t ≤ i < bound (S t) → m !! i = Some y → r < root y →
  seg_nodes t r = child <$> filter (λ x, root x = r) (seg_prefix t i).
Proof.
  intros Ht Hi Hy Hr. unfold seg_nodes, seg, seg_prefix.
  replace (bound (S t) - bound t) with ((i - bound t) + (bound (S t) - i)) by lia.
  rewrite <- take_take_drop, list.filter_app, fmap_app.
  assert (filter (λ x, root x = r) (take (bound (S t) - i) (drop (i - bound t) (drop (bound t) m))) = [])
    as ->; [|by rewrite app_nil_r].
  rewrite drop_drop, Nat.add_sub_assoc, Nat.add_comm, Nat.add_sub by lia.
  apply elem_of_nil_inv. intros x [Hx Hin]%list_elem_of_filter.
  apply list_elem_of_lookup in Hin as [j Hj]. apply lookup_take_Some in Hj as [Hj _].
  rewrite lookup_drop in Hj. assert (root y ≤ root x); [|lia].
  destruct (decide (j = 0)) as [->|]; [rewrite Nat.add_0_r in Hj; by simplify_eq|].
  apply (io_sorted _ _ _ Hm i (i + j)); [done..|lia].
Qed.
End blocks.

(** ** The loop of a thread *)

Section threads.
Context `{BuildConfig, Hashing} {fresh : Sketch} {k : nat} `{!RoundMeaning fresh k}.
Context (n : nat) (n_ok : (N.of_nat n < 2 ^ 32)%N) (p : list nat) (m : list MergeInstr).
Hypothesis Hm : instrs_ok n p m.
Context (part : nat → nat → nat → nat * nat) (T : nat).
Hypothesis Hp : partition_ok part n T.
Context (base : nat) (sketches : list Sketch).
Hypothesis Hfresh : holds fresh [].
Hypothesis Hfresh_wf : sketch_wf fresh.
Hypothesis Hsk : ∀ v, v < n → ∃ s, sketches !! (base + v) = Some s ∧ provides s [v].

#[local] Abbreviation bound := (part_bound part n T).
#[local] Abbreviation first_thread := (first_thread n m T).
#[local] Abbreviation last_thread := (last_thread n m T).
#[local] Abbreviation seg_nodes := (seg_nodes n m part T).
#[local] Abbreviation seg_prefix := (seg_prefix n m part T).
#[local] Abbreviation in_seg := (in_seg n m part T).

(** The actions of thread [t] for root [r]. *)
Definition emits (t r : nat) (l : list gact) : Prop :=
  ∃ s, holds s (seg_nodes t r) ∧ sketch_wf s ∧
    l = if decide (first_thread r < last_thread r) then
          (if decide (first_thread r = t)
           then [(ASetNeeded (last_thread r) (N.of_nat (S (last_thread r - t))), [])] else []) ++
          [(AMergeGlobal (last_thread r) s, seg_nodes t r); (AQueryGlobal (last_thread r), [])]
        else [(ASampleLocal s, seg_nodes t r)].

(** The state of thread [t] before index [i] of its segment; [x] is the entry
    whose component is being merged. *)
Definition loop_inv (t i : nat) (st : ThreadState) : Prop :=
  ∃ x rs ls, m !! ((i - 1) `max` bound t) = Some x ∧ cur_root st = root x ∧
    holds (local_sketch st) (child <$> filter (λ z, root z = root x) (seg_prefix t i)) ∧
    sketch_wf (local_sketch st) ∧ geometry (local_sketch st) = geometry fresh ∧
    root_from_left st = bool_decide (first_thread (root x) < t) ∧
    NoDup rs ∧ (∀ r, r ∈ rs ↔ r < root x ∧ ∃ z, z ∈ seg_prefix t i ∧ root z = r) ∧
    Forall2 (emits t) rs ls ∧ (concat ls).*1 = actions st.

Lemma occurs_lookup i x : m !! i = Some x → occurs m (root x).
Proof. intros Hx. exists x. split; [by eapply list_elem_of_lookup_2|done]. Qed.

Lemma in_seg_lookup t i x :
  t < T → bound t ≤ i < bound (S t) → m !! i = Some x → in_seg t (root x).
Proof.
  intros Ht Hi Hx. exists x. split; [|done].
  apply (elem_of_seg n n_ok m part T Hp t x Ht). by exists i.
Qed.

Lemma root_le i j x y : m !! i = Some x → m !! j = Some y → i ≤ j → root x ≤ root y.
Proof.
  intros Hx Hy Hij. destruct (decide (i = j)) as [->|]; [by simplify_eq|].
  apply (io_sorted _ _ _ Hm i j); [done..|lia].
Qed.

Lemma child_lt i x : m !! i = Some x → child x < n.
Proof.
  intros Hx. eapply (instr_child_lt n n_ok p m Hm). by eapply list_elem_of_lookup_2.
Qed.

(** The last segment of a root that the next entry of the segment leaves. *)
Lemma left_root_last t i x y :
  t < T → bound t ≤ i < bound (S t) → m !! i = Some x → in_seg t (root x) →
  m !! (bound (S t) - 1) = Some y → root x < root y → last_thread (root x) = t.
Proof.
  intros Ht Hi Hx His Hy Hlt. pose proof (bound_le_n n part T Hp (S t) Ht) as Hbn.
  destruct (root_threads n n_ok p m Hm part T Hp (root x) (occurs_lookup i x Hx))
    as (_ & Hin & _ & Hright & _ & Hend).
  destruct (decide (bound (S t) = n)) as [Heq|Hne]; [by apply Hend|].
  destruct (lookup_lt_is_Some_2 m (bound (S t))) as [z Hz]; [rewrite (length_m n p m Hm); lia|].
  pose proof (root_le _ _ _ _ Hy Hz ltac:(lia)).
  pose proof (proj1 (Hin t Ht) His). pose proof (Hright t z Ht His Hz). lia.
Qed.

(** The announced or local actions of a root the thread has finished. *)
Lemma emits_finished t r s :
  t < T → in_seg t r → last_thread r = t → holds s (seg_nodes t r) → sketch_wf s →
  ∃ l, emits t r l ∧
    l.*1 = if bool_decide (first_thread r < t)
           then [AMergeGlobal t s; AQueryGlobal t] else [ASampleLocal s].
Proof.
  intros Ht His Hlast Hs Hwf. eexists. split; [exists s; split_and!; done|].
  rewrite Hlast. case_decide as Hlt.
  - rewrite decide_False by lia. by rewrite bool_decide_true.
  - by rewrite bool_decide_false.
Qed.

Lemma loop_step t i st :
  t < T → bound t ≤ i < bound (S t) → loop_inv t i st →
  ∃ st', thread_step base sketches k t m (Ok st) i = Ok st' ∧ loop_inv t (S i) st'.
Proof.
  intros Ht Hi (x & rs & ls & Hx & Hcur & Hh & Hwf & Hg & Hfl & Hnd & Hrs & Hls & Hact).
  pose proof (bound_le_n n part T Hp (S t) Ht) as Hbn.
  destruct (lookup_lt_is_Some_2 m i) as [y Hy]; [rewrite (length_m n p m Hm); lia|].
  destruct (Hsk (child y) (child_lt i y Hy)) as (sk & Hsky & Hprov).
  pose proof (seg_prefix_S n n_ok m part T t i y ltac:(lia) Hy) as Hpre.
  pose proof (root_le _ _ _ _ Hx Hy ltac:(lia)) as Hxy.
  assert (∀ z, z ∈ seg_prefix t i → root z ≤ root x) as Hprex.
  { intros z Hz. apply (elem_of_seg_prefix n n_ok) in Hz as (j & Hj & Hz).
    apply (root_le _ _ _ _ Hz Hx). lia. }
  unfold thread_step, mbind, outcome_bind. rewrite (arr_get_Ok _ _ _ Hy), (arr_get_Ok _ _ _ Hsky).
  rewrite Hcur. destruct (decide (root y = root x)) as [Heq|Heq]; (eexists; split; [done|]).
  - exists y, rs, ls. simpl. replace (i - 0) with i by lia.
    rewrite Nat.max_l, Hpre, list.filter_app, fmap_app by lia. simpl.
    rewrite filter_cons_True by done. simpl. rewrite ?Heq.
    split_and!; try done.
    + by apply holds_merge.
    + by apply range_merge_wf.
    + by rewrite range_merge_geometry.
    + intros r. rewrite Hrs. setoid_rewrite elem_of_app. split.
      * intros (Hr & z & Hz & Hzr). eauto 6.
      * intros (Hr & z & [Hz| ->%list_elem_of_singleton] & Hzr); [eauto|lia].
  - assert (root x < root y) as Hlt by lia.
    assert (bound t ≤ (i - 1) `max` bound t < bound (S t)) as Hxi by lia.
    assert (in_seg t (root x)) as Hisx by by eapply in_seg_lookup.
    destruct (lookup_lt_is_Some_2 m (bound (S t) - 1)) as [w Hw]; [rewrite (length_m n p m Hm); lia|].
    pose proof (root_le _ _ _ _ Hy Hw ltac:(lia)) as Hyw.
    assert (last_thread (root x) = t) as Hlast by (eapply (left_root_last t _ x w); eauto; lia).
    pose proof (seg_nodes_complete n n_ok p m Hm part T t i (root x) y Ht Hi Hy Hlt) as Hnodes.
    rewrite <- Hnodes in Hh.
    destruct (emits_finished t (root x) (local_sketch st) Ht Hisx Hlast Hh Hwf) as (l & Hl & Hl1).
    exists y, (rs ++ [root x]), (ls ++ [l]). simpl. replace (i - 0) with i by lia.
    rewrite Nat.max_l, Hpre, list.filter_app, fmap_app by lia. simpl.
    rewrite filter_cons_True by done. simpl.
    assert (filter (λ z, root z = root y) (seg_prefix t i) = []) as ->.
    { apply elem_of_nil_inv. intros z [Hz Hin]%list_elem_of_filter. apply Hprex in Hin. lia. }
    pose proof (in_seg_lookup t i y Ht Hi Hy) as Hisy.
    split_and!; try done.
    + apply holds_merge; [by apply holds_zero|done].
    + by apply range_merge_wf, zero_contents_wf.
    + by rewrite range_merge_geometry.
    + symmetry. apply bool_decide_eq_false. intros Hlt'.
      destruct (root_threads n n_ok p m Hm part T Hp (root y) (occurs_lookup i y Hy))
        as (_ & _ & Hleft & _ & Hzero & _).
      destruct (decide (bound t = 0)) as [Hb0|Hpos]; [specialize (Hzero t Hisy Ht Hb0); lia|].
      destruct (lookup_lt_is_Some_2 m (bound t - 1)) as [z Hz]; [rewrite (length_m n p m Hm); lia|].
      pose proof (root_le _ _ _ _ Hz Hx ltac:(lia)).
      apply (Hleft t z Ht Hisy Hz) in Hlt'; lia.
    + apply NoDup_app. split_and!; [done| |apply NoDup_singleton].
      intros r Hr ->%list_elem_of_singleton. apply Hrs in Hr. lia.
    + intros r. setoid_rewrite elem_of_app. rewrite Hrs, list_elem_of_singleton. split.
      * intros [(Hr & z & Hz & Hzr)| ->]; [split; [lia|]; exists z; auto|].
        split; [done|]. destruct (decide (i = bound t)) as [->|Hne].
        -- rewrite Nat.max_r in Hx by lia. by simplify_eq.
        -- exists x. split; [|done]. left. rewrite Nat.max_l in Hx by lia.
           unfold seg_prefix. apply list_elem_of_lookup. exists (i - 1 - bound t).
           rewrite lookup_take_lt, lookup_drop by lia.
           by replace (bound t + (i - 1 - bound t)) with (i - 1) by lia.
      * intros (Hr & z & [Hz| ->%list_elem_of_singleton] & Hzr); [|lia].
        destruct (decide (r = root x)) as [->|Hne]; [by right|left].
        split; [|by exists z]. specialize (Hprex z Hz). lia.
    + apply Forall2_app; [done|]. by repeat constructor.
    + rewrite concat_app, fmap_app, Hact. simpl. rewrite app_nil_r, Hl1, Hfl.
      by case_bool_decide.
Qed.

Lemma loop_start t first :
  t < T → m !! bound t = Some first →
  loop_inv t (bound t)
    (mkThread (root first) (bool_decide (first_thread (root first) < t)) fresh []).
Proof.
  intros Ht Hf. exists first, [], []. rewrite Nat.max_r by lia. simpl.
  assert (seg_prefix t (bound t) = []) as Hnil.
  { unfold seg_prefix. by rewrite Nat.sub_diag. }
  rewrite Hnil. split_and!; try done; [by apply NoDup_nil_2|].
  intros r. split; [set_solver|]. intros (_ & z & Hz & _). set_solver.
Qed.

Lemma loop_run t st :
  t < T → loop_inv t (bound t) st →
  ∃ st', foldl (thread_step base sketches k t m) (Ok st)
      (seq (bound t) (bound (S t) - bound t)) = Ok st' ∧ loop_inv t (bound (S t)) st'.
Proof.
  intros Ht Hst.
  assert (∀ j, bound t + j ≤ bound (S t) → ∃ st',
    foldl (thread_step base sketches k t m) (Ok st) (seq (bound t) j) = Ok st' ∧
    loop_inv t (bound t + j) st') as Hj.
  { induction j as [|j IH]; intros Hj; [exists st; by rewrite Nat.add_0_r|].
    destruct IH as (st1 & Hrun & Hinv); [lia|]. rewrite seq_S, foldl_app, Hrun.
    destruct (loop_step t (bound t + j) st1 Ht ltac:(lia) Hinv) as (st2 & Hrun2 & Hinv2).
    exists st2. split; [exact Hrun2|]. by rewrite Nat.add_succ_r. }
  pose proof (part_bound_lt _ _ _ Hp t Ht) as Hlt.
  destruct (Hj (bound (S t) - bound t) ltac:(lia)) as (st' & Hrun & Hinv).
  exists st'. split; [done|]. by replace (bound t + (bound (S t) - bound t)) with (bound (S t)) in Hinv by lia.
Qed.

(** The flags the code computes before the loop. *)
Lemma from_left_ok t first :
  t < T → m !! bound t = Some first →
  (if decide (0 < bound t)
   then x ← arr_get m (bound t - 1); Ok (bool_decide (root x = root first))
   else Ok false) = Ok (bool_decide (first_thread (root first) < t)).
Proof.
  intros Ht Hf. pose proof (bound_le_n n part T Hp (S t) Ht) as Hbn.
  pose proof (part_bound_lt _ _ _ Hp t Ht) as Hlt.
  pose proof (in_seg_lookup t (bound t) first Ht ltac:(lia) Hf) as His.
  destruct (root_threads n n_ok p m Hm part T Hp (root first) (occurs_lookup _ _ Hf))
    as (_ & _ & Hleft & _ & Hzero & _). case_decide as Hpos.
  - destruct (lookup_lt_is_Some_2 m (bound t - 1)) as [z Hz]; [rewrite (length_m n p m Hm); lia|].
    rewrite (arr_get_Ok _ _ _ Hz). simpl. f_equal. apply bool_decide_ext.
    by apply (Hleft t z).
  - rewrite bool_decide_false; [done|]. rewrite (Hzero t His Ht) by lia. lia.
Qed.

Lemma exits_right_ok t x :
  t < T → m !! (bound (S t) - 1) = Some x →
  (if decide (bound (S t) < n)
   then x ← arr_get m (bound (S t) - 1); y ← arr_get m (bound (S t)); Ok (bool_decide (root x = root y))
   else Ok false) = Ok (bool_decide (t < last_thread (root x))).
Proof.
  intros Ht Hx. pose proof (bound_le_n n part T Hp (S t) Ht) as Hbn.
  pose proof (part_bound_lt _ _ _ Hp t Ht) as Hlt.
  pose proof (in_seg_lookup t (bound (S t) - 1) x Ht ltac:(lia) Hx) as His.
  destruct (root_threads n n_ok p m Hm part T Hp (root x) (occurs_lookup _ _ Hx))
    as (_ & _ & _ & Hright & _ & Hend). case_decide as Hin.
  - destruct (lookup_lt_is_Some_2 m (bound (S t))) as [z Hz]; [rewrite (length_m n p m Hm); lia|].
    rewrite (arr_get_Ok _ _ _ Hx). simpl. rewrite (arr_get_Ok _ _ _ Hz). simpl. f_equal.
    apply bool_decide_ext. rewrite <- (Hright t z) by done. split; congruence.
  - rewrite bool_decide_false; [done|]. rewrite (Hend t His Ht) by lia. lia.
Qed.

(** The search for the last thread, from any hint inside the segment. *)
Lemma find_last_ok t i x :
  t < T → bound t ≤ i < bound (S t) → m !! i = Some x →
  find_last_partition_of_root m (root x) (bound t) T = Ok (last_thread (root x)).
Proof.
  intros Ht Hi Hx. unfold find_last_partition_of_root, last_thread, thread_of_index.
  destruct (last_of_root_ok n n_ok p m Hm (root x) i x (bound t) Hx eq_refl ltac:(lia))
    as (l & y & -> & Hil & Hl & Hyr & Hafter).
  destruct (last_of_root_ok n n_ok p m Hm (root x) i x 0 Hx eq_refl ltac:(lia))
    as (l' & y' & -> & Hil' & Hl' & Hyr' & Hafter').
  simpl. rewrite (length_m n p m Hm). f_equal.
  destruct (Nat.lt_trichotomy l l') as [Hc|[->|Hc]]; [|done|].
  - specialize (Hafter _ _ Hc Hl'). lia.
  - specialize (Hafter' _ _ Hc Hl). lia.
Qed.

Lemma needed_count t g :
  t ≤ g → (N.of_nat g < 2 ^ 32)%N →
  u64 (wsub 64 (N.of_nat g) (N.of_nat t) + 1) = N.of_nat (S (g - t)).
Proof. intros Htg Hg. rewrite wsub_small, wrap_small by lia. lia. Qed.

Lemma threads_le_n : T ≤ n.
Proof.
  assert (∀ t, t ≤ T → t ≤ bound t) as Ht.
  { induction t as [|t IH]; intros HT; [lia|].
    pose proof (part_bound_lt _ _ _ Hp t HT). specialize (IH ltac:(lia)). lia. }
  specialize (Ht T ltac:(done)). by rewrite part_bound_T in Ht.
Qed.

(** The program of a thread: one entry of [emits] for every root of its
    segment. *)
Lemma thread_actions_ok t :
  t < T →
  ∃ rs ls, thread_actions n base fresh sketches part T k t m = Ok (concat ls).*1 ∧
    NoDup rs ∧ (∀ r, r ∈ rs ↔ in_seg t r) ∧ Forall2 (emits t) rs ls.
Proof.
  intros Ht. pose proof (bound_le_n n part T Hp (S t) Ht) as Hbn.
  pose proof (part_bound_lt _ _ _ Hp t Ht) as Hlt.
  destruct (lookup_lt_is_Some_2 m (bound t)) as [first Hf]; [rewrite (length_m n p m Hm); lia|].
  destruct (loop_run t _ Ht (loop_start t first Ht Hf)) as (st & Hrun & Hinv).
  destruct Hinv as (x & rs & ls & Hx & Hcur & Hh & Hwf & Hg & Hfl & Hnd & Hrs & Hls & Hact).
  rewrite Nat.max_l in Hx by lia.
  pose proof (in_seg_lookup t (bound (S t) - 1) x Ht ltac:(lia) Hx) as His.
  pose proof (occurs_lookup _ _ Hx) as Hocc.
  destruct (root_threads n n_ok p m Hm part T Hp (root x) Hocc) as (HAG & Hin & _).
  pose proof (proj1 (Hin t Ht) His) as HtAG. pose proof threads_le_n as HTn.
  assert (∃ l, emits t (root x) l ∧ thread_actions n base fresh sketches part T k t m
    = Ok (actions st ++ l.*1)) as (l & Hl & Hta).
  { unfold thread_actions. rewrite (part_bounds _ _ _ Hp t Ht).
    rewrite (arr_get_Ok _ _ _ Hf). cbn [mbind outcome_bind].
    rewrite (from_left_ok t first Ht Hf). cbn [mbind outcome_bind].
    rewrite (exits_right_ok t x Ht Hx). cbn [mbind outcome_bind].
    rewrite Hrun. cbn [mbind outcome_bind]. rewrite Hfl, Hcur.
    eexists. split.
    { exists (local_sketch st). split; [exact Hh|]. split; [exact Hwf|reflexivity]. }
    destruct (decide (first_thread (root x) < last_thread (root x))) as [Hsp|Hsp].
    - assert (bool_decide (t < last_thread (root x)) ||
              bool_decide (first_thread (root x) < t) = true) as ->.
      { apply orb_true_iff. rewrite !bool_decide_eq_true. lia. }
      rewrite (find_last_ok t (bound (S t) - 1) x Ht ltac:(lia) Hx). cbn [mbind outcome_bind].
      rewrite fmap_app. destruct (decide (first_thread (root x) = t)) as [Heq|Hne].
      + rewrite (bool_decide_false (first_thread (root x) < t)) by lia.
        by rewrite needed_count by lia.
      + by rewrite (bool_decide_true (first_thread (root x) < t)) by lia.
    - assert (bool_decide (t < last_thread (root x)) ||
              bool_decide (first_thread (root x) < t) = false) as ->; [|done].
      apply orb_false_iff. rewrite !bool_decide_eq_false. lia. }
  exists (rs ++ [root x]), (ls ++ [l]). split_and!.
  - rewrite Hta, concat_app, fmap_app, Hact. simpl. by rewrite app_nil_r.
  - apply NoDup_app. split_and!; [done| |apply NoDup_singleton].
    intros r Hr ->%list_elem_of_singleton. apply Hrs in Hr. lia.
  - intros r. rewrite elem_of_app, Hrs, list_elem_of_singleton. split.
    + intros [(_ & z & Hz & Hzr)| ->]; [by exists z|done].
    + intros (z & Hz & Hzr). pose proof Hz as Hz'.
      apply (elem_of_seg n n_ok m part T Hp t z Ht) in Hz' as (i & Hi & Hzi).
      pose proof (root_le _ _ _ _ Hzi Hx ltac:(lia)).
      destruct (decide (r = root x)) as [->|Hne]; [by right|left]. split; [lia|by exists z].
  - apply Forall2_app; [done|]. by repeat constructor.
Qed.

(** ** All threads together *)

Definition prog_ok (t : nat) (pr : list gact) : Prop :=
  ∃ rs ls, pr = concat ls ∧ NoDup rs ∧ (∀ r, r ∈ rs ↔ in_seg t r) ∧ Forall2 (emits t) rs ls.

Lemma programs_ok :
  ∃ progs, outcome_list ((λ t, thread_actions n base fresh sketches part T k t m) <$> seq 0 T) =
      Ok ((λ l : list gact, l.*1) <$> progs) ∧ Forall2 prog_ok (seq 0 T) progs.
Proof.
  assert (∀ ts, Forall (λ t, t < T) ts → ∃ progs,
    outcome_list ((λ t, thread_actions n base fresh sketches part T k t m) <$> ts) =
      Ok ((λ l : list gact, l.*1) <$> progs) ∧ Forall2 prog_ok ts progs) as Hts.
  { induction 1 as [|t ts Ht _ IH]; [by exists []|].
    destruct IH as (progs & Hrun & Hall).
    destruct (thread_actions_ok t Ht) as (rs & ls & Hta & Hnd & Hrs & Hls).
    exists (concat ls :: progs). rewrite !fmap_cons. cbn [outcome_list]. rewrite Hta, Hrun.
    split; [done|]. constructor; [by exists rs, ls|done]. }
  apply Hts, Forall_seq. lia.
Qed.

Definition spans (r g : nat) : Prop := first_thread r < last_thread r ∧ last_thread r = g.

(** A thread is the last of at most one component that spans threads. *)
Lemma spans_unique r r' g : occurs m r → occurs m r' → spans r g → spans r' g → r = r'.
Proof.
  assert (∀ r, occurs m r → spans r g →
    0 < bound g ∧ ∃ x, m !! (bound g - 1) = Some x ∧ root x = r) as Hr.
  { intros r0 Hocc [Hlt Hg].
    destruct (root_threads n n_ok p m Hm part T Hp r0 Hocc) as ([_ HgT] & Hin & Hleft & _ & Hzero & _).
    rewrite Hg in HgT. assert (in_seg g r0) as His by (apply Hin; [done|lia]).
    destruct (decide (bound g = 0)) as [H00|Hpos]; [specialize (Hzero g His HgT H00); lia|].
    split; [lia|]. pose proof (bound_le_n n part T Hp g ltac:(lia)) as Hbn.
    destruct (lookup_lt_is_Some_2 m (bound g - 1)) as [x Hx]; [rewrite (length_m n p m Hm); lia|].
    exists x. split; [done|]. apply (Hleft g x); (done || lia). }
  intros Hocc Hocc' Hs Hs'. destruct (Hr r Hocc Hs) as (_ & x & Hx & <-).
  destruct (Hr r' Hocc' Hs') as (_ & y & Hy & <-). congruence.
Qed.

Lemma emits_merges g t r l :
  emits t r l → concat (merge_nodes g <$> l) = if decide (spans r g) then [seg_nodes t r] else [].
Proof.
  intros (s & _ & _ & ->). unfold spans. case_decide as Hlt.
  - rewrite fmap_app, concat_app.
    assert (concat (merge_nodes g <$> (if decide (first_thread r = t)
      then [(ASetNeeded (last_thread r) (N.of_nat (S (last_thread r - t))), [])] else [])) = []) as ->
      by by case_decide.
    unfold merge_nodes. simpl. repeat case_decide; simpl; try done; exfalso; intuition lia.
  - simpl. rewrite decide_False; [done|]. tauto.
Qed.

Lemma emits_sets g t r l :
  emits t r l →
  concat (set_marks g <$> l) = if decide (spans r g ∧ first_thread r = t) then [()] else [].
Proof.
  intros (s & _ & _ & ->). unfold spans. case_decide as Hlt.
  - rewrite fmap_app, concat_app. simpl. unfold set_marks.
    repeat case_decide; simpl; try done; repeat case_decide; try done; exfalso; intuition lia.
  - simpl. rewrite decide_False; [done|]. tauto.
Qed.

(** Collecting over a program what only root [r0] contributes. *)
Lemma collect_prog {B} (h : gact → list B) (v : list B) t r0 rs ls :
  NoDup rs → Forall2 (emits t) rs ls →
  (∀ r l, r ∈ rs → emits t r l → concat (h <$> l) = if decide (r = r0) then v else []) →
  concat (h <$> concat ls) = if decide (r0 ∈ rs) then v else [].
Proof.
  intros Hnd Hls. induction Hls as [|r l rs ls Hl Hls IH]; intros Hh.
  { by rewrite decide_False by set_solver. }
  apply list.NoDup_cons in Hnd as [Hr Hnd].
  rewrite concat_cons, fmap_app, concat_app, IH; [|done|intros; apply Hh; set_solver].
  rewrite (Hh r l) by set_solver. destruct (decide (r = r0)) as [->|Hne].
  - rewrite (decide_False (P := r0 ∈ rs)), decide_True by set_solver. apply app_nil_r.
  - simpl. apply decide_ext. set_solver.
Qed.

Lemma collect_all {B} (h : gact → list B) (f : nat → list B) progs ts :
  Forall2 prog_ok ts progs →
  (∀ t pr, t ∈ ts → prog_ok t pr → concat (h <$> pr) = f t) →
  concat (h <$> concat progs) = concat (f <$> ts).
Proof.
  induction 1 as [|t pr ts progs Hpr _ IH]; intros Hh; [done|].
  rewrite concat_cons, fmap_app, concat_app, fmap_cons, concat_cons.
  rewrite IH by (intros; apply Hh; set_solver). by rewrite (Hh t pr) by set_solver.
Qed.

Lemma interval_concat {B} (f : nat → B) A Z :
  A ≤ Z < T →
  concat ((λ t, if decide (A ≤ t ≤ Z) then [f t] else []) <$> seq 0 T) = f <$> seq A (S (Z - A)).
Proof.
  intros HAZ. assert (∀ l, (∀ t, t ∈ l → ¬ (A ≤ t ≤ Z)) →
    concat ((λ t, if decide (A ≤ t ≤ Z) then [f t] else []) <$> l) = []) as Hout.
  { induction l as [|t l IH]; intros Hl; [done|]. rewrite fmap_cons, concat_cons.
    rewrite decide_False by (apply Hl; set_solver). apply IH. set_solver. }
  assert (∀ l, (∀ t, t ∈ l → A ≤ t ≤ Z) →
    concat ((λ t, if decide (A ≤ t ≤ Z) then [f t] else []) <$> l) = f <$> l) as Hin.
  { induction l as [|t l IH]; intros Hl; [done|]. rewrite !fmap_cons, concat_cons.
    rewrite decide_True by (apply Hl; set_solver). simpl. f_equal. apply IH. set_solver. }
  replace T with (A + (S (Z - A) + (T - S Z))) by lia.
  rewrite seq_app, fmap_app, concat_app, Hout by (intros t Ht%elem_of_seq; lia).
  rewrite seq_app, fmap_app, concat_app, Hin by (intros t Ht%elem_of_seq; lia).
  rewrite Hout by (intros t Ht%elem_of_seq; lia). apply app_nil_r.
Qed.

Lemma seg_nodes_out t r : ¬ in_seg t r → seg_nodes t r = [].
Proof.
  intros Hout. unfold seg_nodes.
  assert (filter (λ x, root x = r) (seg n m part T t) = []) as ->; [|done].
  apply elem_of_nil_inv. intros x [Hx Hin]%list_elem_of_filter. apply Hout. by exists x.
Qed.

(** The nodes of a root, collected from the segments it occurs in. *)
Lemma all_nodes_interval r :
  occurs m r →
  all_nodes m r =
    concat ((λ t, seg_nodes t r) <$> seq (first_thread r) (S (last_thread r - first_thread r))).
Proof.
  intros Hocc. destruct (root_threads n n_ok p m Hm part T Hp r Hocc) as (HAG & Hin & _).
  rewrite <- interval_concat by done.
  assert (∀ l, (∀ t, t ∈ l → t < T) →
    concat (concat ((λ t, if decide (first_thread r ≤ t ≤ last_thread r)
      then [seg_nodes t r] else []) <$> l)) = concat ((λ t, seg_nodes t r) <$> l)) as Hl.
  { induction l as [|t l IH]; intros Hl; [done|].
    rewrite !fmap_cons, !concat_cons, concat_app, IH by set_solver. f_equal.
    case_decide as Hd; simpl; [by rewrite app_nil_r|]. rewrite seg_nodes_out; [done|].
    rewrite (Hin t) by (apply Hl; set_solver). done. }
  rewrite Hl by (intros t Ht%elem_of_seq; lia).
  unfold all_nodes. rewrite <- (segs_concat n n_ok p m Hm part T Hp (filter (λ x, root x = r))).
  - rewrite concat_fmap_in, <- list_fmap_compose. done.
  - done.
  - intros l l'. apply list.filter_app.
Qed.

Section combined.
Context (progs : list (list gact)).
Hypothesis Hprogs : Forall2 prog_ok (seq 0 T) progs.
Hypothesis Hgood : ∀ r, occurs m r → good (all_nodes m r).

Lemma prog_occurs t (rs : list nat) r : t < T → (∀ r, r ∈ rs ↔ in_seg t r) → r ∈ rs → occurs m r.
Proof. intros Ht Hrs Hr. apply Hrs in Hr. by eapply (first_le_in_seg n n_ok m part T Hp t). Qed.

Lemma merges_of_span r g :
  occurs m r → spans r g →
  merges_to g progs = (λ t, seg_nodes t r) <$> seq (first_thread r) (S (last_thread r - first_thread r)).
Proof.
  intros Hocc Hs. destruct (root_threads n n_ok p m Hm part T Hp r Hocc) as (HAG & Hin & _).
  rewrite <- interval_concat by done. unfold merges_to. apply collect_all; [done|].
  intros t pr Ht%elem_of_seq (rs & ls & -> & Hnd & Hrs & Hls).
  rewrite (collect_prog _ [seg_nodes t r] t r rs ls Hnd Hls).
  - apply decide_ext. rewrite Hrs. apply Hin. lia.
  - intros r' l Hr' Hl. rewrite (emits_merges g t r' l Hl).
    assert (occurs m r') as Hocc' by (eapply (prog_occurs t); [lia|done..]).
    destruct (decide (r' = r)) as [->|Hne]; [by rewrite decide_True|].
    rewrite decide_False; [done|]. intros Hs'. apply Hne. by eapply spans_unique.
Qed.

Lemma sets_of_span r g :
  occurs m r → spans r g → sets_to g progs = [()].
Proof.
  intros Hocc Hs. destruct (root_threads n n_ok p m Hm part T Hp r Hocc) as (HAG & Hin & _).
  transitivity ((λ _ : nat, ()) <$> seq (first_thread r) (S (first_thread r - first_thread r)));
    [|by rewrite Nat.sub_diag].
  rewrite <- interval_concat by lia. unfold sets_to. apply collect_all; [done|].
  intros t pr Ht%elem_of_seq (rs & ls & -> & Hnd & Hrs & Hls).
  rewrite (collect_prog _ (if decide (first_thread r = t) then [()] else []) t r rs ls Hnd Hls).
  - destruct (decide (first_thread r = t)) as [Heq|Hne].
    + rewrite !decide_True; [done|lia|]. rewrite Hrs. apply Hin; lia.
    + rewrite (decide_False (P := first_thread r ≤ t ≤ first_thread r)) by lia.
      by case_decide.
  - intros r' l Hr' Hl. rewrite (emits_sets g t r' l Hl).
    assert (occurs m r') as Hocc' by (eapply (prog_occurs t); [lia|done..]).
    destruct (decide (r' = r)) as [->|Hne]; [by apply decide_ext; tauto|].
    rewrite decide_False; [done|]. intros [Hs' _]. apply Hne. by eapply spans_unique.
Qed.

(** A global that gets merges is that of a component. *)
Lemma merges_inv g : merges_to g progs ≠ [] → ∃ r, occurs m r ∧ spans r g.
Proof.
  intros Hne. destruct (decide (Exists (λ x, spans (root x) g) m)) as [He|He].
  - apply Exists_exists in He as (x & Hx & Hs). exists (root x). split; [by exists x|done].
  - destruct Hne. unfold merges_to.
    rewrite (collect_all _ (λ _, []) progs (seq 0 T)); [|done|].
    + clear. by induction (seq 0 T).
    + intros t pr Ht%elem_of_seq (rs & ls & -> & Hnd & Hrs & Hls).
      rewrite (collect_prog _ [] t 0 rs ls Hnd Hls); [by case_decide|].
      intros r l Hr Hl. rewrite (emits_merges g t r l Hl).
      rewrite decide_False; [by case_decide|]. intros Hs. apply He.
      destruct (prog_occurs t rs r ltac:(lia) Hrs Hr) as (x & Hx & <-).
      apply Exists_exists. by exists x.
Qed.

Definition gcount (g : nat) : nat := length (merges_to g progs).
Definition gnodes (g : nat) : list nat := concat (merges_to g progs).

Lemma gcount_span r g : occurs m r → spans r g → gcount g = S (last_thread r - first_thread r).
Proof.
  intros Hocc Hs. unfold gcount. by rewrite (merges_of_span r), length_fmap, length_seq.
Qed.

Lemma gnodes_span r g : occurs m r → spans r g → gnodes g = all_nodes m r.
Proof. intros Hocc Hs. unfold gnodes. by rewrite (merges_of_span r), all_nodes_interval. Qed.

Lemma seg_nodes_whole t r :
  t < T → in_seg t r → ¬ first_thread r < last_thread r → seg_nodes t r = all_nodes m r.
Proof.
  intros Ht His Hns. assert (occurs m r) as Hocc
    by by eapply (first_le_in_seg n n_ok m part T Hp t).
  destruct (root_threads n n_ok p m Hm part T Hp r Hocc) as (HAG & Hin & _).
  apply Hin in His; [|done]. rewrite all_nodes_interval by done.
  replace (first_thread r) with t by lia. replace (last_thread r - t) with 0 by lia.
  simpl. by rewrite app_nil_r.
Qed.

Lemma emits_wf t r l :
  t < T → in_seg t r → emits t r l →
  ∀ l', wf_prog T gcount l' → wf_prog T gcount (l ++ l').
Proof.
  intros Ht His (s & Hs & Hwf & ->) l' Hl'.
  assert (occurs m r) as Hocc by by eapply (first_le_in_seg n n_ok m part T Hp t).
  destruct (root_threads n n_ok p m Hm part T Hp r Hocc) as (HAG & Hin & _).
  case_decide as Hlt.
  - assert (act_ok T gcount (AMergeGlobal (last_thread r) s, seg_nodes t r)) as Hmg.
    { split; [lia|]. by apply holds_provides. }
    case_decide as Hf; simpl; [|by constructor]. constructor; [|done|done].
    split; [lia|]. rewrite (gcount_span r) by (done || by split). by rewrite Hf.
  - simpl. constructor; [|done]. split_and!; [done| |done]. simpl.
    rewrite seg_nodes_whole by done. by apply Hgood.
Qed.

Lemma prog_wf t pr : t < T → prog_ok t pr → wf_prog T gcount pr.
Proof.
  intros Ht (rs & ls & -> & _ & Hrs & Hls).
  assert (∀ r, r ∈ rs → in_seg t r) as Hin by (intros; by apply Hrs). clear Hrs.
  induction Hls as [|r l rs ls Hl Hls IH]; [constructor|]. simpl.
  apply (emits_wf t r l); [done|apply Hin; set_solver|done|]. apply IH. set_solver.
Qed.

Lemma all_threads_ok :
  round_progs_ok T (all_nodes m <$> (root <$> m)) gnodes gcount progs.
Proof.
  pose proof (Forall2_length _ _ _ Hprogs) as Hlen. rewrite length_seq in Hlen.
  assert (∀ t, t < T → ∃ pr, progs !! t = Some pr ∧ prog_ok t pr) as Hlk.
  { intros t Ht. apply (Forall2_lookup_l _ _ _ t t Hprogs). by apply lookup_seq_lt. }
  constructor; [done| |done|done| | | |].
  - apply Forall_lookup. intros t pr Ht.
    assert (t < T) as HtT by (rewrite Hlen; by eapply lookup_lt_Some).
    destruct (Hlk t HtT) as (pr' & Hpr' & Hok). simplify_eq. by eapply prog_wf.
  - intros g Hg. destruct (merges_inv g) as (r & Hocc & Hs).
    { unfold gcount in Hg. intros Hnil. rewrite Hnil in Hg. simpl in Hg. lia. }
    by rewrite (sets_of_span r).
  - intros g. destruct (decide (merges_to g progs = [])) as [Hnil|Hne].
    { unfold gcount. by rewrite Hnil. }
    destruct (merges_inv g Hne) as (r & Hocc & Hs). rewrite (gcount_span r) by done.
    destruct (root_threads n n_ok p m Hm part T Hp r Hocc) as (HAG & _).
    pose proof threads_le_n. unfold size_max. lia.
  - intros g Hg. destruct (merges_inv g) as (r & Hocc & Hs).
    { unfold gcount in Hg. intros Hnil. rewrite Hnil in Hg. simpl in Hg. lia. }
    rewrite (gnodes_span r) by done. by apply Hgood.
  - intros S' HS'. apply list_elem_of_fmap in HS' as (r & -> & Hr).
    apply list_elem_of_fmap in Hr as (x & -> & Hx).
    assert (occurs m (root x)) as Hocc by by exists x. set (r := root x) in *.
    destruct (root_threads n n_ok p m Hm part T Hp r Hocc) as (HAG & Hin & _).
    destruct (decide (first_thread r < last_thread r)) as [Hlt|Hge].
    + right. exists (last_thread r). rewrite (gnodes_span r), (gcount_span r) by (done || by split).
      split; [done|lia].
    + left. destruct (Hlk (last_thread r)) as (pr & Hpr & rs & ls & -> & _ & Hrs & Hls); [lia|].
      assert (in_seg (last_thread r) r) as His by (apply Hin; lia).
      apply Hrs, list_elem_of_lookup in His as [i Hi].
      destruct (Forall2_lookup_l _ _ _ _ _ Hls Hi) as (l & Hl & s & _ & _ & ->).
      rewrite decide_False in Hl by done.
      exists s, (seg_nodes (last_thread r) r). split.
      * apply list_elem_of_In, in_concat. exists (concat ls).
        split; [apply list_elem_of_In; by eapply list_elem_of_lookup_2|].
        apply in_concat. eexists. split; [apply list_elem_of_In; by eapply list_elem_of_lookup_2|by left].
      * rewrite seg_nodes_whole; [done|lia|by apply Hin; lia|done].
Qed.
End combined.
End threads.
