(* ===== verification/BoruvkaLoop.v ===== *)
(** * Correctness of Boruvka's loop

    The rounds put together: for every number of threads whose partition is
    sound, every interleaving and every outcome of the samples, the emulation
    ends within one round more than the sketches have samples, with the
    connectivity of the graph in the union-find and a spanning forest of it in
    the forest array, or with the exception that the samples have run out. *)

From Stdlib Require Import NArith Lia.
From stdpp Require Import base list gmap sets numbers relations.
From S2P Require Import Prelude Float64 Util Bucket Sketch XXHash Concrete SketchSpec Dsu Graph Configuration CCSketchAlg Partition MergeInstr Boruvka BoruvkaRound BoruvkaThreads.

(** The instructions an emulation starts with. *)
Lemma identity_instrs n d :
  dsu_n d = n → instrs_ok n (parent (reset d)) ((λ i, mkInstr i i) <$> seq 0 n).
Proof.
  intros Hn. constructor.
  - assert (∀ l : list nat, child <$> ((λ i, mkInstr i i) <$> l) = l) as ->; [|done].
    intros l. induction l as [|i l IH]; [done|]. rewrite !fmap_cons, IH. done.
  - intros x (i & -> & Hi%elem_of_seq)%list_elem_of_fmap. simpl. constructor.
    unfold reset. simpl. rewrite Hn. apply lookup_seq_lt. lia.
  - intros i j x y Hx Hy Hij. rewrite list_lookup_fmap in Hx, Hy.
    destruct (seq 0 n !! i) as [a|] eqn:Ha; [|done]. destruct (seq 0 n !! j) as [c|] eqn:Hc; [|done].
    apply lookup_seq in Ha as [-> _], Hc as [-> _]. simpl in *. simplify_eq/=. lia.
Qed.

Lemma reset_partial n E d :
  (N.of_nat n ≤ 2 ^ 32)%N → dsu_wf d → dsu_n d = n → partial_answer n E (reset d) (replicate n ∅).
Proof.
  intros Hle Hwf Hn. constructor.
  - constructor; [by apply reset_wf|done|]. split; [apply length_replicate|].
    intros s D t [-> _]%lookup_replicate Ht. set_solver.
  - intros x y Hx Hy. rewrite forest_edges_empty, conn_empty, reset_rel by exact Hle. naive_solver.
  - rewrite forest_edges_empty. set_solver.
  - rewrite forest_edges_empty. constructor.
Qed.

Section loop.
Context `{BuildConfig, Hashing}.
Context (n : nat) (n_ok : (N.of_nat n < 2 ^ 32)%N).
Context (E : gset N) (E_ok : graph_ok n E).
Context (base : nat) (fresh : Sketch).
Context (part : nat → nat → nat → nat * nat) (T : nat).
Hypothesis Hp : partition_ok part n T.
Hypothesis Hsound : checksum_sound (seed fresh) E.
Hypothesis Hfresh : represents fresh ∅ ∧ sample_idx fresh = 0.
Hypothesis Hsamples : 0 < num_samples fresh.

(** The node sketches of the graph, and the number of samples they gave. *)
Definition nodes_ok (sks : list Sketch) : Prop :=
  ∀ v, v < n → ∃ s, sks !! (base + v) = Some s ∧ represents s (incident E v) ∧
    geometry s = geometry fresh.
Definition sampled (j : nat) (vs : list nat) (sks : list Sketch) : Prop :=
  ∀ v s, v ∈ vs → sks !! (base + v) = Some s → sample_idx s = j.

(** Sketches outside the graph's range are not touched. *)
Definition others_same (sks sks' : list Sketch) : Prop :=
  length sks' = length sks ∧
  ∀ i, ¬ (base ≤ i < base + n) → sks' !! i = sks !! i.

Lemma n_ok_le : (N.of_nat n ≤ 2 ^ 32)%N.
Proof. lia. Qed.

Lemma node_sum_singleton v : node_sum E [v] = incident E v.
Proof. unfold node_sum. simpl. apply symdiff_empty_r. Qed.

Lemma fresh_wf : sketch_wf fresh.
Proof. by destruct Hfresh as [[? _] _]. Qed.

(** *** Components as classes of the union-find *)

Lemma all_nodes_class d m r v :
  dsu_wf d → dsu_n d = n → instrs_ok n (parent d) m → v < n →
  v ∈ all_nodes m r ↔ root_of (parent d) v r.
Proof.
  intros Hwf Hn Hm Hv. unfold all_nodes. rewrite list_elem_of_fmap. split.
  - intros (x & -> & [Hr Hx]%list_elem_of_filter). subst r. by apply (io_root _ _ _ Hm).
  - intros Hr. assert (v ∈ child <$> m) as Hin.
    { rewrite (io_perm _ _ _ Hm). apply elem_of_seq. lia. }
    apply list_elem_of_fmap in Hin as (x & -> & Hx). exists x. split; [done|].
    apply list_elem_of_filter. split; [|done].
    apply (root_of_det (parent d) (child x)); [by apply (io_root _ _ _ Hm)|done].
Qed.

Lemma all_nodes_lt p m r v : instrs_ok n p m → v ∈ all_nodes m r → v < n.
Proof.
  intros Hm (x & -> & [_ Hx]%list_elem_of_filter)%list_elem_of_fmap.
  by eapply instr_child_lt.
Qed.

Lemma all_nodes_good d m r :
  dsu_wf d → dsu_n d = n → instrs_ok n (parent d) m → occurs m r →
  cut_good n d (all_nodes m r).
Proof.
  intros Hwf Hn Hm (x & Hx & Hr). split_and!.
  - assert (child x ∈ all_nodes m r) as Hin; [|intros Hnil; rewrite Hnil in Hin; set_solver].
    unfold all_nodes. apply list_elem_of_fmap_2, list_elem_of_filter. done.
  - unfold all_nodes. assert (NoDup (child <$> m)) as Hnd.
    { rewrite (io_perm _ _ _ Hm). apply NoDup_seq. }
    eapply sublist_NoDup; [exact Hnd|]. apply fmap_sublist, sublist_filter.
  - intros u v Hu Hv (w & Huw & Hvw) Hin. apply (all_nodes_class d) in Hin; [|done..].
    apply (all_nodes_class d); [done..|]. by rewrite (root_of_det _ _ _ _ Hin Huw).
Qed.

(** When no sample of a round found anything new, the union-find is the
    connectivity of the graph. *)
Lemma settled_answer d0 d f m :
  dsu_wf d0 → dsu_n d0 = n → instrs_ok n (parent d0) m →
  partial_answer n E d f → same_rel n d0 d →
  (∀ S, S ∈ all_nodes m <$> (root <$> m) → cut E S = ∅) →
  cached_answer n E d f.
Proof.
  intros Hwf Hn Hm [Hst Hc Hsub Hfor] Hsame Hcut.
  assert (∀ x y, x < n → y < n → conn n E x y → dsu_rel d x y) as Hback.
  { intros x y Hx Hy Hxy. apply (Hsame x y Hx Hy).
    destruct (root_of_ex _ _ _ x Hwf) as [r Hr]; [lia|].
    assert (x ∈ all_nodes m r) as Hxr by by apply (all_nodes_class d0).
    assert (occurs m r) as Hocc.
    { apply list_elem_of_fmap in Hxr as (z & _ & [Hz Hzm]%list_elem_of_filter). by exists z. }
    assert (y ∈ all_nodes m r) as Hyr.
    { apply (cut_empty_closed n n_ok_le E (all_nodes m r) x y E_ok); [|done..].
      apply Hcut. destruct Hocc as (z & Hz & <-). by apply list_elem_of_fmap_2, list_elem_of_fmap_2. }
    apply (all_nodes_class d0) in Hyr; [|done..]. by exists r. }
  assert (∀ x y, conn n (forest_edges f) x y → conn n E x y) as Hfe.
  { intros x y. apply conn_mono; [exact n_ok_le|done]. }
  assert (∀ x y, x < n → y < n → dsu_rel d x y ↔ conn n E x y) as Hiff.
  { intros x y Hx Hy. split; [|by apply Hback]. intros Hr. by apply Hfe, (Hc x y Hx Hy). }
  constructor; try done. intros x y. split; [by apply Hfe|]. intros Hxy.
  destruct (conn_lt n n_ok_le E x y Hxy) as [->|[Hx Hy]]; [by apply conn_refl|].
  apply (Hc x y Hx Hy). by apply (Hiff x y Hx Hy).
Qed.

(** *** Round zero *)

Lemma conn_self_only d f :
  partial_answer n E d f → (∀ v, v < n → cut E [v] = ∅) →
  (∀ x y, x < n → y < n → dsu_rel d x y ↔ x = y) → cached_answer n E d f.
Proof.
  intros [Hst Hc Hsub Hfor] Hcut Hid.
  assert (∀ x y, conn n E x y → x = y) as Hone.
  { intros x y Hxy. destruct (conn_lt n n_ok_le E x y Hxy) as [|[Hx Hy]]; [done|].
    assert (y ∈ [x]) as Hin; [|by apply list_elem_of_singleton in Hin].
    apply (cut_empty_closed n n_ok_le E [x] x y E_ok); [by apply Hcut|set_solver|done]. }
  constructor; try done.
  - intros x y Hx Hy. rewrite Hid by done. split; [intros ->; apply conn_refl|apply Hone].
  - intros x y. split; [apply conn_mono; [exact n_ok_le|done]|]. intros ->%Hone. apply conn_refl.
Qed.

Lemma round_zero_run j order d0 d f gs rd b sks :
  j < num_samples fresh → NoDup order → Forall (λ v, v < n) order →
  dsu_wf d0 → dsu_n d0 = n → (∀ x y, x < n → y < n → dsu_rel d0 x y ↔ x = y) →
  cut_core n E d0 d f b None →
  nodes_ok sks → sampled j order sks →
  ∃ d' f' b' sks', foldl (round_zero_step base) (Ok (mkRound d f gs rd b None, sks)) order =
      Ok (mkRound d' f' gs rd b' None, sks') ∧
    cut_core n E d0 d' f' b' None ∧ nodes_ok sks' ∧ sampled (S j) order sks' ∧
    length sks' = length sks ∧ (∀ i, (∀ v, v ∈ order → i ≠ base + v) → sks' !! i = sks !! i) ∧
    (b' = false → b = false ∧ ∀ v, v ∈ order → cut E [v] = ∅).
Proof.
  intros Hj Hnd Hlt Hwf0 Hn0 Hid. revert d f b sks.
  induction order as [|v order IH]; intros d f b sks Hcore Hsks Hidx.
  { exists d, f, b, sks. split_and!; try done; [intros v s Hv; set_solver|].
    intros ->. split; [done|]. set_solver. }
  apply list.NoDup_cons in Hnd as [Hv Hnd]. apply list.Forall_cons in Hlt as [Hvn Hlt].
  destruct (Hsks v Hvn) as (s & Hs & Hr & Hg).
  pose proof (Hidx v s ltac:(set_solver) Hs) as Hs0.
  assert (cut_holds E fresh j s [v]) as Hh.
  { split_and!; [|done|lia|done]. apply represents_represents_at. by rewrite node_sum_singleton. }
  assert (cut_good n d0 [v]) as Hgd.
  { split_and!; [done|apply NoDup_singleton|]. intros x y Hx Hy Hxy.
    rewrite !list_elem_of_singleton. intros ->. symmetry. by apply (Hid v y). }
  destruct (cut_sample_ok n n_ok_le E E_ok fresh j d0 Hsound Hj d f gs rd b None s [v]
    Hcore Hh Hgd) as (d1 & f1 & b1 & Hsc & Hcore1 & Hb1).
  set (sks1 := <[base + v := set_sample_idx s (S j)]> sks).
  assert (base + v < length sks) as Hlen by by eapply lookup_lt_Some.
  assert (∀ i, i ≠ base + v → sks1 !! i = sks !! i) as Hother.
  { intros i Hi. by apply list_lookup_insert_ne. }
  destruct (IH Hnd Hlt d1 f1 b1 sks1 Hcore1)
    as (d' & f' & b' & sks' & Hrun & Hc' & Hok & Hsmp & Hl & Ho & Hb').
  { intros u Hu. destruct (decide (u = v)) as [->|Hne].
    - exists (set_sample_idx s (S j)). unfold sks1. rewrite list_lookup_insert_eq by done.
      split_and!; [done|by apply represents_set_sample_idx|done].
    - rewrite Hother by lia. by apply Hsks. }
  { intros u w Hu Hw. assert (u ≠ v) as Hne by (intros ->; done).
    rewrite Hother in Hw by lia. apply (Hidx u); [set_solver|done]. }
  exists d', f', b', sks'. split_and!; [|done|done| | | |].
  - rewrite <- Hrun. cbn [foldl]. f_equal. unfold round_zero_step, mbind, outcome_bind.
    by rewrite (arr_get_Ok _ _ _ Hs), Hsc.
  - intros u w [->|Hu]%elem_of_cons Hw; [|by apply (Hsmp u)].
    rewrite Ho in Hw by (intros u Hu Heq; assert (u = v) by lia; by subst).
    unfold sks1 in Hw. rewrite list_lookup_insert_eq in Hw by done. by injection Hw as <-.
  - rewrite Hl. unfold sks1. by rewrite length_insert.
  - intros i Hi. rewrite Ho by (intros u Hu; apply Hi; set_solver).
    apply Hother, Hi. set_solver.
  - intros Hbf. destruct (Hb' Hbf) as [Hb1f Hall]. destruct (Hb1 Hb1f) as [Hbf' Hcut].
    split; [done|]. intros u [->|Hu]%elem_of_cons; [done|by apply Hall].
Qed.

(** *** Later rounds *)

Lemma round_later k m zo sched d0 f0 gs sks :
  0 < k → dsu_wf d0 → dsu_n d0 = n → instrs_ok n (parent d0) m → partial_answer n E d0 f0 →
  globals_ok fresh T gs → nodes_ok sks →
  ∃ st, perform_boruvka_round n base fresh part T zo sched k m d0 f0 gs sks = Ok (st, sks) ∧
    partial_answer n E (r_dsu st) (r_forest st) ∧ globals_ok fresh T (r_global st) ∧
    ((k < num_samples fresh ∧ r_err st = None ∧
      (r_modified st = false → cached_answer n E (r_dsu st) (r_forest st))) ∨
     (num_samples fresh ≤ k ∧
      ∃ i, r_err st = Some (OutOfSamplesException (seed fresh) (num_samples fresh) i))).
Proof.
  intros Hk Hwf Hn Hm Hpa Hgs Hsks. unfold perform_boruvka_round. rewrite decide_False by lia.
  destruct (decide (k < num_samples fresh)) as [Hks|Hks].
  - pose (cm := cut_meaning n n_ok_le E E_ok fresh k d0 Hsound Hks).
    assert (@holds _ _ _ _ cm fresh []) as Hfr.
    { destruct Hfresh as [Hr Hi]. split_and!; [|done|lia|done]. by apply represents_represents_at. }
    assert (∀ v, v < n → ∃ s, sks !! (base + v) = Some s ∧ @provides _ _ _ _ cm s [v]) as Hpr.
    { intros v Hv. destruct (Hsks v Hv) as (s & Hs & Hr & Hg). exists s. split; [done|].
      split; [|done]. rewrite node_sum_singleton. by apply represents_represents_at. }
    destruct (programs_ok n n_ok (parent d0) m Hm part T Hp base sks Hfr fresh_wf Hpr)
      as (progs & -> & Hprogs). cbn [mbind outcome_bind].
    pose proof (all_threads_ok n n_ok (parent d0) m Hm part T Hp base sks Hfr fresh_wf Hpr progs
      Hprogs (λ r Hr, all_nodes_good d0 m r Hwf Hn Hm Hr)) as Hall.
    destruct (round_run_ok T _ _ _ progs sched d0 f0 gs Hall Hgs)
      as (st & -> & (Hpa' & Herr & Hsame) & Hgs' & Hset); [by split_and!|].
    exists st. split_and!; [done..|]. left. split_and!; [done..|]. intros Hmod.
    apply (settled_answer d0 _ _ m); try done; [by apply Hsame|].
    intros S HS. destruct (Hset S HS) as [Hc|Hc]; [congruence|done].
  - assert (num_samples fresh ≤ k) as Hks' by lia.
    pose (om := out_meaning n E fresh k Hks').
    assert (@holds _ _ _ _ om fresh []) as Hfr by by split.
    assert (∀ v, v < n → ∃ s, sks !! (base + v) = Some s ∧ @provides _ _ _ _ om s [v]) as Hpr.
    { intros v Hv. destruct (Hsks v Hv) as (s & Hs & _). by exists s. }
    destruct (programs_ok n n_ok (parent d0) m Hm part T Hp base sks Hfr fresh_wf Hpr)
      as (progs & -> & Hprogs). cbn [mbind outcome_bind].
    pose proof (all_threads_ok n n_ok (parent d0) m Hm part T Hp base sks Hfr fresh_wf Hpr progs
      Hprogs (λ r Hr, proj1 (all_nodes_good d0 m r Hwf Hn Hm Hr))) as Hall.
    destruct (round_run_ok T _ _ _ progs sched d0 f0 gs Hall Hgs)
      as (st & -> & (Hpa' & Herr) & Hgs' & Hset); [by split|].
    exists st. split_and!; [done..|]. right. split; [done|].
    destruct (r_err st) as [x|] eqn:Hx; [destruct (Herr x eq_refl) as [i ->]; by exists i|].
    exfalso. destruct m as [|x m'].
    + pose proof (Permutation_length (io_perm _ _ _ Hm)) as Hl. rewrite length_seq in Hl.
      simpl in Hl. pose proof (threads_le_n n n_ok part T Hp). pose proof (po_threads _ _ _ Hp). lia.
    + apply (Hset (all_nodes (x :: m') (root x))); [|done].
      apply list_elem_of_fmap_2, list_elem_of_fmap_2. set_solver.
Qed.

(** *** The loop *)

Context (sch : QuerySchedule).
Hypothesis Hmap : ∀ r l, map_order (merge_sched sch r) l ≡ₚ l.

(** What an emulation leaves: the answer, or the exception and a part of it. *)
Definition emulation_ok (res : outcome unit) (b : BoruvkaState) : Prop :=
  partial_answer n E (b_dsu b) (b_forest b) ∧
  ((res = Ok tt ∧ cached_answer n E (b_dsu b) (b_forest b) ∧ b_rounds b ≤ num_samples fresh) ∨
   ∃ i, res = Throw (OutOfSamplesException (seed fresh) (num_samples fresh) i)).

Lemma merge_instr_ok r d f m :
  partial_answer n E d f → child <$> m ≡ₚ seq 0 n →
  ∃ d' m', create_merge_instructions part n T (merge_sched sch r) d m = Ok (d', m') ∧
    partial_answer n E d' f ∧ instrs_ok n (parent d') m'.
Proof.
  intros Hpa Hm. pose proof Hpa as [[Hwf Hn Hfa] _ _ _].
  destruct (create_merge_instructions_ok part n T (merge_sched sch r) d m Hwf Hn Hm Hp (Hmap r))
    as (d' & m' & Hrun & Hwf' & Hn' & Hrel & Hok).
  exists d', m'. split_and!; [done| |done]. by eapply partial_answer_same.
Qed.

Lemma boruvka_loop_ok fuel r m gs b :
  0 < r → num_samples fresh < fuel + r → r ≤ num_samples fresh →
  partial_answer n E (b_dsu b) (b_forest b) → instrs_ok n (parent (b_dsu b)) m →
  globals_ok fresh T gs → nodes_ok (b_sketches b) →
  ∃ res b', boruvka_loop n base fresh part T sch fuel r m gs b = (res, b') ∧
    emulation_ok res b' ∧ b_sketches b' = b_sketches b.
Proof.
  revert r m gs b. induction fuel as [|fuel IH]; intros r m gs b Hr Hf Hle Hpa Hm Hgs Hsks; [lia|].
  pose proof Hpa as [[Hwf Hn Hfa] _ _ _]. cbn [boruvka_loop].
  destruct (round_later r m (zero_order sch) (round_order sch r) (b_dsu b) (b_forest b) gs
    (b_sketches b) Hr Hwf Hn Hm Hpa Hgs Hsks) as (st & -> & Hpa' & Hgs' & Hcase).
  destruct Hcase as [(Hlt & -> & Hans)|(Hge & i & ->)].
  - destruct (r_modified st) eqn:Hmod.
    + destruct (merge_instr_ok r (r_dsu st) (r_forest st) m Hpa') as (d' & m' & Hcm & Hpa2 & Hm2).
      { apply (io_perm _ _ _ Hm). }
      cbn [b_dsu b_forest b_sketches b_rounds]. rewrite Hcm.
      destruct (IH (S r) m' (r_global st) (mkBoruvka d' (r_forest st) (b_sketches b) (b_rounds b)))
        as (res & b2 & -> & Hem & Hs2); try done; try lia.
      by exists res, b2.
    + eexists _, _. split; [done|]. split; [|done]. split; [done|]. left.
      split_and!; [done|by apply Hans|simpl; lia].
  - eexists _, _. split; [done|]. split; [|done]. split; [done|]. right. by exists i.
Qed.

Lemma fresh_globals_ok : globals_ok fresh T (replicate T (mkGlobal fresh size_max 0)).
Proof.
  split; [apply length_replicate|]. intros g x [-> _]%lookup_replicate. split; [apply fresh_wf|done].
Qed.

(** The whole emulation. Round zero samples column [j]: 0 after a reset of the
    sample state. *)
Lemma boruvka_rounds_ok j d sks rounds :
  j < num_samples fresh → zero_order sch ≡ₚ seq 0 n →
  dsu_wf d → dsu_n d = n → nodes_ok sks → sampled j (seq 0 n) sks →
  ∃ res b, boruvka_rounds n base fresh part T sch d sks rounds = (res, b) ∧
    emulation_ok res b ∧ nodes_ok (b_sketches b) ∧ sampled (S j) (seq 0 n) (b_sketches b) ∧
    others_same sks (b_sketches b).
Proof.
  intros Hj Hzo Hwf Hn Hsks Hsmp. unfold boruvka_rounds.
  pose proof (reset_partial n E d n_ok_le Hwf Hn) as Hpa. pose proof (reset_wf d Hwf) as Hwfr.
  assert (∀ x y, x < n → y < n → dsu_rel (reset d) x y ↔ x = y) as Hid.
  { intros x y Hx Hy. rewrite reset_rel, Hn. naive_solver. }
  pose proof (identity_instrs n d Hn) as Hm.
  destruct (round_zero_run j (zero_order sch) (reset d) (reset d) (replicate n ∅)
    (replicate T (mkGlobal fresh size_max 0)) (replicate T false) false sks)
    as (d' & f' & b' & sks' & Hrun & (Hpa' & _ & Hsame) & Hok' & Hsmp' & Hl & Ho & Hb').
  { done. } { rewrite Hzo. apply NoDup_seq. } { rewrite Hzo. apply Forall_seq. lia. }
  { done. } { done. } { done. } { by split_and!. } { done. }
  { intros v s Hv. rewrite Hzo in Hv. by apply Hsmp. }
  assert (sampled (S j) (seq 0 n) sks') as Hsmp2.
  { intros v s Hv. apply Hsmp'. by rewrite Hzo. }
  assert (others_same sks sks') as Hos.
  { split; [done|]. intros i Hi. apply Ho. intros v Hv ->. rewrite Hzo in Hv.
    apply elem_of_seq in Hv. lia. }
  remember (S (num_samples fresh)) as fuel eqn:Hfuel.
  cbn [boruvka_loop]. unfold perform_boruvka_round at 1. cbn [b_dsu b_forest b_sketches b_rounds].
  rewrite decide_True by done. unfold run_round_zero. rewrite Hrun. cbn [r_err r_modified].
  destruct b'.
  - destruct (merge_instr_ok 0 d' f' ((λ i, mkInstr i i) <$> seq 0 n) Hpa')
      as (d2 & m2 & Hcm & Hpa2 & Hm2); [apply (io_perm _ _ _ Hm)|].
    cbn [r_dsu b_dsu b_forest b_sketches b_rounds r_forest r_global]. rewrite Hcm.
    destruct (boruvka_loop_ok fuel 1 m2
      (replicate T (mkGlobal fresh size_max 0)) (mkBoruvka d2 f' sks' rounds))
      as (res & b2 & -> & Hem & Hsk2); try done; try lia; [apply fresh_globals_ok|].
    exists res, b2. rewrite Hsk2. by split_and!.
  - eexists _, _. split; [done|]. cbn [b_dsu b_forest b_sketches b_rounds r_dsu r_forest].
    split_and!; [|done..]. split; [done|]. left. destruct (Hb' eq_refl) as [_ Hcut].
    split_and!; [done| |simpl; lia]. apply conn_self_only; [done| |].
    + intros v Hv. apply Hcut. rewrite Hzo. apply elem_of_seq. lia.
    + intros x y Hx Hy. etrans; [by apply (Hsame eq_refl)|by apply Hid].
Qed.
End loop.

(** ** Properties *)

Section theorems.
Context `{BuildConfig, Hashing}.
Context (n : nat) (E : gset N) (base : nat) (fresh : Sketch).
Context (part : nat → nat → nat → nat * nat) (T : nat).


End theorems.

(** ** Witnesses *)

Section witnesses.
#[local] Existing Instances default_build integral_libm xxh3_hashing.

(** Four nodes, the edges 0-1 and 2-3, and 1-2 inserted and deleted. *)
Definition example_updates : list GraphUpdate :=
  [mkUpdate (mkEdge 0 1) INSERT; mkUpdate (mkEdge 2 1) INSERT;
   mkUpdate (mkEdge 3 2) INSERT; mkUpdate (mkEdge 1 2) DELETE].

Definition example_graph : gset N := toggle_all (upd_index <$> example_updates) ∅.

Definition example_state : CCSketchAlg :=
  match update_all_alg example_alg example_updates with
  | Ok c => c
  | Throw _ => example_alg
  end.

Definition example_fresh : Sketch := alg_sketch 4 7 (_sketches_factor CCConf.default).

Lemma example_updates_ok : Forall (upd_ok 4) example_updates.
Proof. repeat constructor; simpl; lia. Qed.

Lemma example_n_le : (N.of_nat 4 ≤ 2 ^ 32)%N.
Proof. by vm_compute. Qed.

Lemma example_state_ok :
  update_all_alg example_alg example_updates = Ok example_state ∧
  eager_ok 4 example_graph example_state ∧
  sketches_ok 4 (geometry example_fresh) (incident example_graph) example_state ∧
  update_locked example_state = false.
Proof.
  destruct (update_all_alg_ok 4 example_n_le _ ∅ example_alg example_updates example_eager
    example_sketches example_updates_ok) as (c & Hrun & H1 & H2 & H3).
  unfold example_state. rewrite Hrun. by split_and!.
Qed.

Lemma example_graph_ok : graph_ok 4 example_graph.
Proof.
  apply graph_ok_toggle_all; [|exact example_updates_ok]. intros e He. set_solver.
Qed.

Lemma example_graph_sound : checksum_sound 7 example_graph.
Proof.
  replace example_graph with
    (list_to_set [concat_pairing_fn 0 1; concat_pairing_fn 2 3] : gset N) by by vm_compute.
  apply checksum_soundb_spec; [|by vm_compute].
  apply (bool_decide_unpack _). by vm_compute.
Qed.

Lemma example_fresh_ok : represents example_fresh ∅.
Proof. apply represents_new_sketch. vm_compute. lia. Qed.

Lemma example_nodes : nodes_ok 4 example_graph 0 example_fresh (sketches example_state).
Proof.
  destruct example_state_ok as (_ & _ & Hsk & _). intros v Hv.
  destruct (lookup_lt_is_Some_2 (sketches example_state) v) as [s Hs].
  { by rewrite (so_length _ _ _ _ Hsk). }
  destruct (so_repr _ _ _ _ Hsk v s Hs) as (Hr & Hg & _). exists s.
  exact (conj Hs (conj Hr Hg)).
Qed.

Lemma example_sampled : sampled 0 0 (seq 0 4) (sketches example_state).
Proof.
  destruct example_state_ok as (_ & _ & Hsk & _). intros v s _ Hs.
  destruct (so_repr _ _ _ _ Hsk v s Hs) as (_ & _ & Hi). exact Hi.
Qed.

Lemma example_partition : partition_ok get_ith_partition 4 2.
Proof. apply partition_okb_spec. by vm_compute. Qed.

Definition example_schedule : QuerySchedule :=
  mkQuerySchedule [2; 0; 3; 1] (λ r, [1; 0; r; 1; 0])
    (λ r, mkMergeSchedule [1; 0] reverse [r; 1] [0; 1; 1]).

Lemma example_dsu : dsu_wf (new_dsu 4 [5; 1; 4; 4]%N).
Proof. by apply new_dsu_wf. Qed.


End witnesses.
