(* ===== verification/CCQuery.v ===== *)
(** * The connected components algorithm, query side: src/src/cc_sketch_alg.cpp

    The queries of [CCSketchAlg]: [boruvka_emulation], [connected_components],
    [calc_spanning_forest], [calc_disjoint_spanning_forests] and [point_query],
    with their cached answers, the exception of an emulation that runs out of
    samples, and the state they leave for the next updates. *)

From Stdlib Require Import NArith Lia.
From stdpp Require Import base list gmap sets numbers relations.
From S2P Require Import Prelude Float64 Util Bucket Sketch XXHash Concrete SketchSpec Dsu Graph Configuration CCSketchAlg Partition ReturnTypes MergeInstr Boruvka BoruvkaRound BoruvkaThreads BoruvkaLoop.

(** The number of threads and the orders one query runs under. *)
Record QueryRun := mkQueryRun {
  q_threads : nat;
  q_schedule : QuerySchedule;
  q_components_order : list nat;
}.

Section ops.
Context `{BuildConfig, Libm, Hashing}.

Definition cc_sketch (c : CCSketchAlg) : Sketch :=
  alg_sketch (num_vertices c) (cc_seed c) (_sketches_factor (config c)).

(** An exception leaves the flags and the lock as they were at the throw. *)
Definition boruvka_emulation (q : QueryRun) (c : CCSketchAlg) : outcome unit * CCSketchAlg :=
  let c := set_locked c true in
  let '(res, b) := boruvka_rounds (num_vertices c) 0 (cc_sketch c) get_ith_partition
                     (q_threads q) (q_schedule q) (dsu c) (sketches c) (last_query_rounds c) in
  let c := set_sketches (set_forest (set_dsu c (b_dsu b)) (b_forest b)) (b_sketches b) in
  match res with
  | Throw e => (Throw e, c)
  | Ok _ => (Ok tt, set_locked (set_valid (set_rounds c (b_rounds b)) true) false)
  end.

Definition reset_sample_states (c : CCSketchAlg) : CCSketchAlg :=
  set_sketches c (reset_sample_state <$> sketches c).

(** The part that [connected_components] and [point_query] share: make the
    union-find hold the answer. *)
Definition ensure_answer (q : QueryRun) (cached : bool) (c : CCSketchAlg)
    : outcome unit * CCSketchAlg :=
  if cached then (Ok tt, c)
  else
    let '(res, c) := boruvka_emulation q c in
    (res, reset_sample_states c).

Definition connected_components (q : QueryRun) (c : CCSketchAlg)
    : outcome ConnectedComponents * CCSketchAlg :=
  let '(res, c) := ensure_answer q (shared_dsu_valid c) c in
  match res with
  | Throw e => (Throw e, c)
  | Ok _ =>
      match new_ConnectedComponents (q_components_order q) (num_vertices c) (dsu c) with
      | Throw e => (Throw e, c)
      | Ok (cc, d) => (Ok cc, set_dsu c d)
      end
  end.

Definition point_query (q : QueryRun) (a b : nat) (c : CCSketchAlg) : outcome bool * CCSketchAlg :=
  let '(res, c) := ensure_answer q (dsu_valid c) c in
  match res with
  | Throw e => (Throw e, c)
  | Ok _ =>
      match find_root (dsu c) a with
      | Throw e => (Throw e, c)
      | Ok (ra, d) =>
          match find_root d b with
          | Throw e => (Throw e, set_dsu c d)
          | Ok (rb, d) => (Ok (bool_decide (ra = rb)), set_dsu c d)
          end
      end
  end.

Definition calc_spanning_forest (q : QueryRun) (c : CCSketchAlg)
    : outcome SpanningForest * CCSketchAlg :=
  let '(res, c) := connected_components q c in
  match res with
  | Throw e => (Throw e, c)
  | Ok _ => (Ok (new_SpanningForest (num_vertices c) (spanning_forest c)), c)
  end.

Definition sf_updates (t : UpdateType) (sf : SpanningForest) : list GraphUpdate :=
  (λ e, mkUpdate e t) <$> edges sf.

(** Update the state with the edges of a forest. The only failure of [update] is
    an access outside an array, after which there is no state to speak of. *)
Definition update_sf (t : UpdateType) (sf : SpanningForest) (c : CCSketchAlg)
    : outcome unit * CCSketchAlg :=
  match update_all_alg c (sf_updates t sf) with
  | Ok c => (Ok tt, c)
  | Throw e => (Throw e, c)
  end.

(** The first loop of [calc_disjoint_spanning_forests]; [SFs] and [max_rounds]
    are its accumulators. *)
Fixpoint peel_forests (qs : list QueryRun) (SFs : list SpanningForest) (max_rounds : nat)
    (c : CCSketchAlg) : outcome (list SpanningForest * nat) * CCSketchAlg :=
  match qs with
  | [] => (Ok (SFs, max_rounds), c)
  | q :: qs =>
      let '(res, c) := calc_spanning_forest q c in
      match res with
      | Throw e => (Throw e, c)
      | Ok sf =>
          let max_rounds := last_query_rounds c `max` max_rounds in
          let '(res, c) := update_sf DELETE sf c in
          match res with
          | Throw e => (Throw e, c)
          | Ok _ => peel_forests qs (SFs ++ [sf]) max_rounds c
          end
      end
  end.

Fixpoint restore_forests (SFs : list SpanningForest) (c : CCSketchAlg)
    : outcome unit * CCSketchAlg :=
  match SFs with
  | [] => (Ok tt, c)
  | sf :: SFs =>
      let '(res, c) := update_sf INSERT sf c in
      match res with
      | Throw e => (Throw e, c)
      | Ok _ => restore_forests SFs c
      end
  end.

(** [qs] are the runs of the [k] queries. *)
Definition calc_disjoint_spanning_forests (qs : list QueryRun) (c : CCSketchAlg)
    : outcome (list SpanningForest) * CCSketchAlg :=
  let '(res, c) := peel_forests qs [] 0 c in
  match res with
  | Throw e => (Throw e, c)
  | Ok (SFs, max_rounds) =>
      let '(res, c) := restore_forests SFs c in
      match res with
      | Throw e => (Throw e, c)
      | Ok _ => (Ok SFs, set_rounds c max_rounds)
      end
  end.
End ops.

(** ** Queries answer about the current graph *)

Section queries.
Context `{BuildConfig, Libm, Hashing}.
Context (n : nat) (n_ok : (N.of_nat n < 2 ^ 32)%N).
Implicit Types (c : CCSketchAlg) (E : gset N).

Definition run_ok (q : QueryRun) : Prop :=
  partition_ok get_ith_partition n (q_threads q) ∧
  zero_order (q_schedule q) ≡ₚ seq 0 n ∧
  (∀ r l, map_order (merge_sched (q_schedule q) r) l ≡ₚ l) ∧
  q_components_order q ≡ₚ seq 0 n.

(** The state between operations: the eager answer, the sketches of the graph
    [E], and no emulation under way. *)
Record alg_ok E c : Prop := {
  ao_eager : eager_ok n E c;
  ao_sketches : sketches_ok n (geometry (cc_sketch c)) (incident E) c;
  ao_graph : graph_ok n E;
  ao_fresh : calc_bkt_per_col (calc_vector_length (N.of_nat n)) < 64;
}.

Definition out_of_samples (e : exn) : Prop := ∃ sd m i, e = OutOfSamplesException sd m i.

(** The fields a query does not change. *)
Definition same_config c c' : Prop :=
  num_vertices c' = num_vertices c ∧ cc_seed c' = cc_seed c ∧ config c' = config c ∧
  delta_sketches c' = delta_sketches c.

Lemma cc_sketch_same c c' : same_config c c' → cc_sketch c' = cc_sketch c.
Proof. intros (Hn & Hs & Hc & _). unfold cc_sketch. by rewrite Hn, Hs, Hc. Qed.

Lemma cc_sketch_fresh c :
  calc_bkt_per_col (calc_vector_length (N.of_nat n)) < 64 → num_vertices c = n →
  represents (cc_sketch c) ∅ ∧ sample_idx (cc_sketch c) = 0.
Proof. intros Hb Hn. unfold cc_sketch. rewrite Hn. split; [by apply represents_new_sketch|done]. Qed.

Lemma cc_samples_pos c : 0 < num_samples (cc_sketch c).
Proof. unfold cc_sketch, alg_sketch, calc_cc_samples. simpl. lia. Qed.

Lemma nodes_ok_of E c :
  alg_ok E c → nodes_ok n E 0 (cc_sketch c) (sketches c) ∧ sampled 0 0 (seq 0 n) (sketches c).
Proof.
  intros [_ Hsk _ _]. split.
  - intros v Hv. destruct (lookup_lt_is_Some_2 (sketches c) v) as [s Hs].
    { by rewrite (so_length _ _ _ _ Hsk). }
    destruct (so_repr _ _ _ _ Hsk v s Hs) as (Hr & Hg & _). by exists s.
  - intros v s _ Hs. by destruct (so_repr _ _ _ _ Hsk v s Hs) as (_ & _ & Hi).
Qed.

(** After an emulation, its sketches with the sample state reset. *)
Lemma sketches_ok_reset E c c' :
  alg_ok E c → same_config c c' → nodes_ok n E 0 (cc_sketch c) (sketches c') →
  length (sketches c') = length (sketches c) →
  sketches_ok n (geometry (cc_sketch c')) (incident E) (reset_sample_states c').
Proof.
  intros [_ Hsk _ _] Hsame Hnodes Hlen. rewrite (cc_sketch_same c c') by done.
  destruct Hsame as (_ & _ & _ & Hd). constructor; simpl.
  - rewrite length_fmap, Hlen. apply Hsk.
  - intros v s Hs. rewrite list_lookup_fmap in Hs.
    destruct (sketches c' !! v) as [s'|] eqn:Hs'; [|done]. simpl in Hs. injection Hs as <-.
    destruct (Hnodes v) as (s & Hlk & Hr & Hg).
    { rewrite <- (so_length _ _ _ _ Hsk), <- Hlen. by eapply lookup_lt_Some. }
    simpl in Hlk. rewrite Hs' in Hlk. injection Hlk as ->.
    split_and!; [by apply represents_set_sample_idx|done|done].
  - intros t s Ht. rewrite Hd in Ht. by apply (so_delta _ _ _ _ Hsk t).
Qed.

Lemma boruvka_emulation_ok E c q :
  alg_ok E c → run_ok q → checksum_sound (cc_seed c) E →
  ∃ res c', boruvka_emulation q c = (res, c') ∧ same_config c c' ∧
    partial_answer n E (dsu c') (spanning_forest c') ∧
    nodes_ok n E 0 (cc_sketch c) (sketches c') ∧ length (sketches c') = length (sketches c) ∧
    ((res = Ok tt ∧ cached_answer n E (dsu c') (spanning_forest c') ∧
      dsu_valid c' = true ∧ shared_dsu_valid c' = true ∧ update_locked c' = false ∧
      last_query_rounds c' ≤ num_samples (cc_sketch c)) ∨
     (∃ e, res = Throw e ∧ out_of_samples e ∧ dsu_valid c' = dsu_valid c ∧
      shared_dsu_valid c' = shared_dsu_valid c ∧ update_locked c' = true)).
Proof.
  intros Hok (Hp & Hzo & Hmap & _) Hsound. pose proof Hok as [[Hn Hst Hsh Hca] Hsk HE Hb].
  destruct (nodes_ok_of E c Hok) as [Hnodes Hsmp]. destruct Hst as [Hwf Hdn Hfa].
  destruct (boruvka_rounds_ok n n_ok E HE 0 (cc_sketch c) get_ith_partition (q_threads q) Hp
    Hsound (cc_sketch_fresh c Hb Hn) (cc_samples_pos c) (q_schedule q) Hmap 0 (dsu c) (sketches c)
    (last_query_rounds c)) as (res & b & Hrun & [Hpa Hres] & Hnodes' & _ & [Hlen _]);
    [by apply cc_samples_pos|done..|].
  unfold boruvka_emulation. cbn [num_vertices set_locked dsu sketches last_query_rounds].
  change (cc_sketch (set_locked c true)) with (cc_sketch c). rewrite Hn, Hrun.
  destruct Hres as [(-> & Hans & Hrounds)|(i & ->)].
  - eexists _, _. split; [reflexivity|]. split; [done|]. split_and!; [done..|]. by left.
  - eexists _, _. split; [reflexivity|]. split; [done|]. split_and!; [done..|]. right.
    eexists. split_and!; try done. by eexists _, _, _.
Qed.

(** What [ensure_answer] promises, whichever branch it takes: the union-find
    holds the answer for the current graph, or the samples ran out, the
    sketches are as before, and the algorithm stays locked. *)
Lemma ensure_answer_ok E c q b :
  alg_ok E c → run_ok q → checksum_sound (cc_seed c) E → b = dsu_valid c →
  ∃ res c', ensure_answer q b c = (res, c') ∧ same_config c c' ∧ alg_ok E c' ∧
    ((res = Ok tt ∧ dsu_valid c' = true ∧ cached_answer n E (dsu c') (spanning_forest c') ∧
      (update_locked c = false → update_locked c' = false)) ∨
     (∃ e, res = Throw e ∧ out_of_samples e ∧ dsu_valid c' = false ∧ update_locked c' = true)).
Proof.
  intros Hok Hq Hsound ->. pose proof Hok as [[Hn Hst Hsh Hca] Hsk HE Hb].
  unfold ensure_answer. destruct (dsu_valid c) eqn:Hval.
  { exists (Ok tt), c. split_and!; try done. left. split_and!; try done. by apply Hca. }
  destruct (boruvka_emulation_ok E c q Hok Hq Hsound)
    as (res & c' & -> & Hsame & Hpa & Hnodes & Hlen & Hcase).
  pose proof (sketches_ok_reset E c c' Hok Hsame Hnodes Hlen) as Hsk'.
  eexists _, _. split; [done|]. split; [done|].
  assert (num_vertices c' = n) as Hn' by (destruct Hsame as (-> & _); done).
  destruct Hcase as [(-> & Hans & Hv & Hsv & Hul & _)|(e & -> & He & Hv & Hsv & Hul)].
  - split; [|left; by split_and!]. constructor; [|done..].
    constructor; simpl; [done|by destruct Hpa|congruence|done].
  - split; [|right; exists e; split_and!; [done..|by rewrite <- Hval|done]].
    constructor; [|done..]. constructor; simpl; [done|by destruct Hpa|congruence|].
    intros Hv'. congruence.
Qed.

Lemma alg_ok_set_dsu E c d :
  alg_ok E c → dsu_wf d → dsu_n d = n → (∀ v w, root_of (parent (dsu c)) v w ↔ root_of (parent d) v w) →
  alg_ok E (set_dsu c d).
Proof.
  intros [[Hn [Hwf Hdn Hfa] Hsh Hca] Hsk HE Hb] Hwf' Hdn' Heq.
  assert (∀ x y, dsu_rel d x y ↔ dsu_rel (dsu c) x y) as Hrel.
  { intros x y. symmetry. by apply same_set_ext. }
  constructor; [|by destruct Hsk|done..]. constructor; simpl; [done|by constructor|done|].
  intros Hv. destruct (Hca Hv) as [C1 C2 C3 C4]. constructor; try done.
  intros x y Hx Hy. rewrite Hrel. by apply C1.
Qed.

Lemma connected_components_ok E c q :
  alg_ok E c → run_ok q → checksum_sound (cc_seed c) E →
  ∃ res c', connected_components q c = (res, c') ∧ same_config c c' ∧ alg_ok E c' ∧
    ((∃ cc, res = Ok cc ∧ components_of n (dsu c') cc ∧ dsu_valid c' = true ∧
      cached_answer n E (dsu c') (spanning_forest c') ∧
      (update_locked c = false → update_locked c' = false)) ∨
     (∃ e, res = Throw e ∧ out_of_samples e ∧ dsu_valid c' = false ∧ update_locked c' = true)).
Proof.
  intros Hok Hq Hsound. unfold connected_components.
  destruct (ensure_answer_ok E c q (shared_dsu_valid c) Hok Hq Hsound) as
    (res & c' & -> & Hsame & Hok' & Hcase); [by destruct Hok as [[_ _ ? _] _ _ _]|].
  destruct Hcase as [(-> & Hv & Hans & Hul)|(e & -> & He & Hv & Hul)].
  2: { eexists _, _. split; [done|]. split_and!; [done..|]. right. by exists e. }
  pose proof Hok' as [[Hn [Hwf Hdn Hfa] _ Hca] _ _ _].
  destruct (new_ConnectedComponents_ok n (q_components_order q) (dsu c') Hwf Hdn)
    as (cc & d & Hnew & Hcc & Hwf' & Hdn' & Heq); [apply Hq|].
  rewrite Hn, Hnew.
  pose proof (alg_ok_set_dsu E c' d Hok' Hwf' Hdn' Heq) as Hok2.
  eexists _, _. split; [done|]. split; [done|]. split; [done|]. left. exists cc.
  split; [done|]. split; [|split_and!; [done| |done]].
  - by apply (components_of_roots n (dsu c') d cc Hwf Hwf' Heq).
  - destruct Hok2 as [[_ _ _ Hca2] _ _ _]. by apply Hca2.
Qed.

Lemma point_query_ok E c q a b :
  alg_ok E c → run_ok q → checksum_sound (cc_seed c) E → a < n → b < n →
  ∃ res c', point_query q a b c = (res, c') ∧ same_config c c' ∧ alg_ok E c' ∧
    ((∃ r, res = Ok r ∧ (r = true ↔ conn n E a b)) ∨
     (∃ e, res = Throw e ∧ out_of_samples e)).
Proof.
  intros Hok Hq Hsound Ha Hb. unfold point_query.
  destruct (ensure_answer_ok E c q (dsu_valid c) Hok Hq Hsound eq_refl) as
    (res & c' & -> & Hsame & Hok' & Hcase).
  destruct Hcase as [(-> & Hv & Hans & Hul)|(e & -> & He & Hv & Hul)].
  2: { eexists _, _. split; [done|]. split_and!; [done..|]. right. by exists e. }
  pose proof Hok' as [[Hn [Hwf Hdn Hfa] _ Hca] _ _ _].
  destruct (find_root_spec (dsu c') a Hwf) as (ra & d1 & -> & Hra & Hwf1 & Hdn1 & _ & Heq1); [lia|].
  destruct (find_root_spec d1 b Hwf1) as (rb & d2 & -> & Hrb & Hwf2 & Hdn2 & _ & Heq2); [lia|].
  eexists _, _. split; [done|]. split; [done|]. split.
  - apply alg_ok_set_dsu; [done|done|lia|]. intros v w. by rewrite Heq1, Heq2.
  - left. eexists. split; [done|]. rewrite bool_decide_eq_true, <- (ca_conn _ _ _ _ Hans) by done.
    symmetry. apply same_set_roots; [done|]. by apply Heq1.
Qed.

(** *** Spanning forests *)

Definition sf_indices (sf : SpanningForest) : list N :=
  (λ e, concat_pairing_fn (src e) (dst e)) <$> edges sf.

(** [sf] is a spanning forest of [E], every edge listed once. *)
Record spanning_forest_of E (sf : SpanningForest) : Prop := {
  sp_nodup : NoDup (sf_indices sf);
  sp_sub : list_to_set (sf_indices sf) ⊆ E;
  sp_forest : forest n (list_to_set (sf_indices sf));
  sp_span : ∀ x y, conn n (list_to_set (sf_indices sf)) x y ↔ conn n E x y;
  sp_edges : ∀ e, e ∈ edges sf → src e < dst e < n;
}.

Lemma new_SpanningForest_ok E d f :
  forest_array_ok n f → cached_answer n E d f → spanning_forest_of E (new_SpanningForest n f).
Proof.
  intros Hfa [_ Hsub Hfor Hspan].
  assert (∀ e, e ∈ edges (new_SpanningForest n f) → src e < dst e < n) as Hed.
  { intros e [Hs Hd]%elem_of_edges. destruct Hfa as [Hlen Hfa].
    destruct (lookup_lt_is_Some_2 f (src e)) as [D HD]; [lia|].
    rewrite (list_lookup_total_correct _ _ _ HD) in Hd. by eapply Hfa. }
  pose proof (edges_forest n f Hfa) as Hset. fold (sf_indices (new_SpanningForest n f)) in Hset.
  constructor; rewrite ?Hset; try done.
  unfold sf_indices. apply NoDup_fmap_2_strong; [|apply edges_NoDup].
  intros x y Hx Hy Hxy. apply Hed in Hx, Hy.
  assert (N.of_nat n ≤ 2 ^ 32)%N as n_ok' by lia.
  apply concat_pairing_fn_inj in Hxy; [|by apply (node_ok_lt n n_ok'); lia..].
  destruct x, y; simpl in *. f_equal; lia.
Qed.

Lemma calc_spanning_forest_ok E c q :
  alg_ok E c → run_ok q → checksum_sound (cc_seed c) E →
  ∃ res c', calc_spanning_forest q c = (res, c') ∧ same_config c c' ∧ alg_ok E c' ∧
    ((∃ sf, res = Ok sf ∧ spanning_forest_of E sf) ∨ (∃ e, res = Throw e ∧ out_of_samples e)).
Proof.
  intros Hok Hq Hsound. unfold calc_spanning_forest.
  destruct (connected_components_ok E c q Hok Hq Hsound) as (res & c' & -> & Hsame & Hok' & Hcase).
  destruct Hcase as [(cc & -> & _ & _ & Hans & _)|(e & -> & He & _)].
  - pose proof Hok' as [[Hn [_ _ Hfa] _ _] _ _ _]. rewrite Hn.
    eexists _, _. split; [done|]. split_and!; [done..|]. left. eexists. split; [done|].
    by apply (new_SpanningForest_ok E (dsu c')).
  - eexists _, _. split; [done|]. split_and!; [done..|]. right. by exists e.
Qed.

Lemma same_config_trans c1 c2 c3 : same_config c1 c2 → same_config c2 c3 → same_config c1 c3.
Proof.
  intros (Hq11 & Hq12 & Hq13 & Hq14) (Hq21 & Hq22 & Hq23 & Hq24).
  split_and!; by rewrite ?Hq21, ?Hq22, ?Hq23, ?Hq24.
Qed.

Lemma update_alg_config c c' upd : update_alg c upd = Ok c' → same_config c c'.
Proof.
  assert (∀ c c' v x, update_sketch c v x = Ok c' → same_config c c') as Hus.
  { clear c c'. intros c c' v x. unfold update_sketch.
    destruct (arr_get (sketches c) v); simpl; [|done]. by intros [= <-]. }
  assert (∀ c', pre_insert c upd = Ok c' → same_config c c') as Hpre.
  { clear c'. intros c'. unfold pre_insert. destruct NO_EAGER_DSU.
    { intros [= <-]. by destruct (dsu_valid c). }
    destruct (dsu_valid c); [|by intros [= <-]].
    destruct (DisjointSetUnion_MT.merge _ _ _ _) as [[m d]|]; simpl; [|done].
    destruct (arr_get _ _); simpl; [|done]. repeat case_match; by intros [= <-]. }
  unfold update_alg. destruct (pre_insert c upd) as [c1|] eqn:Hq1; simpl; [|done].
  destruct (update_sketch c1 _ _) as [c2|] eqn:Hq2; simpl; [|done]. intros Hq3.
  eapply same_config_trans; [by apply Hpre|]. eapply same_config_trans; [by eapply Hus|by eapply Hus].
Qed.

Lemma update_all_alg_config upds c c' : update_all_alg c upds = Ok c' → same_config c c'.
Proof.
  revert c. induction upds as [|u upds IH]; intros c; simpl; [by intros [= <-]|].
  destruct (update_alg c u) as [c1|] eqn:Hq1; simpl; [|done]. intros Hq2.
  eapply same_config_trans; [by eapply update_alg_config|by apply IH].
Qed.

(** Toggling the edges of a forest, as [update] does one by one. *)
Lemma update_sf_ok E c t sf :
  alg_ok E c → (∀ e, e ∈ edges sf → src e < dst e < n) →
  ∃ c', update_sf t sf c = (Ok tt, c') ∧ same_config c c' ∧
    alg_ok (toggle_all (sf_indices sf) E) c'.
Proof.
  intros [Hea Hsk HE Hb] Hed. assert (N.of_nat n ≤ 2 ^ 32)%N as n_ok' by lia.
  assert (Forall (upd_ok n) (sf_updates t sf)) as Hall.
  { unfold sf_updates. apply Forall_fmap, list.Forall_forall. intros e He.
    specialize (Hed e He). unfold upd_ok. simpl. lia. }
  assert (upd_index <$> sf_updates t sf = sf_indices sf) as Hidx.
  { unfold sf_updates, sf_indices. rewrite <- list_fmap_compose. done. }
  destruct (update_all_alg_ok n n_ok' (geometry (cc_sketch c)) E c (sf_updates t sf) Hea Hsk Hall)
    as (c' & Hrun & Hea' & Hsk' & Hul).
  pose proof (graph_ok_toggle_all n E (sf_updates t sf) HE Hall) as HE'.
  rewrite Hidx in *. unfold update_sf. rewrite Hrun. exists c'. split; [done|].
  pose proof (update_all_alg_config _ _ _ Hrun) as Hsame. split; [done|].
  constructor; [done| |done|done]. by rewrite (cc_sketch_same c c').
Qed.

(** Forest [i] spans what the earlier ones left of the graph. *)
Fixpoint disjoint_forests E (SFs : list SpanningForest) : Prop :=
  match SFs with
  | [] => True
  | sf :: SFs =>
      spanning_forest_of E sf ∧ disjoint_forests (E ∖ list_to_set (sf_indices sf)) SFs
  end.

Lemma peel_forests_ok E c qs acc m :
  alg_ok E c → Forall run_ok qs → checksum_sound (cc_seed c) E →
  ∃ res c', peel_forests qs acc m c = (res, c') ∧ same_config c c' ∧
    ((∃ SFs m', res = Ok (acc ++ SFs, m') ∧ length SFs = length qs ∧ disjoint_forests E SFs ∧
      alg_ok (toggle_all (concat (sf_indices <$> SFs)) E) c') ∨
     (∃ e, res = Throw e ∧ out_of_samples e)).
Proof.
  revert E c acc m. induction qs as [|q qs IH]; intros E c acc m Hok Hqs Hsound.
  { exists (Ok (acc, m)), c. split; [done|]. split; [done|]. left. exists [], m.
    by rewrite app_nil_r. }
  apply list.Forall_cons in Hqs as [Hq Hqs]. cbn [peel_forests].
  destruct (calc_spanning_forest_ok E c q Hok Hq Hsound) as (res & c1 & -> & Hsame & Hok1 & Hcase).
  destruct Hcase as [(sf & -> & Hsf)|(e & -> & He)].
  2: { eexists _, _. split; [done|]. split; [done|]. right. by exists e. }
  pose proof Hsf as [Hnd Hsub Hfor Hspan Hed].
  destruct (update_sf_ok E c1 DELETE sf Hok1 Hed) as (c2 & -> & Hsame2 & Hok2).
  pose proof (toggle_all_difference _ _ Hnd Hsub) as Hdiff.
  destruct (IH (toggle_all (sf_indices sf) E) c2 (acc ++ [sf]) (last_query_rounds c1 `max` m) Hok2 Hqs)
    as (res & c3 & -> & Hsame3 & Hcase).
  { destruct Hsame2 as (_ & -> & _), Hsame as (_ & -> & _).
    eapply checksum_sound_mono; [done|]. rewrite Hdiff. set_solver. }
  exists res, c3. split; [done|].
  split; [eapply same_config_trans; [done|by eapply same_config_trans]|].
  destruct Hcase as [(SFs & m' & -> & Hlen & Hdis & Hok3)|Hcase]; [left|by right].
  exists (sf :: SFs), m'. split_and!; [by rewrite <- app_assoc|simpl; lia| |].
  - split; [done|]. by rewrite <- Hdiff.
  - simpl. by rewrite toggle_all_app.
Qed.

Lemma restore_forests_ok E c SFs :
  alg_ok E c → (∀ sf, sf ∈ SFs → ∀ e, e ∈ edges sf → src e < dst e < n) →
  ∃ c', restore_forests SFs c = (Ok tt, c') ∧ same_config c c' ∧
    alg_ok (toggle_all (concat (sf_indices <$> SFs)) E) c'.
Proof.
  revert E c. induction SFs as [|sf SFs IH]; intros E c Hok Hed; [by exists c|].
  cbn [restore_forests].
  destruct (update_sf_ok E c INSERT sf Hok) as (c1 & -> & Hsame & Hok1); [apply Hed; set_solver|].
  destruct (IH _ c1 Hok1) as (c2 & -> & Hsame2 & Hok2); [intros sf' Hsf'; apply Hed; set_solver|].
  exists c2. split; [done|]. split; [by eapply same_config_trans|]. simpl. by rewrite toggle_all_app.
Qed.

Lemma disjoint_forests_edges E SFs sf :
  disjoint_forests E SFs → sf ∈ SFs → ∀ e, e ∈ edges sf → src e < dst e < n.
Proof.
  revert E. induction SFs as [|sf' SFs IH]; intros E; [set_solver|].
  intros [Hsf Hd] [->|Hin]%elem_of_cons; [apply (sp_edges _ _ Hsf)|by eapply IH].
Qed.

(** The forests are peeled off one by one and the graph is put back. *)
Lemma calc_disjoint_spanning_forests_ok E c qs :
  alg_ok E c → Forall run_ok qs → checksum_sound (cc_seed c) E →
  ∃ res c', calc_disjoint_spanning_forests qs c = (res, c') ∧
    ((∃ SFs, res = Ok SFs ∧ length SFs = length qs ∧ disjoint_forests E SFs ∧ alg_ok E c') ∨
     (∃ e, res = Throw e ∧ out_of_samples e)).
Proof.
  intros Hok Hqs Hsound. unfold calc_disjoint_spanning_forests.
  destruct (peel_forests_ok E c qs [] 0 Hok Hqs Hsound) as (res & c1 & -> & Hsame & Hcase).
  destruct Hcase as [(SFs & m & -> & Hlen & Hdis & Hok1)|(e & -> & He)].
  2: { eexists _, _. split; [done|]. right. by exists e. }
  cbn [app]. destruct (restore_forests_ok _ c1 SFs Hok1) as (c2 & -> & Hsame2 & Hok2).
  { intros sf Hsf. by eapply disjoint_forests_edges. }
  rewrite toggle_all_involutive in Hok2. eexists _, _. split; [done|]. left. exists SFs.
  split_and!; [done..|]. destruct Hok2 as [[Hn Hst Hsh Hca] Hsk HE Hb].
  constructor; [by constructor|by destruct Hsk|done|done].
Qed.
End queries.

(** ** Properties *)

Section theorems.
Context `{BuildConfig, Libm, Hashing}.
Implicit Types (c : CCSketchAlg) (E : gset N).





End theorems.

(** ** Witnesses *)

Section witnesses.
#[local] Existing Instances default_build integral_libm xxh3_hashing.

Definition example_run : QueryRun := mkQueryRun 2 example_schedule [3; 1; 0; 2].

Lemma example_run_ok : run_ok 4 example_run.
Proof.
  split; [exact example_partition|]. split; [|split].
  - apply (bool_decide_unpack _). by vm_compute.
  - intros r l. simpl. apply reverse_Permutation.
  - apply (bool_decide_unpack _). by vm_compute.
Qed.

Lemma example_same : same_config example_alg example_state.
Proof.
  destruct example_state_ok as (Hrun & _). by apply update_all_alg_config in Hrun.
Qed.

Lemma example_alg_ok : alg_ok 4 example_graph example_state.
Proof.
  destruct example_state_ok as (_ & H1 & H2 & _). constructor; [exact H1| |exact example_graph_ok|].
  - rewrite (cc_sketch_same example_alg example_state example_same). exact H2.
  - vm_compute. lia.
Qed.

Lemma example_state_sound : checksum_sound (cc_seed example_state) example_graph.
Proof. destruct example_same as (_ & -> & _). exact example_graph_sound. Qed.

Lemma example_n_lt : (N.of_nat 4 < 2 ^ 32)%N.
Proof. by vm_compute. Qed.





End witnesses.
