(* ===== verification/Driver.v ===== *)
(** * The stream driver and its workers: src/include/graph_sketch_driver.h and
    src/include/worker_thread_group.h

    Stream threads read updates and hand them to the guttering system, which
    collects them into batches; worker threads take batches from its queue and
    apply them to the sketching algorithm; the main thread starts the stream
    threads and, before a query, flushes the gutters and pauses the workers. The
    file models the three kinds of threads as one transition system whose steps
    are their accesses to shared state, for any algorithm and any guttering
    system that keep their promises. *)

From Stdlib Require Import NArith Lia.
From stdpp Require Import base list numbers relations.
From S2P Require Import Prelude Util CCSketchAlg.

(** ** The interfaces *)

(** [update_batch]: a node and the other endpoints of updates at it. *)
Abbreviation update_batch := (nat * list nat)%type.

(** What the driver asks of an algorithm. *)
Class StreamAlg (A : Type) := {
  alg_pre_insert : GraphUpdate → A → outcome A;
  alg_apply_update_batch : nat → nat → list nat → A → outcome A;
  alg_has_cached_query : QueryCode → A → bool;
}.

(** The updates of a queue entry, one by one. *)
Definition batch_pairs (b : update_batch) : list (nat * nat) := (b.1,.) <$> b.2.
Definition node_pairs (data : list update_batch) : list (nat * nat) := concat (batch_pairs <$> data).
Definition queue_pairs (q : list (list update_batch)) : list (nat * nat) := concat (node_pairs <$> q).

(** The guttering system is another repository. An insertion and a flush give
    the entries they push on the work queue; [gut_pending] is what is still in
    the gutters. Nothing is lost or made up, and a flush empties the gutters. *)
Class GutteringSystem (G : Type) := {
  gut_insert : nat * nat → G → G * list (list update_batch);
  gut_force_flush : G → G * list (list update_batch);
  gut_pending : G → list (nat * nat);
  gut_insert_ok : ∀ u g, gut_pending (gut_insert u g).1 ++ queue_pairs (gut_insert u g).2
                    ≡ₚ u :: gut_pending g;
  gut_flush_ok : ∀ g, gut_pending (gut_force_flush g).1 = [] ∧
                      queue_pairs (gut_force_flush g).2 ≡ₚ gut_pending g;
}.

(** ** Threads *)

(** Where a worker is in [do_work]: before [get_data]; in the loop over the
    batches of an entry; after [get_data] returned false, before it reads
    [shutdown] and before it reads [do_pause]; before it sets [paused]; before it
    evaluates the predicate of its wait; in the wait; after it; returned. *)
Inductive worker_pc :=
  | PGet | PWork (batches : list update_batch) | PFail | PCheck | PPause | PPred | PWait | PResume
  | PExit.

Record WorkerThread := mkWorker {
  pc : worker_pc;
  shutdown : bool;
  do_pause : bool;
  paused : bool;
}.

Definition set_pc (w : WorkerThread) (p : worker_pc) : WorkerThread :=
  mkWorker p (shutdown w) (do_pause w) (paused w).
Definition set_do_pause (w : WorkerThread) (b : bool) : WorkerThread :=
  mkWorker (pc w) (shutdown w) b (paused w).
Definition set_paused (w : WorkerThread) (b : bool) : WorkerThread :=
  mkWorker (pc w) (shutdown w) (do_pause w) b.
Definition set_shutdown (w : WorkerThread) : WorkerThread :=
  mkWorker (pc w) true (do_pause w) (paused w).

(** The shared accesses of a stream thread. *)
Inductive stream_op := SPreInsert (upd : GraphUpdate) | SInsert (u : nat * nat).

(** The task of a stream thread: [updates] are those the stream hands to it, up
    to the breakpoint. *)
Fixpoint stream_task (updates : list GraphUpdate) : list stream_op :=
  match updates with
  | [] => []
  | upd :: updates =>
      if decide (type upd = BREAKPOINT) then []
      else SPreInsert upd :: SInsert (src (edge upd), dst (edge upd)) ::
           SInsert (dst (edge upd), src (edge upd)) :: stream_task updates
  end.

(** The steps of the main thread. *)
Inductive main_op :=
  | MSetPause (i : nat) (b : bool)
  | MClearPaused (i : nat)
  | MStop (i : nat)
  | MNonBlock (b : bool)
  | MNotify
  | MSpawn (tasks : list (list stream_op))
  | MJoin
  | MForceFlush
  | MWaitPaused
  | MPrepQuery (code : QueryCode)
  | MJoinWorkers.

Definition unpause (i : nat) : list main_op := [MSetPause i false; MClearPaused i].

Definition resume_workers (num_workers : nat) : list main_op :=
  concat (unpause <$> seq 0 num_workers) ++ [MNonBlock false; MNotify].

Definition flush_workers (num_workers : nat) : list main_op :=
  MNonBlock true :: ((λ i, MSetPause i true) <$> seq 0 num_workers) ++ [MWaitPaused].

(** [~WorkerThreadGroup]. *)
Definition delete_workers (num_workers : nat) : list main_op :=
  MNonBlock true :: (MStop <$> seq 0 num_workers) ++ [MNotify; MJoinWorkers].

(** [parts] are the updates of each stream thread. *)
Definition process_stream_until (num_workers : nat) (parts : list (list GraphUpdate))
    : list main_op :=
  resume_workers num_workers ++ [MSpawn (stream_task <$> parts); MJoin].

Definition prep_query (code : QueryCode) : list main_op := [MPrepQuery code].

(** ** The system *)

Record Sys (A G : Type) := mkSys {
  s_alg : A;
  s_gts : G;
  s_queue : list (list update_batch);
  s_non_block : bool;
  s_workers : list WorkerThread;
  s_streams : list (list stream_op);
  s_main : list main_op;
  total_updates : N;
}.
Arguments mkSys {A G}.
Arguments s_alg {A G}.
Arguments s_gts {A G}.
Arguments s_queue {A G}.
Arguments s_non_block {A G}.
Arguments s_workers {A G}.
Arguments s_streams {A G}.
Arguments s_main {A G}.
Arguments total_updates {A G}.

Section system.
Context {A G : Type} `{StreamAlg A, GutteringSystem G}.
Implicit Types (s : Sys A G).

Definition set_worker s (i : nat) (w : WorkerThread) : Sys A G :=
  mkSys (s_alg s) (s_gts s) (s_queue s) (s_non_block s) (<[i := w]> (s_workers s)) (s_streams s)
    (s_main s) (total_updates s).
Definition set_queue s (q : list (list update_batch)) : Sys A G :=
  mkSys (s_alg s) (s_gts s) q (s_non_block s) (s_workers s) (s_streams s) (s_main s)
    (total_updates s).
Definition set_main s (m : list main_op) : Sys A G :=
  mkSys (s_alg s) (s_gts s) (s_queue s) (s_non_block s) (s_workers s) (s_streams s) m
    (total_updates s).
Definition set_stream s (t : nat) (ops : list stream_op) : Sys A G :=
  mkSys (s_alg s) (s_gts s) (s_queue s) (s_non_block s) (s_workers s) (<[t := ops]> (s_streams s))
    (s_main s) (total_updates s).
Definition set_alg s (a : A) : Sys A G :=
  mkSys a (s_gts s) (s_queue s) (s_non_block s) (s_workers s) (s_streams s) (s_main s)
    (total_updates s).
Definition set_gts s (g : G * list (list update_batch)) : Sys A G :=
  mkSys (s_alg s) g.1 (s_queue s ++ g.2) (s_non_block s) (s_workers s) (s_streams s) (s_main s)
    (total_updates s).
Definition set_non_block s (b : bool) : Sys A G :=
  mkSys (s_alg s) (s_gts s) (s_queue s) b (s_workers s) (s_streams s) (s_main s) (total_updates s).
Definition set_streams s (l : list (list stream_op)) : Sys A G :=
  mkSys (s_alg s) (s_gts s) (s_queue s) (s_non_block s) (s_workers s) l (s_main s)
    (total_updates s).

(** [batch_callback]. *)
Definition batch_callback s (thr_id : nat) (b : update_batch) : outcome (Sys A G) :=
  a ← alg_apply_update_batch thr_id b.1 b.2 (s_alg s);
  Ok (mkSys a (s_gts s) (s_queue s) (s_non_block s) (s_workers s) (s_streams s) (s_main s)
        (u64 (total_updates s + N.of_nat (length b.2)))).

(** One step of [do_work] of worker [i]; [k] is the queue entry [get_data] takes.
    [None]: the thread cannot take a step. *)
Definition worker_step (i k : nat) s : option (outcome (Sys A G)) :=
  w ← s_workers s !! i;
  match pc w with
  | PGet =>
      match s_queue s !! k with
      | Some data =>
          Some (Ok (set_worker (set_queue s (take k (s_queue s) ++ drop (S k) (s_queue s))) i
                      (set_pc w (PWork data))))
      | None =>
          if decide (s_queue s = []) then
            if s_non_block s then Some (Ok (set_worker s i (set_pc w PFail))) else None
          else None
      end
  | PWork [] => Some (Ok (set_worker s i (set_pc w PGet)))
  | PWork (b :: batches) =>
      let s := set_worker s i (set_pc w (PWork batches)) in
      Some (if decide (0 < length b.2) then batch_callback s i b else Ok s)
  | PFail => Some (Ok (set_worker s i (set_pc w (if shutdown w then PExit else PCheck))))
  | PCheck => Some (Ok (set_worker s i (set_pc w (if do_pause w then PPause else PGet))))
  | PPause => Some (Ok (set_worker s i (set_pc (set_paused w true) PPred)))
  | PPred =>
      Some (Ok (set_worker s i
        (set_pc w (if negb (do_pause w) || shutdown w then PResume else PWait))))
  | PWait => Some (Ok (set_worker s i (set_pc w PPred)))
  | PResume => Some (Ok (set_worker s i (set_pc (set_paused w false) PGet)))
  | PExit => None
  end.

Definition stream_step (t : nat) s : option (outcome (Sys A G)) :=
  ops ← s_streams s !! t;
  match ops with
  | [] => None
  | SPreInsert upd :: ops =>
      Some (a ← alg_pre_insert upd (s_alg s); Ok (set_stream (set_alg s a) t ops))
  | SInsert u :: ops => Some (Ok (set_stream (set_gts s (gut_insert u (s_gts s))) t ops))
  end.

Definition alter_worker s (i : nat) (f : WorkerThread → WorkerThread) : Sys A G :=
  mkSys (s_alg s) (s_gts s) (s_queue s) (s_non_block s) (alter f i (s_workers s)) (s_streams s)
    (s_main s) (total_updates s).

Definition main_step s : option (outcome (Sys A G)) :=
  match s_main s with
  | [] => None
  | op :: rest =>
      let s := set_main s rest in
      match op with
      | MSetPause i b => Some (Ok (alter_worker s i (λ w, set_do_pause w b)))
      | MClearPaused i => Some (Ok (alter_worker s i (λ w, set_paused w false)))
      | MStop i => Some (Ok (alter_worker s i set_shutdown))
      | MNonBlock b => Some (Ok (set_non_block s b))
      | MNotify => Some (Ok s)
      | MSpawn tasks => Some (Ok (set_streams s (s_streams s ++ tasks)))
      | MJoin => if forallb (λ ops, bool_decide (ops = @nil stream_op)) (s_streams s)
                 then Some (Ok s) else None
      | MForceFlush => Some (Ok (set_gts s (gut_force_flush (s_gts s))))
      | MWaitPaused => if forallb paused (s_workers s) then Some (Ok s) else None
      | MPrepQuery code =>
          Some (Ok (if alg_has_cached_query code (s_alg s) then s
                    else set_main s (MForceFlush :: flush_workers (length (s_workers s)) ++ rest)))
      | MJoinWorkers => if forallb (λ w, match pc w with PExit => true | _ => false end) (s_workers s)
                        then Some (Ok s) else None
      end
  end.

Inductive thread_id := TWorker (i k : nat) | TStream (t : nat) | TMain.

Definition step (th : thread_id) s : option (outcome (Sys A G)) :=
  match th with
  | TWorker i k => worker_step i k s
  | TStream t => stream_step t s
  | TMain => main_step s
  end.

Definition sys_step s s' : Prop := ∃ th, step th s = Some (Ok s').
Definition reachable : Sys A G → Sys A G → Prop := rtc sys_step.

(** The run of a schedule; [None] when a scheduled thread cannot step or throws. *)
Fixpoint run (sched : list thread_id) s : option (Sys A G) :=
  match sched with
  | [] => Some s
  | th :: sched => match step th s with Some (Ok s') => run sched s' | _ => None end
  end.

Lemma run_reachable sched s s' : run sched s = Some s' → reachable s s'.
Proof.
  revert s. induction sched as [|th sched IH]; intros s; simpl; [intros [= ->]; constructor|].
  destruct (step th s) as [[s1|]|] eqn:Hs; [|done..]. intros Hr.
  eapply rtc_l; [by exists th|by apply IH].
Qed.

(** Right after the constructor of the driver, with a program for the main
    thread. *)
Definition new_system (a : A) (g : G) (num_workers : nat) (main : list main_op) : Sys A G :=
  mkSys a g [] false (replicate num_workers (mkWorker PGet false false false)) [] main 0.
End system.

(** ** What is where *)

Definition ops_pairs (ops : list stream_op) : list (nat * nat) :=
  omap (λ op, match op with SInsert u => Some u | _ => None end) ops.
Definition ops_upds (ops : list stream_op) : list GraphUpdate :=
  omap (λ op, match op with SPreInsert u => Some u | _ => None end) ops.

Definition main_tasks (m : list main_op) : list (list stream_op) :=
  concat ((λ op, match op with MSpawn tasks => tasks | _ => [] end) <$> m).

(** The updates a worker has taken and not applied. *)
Definition in_hand (w : WorkerThread) : list (nat * nat) :=
  match pc w with PWork batches => node_pairs batches | _ => [] end.

Lemma queue_pairs_app q1 q2 : queue_pairs (q1 ++ q2) = queue_pairs q1 ++ queue_pairs q2.
Proof. unfold queue_pairs. by rewrite fmap_app, concat_app. Qed.

Lemma queue_pairs_take q k data :
  q !! k = Some data →
  node_pairs data ++ queue_pairs (take k q ++ drop (S k) q) ≡ₚ queue_pairs q.
Proof.
  intros Hk. rewrite <- (take_drop_middle q k data Hk) at 3.
  rewrite !queue_pairs_app. apply Permutation_app_swap_app.
Qed.

(** A list of lists with one entry shortened. *)
Lemma concat_fmap_insert {X Y} (f : X → list Y) (l : list X) i x y part :
  l !! i = Some x → f x ≡ₚ part ++ f y →
  concat (f <$> l) ≡ₚ part ++ concat (f <$> <[i := y]> l).
Proof.
  intros Hi Hf. destruct (concat_fmap_entry f l i x Hi) as (rest & -> & ->). by rewrite Hf, app_assoc.
Qed.

Section conservation.
Context {A G : Type} `{StreamAlg A, GutteringSystem G}.
Implicit Types (s : Sys A G).

Definition waiting_pairs s : list (nat * nat) :=
  gut_pending (s_gts s) ++ queue_pairs (s_queue s) ++ concat (in_hand <$> s_workers s).

Definition coming_pairs s : list (nat * nat) :=
  concat (ops_pairs <$> s_streams s) ++ concat (ops_pairs <$> main_tasks (s_main s)).

Definition coming_upds s : list GraphUpdate :=
  concat (ops_upds <$> s_streams s) ++ concat (ops_upds <$> main_tasks (s_main s)).

(** What an algorithm promises the driver: [holds pres app a] says that [a] has
    seen the updates [pres] before insertion and the updates [app] in batches. *)
Class AlgMeaning (num_workers : nat) := {
  holds : list GraphUpdate → list (nat * nat) → A → Prop;
  upd_valid : GraphUpdate → Prop;
  pair_valid : nat * nat → Prop;
  holds_perm : ∀ pres pres' app app' a,
    pres ≡ₚ pres' → app ≡ₚ app' → holds pres app a → holds pres' app' a;
  pre_insert_meaning : ∀ upd pres app a,
    upd_valid upd → holds pres app a →
    ∃ a', alg_pre_insert upd a = Ok a' ∧ holds (upd :: pres) app a';
  batch_meaning : ∀ i b pres app a,
    i < num_workers → Forall pair_valid (batch_pairs b) → 0 < length b.2 → holds pres app a →
    ∃ a', alg_apply_update_batch i b.1 b.2 a = Ok a' ∧ holds pres (batch_pairs b ++ app) a';
  batch_keeps_cached : ∀ i b code a a',
    alg_apply_update_batch i b.1 b.2 a = Ok a' →
    alg_has_cached_query code a' = alg_has_cached_query code a;
}.

Context (num_workers : nat) `{!AlgMeaning num_workers}.
Context (all_pairs : list (nat * nat)) (all_upds : list GraphUpdate).
Hypothesis pairs_ok : Forall pair_valid all_pairs.
Hypothesis upds_ok : Forall upd_valid all_upds.

(** Every update of the streams is in one place: not yet read, in the gutters, in
    the queue, in a worker's hands, or applied. *)
Record conserved s (pres : list GraphUpdate) (app : list (nat * nat)) : Prop := {
  cs_holds : holds pres app (s_alg s);
  cs_pairs : app ++ waiting_pairs s ++ coming_pairs s ≡ₚ all_pairs;
  cs_upds : pres ++ coming_upds s ≡ₚ all_upds;
  cs_workers : length (s_workers s) = num_workers;
}.

Lemma in_hand_alter f i (ws : list WorkerThread) :
  (∀ w, in_hand (f w) = in_hand w) → in_hand <$> alter f i ws = in_hand <$> ws.
Proof.
  intros Hf. apply list_eq. intros j. rewrite !list_lookup_fmap.
  destruct (decide (i = j)) as [->|Hne].
  - rewrite list_lookup_alter_eq. destruct (ws !! j); simpl; [by rewrite Hf|done].
  - by rewrite list_lookup_alter_ne.
Qed.

(** A worker that keeps what it has in hand changes nothing. *)
Lemma conserved_worker s i w w' pres app :
  s_workers s !! i = Some w → in_hand w' = in_hand w →
  conserved s pres app → conserved (set_worker s i w') pres app.
Proof.
  intros Hw Hh [H1 H2 H3 H4]. constructor; simpl; [done| |done|by rewrite length_insert].
  rewrite <- H2. f_equiv. unfold waiting_pairs, coming_pairs. simpl. do 2 f_equiv. f_equiv.
  symmetry. apply (concat_fmap_insert in_hand _ i w w' []); [done|by rewrite Hh].
Qed.

Lemma conserved_take s i w k data pres app :
  s_workers s !! i = Some w → in_hand w = [] → s_queue s !! k = Some data →
  conserved s pres app →
  conserved (set_worker (set_queue s (take k (s_queue s) ++ drop (S k) (s_queue s))) i
    (set_pc w (PWork data))) pres app.
Proof.
  intros Hw Hh Hk [H1 H2 H3 H4]. constructor; simpl; [done| |done|by rewrite length_insert].
  rewrite <- H2. f_equiv. unfold waiting_pairs, coming_pairs. simpl. f_equiv. f_equiv.
  rewrite <- (queue_pairs_take _ _ _ Hk).
  assert (concat (in_hand <$> <[i := set_pc w (PWork data)]> (s_workers s)) ≡ₚ
    node_pairs data ++ concat (in_hand <$> s_workers s)) as ->; [|solve_Permutation].
  rewrite (concat_fmap_insert in_hand (<[i := set_pc w (PWork data)]> (s_workers s)) i
    (set_pc w (PWork data)) w (node_pairs data)).
  - by rewrite list_insert_insert_eq, list_insert_id.
  - apply list_lookup_insert_eq. by eapply lookup_lt_Some.
  - unfold in_hand at 2. unfold in_hand in Hh. simpl. rewrite Hh. by rewrite app_nil_r.
Qed.

Lemma conserved_batch s i w b batches pres app :
  s_workers s !! i = Some w → pc w = PWork (b :: batches) → 0 < length b.2 →
  conserved s pres app →
  ∃ s', batch_callback (set_worker s i (set_pc w (PWork batches))) i b = Ok s' ∧
    conserved s' pres (batch_pairs b ++ app).
Proof.
  intros Hw Hpc Hb [H1 H2 H3 H4].
  assert (concat (in_hand <$> s_workers s) ≡ₚ batch_pairs b ++
    concat (in_hand <$> <[i := set_pc w (PWork batches)]> (s_workers s))) as Hhand.
  { apply (concat_fmap_insert in_hand _ i w); [done|]. unfold in_hand. simpl. by rewrite Hpc. }
  destruct (batch_meaning i b pres app (s_alg s)) as (a' & Ha & Ha'); [| |done|done|].
  - rewrite <- H4. by eapply lookup_lt_Some.
  - apply list.Forall_forall. intros p Hp. rewrite list.Forall_forall in pairs_ok. apply pairs_ok.
    rewrite <- H2. unfold waiting_pairs. rewrite Hhand. set_solver.
  - unfold batch_callback. simpl. rewrite Ha. simpl. eexists. split; [done|].
    constructor; simpl; [done| |done|by rewrite length_insert].
    rewrite <- H2. unfold waiting_pairs, coming_pairs. simpl. rewrite Hhand. solve_Permutation.
Qed.

Lemma worker_step_conserved i k s r pres app :
  conserved s pres app → worker_step i k s = Some r →
  ∃ s' app', r = Ok s' ∧ conserved s' pres app'.
Proof.
  intros Hc. unfold worker_step. destruct (s_workers s !! i) as [w|] eqn:Hw; [|done]. simpl.
  assert (∀ w', in_hand w' = in_hand w → r = Ok (set_worker s i w') →
    ∃ s' app', r = Ok s' ∧ conserved s' pres app') as Hkeep.
  { intros w' Hh ->. eexists _, app. split; [done|]. by eapply conserved_worker. }
  destruct (pc w) as [|[|b batches]|  | | | | | | ] eqn:Hpc; intros Hr.
  - destruct (s_queue s !! k) as [data|] eqn:Hk.
    + injection Hr as <-. eexists _, app. split; [done|]. apply conserved_take; try done.
      unfold in_hand. by rewrite Hpc.
    + case_decide; [|done]. destruct (s_non_block s); [|done]. injection Hr as <-.
      eapply Hkeep; [|done]. unfold in_hand. by rewrite Hpc.
  - injection Hr as <-. eapply Hkeep; [|done]. unfold in_hand. by rewrite Hpc.
  - injection Hr as <-. case_decide as Hb.
    + destruct (conserved_batch s i w b batches pres app) as (s' & -> & Hs'); [done..|].
      by exists s', (batch_pairs b ++ app).
    + eapply Hkeep; [|done]. unfold in_hand. rewrite Hpc. simpl. unfold node_pairs. simpl.
      unfold batch_pairs at 2. destruct (b.2); [done|simpl in Hb; lia].
  - injection Hr as <-. eapply Hkeep; [|done]. unfold in_hand. rewrite Hpc. by destruct (shutdown w).
  - injection Hr as <-. eapply Hkeep; [|done]. unfold in_hand. rewrite Hpc. by destruct (do_pause w).
  - injection Hr as <-. eapply Hkeep; [|done]. unfold in_hand. by rewrite Hpc.
  - injection Hr as <-. eapply Hkeep; [|done]. unfold in_hand. rewrite Hpc.
    by destruct (negb (do_pause w) || shutdown w).
  - injection Hr as <-. eapply Hkeep; [|done]. unfold in_hand. by rewrite Hpc.
  - injection Hr as <-. eapply Hkeep; [|done]. unfold in_hand. by rewrite Hpc.
  - done.
Qed.

Lemma stream_step_conserved t s r pres app :
  conserved s pres app → stream_step t s = Some r →
  ∃ s' pres', r = Ok s' ∧ conserved s' pres' app.
Proof.
  intros [H1 H2 H3 H4]. unfold stream_step.
  destruct (s_streams s !! t) as [[|[upd|u] ops]|] eqn:Ht; simpl; [done| | |done]; intros [= <-].
  - assert (concat (ops_upds <$> s_streams s) ≡ₚ upd :: concat (ops_upds <$> <[t := ops]> (s_streams s)))
      as Hu by by apply (concat_fmap_insert ops_upds _ t (SPreInsert upd :: ops) ops [upd]).
    assert (concat (ops_pairs <$> s_streams s) ≡ₚ concat (ops_pairs <$> <[t := ops]> (s_streams s)))
      as Hp by by apply (concat_fmap_insert ops_pairs _ t (SPreInsert upd :: ops) ops []).
    destruct (pre_insert_meaning upd pres app (s_alg s)) as (a' & Ha & Ha'); [|done|].
    { rewrite list.Forall_forall in upds_ok. apply upds_ok. rewrite <- H3. unfold coming_upds.
      rewrite Hu. set_solver. }
    rewrite Ha. simpl. eexists _, (upd :: pres). split; [done|].
    constructor; simpl; [done| | |done].
    + rewrite <- H2. unfold waiting_pairs, coming_pairs. simpl. by rewrite Hp.
    + rewrite <- H3. unfold coming_upds. simpl. rewrite Hu. solve_Permutation.
  - assert (concat (ops_upds <$> s_streams s) ≡ₚ concat (ops_upds <$> <[t := ops]> (s_streams s)))
      as Hu by by apply (concat_fmap_insert ops_upds _ t (SInsert u :: ops) ops []).
    assert (concat (ops_pairs <$> s_streams s) ≡ₚ u :: concat (ops_pairs <$> <[t := ops]> (s_streams s)))
      as Hp by by apply (concat_fmap_insert ops_pairs _ t (SInsert u :: ops) ops [u]).
    eexists _, pres. split; [done|]. constructor; simpl; [done| | |done].
    + rewrite <- H2. unfold waiting_pairs, coming_pairs. simpl. rewrite Hp, queue_pairs_app.
      pose proof (gut_insert_ok u (s_gts s)) as Hg.
      assert (∀ a b c d e f : list (nat * nat), a ++ b ≡ₚ u :: c →
        app ++ (a ++ (d ++ b) ++ e) ++ f ≡ₚ app ++ (c ++ d ++ e) ++ u :: f) as Hgen.
      { intros a b c d e f Hab. rewrite (Permutation_app_comm d b), !app_assoc.
        rewrite <- (app_assoc app a b), Hab. solve_Permutation. }
      rewrite <- app_assoc. simpl. rewrite <- (Hgen _ _ _ _ _ _ Hg). solve_Permutation.
    + rewrite <- H3. unfold coming_upds. simpl. by rewrite Hu.
Qed.
Lemma main_tasks_flush nw rest : main_tasks (flush_workers nw ++ rest) = main_tasks rest.
Proof.
  unfold flush_workers, main_tasks. simpl. rewrite <- app_assoc, fmap_app, concat_app. simpl.
  assert (∀ l : list nat, concat ((λ op, match op with MSpawn tasks => tasks | _ => [] end) <$>
    ((λ i, MSetPause i true) <$> l)) = []) as ->; [|done].
  intros l. induction l; simpl; done.
Qed.

Lemma conserved_main s pres app m :
  main_tasks m = main_tasks (s_main s) → conserved s pres app → conserved (set_main s m) pres app.
Proof.
  intros Hm [H1 H2 H3 H4]. constructor; simpl; [done| | |done].
  - rewrite <- H2. unfold coming_pairs. simpl. by rewrite Hm.
  - rewrite <- H3. unfold coming_upds. simpl. by rewrite Hm.
Qed.

Lemma conserved_alter s i f pres app :
  (∀ w, in_hand (f w) = in_hand w) → conserved s pres app → conserved (alter_worker s i f) pres app.
Proof.
  intros Hf [H1 H2 H3 H4]. constructor; simpl; [done| |done|by rewrite length_alter].
  rewrite <- H2. unfold waiting_pairs, coming_pairs. simpl. by rewrite (in_hand_alter f).
Qed.

Lemma main_step_conserved s r pres app :
  conserved s pres app → main_step s = Some r → ∃ s', r = Ok s' ∧ conserved s' pres app.
Proof.
  intros Hc. unfold main_step. destruct (s_main s) as [|op rest] eqn:Hm; [done|].
  assert (∀ op', s_main s = op' :: rest → (∀ tasks, op' ≠ MSpawn tasks) →
    conserved (set_main s rest) pres app) as Hrest.
  { intros op' Hop Hno. apply conserved_main; [|done]. rewrite Hop. destruct op'; try done.
    by destruct (Hno tasks). }
  destruct op; try specialize (Hrest _ Hm ltac:(done)).
  - intros [= <-]. eexists. split; [done|]. by apply conserved_alter.
  - intros [= <-]. eexists. split; [done|]. by apply conserved_alter.
  - intros [= <-]. eexists. split; [done|]. by apply conserved_alter.
  - intros [= <-]. eexists. split; [done|]. by destruct Hrest.
  - intros [= <-]. eexists. split; [done|]. done.
  - intros [= <-]. clear Hrest. eexists. split; [done|]. destruct Hc as [H1 H2 H3 H4].
    constructor; simpl; [done| | |done].
    + rewrite <- H2. unfold waiting_pairs, coming_pairs. simpl. rewrite Hm. unfold main_tasks.
      simpl. rewrite !fmap_app, !concat_app. solve_Permutation.
    + rewrite <- H3. unfold coming_upds. simpl. rewrite Hm. unfold main_tasks.
      simpl. rewrite !fmap_app, !concat_app. solve_Permutation.
  - case_match; [|done]. intros [= <-]. by eexists.
  - intros [= <-]. eexists. split; [done|]. destruct Hrest as [H1 H2 H3 H4].
    constructor; simpl; [done| |done|done]. rewrite <- H2. unfold waiting_pairs, coming_pairs. simpl.
    destruct (gut_flush_ok (s_gts s)) as [Hp Hq]. rewrite Hp, queue_pairs_app, Hq. solve_Permutation.
  - case_match; [|done]. intros [= <-]. by eexists.
  - intros [= <-]. eexists. split; [done|]. simpl.
    destruct (alg_has_cached_query code (s_alg s)); [done|]. apply (conserved_main (set_main s rest)); [|done].
    simpl. change (main_tasks (flush_workers (length (s_workers s)) ++ rest) = main_tasks rest).
    apply main_tasks_flush.
  - case_match; [|done]. intros [= <-]. by eexists.
Qed.

(** A step of any thread keeps the balance and does not throw. *)
Lemma step_conserved th s r pres app :
  conserved s pres app → step th s = Some r →
  ∃ s' pres' app', r = Ok s' ∧ conserved s' pres' app'.
Proof.
  intros Hc. destruct th as [i k|t|]; simpl; intros Hs.
  - destruct (worker_step_conserved i k s r pres app Hc Hs) as (s' & app' & ? & ?). by exists s', pres, app'.
  - destruct (stream_step_conserved t s r pres app Hc Hs) as (s' & pres' & ? & ?). by exists s', pres', app.
  - destruct (main_step_conserved s r pres app Hc Hs) as (s' & ? & ?). by exists s', pres, app.
Qed.

Lemma reachable_conserved s s' pres app :
  conserved s pres app → reachable s s' → ∃ pres' app', conserved s' pres' app'.
Proof.
  intros Hc Hr. revert pres app Hc. induction Hr as [s|s s1 s2 [th Hs] _ IH]; intros pres app Hc; [by eauto|].
  destruct (step_conserved th s _ pres app Hc Hs) as (s1' & pres' & app' & Heq & Hc').
  injection Heq as <-. by eapply IH.
Qed.
End conservation.

(** ** The first flush

    A driver that was just constructed processes its stream and prepares a query. *)

Section first_flush.
Context {A G : Type} `{StreamAlg A, GutteringSystem G}.
Context (num_workers : nat) `{!AlgMeaning num_workers}.
Context (tasks : list (list stream_op)) (code : QueryCode).
Implicit Types (s : Sys A G) (w : WorkerThread).

Definition running w : Prop :=
  match pc w with PGet | PWork _ => True | _ => False end ∧
  shutdown w = false ∧ do_pause w = false ∧ paused w = false.

Definition calm s : Prop := s_non_block s = false ∧ Forall running (s_workers s).

Definition streams_done s : Prop := Forall (λ ops, ops = []) (s_streams s).

(** During a flush a worker that got past [get_data] has seen the queue empty. *)
Definition flushing (q : list (list update_batch)) w : Prop :=
  shutdown w = false ∧
  match pc w with
  | PGet | PWork _ => paused w = false
  | PFail | PCheck => paused w = false ∧ q = []
  | PPause => paused w = false ∧ do_pause w = true ∧ q = []
  | PPred | PWait => paused w = true ∧ do_pause w = true ∧ q = []
  | PResume | PExit => False
  end.

Record pausing s : Prop := {
  pa_non_block : s_non_block s = true;
  pa_streams : streams_done s;
  pa_pending : gut_pending (s_gts s) = [];
  pa_workers : Forall (flushing (s_queue s)) (s_workers s);
}.

(** The operations of [resume_workers]. *)
Definition harmless (op : main_op) : Prop :=
  match op with
  | MSetPause _ b | MNonBlock b => b = false
  | MClearPaused _ | MNotify => True
  | _ => False
  end.

(** All workers but [ks] were told to pause. *)
Definition paused_except (ks : list nat) s : Prop :=
  ∀ i w, s_workers s !! i = Some w → i ∈ ks ∨ do_pause w = true.

Inductive stage s : Prop :=
  | st_setup ops : s_main s = ops ++ [MSpawn tasks; MJoin; MPrepQuery code] →
      Forall harmless ops → calm s → stage s
  | st_join : s_main s = [MJoin; MPrepQuery code] → calm s → stage s
  | st_prep : s_main s = [MPrepQuery code] → calm s → streams_done s → stage s
  | st_force : s_main s = MForceFlush :: flush_workers num_workers → calm s → streams_done s → stage s
  | st_non_block : s_main s = flush_workers num_workers → calm s → streams_done s →
      gut_pending (s_gts s) = [] → stage s
  | st_pausing ks : s_main s = ((λ i, MSetPause i true) <$> ks) ++ [MWaitPaused] → pausing s →
      paused_except ks s → stage s
  | st_flushed : s_main s = [] → pausing s → Forall (λ w, paused w = true) (s_workers s) → stage s
  | st_cached : s_main s = [] → calm s → streams_done s →
      alg_has_cached_query code (s_alg s) = true → stage s.

Lemma running_flushing q w : running w → flushing q w.
Proof.
  intros (Hpc & Hs & Hd & Hp). split; [done|]. by destruct (pc w).
Qed.

Lemma Forall_alter_same {X} (P : X → Prop) f i (l : list X) :
  (∀ x, P x → P (f x)) → Forall P l → Forall P (alter f i l).
Proof.
  intros Hf Hl. apply Forall_lookup. intros j x. destruct (decide (i = j)) as [->|Hne].
  - rewrite list_lookup_alter_eq, fmap_Some. intros (y & Hy & ->). apply Hf.
    by eapply Forall_lookup_1.
  - rewrite list_lookup_alter_ne by done. intros Hx. by eapply Forall_lookup_1.
Qed.

(** Worker steps in a calm system. *)
Lemma calm_worker_step i k s s' :
  calm s → worker_step i k s = Some (Ok s') →
  calm s' ∧ s_main s' = s_main s ∧ s_streams s' = s_streams s ∧ s_gts s' = s_gts s ∧
  alg_has_cached_query code (s_alg s') = alg_has_cached_query code (s_alg s).
Proof.
  intros [Hnb Hrun]. unfold worker_step. destruct (s_workers s !! i) as [w|] eqn:Hw; [|done]. simpl.
  pose proof (Forall_lookup_1 _ _ _ _ Hrun Hw) as (Hpc & Hsh & Hdp & Hpa).
  destruct (pc w) as [|[|b batches]| | | | | | |] eqn:Hp; try done.
  - destruct (s_queue s !! k) as [data|]; [|by case_decide; rewrite ?Hnb].
    intros [= <-]. split; [|done]. split; [done|]. simpl. by apply Forall_insert.
  - intros [= <-]. split; [|done]. split; [done|]. simpl. by apply Forall_insert.
  - case_decide as Hb; intros Hst.
    + unfold batch_callback in Hst. simpl in Hst.
      destruct (alg_apply_update_batch i b.1 b.2 (s_alg s)) as [a|] eqn:Ha; [|done].
      injection Hst as <-. simpl. split; [|split_and!; try done; by eapply batch_keeps_cached].
      split; [done|]. simpl. by apply Forall_insert.
    + injection Hst as <-. split; [|done]. split; [done|]. simpl. by apply Forall_insert.
Qed.

(** Worker steps during a flush. *)
Lemma pausing_worker_step i k s s' :
  pausing s → worker_step i k s = Some (Ok s') →
  pausing s' ∧ s_main s' = s_main s ∧
  (Forall (λ w, paused w = true) (s_workers s) → Forall (λ w, paused w = true) (s_workers s')).
Proof.
  intros [Hnb Hst Hpe Hws]. unfold worker_step.
  destruct (s_workers s !! i) as [w|] eqn:Hw; [|done]. simpl.
  pose proof (Forall_lookup_1 _ _ _ _ Hws Hw) as [Hsh Hfl].
  assert (∀ w', flushing (s_queue s) w' → (paused w = true → paused w' = true) →
    pausing (set_worker s i w') ∧ s_main (set_worker s i w') = s_main s ∧
    (Forall (λ w, paused w = true) (s_workers s) →
     Forall (λ w, paused w = true) (s_workers (set_worker s i w')))) as Hset.
  { intros w' Hw' Hpa. split; [|split; [done|]].
    - constructor; simpl; try done. by apply Forall_insert.
    - intros Hall. simpl. apply Forall_insert; [done|]. apply Hpa. by apply (Forall_lookup_1 _ _ _ _ Hall Hw). }
  destruct (pc w) as [|[|b batches]| | | | | | |] eqn:Hp; try done.
  - destruct (s_queue s !! k) as [data|] eqn:Hk.
    + intros [= <-]. split; [|split; [done|]].
      * constructor; simpl; try done. apply Forall_insert; [|split; simpl; done].
        eapply Forall_impl; [exact Hws|]. intros w' [Hsh' Hfl']. split; [done|].
        assert (s_queue s ≠ []) as Hne by (intros Hq; by rewrite Hq in Hk).
        by destruct (pc w'); naive_solver.
      * intros Hall. pose proof (Forall_lookup_1 _ _ _ _ Hall Hw). simpl in *. congruence.
    + case_decide as Hq; [|done]. rewrite Hnb. intros [= <-]. apply Hset; [|done]. split; simpl; done.
  - intros [= <-]. apply Hset; [|done]. split; simpl; done.
  - case_decide as Hb; intros Hs'.
    + unfold batch_callback in Hs'. simpl in Hs'.
      destruct (alg_apply_update_batch i b.1 b.2 (s_alg s)) as [a|] eqn:Ha; [|done].
      injection Hs' as <-. split; [|split; [done|]].
      * constructor; simpl; try done. apply Forall_insert; [done|]. split; simpl; done.
      * intros Hall. pose proof (Forall_lookup_1 _ _ _ _ Hall Hw). simpl in *. congruence.
    + injection Hs' as <-. apply Hset; [|done]. split; simpl; done.
  - intros [= <-]. rewrite Hsh. apply Hset; [|done]. split; simpl; done.
  - intros [= <-]. apply Hset; [|done]. destruct (do_pause w) eqn:Hd; split; simpl; try done; naive_solver.
  - intros [= <-]. apply Hset; [|done]. split; simpl; [done|]. naive_solver.
  - intros [= <-]. destruct Hfl as (Hpa & Hd & Hq). rewrite Hd, Hsh. simpl. apply Hset; [|done].
    split; simpl; done.
  - intros [= <-]. apply Hset; [|done]. split; simpl; done.
Qed.

Lemma streams_done_no_step t s : streams_done s → stream_step t s = None.
Proof.
  intros Hd. unfold stream_step. destruct (s_streams s !! t) as [ops|] eqn:Ht; [|done].
  pose proof (Forall_lookup_1 _ _ _ _ Hd Ht) as Hn. simpl in Hn. by subst ops.
Qed.

Lemma calm_stream_step t s s' :
  calm s → stream_step t s = Some (Ok s') → calm s' ∧ s_main s' = s_main s.
Proof.
  intros Hc. unfold stream_step. destruct (s_streams s !! t) as [[|[upd|u] ops]|]; simpl; try done.
  - destruct (alg_pre_insert upd (s_alg s)); simpl; [|done]. by intros [= <-].
  - by intros [= <-].
Qed.

(** A worker does not write [do_pause]. *)
Lemma worker_step_do_pause i k s s' :
  worker_step i k s = Some (Ok s') → do_pause <$> s_workers s' = do_pause <$> s_workers s.
Proof.
  unfold worker_step. destruct (s_workers s !! i) as [w|] eqn:Hw; [|done]. simpl.
  assert (∀ w', do_pause w' = do_pause w →
    do_pause <$> <[i := w']> (s_workers s) = do_pause <$> s_workers s) as Hkeep.
  { intros w' Hd. rewrite list_fmap_insert, Hd. apply list_insert_id.
    by rewrite list_lookup_fmap, Hw. }
  destruct (pc w) as [|[|b batches]| | | | | | |].
  - destruct (s_queue s !! k); [intros [= <-]; by apply Hkeep|].
    case_decide; [|done]. destruct (s_non_block s); [|done]. intros [= <-]. by apply Hkeep.
  - intros [= <-]. by apply Hkeep.
  - case_decide; [|intros [= <-]; by apply Hkeep]. unfold batch_callback. simpl.
    destruct (alg_apply_update_batch i b.1 b.2 (s_alg s)); simpl; [|done].
    intros [= <-]. by apply Hkeep.
  - intros [= <-]. by apply Hkeep.
  - intros [= <-]. by apply Hkeep.
  - intros [= <-]. by apply Hkeep.
  - intros [= <-]. by apply Hkeep.
  - intros [= <-]. by apply Hkeep.
  - intros [= <-]. by apply Hkeep.
  - done.
Qed.

Lemma paused_except_worker_step ks i k s s' :
  worker_step i k s = Some (Ok s') → paused_except ks s → paused_except ks s'.
Proof.
  intros Hs%worker_step_do_pause Hpe j w Hj.
  assert ((do_pause <$> s_workers s') !! j = Some (do_pause w)) as Hd by by rewrite list_lookup_fmap, Hj.
  rewrite Hs, list_lookup_fmap in Hd. destruct (s_workers s !! j) as [w'|] eqn:Hj'; [|done].
  injection Hd as <-. by apply (Hpe j).
Qed.

Lemma stage_worker_step i k s s' : stage s → worker_step i k s = Some (Ok s') → stage s'.
Proof.
  intros Hst Hs. destruct Hst as [ops Hm Hh Hc|Hm Hc|Hm Hc Hd|Hm Hc Hd|Hm Hc Hd Hp|ks Hm Hp Hpe|Hm Hp Hall|Hm Hc Hd Hca].
  1-5,8: destruct (calm_worker_step i k s s' Hc Hs) as (Hc' & Hm' & Hst' & Hg & Hca').
  - eapply st_setup; [by rewrite Hm'|done..].
  - apply st_join; [by rewrite Hm'|done].
  - apply st_prep; [by rewrite Hm'|done|]. unfold streams_done. by rewrite Hst'.
  - apply st_force; [by rewrite Hm'|done|]. unfold streams_done. by rewrite Hst'.
  - apply st_non_block; [by rewrite Hm'|done| |by rewrite Hg]. unfold streams_done. by rewrite Hst'.
  - apply st_cached; [by rewrite Hm'|done| |by rewrite Hca']. unfold streams_done. by rewrite Hst'.
  - destruct (pausing_worker_step i k s s' Hp Hs) as (Hp' & Hm' & _).
    eapply st_pausing; [by rewrite Hm'|done|]. by eapply paused_except_worker_step.
  - destruct (pausing_worker_step i k s s' Hp Hs) as (Hp' & Hm' & Ha).
    apply st_flushed; [by rewrite Hm'|done|by apply Ha].
Qed.
Lemma stage_stream_step t s s' : stage s → stream_step t s = Some (Ok s') → stage s'.
Proof.
  intros Hst Hs. destruct Hst as [ops Hm Hh Hc|Hm Hc|Hm Hc Hd|Hm Hc Hd|Hm Hc Hd Hp|ks Hm Hp Hpe|Hm Hp Hall|Hm Hc Hd Hca].
  3-5,8: by rewrite streams_done_no_step in Hs.
  3-4: by rewrite streams_done_no_step in Hs by apply Hp.
  - destruct (calm_stream_step t s s' Hc Hs) as [Hc' Hm']. eapply st_setup; [by rewrite Hm'|done..].
  - destruct (calm_stream_step t s s' Hc Hs) as [Hc' Hm']. apply st_join; [by rewrite Hm'|done].
Qed.

Lemma harmless_step op ops s s' :
  harmless op → calm s → s_main s = op :: ops → main_step s = Some (Ok s') →
  calm s' ∧ s_main s' = ops.
Proof.
  intros Hh [Hnb Hrun] Hm. unfold main_step. rewrite Hm.
  destruct op; simpl in Hh; try done; subst; intros [= <-]; (split; [|done]); (split; [done|]); simpl;
    try done; (apply Forall_alter_same; [|done]); intros w (?&?&?&?); split_and!; done.
Qed.

Lemma stage_main_step s s' :
  length (s_workers s) = num_workers → stage s → main_step s = Some (Ok s') → stage s'.
Proof.
  intros Hlen Hst Hs. destruct Hst as [ops Hm Hh Hc|Hm Hc|Hm Hc Hd|Hm Hc Hd|Hm Hc Hd Hp|ks Hm Hp Hpe|Hm Hp Hall|Hm Hc Hd Hca].
  - destruct ops as [|op ops]; simpl in Hm.
    + unfold main_step in Hs. rewrite Hm in Hs. injection Hs as <-. by apply st_join.
    + apply list.Forall_cons in Hh as [Hh Hh'].
      destruct (harmless_step op _ s s' Hh Hc Hm Hs) as [Hc' Hm']. by eapply st_setup.
  - unfold main_step in Hs. rewrite Hm in Hs. cbn [s_streams set_main] in Hs.
    destruct (forallb (λ ops, bool_decide (ops = [])) (s_streams s)) eqn:Hf; [|done].
    injection Hs as <-. apply st_prep; [done|done|]. unfold streams_done. simpl.
    rewrite forallb_forall in Hf. apply list.Forall_forall. intros ops Hops.
    apply list_elem_of_In, Hf in Hops. by apply bool_decide_eq_true in Hops.
  - unfold main_step in Hs. rewrite Hm in Hs. injection Hs as <-.
    destruct (alg_has_cached_query code (s_alg s)) eqn:Hca; [by apply st_cached|].
    apply st_force; [|done..]. simpl. by rewrite app_nil_r, Hlen.
  - unfold main_step in Hs. rewrite Hm in Hs. injection Hs as <-.
    apply st_non_block; [done..|]. simpl. apply gut_flush_ok.
  - unfold main_step in Hs. rewrite Hm in Hs. injection Hs as <-.
    eapply (st_pausing _ (seq 0 num_workers)); [done| |].
    + constructor; simpl; [done|done|done|].
      eapply Forall_impl; [apply Hc|]. intros w. apply running_flushing.
    + intros i w Hi. left. apply elem_of_seq. apply lookup_lt_Some in Hi. simpl in Hi. lia.
  - unfold main_step in Hs. rewrite Hm in Hs. destruct ks as [|k ks]; simpl in Hs.
    + destruct (forallb paused (s_workers s)) eqn:Hf; [|done]. injection Hs as <-.
      apply st_flushed; [done|by destruct Hp|]. simpl. rewrite forallb_forall in Hf.
      apply list.Forall_forall. intros w Hw. apply Hf. by apply list_elem_of_In.
    + injection Hs as <-. apply (st_pausing _ ks); [done| |].
      * destruct Hp as [H1 H2 H3 H4]. constructor; simpl; try done. apply Forall_alter_same; [|done].
        intros w [Hsh Hfl]. split; [done|]. cbn [pc set_do_pause paused do_pause].
        destruct (pc w); try done; by destruct_and?.
      * intros i w. simpl. destruct (decide (k = i)) as [->|Hne].
        -- rewrite list_lookup_alter_eq, fmap_Some. intros (w' & _ & ->). by right.
        -- rewrite list_lookup_alter_ne by done. intros Hi. destruct (Hpe i w Hi); [|by right].
           left. set_solver.
  - unfold main_step in Hs. by rewrite Hm in Hs.
  - unfold main_step in Hs. by rewrite Hm in Hs.
Qed.
End first_flush.

Lemma in_hand_idle w q : flushing q w → paused w = true → in_hand w = [] ∧ q = [].
Proof.
  intros [_ Hfl] Hp. unfold in_hand. destruct (pc w); try congruence; try done; intuition congruence.
Qed.

Lemma concat_all_nil {X} (l : list (list X)) : Forall (λ x, x = []) l → concat l = [].
Proof. induction 1 as [|x l Hx _ IH]; [done|]. simpl. by rewrite Hx, IH. Qed.

(** ** From construction to the first query *)

Section pipeline.
Context {A G : Type} `{StreamAlg A, GutteringSystem G}.
Context (num_workers : nat) `{!AlgMeaning num_workers}.
Context (a : A) (g : G) (parts : list (list GraphUpdate)) (code : QueryCode).
Hypothesis workers_pos : 0 < num_workers.
Hypothesis start_ok : holds [] [] a.
Hypothesis gutters_empty : gut_pending g = [].

(** The updates the driver takes from the stream: each thread stops at its
    breakpoint. *)
Definition taken_upds : list GraphUpdate := concat (ops_upds <$> (stream_task <$> parts)).
Definition directed (upd : GraphUpdate) : list (nat * nat) :=
  [(src (edge upd), dst (edge upd)); (dst (edge upd), src (edge upd))].

Definition pipeline_start : Sys A G :=
  new_system a g num_workers (process_stream_until num_workers parts ++ prep_query code).

Lemma task_pairs updates : ops_pairs (stream_task updates) = concat (directed <$> ops_upds (stream_task updates)).
Proof.
  induction updates as [|upd updates IH]; [done|]. simpl. case_decide; [done|]. simpl.
  f_equal. f_equal. exact IH.
Qed.

Lemma taken_pairs : concat (ops_pairs <$> (stream_task <$> parts)) = concat (directed <$> taken_upds).
Proof.
  unfold taken_upds. induction parts as [|p ps IH]; [done|].
  rewrite !fmap_cons. simpl. rewrite fmap_app, concat_app, task_pairs. by f_equal.
Qed.

Lemma main_tasks_start :
  main_tasks (process_stream_until num_workers parts ++ prep_query code) = stream_task <$> parts.
Proof.
  unfold process_stream_until, resume_workers, main_tasks.
  rewrite !fmap_app, !concat_app. simpl.
  assert (∀ l, concat ((λ op, match op with MSpawn tasks => tasks | _ => [] end) <$>
    concat (unpause <$> l)) = []) as ->; [|simpl; by rewrite ?app_nil_r].
  intros l. induction l as [|i l IH]; [done|]. simpl. exact IH.
Qed.

Hypothesis upds_ok : Forall upd_valid taken_upds.
Hypothesis pairs_ok : Forall pair_valid (concat (directed <$> taken_upds)).

Lemma pipeline_conserved :
  conserved num_workers (concat (directed <$> taken_upds)) taken_upds pipeline_start [] [].
Proof.
  constructor; [done| | |apply length_replicate].
  - unfold waiting_pairs, coming_pairs. simpl. rewrite gutters_empty.
    change (s_main _) with (process_stream_until num_workers parts ++ prep_query code).
    rewrite main_tasks_start, taken_pairs.
    assert (concat (in_hand <$> replicate num_workers (mkWorker PGet false false false)) = []) as ->;
      [|done]. clear. by induction num_workers.
  - unfold coming_upds. simpl.
    change (s_main _) with (process_stream_until num_workers parts ++ prep_query code).
    by rewrite main_tasks_start.
Qed.

Lemma pipeline_stage : stage num_workers (stream_task <$> parts) code pipeline_start.
Proof.
  apply (st_setup _ _ _ _ (resume_workers num_workers)).
  - simpl. unfold process_stream_until. by rewrite <- app_assoc.
  - unfold resume_workers. apply Forall_app. split; [|by repeat constructor].
    induction (seq 0 num_workers) as [|i l IH]; simpl; [constructor|]. by repeat constructor.
  - split; [done|]. simpl. apply Forall_replicate. done.
Qed.

Lemma pipeline_reach s :
  reachable pipeline_start s →
  stage num_workers (stream_task <$> parts) code s ∧
  ∃ pres app, conserved num_workers (concat (directed <$> taken_upds)) taken_upds s pres app.
Proof.
  intros Hr. assert (∀ s0, reachable s0 s → stage num_workers (stream_task <$> parts) code s0 →
    (∃ pres app, conserved num_workers (concat (directed <$> taken_upds)) taken_upds s0 pres app) →
    stage num_workers (stream_task <$> parts) code s ∧
    ∃ pres app, conserved num_workers (concat (directed <$> taken_upds)) taken_upds s pres app) as Hgen.
  2: { apply (Hgen _ Hr pipeline_stage). eexists _, _. exact pipeline_conserved. }
  clear Hr. induction 1 as [s0|s0 s1 s2 [th Hth] _ IH]; intros Hst (pres & app & Hc); [by eauto|].
  apply IH.
  - destruct th as [i k|t|]; simpl in Hth.
    + by eapply stage_worker_step.
    + by eapply stage_stream_step.
    + by eapply (stage_main_step _ _ _ _ _ (cs_workers _ _ _ _ _ _ Hc)).
  - destruct (step_conserved num_workers _ _ pairs_ok upds_ok th s0 _ pres app Hc Hth)
      as (s1' & pres' & app' & Heq & Hc'). injection Heq as <-. by eauto.
Qed.

(** When [prep_query] returns, the algorithm has seen every update before
    insertion, and has either a cached answer or all updates applied. *)
Lemma pipeline_done s :
  reachable pipeline_start s → s_main s = [] →
  ∃ app, holds taken_upds app (s_alg s) ∧
    (alg_has_cached_query code (s_alg s) = true ∨ app ≡ₚ concat (directed <$> taken_upds)).
Proof.
  intros Hr Hm. destruct (pipeline_reach s Hr) as (Hst & pres & app & [H1 H2 H3 H4]).
  assert (streams_done s → coming_upds s = [] ∧ coming_pairs s = []) as Hcoming.
  { intros Hd. unfold coming_upds, coming_pairs, main_tasks. rewrite Hm. simpl. rewrite !app_nil_r.
    split; apply concat_all_nil, Forall_fmap; (eapply Forall_impl; [exact Hd|]); by intros ? ->. }
  assert (∀ l : list main_op, l ++ [MSpawn (stream_task <$> parts); MJoin; MPrepQuery code] ≠ []) as Hne
    by (intros [|? ?]; done).
  destruct Hst as [ops Hm' _ _|Hm' _|Hm' _ _|Hm' _ _|Hm' _ _ _|ks Hm' _ _|_ Hp Hall|_ Hc Hd Hca];
    unfold flush_workers in *; try (exfalso; congruence).
  - exfalso. rewrite Hm in Hm'. by destruct ks.
  - destruct (Hcoming (pa_streams _ Hp)) as [Hcu Hcp]. rewrite Hcu, app_nil_r in H3.
    rewrite Hcp, app_nil_r in H2. exists app. split; [by eapply holds_perm|]. right.
    assert (Forall (λ w, in_hand w = [] ∧ s_queue s = []) (s_workers s)) as Hidle.
    { pose proof (pa_workers _ Hp) as Hw. rewrite !list.Forall_forall in *.
      intros w Hin. apply (in_hand_idle w); [by apply Hw|by apply Hall]. }
    rewrite <- H2. unfold waiting_pairs. rewrite (pa_pending _ Hp).
    destruct (s_workers s) as [|w ws] eqn:Hws; [simpl in H4; lia|].
    assert (s_queue s = []) as Hq by by apply list.Forall_cons in Hidle as [[_ ?] _].
    rewrite Hq. change (queue_pairs []) with (@nil (nat * nat)).
    rewrite (concat_all_nil (in_hand <$> _)); [by rewrite !app_nil_r|].
    apply Forall_fmap. eapply Forall_impl; [exact Hidle|]. by intros ? [? _].
  - destruct (Hcoming Hd) as [Hcu _]. rewrite Hcu, app_nil_r in H3.
    exists app. split; [by eapply holds_perm|]. by left.
Qed.
End pipeline.
