(* ===== verification/DriverProgress.v ===== *)
(** * The first flush can always finish: src/include/graph_sketch_driver.h and
    src/include/worker_thread_group.h

    From every state a driver can reach between its construction and the end of its
    first [prep_query], whatever the threads did so far, some continuation ends it:
    the locks, the waits and the queue never trap it. *)

From Stdlib Require Import NArith Lia.
From stdpp Require Import base list numbers relations.
From S2P Require Import Prelude Util CCSketchAlg Driver.

(** ** Measures *)

Definition worker_weight (w : WorkerThread) : nat :=
  match pc w with
  | PWork batches => 5 + length batches
  | PGet => 4
  | PFail => 3
  | PCheck => 2
  | PPause => 1
  | _ => 0
  end.

Definition entry_weight (data : list update_batch) : nat := 2 + length data.

Lemma sum_list_with_delete {X} (f : X → nat) (l : list X) i x :
  l !! i = Some x → sum_list_with f (take i l ++ drop (S i) l) + f x = sum_list_with f l.
Proof.
  intros Hi. rewrite <- (take_drop_middle l i x Hi) at 3. rewrite !sum_list_with_app. simpl. lia.
Qed.

Section progress.
Context {A G : Type} `{StreamAlg A, GutteringSystem G}.
Context (num_workers : nat) `{!AlgMeaning num_workers}.
Context (parts : list (list GraphUpdate)) (code : QueryCode).
Implicit Types (s : Sys A G).

Abbreviation upds := (taken_upds parts).
Abbreviation tasks := (stream_task <$> parts).
Abbreviation pairs := (concat (directed <$> upds)).

Hypothesis upds_ok : Forall upd_valid upds.
Hypothesis pairs_ok : Forall pair_valid pairs.

Definition good s : Prop :=
  stage num_workers tasks code s ∧ ∃ pres app, conserved num_workers pairs upds s pres app.

Lemma good_step th s s' : good s → step th s = Some (Ok s') → good s'.
Proof.
  intros [Hst (pres & app & Hc)] Hs. split.
  - destruct th as [i k|t|]; simpl in Hs.
    + by eapply stage_worker_step.
    + by eapply stage_stream_step.
    + by eapply (stage_main_step _ _ _ _ _ (cs_workers _ _ _ _ _ _ Hc)).
  - destruct (step_conserved num_workers _ _ pairs_ok upds_ok th s _ pres app Hc Hs)
      as (s1 & pres' & app' & Heq & Hc'). injection Heq as <-. by eauto.
Qed.

Definition main_weight (op : main_op) : nat :=
  match op with
  | MSpawn tasks => 1 + sum_list_with length tasks
  | MPrepQuery _ => 4 + num_workers
  | _ => 1
  end.

(** What the main thread and the streams have left; what the workers have left. *)
Definition work_ahead s : nat := sum_list_with main_weight (s_main s) + sum_list_with length (s_streams s).
Definition work_queued s : nat := sum_list_with worker_weight (s_workers s) + sum_list_with entry_weight (s_queue s).

Definition descends s s' : Prop :=
  work_ahead s' < work_ahead s ∨ (work_ahead s' = work_ahead s ∧ work_queued s' < work_queued s).

Lemma harmless_runs op ops s :
  harmless op → s_main s = op :: ops → ∃ s', main_step s = Some (Ok s') ∧ work_ahead s' < work_ahead s.
Proof.
  intros Hh Hm. unfold main_step, work_ahead. rewrite Hm.
  destruct op; simpl in Hh; try done; (eexists; split; [reflexivity|]); simpl; lia.
Qed.

(** A stream with operations left moves. *)
Lemma stream_runs s t ops pres app :
  conserved num_workers pairs upds s pres app → s_streams s !! t = Some ops → ops ≠ [] →
  ∃ s', stream_step t s = Some (Ok s') ∧ work_ahead s' < work_ahead s.
Proof.
  intros Hc Ht Hne. destruct ops as [|op ops]; [done|].
  assert (sum_list_with length (<[t := ops]> (s_streams s)) < sum_list_with length (s_streams s)) as Hlt.
  { pose proof (sum_list_with_insert length (s_streams s) t (op :: ops) ops Ht) as Hsum.
    simpl in Hsum. lia. }
  destruct (stream_step t s) as [r|] eqn:Hs.
  - destruct (stream_step_conserved num_workers pairs upds pairs_ok upds_ok t s r pres app Hc Hs)
      as (s' & _ & -> & _).
    exists s'. split; [done|]. revert Hs. unfold stream_step. rewrite Ht. simpl.
    destruct op as [upd|u].
    + destruct (alg_pre_insert upd (s_alg s)); simpl; [|done]. intros [= <-].
      unfold work_ahead. simpl. lia.
    + intros [= <-]. unfold work_ahead. simpl. lia.
  - exfalso. revert Hs. unfold stream_step. rewrite Ht. simpl. by destruct op.
Qed.

(** During a flush a worker that is not paused moves towards its pause. *)
Lemma pausing_worker_runs s i w pres app :
  conserved num_workers pairs upds s pres app → pausing s → paused_except [] s →
  s_workers s !! i = Some w → paused w = false →
  ∃ k s', worker_step i k s = Some (Ok s') ∧ work_ahead s' = work_ahead s ∧
    work_queued s' < work_queued s.
Proof.
  intros Hc Hp Hpe Hw Hpa.
  pose proof (Forall_lookup_1 _ _ _ _ (pa_workers _ Hp) Hw) as [Hsh Hfl].
  assert (do_pause w = true) as Hdp by (destruct (Hpe i w Hw); [set_solver|done]).
  assert (∀ w', worker_weight w' < worker_weight w →
    work_queued (set_worker s i w') < work_queued s) as Hset.
  { intros w' Hlt. unfold work_queued. simpl.
    pose proof (sum_list_with_insert worker_weight (s_workers s) i w w' Hw). lia. }
  unfold worker_step. rewrite Hw. simpl. unfold worker_weight in Hset.
  destruct (pc w) as [|[|b batches]| | | | | | |] eqn:Hpc; try (by destruct_and?; congruence).
  - destruct (s_queue s) as [|data q] eqn:Hq.
    + exists 0. rewrite (pa_non_block _ Hp). eexists. split; [reflexivity|]. split; [done|].
      apply Hset. simpl. lia.
    + exists 0. eexists. split; [reflexivity|]. split; [done|]. unfold work_queued. simpl.
      rewrite Hq. pose proof (sum_list_with_insert worker_weight (s_workers s) i w
        (set_pc w (PWork data)) Hw) as Hsum.
      assert (worker_weight w = 4) as Hww by (unfold worker_weight; by rewrite Hpc).
      assert (worker_weight (set_pc w (PWork data)) = 5 + length data) as Hwd by done.
      unfold entry_weight. simpl. rewrite drop_0. lia.
  - exists 0. eexists. split; [reflexivity|]. split; [done|]. apply Hset. simpl. lia.
  - exists 0. case_decide as Hb.
    + destruct (conserved_batch num_workers pairs upds pairs_ok upds_ok s i w b batches pres app)
        as (s' & Hrun & _); [done..|]. rewrite Hrun. eexists. split; [done|].
      unfold batch_callback in Hrun. simpl in Hrun.
      destruct (alg_apply_update_batch i b.1 b.2 (s_alg s)) as [a|]; [|done]. injection Hrun as <-.
      split; [done|]. apply (Hset (set_pc w (PWork batches))). simpl. lia.
    + eexists. split; [reflexivity|]. split; [done|]. apply Hset. simpl. lia.
  - exists 0. rewrite Hsh. eexists. split; [reflexivity|]. split; [done|]. apply Hset. simpl. lia.
  - exists 0. rewrite Hdp. eexists. split; [reflexivity|]. split; [done|]. apply Hset. simpl. lia.
  - exists 0. eexists. split; [reflexivity|]. split; [done|]. apply Hset. simpl. lia.
  - done.
  - done.
Qed.

(** While the main thread is not done, some thread brings it closer. *)
Lemma some_thread_descends s :
  good s → s_main s ≠ [] → ∃ th s', step th s = Some (Ok s') ∧ descends s s'.
Proof.
  intros [Hst (pres & app & Hc)] Hne.
  assert (∀ s', main_step s = Some (Ok s') → work_ahead s' < work_ahead s →
    ∃ th s', step th s = Some (Ok s') ∧ descends s s') as Hmain.
  { intros s' Hs Hlt. exists TMain, s'. split; [done|]. by left. }
  destruct Hst as [ops Hm Hh Hcalm|Hm Hcalm|Hm Hcalm Hd|Hm Hcalm Hd|Hm Hcalm Hd Hp|ks Hm Hp Hpe|Hm Hp Hall|Hm Hcalm Hd Hca];
    [| | | | | |done..].
  - destruct ops as [|op ops]; simpl in Hm.
    + eapply Hmain; [unfold main_step; by rewrite Hm|]. unfold work_ahead. simpl. rewrite Hm. simpl.
      rewrite sum_list_with_app. lia.
    + apply list.Forall_cons in Hh as [Hh _].
      destruct (harmless_runs op _ s Hh Hm) as (s' & Hs & Hlt). by eapply Hmain.
  - destruct (forallb (λ ops, bool_decide (ops = [])) (s_streams s)) eqn:Hf.
    + eapply Hmain; [unfold main_step; rewrite Hm; cbn [s_streams set_main]; by rewrite Hf|].
      unfold work_ahead. simpl. rewrite Hm. simpl. lia.
    + assert (¬ Forall (λ ops, ops = []) (s_streams s)) as Hnd.
      { intros Hall. rewrite (proj2 (forallb_forall _ _)) in Hf; [done|].
        intros ops Hops%list_elem_of_In. rewrite list.Forall_forall in Hall.
        by apply bool_decide_eq_true, Hall. }
      apply not_Forall_Exists in Hnd; [|intros ops; destruct ops; [by left|by right]].
      apply Exists_exists in Hnd as (ops & Hin & Hops). apply list_elem_of_lookup in Hin as [t Ht].
      destruct (stream_runs s t ops pres app Hc Ht Hops) as (s' & Hs & Hlt).
      exists (TStream t), s'. split; [done|]. by left.
  - destruct (alg_has_cached_query code (s_alg s)) eqn:Hcq;
      (eapply Hmain; [unfold main_step; rewrite Hm; cbn [s_alg set_main]; by rewrite Hcq|]);
      unfold work_ahead; simpl; rewrite Hm; simpl; [lia|].
    rewrite !sum_list_with_app. simpl.
    rewrite (cs_workers _ _ _ _ _ _ Hc).
    assert (∀ l : list nat, sum_list_with main_weight ((λ i, MSetPause i true) <$> l) = length l) as ->.
    { intros l. induction l as [|x l IH]; [done|]. simpl. f_equal. exact IH. }
    rewrite length_seq. lia.
  - eapply Hmain; [unfold main_step; by rewrite Hm|]. unfold work_ahead. rewrite Hm. simpl. lia.
  - eapply Hmain; [unfold main_step, flush_workers in *; by rewrite Hm|].
    unfold work_ahead. rewrite Hm. simpl. lia.
  - destruct ks as [|k ks].
    + destruct (forallb paused (s_workers s)) eqn:Hf.
      * eapply Hmain; [unfold main_step; rewrite Hm; simpl; by rewrite Hf|].
        unfold work_ahead. simpl. rewrite Hm. simpl. lia.
      * assert (¬ Forall (λ w, paused w = true) (s_workers s)) as Hnp.
        { intros Hall. rewrite (proj2 (forallb_forall _ _)) in Hf; [done|].
          intros w Hw%list_elem_of_In. rewrite list.Forall_forall in Hall. by apply Hall. }
        apply not_Forall_Exists in Hnp; [|intros w; apply _].
        apply Exists_exists in Hnp as (w & Hin & Hw). apply list_elem_of_lookup in Hin as [i Hi].
        apply not_true_is_false in Hw.
        destruct (pausing_worker_runs s i w pres app Hc Hp Hpe Hi Hw) as (k & s' & Hs & Ha & Hq).
        exists (TWorker i k), s'. split; [done|]. by right.
    + rewrite fmap_cons, <- app_comm_cons in Hm.
      eapply Hmain; [unfold main_step; by rewrite Hm|].
      unfold work_ahead. cbn [s_main set_main alter_worker s_streams]. rewrite Hm.
      cbn [sum_list_with main_weight]. lia.
Qed.

Lemma can_finish s : good s → ∃ s', reachable s s' ∧ s_main s' = [].
Proof.
  remember (work_ahead s) as a eqn:Ha. remember (work_queued s) as b eqn:Hb. revert b s Ha Hb.
  induction a as [a IHa] using lt_wf_ind. intros b.
  induction b as [b IHb] using lt_wf_ind. intros s -> -> Hg.
  destruct (decide (s_main s = [])) as [Hm|Hm]; [exists s; split; [constructor|done]|].
  destruct (some_thread_descends s Hg Hm) as (th & s1 & Hs & Hd).
  pose proof (good_step th s s1 Hg Hs) as Hg1.
  assert (∃ s', reachable s1 s' ∧ s_main s' = []) as (s' & Hr & Hm').
  { destruct Hd as [Hlt|[Heq Hlt]]; [by eapply IHa|]. by eapply IHb. }
  exists s'. split; [|done]. eapply rtc_l; [by exists th|done].
Qed.
End progress.
