(* ===== verification/CCDriver.v ===== *)
(** * The driver with the connected components algorithm:
    src/include/graph_sketch_driver.h on src/src/cc_sketch_alg.cpp

    [CCSketchAlg] keeps the promises the driver asks of an algorithm, so whatever
    the threads do, the queries that follow [prep_query] answer about the graph of
    the stream. The file also has the runs that show what a second flush can do. *)

From Stdlib Require Import NArith Lia.
From stdpp Require Import base list gmap sets numbers relations.
From S2P Require Import Prelude Float64 Util Bucket Sketch XXHash Concrete SketchSpec Dsu Graph Configuration CCSketchAlg Partition ReturnTypes MergeInstr Boruvka BoruvkaRound BoruvkaThreads BoruvkaLoop CCQuery Driver DriverProgress.

Section instance.
Context `{BuildConfig, Libm, Hashing}.

#[global] Instance cc_stream_alg : StreamAlg CCSketchAlg := {
  alg_pre_insert upd c := pre_insert c upd;
  alg_apply_update_batch thr_id src_vertex dst_vertices c :=
    apply_update_batch c thr_id src_vertex dst_vertices;
  alg_has_cached_query code c := has_cached_query c code;
}.
End instance.

(** ** What the sketches hold while batches arrive *)

Lemma node_indices_batch (b : update_batch) v :
  node_indices (batch_pairs b) v = if decide (v = b.1) then concat_pairing_fn v <$> b.2 else [].
Proof.
  unfold node_indices, batch_pairs. destruct b as [u ds]. simpl.
  case_decide as Hv; [subst v|]; induction ds as [|d ds IH]; simpl; try done.
  - rewrite filter_cons_True by done. rewrite fmap_cons. f_equal. exact IH.
  - rewrite filter_cons_False by (simpl; congruence). exact IH.
Qed.

Section meaning.
Context `{BuildConfig, Libm, Hashing}.
Context (n num_workers : nat).
Hypothesis n_ok : (N.of_nat n < 2 ^ 32)%N.
Implicit Types (c : CCSketchAlg).

Definition pair_ok (p : nat * nat) : Prop := p.1 < n ∧ p.2 < n.

(** [c] has seen the updates [pres] in [pre_insert] and [app] in batches. *)
Record cc_holds (pres : list GraphUpdate) (app : list (nat * nat)) c : Prop := {
  ch_eager : eager_ok n (toggle_all (upd_index <$> pres) ∅) c;
  ch_sketches : sketches_ok n (geometry (cc_sketch c)) (node_content app) c;
  ch_unlocked : update_locked c = false;
  ch_workers : length (delta_sketches c) = num_workers;
}.

Lemma same_sketches_cc_sketch c c' :
  num_vertices c' = num_vertices c → same_sketches c c' → cc_sketch c' = cc_sketch c.
Proof. intros Hn (_ & _ & _ & Hc & Hs). unfold cc_sketch. by rewrite Hn, Hc, Hs. Qed.

Lemma cc_pre_insert_meaning upd pres app c :
  upd_ok n upd → cc_holds pres app c →
  ∃ c', pre_insert c upd = Ok c' ∧ cc_holds (upd :: pres) app c'.
Proof.
  intros (Hu & Hv & Hne) [He Hs Hl Hw].
  destruct (pre_insert_ok n ltac:(lia) _ c upd He Hu Hv Hne) as (c' & Hrun & Hsame & He').
  exists c'. split; [done|]. pose proof (eo_n _ _ _ He) as Hn. pose proof (eo_n _ _ _ He') as Hn'.
  pose proof Hsame as (_ & Hd & Hul & _). constructor.
  - rewrite fmap_cons, (toggle_all_perm _ ((upd_index <$> pres) ++ [upd_index upd]))
      by apply Permutation_cons_append.
    by rewrite toggle_all_app.
  - rewrite (same_sketches_cc_sketch c c') by (done || congruence).
    by eapply sketches_ok_same.
  - congruence.
  - congruence.
Qed.

Lemma cc_batch_meaning i (b : update_batch) pres app c :
  i < num_workers → Forall pair_ok (batch_pairs b) → 0 < length b.2 → cc_holds pres app c →
  ∃ c', apply_update_batch c i b.1 b.2 = Ok c' ∧ cc_holds pres (batch_pairs b ++ app) c'.
Proof.
  intros Hi Hb Hlen [He Hs Hl Hw].
  assert (b.1 < n) as Hbn.
  { destruct b as [u [|d ds]]; simpl in *; [lia|]. apply list.Forall_cons in Hb as [[? _] _]. done. }
  destruct (apply_update_batch_ok n _ _ c i b.1 b.2 Hs Hbn) as (c' & Hrun & Hs' & Hd & Hc');
    [lia|done|].
  exists c'. split; [done|]. constructor.
  - rewrite Hc'. destruct He as [? ? ? ?]. by constructor.
  - assert (cc_sketch c' = cc_sketch c) as -> by by rewrite Hc'.
    eapply sketches_ok_ext; [|exact Hs']. intros v Hv. unfold node_content, fun_upd.
    rewrite (toggle_all_perm (node_indices (batch_pairs b ++ app) v)
      (node_indices app v ++ node_indices (batch_pairs b) v))
      by (rewrite node_indices_app; apply Permutation_app_comm).
    rewrite toggle_all_app, node_indices_batch. case_decide as Hv'; [by subst|done].
  - by rewrite Hc'.
  - congruence.
Qed.

#[global] Instance cc_meaning : AlgMeaning (A := CCSketchAlg) num_workers.
Proof.
  refine {| holds := cc_holds; upd_valid := upd_ok n; pair_valid := pair_ok;
    pre_insert_meaning := cc_pre_insert_meaning; batch_meaning := cc_batch_meaning |}.
  - intros pres pres' app app' c Hp Ha [He Hs Hl Hw]. constructor; try done.
    + by rewrite <- (toggle_all_perm _ _ _ (fmap_Permutation _ _ _ Hp)).
    + eapply sketches_ok_ext; [|exact Hs]. intros v _. by apply node_content_perm.
  - intros i b code c c'. simpl. unfold apply_update_batch.
    destruct (update_locked c); [done|]. destruct (arr_get (delta_sketches c) i); simpl; [|done].
    destruct (arr_get (sketches c) b.1); simpl; [|done]. by intros [= <-].
Defined.

(** Both directions of every update: each node's sketch has its edges. *)
Lemma node_content_directed upds v :
  Forall (upd_ok n) upds →
  node_content (concat (directed <$> upds)) v = incident (toggle_all (upd_index <$> upds) ∅) v.
Proof.
  intros Hall. unfold node_content.
  replace (concat (directed <$> upds)) with (concat (both_ways <$> (edge <$> upds)));
    [|by rewrite <- list_fmap_compose].
  replace ∅ with (incident ∅ v) at 1 by (apply set_eq; intros e; rewrite elem_of_incident; set_solver).
  rewrite (toggle_both_ways n ltac:(lia)).
  - by rewrite <- list_fmap_compose.
  - apply Forall_fmap. eapply Forall_impl; [exact Hall|]. by intros [[u w] ty] (Hu & Hw & Hne).
Qed.

(** The graph of the updates. *)
Definition stream_graph (upds : list GraphUpdate) : gset N := toggle_all (upd_index <$> upds) ∅.

Lemma holds_all_alg_ok upds app c :
  calc_bkt_per_col (calc_vector_length (N.of_nat n)) < 64 → Forall (upd_ok n) upds →
  cc_holds upds app c → app ≡ₚ concat (directed <$> upds) → alg_ok n (stream_graph upds) c.
Proof.
  intros Hb Hall [He Hs _ _] Hp. constructor; [done| | |done].
  - eapply sketches_ok_ext; [|exact Hs]. intros v _.
    by rewrite (node_content_perm _ _ _ Hp), node_content_directed.
  - apply graph_ok_toggle_all; [|done]. intros e. set_solver.
Qed.

Lemma directed_valid upds : Forall (upd_ok n) upds → Forall pair_ok (concat (directed <$> upds)).
Proof.
  intros Hall. apply Forall_concat, Forall_fmap. eapply Forall_impl; [exact Hall|].
  intros [[u v] ty] (Hu & Hv & _). by repeat constructor.
Qed.

Lemma new_alg_holds sd prio cfg :
  length prio = n → calc_bkt_per_col (calc_vector_length (N.of_nat n)) < 64 →
  cc_holds [] [] (allocate_worker_memory (new_CCSketchAlg n sd prio cfg) num_workers).
Proof.
  intros Hp Hb. constructor.
  - apply allocate_eager_ok, new_eager_ok; [lia|done].
  - eapply sketches_ok_ext; [|apply new_sketches_ok; [lia|done]]. intros v _.
    apply set_eq. intros e. rewrite elem_of_incident. set_solver.
  - done.
  - simpl. apply length_replicate.
Qed.
End meaning.

(** ** Cached answers *)

Section cached_query.
Context `{BuildConfig, Libm, Hashing}.
Context (n : nat) (n_ok : (N.of_nat n < 2 ^ 32)%N).

(** A query with a cached answer does not look at the sketches, which may be
    behind. *)
Lemma connected_components_cached E c q :
  eager_ok n E c → shared_dsu_valid c = true → q_components_order q ≡ₚ seq 0 n →
  ∃ cc c', connected_components q c = (Ok cc, c') ∧
    ∀ a b, a < n → b < n → ∃ r, is_connected cc a b = Ok r ∧ (r = true ↔ conn n E a b).
Proof.
  intros [Hn [Hwf Hdn Hfa] Hsh Hca] Hv Hq. unfold connected_components, ensure_answer. rewrite Hv, Hn.
  destruct (new_ConnectedComponents_ok n (q_components_order q) (dsu c) Hwf Hdn Hq)
    as (cc & d & -> & Hcc & Hwf' & Hdn' & Heq).
  eexists _, _. split; [done|]. intros a b Ha Hb.
  destruct (is_connected_ok n d cc a b) as (r & Hr & Hiff); [|done..|].
  - by apply (components_of_roots n (dsu c) d cc Hwf Hwf' Heq).
  - exists r. split; [done|]. rewrite Hiff, <- (ca_conn _ _ _ _ (Hca ltac:(congruence))) by done.
    symmetry. by apply same_set_ext.
Qed.
End cached_query.

(** ** A driver that is run again

    [resume_workers] clears [do_pause] and [paused] without waiting for the workers
    to notice. *)

(** A small guttering system: it holds one update and pushes two at a time. *)
Definition two_gutters_insert (u : nat * nat) (g : list (nat * nat))
    : list (nat * nat) * list (list update_batch) :=
  match g with
  | [] => ([u], [])
  | _ => ([], [(λ p, (p.1, [p.2])) <$> u :: g])
  end.

Definition two_gutters_flush (g : list (nat * nat))
    : list (nat * nat) * list (list update_batch) :=
  ([], [(λ p, (p.1, [p.2])) <$> g]).

Lemma single_batches (l : list (nat * nat)) : node_pairs ((λ p, (p.1, [p.2])) <$> l) = l.
Proof.
  unfold node_pairs. induction l as [|[u v] l IH]; [done|]. rewrite !fmap_cons. simpl.
  f_equal. exact IH.
Qed.

Lemma single_batches_queue (l : list (nat * nat)) :
  queue_pairs [(λ p, (p.1, [p.2])) <$> l] = l.
Proof.
  transitivity (node_pairs ((λ p, (p.1, [p.2])) <$> l)); [|apply single_batches].
  unfold queue_pairs. simpl. apply app_nil_r.
Qed.

#[global] Instance two_gutters : GutteringSystem (list (nat * nat)).
Proof.
  refine {| gut_insert := two_gutters_insert; gut_force_flush := two_gutters_flush;
            gut_pending := id |}.
  - intros u [|p g]; [done|]. unfold two_gutters_insert. cbn [fst snd].
    by rewrite single_batches_queue.
  - intros g. split; [done|]. unfold two_gutters_flush. cbn [fst snd].
    by rewrite single_batches_queue.
Defined.

Section again.
Context {A G : Type} `{StreamAlg A, GutteringSystem G}.
Implicit Types (s : Sys A G).

(** Worker [i] is in its wait, told to pause again, and not marked as paused,
    while the main thread waits for the mark. *)
Definition trapped (i : nat) s : Prop :=
  s_main s = [MWaitPaused] ∧
  ∃ w, s_workers s !! i = Some w ∧ (pc w = PPred ∨ pc w = PWait) ∧
       shutdown w = false ∧ do_pause w = true ∧ paused w = false.

Lemma trapped_step i s s' : trapped i s → sys_step s s' → trapped i s'.
Proof.
  intros [Hm (w & Hw & Hpc & Hsh & Hdp & Hpa)] [[j k|t|] Hs]; simpl in Hs.
  - destruct (decide (j = i)) as [->|Hne].
    + revert Hs. unfold worker_step. rewrite Hw. simpl.
      pose proof (lookup_lt_Some _ _ _ Hw) as Hlt.
      destruct Hpc as [Hpc|Hpc]; rewrite Hpc, ?Hdp, ?Hsh; simpl; intros [= <-];
        (split; [done|]); simpl; rewrite list_lookup_insert_eq by done; eexists;
        (split; [reflexivity|]); simpl; auto.
    + assert (s_main s' = s_main s ∧ s_workers s' !! i = s_workers s !! i) as [Hm' Hw'].
      { revert Hs. unfold worker_step. destruct (s_workers s !! j) as [w'|]; [|done]. simpl.
        assert (∀ x, s_workers (set_worker s j x) !! i = s_workers s !! i) as Hj
          by (intros x; simpl; by rewrite list_lookup_insert_ne).
        destruct (pc w') as [|[|b batches]| | | | | | |]; simpl;
          try (intros [= <-]; by split; [|apply Hj]); try done.
        - destruct (s_queue s !! k); [intros [= <-]; split; [done|apply Hj]|].
          case_decide; [|done]. destruct (s_non_block s); [|done]. intros [= <-]. split; [done|apply Hj].
        - case_decide; [|intros [= <-]; split; [done|apply Hj]]. unfold batch_callback. simpl.
          destruct (alg_apply_update_batch j b.1 b.2 (s_alg s)); simpl; [|done].
          intros [= <-]. split; [done|apply (Hj (set_pc w' (PWork batches)))]. }
      split; [congruence|]. exists w. rewrite Hw'. done.
  - revert Hs. unfold stream_step. destruct (s_streams s !! t) as [[|[upd|u] ops]|]; simpl; [done| | |done].
    + destruct (alg_pre_insert upd (s_alg s)); simpl; [|done]. intros [= <-]. split; [done|by exists w].
    + intros [= <-]. split; [done|by exists w].
  - revert Hs. unfold main_step. rewrite Hm. simpl. destruct (forallb paused (s_workers s)) eqn:Hf; [|done].
    rewrite forallb_forall in Hf. rewrite Hf in Hpa; [done|].
    apply list_elem_of_In. by eapply list_elem_of_lookup_2.
Qed.

Lemma trapped_forever i s s' : trapped i s → reachable s s' → trapped i s'.
Proof. intros Ht. induction 1 as [s|s s1 s2 Hs _ IH]; [done|]. by eapply IH, trapped_step. Qed.
End again.

Section runs.
Context `{BuildConfig, Libm, Hashing}.

Definition break : GraphUpdate := mkUpdate (mkEdge 0 0) BREAKPOINT.

(** The main thread processes a stream and prepares a query, twice. *)
Definition two_rounds (num_workers : nat) (parts1 parts2 : list (list GraphUpdate)) : list main_op :=
  process_stream_until num_workers parts1 ++ prep_query KSPANNINGFORESTS ++
  process_stream_until num_workers parts2 ++ prep_query KSPANNINGFORESTS.

(** The first round up to the end of its flush; the worker is left in its wait. *)
Definition first_round_schedule : list thread_id :=
  replicate 10 TMain ++ replicate 7 (TWorker 0 0) ++ [TMain].

Definition hang_state (c : CCSketchAlg) : Sys CCSketchAlg (list (nat * nat)) :=
  mkSys c [] [[]] true [mkWorker PWait false true false] [[]; []] [MWaitPaused] 0.

Lemma hang_run (c : CCSketchAlg) :
  run (first_round_schedule ++ replicate 10 TMain)
    (new_system c [] 1 (two_rounds 1 [[break]] [[break]])) = Some (hang_state c).
Proof. vm_compute. reflexivity. Qed.

Lemma hang_state_trapped (c : CCSketchAlg) : trapped 0 (hang_state c).
Proof. split; [done|]. eexists. split; [reflexivity|]. split; [by right|]. by repeat split. Qed.

(** The worker leaves its wait, finds the queue empty before the queue blocks
    again, and reads [do_pause] only when the next flush has set it. *)
Definition late_pause_schedule : list thread_id :=
  first_round_schedule ++ replicate 2 TMain ++ replicate 4 (TWorker 0 0) ++
  replicate 3 TMain ++ replicate 3 (TStream 1) ++ replicate 5 TMain ++ replicate 3 (TWorker 0 0) ++
  [TMain].
End runs.

(** What the general lemmas on the driver give for this algorithm. *)
Section cc_pipeline.
Context `{BuildConfig, Libm, Hashing}.
Context {G : Type} `{GutteringSystem G}.
Context (n workers : nat) (sd : N) (prio : list N) (cfg : CCAlgConfiguration) (g : G).
Context (parts : list (list GraphUpdate)) (code : QueryCode).

Definition new_alg : CCSketchAlg :=
  allocate_worker_memory (new_CCSketchAlg n sd prio cfg) workers.

Definition driver_start : Sys CCSketchAlg G := pipeline_start workers new_alg g parts code.

(** The size of the graph fits the identifiers and the sketches, the updates are
    edges between two different nodes, and there is a worker. *)
Record driver_setup : Prop := {
  du_n : (N.of_nat n < 2 ^ 32)%N;
  du_prio : length prio = n;
  du_buckets : calc_bkt_per_col (calc_vector_length (N.of_nat n)) < 64;
  du_workers : 0 < workers;
  du_gutters : gut_pending g = [];
  du_updates : Forall (upd_ok n) (taken_upds parts);
}.

Lemma cc_pipeline_reach s :
  driver_setup → reachable driver_start s →
  ∃ M : AlgMeaning (A := CCSketchAlg) workers, @holds _ _ _ M = cc_holds n workers ∧
    @upd_valid _ _ _ M = upd_ok n ∧ @pair_valid _ _ _ M = pair_ok n ∧
    stage workers (stream_task <$> parts) code s ∧
    ∃ pres app, @conserved _ _ _ _ workers M (concat (directed <$> taken_upds parts))
                  (taken_upds parts) s pres app.
Proof.
  intros [Hn Hp Hb Hw Hg Hall] Hr. exists (cc_meaning n workers Hn). do 3 (split; [done|]).
  exact (pipeline_reach workers (AlgMeaning0 := cc_meaning n workers Hn) new_alg g parts code
    (new_alg_holds n workers Hn sd prio cfg Hp Hb) Hg Hall (directed_valid n _ Hall) s Hr).
Qed.
End cc_pipeline.

(** ** Properties *)

Section theorems.
Context `{BuildConfig, Libm, Hashing}.

(** C3. However the stream threads, the workers and the main thread interleave
    from the construction of the driver to the end of its first [prep_query], no
    step throws, and at every moment each update of the streams is, per endpoint,
    in exactly one place: not read yet, in the gutters, in the work queue, in a
    worker's hands, or toggled into its node's sketch. *)
Theorem stream_updates_conserved {G} `{GutteringSystem G} n workers sd prio cfg (g : G) parts code s :
  driver_setup n workers prio g parts →
  reachable (driver_start n workers sd prio cfg g parts code) s →
  (∀ th r, step th s = Some r → ∃ s', r = Ok s') ∧
  ∃ app, sketches_ok n (geometry (cc_sketch (s_alg s))) (node_content app) (s_alg s) ∧
    app ++ waiting_pairs s ++ coming_pairs s ≡ₚ concat (directed <$> taken_upds parts).
Proof.
  intros Hd Hr.
  destruct (cc_pipeline_reach n workers sd prio cfg g parts code s Hd Hr)
    as (M & Mh & Mu & Mp & _ & pres & app & Hc). split.
  - intros th r Hs.
    destruct (step_conserved workers (AlgMeaning0 := M) (concat (directed <$> taken_upds parts)) (taken_upds parts))
      with (th := th) (s := s) (r := r) (pres := pres) (app := app) as (s' & _ & _ & -> & _);
      [rewrite Mp; apply directed_valid, Hd|rewrite Mu; apply Hd|done|done|by exists s'].
  - exists app. pose proof (cs_holds _ _ _ _ _ _ Hc) as Hh. rewrite Mh in Hh.
    split; [apply Hh|apply Hc].
Qed.


(** C20. Nothing traps a driver before the end of its first [prep_query]: from every
    state the threads can get to, some continuation ends it. *)
Theorem first_flush_can_finish {G} `{GutteringSystem G} n workers sd prio cfg (g : G) parts code s :
  driver_setup n workers prio g parts →
  reachable (driver_start n workers sd prio cfg g parts code) s →
  ∃ s', reachable s s' ∧ s_main s' = [].
Proof.
  intros Hd Hr.
  destruct (cc_pipeline_reach n workers sd prio cfg g parts code s Hd Hr)
    as (M & Mh & Mu & Mp & Hst & Hc).
  apply (can_finish workers (AlgMeaning0 := M) parts code); [rewrite Mu; apply Hd|rewrite Mp; apply directed_valid, Hd|].
  by split.
Qed.

(** A driver that resumes its workers and flushes them again before a worker
    woke up never ends the second flush: the worker finds [do_pause] set again and
    waits on, but [resume_workers] cleared its [paused] mark, which nothing sets
    any more. *)
Theorem second_flush_can_hang (c : CCSketchAlg) :
  ∃ s, reachable (new_system c [] 1 (two_rounds 1 [[break]] [[break]])) s ∧
    ∀ s', reachable s s' → s_main s' = [MWaitPaused].
Proof.
  exists (hang_state c). split; [exact (run_reachable _ _ _ (hang_run c))|].
  intros s' Hr. by destruct (trapped_forever 0 _ _ (hang_state_trapped c) Hr).
Qed.
End theorems.

(** ** Witnesses *)

Section witnesses.
#[local] Existing Instances default_build integral_libm xxh3_hashing.

Definition example_parts : list (list GraphUpdate) :=
  [[mkUpdate (mkEdge 0 1) INSERT; mkUpdate (mkEdge 3 1) INSERT; break];
   [mkUpdate (mkEdge 2 3) INSERT; mkUpdate (mkEdge 3 1) DELETE; break; mkUpdate (mkEdge 0 2) INSERT]].

Lemma example_setup : driver_setup 4 2 [5; 1; 4; 4]%N (@nil (nat * nat)) example_parts.
Proof.
  constructor; [by vm_compute|done|vm_compute; lia|lia|done|].
  repeat constructor; simpl; lia.
Qed.

(** A run to the end of the query: both streams at once, then worker 1 empties the
    queue and both pause. *)
Definition example_pipeline_schedule : list thread_id :=
  replicate 7 TMain ++ concat (replicate 6 [TStream 0; TStream 1]) ++ replicate 6 TMain ++
  concat (replicate 5 (replicate 4 (TWorker 1 0))) ++ replicate 4 (TWorker 1 0) ++
  replicate 4 (TWorker 0 0) ++ [TMain].

Definition example_driver : Sys CCSketchAlg (list (nat * nat)) :=
  driver_start 4 2 7 [5; 1; 4; 4]%N CCConf.default [] example_parts KSPANNINGFORESTS.

Lemma example_done : ∃ s, reachable example_driver s ∧ s_main s = [] ∧ cc_seed (s_alg s) = 7%N.
Proof.
  assert (from_option (λ s, (s_main s, cc_seed (s_alg s))) ([MNotify], 0%N)
    (run example_pipeline_schedule example_driver) = ([], 7%N)) as Hrun by by vm_compute.
  destruct (run example_pipeline_schedule example_driver) as [s|] eqn:Hs; [|done].
  exists s. split; [exact (run_reachable _ _ _ Hs)|]. cbn [from_option] in Hrun.
  injection Hrun as Hm Hseed. exact (conj Hm Hseed).
Qed.

Lemma example_stream_sound : checksum_sound 7 (stream_graph (taken_upds example_parts)).
Proof.
  replace (stream_graph (taken_upds example_parts)) with example_graph by by vm_compute.
  exact example_graph_sound.
Qed.

Lemma stream_updates_conserved_witness :
  ∃ s app, reachable example_driver s ∧ s_main s = [] ∧
    app ++ waiting_pairs s ++ coming_pairs s ≡ₚ concat (directed <$> taken_upds example_parts).
Proof.
  destruct example_done as (s & Hr & Hm & _).
  destruct (stream_updates_conserved 4 2 7 [5; 1; 4; 4]%N CCConf.default [] example_parts
    KSPANNINGFORESTS s example_setup Hr) as (_ & app & _ & Hp).
  exists s, app. exact (conj Hr (conj Hm Hp)).
Defined.


Lemma first_flush_can_finish_witness : ∃ s', reachable example_driver s' ∧ s_main s' = [].
Proof.
  exact (first_flush_can_finish 4 2 7 [5; 1; 4; 4]%N CCConf.default [] example_parts
    KSPANNINGFORESTS example_driver example_setup ltac:(constructor)).
Defined.

(** A flush that returns with updates in the queue: the worker reads [do_pause] of
    the second flush after it saw the queue of the first one empty. *)
Lemma second_flush_can_miss_updates :
  from_option (λ s, (s_main s, queue_pairs (s_queue s), forallb paused (s_workers s)))
    ([MNotify], [], false)
    (run late_pause_schedule
      (new_system example_alg [] 1
        (two_rounds 1 [[break]] [[mkUpdate (mkEdge 0 1) INSERT; break]]))) =
  ([], [(1, 0); (0, 1)], true).
Proof. by vm_compute. Qed.
End witnesses.
