(* ===== verification/MCSketchAlg.v ===== *)
(** * The minimum cut algorithm: src/include/mc_sketch_alg.h and
    src/src/mc_sketch_alg.cpp

    [MCSketchAlg] keeps several sketch graphs over one set of nodes, in one array of
    sketches, and peels spanning forests off each of them. Its fields are those of
    [CCSketchAlg] and two counters; its parallel rounds are the same code with an
    offset into the array and a split that caps the last segment. The file has all
    its operations; [MCIngest] and [MCQuery] have their properties. *)

From Stdlib Require Import NArith Lia.
From stdpp Require Import base list gmap sets numbers relations.
From S2P Require Import Prelude Float64 Util Bucket Sketch XXHash Concrete SketchSpec Dsu Graph Configuration CCSketchAlg Partition ReturnTypes MergeInstr Boruvka CCQuery.

(** The pointer array [sketches] has [num_vertices * max_sketch_graphs] entries;
    [sketches core] is the part of it that points to a sketch: the sample sketch of
    the constructor, then the graphs created so far. An access beyond it follows an
    uninitialised pointer. *)
Record MCSketchAlg := mkMC {
  core : CCSketchAlg;
  max_sketch_graphs : nat;
  num_sketch_graphs : nat;
}.

Definition set_core (m : MCSketchAlg) (c : CCSketchAlg) : MCSketchAlg :=
  mkMC c (max_sketch_graphs m) (num_sketch_graphs m).

(** VieCut computes a minimum cut: its weight, and the side of each node. *)
Class VieCut := {
  perform_minimum_cut : nat → list Edge → N;
  getNodeInCut : nat → list Edge → nat → bool;
}.

Record MinCut := mkMinCut { left_vertices : gset nat; right_vertices : gset nat; value : N }.

(** The programs of the threads of [filter_sf_edges]: the positions in the sorted
    adjacency that a thread applies, one by one. *)
Fixpoint run_forward (fuel : nat) (edges : list Edge) (s : nat) (start : nat)
    : outcome (list nat * nat) :=
  match fuel with
  | O => Throw OutOfFuel
  | S fuel =>
      e ← arr_get edges start;
      if decide (src e = s) then
        r ← run_forward fuel edges s (S start); Ok (start :: r.1, r.2)
      else Ok ([], start)
  end.

(** [edges[end - 1]] with [end = 0] is outside the array. *)
Fixpoint run_backward (edges : list Edge) (s : nat) (stop : nat) : outcome (list nat * nat) :=
  match stop with
  | O => Throw OutOfBounds
  | S k =>
      e ← arr_get edges k;
      if decide (src e = s) then
        r ← run_backward edges s k; Ok (k :: r.1, r.2)
      else Ok ([], stop)
  end.

Definition filter_thread (part : nat → nat → nat → nat * nat) (T : nat) (edges : list Edge) (t : nat)
    : outcome (list nat) :=
  let '(start, stop) := part (length edges) t T in
  fw ← (if decide (0 < start) then
          x ← arr_get edges start; y ← arr_get edges (start - 1);
          if decide (src x = src y) then run_forward (S (length edges)) edges (src x) start
          else Ok ([], start)
        else Ok ([], start));
  bw ← (if decide (stop < length edges) then
          match stop with
          | O => Throw OutOfBounds
          | S k =>
              x ← arr_get edges k; y ← arr_get edges stop;
              if decide (src x = src y) then run_backward edges (src x) stop else Ok ([], stop)
          end
        else Ok ([], stop));
  Ok (fw.1 ++ bw.1 ++ seq fw.2 (bw.2 - fw.2)).

Module MC.

Inductive QueryCode := CONNECTIVITY | KSPANNINGFORESTS | MINIMUMCUT.

#[global] Instance QueryCode_eq_dec : EqDecision QueryCode.
Proof. solve_decision. Defined.

Section ops.
Context `{BuildConfig, Libm, Hashing}.

(** *** Ingestion *)

Definition new_MCSketchAlg (nv : nat) (sd : N) (prio : list N) (max : nat)
    (cfg : CCAlgConfiguration) : MCSketchAlg :=
  mkMC (set_valid (set_sketches (new_CCSketchAlg nv sd prio cfg)
          [alg_sketch nv sd (_sketches_factor cfg)]) false) max 0.

Definition allocate_worker_memory (m : MCSketchAlg) (num_workers : nat) : MCSketchAlg :=
  set_core m (CCSketchAlg.allocate_worker_memory (core m) num_workers).

Definition get_desired_updates_per_batch (m : MCSketchAlg) : outcome N :=
  CCSketchAlg.get_desired_updates_per_batch (core m).

(** An invalid id is reported and ignored. *)
Definition create_sketch_graph (graph_id : nat) (m : MCSketchAlg) : MCSketchAlg :=
  let c := core m in
  if decide (max_sketch_graphs m ≤ graph_id ∨ graph_id ≠ num_sketch_graphs m) then m
  else
    mkMC (set_sketches c
            (take (graph_id * num_vertices c) (sketches c) ++
             ((λ _, alg_sketch (num_vertices c) (cc_seed c) (_sketches_factor (config c))) <$>
                seq 0 (num_vertices c))))
      (max_sketch_graphs m) (S (num_sketch_graphs m)).

Definition pre_insert (m : MCSketchAlg) (upd : GraphUpdate) : outcome MCSketchAlg :=
  c ← CCSketchAlg.pre_insert (core m) upd; Ok (set_core m c).

Definition apply_update_batch (m : MCSketchAlg) (thr_id src_vertex : nat) (dst_vertices : list nat)
    : outcome MCSketchAlg :=
  c ← CCSketchAlg.apply_update_batch (core m) thr_id src_vertex dst_vertices; Ok (set_core m c).

Definition apply_update_batch_single_graph (m : MCSketchAlg) (thr_id graph_id src_vertex : nat)
    (dst_vertices : list nat) : outcome MCSketchAlg :=
  let c := core m in
  if update_locked c then Throw UpdateLockedException
  else
    delta ← arr_get (delta_sketches c) thr_id;
    let delta := zero_contents delta in
    let delta := foldl (λ delta d, update delta (concat_pairing_fn src_vertex d))
                   delta dst_vertices in
    let i := graph_id * num_vertices c + src_vertex in
    s ← arr_get (sketches c) i;
    let c := set_deltas c (<[thr_id := delta]> (delta_sketches c)) in
    Ok (set_core m (set_sketches c (<[i := merge s delta]> (sketches c)))).

Definition apply_raw_buckets_update (m : MCSketchAlg) (src_vertex : nat) (raw_buckets : list Bucket)
    : outcome MCSketchAlg :=
  c ← CCSketchAlg.apply_raw_buckets_update (core m) src_vertex raw_buckets; Ok (set_core m c).

Definition update_subgraph (graph_id : nat) (m : MCSketchAlg) (upd : GraphUpdate)
    : outcome MCSketchAlg :=
  m ← pre_insert m upd;
  let base := num_vertices (core m) * graph_id in
  let e := edge upd in
  c ← update_sketch (core m) (base + src e) (concat_pairing_fn (src e) (dst e));
  c ← update_sketch c (base + dst e) (concat_pairing_fn (src e) (dst e));
  Ok (set_core m c).

Definition has_cached_query (m : MCSketchAlg) (code : QueryCode) : bool :=
  if decide (code = CONNECTIVITY) then shared_dsu_valid (core m) else false.

(** *** Boruvka

    The rounds are the code of [CCSketchAlg] line by line, on the sketches of one
    graph and with the capped split. *)

Definition sample_supernode := Boruvka.sample_supernode.
Definition merge_global := Boruvka.merge_global.
Definition find_last_partition_of_root := MergeInstr.find_last_partition_of_root.

Definition run_round_zero (order : list nat) (st : RoundState) (sks : list Sketch) :=
  Boruvka.run_round_zero 0 order st sks.

Definition run_k_round_zero (nv graph_id : nat) (order : list nat) (st : RoundState)
    (sks : list Sketch) := Boruvka.run_round_zero (graph_id * nv) order st sks.

Definition perform_boruvka_round (nv : nat) (fresh : Sketch) (T : nat) :=
  Boruvka.perform_boruvka_round nv 0 fresh mc_get_ith_partition T.

Definition perform_k_boruvka_round (nv graph_id : nat) (fresh : Sketch) (T : nat) :=
  Boruvka.perform_boruvka_round nv (graph_id * nv) fresh mc_get_ith_partition T.

Definition create_merge_instructions (nv T : nat) :=
  MergeInstr.create_merge_instructions mc_get_ith_partition nv T.

(** The emulation on the sketches from [base] on. An exception leaves the lock. *)
Definition emulate (base : nat) (q : QueryRun) (c : CCSketchAlg) : outcome unit * CCSketchAlg :=
  let c := set_locked c true in
  let '(res, b) := boruvka_rounds (num_vertices c) base (cc_sketch c) mc_get_ith_partition
                     (q_threads q) (q_schedule q) (dsu c) (sketches c) (last_query_rounds c) in
  let c := set_sketches (set_forest (set_dsu c (b_dsu b)) (b_forest b)) (b_sketches b) in
  match res with
  | Throw e => (Throw e, c)
  | Ok _ => (Ok tt, set_locked (set_rounds c (b_rounds b)) false)
  end.

Definition boruvka_emulation (q : QueryRun) (m : MCSketchAlg) : outcome unit * MCSketchAlg :=
  let '(res, c) := emulate 0 q (core m) in
  match res with
  | Throw e => (Throw e, set_core m c)
  | Ok _ => (Ok tt, set_core m (set_valid c true))
  end.

(** The flags of the cached answer stay as they are. *)
Definition k_boruvka_emulation (q : QueryRun) (graph_id : nat) (m : MCSketchAlg)
    : outcome unit * MCSketchAlg :=
  let '(res, c) := emulate (graph_id * num_vertices (core m)) q (core m) in
  (res, set_core m c).

(** One iteration of the loop of [k_boruvka_emulation] in terms of the rounds above. *)
Lemma k_boruvka_iteration nv graph_id fresh T sch fuel round_num merge_instr gs b :
  boruvka_loop nv (graph_id * nv) fresh mc_get_ith_partition T sch (S fuel) round_num merge_instr gs b =
    match perform_k_boruvka_round nv graph_id fresh T (zero_order sch) (round_order sch round_num)
            round_num merge_instr (b_dsu b) (b_forest b) gs (b_sketches b) with
    | Throw e => (Throw e, b)
    | Ok (st, sks) =>
        let b := mkBoruvka (r_dsu st) (r_forest st) sks (b_rounds b) in
        match r_err st with
        | Some e => (Throw e, b)
        | None =>
            if r_modified st then
              match create_merge_instructions nv T (merge_sched sch round_num) (b_dsu b) merge_instr with
              | Throw e => (Throw e, b)
              | Ok (d, merge_instr) =>
                  boruvka_loop nv (graph_id * nv) fresh mc_get_ith_partition T sch fuel (S round_num)
                    merge_instr (r_global st) (mkBoruvka d (b_forest b) (b_sketches b) (b_rounds b))
              end
            else (Ok tt, mkBoruvka (b_dsu b) (b_forest b) (b_sketches b) round_num)
        end
    end.
Proof. reflexivity. Qed.

(** *** Queries *)

(** Only the sketches of graph 0 are reset. *)
Definition reset_sample_states (m : MCSketchAlg) : MCSketchAlg :=
  let c := core m in
  set_core m (set_sketches c
    ((reset_sample_state <$> take (num_vertices c) (sketches c)) ++
     drop (num_vertices c) (sketches c))).

Definition ensure_answer (q : QueryRun) (cached : bool) (m : MCSketchAlg)
    : outcome unit * MCSketchAlg :=
  if cached then (Ok tt, m)
  else
    let '(res, m) := boruvka_emulation q m in
    (res, reset_sample_states m).

Definition connected_components (q : QueryRun) (m : MCSketchAlg)
    : outcome ConnectedComponents * MCSketchAlg :=
  let '(res, m) := ensure_answer q (shared_dsu_valid (core m)) m in
  match res with
  | Throw e => (Throw e, m)
  | Ok _ =>
      match new_ConnectedComponents (q_components_order q) (num_vertices (core m)) (dsu (core m)) with
      | Throw e => (Throw e, m)
      | Ok (cc, d) => (Ok cc, set_core m (set_dsu (core m) d))
      end
  end.

Definition point_query (q : QueryRun) (a b : nat) (m : MCSketchAlg) : outcome bool * MCSketchAlg :=
  let '(res, m) := ensure_answer q (dsu_valid (core m)) m in
  match res with
  | Throw e => (Throw e, m)
  | Ok _ =>
      match find_root (dsu (core m)) a with
      | Throw e => (Throw e, m)
      | Ok (ra, d) =>
          match find_root d b with
          | Throw e => (Throw e, set_core m (set_dsu (core m) d))
          | Ok (rb, d) => (Ok (bool_decide (ra = rb)), set_core m (set_dsu (core m) d))
          end
      end
  end.

(** The exception of the emulation is caught and dropped; the forest is what the
    forest array holds then. *)
Definition calc_spanning_forest (q : QueryRun) (graph_id : nat) (m : MCSketchAlg)
    : outcome SpanningForest * MCSketchAlg :=
  let '(res, m) := k_boruvka_emulation q graph_id m in
  match res with
  | Ok _ | Throw (OutOfSamplesException _ _ _) =>
      (Ok (new_SpanningForest (num_vertices (core m)) (spanning_forest (core m))), m)
  | Throw e => (Throw e, m)
  end.

(** One update of [filter_sf_edges]. *)
Definition filter_update (base : nat) (edges : list Edge) (c : CCSketchAlg) (i : nat)
    : outcome CCSketchAlg :=
  e ← arr_get edges i;
  update_sketch c (base + src e) (concat_pairing_fn (src e) (dst e)).

(** The order of the updates is the schedule of the threads. *)
Definition filter_sf_edges (sort : list Edge → list Edge) (T : nat) (sched : list nat)
    (sf : SpanningForest) (graph_id : nat) (m : MCSketchAlg) : outcome (SpanningForest * MCSketchAlg) :=
  let c := set_valid (core m) false in
  let '(edges, sf) := get_sorted_adjacency sort sf in
  progs ← outcome_list (filter_thread mc_get_ith_partition T edges <$> seq 0 T);
  c ← outcome_fold (filter_update (graph_id * num_vertices c) edges) c (interleave sched progs).*2;
  Ok (sf, set_core m c).

(** What the run-time chooses in one round of the forest peeling. *)
Record ForestRun := mkForestRun { f_query : QueryRun; f_filter : list nat; f_restore : list nat }.

(** The filters run on as many threads as the queries. *)
Fixpoint peel_forests (sort : list Edge → list Edge) (runs : list ForestRun) (graph_id : nat)
    (SFs : list SpanningForest) (max_rounds : nat) (m : MCSketchAlg)
    : outcome (list SpanningForest * nat * MCSketchAlg) :=
  match runs with
  | [] => Ok (SFs, max_rounds, m)
  | run :: runs =>
      let '(res, m) := calc_spanning_forest (f_query run) graph_id m in
      sf ← res;
      let max_rounds := last_query_rounds (core m) `max` max_rounds in
      r ← filter_sf_edges sort (q_threads (f_query run)) (f_filter run) sf graph_id m;
      peel_forests sort runs graph_id (SFs ++ [r.1]) max_rounds r.2
  end.

Fixpoint restore_forests (sort : list Edge → list Edge) (runs : list ForestRun) (graph_id : nat)
    (SFs : list SpanningForest) (m : MCSketchAlg) : outcome (list SpanningForest * MCSketchAlg) :=
  match runs, SFs with
  | run :: runs, sf :: SFs =>
      r ← filter_sf_edges sort (q_threads (f_query run)) (f_restore run) sf graph_id m;
      r2 ← restore_forests sort runs graph_id SFs r.2;
      Ok (r.1 :: r2.1, r2.2)
  | _, _ => Ok (SFs, m)
  end.

Definition calc_disjoint_spanning_forests (sort : list Edge → list Edge) (runs : list ForestRun)
    (graph_id : nat) (m : MCSketchAlg) : outcome (list SpanningForest * MCSketchAlg) :=
  r ← peel_forests sort runs graph_id [] 0 m;
  r2 ← restore_forests sort runs graph_id r.1.1 r.2;
  Ok (r2.1, set_core r2.2 (set_rounds (core r2.2) r.1.2)).

Definition calc_minimum_cut `{VieCut} (edges : list Edge) (m : MCSketchAlg) : MinCut :=
  let n := num_vertices (core m) in
  mkMinCut (list_to_set (filter (λ i, getNodeInCut n edges i = true) (seq 0 n)))
    (list_to_set (filter (λ i, getNodeInCut n edges i ≠ true) (seq 0 n)))
    (perform_minimum_cut n edges).
End ops.
End MC.
