(* ===== verification/MCFilter.v ===== *)
(** * Deleting a spanning forest from the sketches: [filter_sf_edges] of
    src/src/mc_sketch_alg.cpp

    Every thread owns a segment of the sorted adjacency; it locks the sketch of a
    node whose edges lie in two segments. The file shows when the segments' loops
    apply every edge exactly once, and what that does to the sketches. *)

From Stdlib Require Import NArith Lia.
From stdpp Require Import base list gmap sets numbers relations.
From S2P Require Import Prelude Float64 Util Bucket Sketch SketchSpec Dsu Graph Configuration CCSketchAlg Partition MergeInstr ReturnTypes Boruvka BoruvkaLoop CCQuery MCSketchAlg.

Lemma seq_pieces start z a stop :
  start ≤ z → z ≤ a → a ≤ stop →
  seq start (z - start) ++ seq a (stop - a) ++ seq z (a - z) ≡ₚ seq start (stop - start).
Proof.
  intros H1 H2 H3. replace (stop - start) with ((z - start) + ((a - z) + (stop - a))) by lia.
  rewrite !seq_app. replace (start + (z - start)) with z by lia.
  replace (z + (a - z)) with a by lia. f_equiv. apply Permutation_app_comm.
Qed.

(** ** The loops of one thread *)

Section thread.
Context (edges : list Edge).

Definition src_at (i : nat) : option nat := src <$> edges !! i.

(** The node of the first edge of the segment has edges before it; the node of the
    last one has edges after it. *)
Definition collides_left (start : nat) : Prop := 0 < start ∧ src_at start = src_at (start - 1).
Definition collides_right (stop : nat) : Prop :=
  stop < length edges ∧ src_at (stop - 1) = src_at stop.

(** The run of edges at the left end stops at [z], the one at the right end starts
    at [a], both inside the segment and inside the array. *)
Record segment_splits (start stop z a : nat) : Prop := {
  ss_order : start ≤ z ∧ z ≤ a ∧ a ≤ stop;
  ss_left : collides_left start →
    z < length edges ∧ src_at z ≠ src_at start ∧ ∀ i, start ≤ i < z → src_at i = src_at start;
  ss_no_left : ¬ collides_left start → z = start;
  ss_right : collides_right stop →
    0 < a ∧ src_at (a - 1) ≠ src_at (stop - 1) ∧ ∀ i, a ≤ i < stop → src_at i = src_at (stop - 1);
  ss_no_right : ¬ collides_right stop → a = stop;
}.

Lemma src_at_Some i e : edges !! i = Some e → src_at i = Some (src e).
Proof. unfold src_at. by intros ->. Qed.

Lemma run_forward_ok fuel s start z :
  start ≤ z → z < length edges → z - start < fuel → src_at z ≠ Some s →
  (∀ i, start ≤ i < z → src_at i = Some s) →
  run_forward fuel edges s start = Ok (seq start (z - start), z).
Proof.
  revert start. induction fuel as [|fuel IH]; intros start Hsz Hz Hf Hne Hall; [lia|].
  cbn [run_forward]. destruct (lookup_lt_is_Some_2 edges start) as [e He]; [lia|].
  rewrite (arr_get_Ok _ _ _ He). cbn [mbind outcome_bind].
  destruct (decide (start = z)) as [->|Hlt].
  - rewrite (src_at_Some _ _ He) in Hne. rewrite decide_False by congruence.
    by rewrite Nat.sub_diag.
  - pose proof (Hall start ltac:(lia)) as Hs. rewrite (src_at_Some _ _ He) in Hs.
    rewrite decide_True by congruence. rewrite (IH (S start)); [|lia..|done|intros i Hi; apply Hall; lia].
    simpl. replace (z - start) with (S (z - S start)) by lia. done.
Qed.

Lemma run_backward_ok s stop a :
  0 < a → a ≤ stop → stop ≤ length edges → src_at (a - 1) ≠ Some s →
  (∀ i, a ≤ i < stop → src_at i = Some s) →
  ∃ l, run_backward edges s stop = Ok (l, a) ∧ l ≡ₚ seq a (stop - a).
Proof.
  intros Ha. induction stop as [|k IH]; intros Has Hlen Hne Hall; [lia|].
  cbn [run_backward]. destruct (lookup_lt_is_Some_2 edges k) as [e He]; [lia|].
  rewrite (arr_get_Ok _ _ _ He). cbn [mbind outcome_bind].
  destruct (decide (a = S k)) as [->|Hlt].
  - replace (S k - 1) with k in Hne by lia. rewrite (src_at_Some _ _ He) in Hne.
    rewrite decide_False by congruence. exists []. by rewrite Nat.sub_diag.
  - pose proof (Hall k ltac:(lia)) as Hs. rewrite (src_at_Some _ _ He) in Hs.
    rewrite decide_True by congruence.
    destruct IH as (l & -> & Hl); [lia|lia|done|intros i Hi; apply Hall; lia|].
    cbn [mbind outcome_bind fst snd]. exists (k :: l). split; [done|].
    replace (S k - a) with (S (k - a)) by lia. rewrite seq_S, Hl.
    replace (a + (k - a)) with k by lia. apply Permutation_cons_append.
Qed.

Lemma forward_part start stop z a :
  start < length edges → segment_splits start stop z a →
  (if decide (0 < start) then
     x ← arr_get edges start; y ← arr_get edges (start - 1);
     if decide (src x = src y) then run_forward (S (length edges)) edges (src x) start
     else Ok ([], start)
   else Ok ([], start)) = Ok (seq start (z - start), z).
Proof.
  intros Hs [Ho Hl Hnl _ _]. case_decide as Hpos.
  - destruct (lookup_lt_is_Some_2 edges start) as [x Hx]; [done|].
    destruct (lookup_lt_is_Some_2 edges (start - 1)) as [y Hy]; [lia|].
    rewrite (arr_get_Ok _ _ _ Hx), (arr_get_Ok _ _ _ Hy). cbn [mbind outcome_bind].
    case_decide as Hxy.
    + destruct Hl as (Hz & Hne & Hall).
      { split; [done|]. by rewrite (src_at_Some _ _ Hx), (src_at_Some _ _ Hy), Hxy. }
      rewrite (src_at_Some _ _ Hx) in *. apply run_forward_ok; (done || lia).
    + rewrite Hnl; [by rewrite Nat.sub_diag|]. intros [_ Heq].
      rewrite (src_at_Some _ _ Hx), (src_at_Some _ _ Hy) in Heq. congruence.
  - rewrite Hnl by (intros [? _]; done). by rewrite Nat.sub_diag.
Qed.

Lemma backward_part start stop z a :
  start < stop → stop ≤ length edges → segment_splits start stop z a →
  ∃ l, (if decide (stop < length edges) then
          match stop with
          | O => Throw OutOfBounds
          | S k =>
              x ← arr_get edges k; y ← arr_get edges stop;
              if decide (src x = src y) then run_backward edges (src x) stop else Ok ([], stop)
          end
        else Ok ([], stop)) = Ok (l, a) ∧ l ≡ₚ seq a (stop - a).
Proof.
  intros Hss Hlen [Ho _ _ Hr Hnr]. destruct stop as [|k]; [lia|].
  case_decide as Hlt.
  - destruct (lookup_lt_is_Some_2 edges k) as [x Hx]; [lia|].
    destruct (lookup_lt_is_Some_2 edges (S k)) as [y Hy]; [lia|].
    rewrite (arr_get_Ok _ _ _ Hx), (arr_get_Ok _ _ _ Hy). cbn [mbind outcome_bind].
    replace (S k - 1) with k in * by lia. unfold collides_right in *.
    replace (S k - 1) with k in * by lia.
    rewrite (src_at_Some _ _ Hx), (src_at_Some _ _ Hy) in *. case_decide as Hxy.
    + destruct Hr as (Ha & Hne & Hall); [split; congruence|].
      apply run_backward_ok; (done || lia).
    + rewrite Hnr by (intros [_ ?]; congruence). exists []. by rewrite Nat.sub_diag.
  - rewrite Hnr by (intros [? _]; done). exists []. by rewrite Nat.sub_diag.
Qed.

(** A thread whose boundary runs stay inside its segment applies its segment. *)
Lemma filter_thread_ok part T t z a :
  (part (length edges) t T).1 < (part (length edges) t T).2 →
  (part (length edges) t T).2 ≤ length edges →
  segment_splits (part (length edges) t T).1 (part (length edges) t T).2 z a →
  ∃ l, filter_thread part T edges t = Ok l ∧
    l ≡ₚ seq (part (length edges) t T).1 ((part (length edges) t T).2 - (part (length edges) t T).1).
Proof.
  unfold filter_thread. destruct (part (length edges) t T) as [start stop]. cbn [fst snd].
  intros Hlt Hle Hss. rewrite (forward_part start stop z a) by (done || lia).
  destruct (backward_part start stop z a Hlt Hle Hss) as (l & Hbw & Hl).
  destruct (ss_order _ _ _ _ Hss) as (H1 & H2 & H3).
  cbn [mbind outcome_bind]. rewrite Hbw. cbn [fst snd]. eexists. split; [done|].
  cbn [fst snd]. rewrite Hl. by apply seq_pieces.
Qed.
End thread.

Definition splits_ok (part : nat → nat → nat → nat * nat) (T : nat) (edges : list Edge) : Prop :=
  ∀ t, t < T → ∃ z a,
    segment_splits edges (part (length edges) t T).1 (part (length edges) t T).2 z a.

(** All threads together apply every position once. *)
Lemma filter_threads_ok part T edges :
  partition_ok part (length edges) T → splits_ok part T edges →
  ∃ progs, outcome_list (filter_thread part T edges <$> seq 0 T) = Ok progs ∧
    concat progs ≡ₚ seq 0 (length edges).
Proof.
  intros Hp Hs.
  assert (∀ k, k ≤ T → ∃ progs, outcome_list (filter_thread part T edges <$> seq 0 k) = Ok progs ∧
    concat progs ≡ₚ seq 0 (part_bound part (length edges) T k)) as Hk.
  { induction k as [|k IH]; intros Hk.
    - exists []. split; [done|]. by rewrite part_bound_0.
    - destruct (IH ltac:(lia)) as (progs & Hrun & Hperm).
      pose proof (part_bounds part (length edges) T Hp k ltac:(lia)) as Hb.
      pose proof (part_bound_lt part (length edges) T Hp k ltac:(lia)) as Hlt.
      pose proof (part_bound_le part (length edges) T Hp (S k) T ltac:(lia) ltac:(lia)) as Hle.
      rewrite part_bound_T in Hle.
      destruct (Hs k ltac:(lia)) as (z & a & Hss).
      destruct (filter_thread_ok edges part T k z a) as (l & Hl & Hlp);
        [by rewrite Hb|by rewrite Hb|done|].
      rewrite Hb in Hlp. cbn [fst snd] in Hlp. exists (progs ++ [l]). split.
      + rewrite seq_S, fmap_app. simpl.
        assert (∀ (xs : list (outcome (list nat))) ys, outcome_list xs = Ok ys →
          outcome_list (xs ++ [Ok l]) = Ok (ys ++ [l])) as Happ.
        { clear. intros xs. induction xs as [|[x|] xs IH]; intros ys; simpl; [by intros [= <-]| |done].
          destruct (outcome_list xs) as [zs|] eqn:Hz; simpl; [|done]. intros [= <-].
          by rewrite (IH zs eq_refl). }
        rewrite Hl. by apply Happ.
      + rewrite concat_app, Hperm. simpl. rewrite app_nil_r, Hlp.
        set (b := part_bound part (length edges) T) in *.
        replace (b (S k)) with (b k + (b (S k) - b k)) at 2 by lia. by rewrite seq_app. }
  destruct (Hk T ltac:(lia)) as (progs & Hrun & Hperm). exists progs.
  by rewrite part_bound_T in Hperm.
Qed.

(** ** The effect on the sketches *)

#[global] Instance Edge_inhabited : Inhabited Edge := populate (mkEdge 0 0).

Section effect.
Context `{BuildConfig, Libm, Hashing}.
Context (n : nat) (n_ok : (N.of_nat n ≤ 2 ^ 32)%N).
Context (base : nat) (fresh : Sketch).
Implicit Types (V : nat → gset N) (c : CCSketchAlg).

(** The node sketches from [base] on hold [V]; [j] samples of each were used. *)
Definition contents V (j : nat) (sks : list Sketch) : Prop :=
  ∀ v, v < n → ∃ s, sks !! (base + v) = Some s ∧ represents s (V v) ∧
    geometry s = geometry fresh ∧ sample_idx s = j.

Lemma contents_ext V V' j sks : (∀ v, v < n → V v = V' v) → contents V j sks → contents V' j sks.
Proof.
  intros HV Hc v Hv. destruct (Hc v Hv) as (s & Hq1 & Hq2 & Hq3 & Hq4). exists s.
  by rewrite <- HV.
Qed.

Lemma contents_nodes E j sks :
  contents (incident E) j sks ↔ nodes_ok n E base fresh sks ∧ sampled base j (seq 0 n) sks.
Proof.
  split.
  - intros Hc. split.
    + intros v Hv. destruct (Hc v Hv) as (s & Hq1 & Hq2 & Hq3 & _). by exists s.
    + intros v s Hv Hs. apply elem_of_seq in Hv. destruct (Hc v) as (s' & Hq1 & _ & _ & Hq4); [lia|].
      rewrite Hs in Hq1. by injection Hq1 as <-.
  - intros [Hn Hs] v Hv. destruct (Hn v Hv) as (s & Hq1 & Hq2 & Hq3). exists s.
    split_and!; try done. apply (Hs v s); [|done]. apply elem_of_seq. lia.
Qed.

Definition same_but_sketches c c' : Prop :=
  c' = set_sketches c (sketches c') ∧ length (sketches c') = length (sketches c) ∧
  ∀ i, ¬ (base ≤ i < base + n) → sketches c' !! i = sketches c !! i.

Lemma same_but_sketches_refl c : same_but_sketches c c.
Proof. by destruct c. Qed.

Lemma same_but_sketches_trans c1 c2 c3 :
  same_but_sketches c1 c2 → same_but_sketches c2 c3 → same_but_sketches c1 c3.
Proof.
  intros (Hq1 & Hq2 & Hq3) (Hq1' & Hq2' & Hq3'). split_and!; [|congruence|].
  - rewrite Hq1' at 1. by rewrite Hq1.
  - intros i Hi. by rewrite Hq3', Hq3.
Qed.

Lemma update_contents V j c v idx :
  contents V j (sketches c) → v < n →
  ∃ c', update_sketch c (base + v) idx = Ok c' ∧ same_but_sketches c c' ∧
    contents (fun_upd V v (toggle idx (V v))) j (sketches c').
Proof.
  intros Hc Hv. destruct (Hc v Hv) as (s & Hs & Hr & Hg & Hj).
  unfold update_sketch. rewrite (arr_get_Ok _ _ _ Hs). cbn [mbind outcome_bind].
  assert (base + v < length (sketches c)) as Hlt by by eapply lookup_lt_Some.
  eexists. split; [done|]. split.
  - split; [by destruct c|]. simpl. split; [by rewrite length_insert|].
    intros i Hi. by rewrite list_lookup_insert_ne by lia.
  - intros w Hw. simpl. unfold fun_upd. destruct (decide (w = v)) as [->|Hne].
    + rewrite list_lookup_insert_eq by done. eexists. split; [done|].
      split_and!; [by apply represents_update|done|done].
    + rewrite list_lookup_insert_ne by lia. by apply Hc.
Qed.

(** A list of pairs of a node and its neighbour, one update each. *)
Lemma updates_contents V j c (ps : list (nat * nat)) :
  contents V j (sketches c) → Forall (λ p, p.1 < n) ps →
  ∃ c', outcome_fold (λ c p, update_sketch c (base + p.1) (concat_pairing_fn p.1 p.2)) c ps = Ok c' ∧
    same_but_sketches c c' ∧
    contents (λ v, toggle_all (node_indices ps v) (V v)) j (sketches c').
Proof.
  revert V c. induction ps as [|[v d] ps IH]; intros V c Hc Hall.
  { exists c. split; [done|]. split; [apply same_but_sketches_refl|done]. }
  apply list.Forall_cons in Hall as [Hv Hall]. cbn [outcome_fold fst snd] in *.
  destruct (update_contents V j c v (concat_pairing_fn v d) Hc Hv) as (c1 & -> & Hs1 & Hc1).
  cbn [mbind outcome_bind]. destruct (IH _ c1 Hc1 Hall) as (c2 & -> & Hs2 & Hc2).
  exists c2. split; [done|]. split; [by eapply same_but_sketches_trans|].
  eapply contents_ext; [|exact Hc2]. intros w Hw. unfold fun_upd, node_indices.
  destruct (decide (w = v)) as [->|Hne].
  - by rewrite filter_cons_True by done.
  - by rewrite filter_cons_False by (simpl; congruence).
Qed.

(** The updates of all positions of an array of directed edges. *)
Lemma filter_fold_ok E j c (edges es : list Edge) (l : list nat) :
  contents (incident E) j (sketches c) → l ≡ₚ seq 0 (length edges) →
  edges ≡ₚ es ++ ((λ e, mkEdge (dst e) (src e)) <$> es) →
  Forall (λ e, src e < n ∧ dst e < n ∧ src e ≠ dst e) es →
  ∃ c', outcome_fold (MC.filter_update base edges) c l = Ok c' ∧ same_but_sketches c c' ∧
    contents (incident (toggle_all (edge_index <$> es) E)) j (sketches c').
Proof.
  intros Hc Hl Hed Hall.
  set (ps := (λ i, (src (edges !!! i), dst (edges !!! i))) <$> l).
  assert (ps ≡ₚ concat (both_ways <$> es)) as Hps.
  { unfold ps. rewrite Hl.
    assert ((λ i, (src (edges !!! i), dst (edges !!! i))) <$> seq 0 (length edges) =
      (λ e, (src e, dst e)) <$> edges) as ->.
    { apply list_eq. intros i. rewrite !list_lookup_fmap. destruct (decide (i < length edges)).
      - rewrite lookup_seq_lt by done. simpl. destruct (lookup_lt_is_Some_2 edges i) as [e He]; [done|].
        by rewrite He, (list_lookup_total_correct _ _ _ He).
      - rewrite lookup_seq_ge, (lookup_ge_None_2 edges) by lia. done. }
    rewrite Hed. clear. induction es as [|e es IH]; [done|].
    rewrite fmap_app, !fmap_cons, concat_cons. simpl.
    rewrite fmap_app in IH. rewrite <- IH. f_equiv. symmetry. apply Permutation_middle. }
  assert (outcome_fold (MC.filter_update base edges) c l =
    outcome_fold (λ c p, update_sketch c (base + p.1) (concat_pairing_fn p.1 p.2)) c ps) as ->.
  { unfold ps. rewrite outcome_fold_fmap. assert (Forall (λ i, i < length edges) l) as Hlt.
    { rewrite Hl. apply Forall_seq. lia. }
    clear - Hlt. revert c. induction l as [|i l IH]; intros c; [done|].
    apply list.Forall_cons in Hlt as [Hi Hlt]. cbn [outcome_fold].
    destruct (lookup_lt_is_Some_2 edges i Hi) as [e He].
    assert (MC.filter_update base edges c i = update_sketch c (base + src (edges !!! i))
      (concat_pairing_fn (src (edges !!! i)) (dst (edges !!! i)))) as ->.
    { unfold MC.filter_update. by rewrite (arr_get_Ok _ _ _ He), (list_lookup_total_correct _ _ _ He). }
    cbn [fst snd]. destruct (update_sketch c _ _); [|done]. by apply IH. }
  destruct (updates_contents (incident E) j c ps Hc) as (c' & Hrun & Hs & Hc').
  { rewrite Hps. apply Forall_concat, Forall_fmap. eapply Forall_impl; [exact Hall|].
    intros e (Hq1 & Hq2 & _). by repeat constructor. }
  exists c'. split; [done|]. split; [done|]. eapply contents_ext; [|exact Hc'].
  intros v Hv. rewrite <- (toggle_both_ways n n_ok) by done. apply toggle_all_perm.
  unfold node_indices. by rewrite Hps.
Qed.
End effect.
