(* ===== verification/MCQuery.v ===== *)
(** * Queries of the minimum cut algorithm: src/src/mc_sketch_alg.cpp

    What every operation of [MCSketchAlg] does to its sketch graphs, and what the
    forests of a graph are: forests of what was left of it, complete unless the
    samples ran out, which no caller is told. *)

From Stdlib Require Import NArith Lia.
From stdpp Require Import base list gmap sets numbers relations.
From S2P Require Import Prelude Float64 Util Bucket Sketch XXHash Concrete SketchSpec Dsu Graph Configuration CCSketchAlg Partition ReturnTypes MergeInstr Boruvka BoruvkaRound BoruvkaThreads BoruvkaLoop CCQuery MCSketchAlg MCFilter.

Section mc.
Context `{BuildConfig, Libm, Hashing}.
Context (n : nat) (n_ok : (N.of_nat n < 2 ^ 32)%N).
Implicit Types (m : MCSketchAlg) (c : CCSketchAlg) (E : gset N) (Es : nat → gset N) (J : nat → nat).

Lemma mc_n_le : (N.of_nat n ≤ 2 ^ 32)%N.
Proof. lia. Qed.

Record mc_run_ok (q : QueryRun) : Prop := {
  mr_partition : partition_ok mc_get_ith_partition n (q_threads q);
  mr_zero : zero_order (q_schedule q) ≡ₚ seq 0 n;
  mr_map : ∀ r l, map_order (merge_sched (q_schedule q) r) l ≡ₚ l;
  mr_components : q_components_order q ≡ₚ seq 0 n;
}.

(** Sketch graph [g] holds the edges [Es g] and has used [J g] samples. *)
Record mc_ok Es J m : Prop := {
  mo_n : num_vertices (core m) = n;
  mo_dsu : dsu_state_ok n (dsu (core m)) (spanning_forest (core m));
  mo_shared : shared_dsu_valid (core m) = dsu_valid (core m);
  mo_graph : ∀ g, g < num_sketch_graphs m → graph_ok n (Es g);
  mo_sketches : ∀ g, g < num_sketch_graphs m →
    contents n (g * n) (cc_sketch (core m)) (incident (Es g)) (J g) (sketches (core m));
  mo_length : 0 < num_sketch_graphs m → length (sketches (core m)) = num_sketch_graphs m * n;
  mo_num : num_sketch_graphs m ≤ max_sketch_graphs m;
  mo_delta : ∀ t s, delta_sketches (core m) !! t = Some s →
    sketch_wf s ∧ geometry s = geometry (cc_sketch (core m));
  mo_fresh : calc_bkt_per_col (calc_vector_length (N.of_nat n)) < 64;
}.

(** What [dsu_valid] should promise: the union-find answers for graph 0. *)
Definition mc_cached Es m : Prop :=
  dsu_valid (core m) = true → cached_answer n (Es 0) (dsu (core m)) (spanning_forest (core m)).

Definition upd_graph {X} (f : nat → X) (g : nat) (x : X) (i : nat) : X :=
  if decide (i = g) then x else f i.

Lemma upd_graph_eq {X} (f : nat → X) g x : upd_graph f g x g = x.
Proof. unfold upd_graph. by rewrite decide_True. Qed.

Lemma upd_graph_ne {X} (f : nat → X) g x i : i ≠ g → upd_graph f g x i = f i.
Proof. intros Hne. unfold upd_graph. by rewrite decide_False. Qed.

(** The sketches of another graph are elsewhere in the array. *)
Lemma contents_elsewhere E j g g' (fresh : Sketch) (sks sks' : list Sketch) :
  g' ≠ g → (∀ i, ¬ (g * n ≤ i < g * n + n) → sks' !! i = sks !! i) →
  contents n (g' * n) fresh (incident E) j sks → contents n (g' * n) fresh (incident E) j sks'.
Proof.
  intros Hne Ho Hc v Hv. destruct (Hc v Hv) as (s & Hs & Hrest). exists s. split; [|done].
  rewrite Ho; [done|]. nia.
Qed.

(** *** The emulation on one graph *)

Lemma emulate_ok Es J m g q :
  mc_ok Es J m → g < num_sketch_graphs m → mc_run_ok q → checksum_sound (cc_seed (core m)) (Es g) →
  J g < num_samples (cc_sketch (core m)) →
  ∃ res c', MC.emulate (g * n) q (core m) = (res, c') ∧ same_config (core m) c' ∧
    dsu_valid c' = dsu_valid (core m) ∧ shared_dsu_valid c' = shared_dsu_valid (core m) ∧
    mc_ok Es (upd_graph J g (S (J g))) (set_core m c') ∧
    partial_answer n (Es g) (dsu c') (spanning_forest c') ∧
    ((res = Ok tt ∧ cached_answer n (Es g) (dsu c') (spanning_forest c') ∧ update_locked c' = false) ∨
     (∃ e, res = Throw e ∧ out_of_samples e ∧ update_locked c' = true)).
Proof.
  intros Hok Hg Hq Hsound HJ. pose proof Hok as [Hn [Hwf Hdn Hfa] Hsh HE Hsk Hlen Hnum Hd Hb].
  pose proof (Hsk g Hg) as Hc. apply (contents_nodes n mc_n_le) in Hc as [Hnodes Hsmp].
  destruct (boruvka_rounds_ok n n_ok (Es g) (HE g Hg) (g * n) (cc_sketch (core m))
    mc_get_ith_partition (q_threads q) (mr_partition q Hq) Hsound (cc_sketch_fresh n (core m) Hb Hn)
    (cc_samples_pos n n_ok (core m)) (q_schedule q) (mr_map q Hq) (J g) (dsu (core m)) (sketches (core m))
    (last_query_rounds (core m))) as (res & b & Hrun & [Hpa Hres] & Hnodes' & Hsmp' & [Hl Ho]);
    [done|apply Hq|done..|].
  unfold MC.emulate. cbn [num_vertices set_locked dsu sketches last_query_rounds].
  change (cc_sketch (set_locked (core m) true)) with (cc_sketch (core m)). rewrite Hn, Hrun.
  assert (∀ c', same_config (core m) c' → dsu c' = b_dsu b → spanning_forest c' = b_forest b →
    sketches c' = b_sketches b → shared_dsu_valid c' = dsu_valid c' →
    mc_ok Es (upd_graph J g (S (J g))) (set_core m c')) as Hok'.
  { intros c' Hsame Hdsu Hfo Hsks Hsh'. pose proof (cc_sketch_same _ _ Hsame) as Hcs.
    destruct Hsame as (Hsn & _ & _ & Hsd). constructor; simpl; try done; try congruence.
    - rewrite Hdsu, Hfo. by destruct Hpa.
    - intros g' Hg'. rewrite Hcs, Hsks. destruct (decide (g' = g)) as [->|Hne].
      + rewrite upd_graph_eq. by apply (contents_nodes n mc_n_le).
      + rewrite upd_graph_ne by done. eapply contents_elsewhere; [done|exact Ho|]. by apply Hsk.
    - intros Hpos. rewrite Hsks, Hl. by apply Hlen.
    - rewrite Hsd, Hcs. done. }
  destruct Hres as [(-> & Hans & _)|(i & ->)].
  - eexists _, _. split; [reflexivity|]. split; [done|]. do 2 (split; [done|]).
    split; [by apply Hok'|]. split; [done|]. by left.
  - eexists _, _. split; [reflexivity|]. split; [done|]. do 2 (split; [done|]).
    split; [by apply Hok'|]. split; [done|]. right. eexists. split; [done|].
    split; [by eexists _, _, _|done].
Qed.

(** *** A forest of the graph *)

(** [sf] is a forest of edges of [E], every edge listed once, smaller endpoint
    first. *)
Record forest_of E (sf : SpanningForest) : Prop := {
  fo_nodup : NoDup (sf_indices sf);
  fo_sub : list_to_set (sf_indices sf) ⊆ E;
  fo_forest : forest n (list_to_set (sf_indices sf));
  fo_edges : ∀ e, e ∈ edges sf → src e < dst e < n;
}.

Lemma partial_forest E d f : partial_answer n E d f → forest_of E (new_SpanningForest n f).
Proof.
  intros [[_ _ Hfa] Hc Hsub Hfor].
  destruct (new_SpanningForest_ok n n_ok (forest_edges f) d f Hfa) as [P1 P2 P3 _ P5];
    [by constructor|].
  constructor; [done|set_solver|done..].
Qed.

Lemma new_SpanningForest_fresh nv f : has_adjacency (new_SpanningForest nv f) = false.
Proof. done. Qed.

Lemma mc_calc_spanning_forest_ok Es J m g q :
  mc_ok Es J m → g < num_sketch_graphs m → mc_run_ok q → checksum_sound (cc_seed (core m)) (Es g) →
  J g < num_samples (cc_sketch (core m)) →
  ∃ res sf m', MC.k_boruvka_emulation q g m = (res, m') ∧
    MC.calc_spanning_forest q g m = (Ok sf, m') ∧ same_config (core m) (core m') ∧
    num_sketch_graphs m' = num_sketch_graphs m ∧ max_sketch_graphs m' = max_sketch_graphs m ∧
    dsu_valid (core m') = dsu_valid (core m) ∧
    mc_ok Es (upd_graph J g (S (J g))) m' ∧ forest_of (Es g) sf ∧ has_adjacency sf = false ∧
    partial_answer n (Es g) (dsu (core m')) (spanning_forest (core m')) ∧
    ((res = Ok tt ∧ update_locked (core m') = false ∧ spanning_forest_of n (Es g) sf ∧
      cached_answer n (Es g) (dsu (core m')) (spanning_forest (core m'))) ∨
     (∃ e, res = Throw e ∧ out_of_samples e ∧ update_locked (core m') = true)).
Proof.
  intros Hok Hg Hq Hs HJ.
  destruct (emulate_ok Es J m g q Hok Hg Hq Hs HJ)
    as (res & c' & Hem & Hsame & Hv & _ & Hok' & Hpa & Hcase).
  pose proof (mo_n _ _ _ Hok) as Hn. pose proof (mo_n _ _ _ Hok') as Hn'. simpl in Hn'.
  unfold MC.calc_spanning_forest, MC.k_boruvka_emulation. rewrite Hn, Hem.
  exists res, (new_SpanningForest n (spanning_forest c')), (set_core m c').
  split; [done|]. split.
  { destruct Hcase as [(-> & _)|(e & -> & (a & b & d & ->) & _)]; simpl; by rewrite Hn'. }
  split_and!; try done; [by eapply partial_forest|].
  destruct Hcase as [(-> & Hans & Hul)|(e & -> & He & Hul)]; [left|right; by exists e].
  split_and!; try done. apply (new_SpanningForest_ok n n_ok (Es g) (dsu c')); [|done]. apply Hpa.
Qed.

(** *** Deleting it *)

Definition swapped (es : list Edge) : list Edge := (λ e, mkEdge (dst e) (src e)) <$> es.

(** The threads apply every edge exactly once. *)
Definition filter_splits (T : nat) (edges : list Edge) : Prop :=
  ∃ progs, outcome_list (filter_thread mc_get_ith_partition T edges <$> seq 0 T) = Ok progs ∧
    concat progs ≡ₚ seq 0 (length edges).

(** [adj_ok]: a stored sorted adjacency is that of the forest. *)
Definition adj_ok (sort : list Edge → list Edge) (sf : SpanningForest) : Prop :=
  has_adjacency sf = true → sorted_adjacency sf = sort (edges sf ++ swapped (edges sf)).

Lemma get_sorted_adjacency_eq sort sf :
  adj_ok sort sf →
  ∃ sf', get_sorted_adjacency sort sf = (sort (edges sf ++ swapped (edges sf)), sf') ∧
    edges sf' = edges sf ∧ adj_ok sort sf'.
Proof.
  intros Hadj. unfold get_sorted_adjacency. destruct (has_adjacency sf) eqn:Hh.
  - exists sf. rewrite Hadj by done. done.
  - eexists. split; [done|]. split; [done|]. by intros _.
Qed.

Lemma edge_index_indices sf : edge_index <$> edges sf = sf_indices sf.
Proof. done. Qed.

Lemma filter_sf_edges_ok Es J m g sort T sched sf :
  mc_ok Es J m → g < num_sketch_graphs m → (∀ l, sort l ≡ₚ l) → adj_ok sort sf →
  (∀ e, e ∈ edges sf → src e < dst e < n) →
  filter_splits T (sort (edges sf ++ swapped (edges sf))) →
  ∃ sf' m', MC.filter_sf_edges sort T sched sf g m = Ok (sf', m') ∧
    edges sf' = edges sf ∧ adj_ok sort sf' ∧ same_config (core m) (core m') ∧
    num_sketch_graphs m' = num_sketch_graphs m ∧ max_sketch_graphs m' = max_sketch_graphs m ∧
    dsu_valid (core m') = false ∧
    mc_ok (upd_graph Es g (toggle_all (sf_indices sf) (Es g))) J m'.
Proof.
  intros Hok Hg Hsort Hadj Hed (progs & Hprogs & Hperm).
  pose proof Hok as [Hn Hdsu Hsh HE Hsk Hlen Hnum Hd Hb].
  destruct (get_sorted_adjacency_eq sort sf Hadj) as (sf' & Hget & Hes & Hadj').
  unfold MC.filter_sf_edges. rewrite Hget, Hprogs. cbn [mbind outcome_bind].
  cbn [num_vertices set_valid]. rewrite Hn.
  destruct (filter_fold_ok n mc_n_le (g * n) (cc_sketch (core m)) (Es g) (J g)
    (set_valid (core m) false) (sort (edges sf ++ swapped (edges sf))) (edges sf)
    (interleave sched progs).*2) as (c' & -> & (Hc' & Hl & Ho) & Hcont).
  { by apply Hsk. } { by rewrite interleave_perm. } { apply Hsort. }
  { apply list.Forall_forall. intros e He. specialize (Hed e He). lia. }
  cbn [mbind outcome_bind]. rewrite edge_index_indices in Hcont. simpl in Hl, Ho.
  exists sf', (set_core m c'). split; [done|]. do 2 (split; [done|]).
  assert (same_config (core m) c') as Hsame by by rewrite Hc'.
  pose proof (cc_sketch_same _ _ Hsame) as Hcs.
  split; [done|]. do 2 (split; [done|]). split; [by rewrite Hc'|].
  constructor; cbn [core set_core num_sketch_graphs max_sketch_graphs].
  - by rewrite Hc'.
  - by rewrite Hc'.
  - by rewrite Hc'.
  - intros g' Hg'. unfold upd_graph. case_decide; [|by apply HE]. subst g'.
    rewrite <- edge_index_indices.
    assert (∀ es E, graph_ok n E → (∀ e, e ∈ es → src e < dst e < n) →
      graph_ok n (toggle_all (edge_index <$> es) E)) as Hgo.
    { clear. intros es. induction es as [|e es IH]; intros E HE Hes; [done|].
      simpl. apply IH; [|set_solver]. specialize (Hes e ltac:(set_solver)).
      apply graph_ok_toggle; (done || lia). }
    apply Hgo; [by apply HE|done].
  - intros g' Hg'. rewrite Hcs. destruct (decide (g' = g)) as [->|Hne].
    + by rewrite upd_graph_eq.
    + rewrite upd_graph_ne by done. eapply contents_elsewhere; [done|exact Ho|]. by apply Hsk.
  - intros Hpos. rewrite Hl. by apply Hlen.
  - done.
  - rewrite Hcs, Hc'. done.
  - done.
Qed.

(** *** Peeling forests *)

Section peel.
Context (sort : list Edge → list Edge) (Hsort : ∀ l, sort l ≡ₚ l).
Context (g : nat).

(** The threads of every filter of the run apply each edge once. *)
Definition filters_split (runs : list MC.ForestRun) : Prop :=
  ∀ run es, run ∈ runs → NoDup es → (∀ e, e ∈ es → src e < dst e < n) →
    filter_splits (q_threads (MC.f_query run)) (sort (es ++ swapped es)).

(** Some emulation of the peeling throws, which [calc_spanning_forest] hides. *)
Fixpoint ran_out (runs : list MC.ForestRun) m : Prop :=
  match runs with
  | [] => False
  | run :: runs =>
      (∃ e, (MC.k_boruvka_emulation (MC.f_query run) g m).1 = Throw e) ∨
      (let '(res, m) := MC.calc_spanning_forest (MC.f_query run) g m in
       match (sf ← res; MC.filter_sf_edges sort (q_threads (MC.f_query run)) (MC.f_filter run) sf g m) with
       | Ok r => ran_out runs r.2
       | Throw _ => False
       end)
  end.

(** Each forest is one of what the earlier ones left. *)
Fixpoint forests_of E (SFs : list SpanningForest) : Prop :=
  match SFs with
  | [] => True
  | sf :: SFs => forest_of E sf ∧ forests_of (E ∖ list_to_set (sf_indices sf)) SFs
  end.

Lemma forests_of_edges E SFs sf :
  forests_of E SFs → sf ∈ SFs → ∀ e, e ∈ edges sf → src e < dst e < n.
Proof.
  revert E. induction SFs as [|sf' SFs IH]; intros E; [set_solver|].
  intros [Hsf Hd] [->|Hin]%elem_of_cons; [apply (fo_edges _ _ Hsf)|by eapply IH].
Qed.

Lemma mc_ok_ext Es Es' J J' m :
  (∀ i, Es i = Es' i) → (∀ i, J i = J' i) → mc_ok Es J m → mc_ok Es' J' m.
Proof.
  intros HE HJ [M1 M2 M3 M4 M5 M6 M7 M8 M9]. constructor; try done.
  - intros i Hi. rewrite <- HE. by apply M4.
  - intros i Hi. rewrite <- HE, <- HJ. by apply M5.
Qed.

Lemma edges_indices_NoDup E sf : forest_of E sf → NoDup (edges sf).
Proof. intros [Hnd _ _ _]. unfold sf_indices in Hnd. by eapply NoDup_fmap_1. Qed.

Lemma forests_of_NoDup E SFs sf : forests_of E SFs → sf ∈ SFs → NoDup (edges sf).
Proof.
  revert E. induction SFs as [|sf' SFs IH]; intros E; [set_solver|].
  intros [Hsf Hd] [->|Hin]%elem_of_cons; [by eapply edges_indices_NoDup|by eapply IH].
Qed.

(** The state between two steps of the peeling. *)
Record peel_state Es J m0 m : Prop := {
  ps_ok : mc_ok Es J m;
  ps_config : same_config (core m0) (core m);
  ps_num : num_sketch_graphs m = num_sketch_graphs m0;
}.

Lemma mc_peel_forests_ok Es J m runs SFs0 mr :
  mc_ok Es J m → g < num_sketch_graphs m → Forall (λ run, mc_run_ok (MC.f_query run)) runs →
  filters_split runs → checksum_sound (cc_seed (core m)) (Es g) →
  J g + length runs ≤ num_samples (cc_sketch (core m)) →
  ∃ SFs mr' m', MC.peel_forests sort runs g SFs0 mr m = Ok (SFs0 ++ SFs, mr', m') ∧
    length SFs = length runs ∧ forests_of (Es g) SFs ∧ Forall (adj_ok sort) SFs ∧
    (ran_out runs m ∨ disjoint_forests n (Es g) SFs) ∧
    (runs = [] ∨ dsu_valid (core m') = false) ∧
    peel_state (upd_graph Es g (toggle_all (concat (sf_indices <$> SFs)) (Es g)))
      (upd_graph J g (J g + length runs)) m m'.
Proof.
  revert Es J m SFs0 mr. induction runs as [|run runs IH]; intros Es J m SFs0 mr Hok Hg Hq Hsp Hs HJ.
  { exists [], mr, m. rewrite app_nil_r. split_and!; try done; [by right|by left|].
    constructor; [|done..]. eapply mc_ok_ext; [| |exact Hok].
    - intros i. unfold upd_graph. simpl. by case_decide; subst.
    - intros i. unfold upd_graph. simpl. case_decide; subst; lia. }
  apply list.Forall_cons in Hq as [Hq Hqs]. cbn [length] in HJ. cbn [MC.peel_forests ran_out].
  destruct (mc_calc_spanning_forest_ok Es J m g (MC.f_query run) Hok Hg Hq Hs ltac:(lia))
    as (res & sf & m1 & Hem & -> & Hsame1 & Hnum1 & _ & _ & Hok1 & Hsf & Hadj & _ & Hcase).
  cbn [mbind outcome_bind].
  destruct (filter_sf_edges_ok Es _ m1 g sort (q_threads (MC.f_query run)) (MC.f_filter run) sf Hok1)
    as (sf' & m2 & -> & Hes & Hadj' & Hsame2 & Hnum2 & _ & Hv2 & Hok2);
    [lia|done|intros Ht; congruence|apply Hsf|apply Hsp; [set_solver|by eapply edges_indices_NoDup|apply Hsf]|].
  cbn [mbind outcome_bind fst snd].
  assert (sf_indices sf' = sf_indices sf) as Hidx by (unfold sf_indices; by rewrite Hes).
  pose proof (toggle_all_difference _ _ (fo_nodup _ _ Hsf) (fo_sub _ _ Hsf)) as Hdiff.
  pose proof (same_config_trans _ _ _ Hsame1 Hsame2) as Hsame12.
  destruct (IH _ _ m2 (SFs0 ++ [sf']) (last_query_rounds (core m1) `max` mr) Hok2)
    as (SFs & mr' & m3 & Hpeel & Hlen & Hfo & Hadjs & Hout & Hv3 & [Hok3 Hsame3 Hnum3]).
  { lia. } { done. } { intros run' es Hin. apply Hsp. set_solver. }
  { destruct Hsame12 as (_ & -> & _). rewrite upd_graph_eq.
    eapply checksum_sound_mono; [exact Hs|]. rewrite Hdiff. set_solver. }
  { rewrite (cc_sketch_same _ _ Hsame12), upd_graph_eq. lia. }
  rewrite upd_graph_eq in *. exists (sf' :: SFs), mr', m3.
  split_and!; [by rewrite Hpeel, <- app_assoc|simpl; lia| | | | |].
  - split; [|by rewrite Hidx, <- Hdiff]. destruct Hsf as [F1 F2 F3 F4].
    constructor; rewrite ?Hidx, ?Hes; done.
  - by constructor.
  - destruct Hout as [Hout|Hout]; [left; by right|].
    destruct Hcase as [(_ & _ & Hspan & _)|(e & -> & _)]; [right|left; left; by rewrite Hem; exists e].
    split; [|by rewrite Hidx, <- Hdiff]. destruct Hspan as [S1 S2 S3 S4 S5].
    constructor; rewrite ?Hidx, ?Hes; done.
  - right. destruct Hv3 as [->|]; [|done]. by injection Hpeel as _ _ <-.
  - constructor; [|by eapply same_config_trans|congruence].
    eapply mc_ok_ext; [| |exact Hok3].
    + intros i. rewrite fmap_cons, concat_cons, toggle_all_app, Hidx. unfold upd_graph.
      by repeat case_decide.
    + intros i. unfold upd_graph. repeat case_decide; simpl; (lia || done).
Qed.

Lemma mc_restore_forests_ok Es J m runs SFs :
  mc_ok Es J m → g < num_sketch_graphs m → length SFs = length runs →
  (∀ sf, sf ∈ SFs → NoDup (edges sf) ∧ ∀ e, e ∈ edges sf → src e < dst e < n) →
  Forall (adj_ok sort) SFs → filters_split runs →
  ∃ SFs' m', MC.restore_forests sort runs g SFs m = Ok (SFs', m') ∧
    edges <$> SFs' = edges <$> SFs ∧
    peel_state (upd_graph Es g (toggle_all (concat (sf_indices <$> SFs)) (Es g))) J m m'.
Proof.
  revert Es m SFs. induction runs as [|run runs IH]; intros Es m [|sf SFs] Hok Hg Hlen Hed Hadj Hsp;
    try done.
  { exists [], m. split_and!; try done. constructor; [|done..].
    eapply mc_ok_ext; [|done|exact Hok]. intros i. unfold upd_graph. simpl. by case_decide; subst. }
  apply list.Forall_cons in Hadj as [Ha Hadj]. cbn [MC.restore_forests].
  destruct (Hed sf ltac:(set_solver)) as [Hnd Hsf].
  destruct (filter_sf_edges_ok Es J m g sort (q_threads (MC.f_query run)) (MC.f_restore run) sf Hok Hg
    Hsort Ha Hsf (Hsp run _ ltac:(set_solver) Hnd Hsf))
    as (sf' & m1 & -> & Hes & _ & Hsame & Hnum & _ & _ & Hok1).
  cbn [mbind outcome_bind fst snd].
  destruct (IH _ m1 SFs Hok1) as (SFs' & m2 & -> & Hes' & [Hok2 Hsame2 Hnum2]).
  { lia. } { simpl in Hlen. lia. } { intros sf0 Hin. apply Hed. set_solver. } { done. }
  { intros run' es Hin. apply Hsp. set_solver. }
  cbn [mbind outcome_bind fst snd]. exists (sf' :: SFs'), m2. split; [done|].
  split; [by rewrite !fmap_cons, Hes, Hes'|].
  constructor; [|by eapply same_config_trans|congruence].
  eapply mc_ok_ext; [|done|exact Hok2].
  intros i. rewrite fmap_cons, concat_cons, toggle_all_app, upd_graph_eq. unfold upd_graph.
  by repeat case_decide.
Qed.

Lemma forests_same_edges E SFs SFs' :
  edges <$> SFs' = edges <$> SFs →
  (forests_of E SFs → forests_of E SFs') ∧
  (disjoint_forests n E SFs → disjoint_forests n E SFs').
Proof.
  revert E SFs'. induction SFs as [|sf SFs IH]; intros E [|sf' SFs']; try done.
  rewrite !fmap_cons. intros [= Hes Hrest].
  assert (sf_indices sf' = sf_indices sf) as Hidx by (unfold sf_indices; by rewrite Hes).
  split; intros [Hsf Hd]; (split; [|rewrite Hidx; by apply IH]).
  - destruct Hsf as [F1 F2 F3 F4]. constructor; rewrite ?Hidx, ?Hes; done.
  - destruct Hsf as [F1 F2 F3 F4 F5]. constructor; rewrite ?Hidx, ?Hes; done.
Qed.

Lemma calc_disjoint_ok Es J m runs :
  mc_ok Es J m → g < num_sketch_graphs m → Forall (λ run, mc_run_ok (MC.f_query run)) runs →
  filters_split runs → checksum_sound (cc_seed (core m)) (Es g) →
  J g + length runs ≤ num_samples (cc_sketch (core m)) →
  ∃ SFs m', MC.calc_disjoint_spanning_forests sort runs g m = Ok (SFs, m') ∧
    length SFs = length runs ∧ forests_of (Es g) SFs ∧
    (ran_out runs m ∨ disjoint_forests n (Es g) SFs) ∧
    peel_state Es (upd_graph J g (J g + length runs)) m m'.
Proof.
  intros Hok Hg Hq Hsp Hs HJ. unfold MC.calc_disjoint_spanning_forests.
  destruct (mc_peel_forests_ok Es J m runs [] 0 Hok Hg Hq Hsp Hs HJ)
    as (SFs & mr & m1 & -> & Hlen & Hfo & Hadj & Hout & _ & [Hok1 Hsame1 Hnum1]).
  cbn [mbind outcome_bind fst snd app].
  destruct (mc_restore_forests_ok _ _ m1 runs SFs Hok1 ltac:(lia) Hlen) as
    (SFs' & m2 & -> & Hes & [Hok2 Hsame2 Hnum2]).
  { intros sf Hin. split; [by eapply forests_of_NoDup|by eapply forests_of_edges]. }
  { done. } { done. }
  cbn [mbind outcome_bind fst snd].
  destruct (forests_same_edges (Es g) SFs SFs' Hes) as [Hf1 Hf2].
  eexists SFs', _. split; [done|].
  split. { rewrite <- Hlen, <- (length_fmap edges SFs'), Hes. by rewrite length_fmap. }
  split; [by apply Hf1|]. split; [destruct Hout; [by left|right; by apply Hf2]|].
  rewrite upd_graph_eq, toggle_all_involutive in Hok2.
  assert (mc_ok Es (upd_graph J g (J g + length runs)) m2) as Hok3.
  { eapply mc_ok_ext; [|done|exact Hok2]. intros i. unfold upd_graph. by repeat case_decide; subst. }
  destruct Hok3 as [M1 M2 M3 M4 M5 M6 M7 M8 M9]. constructor; [by constructor| |by rewrite <- Hnum1, <- Hnum2].
  exact (same_config_trans _ _ _ Hsame1 Hsame2).
Qed.
End peel.

(** *** Without samples *)

(** Round zero on sketches that gave all their samples: nothing is learnt. *)
Lemma round_zero_exhausted order base d f gs rd b er (fresh : Sketch) sks :
  (∀ v, v ∈ order → ∃ s, sks !! (base + v) = Some s ∧ num_samples s ≤ sample_idx s) →
  ∃ er', foldl (round_zero_step base) (Ok (mkRound d f gs rd b er, sks)) order =
    Ok (mkRound d f gs rd b er', sks) ∧ (er' = er ∧ order = [] ∨ ∃ e, er' = Some e ∧ out_of_samples e).
Proof.
  revert er. induction order as [|v order IH]; intros er Hall; [exists er; split; [done|by left]|].
  destruct (Hall v ltac:(set_solver)) as (s & Hs & Hidx).
  assert (sample s = (Throw (OutOfSamplesException (seed s) (num_samples s) (sample_idx s)), s)) as Hsmp.
  { by apply sample_exhausted. }
  assert (round_zero_step base (Ok (mkRound d f gs rd b er, sks)) v =
    Ok (mkRound d f gs rd b (Some (OutOfSamplesException (seed s) (num_samples s) (sample_idx s))), sks))
    as Hstep.
  { unfold round_zero_step. cbn [mbind outcome_bind]. rewrite (arr_get_Ok _ _ _ Hs).
    cbn [mbind outcome_bind]. unfold sample_caught, sample_supernode. rewrite Hsmp. simpl.
    by rewrite list_insert_id. }
  cbn [foldl]. rewrite Hstep.
  destruct (IH (Some (OutOfSamplesException (seed s) (num_samples s) (sample_idx s))))
    as (er' & Hrun & Her); [set_solver|].
  exists er'. split; [exact Hrun|]. right.
  destruct Her as [[-> _]|Her]; [|done]. eexists. split; [done|]. by eexists _, _, _.
Qed.

(** A query of a graph whose samples are used up returns the empty forest. *)
Lemma calc_spanning_forest_exhausted Es J m g q :
  mc_ok Es J m → g < num_sketch_graphs m → zero_order (q_schedule q) ≡ₚ seq 0 n → 0 < n →
  num_samples (cc_sketch (core m)) ≤ J g →
  ∃ sf m', MC.calc_spanning_forest q g m = (Ok sf, m') ∧ edges sf = [] ∧
    update_locked (core m') = true.
Proof.
  intros [Hn Hdsu Hsh HE Hsk Hlen Hnum Hd Hb] Hg Hzo Hpos HJ.
  unfold MC.calc_spanning_forest, MC.k_boruvka_emulation, MC.emulate.
  cbn [num_vertices set_locked dsu sketches last_query_rounds].
  change (cc_sketch (set_locked (core m) true)) with (cc_sketch (core m)). rewrite Hn.
  unfold boruvka_rounds. cbn [boruvka_loop]. unfold perform_boruvka_round, run_round_zero.
  rewrite decide_True by done. cbn [b_dsu b_forest b_sketches].
  destruct (round_zero_exhausted (zero_order (q_schedule q)) (g * n) (reset (dsu (core m)))
    (replicate n ∅) (replicate (q_threads q) (mkGlobal (cc_sketch (core m)) size_max 0))
    (replicate (q_threads q) false) false None (cc_sketch (core m)) (sketches (core m)))
    as (er & -> & Her).
  { intros v Hv. rewrite Hzo in Hv. apply elem_of_seq in Hv.
    destruct (Hsk g Hg v) as (s & Hs & _ & Hgeo & Hi); [lia|]. exists s. split; [done|].
    rewrite Hi. assert (num_samples s = num_samples (cc_sketch (core m))) as ->; [|done].
    exact (f_equal (λ x : N * nat * nat * nat * nat * nat, x.1.1.1.1.2) Hgeo). }
  destruct Her as [[_ Hnil]|(e & -> & (a & b & d & ->))].
  { exfalso. rewrite Hnil in Hzo. apply Permutation_length in Hzo.
    rewrite length_seq in Hzo. simpl in Hzo. lia. }
  cbn [r_err]. eexists _, _. split; [reflexivity|]. split; [|done]. cbn.
  unfold new_SpanningForest. cbn [edges]. rewrite Hn.
  assert (∀ l : list nat,
    (s ← l; mkEdge s <$> elements ((replicate n (∅ : gset nat)) !!! s)) = []) as Hnil; [|apply Hnil].
  intros l. induction l as [|s l IH]; [done|]. rewrite bind_cons.
  assert ((replicate n (∅ : gset nat)) !!! s = ∅) as ->.
  { rewrite list_lookup_total_alt. destruct (replicate n (∅ : gset nat) !! s) as [x|] eqn:Hx; [|done].
    by apply lookup_replicate in Hx as [-> _]. }
  rewrite elements_empty. simpl. exact IH.
Qed.

(** *** Ingestion *)

Lemma cc_sketch_core_fresh m :
  num_vertices (core m) = n → calc_bkt_per_col (calc_vector_length (N.of_nat n)) < 64 →
  represents (cc_sketch (core m)) ∅ ∧ sample_idx (cc_sketch (core m)) = 0.
Proof. intros Hn Hb. by apply (cc_sketch_fresh n (core m)). Qed.

(** A new graph is empty and the others are as they were. *)
Lemma create_sketch_graph_ok Es J m :
  mc_ok Es J m → num_sketch_graphs m < max_sketch_graphs m →
  let m' := MC.create_sketch_graph (num_sketch_graphs m) m in
  num_sketch_graphs m' = S (num_sketch_graphs m) ∧ same_config (core m) (core m') ∧
  mc_ok (upd_graph Es (num_sketch_graphs m) ∅) (upd_graph J (num_sketch_graphs m) 0) m'.
Proof.
  intros [Hn Hdsu Hsh HE Hsk Hlen Hnum Hd Hb] Hlt. unfold MC.create_sketch_graph.
  rewrite decide_False by lia. cbn zeta. set (k := num_sketch_graphs m) in *.
  split; [done|]. split; [done|]. rewrite Hn.
  assert (length (take (k * n) (sketches (core m))) = k * n) as Htake.
  { rewrite length_take. destruct k as [|k']; [lia|]. rewrite Hlen by lia. lia. }
  constructor; cbn [core num_sketch_graphs max_sketch_graphs]; try done.
  - intros g Hg. unfold upd_graph. case_decide; [|by apply HE; lia]. intros e. set_solver.
  - intros g Hg v Hv. cbn [sketches set_sketches].
    change (cc_sketch (set_sketches (core m) _)) with (cc_sketch (core m)).
    destruct (decide (g = k)) as [->|Hne].
    + rewrite !upd_graph_eq. rewrite lookup_app_r, Htake by lia.
      replace (k * n + v - k * n) with v by lia. rewrite list_lookup_fmap, lookup_seq_lt by done.
      eexists. split; [done|]. unfold cc_sketch. rewrite Hn. split; [|done].
      replace (incident ∅ v) with (∅ : gset N); [by apply represents_new_sketch|].
      symmetry. apply set_eq. intros e. rewrite elem_of_incident. set_solver.
    + rewrite !upd_graph_ne by done. destruct (Hsk g ltac:(lia) v Hv) as (s & Hs & Hrest).
      exists s. split; [|done]. rewrite lookup_app_l, lookup_take_lt by (rewrite ?Htake; nia). done.
  - intros _. cbn [sketches set_sketches]. rewrite length_app, Htake, length_fmap, length_seq. lia.
Qed.

Lemma new_mc_ok sd prio max cfg workers Es J :
  length prio = n → calc_bkt_per_col (calc_vector_length (N.of_nat n)) < 64 →
  mc_ok Es J (MC.allocate_worker_memory (MC.new_MCSketchAlg n sd prio max cfg) workers).
Proof.
  intros Hp Hb. destruct (new_eager_ok n mc_n_le sd prio cfg Hp) as [_ Hst _ _].
  constructor; cbn; try (done || lia).
  intros t s Hs. apply lookup_replicate in Hs as [-> _].
  split; [by apply new_sketch_wf|done].
Qed.

(** A batch for one node of one graph. *)
Lemma apply_update_batch_single_graph_ok Es J m thr g v dsts :
  mc_ok Es J m → g < num_sketch_graphs m → v < n → thr < length (delta_sketches (core m)) →
  update_locked (core m) = false →
  ∃ m', MC.apply_update_batch_single_graph m thr g v dsts = Ok m' ∧
    num_sketch_graphs m' = num_sketch_graphs m ∧
    contents n (g * n) (cc_sketch (core m'))
      (fun_upd (incident (Es g)) v (toggle_all (concat_pairing_fn v <$> dsts) (incident (Es g) v)))
      (J g) (sketches (core m')) ∧
    ∀ i, i ≠ g * n + v → sketches (core m') !! i = sketches (core m) !! i.
Proof.
  intros [Hn Hdsu Hsh HE Hsk Hlen Hnum Hd Hb] Hg Hv Ht Hul.
  unfold MC.apply_update_batch_single_graph. rewrite Hul, Hn.
  destruct (lookup_lt_is_Some_2 (delta_sketches (core m)) thr Ht) as [dl Hdl].
  destruct (Hd thr dl Hdl) as [Hdwf Hdg].
  destruct (Hsk g Hg v Hv) as (s & Hs & Hr & Hgeo & Hi).
  rewrite (arr_get_Ok _ _ _ Hdl). cbn [mbind outcome_bind]. rewrite (arr_get_Ok _ _ _ Hs).
  cbn [mbind outcome_bind].
  set (delta := foldl _ _ dsts).
  assert (represents delta (toggle_all (concat_pairing_fn v <$> dsts) ∅) ∧
          geometry delta = geometry dl) as [Hdr Hdg'].
  { unfold delta. rewrite <- (foldl_fmap update _ dsts (concat_pairing_fn v)).
    split; [by apply represents_update_all, represents_zero_contents|].
    by rewrite geometry_update_all. }
  assert (g * n + v < length (sketches (core m))) as Hlt by by eapply lookup_lt_Some.
  eexists. split; [done|]. split; [done|]. cbn. split.
  - intros w Hw. unfold fun_upd. destruct (decide (w = v)) as [->|Hne].
    + rewrite list_lookup_insert_eq by done. eexists. split; [done|].
      split; [|by split]. rewrite toggle_all_empty. apply represents_merge; [done..|congruence].
    + rewrite list_lookup_insert_ne by lia. by apply Hsk.
  - intros i Hi'. by rewrite list_lookup_insert_ne.
Qed.

(** An update of one graph toggles the edge there. The eager union-find answers for
    graph 0, so for another graph it must not be in use. *)
Lemma update_subgraph_ok Es J m g upd :
  mc_ok Es J m → mc_cached Es m → g < num_sketch_graphs m → upd_ok n upd →
  g = 0 ∨ dsu_valid (core m) = false →
  let Es' := upd_graph Es g (toggle (upd_index upd) (Es g)) in
  ∃ m', MC.update_subgraph g m upd = Ok m' ∧ num_sketch_graphs m' = num_sketch_graphs m ∧
    mc_ok Es' J m' ∧ mc_cached Es' m'.
Proof.
  intros [Hn Hdsu Hsh HE Hsk Hlen Hnum Hd Hb] Hca Hg (Hu & Hv & Hne) H0' Es'.
  assert (∃ c1, pre_insert (core m) upd = Ok c1 ∧ same_sketches (core m) c1 ∧ num_vertices c1 = n ∧
    dsu_state_ok n (dsu c1) (spanning_forest c1) ∧ shared_dsu_valid c1 = dsu_valid c1 ∧
    (dsu_valid c1 = true → cached_answer n (Es' 0) (dsu c1) (spanning_forest c1)))
    as (c1 & Hpre & Hsame & Hn1 & Hst1 & Hsh1 & Hca1).
  { destruct H0' as [->|Hv0].
    - destruct (pre_insert_ok n mc_n_le (Es 0) (core m) upd) as (c1 & Hrun & Hsame & [E1 E2 E3 E4]);
        [by constructor|done..|]. exists c1. split_and!; try done.
    - destruct (pre_insert_ok n mc_n_le ∅ (core m) upd) as (c1 & Hrun & Hsame & [E1 E2 E3 E4]);
        [constructor; try done; congruence|done..|]. exists c1. split_and!; try done.
      intros Hv1. exfalso. revert Hrun. unfold pre_insert. rewrite Hv0.
      destruct NO_EAGER_DSU; intros [= <-]; congruence. }
  destruct Hsame as (Hss & Hsd & Hsl & Hsc & Hse).
  assert (cc_sketch c1 = cc_sketch (core m)) as Hcs by (unfold cc_sketch; congruence).
  unfold MC.update_subgraph, MC.pre_insert. rewrite Hpre. cbn [mbind outcome_bind core set_core].
  rewrite Hn1. replace (n * g) with (g * n) by lia.
  destruct upd as [[u w] ty]. cbn [src dst edge] in *.
  assert (contents n (g * n) (cc_sketch c1) (incident (Es g)) (J g) (sketches c1)) as Hc.
  { rewrite Hss, Hcs. by apply Hsk. }
  destruct (update_contents n mc_n_le (g * n) (cc_sketch c1) _ (J g) c1 u (concat_pairing_fn u w) Hc Hu)
    as (c2 & -> & Hs2 & Hc2). cbn [mbind outcome_bind].
  destruct (update_contents n mc_n_le (g * n) (cc_sketch c1) _ (J g) c2 w (concat_pairing_fn u w) Hc2 Hv)
    as (c3 & -> & Hs3 & Hc3). cbn [mbind outcome_bind].
  pose proof (same_but_sketches_trans n (g * n) _ _ _ Hs2 Hs3) as (Hc13 & Hl13 & Ho13).
  exists (set_core m c3). split; [done|]. split; [done|]. split; [|by rewrite Hc13].
  assert (cc_sketch c3 = cc_sketch c1) as Hcs3 by by rewrite Hc13.
  constructor; cbn [core set_core num_sketch_graphs max_sketch_graphs]; try (rewrite Hc13; done).
  - intros g' Hg'. unfold Es', upd_graph. case_decide as Hgg; [subst g'|by apply HE].
    apply graph_ok_toggle; (done || by apply HE).
  - intros g' Hg'. rewrite Hcs3. unfold Es'. destruct (decide (g' = g)) as [->|Hneg].
    + rewrite upd_graph_eq. eapply contents_ext; [|exact Hc3]. intros x Hx.
      unfold fun_upd, upd_index. cbn [src dst edge].
      rewrite (incident_toggle n mc_n_le) by done. symmetry.
      destruct (decide (x = w)) as [->|Hxw].
      * rewrite decide_True by auto. by rewrite decide_False by auto.
      * destruct (decide (x = u)) as [->|Hxu]; [by rewrite decide_True by auto|].
        by rewrite decide_False by naive_solver.
    + rewrite upd_graph_ne by done. eapply contents_elsewhere; [done|exact Ho13|].
      rewrite Hss, Hcs. by apply Hsk.
  - intros Hpos. rewrite Hl13, Hss. by apply Hlen.
  - done.
  - rewrite Hcs3, Hcs, Hc13. cbn. rewrite Hsd. exact Hd.
  - done.
Qed.

(** *** Connectivity of graph 0 *)

Lemma reset_sample_states_ok Es J m :
  mc_ok Es J m → mc_ok Es (upd_graph J 0 0) (MC.reset_sample_states m).
Proof.
  intros [Hn Hdsu Hsh HE Hsk Hlen Hnum Hd Hb].
  constructor; cbn [core MC.reset_sample_states set_core num_sketch_graphs max_sketch_graphs]; try done.
  - intros g Hg v Hv. cbn [sketches set_sketches]. rewrite Hn.
    change (cc_sketch (set_sketches (core m) _)) with (cc_sketch (core m)).
    destruct (Hsk g Hg v Hv) as (s & Hs & Hr & Hgeo & Hi).
    pose proof (lookup_lt_Some _ _ _ Hs) as Hlt.
    assert (length (reset_sample_state <$> take n (sketches (core m))) = n) as Ht.
    { rewrite length_fmap, length_take, Hlen by lia. nia. }
    destruct (decide (g = 0)) as [->|Hne].
    + rewrite upd_graph_eq, lookup_app_l by lia. rewrite list_lookup_fmap, lookup_take_lt by lia.
      rewrite Hs. eexists. split; [done|]. split_and!; [by apply represents_set_sample_idx|done|done].
    + rewrite upd_graph_ne by done. rewrite lookup_app_r by nia. rewrite Ht, lookup_drop.
      replace (n + (g * n + v - n)) with (g * n + v) by nia. by exists s.
  - intros Hpos. cbn [sketches set_sketches]. rewrite <- (Hlen Hpos), length_app, length_fmap, Hn.
    by rewrite <- length_app, take_drop.
Qed.

Lemma mc_ok_set_dsu Es J m d :
  mc_ok Es J m → dsu_wf d → dsu_n d = n → mc_ok Es J (set_core m (set_dsu (core m) d)).
Proof.
  intros [Hn [Hwf Hdn Hfa] Hsh HE Hsk Hlen Hnum Hd Hb] Hwf' Hdn'.
  constructor; cbn [core set_core num_sketch_graphs max_sketch_graphs]; done.
Qed.

Lemma mc_connected_components_ok Es J m q :
  mc_ok Es J m → mc_cached Es m → 0 < num_sketch_graphs m → mc_run_ok q →
  checksum_sound (cc_seed (core m)) (Es 0) → J 0 < num_samples (cc_sketch (core m)) →
  ∃ res m' J', MC.connected_components q m = (res, m') ∧ same_config (core m) (core m') ∧
    num_sketch_graphs m' = num_sketch_graphs m ∧ mc_ok Es J' m' ∧ mc_cached Es m' ∧
    (∀ g, g ≠ 0 → J' g = J g) ∧
    ((∃ cc, res = Ok cc ∧ ∀ a b, a < n → b < n →
        ∃ r, is_connected cc a b = Ok r ∧ (r = true ↔ conn n (Es 0) a b)) ∨
     (∃ e, res = Throw e ∧ out_of_samples e)).
Proof.
  intros Hok Hca Hpos Hq Hs HJ.
  assert (∃ res m1 J', MC.ensure_answer q (shared_dsu_valid (core m)) m = (res, m1) ∧
    same_config (core m) (core m1) ∧ num_sketch_graphs m1 = num_sketch_graphs m ∧
    mc_ok Es J' m1 ∧ mc_cached Es m1 ∧ (∀ g, g ≠ 0 → J' g = J g) ∧
    ((res = Ok tt ∧ cached_answer n (Es 0) (dsu (core m1)) (spanning_forest (core m1))) ∨
     (∃ e, res = Throw e ∧ out_of_samples e))) as (res & m1 & J' & Hens & Hsame & Hnum & Hok1 & Hca1 & HJ' & Hcase).
  { unfold MC.ensure_answer. rewrite (mo_shared _ _ _ Hok). destruct (dsu_valid (core m)) eqn:Hv.
    - exists (Ok tt), m, J. split_and!; try done. left. split; [done|]. by apply Hca.
    - destruct (emulate_ok Es J m 0 q Hok Hpos Hq Hs HJ)
        as (res & c' & Hem & Hsame & Hv' & _ & Hok' & Hpa & Hcase).
      unfold MC.boruvka_emulation. change (0 * n) with 0 in Hem. rewrite Hem.
      destruct Hcase as [(-> & Hans & _)|(e & -> & He & _)].
      + exists (Ok tt), (MC.reset_sample_states (set_core m (set_valid c' true))).
        exists (upd_graph (upd_graph J 0 (S (J 0))) 0 0). split; [done|]. do 2 (split; [done|]).
        split; [|split; [|split]].
        * apply reset_sample_states_ok. destruct Hok' as [M1 M2 M3 M4 M5 M6 M7 M8 M9]. by constructor.
        * by intros _.
        * intros g Hg. by rewrite !upd_graph_ne.
        * by left.
      + exists (Throw e), (MC.reset_sample_states (set_core m c')).
        exists (upd_graph (upd_graph J 0 (S (J 0))) 0 0). split; [done|]. do 2 (split; [done|]).
        split; [|split; [|split]].
        * by apply reset_sample_states_ok.
        * intros Hv2. exfalso. cbn in Hv2. congruence.
        * intros g Hg. by rewrite !upd_graph_ne.
        * right. by exists e. }
  unfold MC.connected_components. rewrite Hens.
  destruct Hcase as [(-> & Hans)|(e & -> & He)].
  2: { exists (Throw e), m1, J'. split_and!; try done. right. by exists e. }
  pose proof Hok1 as [Hn [Hwf Hdn Hfa] _ _ _ _ _ _ _].
  destruct (new_ConnectedComponents_ok n (q_components_order q) (dsu (core m1)) Hwf Hdn)
    as (cc & d & Hnew & Hcc & Hwf' & Hdn' & Heq); [apply Hq|]. rewrite Hn, Hnew.
  exists (Ok cc), (set_core m1 (set_dsu (core m1) d)), J'.
  split; [done|]. split; [done|]. split; [done|]. split; [by apply mc_ok_set_dsu|].
  assert (∀ x y, dsu_rel d x y ↔ dsu_rel (dsu (core m1)) x y) as Hrel.
  { intros x y. symmetry. by apply same_set_ext. }
  split; [|split; [done|left]].
  - intros Hv. destruct (Hca1 Hv) as [C1 C2 C3 C4]. constructor; try done.
    intros x y Hx Hy. cbn. rewrite Hrel. by apply C1.
  - exists cc. split; [done|]. intros a b Ha Hb'.
    destruct (is_connected_ok n d cc a b) as (r & Hr & Hiff); [|done..|].
    + by apply (components_of_roots n (dsu (core m1)) d cc Hwf Hwf' Heq).
    + exists r. split; [done|]. by rewrite Hiff, Hrel, (ca_conn _ _ _ _ Hans).
Qed.

(** A query of another graph replaces the union-find but leaves the flag that says
    it holds the answer for graph 0. *)
Lemma k_query_keeps_flag Es J m g q :
  mc_ok Es J m → g < num_sketch_graphs m → mc_run_ok q → checksum_sound (cc_seed (core m)) (Es g) →
  J g < num_samples (cc_sketch (core m)) → dsu_valid (core m) = true →
  ∃ sf m', MC.calc_spanning_forest q g m = (Ok sf, m') ∧ dsu_valid (core m') = true ∧
    (update_locked (core m') = true ∨
     ∃ cc m2, MC.connected_components q m' = (Ok cc, m2) ∧ ∀ a b, a < n → b < n →
       ∃ r, is_connected cc a b = Ok r ∧ (r = true ↔ conn n (Es g) a b)).
Proof.
  intros Hok Hg Hq Hs HJ Hv.
  destruct (mc_calc_spanning_forest_ok Es J m g q Hok Hg Hq Hs HJ)
    as (res & sf & m' & _ & Hrun & _ & Hnum' & _ & Hv' & Hok' & _ & _ & _ & Hcase).
  exists sf, m'. split; [done|]. split; [congruence|].
  destruct Hcase as [(_ & _ & _ & Hans)|(e & _ & _ & Hul)]; [right|by left].
  pose proof Hok' as [Hn [Hwf Hdn Hfa] Hsh _ _ _ _ _ _].
  assert (eager_ok n (Es g) (core m')) as Hea by by constructor.
  unfold MC.connected_components, MC.ensure_answer. rewrite Hsh, Hv', Hv, Hn.
  destruct (new_ConnectedComponents_ok n (q_components_order q) (dsu (core m')) Hwf Hdn)
    as (cc & d & -> & Hcc & Hwf2 & Hdn2 & Heq); [apply Hq|].
  eexists _, _. split; [done|]. intros a b Ha Hb'.
  destruct (is_connected_ok n d cc a b) as (r & Hr & Hiff); [|done..|].
  - by apply (components_of_roots n (dsu (core m')) d cc Hwf Hwf2 Heq).
  - exists r. split; [done|]. rewrite Hiff, <- (ca_conn _ _ _ _ Hans) by done.
    symmetry. by apply same_set_ext.
Qed.
End mc.
