(* ===== verification/MCProps.v ===== *)
(** * Properties of the minimum cut algorithm: src/src/mc_sketch_alg.cpp *)

From Stdlib Require Import NArith Lia.
From stdpp Require Import base list gmap sets numbers sorting relations.
From S2P Require Import Prelude Float64 Util Bucket Sketch XXHash Concrete SketchSpec Dsu Graph Configuration CCSketchAlg Partition ReturnTypes MergeInstr Boruvka BoruvkaRound BoruvkaThreads BoruvkaLoop CCQuery MCSketchAlg MCFilter MCQuery.

(** ** Histories of sketch graphs *)

(** What fills the sketch graphs: the next graph is created, or graph [g] gets a
    direct update. *)
Inductive mc_op := OpCreate | OpUpdate (g : nat) (upd : GraphUpdate).

Section histories.
Context `{BuildConfig, Libm, Hashing}.

Definition mc_exec (m : MCSketchAlg) (op : mc_op) : outcome MCSketchAlg :=
  match op with
  | OpCreate => Ok (MC.create_sketch_graph (num_sketch_graphs m) m)
  | OpUpdate g upd => MC.update_subgraph g m upd
  end.

(** The graphs themselves: how many, and the edges of each. *)
Definition mc_spec (st : nat * (nat → gset N)) (op : mc_op) : nat * (nat → gset N) :=
  match op with
  | OpCreate => (S st.1, upd_graph st.2 st.1 ∅)
  | OpUpdate g upd => (st.1, upd_graph st.2 g (toggle (upd_index upd) (st.2 g)))
  end.

Fixpoint mc_ops_ok (n max k : nat) (ops : list mc_op) : Prop :=
  match ops with
  | [] => True
  | OpCreate :: ops => k < max ∧ mc_ops_ok n max (S k) ops
  | OpUpdate g upd :: ops => g < k ∧ upd_ok n upd ∧ mc_ops_ok n max k ops
  end.

Lemma update_subgraph_keeps n (n_ok : (N.of_nat n < 2 ^ 32)%N) Es J m g upd m' :
  mc_ok n Es J m → dsu_valid (core m) = false → MC.update_subgraph g m upd = Ok m' →
  dsu_valid (core m') = false ∧ same_config (core m) (core m') ∧
  max_sketch_graphs m' = max_sketch_graphs m.
Proof.
  intros _ Hv. unfold MC.update_subgraph, MC.pre_insert, pre_insert. rewrite Hv.
  assert (∀ c c' i x, update_sketch c i x = Ok c' →
    dsu_valid c' = dsu_valid c ∧ same_config c c') as Hus.
  { intros c c' i x. unfold update_sketch. destruct (arr_get (sketches c) i); simpl; [|done].
    by intros [= <-]. }
  assert ((if NO_EAGER_DSU then Ok (core m) else Ok (core m)) = Ok (core m)) as Heq
    by by destruct NO_EAGER_DSU.
  rewrite Heq. cbn [mbind outcome_bind core set_core].
  destruct (update_sketch (core m) _ _) as [c1|] eqn:Hc1; cbn [mbind outcome_bind]; [|done].
  destruct (update_sketch c1 _ _) as [c2|] eqn:Hc2; cbn [mbind outcome_bind]; [|done].
  intros [= <-]. cbn [core set_core max_sketch_graphs].
  destruct (Hus _ _ _ _ Hc1) as [Hv1 Hs1], (Hus _ _ _ _ Hc2) as [Hv2 Hs2].
  split; [congruence|]. split; [by eapply same_config_trans|done].
Qed.

Lemma mc_history n (n_ok : (N.of_nat n < 2 ^ 32)%N) ops Es m :
  mc_ok n Es (λ _, 0) m → dsu_valid (core m) = false →
  mc_ops_ok n (max_sketch_graphs m) (num_sketch_graphs m) ops →
  ∃ m', outcome_fold mc_exec m ops = Ok m' ∧
    let st := foldl mc_spec (num_sketch_graphs m, Es) ops in
    num_sketch_graphs m' = st.1 ∧ mc_ok n st.2 (λ _, 0) m' ∧ dsu_valid (core m') = false ∧
    same_config (core m) (core m').
Proof.
  revert Es m. induction ops as [|op ops IH]; intros Es m Hok Hv Hops; [by exists m|].
  assert (∃ m1, mc_exec m op = Ok m1 ∧ num_sketch_graphs m1 = (mc_spec (num_sketch_graphs m, Es) op).1 ∧
    mc_ok n (mc_spec (num_sketch_graphs m, Es) op).2 (λ _, 0) m1 ∧ dsu_valid (core m1) = false ∧
    same_config (core m) (core m1) ∧ max_sketch_graphs m1 = max_sketch_graphs m ∧
    mc_ops_ok n (max_sketch_graphs m1) (num_sketch_graphs m1) ops)
    as (m1 & Hrun & Hnum & Hok1 & Hv1 & Hsame & Hmax & Hops1).
  { destruct op as [|g upd]; cbn [mc_ops_ok mc_exec mc_spec fst snd] in *.
    - destruct Hops as [Hlt Hops].
      destruct (create_sketch_graph_ok n n_ok Es (λ _, 0) m Hok Hlt) as (Hnum & Hsame & Hok1).
      eexists. split; [reflexivity|]. split; [done|]. split.
      { eapply mc_ok_ext; [done| |exact Hok1]. intros i. unfold upd_graph. by case_decide. }
      assert (max_sketch_graphs (MC.create_sketch_graph (num_sketch_graphs m) m) =
        max_sketch_graphs m ∧
        dsu_valid (core (MC.create_sketch_graph (num_sketch_graphs m) m)) = false) as [Hmax Hv1].
      { unfold MC.create_sketch_graph. by case_decide. }
      rewrite Hmax, Hnum. by split_and!.
    - destruct Hops as (Hg & Hu & Hops).
      destruct (update_subgraph_ok n n_ok Es (λ _, 0) m g upd Hok) as (m1 & Hrun & Hnum & Hok1 & _);
        [by intros Ht; congruence|done|done|by right|].
      destruct (update_subgraph_keeps n n_ok _ _ m g upd m1 Hok Hv Hrun) as (Hv1 & Hsame & Hmax).
      exists m1. rewrite Hmax, Hnum. by split_and!. }
  cbn [outcome_fold foldl]. rewrite Hrun. cbn [mbind outcome_bind].
  destruct (IH _ m1 Hok1 Hv1 Hops1) as (m2 & -> & Hst). rewrite Hnum in Hst.
  replace ((mc_spec (num_sketch_graphs m, Es) op).1, (mc_spec (num_sketch_graphs m, Es) op).2)
    with (mc_spec (num_sketch_graphs m, Es) op) in Hst by by destruct (mc_spec _ _).
  exists m2. split; [done|]. cbn zeta in *. destruct Hst as (Hq1 & Hq2 & Hq3 & Hq4).
  split_and!; try done. by eapply same_config_trans.
Qed.
End histories.

(** ** Properties *)

Section theorems.
Context `{BuildConfig, Libm, Hashing}.

(** C9. From construction, any history of graph creations and direct updates
    succeeds; every sketch graph then holds, at every node, exactly the edges of
    that graph its own updates describe, and the other graphs are not touched. *)
Theorem mc_updates_track_graphs n sd prio max cfg workers ops :
  (N.of_nat n < 2 ^ 32)%N → length prio = n →
  calc_bkt_per_col (calc_vector_length (N.of_nat n)) < 64 → mc_ops_ok n max 0 ops →
  ∃ m, outcome_fold mc_exec
      (MC.allocate_worker_memory (MC.new_MCSketchAlg n sd prio max cfg) workers) ops = Ok m ∧
    let st := foldl mc_spec (0, λ _, ∅) ops in
    num_sketch_graphs m = st.1 ∧
    (∀ g v, g < st.1 → v < n → ∃ s, sketches (core m) !! (g * n + v) = Some s ∧
      represents s (incident (st.2 g) v) ∧ sample_idx s = 0) ∧
    mc_ok n st.2 (λ _, 0) m.
Proof.
  intros Hn Hp Hb Hops.
  destruct (mc_history n Hn ops (λ _, ∅)
    (MC.allocate_worker_memory (MC.new_MCSketchAlg n sd prio max cfg) workers))
    as (m & Hrun & Hnum & Hok & _ & _); [by apply new_mc_ok|done|done|].
  exists m. split; [done|]. split; [done|]. split; [|done].
  intros g v Hg Hv. assert (g < num_sketch_graphs m) as Hg' by (rewrite Hnum; exact Hg).
  destruct (mo_sketches _ _ _ _ Hok g Hg' v Hv) as (s & Hs & Hr & _ & Hi). by exists s.
Qed.


(** Once the queries of a graph have used its samples, [calc_spanning_forest]
    returns a forest without edges, whatever the graph, and no error; the lock it
    leaves makes every later batch throw. *)
Theorem mc_exhausted_query_is_empty n Es J m g q thr src dsts :
  (N.of_nat n < 2 ^ 32)%N → mc_ok n Es J m → g < num_sketch_graphs m →
  zero_order (q_schedule q) ≡ₚ seq 0 n → 0 < n → num_samples (cc_sketch (core m)) ≤ J g →
  ∃ sf m', MC.calc_spanning_forest q g m = (Ok sf, m') ∧ edges sf = [] ∧
    MC.apply_update_batch_single_graph m' thr g src dsts = Throw UpdateLockedException.
Proof.
  intros Hn Hok Hg Hq Hpos HJ.
  destruct (calc_spanning_forest_exhausted n Hn Es J m g q Hok Hg Hq Hpos HJ)
    as (sf & m' & Hrun & Hes & Hul).
  exists sf, m'. split; [done|]. split; [done|].
  unfold MC.apply_update_batch_single_graph. by rewrite Hul.
Qed.

(** [connected_components] answers about graph 0, cached or not, or throws
    OutOfSamples; it leaves every graph as it was. *)
Theorem mc_connected_components_correct n Es J m q :
  (N.of_nat n < 2 ^ 32)%N → mc_ok n Es J m → mc_cached n Es m → 0 < num_sketch_graphs m →
  mc_run_ok n q → checksum_sound (cc_seed (core m)) (Es 0) →
  J 0 < num_samples (cc_sketch (core m)) →
  ∃ res m' J', MC.connected_components q m = (res, m') ∧ mc_ok n Es J' m' ∧ mc_cached n Es m' ∧
    (∀ g, g ≠ 0 → J' g = J g) ∧
    ((∃ cc, res = Ok cc ∧ ∀ a b, a < n → b < n →
        ∃ r, is_connected cc a b = Ok r ∧ (r = true ↔ conn n (Es 0) a b)) ∨
     (∃ e, res = Throw e ∧ out_of_samples e)).
Proof.
  intros Hn Hok Hca Hpos Hq Hs HJ.
  destruct (mc_connected_components_ok n Hn Es J m q Hok Hca Hpos Hq Hs HJ)
    as (res & m' & J' & Hrun & _ & _ & Hok' & Hca' & HJ' & Hcase).
  by exists res, m', J'.
Qed.

(** When no node's run of edges leaves the two segments at a boundary, nor
    reaches an end of the array from it, the threads of [filter_sf_edges] together
    apply every entry of the sorted adjacency exactly once, and nothing is read
    outside it. *)
Theorem filter_threads_cover part T edges :
  partition_ok part (length edges) T → splits_ok part T edges →
  ∃ progs, outcome_list (filter_thread part T edges <$> seq 0 T) = Ok progs ∧
    concat progs ≡ₚ seq 0 (length edges).
Proof. apply filter_threads_ok. Qed.
End theorems.

(** ** Witnesses *)

(** A star has all edges of one node in a row: the thread that owns the beginning
    walks back over the start of the array. *)
Definition star : list Edge :=
  [mkEdge 0 1; mkEdge 0 2; mkEdge 0 3; mkEdge 1 0; mkEdge 2 0; mkEdge 3 0].

Lemma filter_star_out_of_bounds :
  partition_okb mc_get_ith_partition 6 3 = true ∧
  filter_thread mc_get_ith_partition 3 star 0 = Throw OutOfBounds.
Proof. by vm_compute. Qed.

(** Without the array's start, an edge in the middle of a long run is applied
    by two threads, and by one of them twice. *)
Lemma filter_long_run_repeats :
  (λ t, filter_thread mc_get_ith_partition 3
     (mkEdge 0 9 :: ((λ d, mkEdge 1 d) <$> seq 2 7) ++ [mkEdge 9 0]) t) <$> [1] =
  [Ok [3; 4; 5; 6; 7; 5; 4; 3; 2; 1]].
Proof. by vm_compute. Qed.

Lemma filter_threads_cover_witness :
  ∃ progs, outcome_list (filter_thread mc_get_ith_partition 2
      [mkEdge 0 1; mkEdge 1 0; mkEdge 1 2; mkEdge 2 1] <$> seq 0 2) = Ok progs ∧
    concat progs ≡ₚ seq 0 4.
Proof.
  apply (filter_threads_cover mc_get_ith_partition 2 [mkEdge 0 1; mkEdge 1 0; mkEdge 1 2; mkEdge 2 1]).
  - apply partition_okb_spec. by vm_compute.
  - intros t Ht. destruct t as [|[|t]]; [| |lia].
    + exists 0, 1. replace (mc_get_ith_partition _ 0 2) with (0, 2) by by vm_compute.
      constructor; unfold collides_left, collides_right; simpl; try lia; try (intros; done).
      * intros _. split; [lia|]. split; [done|]. intros i Hi. by replace i with 1 by lia.
      * intros Hn. exfalso. apply Hn. split; [lia|done].
    + exists 3, 4. replace (mc_get_ith_partition _ 1 2) with (2, 4) by by vm_compute.
      constructor; unfold collides_left, collides_right; simpl; try lia; try (intros; done).
      * intros _. split; [lia|]. split; [done|]. intros i Hi. by replace i with 2 by lia.
      * intros Hn. exfalso. apply Hn. split; [lia|done].
Defined.

Section witnesses.
#[local] Existing Instances default_build integral_libm xxh3_hashing.

Definition example_mc_ops : list mc_op :=
  [OpCreate; OpUpdate 0 (mkUpdate (mkEdge 0 1) INSERT); OpCreate;
   OpUpdate 1 (mkUpdate (mkEdge 3 1) INSERT); OpUpdate 0 (mkUpdate (mkEdge 2 3) INSERT);
   OpUpdate 0 (mkUpdate (mkEdge 2 1) INSERT); OpUpdate 0 (mkUpdate (mkEdge 1 2) DELETE)].

Definition example_mc_new : MCSketchAlg :=
  MC.allocate_worker_memory (MC.new_MCSketchAlg 4 7 [5; 1; 4; 4]%N 2 CCConf.default) 2.

Lemma example_mc_ops_ok : mc_ops_ok 4 2 0 example_mc_ops.
Proof. simpl. repeat split; simpl; lia. Qed.

Lemma example_bkts : calc_bkt_per_col (calc_vector_length (N.of_nat 4)) < 64.
Proof. vm_compute. lia. Qed.

Definition example_mc_graphs : nat → gset N := (foldl mc_spec (0, λ _, ∅) example_mc_ops).2.

Lemma example_mc : ∃ m, mc_ok 4 example_mc_graphs (λ _, 0) m ∧ num_sketch_graphs m = 2 ∧
  dsu_valid (core m) = false ∧ same_config (core example_mc_new) (core m).
Proof.
  destruct (mc_history 4 example_n_lt example_mc_ops (λ _, ∅) example_mc_new)
    as (m & _ & Hnum & Hok & Hv & Hsame);
    [apply new_mc_ok; [exact example_n_lt|done|exact example_bkts]|done|exact example_mc_ops_ok|].
  exists m. exact (conj Hok (conj Hnum (conj Hv Hsame))).
Qed.

Lemma example_mc_graph0 : example_mc_graphs 0 = example_graph.
Proof. by vm_compute. Qed.

Definition example_mc_run : QueryRun := mkQueryRun 1 example_schedule [3; 1; 0; 2].

Lemma example_mc_run_ok : mc_run_ok 4 example_mc_run.
Proof.
  constructor.
  - apply partition_okb_spec. by vm_compute.
  - apply (bool_decide_unpack _). by vm_compute.
  - intros r l. simpl. apply reverse_Permutation.
  - apply (bool_decide_unpack _). by vm_compute.
Qed.

(** One thread owns the whole array. *)
Lemma single_thread_splits edges :
  mc_get_ith_partition (length edges) 0 1 = (0, length edges) → filter_splits 1 edges.
Proof.
  intros Hp. exists [seq 0 (length edges)]. split; [|by rewrite concat_cons, app_nil_r].
  cbn [seq fmap list_fmap outcome_list]. unfold filter_thread. rewrite Hp.
  rewrite !decide_False by lia.
  cbn [mbind outcome_bind fst snd app]. by rewrite Nat.sub_0_r.
Qed.

Definition all_edges4 : list Edge :=
  u ← seq 0 4; v ← seq 0 4; if decide (u < v) then [mkEdge u v] else [].

Lemma example_filters_split runs :
  Forall (λ run, q_threads (MC.f_query run) = 1) runs → filters_split 4 id runs.
Proof.
  intros Hall run es Hin Hnd Hes. rewrite list.Forall_forall in Hall. rewrite (Hall run Hin).
  apply single_thread_splits. unfold swapped. cbn [id]. rewrite length_app, length_fmap.
  assert (length es ≤ length all_edges4) as Hlen.
  { apply submseteq_length, list.NoDup_submseteq; [done|]. intros [u v] He.
    specialize (Hes _ He). simpl in Hes.
    assert (u < 4 ∧ v < 4) as [Hu Hv] by lia.
    do 4 (destruct u as [|u]; [do 4 (destruct v as [|v]; [first [lia|vm_compute; set_solver]|]); lia|]). lia. }
  change (length all_edges4) with 6 in Hlen.
  assert (∀ k, k < 7 → mc_get_ith_partition (k + k) 0 1 = (0, k + k)) as Hall'.
  { intros k Hk. assert (forallb (λ k, bool_decide (mc_get_ith_partition (k + k) 0 1 = (0, k + k)))
      (seq 0 7) = true) as Hf by by vm_compute.
    rewrite forallb_forall in Hf. specialize (Hf k ltac:(apply in_seq; lia)).
    by apply bool_decide_eq_true in Hf. }
  apply Hall'. lia.
Qed.

Lemma mc_updates_track_graphs_witness :
  ∃ m, outcome_fold mc_exec example_mc_new example_mc_ops = Ok m ∧ num_sketch_graphs m = 2.
Proof.
  destruct (mc_updates_track_graphs 4 7 [5; 1; 4; 4]%N 2 CCConf.default 2 example_mc_ops
    example_n_lt ltac:(reflexivity) example_bkts example_mc_ops_ok) as (m & Hrun & Hnum & _).
  exists m. exact (conj Hrun Hnum).
Defined.

Lemma example_mc_samples m :
  same_config (core example_mc_new) (core m) → num_samples (cc_sketch (core m)) = 18.
Proof. intros Hs. rewrite (cc_sketch_same _ _ Hs). by vm_compute. Qed.

Lemma example_mc_sound m :
  same_config (core example_mc_new) (core m) → checksum_sound (cc_seed (core m)) (example_mc_graphs 0).
Proof. intros (_ & -> & _). rewrite example_mc_graph0. exact example_graph_sound. Qed.

Definition example_forest_runs : list MC.ForestRun :=
  [MC.mkForestRun example_mc_run [0; 0] []; MC.mkForestRun example_mc_run [] [0]].


(** The state after its samples are spent is the result of that many queries. *)
Lemma example_mc_spent : ∃ m, mc_ok 4 example_mc_graphs (upd_graph (λ _, 0) 0 18) m ∧
  num_sketch_graphs m = 2 ∧ same_config (core example_mc_new) (core m).
Proof.
  destruct example_mc as (m & Hok & Hnum & _ & Hsame).
  assert (∀ k, k ≤ 18 → ∃ m, mc_ok 4 example_mc_graphs (upd_graph (λ _, 0) 0 k) m ∧
    num_sketch_graphs m = 2 ∧ same_config (core example_mc_new) (core m)) as Hk; [|by apply (Hk 18)].
  induction k as [|k IH]; intros Hk.
  { exists m. split; [|done]. eapply mc_ok_ext; [done| |exact Hok].
    intros i. unfold upd_graph. by case_decide. }
  destruct (IH ltac:(lia)) as (m1 & Hok1 & Hnum1 & Hsame1).
  destruct (mc_calc_spanning_forest_ok 4 example_n_lt example_mc_graphs _ m1 0 example_mc_run Hok1)
    as (_ & _ & m2 & _ & _ & Hsame2 & Hnum2 & _ & _ & Hok2 & _).
  - rewrite Hnum1. lia.
  - exact example_mc_run_ok.
  - by apply example_mc_sound.
  - rewrite (example_mc_samples m1 Hsame1), upd_graph_eq. lia.
  - exists m2. split; [|split; [congruence|by eapply same_config_trans]].
    eapply mc_ok_ext; [done| |exact Hok2]. intros i. unfold upd_graph. by repeat case_decide.
Qed.

Lemma mc_exhausted_query_is_empty_witness :
  ∃ m sf m', MC.calc_spanning_forest example_mc_run 0 m = (Ok sf, m') ∧ edges sf = [] ∧
    mc_ok 4 example_mc_graphs (upd_graph (λ _, 0) 0 18) m.
Proof.
  destruct example_mc_spent as (m & Hok & Hnum & Hsame).
  destruct (mc_exhausted_query_is_empty 4 example_mc_graphs _ m 0 example_mc_run 0 0 [] example_n_lt Hok)
    as (sf & m' & Hrun & Hes & _).
  - rewrite Hnum. lia.
  - apply example_mc_run_ok.
  - lia.
  - rewrite (example_mc_samples m Hsame), upd_graph_eq. lia.
  - exists m, sf, m'. exact (conj Hrun (conj Hes Hok)).
Defined.

Lemma mc_connected_components_correct_witness :
  ∃ m res m', MC.connected_components example_mc_run m = (res, m') ∧ mc_cached 4 example_mc_graphs m'.
Proof.
  destruct example_mc as (m & Hok & Hnum & Hv & Hsame).
  destruct (mc_connected_components_correct 4 example_mc_graphs (λ _, 0) m example_mc_run example_n_lt Hok)
    as (res & m' & J' & Hrun & _ & Hca & _).
  - intros Ht. congruence.
  - rewrite Hnum. lia.
  - exact example_mc_run_ok.
  - exact (example_mc_sound m Hsame).
  - rewrite (example_mc_samples m Hsame). lia.
  - exists m, res, m'. exact (conj Hrun Hca).
Defined.
End witnesses.
