(* ===== verification/EdgeStore.v ===== *)
(** * The edge store: src/include/edge_store.h and src/src/edge_store.cpp

    While a graph is small its deeper subgraphs are kept as adjacency lists. Every
    update of an edge carries the deepest subgraph the edge is in; the store keeps
    the updates of the subgraphs from [cur_subgraph] on and hands out the others.
    When it grows too big it moves [cur_subgraph] on and drains the vertices one by
    one. An operation is modelled as running alone; the locks of the class make
    the critical section of one vertex so, the rest of a call is not protected. *)

From Stdlib Require Import NArith Lia.
From stdpp Require Import base list gmap sets numbers sorting relations.
From S2P Require Import Prelude Util Bucket.

Record SubgraphTaggedUpdate := mkTagged { subgraph : nat; tdst : nat }.

#[global] Instance SubgraphTaggedUpdate_eq_dec : EqDecision SubgraphTaggedUpdate.
Proof. solve_decision. Defined.

#[global] Program Instance SubgraphTaggedUpdate_countable : Countable SubgraphTaggedUpdate :=
  inj_countable' (λ t, (subgraph t, tdst t)) (λ p, mkTagged p.1 p.2) _.
Next Obligation. by intros []. Qed.

(** [operator<] and [operator>]. *)
Definition tagged_lt (a b : SubgraphTaggedUpdate) : bool :=
  if decide (subgraph a = subgraph b) then bool_decide (tdst a < tdst b)
  else bool_decide (subgraph a < subgraph b).
Definition tagged_gt (a b : SubgraphTaggedUpdate) : bool :=
  if decide (subgraph a = subgraph b) then bool_decide (tdst b < tdst a)
  else bool_decide (subgraph b < subgraph a).

(** [std::sort] with that order; equal updates cannot be told apart. *)
Definition tagged_le (a b : SubgraphTaggedUpdate) : Prop := tagged_lt b a = false.

#[global] Instance tagged_le_dec : RelDecision tagged_le.
Proof. intros a b. unfold tagged_le. apply _. Defined.

Definition sort_tagged : list SubgraphTaggedUpdate → list SubgraphTaggedUpdate := merge_sort tagged_le.

(** [min_subgraph] is [cur_subgraph - 1] as a 32-bit number. *)
Record TaggedUpdateBatch := mkTaggedBatch {
  b_src : nat;
  min_subgraph : N;
  first_es_subgraph : nat;
  dsts_data : list SubgraphTaggedUpdate;
}.

Record EdgeStore := mkES {
  es_seed : N;
  es_vertices : nat;
  num_subgraphs : nat;
  cur_subgraph : nat;
  true_min_subgraph : nat;
  num_edges : N;
  needs_contraction : N;
  adjlist : list (list SubgraphTaggedUpdate);
  vertex_contracted : list bool;
  max_edges : N;
}.

Definition set_vertex (es : EdgeStore) (v : nat) (buf : list SubgraphTaggedUpdate) (edges : N) : EdgeStore :=
  mkES (es_seed es) (es_vertices es) (num_subgraphs es) (cur_subgraph es) (true_min_subgraph es)
    edges (needs_contraction es) (<[v := buf]> (adjlist es)) (vertex_contracted es) (max_edges es).
Definition set_contracted (es : EdgeStore) (v : nat) : EdgeStore :=
  mkES (es_seed es) (es_vertices es) (num_subgraphs es) (cur_subgraph es) (true_min_subgraph es)
    (num_edges es) (needs_contraction es) (adjlist es) (<[v := true]> (vertex_contracted es)) (max_edges es).
Definition set_needs (es : EdgeStore) (k : N) : EdgeStore :=
  mkES (es_seed es) (es_vertices es) (num_subgraphs es) (cur_subgraph es) (true_min_subgraph es)
    (num_edges es) k (adjlist es) (vertex_contracted es) (max_edges es).
Definition set_true_min (es : EdgeStore) (k : nat) : EdgeStore :=
  mkES (es_seed es) (es_vertices es) (num_subgraphs es) (cur_subgraph es) k
    (num_edges es) (needs_contraction es) (adjlist es) (vertex_contracted es) (max_edges es).

Definition store_edge_bytes : N := 8.

(** The constructor; [junk] is the uninitialised [needs_contraction]. *)
Definition new_EdgeStore (seed : N) (nv : nat) (sketch_bytes : N) (subgraphs start_subgraph : nat) (junk : N)
    : EdgeStore :=
  mkES seed nv subgraphs start_subgraph start_subgraph 0 junk (replicate nv []) (replicate nv true)
    (sketch_bytes / store_edge_bytes).

(** ** One vertex *)

(** The loop of [vertex_contract] that moves the updates to keep to the front. *)
Fixpoint keep_loop (k : nat) (cur : nat) (buf : list SubgraphTaggedUpdate) (i keep_idx : nat)
    : outcome (list SubgraphTaggedUpdate * nat) :=
  match k with
  | O => Ok (buf, keep_idx)
  | S k =>
      x ← arr_get buf i;
      if decide (cur ≤ subgraph x) then keep_loop k cur (<[keep_idx := x]> buf) (S i) (S keep_idx)
      else keep_loop k cur buf (S i) keep_idx
  end.

Definition vertex_contract (src : nat) (es : EdgeStore)
    : outcome (list SubgraphTaggedUpdate * EdgeStore) :=
  contracted ← arr_get (vertex_contracted es) src;
  if (contracted : bool) then Ok ([], es)
  else
    let es := set_contracted es src in
    buf ← arr_get (adjlist es) src;
    if decide (length buf = 0) then Ok ([], es)
    else
      r ← keep_loop (length buf) (cur_subgraph es) buf 0 0;
      let kept := take r.2 r.1 in
      Ok (buf, set_vertex es src kept
                 (u64 (num_edges es + wsub 64 (N.of_nat (length kept)) (N.of_nat (length buf))))).

(** Skips the updates of smaller subgraphs; past the end it reads outside the
    array. *)
Fixpoint skip_loop (fuel : nat) (cur : nat) (dst_data : list SubgraphTaggedUpdate) (update_ptr : nat)
    : outcome nat :=
  match fuel with
  | O => Throw OutOfFuel
  | S fuel =>
      x ← arr_get dst_data update_ptr;
      if decide (subgraph x < cur) then skip_loop fuel cur dst_data (S update_ptr) else Ok update_ptr
  end.

(** The state of the merge of the sorted updates into the vertex's buffer. *)
Record MergeState := mkMerge {
  m_buf : list SubgraphTaggedUpdate;
  m_dst : list SubgraphTaggedUpdate;
  out_ptr : nat;
  buffer_ptr : nat;
  update_ptr : nat;
}.

(** One step per entry of the buffer. A buffer entry larger than the next update is
    exchanged with it. *)
Fixpoint merge_loop (k : nat) (m : MergeState) : outcome MergeState :=
  match k with
  | O => Ok m
  | S k =>
      x ← arr_get (m_buf m) (buffer_ptr m);
      y ← arr_get (m_dst m) (update_ptr m);
      if tagged_gt x y then
        merge_loop k (mkMerge (<[out_ptr m := y]> (m_buf m)) (<[update_ptr m := x]> (m_dst m))
                        (S (out_ptr m)) (S (buffer_ptr m)) (update_ptr m))
      else if tagged_lt x y then
        merge_loop k (mkMerge (<[out_ptr m := x]> (m_buf m)) (m_dst m)
                        (S (out_ptr m)) (S (buffer_ptr m)) (update_ptr m))
      else
        let m := mkMerge (m_buf m) (m_dst m) (out_ptr m) (S (buffer_ptr m)) (S (update_ptr m)) in
        if decide (length (m_dst m) ≤ update_ptr m) then Ok m else merge_loop k m
  end.

(** What follows the loop: the remaining updates, then the remaining buffer. The
    second loop reads the array it writes. *)
Fixpoint copy_updates (k : nat) (buf dst_data : list SubgraphTaggedUpdate) (out update_ptr : nat)
    : outcome (list SubgraphTaggedUpdate * nat) :=
  match k with
  | O => Ok (buf, out)
  | S k =>
      y ← arr_get dst_data update_ptr;
      copy_updates k (<[out := y]> buf) dst_data (S out) (S update_ptr)
  end.

Fixpoint copy_buffer (k : nat) (buf : list SubgraphTaggedUpdate) (out buffer_ptr : nat)
    : outcome (list SubgraphTaggedUpdate * nat) :=
  match k with
  | O => Ok (buf, out)
  | S k =>
      x ← arr_get buf buffer_ptr;
      copy_buffer k (<[out := x]> buf) (S out) (S buffer_ptr)
  end.

Definition resize (k : nat) (buf : list SubgraphTaggedUpdate) : list SubgraphTaggedUpdate :=
  take k buf ++ replicate (k - length buf) (mkTagged 0 0).

(** The new buffer of the vertex and the final [out_ptr]. *)
Definition merge_updates (cur : nat) (buf dst_data : list SubgraphTaggedUpdate)
    : outcome (list SubgraphTaggedUpdate * nat) :=
  let orig_size := length buf in
  up ← skip_loop (S (length dst_data)) cur dst_data 0;
  m ← merge_loop orig_size (mkMerge buf dst_data 0 0 up);
  let new_size := out_ptr m + (length dst_data - update_ptr m) + (orig_size - buffer_ptr m) in
  let buf := resize (new_size `max` orig_size) (m_buf m) in
  r ← copy_updates (length dst_data - update_ptr m) buf (m_dst m) (out_ptr m) (update_ptr m);
  r ← copy_buffer (orig_size - buffer_ptr m) r.1 r.2 (buffer_ptr m);
  Ok (resize new_size r.1, r.2).

(** ** The store *)

Definition check_if_too_big (es : EdgeStore) : EdgeStore :=
  if decide (num_edges es < max_edges es)%N then es
  else if decide (true_min_subgraph es < cur_subgraph es) then es
  else
    mkES (es_seed es) (es_vertices es) (num_subgraphs es) (S (cur_subgraph es))
      (true_min_subgraph es) (num_edges es) 0 (adjlist es) (replicate (es_vertices es) false)
      (max_edges es).

(** [cur_first_es_subgraph - 1]. *)
Definition prev_subgraph (k : nat) : N := u32 (wsub 32 (N.of_nat k) 1).

(** The loop of [vertex_advance_subgraph] takes a ticket per turn. *)
Fixpoint vertex_advance_loop (fuel : nat) (cur_first : nat) (es : EdgeStore)
    : outcome (TaggedUpdateBatch * EdgeStore) :=
  match fuel with
  | O => Throw OutOfFuel
  | S fuel =>
      let src := N.to_nat (needs_contraction es) in
      let es := set_needs es (u32 (needs_contraction es + 1)) in
      if decide (es_vertices es ≤ src) then
        let es := if decide (src = es_vertices es) then set_true_min es (S (true_min_subgraph es))
                  else es in
        Ok (mkTaggedBatch 0 (prev_subgraph cur_first) cur_first [], es)
      else
        buf ← arr_get (adjlist es) src;
        contracted ← arr_get (vertex_contracted es) src;
        if decide (0 < length buf ∧ contracted = false) then
          r ← vertex_contract src es;
          Ok (mkTaggedBatch src (prev_subgraph cur_first) cur_first r.1, r.2)
        else vertex_advance_loop fuel cur_first (set_contracted es src)
  end.

Definition vertex_advance_subgraph (cur_first : nat) (es : EdgeStore)
    : outcome (TaggedUpdateBatch * EdgeStore) :=
  vertex_advance_loop (S (S (es_vertices es))) cur_first es.

Definition contract_in_progress (es : EdgeStore) : bool :=
  bool_decide (true_min_subgraph es < cur_subgraph es).

(** [insert_adj_edges] with the updates tagged by the caller. *)
Definition insert_tagged (src caller_first : nat) (dst_data : list SubgraphTaggedUpdate) (es : EdgeStore)
    : outcome (TaggedUpdateBatch * EdgeStore) :=
  if decide (length dst_data = 0) then
    Ok (mkTaggedBatch src (prev_subgraph (cur_subgraph es)) (cur_subgraph es) [], es)
  else
    let dst_data := sort_tagged dst_data in
    let cur_first := cur_subgraph es in
    contracted ← arr_get (vertex_contracted es) src;
    re ← (if decide (true_min_subgraph es < cur_first ∧ contracted = false)
          then vertex_contract src es else Ok ([], es));
    let '(ret, es) := re in
    buf ← arr_get (adjlist es) src;
    let ret := if decide (caller_first < cur_first) then ret ++ dst_data else ret in
    r ← merge_updates cur_first buf dst_data;
    let es := set_vertex es src r.1
                (u64 (num_edges es + wsub 64 (N.of_nat r.2) (N.of_nat (length buf)))) in
    if decide (length ret = 0 ∧ true_min_subgraph es < cur_first) then
      vertex_advance_subgraph cur_first es
    else Ok (mkTaggedBatch src (prev_subgraph cur_first) cur_first ret, check_if_too_big es).

Section tags.
Context `{Hashing}.

(** The deepest subgraph of an edge, at most [max_depth]. *)
Definition tag (sd : N) (max_depth : nat) (src d : nat) : SubgraphTaggedUpdate :=
  mkTagged (N.to_nat (Bucket_Boruvka.get_index_depth (concat_pairing_fn src d) sd (N.of_nat max_depth))) d.

(** [insert_adj_edges] while there are no sketch graphs. *)
Definition insert_adj_edges (src : nat) (dst_vertices : list nat) (es : EdgeStore)
    : outcome (TaggedUpdateBatch * EdgeStore) :=
  insert_tagged src 0 (tag (es_seed es) (num_subgraphs es) src <$> dst_vertices) es.
End tags.

Definition get_edges (es : EdgeStore) : list Edge :=
  src ← seq 0 (es_vertices es); mkEdge src <$> (tdst <$> default [] (adjlist es !! src)).
