(* ===== verification/EdgeStoreSpec.v ===== *)
(** * What the edge store holds: src/src/edge_store.cpp

    Counted with parity, a vertex's list is what was inserted there and not handed
    out: the merge drops an update and its opposite together or keeps both. It does
    not keep the list sorted, so the two may stay next to others for good. *)

From Stdlib Require Import NArith Lia.
From stdpp Require Import base list gmap sets numbers sorting relations.
From S2P Require Import Prelude Util Bucket EdgeStore.

Implicit Types (buf dst l : list SubgraphTaggedUpdate) (t : SubgraphTaggedUpdate).

(** [l'] is [l] less some updates that occurred twice. *)
Definition cancels l l' : Prop := ∃ z, l ≡ₚ l' ++ z ++ z.

#[global] Instance cancels_refl : Reflexive cancels.
Proof. intros l. exists []. by rewrite app_nil_r. Qed.

#[global] Instance cancels_trans : Transitive cancels.
Proof.
  intros l1 l2 l3 [z1 H1] [z2 H2]. exists (z1 ++ z2). rewrite H1, H2. solve_Permutation.
Qed.

#[global] Instance cancels_perm : Proper ((≡ₚ) ==> (≡ₚ) ==> iff) cancels.
Proof. intros l1 l1' H1 l2 l2' H2. unfold cancels. by setoid_rewrite H1; setoid_rewrite H2. Qed.

Lemma perm_cancels l l' : l ≡ₚ l' → cancels l l'.
Proof. intros ->. reflexivity. Qed.

Lemma cancels_pair t l : cancels (t :: t :: l) l.
Proof. exists [t]. solve_Permutation. Qed.

Lemma cancels_app_l k l l' : cancels l l' → cancels (k ++ l) (k ++ l').
Proof. intros [z Hz]. exists z. rewrite Hz. solve_Permutation. Qed.

Lemma cancels_Forall (P : SubgraphTaggedUpdate → Prop) l l' : cancels l l' → Forall P l → Forall P l'.
Proof. intros [z Hz]. rewrite Hz, Forall_app. by intros []. Qed.

(** *** The loops of [merge_updates] *)

Lemma keep_loop_ok k cur buf i keep :
  keep ≤ i → i + k = length buf →
  ∃ buf' keep', keep_loop k cur buf i keep = Ok (buf', keep') ∧ length buf' = length buf ∧
    keep' ≤ length buf ∧
    take keep' buf' = take keep buf ++ filter (λ t, cur ≤ subgraph t) (drop i buf).
Proof.
  revert buf i keep. induction k as [|k IH]; intros buf i keep Hk Hi.
  { exists buf, keep. rewrite drop_ge by lia. rewrite filter_nil, app_nil_r. split_and!; (done || lia). }
  cbn [keep_loop]. destruct (lookup_lt_is_Some_2 buf i) as [x Hx]; [lia|].
  rewrite (arr_get_Ok _ _ _ Hx). cbn [mbind outcome_bind].
  rewrite (drop_S buf x i Hx), filter_cons. case_decide as Hc.
  - destruct (IH (<[keep:=x]> buf) (S i) (S keep)) as (buf' & keep' & Hrun & Hl & Hle & Ht);
      [lia|rewrite length_insert; lia|].
    rewrite length_insert in Hl, Hle. exists buf', keep'. split; [done|]. split; [done|]. split; [done|].
    rewrite Ht, (take_S_r _ _ x) by (apply list_lookup_insert_eq; lia).
    rewrite take_insert_ge, drop_insert_lt by lia. by rewrite <- app_assoc.
  - destruct (IH buf (S i) keep) as (buf' & keep' & Hrun & Hl & Hle & Ht); [lia|lia|].
    by exists buf', keep'.
Qed.

(** What a merge has still to account for: what is written, what is unread. *)
Definition merge_rest (m : MergeState) : list SubgraphTaggedUpdate :=
  take (out_ptr m) (m_buf m) ++ drop (buffer_ptr m) (m_buf m) ++ drop (update_ptr m) (m_dst m).

Record merge_inv (m : MergeState) : Prop := {
  mi_out : out_ptr m ≤ buffer_ptr m;
  mi_buf : buffer_ptr m ≤ length (m_buf m);
  mi_upd : update_ptr m ≤ length (m_dst m);
}.

Lemma tagged_eq t u : tagged_gt t u = false → tagged_lt t u = false → t = u.
Proof.
  unfold tagged_gt, tagged_lt. destruct t, u. simpl.
  repeat case_decide; rewrite !bool_decide_eq_false; intros; f_equal; lia.
Qed.

Lemma merge_loop_ok k m :
  merge_inv m → buffer_ptr m + k = length (m_buf m) → update_ptr m < length (m_dst m) →
  ∃ m', merge_loop k m = Ok m' ∧ merge_inv m' ∧ cancels (merge_rest m) (merge_rest m') ∧
    length (m_buf m') = length (m_buf m) ∧ length (m_dst m') = length (m_dst m) ∧
    (buffer_ptr m' = length (m_buf m') ∨ update_ptr m' = length (m_dst m')).
Proof.
  revert m. induction k as [|k IH]; intros m [Ho Hb Hu] Hk Hlt.
  { exists m. split_and!; try done. left. lia. }
  cbn [merge_loop]. destruct m as [buf dst o b u]. cbn [m_buf m_dst out_ptr buffer_ptr update_ptr] in *.
  destruct (lookup_lt_is_Some_2 buf b) as [x Hx]; [lia|].
  destruct (lookup_lt_is_Some_2 dst u) as [y Hy]; [lia|].
  rewrite (arr_get_Ok _ _ _ Hx), (arr_get_Ok _ _ _ Hy). cbn [mbind outcome_bind].
  assert (merge_rest (mkMerge buf dst o b u) =
    take o buf ++ (x :: drop (S b) buf) ++ y :: drop (S u) dst) as Hrest.
  { unfold merge_rest. cbn [m_buf m_dst out_ptr buffer_ptr update_ptr].
    by rewrite (drop_S buf x b Hx), (drop_S dst y u Hy). }
  destruct (tagged_gt x y) eqn:Hgt; [|destruct (tagged_lt x y) eqn:Hxy].
  - destruct (IH (mkMerge (<[o:=y]> buf) (<[u:=x]> dst) (S o) (S b) u)) as (m' & Hrun & Hinv & Hp & Hl1 & Hl2 & He).
    { constructor; cbn [m_buf m_dst out_ptr buffer_ptr update_ptr]; rewrite ?length_insert; lia. }
    { cbn [m_buf buffer_ptr]. rewrite length_insert. lia. }
    { cbn [m_dst update_ptr]. rewrite length_insert. lia. }
    cbn [m_buf m_dst] in Hl1, Hl2. rewrite length_insert in Hl1, Hl2.
    exists m'. split; [done|]. split; [done|]. split; [|by split_and!].
    etrans; [|exact Hp]. rewrite Hrest. unfold merge_rest. cbn [m_buf m_dst out_ptr buffer_ptr update_ptr].
    rewrite (take_S_r _ _ y) by (apply list_lookup_insert_eq; lia).
    rewrite (drop_S (<[u:=x]> dst) x u) by (apply list_lookup_insert_eq; lia).
    rewrite take_insert_ge, !drop_insert_lt by lia. apply perm_cancels. solve_Permutation.
  - destruct (IH (mkMerge (<[o:=x]> buf) dst (S o) (S b) u)) as (m' & Hrun & Hinv & Hp & Hl1 & Hl2 & He).
    { constructor; cbn [m_buf m_dst out_ptr buffer_ptr update_ptr]; rewrite ?length_insert; lia. }
    { cbn [m_buf buffer_ptr]. rewrite length_insert. lia. }
    { done. }
    cbn [m_buf m_dst] in Hl1, Hl2. rewrite length_insert in Hl1.
    exists m'. split; [done|]. split; [done|]. split; [|by split_and!].
    etrans; [|exact Hp]. rewrite Hrest. unfold merge_rest. cbn [m_buf m_dst out_ptr buffer_ptr update_ptr].
    rewrite (take_S_r _ _ x) by (apply list_lookup_insert_eq; lia).
    rewrite take_insert_ge, drop_insert_lt by lia. rewrite (drop_S dst y u Hy).
    apply perm_cancels. solve_Permutation.
  - pose proof (tagged_eq x y Hgt Hxy) as <-.
    assert (cancels (merge_rest (mkMerge buf dst o b u)) (merge_rest (mkMerge buf dst o (S b) (S u))))
      as Hpar.
    { rewrite Hrest. unfold merge_rest. cbn [m_buf m_dst out_ptr buffer_ptr update_ptr].
      etrans; [|apply (cancels_pair x)]. apply perm_cancels. solve_Permutation. }
    case_decide as Hend.
    + eexists. split; [done|]. cbn [m_buf m_dst out_ptr buffer_ptr update_ptr].
      split; [constructor; cbn [m_buf m_dst out_ptr buffer_ptr update_ptr]; lia|].
      split; [done|]. do 2 (split; [done|]). right. lia.
    + destruct (IH (mkMerge buf dst o (S b) (S u))) as (m' & Hrun & Hinv & Hp & Hl1 & Hl2 & He).
      { constructor; cbn [m_buf m_dst out_ptr buffer_ptr update_ptr]; lia. }
      { cbn [m_buf buffer_ptr]. lia. } { cbn [m_dst update_ptr]. lia. }
      exists m'. split; [done|]. split; [done|]. split; [by etrans|]. by split_and!.
Qed.

Lemma copy_updates_ok k buf dst o u :
  u + k ≤ length dst → o + k ≤ length buf →
  copy_updates k buf dst o u = Ok (take o buf ++ take k (drop u dst) ++ drop (o + k) buf, o + k).
Proof.
  revert buf o u. induction k as [|k IH]; intros buf o u Hu Ho.
  { simpl. by rewrite Nat.add_0_r, take_drop. }
  cbn [copy_updates]. destruct (lookup_lt_is_Some_2 dst u) as [y Hy]; [lia|].
  rewrite (arr_get_Ok _ _ _ Hy). cbn [mbind outcome_bind].
  rewrite IH by (rewrite ?length_insert; lia).
  rewrite (take_S_r _ _ y) by (apply list_lookup_insert_eq; lia).
  rewrite take_insert_ge, drop_insert_lt by lia. rewrite (drop_S dst y u Hy).
  replace (S o + k) with (o + S k) by lia. simpl. by rewrite <- app_assoc.
Qed.

Lemma copy_buffer_ok k buf o b :
  o ≤ b → b + k ≤ length buf →
  ∃ buf', copy_buffer k buf o b = Ok (buf', o + k) ∧ length buf' = length buf ∧
    take (o + k) buf' = take o buf ++ take k (drop b buf).
Proof.
  revert buf o b. induction k as [|k IH]; intros buf o b Ho Hb.
  { exists buf. rewrite Nat.add_0_r. simpl. by rewrite app_nil_r. }
  cbn [copy_buffer]. destruct (lookup_lt_is_Some_2 buf b) as [x Hx]; [lia|].
  rewrite (arr_get_Ok _ _ _ Hx). cbn [mbind outcome_bind].
  destruct (IH (<[o:=x]> buf) (S o) (S b)) as (buf' & -> & Hl & Ht); [lia|rewrite length_insert; lia|].
  rewrite length_insert in Hl. replace (o + S k) with (S o + k) by lia.
  exists buf'. split; [done|]. split; [done|]. rewrite Ht.
  rewrite (take_S_r _ _ x) by (apply list_lookup_insert_eq; lia).
  rewrite take_insert_ge, drop_insert_lt by lia. rewrite (drop_S buf x b Hx).
  simpl. by rewrite <- app_assoc.
Qed.

(** *** Sorting *)

Lemma tagged_le_spec t u :
  tagged_le t u ↔ subgraph t < subgraph u ∨ (subgraph t = subgraph u ∧ tdst t ≤ tdst u).
Proof.
  unfold tagged_le, tagged_lt. case_decide; rewrite bool_decide_eq_false; lia.
Qed.

#[global] Instance tagged_le_trans : Transitive tagged_le.
Proof. intros t u v. rewrite !tagged_le_spec. lia. Qed.

#[global] Instance tagged_le_total : Total tagged_le.
Proof. intros t u. rewrite !tagged_le_spec. lia. Qed.

Lemma sort_tagged_perm l : sort_tagged l ≡ₚ l.
Proof. apply merge_sort_Permutation. Qed.

Lemma sort_tagged_sorted l : StronglySorted tagged_le (sort_tagged l).
Proof. apply StronglySorted_merge_sort; apply _. Qed.

Definition kept (cur : nat) l : list SubgraphTaggedUpdate := filter (λ t, cur ≤ subgraph t) l.

Lemma Forall_kept (P : SubgraphTaggedUpdate → Prop) cur l : Forall P l → Forall P (kept cur l).
Proof. rewrite !Forall_forall. intros Hl t. unfold kept. rewrite list_elem_of_filter. naive_solver. Qed.

Lemma kept_ge cur l : Forall (λ t, cur ≤ subgraph t) (kept cur l).
Proof. apply Forall_forall. intros t. unfold kept. rewrite list_elem_of_filter. naive_solver. Qed.

Lemma kept_all cur l : Forall (λ t, cur ≤ subgraph t) l → kept cur l = l.
Proof.
  unfold kept. induction 1 as [|t l Ht _ IH]; [done|]. rewrite filter_cons_True by done. by rewrite IH.
Qed.

(** On sorted updates the first loop finds those to keep. *)
Lemma skip_loop_ok fuel cur pre rest :
  Forall (λ t, subgraph t < cur) pre → StronglySorted tagged_le rest → length rest < fuel →
  skip_loop fuel cur (pre ++ rest) (length pre) =
    if decide (kept cur rest = []) then Throw OutOfBounds
    else Ok (length (pre ++ rest) - length (kept cur rest)).
Proof.
  revert pre rest. induction fuel as [|fuel IH]; intros pre rest Hpre Hs Hlen; [lia|].
  cbn [skip_loop]. destruct rest as [|t rest].
  - rewrite decide_True by done. unfold arr_get.
    by rewrite lookup_ge_None_2 by (rewrite length_app; simpl; lia).
  - assert ((pre ++ t :: rest) !! length pre = Some t) as Ht by by apply list_lookup_middle.
    rewrite (arr_get_Ok _ _ _ Ht). cbn [mbind outcome_bind].
    apply StronglySorted_inv in Hs as [Hs Hall]. simpl in Hlen. destruct (decide (subgraph t < cur)).
    + replace (S (length pre)) with (length (pre ++ [t])) by (rewrite length_app; simpl; lia).
      replace (pre ++ t :: rest) with ((pre ++ [t]) ++ rest) by by rewrite <- app_assoc.
      rewrite IH; [|by apply Forall_app; split; [|constructor]|done|lia].
      unfold kept. by rewrite (filter_cons_False (λ t, cur ≤ subgraph t) t) by lia.
    + rewrite kept_all, decide_False; [|done|].
      * f_equal. rewrite length_app. lia.
      * constructor; [lia|]. eapply Forall_impl; [exact Hall|]. intros u Hu.
        apply tagged_le_spec in Hu. lia.
Qed.

Lemma kept_sorted cur dst :
  StronglySorted tagged_le dst → drop (length dst - length (kept cur dst)) dst = kept cur dst.
Proof.
  induction 1 as [|t l Hs IH Hall]; [done|]. unfold kept in *. rewrite filter_cons. case_decide.
  - assert (filter (λ t, cur ≤ subgraph t) l = l) as ->.
    { apply kept_all. eapply Forall_impl; [exact Hall|]. intros u Hu. apply tagged_le_spec in Hu. lia. }
    by rewrite Nat.sub_diag.
  - pose proof (length_filter (λ t, cur ≤ subgraph t) l).
    cbn [length]. rewrite Nat.sub_succ_l by lia. exact IH.
Qed.

Lemma take_resize k buf : k ≤ length buf → take k buf = resize k buf.
Proof. intros Hk. unfold resize. by rewrite (proj2 (Nat.sub_0_le _ _)) , app_nil_r by lia. Qed.

Lemma take_of_resize o k buf : o ≤ length buf → o ≤ k → take o (resize k buf) = take o buf.
Proof.
  intros Ho Hk. unfold resize. rewrite take_app_le by (rewrite length_take; lia).
  rewrite take_take. by rewrite Nat.min_l by lia.
Qed.

Lemma length_resize k buf : length (resize k buf) = k.
Proof. unfold resize. rewrite length_app, length_take, length_replicate. lia. Qed.

(** The whole merge: with an update to keep, the buffer's new content is the old
    one with those updates, up to pairs of equal ones. *)
Lemma merge_updates_ok cur buf dst :
  StronglySorted tagged_le dst → kept cur dst ≠ [] →
  ∃ buf', merge_updates cur buf dst = Ok (buf', length buf') ∧
    cancels (buf ++ kept cur dst) buf'.
Proof.
  intros Hs Hne. unfold merge_updates.
  pose proof (skip_loop_ok (S (length dst)) cur [] dst) as Hsk. cbn [app length] in Hsk.
  rewrite Hsk by (constructor || done || lia). clear Hsk. rewrite decide_False by done. cbn [mbind outcome_bind]. cbn [app].
  set (up := length dst - length (kept cur dst)).
  assert (0 < length (kept cur dst)) by (destruct (kept cur dst); [done|simpl; lia]).
  pose proof (length_filter (λ t, cur ≤ subgraph t) dst) as Hfl. fold (kept cur dst) in Hfl.
  destruct (merge_loop_ok (length buf) (mkMerge buf dst 0 0 up))
    as (m & -> & [Ho Hb Hu] & Hp & Hlb & Hld & He).
  { constructor; cbn [m_buf m_dst out_ptr buffer_ptr update_ptr]; unfold up; lia. } { done. }
  { cbn [m_dst update_ptr]. unfold up. lia. }
  cbn [mbind outcome_bind m_buf m_dst] in *.
  unfold merge_rest in Hp at 1. cbn [m_buf m_dst out_ptr buffer_ptr update_ptr] in Hp.
  change (take 0 buf) with (@nil SubgraphTaggedUpdate) in Hp. rewrite drop_0 in Hp.
  unfold up in Hp. rewrite (kept_sorted cur dst Hs) in Hp. cbn [app] in Hp.
  set (k1 := length dst - update_ptr m). set (k2 := length buf - buffer_ptr m).
  set (new_size := out_ptr m + k1 + k2).
  set (bufR := resize (new_size `max` length buf) (m_buf m)).
  assert (length bufR = new_size `max` length buf) as HlR by apply length_resize.
  rewrite copy_updates_ok by lia. cbn [mbind outcome_bind fst snd].
  set (buf2 := take (out_ptr m) bufR ++ take k1 (drop (update_ptr m) (m_dst m)) ++
                 drop (out_ptr m + k1) bufR).
  assert (length buf2 = length bufR) as Hl2.
  { unfold buf2. rewrite !length_app, !length_take, !length_drop. lia. }
  assert (∃ buf3, copy_buffer k2 buf2 (out_ptr m + k1) (buffer_ptr m) = Ok (buf3, new_size) ∧
    length buf3 = length bufR ∧ take new_size buf3 = merge_rest m) as (buf3 & -> & Hl3 & Ht).
  { assert (take (out_ptr m) bufR = take (out_ptr m) (m_buf m)) as Ht0
      by (apply take_of_resize; lia).
    destruct He as [He|He].
    - assert (k2 = 0) as Hk2 by lia. rewrite Hk2. exists buf2.
      replace new_size with (out_ptr m + k1) by lia. split; [done|]. split; [done|].
      unfold buf2, merge_rest. rewrite Ht0, (drop_ge (m_buf m)) by lia. cbn [app].
      rewrite (take_ge (drop (update_ptr m) _)) by (rewrite length_drop; lia).
      rewrite app_assoc, take_app_le, take_ge
        by (rewrite ?length_app, ?length_take, ?length_drop; lia). done.
    - assert (k1 = 0) as Hk1 by lia.
      assert (bufR = m_buf m) as HbR.
      { unfold bufR. rewrite <- take_resize by lia. apply take_ge. lia. }
      assert (buf2 = m_buf m) as Hb2.
      { unfold buf2. rewrite Hk1, Nat.add_0_r, HbR. simpl. apply take_drop. }
      rewrite Hb2, Hk1, Nat.add_0_r.
      destruct (copy_buffer_ok k2 (m_buf m) (out_ptr m) (buffer_ptr m)) as (buf3 & Hrun & Hl3 & Ht);
        [lia|lia|]. replace (out_ptr m + k2) with new_size in * by lia.
      exists buf3. split; [done|]. split; [by rewrite HbR|]. rewrite Ht. unfold merge_rest.
      rewrite (drop_ge (m_dst m)) by lia. rewrite app_nil_r. f_equal. apply take_ge.
      rewrite length_drop. lia. }
  cbn [fst snd]. exists (resize new_size buf3). rewrite length_resize. split; [done|].
  by rewrite <- take_resize, Ht by lia.
Qed.

(** Without one the first loop runs out of the array. *)
Lemma merge_updates_none cur buf dst :
  StronglySorted tagged_le dst → kept cur dst = [] → merge_updates cur buf dst = Throw OutOfBounds.
Proof.
  intros Hs Hk. unfold merge_updates.
  pose proof (skip_loop_ok (S (length dst)) cur [] dst) as Hsk. cbn [app length] in Hsk.
  rewrite Hsk by (constructor || done || lia). by rewrite decide_True.
Qed.

(** C39. Merging a batch into a vertex's buffer: when some update is for the store,
    the new buffer holds the old one and the updates to keep, less pairs of equal
    ones, and its length is the reported one; when none is, the loop that skips the
    others reads past the end of the batch. *)
Theorem merge_updates_outcome cur buf dsts :
  if decide (kept cur dsts = []) then merge_updates cur buf (sort_tagged dsts) = Throw OutOfBounds
  else ∃ buf' z, merge_updates cur buf (sort_tagged dsts) = Ok (buf', length buf') ∧
    buf ++ kept cur dsts ≡ₚ buf' ++ z ++ z.
Proof.
  assert (kept cur (sort_tagged dsts) ≡ₚ kept cur dsts) as Hk.
  { unfold kept. by rewrite sort_tagged_perm. }
  pose proof (sort_tagged_sorted dsts) as Hs. case_decide as Hnil.
  - apply merge_updates_none; [done|]. rewrite Hnil in Hk. by apply Permutation_nil_r in Hk.
  - destruct (merge_updates_ok cur buf (sort_tagged dsts) Hs) as (buf' & Hrun & z & Hz).
    { intros He. rewrite He in Hk. symmetry in Hk. by apply Permutation_nil_r in Hk. }
    exists buf', z. split; [done|]. by rewrite <- Hz, Hk.
Qed.

(** A pair that the merge misses: the exchange leaves the rest of the batch out of
    order, the insertion and the deletion of the edge to 7 never meet, and
    [get_edges] reports the deleted edge, twice. *)
Lemma deleted_edge_stays :
  merge_updates 0 [mkTagged 0 1; mkTagged 0 5; mkTagged 0 7] [mkTagged 0 1; mkTagged 0 2; mkTagged 0 7] =
  Ok ([mkTagged 0 2; mkTagged 0 5; mkTagged 0 7; mkTagged 0 7], 4).
Proof. by vm_compute. Qed.
