(* ===== verification/McGpu.v ===== *)
(** * The GPU minimum cut algorithm: src/include/mc_gpu_sketch_alg.h and
    src/src/mc_gpu_sketch_alg.cpp

    Class [MCGPUSketchAlg] gives every update of an edge to the sketch graphs
    [0 .. depth] and keeps it in the edge store while its depth is at least the
    store's first subgraph. Each sketch graph has a gutter per vertex and a stream
    to the GPU per thread. A stream is the sequence of calls made to it; what these
    do to the sketches is in [CudaStream]. Batches are modelled as running one
    after the other. *)

From Stdlib Require Import NArith Lia.
From stdpp Require Import base list gmap sets numbers sorting relations.
From S2P Require Import Prelude Float64 Util Bucket Sketch Configuration Graph CCSketchAlg MCSketchAlg EdgeStore.

(** [std::memcpy(&dst[pos], src, n)] on arrays of node ids. *)
Definition memcpy (target : list nat) (pos : nat) (source : list nat) (n : nat) : outcome (list nat) :=
  if decide (pos + n ≤ length target ∧ n ≤ length source)
  then Ok (take pos target ++ take n source ++ drop (pos + n) target) else Throw OutOfBounds.

Definition resize_ids (n : nat) (l : list nat) : list nat := take n l ++ replicate (n - length l) 0.

Record Gutter := mkGutter { elms : nat; data : list nat }.

Inductive StreamCall :=
  | ProcessBatch (src_vertex : nat) (dst_vertices : list nat)
  | FlushBuffers.

(** [cuda_streams] is [None] before [initialize]. *)
Record SketchSubgraph := mkSub {
  num_updates : N;
  cuda_streams : option (list (list StreamCall));
  sub_batch_size : nat;
  subgraph_gutters : list Gutter;
}.

Module SketchSubgraph.

Definition uninitialized : SketchSubgraph := mkSub 0 None 0 [].

Definition initialize (num_nodes num_host_threads batch_size : nat) : SketchSubgraph :=
  mkSub 0 (Some (replicate num_host_threads [])) batch_size
    (replicate num_nodes (mkGutter 0 (replicate batch_size 0))).

Definition apply_update_batch (thr_id src : nat) (dst_vertices : list nat) (sg : SketchSubgraph)
    : outcome SketchSubgraph :=
  match cuda_streams sg with
  | None => Throw RuntimeError
  | Some streams =>
      calls ← arr_get streams thr_id;
      Ok (mkSub (u64 (num_updates sg + N.of_nat (length dst_vertices)))
            (Some (<[thr_id := calls ++ [ProcessBatch src dst_vertices]]> streams))
            (sub_batch_size sg) (subgraph_gutters sg))
  end.

Definition set_gutter (sg : SketchSubgraph) (v : nat) (g : Gutter) : SketchSubgraph :=
  mkSub (num_updates sg) (cuda_streams sg) (sub_batch_size sg) (<[v := g]> (subgraph_gutters sg)).

(** [elms] is never more than [batch_size], so the subtraction does not wrap. *)
Definition batch_insert (thr_id src : nat) (dsts : list nat) (num_elms : nat) (sg : SketchSubgraph)
    : outcome SketchSubgraph :=
  gutter ← arr_get (subgraph_gutters sg) src;
  let capacity := sub_batch_size sg - elms gutter in
  d ← memcpy (data gutter) (elms gutter) dsts (num_elms `min` capacity);
  let gutter := mkGutter (elms gutter + num_elms `min` capacity) d in
  if decide (capacity ≤ num_elms) then
    sg ← apply_update_batch thr_id src (data gutter) (set_gutter sg src gutter);
    let num_left := num_elms - capacity in
    d ← memcpy (data gutter) 0 (drop capacity dsts) num_left;
    Ok (set_gutter sg src (mkGutter num_left d))
  else Ok (set_gutter sg src gutter).

(** The loop of [flush] over the gutters. *)
Definition flush_gutter (sg : SketchSubgraph) (v : nat) : outcome SketchSubgraph :=
  gutter ← arr_get (subgraph_gutters sg) v;
  if decide (0 < elms gutter) then
    let d := resize_ids (elms gutter) (data gutter) in
    sg ← apply_update_batch 0 v d sg;
    Ok (set_gutter sg v (mkGutter 0 (resize_ids (sub_batch_size sg) d)))
  else Ok sg.

Definition flush (num_nodes : nat) (sg : SketchSubgraph) : outcome SketchSubgraph :=
  sg ← outcome_fold flush_gutter sg (seq 0 num_nodes);
  match cuda_streams sg with
  | None => Ok sg
  | Some streams =>
      Ok (mkSub (num_updates sg) (Some ((λ calls, calls ++ [FlushBuffers]) <$> streams))
            (sub_batch_size sg) (subgraph_gutters sg))
  end.

End SketchSubgraph.

Record MCGPUSketchAlg := mkMcGpu {
  mc : MCSketchAlg;
  gpu_num_nodes : nat;
  gpu_num_subgraphs : nat;
  cur_subgraphs : nat;
  num_host_threads : nat;
  gpu_batch_size : nat;
  gpu_seed : N;
  subgraphs : list SketchSubgraph;
  edge_store : EdgeStore;
}.

Definition set_subgraphs (a : MCGPUSketchAlg) (sgs : list SketchSubgraph) : MCGPUSketchAlg :=
  mkMcGpu (mc a) (gpu_num_nodes a) (gpu_num_subgraphs a) (cur_subgraphs a) (num_host_threads a)
    (gpu_batch_size a) (gpu_seed a) sgs (edge_store a).
Definition set_store (a : MCGPUSketchAlg) (es : EdgeStore) : MCGPUSketchAlg :=
  mkMcGpu (mc a) (gpu_num_nodes a) (gpu_num_subgraphs a) (cur_subgraphs a) (num_host_threads a)
    (gpu_batch_size a) (gpu_seed a) (subgraphs a) es.

Section ops.
Context `{BuildConfig, Libm, Hashing}.

(** Initialises the next sketch graph: [subgraphs[cur_subgraphs].initialize] and
    [create_sketch_graph]. *)
Definition add_sketch_graph (a : MCGPUSketchAlg) : outcome MCGPUSketchAlg :=
  sgs ← arr_set (subgraphs a) (cur_subgraphs a)
          (SketchSubgraph.initialize (gpu_num_nodes a) (num_host_threads a) (gpu_batch_size a));
  Ok (mkMcGpu (MC.create_sketch_graph (cur_subgraphs a) (mc a)) (gpu_num_nodes a)
        (gpu_num_subgraphs a) (S (cur_subgraphs a)) (num_host_threads a) (gpu_batch_size a)
        (gpu_seed a) sgs (edge_store a)).

(** The constructor without the CUDA set-up. [exit] when there are more initial
    graphs than allowed; the loop runs up to [cur_subgraphs], which is set before. *)
Definition new_MCGPUSketchAlg (nv threads subgraphs_ max_graphs initial : nat) (sd sketch_bytes junk : N)
    (prio : list N) (cfg : CCAlgConfiguration) : outcome MCGPUSketchAlg :=
  let m := MC.new_MCSketchAlg nv sd prio max_graphs cfg in
  if decide (max_graphs < initial) then Throw RuntimeError
  else
    batch ← MC.get_desired_updates_per_batch m;
    a ← outcome_fold (λ a _, add_sketch_graph a)
          (mkMcGpu m nv subgraphs_ 0 threads (N.to_nat batch) sd
             (replicate max_graphs SketchSubgraph.uninitialized)
             (new_EdgeStore sd nv sketch_bytes subgraphs_ initial junk))
          (seq 0 initial);
    Ok a.

Definition batch_insert_at (graph_id thr_id src : nat) (dsts : list nat) (num_elms : nat)
    (a : MCGPUSketchAlg) : outcome MCGPUSketchAlg :=
  sg ← arr_get (subgraphs a) graph_id;
  sg ← SketchSubgraph.batch_insert thr_id src dsts num_elms sg;
  Ok (set_subgraphs a (<[graph_id := sg]> (subgraphs a))).

(** The algorithm and the local buffers of [complete_update_batch]. *)
Record LocalBuffers := mkLocal {
  alg : MCGPUSketchAlg;
  subgraph_buffers : list (list nat);
  buffer_sizes : list nat;
}.

(** One update into the buffer of one graph; a full buffer goes to its gutters. *)
Definition push_update (thr_id src_vertex d : nat) (l : LocalBuffers) (graph_id : nat)
    : outcome LocalBuffers :=
  size ← arr_get (buffer_sizes l) graph_id;
  buf ← arr_get (subgraph_buffers l) graph_id;
  buf ← arr_set buf size d;
  let bufs := <[graph_id := buf]> (subgraph_buffers l) in
  if decide (16 ≤ S size) then
    a ← batch_insert_at graph_id thr_id src_vertex buf (S size) (alg l);
    Ok (mkLocal a bufs (<[graph_id := 0]> (buffer_sizes l)))
  else Ok (mkLocal (alg l) bufs (<[graph_id := S size]> (buffer_sizes l))).

(** The graphs from [min_subgraph] to [update_subgraphs]. *)
Definition graph_range (min_subgraph : N) (update_subgraphs : nat) : list nat :=
  if (min_subgraph <=? N.of_nat update_subgraphs)%N
  then seq (N.to_nat min_subgraph) (S update_subgraphs - N.to_nat min_subgraph) else [].

Definition push_tagged (thr_id src_vertex : nat) (min_subgraph : N) (first_es : nat)
    (l : LocalBuffers) (t : SubgraphTaggedUpdate) : outcome LocalBuffers :=
  outcome_fold (push_update thr_id src_vertex (tdst t)) l
    (graph_range min_subgraph (subgraph t `min` (first_es - 1))).

Definition flush_local (thr_id src_vertex : nat) (l : LocalBuffers) (i : nat) : outcome LocalBuffers :=
  size ← arr_get (buffer_sizes l) i;
  if decide (0 < size) then
    buf ← arr_get (subgraph_buffers l) i;
    a ← batch_insert_at i thr_id src_vertex buf size (alg l);
    Ok (mkLocal a (subgraph_buffers l) (buffer_sizes l))
  else Ok l.

Definition complete_update_batch (thr_id : nat) (updates : TaggedUpdateBatch) (a : MCGPUSketchAlg)
    : outcome MCGPUSketchAlg :=
  let first_es := first_es_subgraph updates in
  if decide (first_es = 0) then Throw RuntimeError
  else
    a ← (if decide (cur_subgraphs a < first_es) then add_sketch_graph a else Ok a);
    l ← outcome_fold (push_tagged thr_id (b_src updates) (min_subgraph updates) first_es)
          (mkLocal a (replicate first_es (replicate 16 0)) (replicate 16 0)) (dsts_data updates);
    l ← outcome_fold (flush_local thr_id (b_src updates)) l (seq 0 first_es);
    Ok (alg l).

Definition complete_if_any (thr_id : nat) (more_upds : TaggedUpdateBatch) (a : MCGPUSketchAlg)
    : outcome MCGPUSketchAlg :=
  if decide (0 < length (dsts_data more_upds)) then complete_update_batch thr_id more_upds a else Ok a.

(** [store_edges] and [sketch_edges] are arrays of [batch_size] entries. *)
Definition apply_update_batch (thr_id src_vertex : nat) (dst_vertices : list nat) (a : MCGPUSketchAlg)
    : outcome MCGPUSketchAlg :=
  if update_locked (core (mc a)) then Throw UpdateLockedException
  else
    let first_es := cur_subgraph (edge_store a) in
    if decide (first_es = 0) then
      r ← insert_adj_edges src_vertex dst_vertices (edge_store a);
      complete_if_any thr_id r.1 (set_store a r.2)
    else if decide (gpu_batch_size a < length dst_vertices) then Throw OutOfBounds
    else
      let sketch_edges := tag (gpu_seed a) (gpu_num_subgraphs a - 1) src_vertex <$> dst_vertices in
      let store_edges := filter (λ t, first_es ≤ subgraph t) sketch_edges in
      r ← insert_tagged src_vertex first_es store_edges (edge_store a);
      let a := set_store a r.2 in
      a ← (if decide (0 < length sketch_edges)
           then complete_update_batch thr_id (mkTaggedBatch src_vertex 0 first_es sketch_edges) a
           else Ok a);
      complete_if_any thr_id r.1 a.

(** One thread of [apply_flush_updates]. *)
Fixpoint flush_task (fuel thr_id : nat) (a : MCGPUSketchAlg) : outcome MCGPUSketchAlg :=
  match fuel with
  | O => Throw OutOfFuel
  | S fuel =>
      if contract_in_progress (edge_store a) then
        r ← vertex_advance_subgraph (cur_subgraph (edge_store a)) (edge_store a);
        a ← complete_if_any thr_id r.1 (set_store a r.2);
        flush_task fuel thr_id a
      else Ok a
  end.

Definition flush_subgraph (a : MCGPUSketchAlg) (graph_id : nat) : outcome MCGPUSketchAlg :=
  sg ← arr_get (subgraphs a) graph_id;
  sg ← SketchSubgraph.flush (gpu_num_nodes a) sg;
  Ok (set_subgraphs a (<[graph_id := sg]> (subgraphs a))).

Definition apply_flush_updates (a : MCGPUSketchAlg) : outcome MCGPUSketchAlg :=
  a ← outcome_fold (λ a thr_id, flush_task (S (S (S (gpu_num_nodes a)))) thr_id a) a
        (seq 0 (num_host_threads a));
  outcome_fold flush_subgraph a (seq 0 (cur_subgraphs a)).

Definition get_adjlist_spanning_forests (a : MCGPUSketchAlg) : list Edge := get_edges (edge_store a).
End ops.
