(* ===== verification/EdgeStoreInv.v ===== *)
(** * What the edge store promises its caller: src/src/edge_store.cpp

    An update of an edge belongs to the sketch graphs up to the edge's depth. The
    store and the sketch graphs below [cur_subgraph] share every vertex's updates:
    [store_inv] says which side has what, during a contraction too, and every
    operation keeps it once the batch it hands out has been delivered. *)

From Stdlib Require Import NArith Lia.
From stdpp Require Import base list gmap sets numbers sorting relations.
From S2P Require Import Prelude Util Bucket Graph EdgeStore EdgeStoreSpec.

Lemma toggle_all_filter `{Countable A} (P : A → Prop) `{∀ x, Decision (P x)} (l : list A) :
  toggle_all (filter P l) (∅ : gset A) = filter P (toggle_all l ∅).
Proof.
  induction l as [|t l IH] using rev_ind; [done|].
  rewrite list.filter_app, !toggle_all_app, IH. unfold toggle_all at 3. cbn [foldl].
  rewrite filter_cons, filter_nil. unfold toggle_all at 1. apply set_eq. intros u.
  case_decide; cbn [foldl]; rewrite ?elem_of_toggle, !elem_of_filter, ?elem_of_toggle.
  - destruct (decide (u = t)); naive_solver.
  - naive_solver.
Qed.

(** The destinations that occur an odd number of times. *)
Definition dpar (l : list SubgraphTaggedUpdate) : gset nat := toggle_all (tdst <$> l) ∅.

Lemma cancels_dpar l l' : cancels l l' → dpar l = dpar l'.
Proof.
  intros [z Hz]. unfold dpar. rewrite (toggle_all_perm _ _ _ (fmap_Permutation tdst _ _ Hz)).
  by rewrite !fmap_app, !toggle_all_app, toggle_all_involutive.
Qed.

Lemma dpar_perm l l' : l ≡ₚ l' → dpar l = dpar l'.
Proof. intros Hp. by apply cancels_dpar, perm_cancels. Qed.

Lemma dpar_app l l' : dpar (l ++ l') = symdiff (dpar l) (dpar l').
Proof. unfold dpar. by rewrite fmap_app, toggle_all_app, (toggle_all_empty (tdst <$> l')). Qed.

(** *** One vertex *)

Section vertex.
Context (bound : nat) (dep : nat → nat).

(** Up to [bound], an update's tag says the depth of its edge. *)
Definition tag_ok (t : SubgraphTaggedUpdate) : Prop :=
  ∀ g, g ≤ bound → g ≤ subgraph t ↔ g ≤ dep (tdst t).

(** The updates of the edges in graph [g]. *)
Definition want (hist : list nat) (g : nat) : gset nat :=
  toggle_all (filter (λ d, g ≤ dep d) hist) ∅.

Lemma dpar_filter g l :
  Forall tag_ok l → g ≤ bound →
  dpar (filter (λ t, g ≤ subgraph t) l) = filter (λ d, g ≤ dep d) (dpar l).
Proof.
  intros Hl Hg. unfold dpar. rewrite <- toggle_all_filter. f_equal.
  induction Hl as [|t l Ht _ IH]; [done|]. rewrite fmap_cons, !filter_cons, <- IH.
  specialize (Ht g Hg). repeat case_decide; (done || naive_solver).
Qed.

Lemma want_filter hist g g' : g ≤ g' → want hist g' = filter (λ d, g' ≤ dep d) (want hist g).
Proof.
  intros Hg. unfold want. rewrite <- toggle_all_filter. f_equal. rewrite list_filter_filter.
  apply list_filter_iff. intros d. lia.
Qed.

Lemma want_app hist hist' g : want (hist ++ hist') g = symdiff (want hist g) (want hist' g).
Proof. unfold want. by rewrite list.filter_app, toggle_all_app, (toggle_all_empty (filter _ hist')). Qed.

Lemma dpar_want g ts :
  Forall tag_ok ts → g ≤ bound → dpar (filter (λ t, g ≤ subgraph t) ts) = want (tdst <$> ts) g.
Proof. intros Ht Hg. rewrite dpar_filter by done. unfold want. by rewrite toggle_all_filter. Qed.

(** The share of the store and of the graphs [got], for a vertex that has been
    contracted to [cur] and for one that is still at [tmin]. *)
Definition vertex_inv (cur tmin : nat) (contracted : bool) (l : list SubgraphTaggedUpdate)
    (got : nat → gset nat) (hist : list nat) : Prop :=
  Forall tag_ok l ∧ (∀ g, cur ≤ g → got g = ∅) ∧
  if contracted then
    Forall (λ t, cur ≤ subgraph t) l ∧ dpar l = want hist cur ∧ ∀ g, g < cur → got g = want hist g
  else
    cur = S tmin ∧ Forall (λ t, tmin ≤ subgraph t) l ∧
    dpar (filter (λ t, cur ≤ subgraph t) l) = want hist cur ∧
    (∀ g, g < tmin → got g = want hist g) ∧ symdiff (got tmin) (dpar l) = want hist tmin.

(** The updates [ts] at this vertex, delivered to the graphs from [lo] to [hi]. *)
Definition sent (lo hi : nat) (ts : list SubgraphTaggedUpdate) (got got' : nat → gset nat) : Prop :=
  ∀ g, got' g =
    if decide (lo ≤ g < hi) then symdiff (got g) (dpar (filter (λ t, g ≤ subgraph t) ts)) else got g.

Lemma vertex_inv_contract cur tmin l got got' hist :
  vertex_inv cur tmin false l got hist → cur ≤ bound → sent tmin cur l got got' →
  vertex_inv cur tmin true (kept cur l) got' hist.
Proof.
  intros (Htag & Hnew & -> & Hge & Hst & Hlt & Hpar) Hb Hsent.
  assert (∀ g, g < S tmin → got' g = want hist g) as Hgot.
  { intros g Hg. rewrite Hsent. case_decide; [|apply Hlt; lia].
    replace g with tmin by lia. fold (kept tmin l). rewrite kept_all; done. }
  split; [by apply Forall_kept|].
  split; [intros g Hg; rewrite Hsent, decide_False by lia; by apply Hnew|]. split; [apply kept_ge|done].
Qed.

(** New updates at a contracted vertex: those to keep are merged in, all of them
    go to the graphs. *)
Lemma vertex_inv_insert cur tmin l l' got got' hist ts :
  vertex_inv cur tmin true l got hist → cur ≤ bound → Forall tag_ok ts →
  cancels (l ++ kept cur ts) l' → sent 0 cur ts got got' →
  vertex_inv cur tmin true l' got' (hist ++ (tdst <$> ts)).
Proof.
  intros (Htag & Hnew & Hge & Hst & Hgot) Hb Hts Hc Hsent.
  split; [|split; [|split; [|split]]].
  - apply (cancels_Forall _ _ _ Hc). apply Forall_app. by split; [|apply Forall_kept].
  - intros g Hg. rewrite Hsent, decide_False by lia. by apply Hnew.
  - apply (cancels_Forall _ _ _ Hc). apply Forall_app. split; [done|apply kept_ge].
  - rewrite <- (cancels_dpar _ _ Hc), dpar_app, Hst, want_app. f_equal. by apply dpar_want.
  - intros g Hg. rewrite Hsent, decide_True, Hgot, want_app by lia. f_equal. apply dpar_want; [done|lia].
Qed.

(** Updates that the store need not keep, at a vertex contracted or not. *)
Lemma vertex_inv_pass cur tmin c l got got' hist ts :
  vertex_inv cur tmin c l got hist → cur ≤ bound → Forall tag_ok ts →
  kept cur ts = [] → sent 0 cur ts got got' →
  vertex_inv cur tmin c l got' (hist ++ (tdst <$> ts)).
Proof.
  intros (Htag & Hnew & Hc) Hb Hts Hk Hsent. split; [done|].
  split; [intros g Hg; rewrite Hsent, decide_False by lia; by apply Hnew|].
  assert (want (tdst <$> ts) cur = ∅) as Hnone.
  { rewrite <- dpar_want by done. change (filter _ ts) with (kept cur ts). by rewrite Hk. }
  assert (∀ g, g < cur → got' g = symdiff (got g) (want (tdst <$> ts) g)) as Hgot.
  { intros g Hg. rewrite Hsent, decide_True by lia. f_equal. apply dpar_want; [done|lia]. }
  destruct c.
  - destruct Hc as (Hge & Hst & Hlt). split; [done|]. split.
    + by rewrite want_app, Hnone, symdiff_empty_r.
    + intros g Hg. by rewrite Hgot, Hlt, want_app.
  - destruct Hc as (-> & Hge & Hst & Hlt & Hpar). split_and!; [done|done| | |].
    + by rewrite want_app, Hnone, symdiff_empty_r.
    + intros g Hg. by rewrite Hgot, Hlt, want_app by lia.
    + rewrite Hgot, want_app, <- Hpar by lia.
      rewrite <- symdiff_assoc, (symdiff_comm (want _ _)), symdiff_assoc. done.
Qed.

(** The start of a contraction. *)
Lemma vertex_inv_start cur tmin l got hist :
  vertex_inv cur tmin true l got hist → S cur ≤ bound → vertex_inv (S cur) cur false l got hist.
Proof.
  intros (Htag & Hnew & Hge & Hst & Hgot) Hb. split; [done|].
  split; [intros g Hg; apply Hnew; lia|]. split_and!; [done|done| |done|].
  - rewrite dpar_filter, Hst by done. symmetry. apply want_filter. lia.
  - by rewrite Hnew, symdiff_empty_l by lia.
Qed.

(** Its end: once contracted, [tmin] no longer matters. *)
Lemma vertex_inv_tmin cur tmin tmin' l got hist :
  vertex_inv cur tmin true l got hist → vertex_inv cur tmin' true l got hist.
Proof. done. Qed.

End vertex.

Lemma vertex_inv_ext bound dep cur tmin c l got got' hist :
  (∀ g, got' g = got g) → vertex_inv bound dep cur tmin c l got hist → vertex_inv bound dep cur tmin c l got' hist.
Proof.
  intros He (Htag & Hnew & Hc). split; [done|]. split; [intros g; rewrite He; apply Hnew|].
  destruct c.
  - destruct Hc as (Hge & Hst & Hlt). split_and!; [done|done|]. intros g Hg. rewrite He. by apply Hlt.
  - destruct Hc as (Heq & Hge & Hst & Hlt & Hpar). split_and!; [done|done|done| |by rewrite He].
    intros g Hg. rewrite He. by apply Hlt.
Qed.

(** The number of stored updates, and its 64-bit counter. *)
Definition stored (es : EdgeStore) : nat := sum_list_with length (adjlist es).

Lemma sum_list_with_replicate_nil {A} n : sum_list_with length (replicate n (@nil A)) = 0.
Proof. by induction n. Qed.

Lemma count_update (s s' a b : N) : (s' + a = s + b)%N → u64 (u64 s + wsub 64 b a) = u64 s'.
Proof.
  intros He. unfold wsub, wrap. rewrite <- N.Div0.add_mod. set (w := (2 ^ 64)%N).
  assert (w ≠ 0%N) as Hw by done. pose proof (N.mod_lt a w Hw). pose proof (N.div_mod a w Hw).
  replace (s + (b + (w - a mod w)))%N with (s' + (1 + a / w) * w)%N by lia.
  apply N.Div0.mod_add.
Qed.

(** *** The store *)

Section store.
Context (bound : nat) (dep : nat → nat → nat).

Record store_inv (es : EdgeStore) (got : nat → nat → gset nat) (hist : nat → list nat) : Prop := {
  si_adj : length (adjlist es) = es_vertices es;
  si_con : length (vertex_contracted es) = es_vertices es;
  si_word : (N.of_nat (es_vertices es) < 2 ^ 32 - 1)%N;
  si_phase : cur_subgraph es = true_min_subgraph es ∨ cur_subgraph es = S (true_min_subgraph es);
  si_bound : cur_subgraph es ≤ bound;
  si_edges : num_edges es = u64 (N.of_nat (stored es));
  si_tickets : cur_subgraph es = S (true_min_subgraph es) →
    (needs_contraction es <= N.of_nat (es_vertices es))%N;
  si_open : ∀ v, vertex_contracted es !! v = Some false →
    cur_subgraph es = S (true_min_subgraph es) ∧ (needs_contraction es <= N.of_nat v)%N;
  si_vertex : ∀ v l c, adjlist es !! v = Some l → vertex_contracted es !! v = Some c →
    vertex_inv bound (dep v) (cur_subgraph es) (true_min_subgraph es) c l (got v) (hist v);
}.

Definition same_store (es es' : EdgeStore) : Prop :=
  es_seed es' = es_seed es ∧ es_vertices es' = es_vertices es ∧ num_subgraphs es' = num_subgraphs es ∧
  cur_subgraph es ≤ cur_subgraph es' ≤ S (cur_subgraph es).

#[local] Ltac same_params := by unfold same_store; cbn; split_and!; (done || lia).

Lemma si_lookup es got hist v :
  store_inv es got hist → v < es_vertices es →
  ∃ l c, adjlist es !! v = Some l ∧ vertex_contracted es !! v = Some c.
Proof.
  intros Hi Hv. destruct (lookup_lt_is_Some_2 (adjlist es) v) as [l Hl]; [by rewrite (si_adj _ _ _ Hi)|].
  destruct (lookup_lt_is_Some_2 (vertex_contracted es) v) as [c Hc]; [by rewrite (si_con _ _ _ Hi)|].
  by exists l, c.
Qed.

(** A step at one vertex. *)
Lemma store_inv_vertex es v l c l' got got' hist hist' :
  store_inv es got hist → adjlist es !! v = Some l → vertex_contracted es !! v = Some c →
  (∀ u, u ≠ v → (∀ g, got' u g = got u g) ∧ hist' u = hist u) →
  vertex_inv bound (dep v) (cur_subgraph es) (true_min_subgraph es) true l' (got' v) (hist' v) →
  store_inv (set_vertex (set_contracted es v) v l'
    (u64 (num_edges es + wsub 64 (N.of_nat (length l')) (N.of_nat (length l))))) got' hist'.
Proof.
  intros [Hadj Hcon Hw Hph Hb He Ht Hop Hvx] Hl Hc Hoth Hv.
  pose proof (lookup_lt_Some _ _ _ Hl) as Hlt. pose proof (lookup_lt_Some _ _ _ Hc) as Hltc.
  constructor; cbn [adjlist vertex_contracted es_vertices cur_subgraph true_min_subgraph num_edges
    needs_contraction set_vertex set_contracted]; rewrite ?length_insert; try done.
  - unfold stored in *. cbn [adjlist set_vertex set_contracted]. rewrite He. apply count_update.
    pose proof (sum_list_with_insert length (adjlist es) v l l' Hl). lia.
  - intros u Hu. destruct (decide (u = v)) as [->|Hne].
    + by rewrite list_lookup_insert_eq in Hu.
    + rewrite list_lookup_insert_ne in Hu by done. by apply Hop.
  - intros u lu cu Hlu Hcu. destruct (decide (u = v)) as [->|Hne].
    + rewrite list_lookup_insert_eq in Hlu by done. rewrite list_lookup_insert_eq in Hcu by done.
      by simplify_eq.
    + rewrite list_lookup_insert_ne in Hlu by done. rewrite list_lookup_insert_ne in Hcu by done.
      destruct (Hoth u Hne) as [Hg ->]. apply (vertex_inv_ext _ _ _ _ _ _ (got u)); [done|].
      by apply Hvx.
Qed.

(** A change of one vertex's graphs only. *)
Lemma store_inv_pass es v got got' hist hist' :
  store_inv es got hist → (∀ u, u ≠ v → (∀ g, got' u g = got u g) ∧ hist' u = hist u) →
  (∀ l c, adjlist es !! v = Some l → vertex_contracted es !! v = Some c →
    vertex_inv bound (dep v) (cur_subgraph es) (true_min_subgraph es) c l (got v) (hist v) →
    vertex_inv bound (dep v) (cur_subgraph es) (true_min_subgraph es) c l (got' v) (hist' v)) →
  store_inv es got' hist'.
Proof.
  intros [Hadj Hcon Hw Hph Hb He Ht Hop Hvx] Hoth Hv. constructor; try done.
  intros u lu cu Hlu Hcu. destruct (decide (u = v)) as [->|Hne]; [by apply Hv; auto|].
  destruct (Hoth u Hne) as [Hg ->]. apply (vertex_inv_ext _ _ _ _ _ _ (got u)); [done|]. by apply Hvx.
Qed.

Lemma store_inv_ext es got got' hist :
  (∀ u g, got' u g = got u g) → store_inv es got hist → store_inv es got' hist.
Proof.
  intros He Hi. apply (store_inv_pass es 0 got _ hist hist Hi); [by intros u _; split|].
  intros l c _ _. apply vertex_inv_ext. apply He.
Qed.

Lemma set_contracted_id es v : vertex_contracted es !! v = Some true → set_contracted es v = es.
Proof. intros Hc. unfold set_contracted. rewrite list_insert_id by done. by destruct es. Qed.

Lemma set_vertex_id es v l : adjlist es !! v = Some l →
  set_vertex es v l (num_edges es) = es.
Proof. intros Hl. unfold set_vertex. rewrite list_insert_id by done. by destruct es. Qed.

(** [vertex_contract] hands out the whole list. *)
Lemma vertex_contract_ok es v l :
  num_edges es = u64 (N.of_nat (stored es)) → adjlist es !! v = Some l → vertex_contracted es !! v = Some false →
  vertex_contract v es =
    Ok (l, set_vertex (set_contracted es v) v (kept (cur_subgraph es) l)
       (u64 (num_edges es + wsub 64 (N.of_nat (length (kept (cur_subgraph es) l))) (N.of_nat (length l))))).
Proof.
  intros He Hl Hc. unfold vertex_contract. rewrite (arr_get_Ok _ _ _ Hc). cbn [mbind outcome_bind].
  cbn [adjlist set_contracted]. rewrite (arr_get_Ok _ _ _ Hl). cbn [mbind outcome_bind].
  case_decide as Hz.
  - apply nil_length_inv in Hz as ->. do 2 f_equal. cbn [kept filter list_filter length].
    assert (u64 (num_edges es + wsub 64 (N.of_nat 0) (N.of_nat 0)) = num_edges es) as ->.
    { rewrite He. by apply count_update. }
    symmetry. by apply (set_vertex_id (set_contracted es v)).
  - destruct (keep_loop_ok (length l) (cur_subgraph es) l 0 0) as (buf' & k' & Hrun & _ & _ & Ht); [done|done|].
    cbn [cur_subgraph set_contracted]. rewrite Hrun. cbn [mbind outcome_bind fst snd].
    rewrite drop_0 in Ht. cbn [take app] in Ht. fold (kept (cur_subgraph es) l) in Ht. by rewrite Ht.
Qed.

(** The batch [ts] of vertex [v], delivered. *)
Definition sent_at (v lo hi : nat) (ts : list SubgraphTaggedUpdate) (got got' : nat → nat → gset nat) : Prop :=
  sent lo hi ts (got v) (got' v) ∧ ∀ u, u ≠ v → ∀ g, got' u g = got u g.

Lemma sent_at_nil v lo hi got got' : sent_at v lo hi [] got got' → ∀ u g, got' u g = got u g.
Proof.
  intros [Hs Ho] u g. destruct (decide (u = v)) as [->|Hne]; [|by apply Ho].
  rewrite Hs. case_decide; [|done]. apply symdiff_empty_r.
Qed.

Lemma store_inv_needs es got hist k :
  store_inv es got hist → (k <= N.of_nat (es_vertices es))%N →
  (∀ v, vertex_contracted es !! v = Some false → (k <= N.of_nat v)%N) →
  store_inv (set_needs es k) got hist.
Proof.
  intros [Hadj Hcon Hw Hph Hb He Ht Hop Hvx] Hk Ho. constructor; try done.
  intros v Hv. split; [by eapply Hop|by apply Ho].
Qed.

(** Marking a vertex that has nothing to hand out. *)
Lemma store_inv_mark es got hist v l c :
  store_inv es got hist → adjlist es !! v = Some l → vertex_contracted es !! v = Some c →
  l = [] ∨ c = true → store_inv (set_contracted es v) got hist.
Proof.
  intros Hi Hl Hc Hlc. destruct c; [by rewrite set_contracted_id|].
  destruct Hlc as [->|]; [|done].
  pose proof (store_inv_vertex es v [] false [] got got hist hist Hi Hl Hc) as Hs.
  assert (u64 (num_edges es + wsub 64 (N.of_nat (length (@nil SubgraphTaggedUpdate)))
    (N.of_nat (length (@nil SubgraphTaggedUpdate)))) = num_edges es) as He.
  { rewrite (si_edges _ _ _ Hi). by apply count_update. }
  rewrite He in Hs. pose proof (set_vertex_id (set_contracted es v) v [] Hl) as Hid.
  cbn [num_edges set_contracted] in Hid. fold (set_contracted es v) in Hid. rewrite Hid in Hs.
  apply Hs; [done|]. pose proof (si_vertex _ _ _ Hi v [] false Hl Hc) as Hv.
  apply (vertex_inv_contract bound (dep v) _ _ [] (got v)); [done|apply (si_bound _ _ _ Hi)|].
  intros g. case_decide; [|done]. symmetry. apply symdiff_empty_r.
Qed.

(** What the caller is handed, and what the store is once it is delivered. *)
Definition handed (es : EdgeStore) (got : nat → nat → gset nat) (hist : nat → list nat)
    (b : TaggedUpdateBatch) (es' : EdgeStore) : Prop :=
  same_store es es' ∧ first_es_subgraph b = cur_subgraph es ∧
  min_subgraph b = prev_subgraph (cur_subgraph es) ∧ (dsts_data b ≠ [] → b_src b < es_vertices es) ∧
  ∀ got', sent_at (b_src b) (true_min_subgraph es) (cur_subgraph es) (dsts_data b) got got' →
    store_inv es' got' hist.

Lemma vertex_advance_ok fuel es got hist :
  store_inv es got hist → cur_subgraph es = S (true_min_subgraph es) →
  es_vertices es < fuel + N.to_nat (needs_contraction es) →
  ∃ b es', vertex_advance_loop fuel (cur_subgraph es) es = Ok (b, es') ∧ handed es got hist b es' ∧
    cur_subgraph es' = cur_subgraph es ∧
    (true_min_subgraph es' = cur_subgraph es ∨
     (needs_contraction es < needs_contraction es')%N ∧ true_min_subgraph es' = true_min_subgraph es).
Proof.
  revert es. induction fuel as [|fuel IH]; intros es Hi Hcur Hf.
  { pose proof (si_tickets _ _ _ Hi Hcur). lia. }
  pose proof (si_tickets _ _ _ Hi Hcur) as Hticket. pose proof (si_word _ _ _ Hi) as Hword.
  cbn [vertex_advance_loop]. set (v := N.to_nat (needs_contraction es)).
  assert (u32 (needs_contraction es + 1) = (needs_contraction es + 1)%N) as -> by (apply wrap_small; lia).
  case_decide as Hend; cbn [es_vertices set_needs] in Hend.
  - rewrite decide_True by (cbn [es_vertices set_needs]; lia).
    do 2 eexists. split; [done|]. split; [|split; [done|by left]].
    split; [same_params|]. split; [done|]. split; [done|]. split; [done|]. cbn [dsts_data].
    intros got' Hs. apply (store_inv_ext _ got); [exact (sent_at_nil _ _ _ _ _ Hs)|].
    assert (∀ u, vertex_contracted es !! u ≠ Some false) as Hall.
    { intros u Hu. pose proof (si_open _ _ _ Hi u Hu) as [_ Hle].
      apply lookup_lt_Some in Hu. rewrite (si_con _ _ _ Hi) in Hu. lia. }
    destruct Hi as [Hadj Hcon Hw Hph Hb He Ht Hop Hvx].
    constructor; cbn [adjlist vertex_contracted es_vertices cur_subgraph true_min_subgraph num_edges
      needs_contraction set_true_min set_needs]; try done; [by left|lia| |].
    + intros u Hu. by destruct (Hall u).
    + intros u l c Hl Hc. destruct c; [|by destruct (Hall u)]. exact (Hvx u l true Hl Hc).
  - destruct (si_lookup es got hist v Hi) as (l & c & Hl & Hc); [lia|].
    cbn [adjlist vertex_contracted set_needs]. rewrite (arr_get_Ok _ _ _ Hl), (arr_get_Ok _ _ _ Hc).
    cbn [mbind outcome_bind]. case_decide as Hdec.
    + destruct Hdec as [Hlen ->].
      rewrite (vertex_contract_ok (set_needs es _) v l) by (done || apply (si_edges _ _ _ Hi)).
      cbn [mbind outcome_bind fst snd]. do 2 eexists. split; [done|].
      split; [|split; [done|right; split; [cbn; lia|done]]].
      split; [same_params|]. split; [done|]. split; [done|]. split; [intros _; cbn [b_src]; lia|].
      cbn [dsts_data b_src]. intros got' [Hs Ho].
      pose proof (store_inv_vertex es v l false (kept (cur_subgraph es) l) got got' hist hist Hi Hl Hc) as Hnew.
      lapply Hnew; [clear Hnew; intros Hnew|by intros u Hu; split; [apply Ho|]].
      lapply Hnew; [clear Hnew; intros Hnew|].
      * apply (store_inv_needs _ _ _ (needs_contraction es + 1) Hnew); [cbn; lia|].
        intros u Hu. cbn [vertex_contracted set_vertex set_contracted] in Hu.
        destruct (decide (u = v)) as [->|Hne].
        { rewrite list_lookup_insert_eq in Hu by (by eapply lookup_lt_Some). done. }
        rewrite list_lookup_insert_ne in Hu by done. pose proof (si_open _ _ _ Hi u Hu). lia.
      * apply (vertex_inv_contract _ _ _ _ _ (got v)); [|apply (si_bound _ _ _ Hi)|done].
        by apply (si_vertex _ _ _ Hi).
    + assert (l = [] ∨ c = true) as Hlc.
      { destruct c; [by right|left]. destruct l; [done|]. destruct Hdec. split; [simpl; lia|done]. }
      assert (store_inv (set_contracted (set_needs es (needs_contraction es + 1)) v) got hist) as Hi'.
      { apply (store_inv_needs (set_contracted es v) _ _ (needs_contraction es + 1)).
        - by eapply store_inv_mark.
        - cbn. lia.
        - intros u Hu. cbn [vertex_contracted set_contracted] in Hu.
          destruct (decide (u = v)) as [->|Hne].
          { rewrite list_lookup_insert_eq in Hu by (by eapply lookup_lt_Some). done. }
          rewrite list_lookup_insert_ne in Hu by done. pose proof (si_open _ _ _ Hi u Hu). lia. }
      destruct (IH _ Hi') as (b & es' & Hrun & (Hsame & Hb) & Hc' & Hprog);
        [done|cbn [es_vertices needs_contraction set_contracted set_needs]; lia|].
      exists b, es'. split; [done|]. split; [split; [done|done]|]. split; [done|].
      destruct Hprog as [Hp|[Hp ?]]; [by left|right; split; [|done]].
      cbn [needs_contraction set_contracted set_needs] in Hp. lia.
Qed.

Lemma check_if_too_big_ok es got hist :
  store_inv es got hist →
  same_store es (check_if_too_big es) ∧
  (store_inv (check_if_too_big es) got hist ∨ bound < cur_subgraph (check_if_too_big es)).
Proof.
  intros Hi. unfold check_if_too_big. case_decide; [split; [same_params|by left]|].
  case_decide as Hcur; [split; [same_params|by left]|]. split; [same_params|]. cbn [cur_subgraph]. destruct (decide (bound < S (cur_subgraph es))); [by right|left].
  pose proof (si_phase _ _ _ Hi) as Hph. assert (cur_subgraph es = true_min_subgraph es) as Heq by lia.
  destruct Hi as [Hadj Hcon Hw _ Hb He Ht Hop Hvx].
  constructor; cbn [adjlist vertex_contracted es_vertices cur_subgraph true_min_subgraph num_edges
    needs_contraction]; rewrite ?length_replicate; try (done || lia).
  intros v l c Hl Hc. apply lookup_replicate in Hc as [-> Hv].
  destruct (lookup_lt_is_Some_2 (vertex_contracted es) v) as [c Hc]; [by rewrite Hcon|].
  destruct c; [|pose proof (Hop v Hc); lia].
  rewrite <- Heq. apply (vertex_inv_start _ _ (cur_subgraph es) (true_min_subgraph es)); [by apply Hvx|lia].
Qed.

Definition hist_add (v : nat) (ds : list nat) (hist : nat → list nat) : nat → list nat :=
  λ u, if decide (u = v) then hist u ++ ds else hist u.

Lemma hist_add_eq v ds hist : hist_add v ds hist v = hist v ++ ds.
Proof. unfold hist_add. by rewrite decide_True. Qed.
Lemma hist_add_ne v ds hist u : u ≠ v → hist_add v ds hist u = hist u.
Proof. intros Hu. unfold hist_add. by rewrite decide_False. Qed.

(** Merging sorted updates into a contracted vertex. *)
Lemma merge_at_ok es got hist v buf ts :
  store_inv es got hist → adjlist es !! v = Some buf → vertex_contracted es !! v = Some true →
  Forall (tag_ok bound (dep v)) ts → kept (cur_subgraph es) ts ≠ [] →
  ∃ buf', merge_updates (cur_subgraph es) buf (sort_tagged (kept (cur_subgraph es) ts)) =
      Ok (buf', length buf') ∧
    ∀ got', sent_at v 0 (cur_subgraph es) ts got got' →
      store_inv (set_vertex es v buf' (u64 (num_edges es +
          wsub 64 (N.of_nat (length buf')) (N.of_nat (length buf))))) got' (hist_add v (tdst <$> ts) hist).
Proof.
  intros Hi Hl Hc Hts Hne. set (cur := cur_subgraph es). set (sorted := sort_tagged (kept cur ts)).
  assert (sorted ≡ₚ kept cur ts) as Hperm by apply sort_tagged_perm.
  assert (kept cur sorted = sorted) as Hk.
  { apply kept_all. rewrite Hperm. apply kept_ge. }
  destruct (merge_updates_ok cur buf sorted) as (buf' & Hrun & Hcan); [apply sort_tagged_sorted| |].
  { rewrite Hk. intros Hnil. rewrite Hnil in Hperm. symmetry in Hperm. by apply Permutation_nil_r in Hperm. }
  exists buf'. split; [done|]. intros got' [Hs Ho].
  rewrite <- (set_contracted_id es v Hc) at 1.
  apply (store_inv_vertex es v buf true _ got _ hist); [done|done|done| |].
  - intros u Hu. split; [by apply Ho|by apply hist_add_ne].
  - rewrite hist_add_eq. apply (vertex_inv_insert _ _ _ _ buf _ (got v)); try done.
    + by apply (si_vertex _ _ _ Hi).
    + apply (si_bound _ _ _ Hi).
    + rewrite Hk in Hcan. fold cur. by rewrite <- Hperm.
Qed.

(** [sent_at] as a function. *)
Definition deliver (v lo hi : nat) (ts : list SubgraphTaggedUpdate) (got : nat → nat → gset nat)
    : nat → nat → gset nat :=
  λ u g, if decide (u = v ∧ lo ≤ g < hi)
         then symdiff (got u g) (dpar (filter (λ t, g ≤ subgraph t) ts)) else got u g.

Lemma deliver_sent v lo hi ts got : sent_at v lo hi ts got (deliver v lo hi ts got).
Proof.
  unfold deliver. split.
  - intros g. repeat case_decide; naive_solver.
  - intros u Hu g. by rewrite decide_False by naive_solver.
Qed.

Lemma sent_at_swap v lo hi lo' hi' ts ts' got got1 got2 :
  sent_at v lo hi ts got got1 → sent_at v lo' hi' ts' got1 got2 →
  sent_at v lo hi ts (deliver v lo' hi' ts' got) got2.
Proof.
  intros [H1 Ho1] [H2 Ho2]. destruct (deliver_sent v lo' hi' ts' got) as [H3 Ho3]. split.
  - intros g. rewrite H2, H1, H3. repeat case_decide; try done.
    by rewrite <- !symdiff_assoc, (symdiff_comm (dpar (filter _ ts))).
  - intros u Hu g. by rewrite Ho2, Ho1, Ho3.
Qed.

Lemma sent_at_ext v lo hi ts got got0 got1 got2 :
  (∀ u g, got u g = got0 u g) → (∀ u g, got1 u g = got2 u g) →
  sent_at v lo hi ts got got1 → sent_at v lo hi ts got0 got2.
Proof.
  intros He He' [Hs Ho]. split.
  - intros g. rewrite <- He', <- He. apply Hs.
  - intros u Hu g. rewrite <- He', <- He. by apply Ho.
Qed.

Lemma sent_at_fun v lo hi ts got got1 got2 :
  sent_at v lo hi ts got got1 → sent_at v lo hi ts got got2 → ∀ u g, got1 u g = got2 u g.
Proof.
  intros [H1 Ho1] [H2 Ho2] u g. destruct (decide (u = v)) as [->|Hu]; [by rewrite H1, H2|by rewrite Ho1, Ho2].
Qed.

(** What follows the merge: the batch of the vertex, or another vertex's turn. *)
Lemma insert_end_ok es got hist v ret :
  store_inv es got hist → v < es_vertices es →
  ∃ b es', (if decide (length ret = 0 ∧ true_min_subgraph es < cur_subgraph es)
            then vertex_advance_subgraph (cur_subgraph es) es
            else Ok (mkTaggedBatch v (prev_subgraph (cur_subgraph es)) (cur_subgraph es) ret,
                     check_if_too_big es)) = Ok (b, es') ∧
    same_store es es' ∧ first_es_subgraph b = cur_subgraph es ∧
    min_subgraph b = prev_subgraph (cur_subgraph es) ∧
    (dsts_data b ≠ [] → b_src b < es_vertices es) ∧
    (ret ≠ [] ∧ b_src b = v ∧ dsts_data b = ret ∧
       (store_inv es' got hist ∨ bound < cur_subgraph es') ∨
     ret = [] ∧ (dsts_data b ≠ [] → true_min_subgraph es < cur_subgraph es) ∧
       ∀ got', sent_at (b_src b) (true_min_subgraph es) (cur_subgraph es) (dsts_data b) got got' →
         store_inv es' got' hist ∨ bound < cur_subgraph es').
Proof.
  intros Hi Hv. case_decide as Hd.
  - destruct Hd as [Hret Hlt]. apply nil_length_inv in Hret as ->.
    pose proof (si_phase _ _ _ Hi) as Hph.
    destruct (vertex_advance_ok (S (S (es_vertices es))) es got hist Hi) as
      (b & es' & Hrun & (Hsame & Hfirst & Hmin & Hsrc & Hsent) & _); [lia|lia|].
    exists b, es'. split; [done|]. do 4 (split; [done|]). right. split; [done|]. split; [done|].
    intros got' Hs. left. by apply Hsent.
  - destruct (check_if_too_big_ok es got hist Hi) as [Hsame Hend].
    do 2 eexists. split; [done|]. do 3 (split; [done|]). split; [done|]. cbn [b_src dsts_data].
    destruct ret as [|t ret]; [right|by left].
    split; [done|]. split; [done|]. intros got' Hs. destruct Hend as [Hend|]; [left|by right].
    apply (store_inv_ext _ got); [exact (sent_at_nil _ _ _ _ _ Hs)|done].
Qed.

(** [insert_adj_edges]: the updates given to it and those already there, together
    with the batch handed out. *)
Lemma insert_tagged_ok es got hist v ts :
  store_inv es got hist → v < es_vertices es → Forall (tag_ok bound (dep v)) ts →
  ∃ b es', insert_tagged v (cur_subgraph es) (kept (cur_subgraph es) ts) es = Ok (b, es') ∧
    same_store es es' ∧ first_es_subgraph b = cur_subgraph es ∧
    min_subgraph b = prev_subgraph (cur_subgraph es) ∧
    (dsts_data b ≠ [] → b_src b < es_vertices es ∧ true_min_subgraph es < cur_subgraph es) ∧
    ∀ got1 got2, sent_at v 0 (cur_subgraph es) ts got got1 →
      sent_at (b_src b) (true_min_subgraph es) (cur_subgraph es) (dsts_data b) got1 got2 →
      store_inv es' got2 (hist_add v (tdst <$> ts) hist) ∨ bound < cur_subgraph es'.
Proof.
  intros Hi Hv Hts. unfold insert_tagged. case_decide as Hlen.
  { apply nil_length_inv in Hlen. do 2 eexists. split; [done|]. split; [same_params|]. do 2 (split; [done|]). split; [done|].
    cbn [b_src dsts_data]. intros got1 got2 [Hs Ho] Hs2. left.
    apply (store_inv_ext _ got1); [exact (sent_at_nil _ _ _ _ _ Hs2)|].
    apply (store_inv_pass es v got _ hist); [done| |].
    - intros u Hu. split; [by apply Ho|by apply hist_add_ne].
    - intros l c Hl Hc Hvx. rewrite hist_add_eq.
      by apply (vertex_inv_pass _ _ _ _ _ _ (got v)); [|apply (si_bound _ _ _ Hi)| | |]. }
  destruct (si_lookup es got hist v Hi Hv) as (l & c & Hl & Hc).
  assert (kept (cur_subgraph es) ts ≠ []) as Hne by (by intros Hnil; rewrite Hnil in Hlen).
  rewrite (arr_get_Ok _ _ _ Hc). cbn [mbind outcome_bind].
  destruct (decide (cur_subgraph es < cur_subgraph es)) as [?|_]; [lia|].
  case_decide as Hopen.
  - destruct Hopen as [Hlt ->].
    rewrite (vertex_contract_ok es v l) by (done || apply (si_edges _ _ _ Hi)).
    cbn [mbind outcome_bind].
    set (es1 := set_vertex (set_contracted es v) v _ _).
    pose proof (deliver_sent v (true_min_subgraph es) (cur_subgraph es) l got) as [Hd1 Hd2].
    set (gotA := deliver v (true_min_subgraph es) (cur_subgraph es) l got) in *.
    assert (store_inv es1 gotA hist) as Hi1.
    { apply (store_inv_vertex es v l false _ got _ hist); [done|done|done| |].
      - intros u Hu. split; [by apply Hd2|done].
      - apply (vertex_inv_contract _ _ _ _ _ (got v)); [|apply (si_bound _ _ _ Hi)|done].
        by apply (si_vertex _ _ _ Hi). }
    assert (adjlist es1 !! v = Some (kept (cur_subgraph es) l)) as Hl1.
    { cbn. apply list_lookup_insert_eq. by eapply lookup_lt_Some. }
    assert (vertex_contracted es1 !! v = Some true) as Hc1.
    { cbn. apply list_lookup_insert_eq. by eapply lookup_lt_Some. }
    rewrite (arr_get_Ok _ _ _ Hl1). cbn [mbind outcome_bind].
    destruct (merge_at_ok es1 gotA hist v _ ts Hi1 Hl1 Hc1 Hts Hne) as (buf' & Hrun & Hinv).
    cbn [cur_subgraph] in Hrun. change (cur_subgraph es1) with (cur_subgraph es) in Hrun, Hinv.
    rewrite Hrun. cbn [mbind outcome_bind fst snd]. set (es2 := set_vertex es1 v buf' _) in *.
    pose proof (deliver_sent v 0 (cur_subgraph es) ts gotA) as Hs0. pose proof (Hinv _ Hs0) as Hi2.
    pose proof (insert_end_ok es2 _ _ v l Hi2 Hv) as Hstep.
    change (cur_subgraph es2) with (cur_subgraph es) in Hstep.
    destruct Hstep as (b & es' & -> & Hsame & Hfirst & Hmin & Hsrc & Hcase).
    exists b, es'. split; [done|]. do 3 (split; [done|]).
    split; [intros Hb; split; [by apply Hsrc|done]|]. intros got1 got2 Hs1 Hs2.
    destruct Hcase as [(Hret & Hbv & Hbd & Hend)|(-> & _ & Hend)].
    + rewrite Hbv, Hbd in Hs2. destruct Hend as [Hend|]; [left|by right].
      pose proof (sent_at_swap _ _ _ _ _ _ _ _ _ _ Hs1 Hs2) as Hs.
      apply (store_inv_ext _ (deliver v 0 (cur_subgraph es) ts gotA)); [|done].
      exact (sent_at_fun _ _ _ _ _ _ _ Hs Hs0).
    + apply Hend. refine (sent_at_ext _ _ _ _ got1 _ got2 _ _ (λ _ _, eq_refl) Hs2).
      apply (sent_at_fun v 0 (cur_subgraph es) ts got); [done|].
      apply (sent_at_ext _ _ _ _ gotA _ (deliver v 0 (cur_subgraph es) ts gotA)); [|done|done].
      apply (sent_at_nil v (true_min_subgraph es) (cur_subgraph es)). by split.
  - assert (c = true) as ->.
    { destruct c; [done|]. pose proof (si_open _ _ _ Hi v Hc) as [? _]. destruct Hopen. split; [lia|done]. }
    cbn [mbind outcome_bind]. rewrite (arr_get_Ok _ _ _ Hl). cbn [mbind outcome_bind].
    destruct (merge_at_ok es got hist v _ ts Hi Hl Hc Hts Hne) as (buf' & Hrun & Hinv).
    rewrite Hrun. cbn [mbind outcome_bind fst snd]. set (es2 := set_vertex es v buf' _) in *.
    pose proof (deliver_sent v 0 (cur_subgraph es) ts got) as Hs0. pose proof (Hinv _ Hs0) as Hi2.
    pose proof (insert_end_ok es2 _ _ v [] Hi2 Hv) as Hstep.
    change (cur_subgraph es2) with (cur_subgraph es) in Hstep.
    destruct Hstep as (b & es' & -> & Hsame & Hfirst & Hmin & Hsrc & Hcase).
    destruct Hcase as [(Hret & _)|(_ & Hlt & Hend)]; [done|].
    exists b, es'. split; [done|]. do 3 (split; [done|]).
    split; [intros Hb; split; [by apply Hsrc|by apply Hlt]|]. intros got1 got2 Hs1 Hs2.
    apply Hend. refine (sent_at_ext _ _ _ _ got1 _ got2 _ _ (λ _ _, eq_refl) Hs2).
    exact (sent_at_fun _ _ _ _ _ _ _ Hs1 Hs0).
Qed.
End store.
