(* ===== verification/McGpuSpec.v ===== *)
(** * Delivery of updates to the GPU: src/src/mc_gpu_sketch_alg.cpp

    Gutters and local buffers delay updates and never lose or repeat one: what a
    sketch graph has received of a vertex, in its gutter or in the calls made to its
    streams, grows by exactly the updates delivered. *)

From Stdlib Require Import NArith Lia.
From stdpp Require Import base list gmap sets numbers sorting relations.
From S2P Require Import Prelude Float64 Util Bucket Sketch Configuration Graph CCSketchAlg MCSketchAlg EdgeStore EdgeStoreSpec EdgeStoreInv McGpu.

(** A fold whose steps keep [I] and add to the lists [T]. *)
Lemma outcome_fold_adds {S A} (step : S → A → outcome S) (I : S → Prop) (T : S → nat → nat → list nat)
    (add : A → nat → nat → list nat) (l : list A) st :
  (∀ st a, a ∈ l → I st → ∃ st', step st a = Ok st' ∧ I st' ∧ ∀ v g, T st' v g ≡ₚ T st v g ++ add a v g) →
  I st →
  ∃ st', outcome_fold step st l = Ok st' ∧ I st' ∧ ∀ v g, T st' v g ≡ₚ T st v g ++ (a ← l; add a v g).
Proof.
  revert st. induction l as [|a l IH]; intros st Hstep Hst.
  { exists st. split; [done|]. split; [done|]. intros v g. by rewrite app_nil_r. }
  destruct (Hstep st a) as (st1 & Hrun & Hst1 & HT1); [set_solver|done|].
  cbn [outcome_fold]. rewrite Hrun. cbn [mbind outcome_bind].
  destruct (IH st1) as (st2 & Hrun2 & Hst2 & HT2); [set_solver|done|].
  exists st2. split; [done|]. split; [done|]. intros v g. rewrite HT2, HT1.
  cbn [mbind list_bind]. by rewrite <- app_assoc.
Qed.

(** Items added once at the positions of a list without duplicates. *)
Lemma bind_if_elem {A} (l : list nat) (b : bool) (h : nat) (x : nat → list A) :
  NoDup l → (i ← l; if decide (b = true ∧ h = i) then x i else []) =
            if decide (b = true ∧ h ∈ l) then x h else [].
Proof.
  induction 1 as [|i l Hi Hl IH]; [by rewrite decide_False by set_solver|].
  cbn [mbind list_bind]. rewrite IH. destruct (decide (b = true ∧ h = i)) as [[Hb ->]|Hne].
  - rewrite decide_False by naive_solver. rewrite app_nil_r. by rewrite decide_True by set_solver.
  - simpl. apply decide_ext. set_solver.
Qed.

Lemma bind_if_filter (P : Prop) `{Decision P} (h : nat) (ts : list SubgraphTaggedUpdate) :
  (t ← ts; if decide (P ∧ h ≤ subgraph t) then [tdst t] else []) =
  if decide P then tdst <$> filter (λ t, h ≤ subgraph t) ts else [].
Proof.
  induction ts as [|t ts IH]; [by case_decide|]. cbn [mbind list_bind]. rewrite IH, filter_cons.
  destruct (decide P) as [HP|HP], (decide (h ≤ subgraph t)) as [Hh|Hh].
  - by rewrite decide_True.
  - by rewrite decide_False by naive_solver.
  - by rewrite decide_False by naive_solver.
  - by rewrite decide_False by naive_solver.
Qed.

(** *** One sketch graph *)

Definition calls_to (v : nat) (calls : list StreamCall) : list nat :=
  c ← calls; match c with
             | ProcessBatch s ds => if decide (s = v) then ds else []
             | FlushBuffers => []
             end.

Definition streamed (sg : SketchSubgraph) (v : nat) : list nat :=
  match cuda_streams sg with Some streams => calls ← streams; calls_to v calls | None => [] end.
Definition pending (sg : SketchSubgraph) (v : nat) : list nat :=
  match subgraph_gutters sg !! v with Some g => take (elms g) (data g) | None => [] end.
Definition received (sg : SketchSubgraph) (v : nat) : list nat := streamed sg v ++ pending sg v.

Definition gutter_ok (batch : nat) (g : Gutter) : Prop := elms g ≤ batch ∧ length (data g) = batch.

Record sub_ok (threads nv batch : nat) (sg : SketchSubgraph) : Prop := {
  so_streams : ∃ streams, cuda_streams sg = Some streams ∧ length streams = threads;
  so_batch : sub_batch_size sg = batch;
  so_len : length (subgraph_gutters sg) = nv;
  so_gutters : Forall (gutter_ok batch) (subgraph_gutters sg);
}.

Section subgraph.
Context (threads nv batch : nat) (Hbatch : 16 ≤ batch).

Lemma initialize_ok : sub_ok threads nv batch (SketchSubgraph.initialize nv threads batch).
Proof.
  constructor; [|done|apply length_replicate|].
  - eexists. split; [done|apply length_replicate].
  - apply Forall_replicate. split; simpl; [lia|apply length_replicate].
Qed.

Lemma initialize_received v : received (SketchSubgraph.initialize nv threads batch) v = [].
Proof.
  unfold received, streamed, pending, SketchSubgraph.initialize. cbn [cuda_streams subgraph_gutters].
  replace (calls ← replicate threads []; calls_to v calls) with (@nil nat).
  - destruct (replicate nv _ !! v) as [g|] eqn:Hg; [|done]. by apply lookup_replicate in Hg as [-> _].
  - generalize threads as k. by induction k.
Qed.

Lemma calls_to_snoc v calls c : calls_to v (calls ++ [c]) = calls_to v calls ++ calls_to v [c].
Proof. unfold calls_to. by rewrite bind_app. Qed.

Lemma stream_batch_ok thr src ds sg :
  sub_ok threads nv batch sg → thr < threads →
  ∃ sg', SketchSubgraph.apply_update_batch thr src ds sg = Ok sg' ∧ sub_ok threads nv batch sg' ∧
    subgraph_gutters sg' = subgraph_gutters sg ∧
    ∀ v, streamed sg' v ≡ₚ streamed sg v ++ (if decide (v = src) then ds else []).
Proof.
  intros [(streams & Hst & Hlen) Hb Hl Hg] Hthr. unfold SketchSubgraph.apply_update_batch. rewrite Hst.
  destruct (lookup_lt_is_Some_2 streams thr) as [calls Hcalls]; [lia|].
  rewrite (arr_get_Ok _ _ _ Hcalls). cbn [mbind outcome_bind]. eexists. split; [done|].
  split; [constructor; try done; eexists; split; [done|by rewrite length_insert]|]. split; [done|].
  intros v. unfold streamed. cbn [cuda_streams]. rewrite Hst.
  rewrite insert_take_drop by lia. rewrite <- (take_drop_middle streams thr calls Hcalls) at 3.
  rewrite !bind_app, !bind_cons, calls_to_snoc.
  assert (calls_to v [ProcessBatch src ds] = if decide (v = src) then ds else []) as ->.
  { unfold calls_to. cbn [mbind list_bind]. rewrite app_nil_r. by apply decide_ext. }
  solve_Permutation.
Qed.

Lemma memcpy_Ok target pos source n :
  pos + n ≤ length target → n ≤ length source →
  memcpy target pos source n = Ok (take pos target ++ take n source ++ drop (pos + n) target).
Proof. intros. unfold memcpy. by rewrite decide_True. Qed.

Lemma set_gutter_ok sg v g :
  sub_ok threads nv batch sg → gutter_ok batch g → sub_ok threads nv batch (SketchSubgraph.set_gutter sg v g).
Proof.
  intros [Hst Hb Hl Hg] Hok. constructor; try done; cbn; [by rewrite length_insert|by apply list.Forall_insert].
Qed.

Lemma pending_set_gutter sg v g u :
  v < length (subgraph_gutters sg) →
  pending (SketchSubgraph.set_gutter sg v g) u =
    if decide (u = v) then take (elms g) (data g) else pending sg u.
Proof.
  intros Hv. unfold pending, SketchSubgraph.set_gutter. cbn [subgraph_gutters]. case_decide as Hu.
  - subst. by rewrite list_lookup_insert_eq.
  - by rewrite list_lookup_insert_ne.
Qed.

Lemma received_set_gutter sg v g u :
  v < length (subgraph_gutters sg) →
  received (SketchSubgraph.set_gutter sg v g) u =
    streamed sg u ++ if decide (u = v) then take (elms g) (data g) else pending sg u.
Proof. intros Hv. unfold received. by rewrite pending_set_gutter. Qed.

(** A gutter takes up to 16 updates and sends a full batch. *)
Lemma batch_insert_ok thr src dsts num sg :
  sub_ok threads nv batch sg → thr < threads → src < nv → num ≤ length dsts → num ≤ 16 →
  ∃ sg', SketchSubgraph.batch_insert thr src dsts num sg = Ok sg' ∧ sub_ok threads nv batch sg' ∧
    ∀ v, received sg' v ≡ₚ received sg v ++ (if decide (v = src) then take num dsts else []).
Proof.
  intros Hok Hthr Hsrc Hnum H16. unfold SketchSubgraph.batch_insert.
  destruct (lookup_lt_is_Some_2 (subgraph_gutters sg) src) as [[e d] Hg]; [by rewrite (so_len _ _ _ _ Hok)|].
  pose proof (proj1 (Forall_lookup _ _) (so_gutters _ _ _ _ Hok) _ _ Hg) as [He Hd].
  cbn [elms data] in He, Hd. rewrite (arr_get_Ok _ _ _ Hg). cbn [mbind outcome_bind elms data].
  rewrite (so_batch _ _ _ _ Hok). set (cap := batch - e). rewrite memcpy_Ok by lia.
  cbn [mbind outcome_bind]. set (d' := take e d ++ take (num `min` cap) dsts ++ drop (e + num `min` cap) d).
  assert (length d' = batch) as Hd'.
  { unfold d'. rewrite !length_app, !length_take, length_drop. lia. }
  assert (pending sg src = take e d) as Hpend by (unfold pending; by rewrite Hg).
  assert (src < length (subgraph_gutters sg)) as Hlt by (by eapply lookup_lt_Some).
  case_decide as Hfull.
  - assert (num `min` cap = cap) as Hmin by lia.
    assert (d' = take e d ++ take cap dsts) as Hd'eq.
    { unfold d'. rewrite Hmin, (drop_ge d) by lia. by rewrite app_nil_r. }
    rewrite Hmin. assert (sub_ok threads nv batch (SketchSubgraph.set_gutter sg src (mkGutter (e + cap) d'))) as Hok0.
    { apply set_gutter_ok; [done|]. split; cbn; lia. }
    destruct (stream_batch_ok thr src d' _ Hok0 Hthr) as (sg1 & Hrun & Hok1 & Hgut & Hstr).
    cbn [data]. rewrite Hrun. cbn [mbind outcome_bind elms data].
    rewrite memcpy_Ok by (rewrite ?length_drop, ?Hd'; lia). cbn [mbind outcome_bind].
    eexists. split; [done|]. split; [apply set_gutter_ok; [done|]; split; cbn [elms data]|].
    { lia. } { rewrite !length_app, !length_take, !length_drop, Hd'. lia. }
    assert (length (subgraph_gutters sg1) = length (subgraph_gutters sg)) as Hlg.
    { rewrite Hgut. cbn. apply length_insert. }
    intros v. rewrite received_set_gutter by lia. rewrite Hstr. cbn [elms data].
    unfold received. case_decide as Hv; [subst v|].
    + assert (take (num - cap) (take 0 d' ++ take (num - cap) (drop cap dsts) ++ drop (0 + (num - cap)) d') =
              take (num - cap) (drop cap dsts)) as ->.
      { rewrite firstn_O. cbn [app]. rewrite take_app_le by (rewrite length_take, length_drop; lia).
        by rewrite take_take, Nat.min_id. }
      rewrite Hpend, Hd'eq, <- (take_drop cap (take num dsts)), take_take, Nat.min_l by lia.
      rewrite skipn_firstn_comm. change (streamed (SketchSubgraph.set_gutter _ _ _) src) with (streamed sg src).
      solve_Permutation.
    + unfold pending. rewrite Hgut. cbn [subgraph_gutters SketchSubgraph.set_gutter].
      rewrite list_lookup_insert_ne by done. by rewrite !app_nil_r.
  - assert (num `min` cap = num) as Hmin by lia. rewrite Hmin.
    eexists. split; [done|]. split; [apply set_gutter_ok; [done|]; split; cbn; lia|].
    intros v. rewrite received_set_gutter by done. cbn [elms data]. unfold received.
    case_decide as Hv; [subst v|by rewrite app_nil_r].
    rewrite Hpend. unfold d'. rewrite Hmin, app_assoc, take_app_le, take_ge, <- app_assoc
      by (rewrite !length_app, !length_take; lia). done.
Qed.

(** *** [flush] *)

Lemma flush_gutter_ok sg v :
  sub_ok threads nv batch sg → 0 < threads → v < nv →
  ∃ sg', SketchSubgraph.flush_gutter sg v = Ok sg' ∧ sub_ok threads nv batch sg' ∧
    (∀ u, received sg' u ≡ₚ received sg u) ∧ ∀ u, u = v ∨ pending sg u = [] → pending sg' u = [].
Proof.
  intros Hok Hthr Hv. unfold SketchSubgraph.flush_gutter.
  destruct (lookup_lt_is_Some_2 (subgraph_gutters sg) v) as [[e d] Hg]; [by rewrite (so_len _ _ _ _ Hok)|].
  pose proof (proj1 (Forall_lookup _ _) (so_gutters _ _ _ _ Hok) _ _ Hg) as [He Hd].
  cbn [elms data] in He, Hd. rewrite (arr_get_Ok _ _ _ Hg). cbn [mbind outcome_bind elms data].
  assert (pending sg v = take e d) as Hpend by (unfold pending; by rewrite Hg).
  case_decide as Hpos.
  - assert (resize_ids e d = take e d) as ->.
    { unfold resize_ids. replace (e - length d) with 0 by lia. apply app_nil_r. }
    destruct (stream_batch_ok 0 v (take e d) sg Hok Hthr) as (sg1 & -> & Hok1 & Hgut & Hstr).
    cbn [mbind outcome_bind]. eexists. split; [done|]. rewrite (so_batch _ _ _ _ Hok1).
    assert (v < length (subgraph_gutters sg1)) by (rewrite Hgut; by eapply lookup_lt_Some).
    split; [|split].
    + apply set_gutter_ok; [done|]. split; cbn; [lia|]. unfold resize_ids.
      rewrite length_app, length_replicate, !length_take. lia.
    + intros u. rewrite received_set_gutter, Hstr by done. unfold received. cbn [elms data take].
      case_decide; [subst u; by rewrite Hpend, app_nil_r|]. unfold pending. by rewrite Hgut, app_nil_r.
    + intros u Hu. rewrite pending_set_gutter by done. cbn [elms data take]. case_decide; [done|].
      unfold pending. rewrite Hgut. by destruct Hu.
  - eexists. split; [done|]. split; [done|]. split; [done|]. intros u [->|Hu]; [|done].
    rewrite Hpend. by replace e with 0 by lia.
Qed.

Lemma flush_ok sg :
  sub_ok threads nv batch sg → 0 < threads →
  ∃ sg', SketchSubgraph.flush nv sg = Ok sg' ∧ sub_ok threads nv batch sg' ∧
    ∀ v, streamed sg' v ≡ₚ received sg v ∧ pending sg' v = [].
Proof.
  intros Hok Hthr. unfold SketchSubgraph.flush.
  assert (∀ vs sg, sub_ok threads nv batch sg → Forall (λ v, v < nv) vs →
    ∃ sg', outcome_fold SketchSubgraph.flush_gutter sg vs = Ok sg' ∧ sub_ok threads nv batch sg' ∧
      (∀ u, received sg' u ≡ₚ received sg u) ∧ ∀ u, u ∈ vs ∨ pending sg u = [] → pending sg' u = []) as Hfold.
  { clear sg Hok. induction vs as [|v vs IH]; intros sg Hok Hvs.
    { exists sg. split_and!; [done|done|done|]. intros u [Hu|Hu]; [set_solver|done]. }
    apply list.Forall_cons in Hvs as [Hv Hvs].
    destruct (flush_gutter_ok sg v Hok Hthr Hv) as (sg1 & Hrun & Hok1 & Hrec & Hpen).
    cbn [outcome_fold]. rewrite Hrun. cbn [mbind outcome_bind].
    destruct (IH sg1 Hok1 Hvs) as (sg2 & Hrun2 & Hok2 & Hrec2 & Hpen2).
    exists sg2. split_and!; [done|done| |].
    - intros u. by rewrite Hrec2, Hrec.
    - intros u Hu. apply Hpen2. rewrite elem_of_cons in Hu. destruct (decide (u ∈ vs)); [by left|right].
      apply Hpen. naive_solver. }
  destruct (Hfold (seq 0 nv) sg Hok) as (sg1 & -> & Hok1 & Hrec & Hpen); [apply Forall_seq; lia|].
  cbn [mbind outcome_bind]. destruct Hok1 as [(streams & Hst & Hlen) Hb Hl Hg]. rewrite Hst.
  eexists. split; [done|]. split.
  { constructor; try done. eexists. split; [done|by rewrite length_fmap]. }
  intros v. assert (pending sg1 v = []) as Hnil.
  { destruct (decide (v < nv)).
    - apply Hpen. left. apply elem_of_seq. lia.
    - unfold pending. by rewrite lookup_ge_None_2 by lia. }
  split; [|done]. rewrite <- Hrec. unfold received. rewrite Hnil, app_nil_r.
  unfold streamed. cbn [cuda_streams]. rewrite Hst. clear. induction streams as [|calls streams IH]; [done|].
  rewrite fmap_cons, !bind_cons, calls_to_snoc, IH. cbn. by rewrite app_nil_r.
Qed.
End subgraph.

(** *** The algorithm *)

Section gpu.
Context `{BuildConfig, Libm, Hashing}.
Context (max_graphs : nat).

(** Received of vertex [v] by graph [g]. *)
Definition got (a : MCGPUSketchAlg) (v g : nat) : list nat :=
  match subgraphs a !! g with Some sg => received sg v | None => [] end.

Record gpu_ok (a : MCGPUSketchAlg) : Prop := {
  go_len : length (subgraphs a) = max_graphs;
  go_cur : cur_subgraphs a ≤ max_graphs;
  go_threads : 0 < num_host_threads a;
  go_batch : 16 ≤ gpu_batch_size a;
  go_sub : ∀ g sg, g < cur_subgraphs a → subgraphs a !! g = Some sg →
    sub_ok (num_host_threads a) (gpu_num_nodes a) (gpu_batch_size a) sg;
  go_new : ∀ g sg v, cur_subgraphs a ≤ g → subgraphs a !! g = Some sg → received sg v = [];
  go_locked : update_locked (core (mc a)) = false;
  go_max : max_sketch_graphs (mc a) = max_graphs;
  go_mc : num_sketch_graphs (mc a) = cur_subgraphs a;
}.

(** What deliveries do not change. *)
Definition same_alg (a a' : MCGPUSketchAlg) : Prop :=
  gpu_num_nodes a' = gpu_num_nodes a ∧ gpu_num_subgraphs a' = gpu_num_subgraphs a ∧
  num_host_threads a' = num_host_threads a ∧ gpu_batch_size a' = gpu_batch_size a ∧
  gpu_seed a' = gpu_seed a ∧ edge_store a' = edge_store a.

#[global] Instance same_alg_trans : Transitive same_alg.
Proof. unfold same_alg. intros a1 a2 a3 Ha Hb. naive_solver congruence. Qed.
#[global] Instance same_alg_refl : Reflexive same_alg.
Proof. done. Qed.

Lemma create_sketch_graph_counts g m :
  num_sketch_graphs m = g → g < max_sketch_graphs m →
  num_sketch_graphs (MC.create_sketch_graph g m) = S g ∧
  max_sketch_graphs (MC.create_sketch_graph g m) = max_sketch_graphs m ∧
  update_locked (core (MC.create_sketch_graph g m)) = update_locked (core m).
Proof. intros Hg Hlt. unfold MC.create_sketch_graph. rewrite decide_False by lia. cbn. by rewrite Hg. Qed.

Lemma add_sketch_graph_ok a :
  gpu_ok a → cur_subgraphs a < max_graphs →
  ∃ a', add_sketch_graph a = Ok a' ∧ gpu_ok a' ∧ same_alg a a' ∧
    cur_subgraphs a' = S (cur_subgraphs a) ∧ ∀ v g, got a' v g = got a v g.
Proof.
  intros Ha Hlt. unfold add_sketch_graph. rewrite arr_set_Ok by (by rewrite (go_len _ Ha)).
  cbn [mbind outcome_bind]. eexists. split; [done|]. set (sg0 := SketchSubgraph.initialize _ _ _).
  destruct (create_sketch_graph_counts (cur_subgraphs a) (mc a)) as (Hn & Hm & Hl);
    [by rewrite (go_mc _ Ha)|by rewrite (go_max _ Ha)|].
  assert (cur_subgraphs a < length (subgraphs a)) as Hlen by by rewrite (go_len _ Ha).
  split; [constructor; cbn [subgraphs cur_subgraphs num_host_threads gpu_batch_size gpu_num_nodes mc]|].
  - rewrite length_insert. apply (go_len _ Ha).
  - lia.
  - apply (go_threads _ Ha).
  - apply (go_batch _ Ha).
  - intros g sg Hg Hsg. destruct (decide (g = cur_subgraphs a)) as [->|Hne].
    + rewrite list_lookup_insert_eq in Hsg by done. simplify_eq. apply initialize_ok, (go_batch _ Ha).
    + rewrite list_lookup_insert_ne in Hsg by done. apply (go_sub _ Ha g); [lia|done].
  - intros g sg v Hg Hsg. rewrite list_lookup_insert_ne in Hsg by lia. apply (go_new _ Ha g); [lia|done].
  - rewrite Hl. apply (go_locked _ Ha).
  - rewrite Hm. apply (go_max _ Ha).
  - done.
  - split; [done|]. split; [done|]. intros v g. unfold got. cbn [subgraphs].
    destruct (decide (g = cur_subgraphs a)) as [->|Hne].
    + rewrite list_lookup_insert_eq by done. unfold sg0. rewrite initialize_received.
      destruct (lookup_lt_is_Some_2 _ _ Hlen) as [sg Hsg]. rewrite Hsg. symmetry.
      by apply (go_new _ Ha (cur_subgraphs a)).
    + by rewrite list_lookup_insert_ne.
Qed.

Lemma batch_insert_at_ok g thr src dsts num a :
  gpu_ok a → g < cur_subgraphs a → thr < num_host_threads a → src < gpu_num_nodes a →
  num ≤ length dsts → num ≤ 16 →
  ∃ a', batch_insert_at g thr src dsts num a = Ok a' ∧ gpu_ok a' ∧ same_alg a a' ∧
    cur_subgraphs a' = cur_subgraphs a ∧
    ∀ v h, got a' v h ≡ₚ got a v h ++ if decide (bool_decide (v = src) = true ∧ h = g) then take num dsts else [].
Proof.
  intros Ha Hg Hthr Hsrc Hnum H16. unfold batch_insert_at.
  pose proof (go_cur _ Ha). pose proof (go_len _ Ha).
  destruct (lookup_lt_is_Some_2 (subgraphs a) g) as [sg Hsg]; [lia|].
  rewrite (arr_get_Ok _ _ _ Hsg). cbn [mbind outcome_bind].
  destruct (batch_insert_ok _ _ _ (go_batch _ Ha) thr src dsts num sg (go_sub _ Ha g sg Hg Hsg))
    as (sg' & -> & Hok' & Hrec); [done..|].
  cbn [mbind outcome_bind]. eexists. split; [done|]. split; [|split; [done|split; [done|]]].
  - destruct Ha as [Hl Hc Ht Hb Hs Hn Hlk Hm Hmc]. constructor; cbn; try done.
    + by rewrite length_insert.
    + intros h sgh Hh Hsgh. destruct (decide (h = g)) as [->|Hne].
      * rewrite list_lookup_insert_eq in Hsgh by lia. by simplify_eq.
      * rewrite list_lookup_insert_ne in Hsgh by done. by apply (Hs h).
    + intros h sgh v Hh Hsgh. rewrite list_lookup_insert_ne in Hsgh by lia. by apply (Hn h).
  - intros v h. unfold got. cbn [subgraphs set_subgraphs]. destruct (decide (h = g)) as [->|Hne].
    + rewrite list_lookup_insert_eq, Hsg by lia. rewrite Hrec. f_equiv.
      case_bool_decide; [by rewrite !decide_True|by rewrite !decide_False by naive_solver].
    + rewrite list_lookup_insert_ne by done. rewrite decide_False by naive_solver. by rewrite app_nil_r.
Qed.

(** *** The local buffers of [complete_update_batch] *)

Definition waiting (l : LocalBuffers) (g : nat) : list nat :=
  match subgraph_buffers l !! g, buffer_sizes l !! g with
  | Some b, Some s => take s b | _, _ => []
  end.

Section complete.
Context (thr src first : nat) (a0 : MCGPUSketchAlg).

Record local_ok (l : LocalBuffers) : Prop := {
  lo_gpu : gpu_ok (alg l);
  lo_same : same_alg a0 (alg l);
  lo_cur : cur_subgraphs (alg l) = cur_subgraphs a0;
  lo_bufs : length (subgraph_buffers l) = first;
  lo_buf : Forall (λ b, length b = 16) (subgraph_buffers l);
  lo_sizes : length (buffer_sizes l) = 16;
  lo_size : Forall (λ s, s < 16) (buffer_sizes l);
}.

Definition total (l : LocalBuffers) (v g : nat) : list nat :=
  got (alg l) v g ++ if bool_decide (v = src) then waiting l g else [].

Context (Hthr : thr < num_host_threads a0) (Hsrc : src < gpu_num_nodes a0).
Context (Hfirst : first ≤ 16) (Hcur : first ≤ cur_subgraphs a0).

Lemma local_insert_ok l g dsts num :
  local_ok l → g < first → num ≤ length dsts → num ≤ 16 →
  ∃ a', batch_insert_at g thr src dsts num (alg l) = Ok a' ∧
    (∀ bufs sizes, length bufs = first → Forall (λ b, length b = 16) bufs → length sizes = 16 →
       Forall (λ s, s < 16) sizes → local_ok (mkLocal a' bufs sizes)) ∧
    ∀ v h, got a' v h ≡ₚ got (alg l) v h ++ if decide (bool_decide (v = src) = true ∧ h = g) then take num dsts else [].
Proof.
  intros [Hg Hs Hc Hb Hbs Hsz Hszs] Hlt Hnum H16. destruct Hs as (Hn & Hsg & Ht & Hbt & Hsd & Hst).
  destruct (batch_insert_at_ok g thr src dsts num (alg l) Hg) as (a' & Hrun & Ha' & Hs' & Hc' & Hgot);
    [lia|lia|lia|done|done|].
  exists a'. split; [done|]. split; [|done]. intros bufs sizes ? ? ? ?. constructor; cbn; try done.
  - etrans; [|exact Hs']. by split_and!.
  - by rewrite Hc'.
Qed.

Lemma push_update_ok d l g :
  local_ok l → g < first →
  ∃ l', push_update thr src d l g = Ok l' ∧ local_ok l' ∧
    ∀ v h, total l' v h ≡ₚ total l v h ++ if decide (bool_decide (v = src) = true ∧ h = g) then [d] else [].
Proof.
  intros Hok Hg. pose proof Hok as [_ _ _ Hb Hbs Hsz Hszs]. unfold push_update.
  destruct (lookup_lt_is_Some_2 (buffer_sizes l) g) as [s Hs]; [lia|].
  destruct (lookup_lt_is_Some_2 (subgraph_buffers l) g) as [b Hbuf]; [lia|].
  rewrite (arr_get_Ok _ _ _ Hs), (arr_get_Ok _ _ _ Hbuf). cbn [mbind outcome_bind].
  pose proof (proj1 (Forall_lookup _ _) Hbs _ _ Hbuf) as Hb16. cbn beta in Hb16.
  pose proof (proj1 (Forall_lookup _ _) Hszs _ _ Hs) as Hs16. cbn beta in Hs16.
  rewrite arr_set_Ok by lia. cbn [mbind outcome_bind].
  assert (waiting l g = take s b) as Hw by (unfold waiting; by rewrite Hbuf, Hs).
  assert (take (S s) (<[s:=d]> b) = take s b ++ [d]) as Htake.
  { rewrite (take_S_r _ _ d) by (apply list_lookup_insert_eq; lia). by rewrite take_insert_ge by lia. }
  assert (∀ a' h z, h ≠ g → waiting (mkLocal a' (<[g:=<[s:=d]> b]> (subgraph_buffers l)) (<[g:=z]> (buffer_sizes l))) h
    = waiting l h) as Hother.
  { intros a' h z Hh. unfold waiting. cbn. by rewrite !list_lookup_insert_ne. }
  assert (∀ a' z, waiting (mkLocal a' (<[g:=<[s:=d]> b]> (subgraph_buffers l)) (<[g:=z]> (buffer_sizes l))) g
    = take z (<[s:=d]> b)) as Hself.
  { intros a' z. unfold waiting. cbn. by rewrite !list_lookup_insert_eq by (by eapply lookup_lt_Some). }
  case_decide as Hfull.
  - destruct (local_insert_ok l g (<[s:=d]> b) (S s) Hok Hg) as (a' & -> & Hlocal & Hgot);
      [rewrite length_insert; lia|lia|].
    cbn [mbind outcome_bind]. eexists. split; [done|]. split.
    + apply Hlocal; rewrite ?length_insert; try done; apply list.Forall_insert; try done; [|lia].
      by rewrite length_insert.
    + intros v h. unfold total. cbn [alg]. rewrite Hgot. destruct (decide (h = g)) as [->|Hne].
      * rewrite Hself, Hw, Htake. case_bool_decide.
        -- rewrite !decide_True by done. rewrite firstn_O. solve_Permutation.
        -- by rewrite !decide_False by naive_solver.
      * rewrite Hother by done. rewrite !decide_False by naive_solver. by rewrite !app_nil_r.
  - eexists. split; [done|]. split.
    + destruct Hok. constructor; cbn; rewrite ?length_insert; try done;
        apply list.Forall_insert; try done; [|lia]. by rewrite length_insert.
    + intros v h. unfold total. cbn [alg]. destruct (decide (h = g)) as [->|Hne].
      * rewrite Hself, Hw, Htake. case_bool_decide.
        -- rewrite decide_True by done. solve_Permutation.
        -- by rewrite decide_False, !app_nil_r by naive_solver.
      * rewrite Hother by done. rewrite decide_False by naive_solver. by rewrite !app_nil_r.
Qed.

(** An update goes to the graphs from [lo] to its depth. *)
Definition goes (lo : N) (v g : nat) : Prop := v = src ∧ (lo <= N.of_nat g)%N ∧ g < first.
#[local] Instance goes_dec lo v g : Decision (goes lo v g).
Proof. unfold goes. apply _. Defined.

Lemma elem_of_graph_range lo k g : g ∈ graph_range lo k ↔ (lo <= N.of_nat g)%N ∧ g ≤ k.
Proof.
  unfold graph_range. destruct (N.leb_spec lo (N.of_nat k)); [|set_solver by lia].
  rewrite elem_of_seq. lia.
Qed.

Lemma push_tagged_ok lo l t :
  local_ok l → 0 < first →
  ∃ l', push_tagged thr src lo first l t = Ok l' ∧ local_ok l' ∧
    ∀ v h, total l' v h ≡ₚ total l v h ++ if decide (goes lo v h ∧ h ≤ subgraph t) then [tdst t] else [].
Proof.
  intros Hok Hpos. unfold push_tagged. set (gs := graph_range lo _).
  assert (∀ g, g ∈ gs ↔ (lo <= N.of_nat g)%N ∧ g ≤ subgraph t `min` (first - 1)) as Hgs
    by apply elem_of_graph_range.
  destruct (outcome_fold_adds (push_update thr src (tdst t)) local_ok total
    (λ g v h, if decide (bool_decide (v = src) = true ∧ h = g) then [tdst t] else []) gs l) as (l' & Hrun & Hok' & Ht).
  { intros st g Hg Hst. apply push_update_ok; [done|]. apply Hgs in Hg. lia. } { done. }
  exists l'. split; [done|]. split; [done|]. intros v h. rewrite Ht. f_equiv.
  rewrite (bind_if_elem gs (bool_decide (v = src)) h (λ _, [tdst t])).
  - apply reflexive_eq, decide_ext. rewrite Hgs, bool_decide_eq_true. unfold goes. lia.
  - unfold gs, graph_range. case_match; [apply NoDup_seq|constructor].
Qed.

Lemma flush_local_ok l i :
  local_ok l → i < first →
  ∃ l', flush_local thr src l i = Ok l' ∧ local_ok l' ∧
    subgraph_buffers l' = subgraph_buffers l ∧ buffer_sizes l' = buffer_sizes l ∧
    ∀ v h, got (alg l') v h ≡ₚ got (alg l) v h ++
      if decide (bool_decide (v = src) = true ∧ h = i) then waiting l i else [].
Proof.
  intros Hok Hi. pose proof Hok as [_ _ _ Hb Hbs Hsz Hszs]. unfold flush_local.
  destruct (lookup_lt_is_Some_2 (buffer_sizes l) i) as [s Hs]; [lia|].
  destruct (lookup_lt_is_Some_2 (subgraph_buffers l) i) as [b Hbuf]; [lia|].
  rewrite (arr_get_Ok _ _ _ Hs). cbn [mbind outcome_bind].
  pose proof (proj1 (Forall_lookup _ _) Hbs _ _ Hbuf) as Hb16. cbn beta in Hb16.
  pose proof (proj1 (Forall_lookup _ _) Hszs _ _ Hs) as Hs16. cbn beta in Hs16.
  assert (waiting l i = take s b) as -> by (unfold waiting; by rewrite Hbuf, Hs).
  case_decide as Hpos.
  - rewrite (arr_get_Ok _ _ _ Hbuf). cbn [mbind outcome_bind].
    destruct (local_insert_ok l i b s Hok Hi) as (a' & -> & Hlocal & Hgot); [lia|lia|].
    cbn [mbind outcome_bind]. eexists. split; [done|]. split; [by apply Hlocal|]. by split_and!.
  - exists l. split_and!; try done. intros v h. replace s with 0 by lia. rewrite firstn_O.
    case_decide; by rewrite app_nil_r.
Qed.
End complete.

(** A batch is delivered to exactly the graphs it names. *)
Lemma complete_update_batch_ok thr b a :
  gpu_ok a → thr < num_host_threads a → b_src b < gpu_num_nodes a → 0 < first_es_subgraph b →
  first_es_subgraph b ≤ 16 → first_es_subgraph b ≤ max_graphs → first_es_subgraph b ≤ S (cur_subgraphs a) →
  ∃ a', complete_update_batch thr b a = Ok a' ∧ gpu_ok a' ∧ same_alg a a' ∧
    cur_subgraphs a' = cur_subgraphs a `max` first_es_subgraph b ∧
    ∀ v g, got a' v g ≡ₚ got a v g ++
      if decide (goes (b_src b) (first_es_subgraph b) (min_subgraph b) v g)
      then tdst <$> filter (λ t, g ≤ subgraph t) (dsts_data b) else [].
Proof.
  intros Ha Hthr Hsrc Hpos H16 Hmax Hnext. unfold complete_update_batch. rewrite decide_False by lia.
  set (first := first_es_subgraph b) in *.
  assert (∃ a1, (if decide (cur_subgraphs a < first) then add_sketch_graph a else Ok a) = Ok a1 ∧
    gpu_ok a1 ∧ same_alg a a1 ∧ cur_subgraphs a1 = cur_subgraphs a `max` first ∧
    ∀ v g, got a1 v g = got a v g) as (a1 & -> & Ha1 & Hs1 & Hc1 & Hg1).
  { case_decide.
    - destruct (add_sketch_graph_ok a Ha) as (a1 & Hrun & Ha1 & Hs1 & Hc1 & Hg1); [lia|].
      exists a1. split_and!; try done. lia.
    - exists a. split_and!; try done. lia. }
  cbn [mbind outcome_bind]. pose proof Hs1 as (Hn & _ & Ht & _).
  assert (local_ok first a1 (mkLocal a1 (replicate first (replicate 16 0)) (replicate 16 0))) as Hl0.
  { constructor; cbn [alg subgraph_buffers buffer_sizes]; rewrite ?length_replicate; try done.
    - apply Forall_replicate. apply length_replicate.
    - apply Forall_replicate. lia. }
  destruct (outcome_fold_adds (push_tagged thr (b_src b) (min_subgraph b) first) (local_ok first a1)
    (total (b_src b)) (λ t v h, if decide (goes (b_src b) first (min_subgraph b) v h ∧ h ≤ subgraph t)
      then [tdst t] else []) (dsts_data b)
    (mkLocal a1 (replicate first (replicate 16 0)) (replicate 16 0))) as (l1 & Hrun1 & Hl1 & Htot1); [|exact Hl0|].
  { intros st t _ Hst. apply (push_tagged_ok thr (b_src b) first a1); [lia|lia|lia|lia|done|lia]. }
  rewrite Hrun1. cbn [mbind outcome_bind].
  destruct (outcome_fold_adds (flush_local thr (b_src b))
    (λ l, local_ok first a1 l ∧ subgraph_buffers l = subgraph_buffers l1 ∧ buffer_sizes l = buffer_sizes l1)
    (λ l, got (alg l)) (λ i v h, if decide (bool_decide (v = b_src b) = true ∧ h = i) then waiting l1 i else [])
    (seq 0 first) l1) as (l2 & Hrun2 & (Hl2 & _) & Hgot2); [| by split_and!|].
  { intros st i Hi (Hst & Hsb & Hss). apply elem_of_seq in Hi.
    destruct (flush_local_ok thr (b_src b) first a1) with (l := st) (i := i)
      as (st' & Hrun & Hok & Hb1 & Hb2 & Hg); [lia|lia|lia|lia|done|lia|].
    exists st'. split; [done|]. split; [split_and!; [done|congruence|congruence]|].
    intros v h. rewrite Hg. unfold waiting. by rewrite Hsb, Hss. }
  rewrite Hrun2. cbn [mbind outcome_bind]. exists (alg l2). split; [done|].
  destruct Hl2 as [Hg2 Hs2 Hc2 _ _ _ _]. split; [done|]. split; [by etrans|]. split; [by rewrite Hc2|].
  intros v g. rewrite Hgot2, (bind_if_elem _ _ _ (waiting l1)) by apply NoDup_seq.
  assert ((if decide (bool_decide (v = b_src b) = true ∧ g ∈ seq 0 first) then waiting l1 g else []) =
    if bool_decide (v = b_src b) then waiting l1 g else []) as ->.
  { destruct (decide (g ∈ seq 0 first)) as [Hin|Hin].
    - case_bool_decide; [by rewrite decide_True|by rewrite decide_False by naive_solver].
    - rewrite decide_False by naive_solver. unfold waiting. rewrite (lookup_ge_None_2 (subgraph_buffers l1));
        [by case_bool_decide|]. rewrite (lo_bufs _ _ _ Hl1). rewrite elem_of_seq in Hin. lia. }
  change (got (alg l1) v g ++ _) with (total (b_src b) l1 v g). rewrite Htot1, <- Hg1.
  unfold total. cbn [alg]. assert (∀ g', waiting (mkLocal a1 (replicate first (replicate 16 0)) (replicate 16 0)) g' = [])
    as Hw0.
  { intros g'. unfold waiting. cbn [subgraph_buffers buffer_sizes].
    destruct (replicate first _ !! g') as [b'|]; [|done].
    destruct (replicate 16 0 !! g') as [s'|] eqn:Hs'; [|done]. by apply lookup_replicate in Hs' as [-> _]. }
  rewrite Hw0. replace (if bool_decide (v = b_src b) then [] else []) with (@nil nat) by (by case_bool_decide).
  rewrite app_nil_r. f_equiv. apply reflexive_eq, bind_if_filter.
Qed.
End gpu.
