(* ===== verification/McGpuProps.v ===== *)
(** * The sketch graphs and the edge store hold the graph between them

    For the GPU minimum cut algorithm run batch by batch: whatever contractions the
    edge store goes through, after a flush every sketch graph has been sent exactly
    the updates of the edges that reach its depth, and the store holds the rest. *)

From Stdlib Require Import NArith Lia.
From stdpp Require Import base list gmap sets numbers sorting relations.
From S2P Require Import Prelude Float64 Util Bucket Sketch XXHash Concrete Configuration Graph CCSketchAlg MCSketchAlg EdgeStore EdgeStoreSpec EdgeStoreInv McGpu McGpuSpec.

Section depth.
Context `{Hashing}.

(** Below its cap, the depth counts the trailing zeros of the hash. *)
Lemma depth_ge x s m g :
  (m < 64)%N → (g ≤ m)%N →
  (g ≤ Bucket_Boruvka.get_index_depth x s m)%N ↔ ∀ i, (i < g)%N → N.testbit (xxh3 x (u64 s)) i = false.
Proof.
  intros Hm Hg. split.
  - intros Hle i Hi. apply not_true_is_false. intros Hbit.
    assert (Bucket_Boruvka.get_index_depth x s m ≤ i)%N; [|lia].
    apply ctzll_le_bit. rewrite N.lor_spec, Hbit. done.
  - intros Hbits. apply N.nlt_ge. intros Hlt.
    pose proof (proj1 (Bucket_Boruvka.get_index_depth_below x s m _ Hm (N.lt_le_trans _ _ _ Hlt Hg)) eq_refl) as [Hb _].
    by rewrite Hbits in Hb.
Qed.

(** The two caps the program uses agree below both. *)
Lemma depth_cap x s m m' g :
  (m < 64)%N → (m' < 64)%N → (g ≤ m)%N → (g ≤ m')%N →
  (g ≤ Bucket_Boruvka.get_index_depth x s m)%N ↔ (g ≤ Bucket_Boruvka.get_index_depth x s m')%N.
Proof. intros. by rewrite !depth_ge. Qed.

Definition edge_depth (sd : N) (ns : nat) (v d : nat) : nat := subgraph (tag sd (ns - 1) v d).

Lemma tag_ok_small sd ns bound v d :
  tag_ok bound (edge_depth sd ns v) (tag sd (ns - 1) v d).
Proof. intros g _. done. Qed.

Lemma tag_ok_large sd ns bound v d :
  bound < ns → ns < 64 → tag_ok bound (edge_depth sd ns v) (tag sd ns v d).
Proof.
  intros Hb Hns g Hg. unfold edge_depth, tag. cbn [subgraph tdst].
  pose proof (depth_cap (concat_pairing_fn v d) sd (N.of_nat ns) (N.of_nat (ns - 1)) (N.of_nat g)). lia.
Qed.
End depth.

Lemma prev_subgraph_small k : 0 < k → k ≤ 16 → prev_subgraph k = N.of_nat (k - 1).
Proof.
  intros Hk Hl. unfold prev_subgraph. rewrite wsub_small by lia. rewrite wrap_small; lia.
Qed.

Section run.
Context `{BuildConfig, Libm, Hashing}.
Context (max_graphs ns : nat) (sd : N).
Context (Hmax : max_graphs ≤ 16) (Hns : max_graphs < ns) (H64 : ns < 64).

(** The parity of what graph [g] received of vertex [v]. *)
Definition got_set (a : MCGPUSketchAlg) (v g : nat) : gset nat := toggle_all (got a v g) ∅.

Record alg_inv (a : MCGPUSketchAlg) (hist : nat → list nat) : Prop := {
  ai_gpu : gpu_ok max_graphs a;
  ai_store : store_inv max_graphs (edge_depth sd ns) (edge_store a) (got_set a) hist;
  ai_cur : cur_subgraphs a ≤ cur_subgraph (edge_store a) ≤ S (cur_subgraphs a);
  ai_seed : gpu_seed a = sd ∧ es_seed (edge_store a) = sd;
  ai_ns : gpu_num_subgraphs a = ns ∧ num_subgraphs (edge_store a) = ns;
  ai_nodes : es_vertices (edge_store a) = gpu_num_nodes a;
}.

Lemma set_store_ok es a : gpu_ok max_graphs a → gpu_ok max_graphs (set_store a es).
Proof. by intros []. Qed.

(** A delivered batch in terms of [sent_at]. *)
Lemma complete_sent thr b lo a :
  gpu_ok max_graphs a → thr < num_host_threads a → b_src b < gpu_num_nodes a →
  0 < first_es_subgraph b ≤ max_graphs → first_es_subgraph b ≤ S (cur_subgraphs a) →
  min_subgraph b = N.of_nat lo →
  ∃ a', complete_update_batch thr b a = Ok a' ∧ gpu_ok max_graphs a' ∧ same_alg a a' ∧
    cur_subgraphs a' = cur_subgraphs a `max` first_es_subgraph b ∧
    sent_at (b_src b) lo (first_es_subgraph b) (dsts_data b) (got_set a) (got_set a').
Proof.
  intros Ha Hthr Hsrc Hf Hn Hlo.
  destruct (complete_update_batch_ok max_graphs thr b a) as (a' & Hrun & Ha' & Hs & Hc & Hg);
    [done|done|done|lia|lia|lia|done|].
  exists a'. split; [done|]. do 3 (split; [done|]). split.
  - intros g. unfold got_set. rewrite (toggle_all_perm _ _ _ (Hg _ _)), toggle_all_app.
    rewrite Hlo. case_decide as Hd; unfold goes in *.
    + rewrite decide_True by lia. by rewrite (toggle_all_empty (tdst <$> _)).
    + rewrite decide_False by lia. done.
  - intros u Hu g. unfold got_set. rewrite (toggle_all_perm _ _ _ (Hg _ _)).
    rewrite decide_False by (unfold goes; naive_solver). by rewrite app_nil_r.
Qed.

Lemma complete_if_any_sent thr b lo a :
  gpu_ok max_graphs a → thr < num_host_threads a →
  (dsts_data b ≠ [] → b_src b < gpu_num_nodes a ∧ 0 < first_es_subgraph b ≤ max_graphs ∧
     first_es_subgraph b ≤ S (cur_subgraphs a) ∧ min_subgraph b = N.of_nat lo) →
  ∃ a', complete_if_any thr b a = Ok a' ∧ gpu_ok max_graphs a' ∧ same_alg a a' ∧
    (cur_subgraphs a ≤ cur_subgraphs a' ≤ cur_subgraphs a `max` first_es_subgraph b) ∧
    sent_at (b_src b) lo (first_es_subgraph b) (dsts_data b) (got_set a) (got_set a').
Proof.
  intros Ha Hthr Hb. unfold complete_if_any. case_decide as Hd.
  - destruct Hb as (Hsrc & Hf & Hn & Hlo); [intros Hnil; rewrite Hnil in Hd; simpl in Hd; lia|].
    destruct (complete_sent thr b lo a Ha Hthr Hsrc Hf Hn Hlo) as (a' & Hrun & Ha' & Hs & Hc & Hg).
    exists a'. split_and!; try done; lia.
  - exists a. split; [done|]. split; [done|]. split; [done|]. split; [lia|].
    destruct (dsts_data b) eqn:He; [|simpl in Hd; lia].
    split; [|done]. intros g. case_decide; [|done]. symmetry. apply symdiff_empty_r.
Qed.

(** The end of a batch: what the store handed out is delivered. *)
Lemma finish_batch thr v ts b es' a a1 hist :
  alg_inv a hist → thr < num_host_threads a →
  let es := edge_store a in let cur := cur_subgraph es in
  same_store es es' → first_es_subgraph b = cur → min_subgraph b = prev_subgraph cur →
  (dsts_data b ≠ [] → b_src b < es_vertices es ∧ true_min_subgraph es < cur) →
  (∀ got1 got2, sent_at v 0 cur ts (got_set a) got1 →
     sent_at (b_src b) (true_min_subgraph es) cur (dsts_data b) got1 got2 →
     store_inv max_graphs (edge_depth sd ns) es' got2 (hist_add v (tdst <$> ts) hist) ∨
     max_graphs < cur_subgraph es') →
  gpu_ok max_graphs a1 → same_alg (set_store a es') a1 →
  cur_subgraphs a ≤ cur_subgraphs a1 ≤ cur → cur_subgraph es' ≤ S (cur_subgraphs a1) →
  sent_at v 0 cur ts (got_set a) (got_set a1) →
  ∃ a2, complete_if_any thr b a1 = Ok a2 ∧ same_alg a1 a2 ∧
    (alg_inv a2 (hist_add v (tdst <$> ts) hist) ∨ max_graphs < cur_subgraph (edge_store a2)).
Proof.
  intros [Ha Hst Hcur [Hsd Hsd'] [Hn Hn'] Hnodes] Hthr es cur Hsame Hfirst Hmin Hb Hinv Ha1 Hs1 Hc1 Hnext Hsent.
  pose proof (si_bound _ _ _ _ _ Hst) as Hbound. pose proof (si_phase _ _ _ _ _ Hst) as Hphase.
  pose proof Hs1 as (Hs1n & Hs1s & Hs1t & Hs1b & Hs1d & Hs1e).
  cbn [set_store gpu_num_nodes gpu_num_subgraphs num_host_threads gpu_batch_size gpu_seed edge_store] in *.
  destruct (complete_if_any_sent thr b (true_min_subgraph es) a1 Ha1) as (a2 & Hrun & Ha2 & Hs2 & Hc2 & Hg2).
  { lia. }
  { intros Hd. destruct (Hb Hd) as [Hsrc Hlt]. fold es cur in Hphase, Hbound, Hcur.
    split; [unfold es in Hsrc; lia|]. split; [lia|]. split; [lia|].
    rewrite Hmin, prev_subgraph_small by lia. f_equal. lia. }
  exists a2. split; [done|]. split; [done|]. rewrite Hfirst in Hg2, Hc2.
  pose proof Hs2 as (Hs2n & Hs2s & Hs2t & Hs2b & Hs2d & Hs2e). rewrite Hs2e, Hs1e.
  destruct (Hinv _ _ Hsent Hg2) as [Hi|]; [left|by right]. destruct Hsame as (He1 & He2 & He3 & He4).
  constructor; rewrite ?Hs2e, ?Hs1e; try done.
  - fold es cur in He4. lia.
  - unfold es in *. split; congruence.
  - unfold es in *. split; congruence.
  - unfold es in *. congruence.
Qed.

(** One batch from the stream. *)
Lemma apply_update_batch_inv thr v ds a hist :
  alg_inv a hist → thr < num_host_threads a → v < gpu_num_nodes a → length ds ≤ gpu_batch_size a →
  ∃ a', apply_update_batch thr v ds a = Ok a' ∧
    gpu_num_nodes a' = gpu_num_nodes a ∧ num_host_threads a' = num_host_threads a ∧
    gpu_batch_size a' = gpu_batch_size a ∧
    (alg_inv a' (hist_add v ds hist) ∨ max_graphs < cur_subgraph (edge_store a')).
Proof.
  intros Hall Hthr Hv Hlen. pose proof Hall as [Ha Hst Hcur [Hsd Hsd'] [Hn Hn'] Hnodes].
  unfold apply_update_batch. rewrite (go_locked _ _ Ha).
  pose proof (si_bound _ _ _ _ _ Hst) as Hbound. set (cur := cur_subgraph (edge_store a)) in *.
  assert (∀ m, m = ns ∨ m = ns - 1 → Forall (tag_ok max_graphs (edge_depth sd ns v)) (tag sd m v <$> ds)) as Htags.
  { intros m Hm. apply Forall_fmap, Forall_true. intros d. cbn.
    destruct Hm as [->| ->]; [by apply tag_ok_large|apply tag_ok_small]. }
  assert (∀ m, tdst <$> (tag sd m v <$> ds) = ds) as Hdst.
  { intros m. rewrite <- list_fmap_compose. by apply list_fmap_id. }
  case_decide as Hzero.
  - unfold insert_adj_edges. rewrite Hsd', Hn'. set (ts := tag sd ns v <$> ds).
    destruct (insert_tagged_ok max_graphs (edge_depth sd ns) _ _ _ v ts Hst) as
      (b & es' & Hrun & Hsame & Hfirst & Hmin & Hb & Hinv); [by rewrite Hnodes|by apply Htags; left|].
    fold cur in Hrun, Hfirst, Hmin, Hb, Hinv.
    rewrite Hzero in Hrun. rewrite kept_all in Hrun by (apply Forall_true; lia).
    rewrite Hrun. cbn [mbind outcome_bind fst snd].
    destruct (finish_batch thr v ts b es' a (set_store a es') hist) as (a2 & Hrun2 & Hs2 & Hend);
      try done; [by apply set_store_ok|cbn; fold cur; lia|..].
    { cbn. destruct Hsame as (_ & _ & _ & Hsame). fold cur in Hsame. lia. }
    { fold cur. split; [|done]. intros g. rewrite decide_False by lia. done. }
    exists a2. split; [done|]. destruct Hs2 as (? & ? & ? & ? & ? & ?). split_and!; try done.
    unfold ts in Hend. by rewrite Hdst in Hend.
  - rewrite decide_False by lia. rewrite Hsd, Hn. set (ts := tag sd (ns - 1) v <$> ds).
    change (filter _ ts) with (kept cur ts).
    destruct (insert_tagged_ok max_graphs (edge_depth sd ns) _ _ _ v ts Hst) as
      (b & es' & Hrun & Hsame & Hfirst & Hmin & Hb & Hinv); [by rewrite Hnodes|by apply Htags; right|].
    fold cur in Hrun, Hfirst, Hmin, Hb, Hinv. rewrite Hrun. cbn [mbind outcome_bind fst snd].
    assert (∃ a1, (if decide (0 < length ts)
           then complete_update_batch thr (mkTaggedBatch v 0 cur ts) (set_store a es')
           else Ok (set_store a es')) = Ok a1 ∧ gpu_ok max_graphs a1 ∧ same_alg (set_store a es') a1 ∧
        cur_subgraphs a ≤ cur_subgraphs a1 ≤ cur ∧ cur_subgraph es' ≤ S (cur_subgraphs a1) ∧
        sent_at v 0 cur ts (got_set a) (got_set a1)) as (a1 & -> & Ha1 & Hs1 & Hc1 & Hnext & Hg1).
    { case_decide as Hts.
      - destruct (complete_sent thr (mkTaggedBatch v 0 cur ts) 0 (set_store a es'))
          as (a1 & Hrun1 & Ha1 & Hs1 & Hc1 & Hg1); cbn; [by apply set_store_ok|done|done|lia|lia|done|].
        exists a1. split; [done|]. cbn in Hc1, Hg1. destruct Hsame as (_ & _ & _ & Hsame). fold cur in Hsame.
        split_and!; try done; lia.
      - exists (set_store a es'). assert (ts = []) as Hnil by (destruct ts; [done|simpl in Hts; lia]).
        rewrite Hnil in Hrun. cbn in Hrun. injection Hrun as _ He.
        split; [done|]. split; [by apply set_store_ok|]. split; [done|]. cbn [set_store cur_subgraphs].
        split; [lia|]. split; [rewrite <- He; fold cur; lia|]. rewrite Hnil. split; [|done]. intros g. case_decide; [|done].
        symmetry. apply symdiff_empty_r. }
    cbn [mbind outcome_bind].
    destruct (finish_batch thr v ts b es' a a1 hist) as (a2 & Hrun2 & Hs2 & Hend); try done.
    exists a2. split; [done|]. destruct Hs2 as (? & ? & ? & ? & ? & ?), Hs1 as (? & ? & ? & ? & ? & ?).
    cbn [set_store gpu_num_nodes num_host_threads gpu_batch_size] in *.
    split_and!; [congruence|congruence|congruence|]. unfold ts in Hend. by rewrite Hdst in Hend.
Qed.

(** *** [apply_flush_updates] *)

Definition turns (a : MCGPUSketchAlg) : nat :=
  if contract_in_progress (edge_store a)
  then S (gpu_num_nodes a) - N.to_nat (needs_contraction (edge_store a)) else 0.

Lemma flush_task_ok fuel thr a hist :
  alg_inv a hist → thr < num_host_threads a → turns a < fuel →
  ∃ a', flush_task fuel thr a = Ok a' ∧ alg_inv a' hist ∧ contract_in_progress (edge_store a') = false ∧
    gpu_num_nodes a' = gpu_num_nodes a ∧ num_host_threads a' = num_host_threads a ∧
    cur_subgraph (edge_store a') = cur_subgraph (edge_store a).
Proof.
  revert a. induction fuel as [|fuel IH]; intros a Hall Hthr Hfuel; [lia|].
  cbn [flush_task]. unfold turns in Hfuel. destruct (contract_in_progress (edge_store a)) eqn:Hprog.
  - pose proof Hall as [Ha Hst Hcur [Hsd Hsd'] [Hn Hn'] Hnodes].
    apply bool_decide_eq_true in Hprog.
    pose proof (si_phase _ _ _ _ _ Hst) as Hph. pose proof (si_bound _ _ _ _ _ Hst) as Hb.
    destruct (vertex_advance_ok max_graphs (edge_depth sd ns) (S (S (es_vertices (edge_store a)))) _ _ _ Hst)
      as (b & es' & Hrun & (Hsame & Hfirst & Hmin & Hsrc & Hsent) & Hc & Hmeas); [lia|lia|].
    unfold vertex_advance_subgraph. rewrite Hrun. cbn [mbind outcome_bind fst snd].
    destruct (complete_if_any_sent thr b (true_min_subgraph (edge_store a)) (set_store a es'))
      as (a2 & -> & Ha2 & Hs2 & Hc2 & Hg2); [by apply set_store_ok|done| |].
    { intros Hd. cbn. rewrite <- Hnodes. split; [by apply Hsrc|]. split; [lia|]. split; [lia|].
      rewrite Hmin, prev_subgraph_small by lia. f_equal. lia. }
    cbn [mbind outcome_bind]. pose proof Hs2 as (Hs2n & Hs2s & Hs2t & Hs2b & Hs2d & Hs2e).
    cbn [set_store gpu_num_nodes gpu_num_subgraphs num_host_threads gpu_batch_size gpu_seed edge_store
      cur_subgraphs] in *.
    destruct Hsame as (He1 & He2 & He3 & He4). rewrite Hfirst in Hg2, Hc2.
    assert (alg_inv a2 hist) as Hall2.
    { constructor; rewrite ?Hs2e; [done|by apply Hsent|lia|split; congruence|split; congruence|congruence]. }
    pose proof (si_tickets _ _ _ _ _ Hst ltac:(lia)) as Htick.
    destruct (IH a2 Hall2) as (a' & Hrun' & Hinv' & Hdone & Hn2 & Ht2 & Hc'); [lia| |].
    + unfold turns. rewrite Hs2e. unfold contract_in_progress. case_bool_decide; [|lia].
      destruct Hmeas as [Hm|[Hm _]]; [lia|]. rewrite Hs2n. lia.
    + exists a'. rewrite Hs2e in Hc'. split_and!; (done || congruence).
  - exists a. by split_and!.
Qed.

Lemma flush_tasks_ok thrs a hist :
  alg_inv a hist → Forall (λ t, t < num_host_threads a) thrs →
  ∃ a', outcome_fold (λ a thr_id, flush_task (S (S (S (gpu_num_nodes a)))) thr_id a) a thrs = Ok a' ∧
    alg_inv a' hist ∧ (thrs ≠ [] → contract_in_progress (edge_store a') = false) ∧
    gpu_num_nodes a' = gpu_num_nodes a ∧ num_host_threads a' = num_host_threads a ∧
    cur_subgraph (edge_store a') = cur_subgraph (edge_store a).
Proof.
  revert a. induction thrs as [|t thrs IH]; intros a Hall Hthrs; [by exists a|].
  apply list.Forall_cons in Hthrs as [Ht Hthrs]. cbn [outcome_fold].
  destruct (flush_task_ok (S (S (S (gpu_num_nodes a)))) t a hist Hall Ht) as
    (a1 & Hrun & Hall1 & Hdone & Hn1 & Ht1 & Hc1).
  { unfold turns. destruct (contract_in_progress _); lia. }
  rewrite Hrun. cbn [mbind outcome_bind].
  destruct (IH a1 Hall1) as (a2 & Hrun2 & Hall2 & Hdone2 & Hn2 & Ht2 & Hc2); [by rewrite Ht1|].
  exists a2. split; [done|]. split; [done|]. split; [|split_and!; congruence].
  intros _. destruct thrs; [cbn in Hrun2; congruence|by apply Hdone2].
Qed.

(** Flushing the sketch graphs moves the gutters into the streams. *)
Definition sent_to_gpu (a : MCGPUSketchAlg) (g v : nat) : list nat :=
  match subgraphs a !! g with Some sg => streamed sg v | None => [] end.

Lemma flush_subgraphs_ok gs a :
  gpu_ok max_graphs a → Forall (λ g, g < cur_subgraphs a) gs →
  ∃ a', outcome_fold flush_subgraph a gs = Ok a' ∧ gpu_ok max_graphs a' ∧ same_alg a a' ∧
    cur_subgraphs a' = cur_subgraphs a ∧
    ∀ v g, got a' v g ≡ₚ got a v g ∧
      (g ∈ gs ∨ sent_to_gpu a g v ≡ₚ got a v g → sent_to_gpu a' g v ≡ₚ got a v g).
Proof.
  revert a. induction gs as [|g gs IH]; intros a Ha Hgs.
  { exists a. split_and!; try done. intros v g. split; [done|]. intros [Hg|]; [set_solver|done]. }
  apply list.Forall_cons in Hgs as [Hg Hgs]. cbn [outcome_fold].
  pose proof (go_cur _ _ Ha). pose proof (go_len _ _ Ha).
  destruct (lookup_lt_is_Some_2 (subgraphs a) g) as [sg Hsg]; [lia|].
  destruct (flush_ok _ _ _ (go_batch _ _ Ha) sg (go_sub _ _ Ha g sg Hg Hsg) (go_threads _ _ Ha)) as (sg' & Hrun & Hok & Hrec).
  assert (flush_subgraph a g = Ok (set_subgraphs a (<[g := sg']> (subgraphs a)))) as ->.
  { unfold flush_subgraph. rewrite (arr_get_Ok _ _ _ Hsg). cbn [mbind outcome_bind]. by rewrite Hrun. }
  cbn [mbind outcome_bind]. set (a1 := set_subgraphs a _).
  assert (gpu_ok max_graphs a1) as Ha1.
  { destruct Ha as [Hl Hc Ht Hb Hs Hn Hlk Hm Hmc]. constructor; cbn; try done.
    - by rewrite length_insert.
    - intros h sgh Hh Hsgh. destruct (decide (h = g)) as [->|Hne].
      + rewrite list_lookup_insert_eq in Hsgh by lia. by simplify_eq.
      + rewrite list_lookup_insert_ne in Hsgh by done. by apply (Hs h).
    - intros h sgh v Hh Hsgh. rewrite list_lookup_insert_ne in Hsgh by lia. by apply (Hn h). }
  assert (∀ v h, got a1 v h ≡ₚ got a v h ∧
    (h = g ∨ sent_to_gpu a h v ≡ₚ got a v h → sent_to_gpu a1 h v ≡ₚ got a v h)) as Hgot1.
  { intros v h. unfold got, sent_to_gpu. cbn [subgraphs a1 set_subgraphs].
    destruct (decide (h = g)) as [->|Hne].
    - rewrite list_lookup_insert_eq, Hsg by lia. destruct (Hrec v) as [Hs Hp].
      unfold received at 1. rewrite Hp, app_nil_r, Hs. by split.
    - rewrite list_lookup_insert_ne by done. split; [done|]. naive_solver. }
  destruct (IH a1 Ha1 Hgs) as (a2 & Hrun2 & Ha2 & Hs2 & Hc2 & Hgot2).
  exists a2. split; [done|]. split; [done|]. split; [exact Hs2|]. split; [done|].
  intros v h. destruct (Hgot1 v h) as [Hg1 Hsent1], (Hgot2 v h) as [Hg2 Hsent2].
  split; [by rewrite Hg2|]. intros Hh. rewrite <- Hg1. apply Hsent2.
  destruct (decide (h ∈ gs)); [by left|right]. rewrite Hg1. apply Hsent1. set_solver.
Qed.

(** After a flush: the sketch graphs have their updates, the store has the rest. *)
Definition split_between (a : MCGPUSketchAlg) (hist : nat → list nat) : Prop :=
  ∀ v, v < gpu_num_nodes a →
    (∀ g, g < cur_subgraph (edge_store a) →
       toggle_all (sent_to_gpu a g v) (∅ : gset nat) = want (edge_depth sd ns v) (hist v) g) ∧
    ∃ l, adjlist (edge_store a) !! v = Some l ∧
      Forall (λ t, cur_subgraph (edge_store a) ≤ subgraph t) l ∧
      dpar l = want (edge_depth sd ns v) (hist v) (cur_subgraph (edge_store a)).

Lemma apply_flush_updates_ok a hist :
  alg_inv a hist →
  ∃ a', apply_flush_updates a = Ok a' ∧ split_between a' hist ∧
    gpu_num_nodes a' = gpu_num_nodes a ∧
    num_edges (edge_store a') = u64 (N.of_nat (stored (edge_store a'))).
Proof.
  intros Hall. unfold apply_flush_updates. pose proof (go_threads _ _ (ai_gpu _ _ Hall)) as Hpos.
  destruct (flush_tasks_ok (seq 0 (num_host_threads a)) a hist Hall) as
    (a1 & -> & Hall1 & Hdone & Hn1 & Ht1 & Hc1); [apply Forall_seq; lia|].
  cbn [mbind outcome_bind]. pose proof Hall1 as [Ha1 Hst1 Hcur1 _ _ Hnodes1].
  destruct (flush_subgraphs_ok (seq 0 (cur_subgraphs a1)) a1 Ha1) as
    (a2 & -> & Ha2 & Hs2 & Hc2 & Hgot2); [apply Forall_seq; lia|].
  destruct Hs2 as (Hs2n & _ & _ & _ & _ & Hs2e).
  exists a2. split; [done|]. rewrite Hs2e, Hs2n. split; [|split; [done|apply (si_edges _ _ _ _ _ Hst1)]].
  intros v Hv. rewrite Hs2n in Hv. rewrite Hs2e.
  destruct (si_lookup _ _ _ _ _ v Hst1) as (l & c & Hl & Hc); [by rewrite Hnodes1|].
  assert (contract_in_progress (edge_store a1) = false) as Hdone1.
  { apply Hdone. destruct (num_host_threads a); [lia|done]. }
  apply bool_decide_eq_false in Hdone1.
  assert (c = true) as -> by (destruct c; [done|]; pose proof (si_open _ _ _ _ _ Hst1 v Hc); lia).
  destruct (si_vertex _ _ _ _ _ Hst1 v l true Hl Hc) as (_ & _ & Hge & Hpar & Hgot).
  split; [|by exists l]. intros g Hg. rewrite <- Hgot by done.
  apply toggle_all_perm. destruct (Hgot2 v g) as [_ Hsent]. apply Hsent.
  destruct (decide (g < cur_subgraphs a1)); [left; apply elem_of_seq; lia|right].
  unfold sent_to_gpu, got. destruct (subgraphs a1 !! g) as [sg|] eqn:Hsg; [|done].
  pose proof (go_new _ _ Ha1 g sg v ltac:(lia) Hsg) as Hnil. rewrite Hnil.
  unfold received in Hnil. by apply app_eq_nil in Hnil as [-> _].
Qed.

(** *** A whole run *)

(** A batch of the stream: the thread, the vertex and the destinations. *)
Definition ingest (bs : list (nat * nat * list nat)) (a : MCGPUSketchAlg) : outcome MCGPUSketchAlg :=
  outcome_fold (λ a b, apply_update_batch b.1.1 b.1.2 b.2 a) a bs.

Definition hist_of (bs : list (nat * nat * list nat)) (v : nat) : list nat :=
  b ← bs; if decide (v = b.1.2) then b.2 else [].

Lemma alg_inv_ext a hist hist' : (∀ v, hist' v = hist v) → alg_inv a hist → alg_inv a hist'.
Proof.
  intros He [Ha Hst Hcur Hsd Hn Hnodes]. constructor; try done. destruct Hst. constructor; try done.
  intros v l c Hl Hc. rewrite He. auto.
Qed.

Lemma hist_of_snoc bs b v : hist_of (bs ++ [b]) v = hist_add b.1.2 b.2 (hist_of bs) v.
Proof.
  unfold hist_of, hist_add. rewrite bind_app. cbn [mbind list_bind]. rewrite app_nil_r.
  case_decide; [done|by rewrite app_nil_r].
Qed.

Definition batch_valid (a : MCGPUSketchAlg) (b : nat * nat * list nat) : Prop :=
  b.1.1 < num_host_threads a ∧ b.1.2 < gpu_num_nodes a ∧ length b.2 ≤ gpu_batch_size a.

Lemma ingest_ok done_ bs a :
  alg_inv a (hist_of done_) → Forall (batch_valid a) bs →
  ∃ k a', ingest (take k bs) a = Ok a' ∧
    (k = length bs ∧ alg_inv a' (hist_of (done_ ++ bs)) ∧ gpu_num_nodes a' = gpu_num_nodes a ∨
     max_graphs < cur_subgraph (edge_store a')).
Proof.
  revert done_ a. induction bs as [|b bs IH]; intros done_ a Hall Hbs.
  { exists 0, a. split; [done|]. left. by rewrite app_nil_r. }
  apply list.Forall_cons in Hbs as [(Ht & Hv & Hl) Hbs].
  destruct (apply_update_batch_inv b.1.1 b.1.2 b.2 a _ Hall Ht Hv Hl) as (a1 & Hrun & Hn1 & Ht1 & Hb1 & Hend).
  destruct Hend as [Hall1|Hover].
  - destruct (IH (done_ ++ [b]) a1) as (k & a2 & Hrun2 & Hend2).
    { apply (alg_inv_ext _ (hist_add b.1.2 b.2 (hist_of done_))); [apply hist_of_snoc|done]. }
    { eapply Forall_impl; [exact Hbs|]. intros b' (?&?&?). unfold batch_valid. lia. }
    exists (S k), a2. split; [unfold ingest in *; cbn [take firstn outcome_fold]; by rewrite Hrun|].
    rewrite <- app_assoc in Hend2. cbn [length]. destruct Hend2 as [(-> & Hi & Hn)|]; [left|by right].
    split_and!; [done|done|congruence].
  - exists 1, a1. split; [|by right]. unfold ingest. cbn [take firstn outcome_fold]. by rewrite Hrun.
Qed.

Lemma add_initial_ok (l : list nat) a :
  gpu_ok max_graphs a → (∀ v g, got a v g = []) → cur_subgraphs a + length l ≤ max_graphs →
  ∃ a', outcome_fold (λ a _, add_sketch_graph a) a l = Ok a' ∧ gpu_ok max_graphs a' ∧
    same_alg a a' ∧ cur_subgraphs a' = cur_subgraphs a + length l ∧ ∀ v g, got a' v g = [].
Proof.
  revert a. induction l as [|i l IH]; intros a Ha Hgot Hle.
  { exists a. split_and!; try done; by rewrite Nat.add_0_r. }
  cbn [length outcome_fold] in *. destruct (add_sketch_graph_ok max_graphs a Ha) as (a1 & -> & Ha1 & Hs1 & Hc1 & Hg1);
    [lia|]. cbn [mbind outcome_bind].
  destruct (IH a1 Ha1) as (a2 & -> & Ha2 & Hs2 & Hc2 & Hg2); [intros v g; by rewrite Hg1|lia|].
  exists a2. split; [done|]. split; [done|]. split; [by etrans|]. split; [lia|done].
Qed.

(** The constructor. *)
Lemma new_MCGPUSketchAlg_ok nv threads initial sketch_bytes junk prio cfg batch :
  initial ≤ max_graphs → 0 < threads → (N.of_nat nv < 2 ^ 32 - 1)%N →
  MC.get_desired_updates_per_batch (MC.new_MCSketchAlg nv sd prio max_graphs cfg) = Ok batch →
  (16 ≤ batch)%N →
  ∃ a, new_MCGPUSketchAlg nv threads ns max_graphs initial sd sketch_bytes junk prio cfg = Ok a ∧
    alg_inv a (hist_of []) ∧ gpu_num_nodes a = nv ∧ num_host_threads a = threads ∧
    gpu_batch_size a = N.to_nat batch.
Proof.
  intros Hini Hthr Hnv Hbatch H16. unfold new_MCGPUSketchAlg. rewrite decide_False by lia.
  rewrite Hbatch. cbn [mbind outcome_bind]. set (a0 := mkMcGpu _ _ _ _ _ _ _ _ _).
  assert (∀ v g, got a0 v g = []) as Hg0.
  { intros v g. unfold got. cbn [subgraphs a0]. destruct (replicate max_graphs _ !! g) as [sg|] eqn:Hsg; [|done].
    by apply lookup_replicate in Hsg as [-> _]. }
  assert (gpu_ok max_graphs a0) as Ha0.
  { constructor; cbn; try (done || lia).
    - apply length_replicate.
    - intros g sg v _ Hsg. by apply lookup_replicate in Hsg as [-> _]. }
  destruct (add_initial_ok (seq 0 initial) a0 Ha0 Hg0) as (a & -> & Ha & Hs & Hc & Hg);
    [rewrite length_seq; cbn; lia|].
  cbn [mbind outcome_bind]. rewrite length_seq in Hc. cbn [cur_subgraphs a0] in Hc.
  destruct Hs as (Hsn & Hss & Hst & Hsb & Hsd & Hse).
  cbn [gpu_num_nodes gpu_num_subgraphs num_host_threads gpu_batch_size gpu_seed edge_store a0] in *.
  exists a. split; [done|]. split; [|by split_and!].
  constructor; rewrite ?Hse; cbn; try done; [|lia].
  constructor; cbn; rewrite ?length_replicate; try (done || lia).
  - unfold stored. cbn. rewrite sum_list_with_replicate_nil. done.
  - intros v Hv. by apply lookup_replicate in Hv as [? _].
  - intros v l c Hl Hcc. apply lookup_replicate in Hl as [-> _], Hcc as [-> _].
    split; [constructor|]. assert (∀ g, got_set a v g = ∅) as Hgs by (intros g; unfold got_set; by rewrite Hg).
    split; [intros g _; apply Hgs|]. split; [constructor|]. split; [done|]. intros g _. by rewrite Hgs.
Qed.
End run.

(** C10. Run batch by batch and then flushed, whatever contractions happen on the way:
    for every vertex, each sketch graph below the store's first subgraph has been
    sent the updates of exactly the edges of at least that depth, and the store
    holds the updates of the remaining depths, both counted with parity; the edge
    counter is the number of stored updates. The run stops early only when the
    store has moved past the sketch graphs there is room for. *)
Theorem mc_gpu_store_and_sketches `{BuildConfig, Libm, Hashing} max_graphs ns sd nv threads initial
    sketch_bytes junk prio cfg batch bs :
  initial ≤ max_graphs → max_graphs ≤ 16 → max_graphs < ns → ns < 64 → 0 < threads →
  (N.of_nat nv < 2 ^ 32 - 1)%N →
  MC.get_desired_updates_per_batch (MC.new_MCSketchAlg nv sd prio max_graphs cfg) = Ok batch →
  (16 ≤ batch)%N →
  Forall (λ b : nat * nat * list nat, b.1.1 < threads ∧ b.1.2 < nv ∧ (N.of_nat (length b.2) ≤ batch)%N) bs →
  ∃ a0 k a, new_MCGPUSketchAlg nv threads ns max_graphs initial sd sketch_bytes junk prio cfg = Ok a0 ∧
    ingest (take k bs) a0 = Ok a ∧
    ((k = length bs ∧ ∃ a', apply_flush_updates a = Ok a' ∧ split_between ns sd a' (hist_of bs) ∧
        num_edges (edge_store a') = u64 (N.of_nat (stored (edge_store a')))) ∨
     max_graphs < cur_subgraph (edge_store a)).
Proof.
  intros Hini Hmax Hns H64 Hthr Hnv Hbatch H16 Hbs.
  destruct (new_MCGPUSketchAlg_ok max_graphs ns sd Hmax Hns H64 nv threads initial sketch_bytes junk prio cfg batch)
    as (a0 & Hnew & Hinv & Hn & Ht & Hb); [done..|].
  destruct (ingest_ok max_graphs ns sd Hmax Hns H64 [] bs a0 Hinv) as (k & a & Hrun & Hend).
  { eapply Forall_impl; [exact Hbs|]. intros b (?&?&?). unfold batch_valid. lia. }
  exists a0, k, a. split; [done|]. split; [done|]. destruct Hend as [(-> & Hinv' & Hn')|]; [left|by right].
  split; [done|]. destruct (apply_flush_updates_ok max_graphs ns sd Hmax Hns H64 a _ Hinv') as (a' & Hfl & Hsp & _ & Hne).
  by exists a'.
Qed.

Section witnesses.
#[local] Existing Instances default_build integral_libm xxh3_hashing.

(** Three nodes, room for three stored updates, so that contractions happen. *)
Definition example_gpu_batches : list (nat * nat * list nat) :=
  [(0, 0, [1; 2]); (1, 1, [0; 2]); (0, 2, [0; 1]); (1, 0, [2]); (0, 2, [0]); (1, 1, [2; 2])].

Lemma mc_gpu_store_and_sketches_witness :
  ∃ a0 k a, new_MCGPUSketchAlg 3 2 20 3 0 7 24 77 [5; 1; 4]%N CCConf.default = Ok a0 ∧
    ingest (take k example_gpu_batches) a0 = Ok a ∧
    ((k = 6 ∧ ∃ a', apply_flush_updates a = Ok a' ∧ split_between 20 7 a' (hist_of example_gpu_batches) ∧
        num_edges (edge_store a') = u64 (N.of_nat (stored (edge_store a')))) ∨
     3 < cur_subgraph (edge_store a)).
Proof.
  apply (mc_gpu_store_and_sketches 3 20 7 3 2 0 24 77 [5; 1; 4]%N CCConf.default 220 example_gpu_batches);
    try lia; [by vm_compute|].
  repeat constructor; simpl; lia.
Defined.

(** Of the example, one contraction has been started when the last batch is in. *)
Lemma example_gpu_contracts :
  (a ← new_MCGPUSketchAlg 3 2 20 3 0 7 24 77 [5; 1; 4]%N CCConf.default;
   a ← ingest example_gpu_batches a;
   Ok (cur_subgraph (edge_store a), contract_in_progress (edge_store a))) = Ok (1, true).
Proof. by vm_compute. Qed.
End witnesses.
