(* ===== verification/CudaKernel.v ===== *)
(** * The GPU kernels: src/src/cuda_kernel.cu

    A launch runs one block per batch; a block builds the sketch of its batch in
    shared memory with its threads in three phases separated by barriers, and its
    last phase brings the buckets to global memory. The steps of the threads are
    their accesses to shared and global memory; each phase runs under an arbitrary
    schedule. Loop indices are machine integers and stay below the sizes of arrays
    that fit in memory, so they are [nat]. *)

From Stdlib Require Import NArith Lia.
From stdpp Require Import base list gmap sets numbers.
From S2P Require Import Prelude Util Bucket Sketch XXHash.

(** [__ffsll]: one more than the position of the lowest set bit, 0 for 0. *)
Definition ffsll (v : N) : N := match v with N0 => 0 | Npos p => pos_ctz p + 1 end.

Definition bucket_get_index_depth (update_idx seed_and_col max_depth : N) : N :=
  let depth_hash := CUDA_XXH64 update_idx (u64 seed_and_col) in
  let depth_hash := N.lor depth_hash (u64 (N.shiftl 1 max_depth)) in
  wsub 64 (ffsll depth_hash) 1.

Definition device_concat_pairing_fn (i j : nat) : N :=
  if decide (j < i) then N.lor (u64 (N.shiftl (N.of_nat j) num_bits)) (N.of_nat i)
  else N.lor (u64 (N.shiftl (N.of_nat i) num_bits)) (N.of_nat j).

(** The iterations [i], [i + step], ... below [n] of a thread. *)
Fixpoint strided (fuel i n step : nat) : list nat :=
  match fuel with
  | O => []
  | S fuel => if decide (i < n) then i :: strided fuel (i + step) n step else []
  end.

Definition thread_ids (tid n blockDim : nat) : list nat := strided n tid n blockDim.

(** Shared memory: [bucket_a] and [bucket_c]. *)
Record Shared := mkShared { bucket_a : list N; bucket_c : list N }.

Inductive SharedAction :=
  | InitA (i : nat) | InitC (i : nat)
  | XorA (i : nat) (v : N) | XorC (i : nat) (v : N).

Definition exec_shared (sh : Shared) (act : SharedAction) : outcome Shared :=
  match act with
  | InitA i => a ← arr_set (bucket_a sh) i 0%N; Ok (mkShared a (bucket_c sh))
  | InitC i => c ← arr_set (bucket_c sh) i 0%N; Ok (mkShared (bucket_a sh) c)
  | XorA i v => x ← arr_get (bucket_a sh) i;
      Ok (mkShared (<[i := N.lxor x v]> (bucket_a sh)) (bucket_c sh))
  | XorC i v => x ← arr_get (bucket_c sh) i;
      Ok (mkShared (bucket_a sh) (<[i := N.lxor x v]> (bucket_c sh)))
  end.

(** [bucket_update]: two atomic exclusive-ors. *)
Definition bucket_update (i : nat) (update_idx update_hash : N) : list SharedAction :=
  [XorA i update_idx; XorC i update_hash].

(** The sizes of a sketch, and the seed. *)
Record SketchParams := mkParams {
  p_num_buckets : nat;
  p_num_columns : nat;
  p_bkt_per_col : nat;
  p_seed : N;
}.

(** The device arrays a launch reads. *)
Record DeviceInput := mkInput {
  update_src : list nat;
  update_sizes : list nat;
  update_start_index : list nat;
  edgeUpdates : list nat;
}.

Inductive GlobalAction :=
  | SetAlpha (i : nat) (v : N) | SetGamma (i : nat) (v : N)
  | XorAlpha (i : nat) (v : N) | XorGamma (i : nat) (v : N).

Definition exec_global (m : list Bucket) (act : GlobalAction) : outcome (list Bucket) :=
  match act with
  | SetAlpha i v => b ← arr_get m i; Ok (<[i := mkBucket v (gamma b)]> m)
  | SetGamma i v => b ← arr_get m i; Ok (<[i := mkBucket (alpha b) v]> m)
  | XorAlpha i v => b ← arr_get m i; Ok (<[i := mkBucket (N.lxor (alpha b) v) (gamma b)]> m)
  | XorGamma i v => b ← arr_get m i; Ok (<[i := mkBucket (alpha b) (N.lxor (gamma b) v)]> m)
  end.

Section kernels.
Context `{Hashing}.

(** The result is stored in a [vec_hash_t]. *)
Definition bucket_get_index_hash (update_idx sketch_seed : N) : N :=
  wrap vec_hash_bits (CUDA_XXH64 update_idx (u64 sketch_seed)).

Context (blockDim : nat) (p : SketchParams).

(** The first phase of a thread. *)
Definition init_program (tid : nat) : list SharedAction :=
  i ← thread_ids tid (p_num_buckets p) blockDim; [InitA i; InitC i].

(** One update in one column. *)
Definition update_column_actions (edge_id : N) (column_id : nat) : list SharedAction :=
  let checksum := bucket_get_index_hash edge_id (p_seed p) in
  let depth := bucket_get_index_depth edge_id (u64 (p_seed p + N.of_nat column_id * 5))
                 (N.of_nat (p_bkt_per_col p)) in
  let bucket_id := column_id * p_bkt_per_col p + N.to_nat depth in
  (if decide (column_id = 0) then bucket_update (p_num_buckets p - 1) edge_id checksum else []) ++
  (if (depth <? N.of_nat (p_bkt_per_col p))%N then bucket_update bucket_id edge_id checksum else []).

Definition update_item (inp : DeviceInput) (block id : nat) : outcome (list SharedAction) :=
  let column_id := id mod p_num_columns p in
  let update_id := id / p_num_columns p in
  src ← arr_get (update_src inp) block;
  start ← arr_get (update_start_index inp) block;
  dst ← arr_get (edgeUpdates inp) (start + update_id);
  Ok (update_column_actions (device_concat_pairing_fn src dst) column_id).

(** The second phase of a thread. *)
Definition update_program (inp : DeviceInput) (block tid : nat) : outcome (list SharedAction) :=
  size ← arr_get (update_sizes inp) block;
  l ← outcome_list (update_item inp block <$> thread_ids tid (size * p_num_columns p) blockDim);
  Ok (concat l).

(** The first two phases of a block, from whatever shared memory holds. *)
Definition block_sketch (inp : DeviceInput) (garbage : Shared) (sched1 sched2 : list nat) (block : nat)
    : outcome Shared :=
  sh ← outcome_fold exec_shared garbage (interleave sched1 (init_program <$> seq 0 blockDim)).*2;
  progs ← outcome_list (update_program inp block <$> seq 0 blockDim);
  outcome_fold exec_shared sh (interleave sched2 progs).*2.

(** The third phase of a thread, in the two kernels. *)
Definition store_item (block : nat) (sh : Shared) (i : nat) : outcome (list GlobalAction) :=
  a ← arr_get (bucket_a sh) i;
  c ← arr_get (bucket_c sh) i;
  Ok [SetAlpha (block * p_num_buckets p + i) a; SetGamma (block * p_num_buckets p + i) c].

Definition xor_item (src : nat) (sh : Shared) (i : nat) : outcome (list GlobalAction) :=
  a ← arr_get (bucket_a sh) i;
  c ← arr_get (bucket_c sh) i;
  Ok [XorAlpha (src * p_num_buckets p + i) a; XorGamma (src * p_num_buckets p + i) c].

Definition thread_items (item : nat → outcome (list GlobalAction)) (tid : nat) : outcome (list GlobalAction) :=
  l ← outcome_list (item <$> thread_ids tid (p_num_buckets p) blockDim);
  Ok (concat l).

(** The last phase of one block, for each of its threads. *)
Definition default_block (inp : DeviceInput) (garbage : Shared) (sched : nat → list nat * list nat) (block : nat)
    : outcome (list (list GlobalAction)) :=
  sh ← block_sketch inp garbage (sched block).1 (sched block).2 block;
  outcome_list (thread_items (store_item block sh) <$> seq 0 blockDim).

Definition uvm_block (inp : DeviceInput) (garbage : Shared) (sched : nat → list nat * list nat) (block : nat)
    : outcome (list (list GlobalAction)) :=
  sh ← block_sketch inp garbage (sched block).1 (sched block).2 block;
  src ← arr_get (update_src inp) block;
  outcome_list (thread_items (xor_item src sh) <$> seq 0 blockDim).

(** A launch: the threads of all blocks write to global memory in any order.
    Blocks share nothing before that. *)
Definition launch (kernel : nat → outcome (list (list GlobalAction))) (num_blocks : nat)
    (sched : list nat) (m : list Bucket) : outcome (list Bucket) :=
  progs ← outcome_list (kernel <$> seq 0 num_blocks);
  outcome_fold exec_global m (interleave sched (concat progs)).*2.

Definition sketchUpdate_default_kernel (inp : DeviceInput) (garbage : Shared)
    (scheds : nat → list nat * list nat) (sched : list nat) (num_blocks : nat) (m : list Bucket)
    : outcome (list Bucket) :=
  launch (default_block inp garbage scheds) num_blocks sched m.

Definition sketchUpdate_UVM_kernel (inp : DeviceInput) (garbage : Shared)
    (scheds : nat → list nat * list nat) (sched : list nat) (num_blocks : nat) (m : list Bucket)
    : outcome (list Bucket) :=
  launch (uvm_block inp garbage scheds) num_blocks sched m.
(** *** The kernels of a single launch for all batches *)

(** Over managed memory a block does the batch of its number. *)
Definition single_sketchUpdate_UVM_kernel (inp : DeviceInput) (garbage : Shared)
    (scheds : nat → list nat * list nat) (sched : list nat) (num_blocks : nat) (m : list Bucket)
    : outcome (list Bucket) :=
  launch (uvm_block inp garbage scheds) num_blocks sched m.

(** Otherwise it does every [num_device_blocks]th batch, one after the other, with the
    shared memory the last one left. Its threads meet at a barrier after each batch. *)
Definition single_default_batch (inp : DeviceInput) (scheds : nat → list nat * list nat) (stores : nat → list nat)
    (x : Shared * list GlobalAction) (batch_id : nat) : outcome (Shared * list GlobalAction) :=
  sh ← block_sketch inp x.1 (scheds batch_id).1 (scheds batch_id).2 batch_id;
  progs ← outcome_list (thread_items (store_item batch_id sh) <$> seq 0 blockDim);
  Ok (sh, x.2 ++ (interleave (stores batch_id) progs).*2).

Definition single_default_block (num_device_blocks num_batches : nat) (inp : DeviceInput) (garbage : Shared)
    (scheds : nat → list nat * list nat) (stores : nat → list nat) (block : nat) : outcome (list (list GlobalAction)) :=
  x ← outcome_fold (single_default_batch inp scheds stores) (garbage, []) (thread_ids block num_batches num_device_blocks);
  Ok [x.2].

Definition single_sketchUpdate_default_kernel (num_device_blocks num_batches : nat) (inp : DeviceInput) (garbage : Shared)
    (scheds : nat → list nat * list nat) (stores : nat → list nat) (sched : list nat) (m : list Bucket)
    : outcome (list Bucket) :=
  launch (single_default_block num_device_blocks num_batches inp garbage scheds stores) num_device_blocks sched m.
End kernels.
