(* ===== verification/CudaKernelSpec.v ===== *)
(** * A launch computes what the CPU would: src/src/cuda_kernel.cu

    Whatever the schedule of its threads, a block leaves in shared memory the buckets
    of a sketch that was updated with the block's batch: its actions on one bucket are
    exclusive-ors, and those of all threads together are those of [Sketch.update]. *)

From Stdlib Require Import NArith Lia.
From stdpp Require Import base list gmap sets numbers.
From S2P Require Import Prelude Float64 Util Bucket Sketch XXHash Concrete SketchSpec CudaKernel.

(** ** Loops with a stride *)

Lemma elem_of_strided fuel i n step x :
  0 < step → n ≤ i + fuel → x ∈ strided fuel i n step ↔ ∃ k, x = i + k * step ∧ x < n.
Proof.
  intros Hstep. revert i. induction fuel as [|fuel IH]; intros i Hf; cbn [strided].
  - split; [set_solver|]. intros (k & -> & Hk). lia.
  - case_decide as Hi.
    + rewrite elem_of_cons, IH by lia. split.
      * intros [->|(k & -> & Hk)]; [by exists 0; lia|]. exists (S k). lia.
      * intros ([|k] & -> & Hk); [left; lia|right]. exists k. lia.
    + split; [set_solver|]. intros (k & -> & Hk). lia.
Qed.

Lemma NoDup_strided fuel i n step : 0 < step → NoDup (strided fuel i n step).
Proof.
  intros Hstep. revert i. induction fuel as [|fuel IH]; intros i; cbn [strided]; [constructor|].
  case_decide; [|constructor]. constructor; [|apply IH].
  assert (∀ fuel i x, x ∈ strided fuel i n step → i ≤ x) as Hge.
  { clear fuel IH i H. induction fuel as [|fuel IH]; intros i x; cbn [strided]; [set_solver|].
    case_decide; [|set_solver]. rewrite elem_of_cons. intros [->|Hx]; [done|]. apply IH in Hx. lia. }
  intros Hin. apply Hge in Hin. lia.
Qed.

(** The threads of a block share the iterations among them. *)
Lemma thread_ids_perm n T : 0 < T → concat ((λ t, thread_ids t n T) <$> seq 0 T) ≡ₚ seq 0 n.
Proof.
  intros HT. assert (∀ t x, t < T → x ∈ thread_ids t n T ↔ x mod T = t ∧ x < n) as Hin.
  { intros t x Ht. unfold thread_ids. rewrite elem_of_strided by lia. split.
    - intros (k & -> & Hk). rewrite Nat.Div0.mod_add, Nat.mod_small by lia. done.
    - intros [Hm Hx]. exists (x / T). pose proof (Nat.div_mod_eq x T). lia. }
  assert (∀ k, k ≤ T → (∀ x, x ∈ concat ((λ t, thread_ids t n T) <$> seq 0 k) ↔ x mod T < k ∧ x < n) ∧
    NoDup (concat ((λ t, thread_ids t n T) <$> seq 0 k))) as Hall.
  { induction k as [|k IH]; intros Hk; [split; [set_solver by lia|constructor]|].
    destruct IH as [IHe IHn]; [lia|]. rewrite seq_S, fmap_app, concat_app. cbn [fmap list_fmap concat plus].
    rewrite app_nil_r. split.
    - intros x. rewrite elem_of_app, IHe, Hin by lia. lia.
    - apply list.NoDup_app. split; [done|]. split; [|by apply NoDup_strided].
      intros x. rewrite IHe, Hin by lia. lia. }
  destruct (Hall T) as [He Hn]; [done|]. apply list.NoDup_Permutation; [done|apply NoDup_seq|].
  intros x. rewrite He, elem_of_seq. pose proof (Nat.mod_upper_bound x T). lia.
Qed.

(** A loop over pairs, flattened into one. *)
Lemma bind_seq_mul {A} (f : nat → nat → list A) size n :
  (id ← seq 0 (size * n); f (id / n) (id mod n)) = (u ← seq 0 size; c ← seq 0 n; f u c).
Proof.
  destruct (decide (n = 0)) as [->|Hn].
  { rewrite Nat.mul_0_r. cbn. generalize 0. induction size as [|size IH]; intros k; [done|]. cbn. apply IH. }
  induction size as [|size IH]; [done|].
  rewrite Nat.mul_succ_l, seq_app, bind_app, IH, seq_S, bind_app. f_equal.
  cbn [mbind list_bind plus]. rewrite app_nil_r.
  assert (∀ k m, k + m ≤ n → (id ← seq (size * n + k) m; f (id / n) (id mod n)) = (c ← seq k m; f size c)) as Hin.
  { intros k m. revert k. induction m as [|m IHm]; intros k Hk; [done|]. cbn [seq mbind list_bind].
    rewrite <- Nat.add_succ_r. f_equal; [|by apply IHm; lia].
    f_equal; [rewrite Nat.div_add_l, Nat.div_small by lia; lia|].
    rewrite Nat.add_comm, Nat.Div0.mod_add, Nat.mod_small by lia. done. }
  specialize (Hin 0 n). rewrite Nat.add_0_r in Hin. by apply Hin.
Qed.

(** ** Sums of exclusive-ors *)

Definition xor_sum {A} (f : A → N) (l : list A) : N := foldr (λ a s, N.lxor (f a) s) 0%N l.

Lemma xor_sum_app {A} (f : A → N) l l' : xor_sum f (l ++ l') = N.lxor (xor_sum f l) (xor_sum f l').
Proof.
  induction l as [|a l IH]; [by rewrite N.lxor_0_l|]. cbn. fold (xor_sum f (l ++ l')).
  by rewrite IH, N.lxor_assoc.
Qed.

Lemma xor_sum_perm {A} (f : A → N) l l' : l ≡ₚ l' → xor_sum f l = xor_sum f l'.
Proof.
  induction 1 as [|a l l' _ IH|a b l|]; cbn; [done| | |congruence].
  - by f_equal.
  - by rewrite <- !N.lxor_assoc, (N.lxor_comm (f a)).
Qed.

Lemma xor_sum_bind {A B} (f : B → N) (g : A → list B) l :
  xor_sum f (a ← l; g a) = xor_sum (λ a, xor_sum f (g a)) l.
Proof. induction l as [|a l IH]; [done|]. cbn [mbind list_bind]. by rewrite xor_sum_app, IH. Qed.

Lemma xor_sum_fmap {A B} (f : B → N) (g : A → B) l : xor_sum f (g <$> l) = xor_sum (λ a, f (g a)) l.
Proof. induction l as [|a l IH]; [done|]. rewrite fmap_cons. cbn. fold (xor_sum f (g <$> l)). by rewrite IH. Qed.

Lemma xor_sum_ext {A} (f g : A → N) l : (∀ a, a ∈ l → f a = g a) → xor_sum f l = xor_sum g l.
Proof.
  induction l as [|a l IH]; intros He; [done|]. cbn. rewrite He by set_solver. f_equal. apply IH. set_solver.
Qed.

Lemma xor_sum_zero {A} (f : A → N) l : (∀ a, a ∈ l → f a = 0%N) → xor_sum f l = 0%N.
Proof. intros He. rewrite (xor_sum_ext _ (λ _, 0%N)) by done. clear. by induction l. Qed.

Lemma xor_sum_single (f : nat → N) i l :
  NoDup l → (∀ k, k ∈ l → k ≠ i → f k = 0%N) → xor_sum f l = if decide (i ∈ l) then f i else 0%N.
Proof.
  induction 1 as [|k l Hk Hl IH]; intros Hz; [by rewrite decide_False by set_solver|]. cbn.
  destruct (decide (k = i)) as [->|Hne].
  - fold (xor_sum f l). rewrite xor_sum_zero, N.lxor_0_r; [by rewrite decide_True by set_solver|].
    intros a Ha. apply Hz; [set_solver|]. by intros ->.
  - rewrite Hz, N.lxor_0_l by (done || set_solver). fold (xor_sum f l).
    rewrite IH by (intros; apply Hz; [set_solver|done]). apply decide_ext. set_solver.
Qed.

(** ** Shared memory *)

Definition shared_len (n : nat) (sh : Shared) : Prop := length (bucket_a sh) = n ∧ length (bucket_c sh) = n.

Definition inits (n : nat) (act : SharedAction) : Prop :=
  match act with InitA i | InitC i => i < n | _ => False end.
Definition xors (n : nat) (act : SharedAction) : Prop :=
  match act with XorA i _ | XorC i _ => i < n | _ => False end.

Lemma exec_inits n acts sh :
  shared_len n sh → Forall (inits n) acts →
  ∃ sh', outcome_fold exec_shared sh acts = Ok sh' ∧ shared_len n sh' ∧
    (∀ j, InitA j ∈ acts ∨ bucket_a sh !! j = Some 0%N → bucket_a sh' !! j = Some 0%N) ∧
    (∀ j, InitC j ∈ acts ∨ bucket_c sh !! j = Some 0%N → bucket_c sh' !! j = Some 0%N).
Proof.
  intros Hl Hacts. revert sh Hl. induction Hacts as [|act acts Hact _ IH]; intros sh [Ha Hc].
  { exists sh. split_and!; [done|done|set_solver..]. }
  cbn [outcome_fold]. destruct act as [i|i|i v|i v]; cbn in Hact; [| |done..]; cbn [exec_shared].
  - rewrite arr_set_Ok by lia. cbn [mbind outcome_bind].
    destruct (IH (mkShared (<[i:=0%N]> (bucket_a sh)) (bucket_c sh))) as (sh' & -> & Hl' & HA & HC);
      [by split; cbn; rewrite ?length_insert|].
    exists sh'. split; [done|]. split; [done|]. split; intros j Hj.
    + apply HA. cbn [bucket_a]. destruct (decide (j = i)) as [->|Hne].
      * right. apply list_lookup_insert_eq. lia.
      * rewrite list_lookup_insert_ne by done. set_solver.
    + apply HC. set_solver.
  - rewrite arr_set_Ok by lia. cbn [mbind outcome_bind].
    destruct (IH (mkShared (bucket_a sh) (<[i:=0%N]> (bucket_c sh)))) as (sh' & -> & Hl' & HA & HC);
      [by split; cbn; rewrite ?length_insert|].
    exists sh'. split; [done|]. split; [done|]. split; intros j Hj.
    + apply HA. set_solver.
    + apply HC. cbn [bucket_c]. destruct (decide (j = i)) as [->|Hne].
      * right. apply list_lookup_insert_eq. lia.
      * rewrite list_lookup_insert_ne by done. set_solver.
Qed.

(** What an action adds to entry [j] of either array. *)
Definition hit_a (j : nat) (act : SharedAction) : N :=
  match act with XorA i v => if decide (i = j) then v else 0%N | _ => 0%N end.
Definition hit_c (j : nat) (act : SharedAction) : N :=
  match act with XorC i v => if decide (i = j) then v else 0%N | _ => 0%N end.

Lemma exec_xors n acts sh :
  shared_len n sh → Forall (xors n) acts →
  ∃ sh', outcome_fold exec_shared sh acts = Ok sh' ∧ shared_len n sh' ∧
    (∀ j, bucket_a sh' !! j = (λ x, N.lxor x (xor_sum (hit_a j) acts)) <$> bucket_a sh !! j) ∧
    (∀ j, bucket_c sh' !! j = (λ x, N.lxor x (xor_sum (hit_c j) acts)) <$> bucket_c sh !! j).
Proof.
  intros Hl Hacts. revert sh Hl. induction Hacts as [|act acts Hact _ IH]; intros sh [Ha Hc].
  { exists sh. split; [done|]. split; [done|].
    split; intros j; [destruct (bucket_a sh !! j)|destruct (bucket_c sh !! j)]; cbn; by rewrite ?N.lxor_0_r. }
  cbn [outcome_fold]. destruct act as [i|i|i v|i v]; cbn in Hact; [done|done| |]; cbn [exec_shared].
  - destruct (lookup_lt_is_Some_2 (bucket_a sh) i) as [x Hx]; [lia|].
    rewrite (arr_get_Ok _ _ _ Hx). cbn [mbind outcome_bind].
    destruct (IH (mkShared (<[i:=N.lxor x v]> (bucket_a sh)) (bucket_c sh))) as (sh' & -> & Hl' & HA & HC);
      [by split; cbn; rewrite ?length_insert|].
    exists sh'. split; [done|]. split; [done|]. split; intros j.
    + rewrite HA. cbn [bucket_a xor_sum foldr hit_a]. fold (xor_sum (hit_a j) acts). case_decide as Hj.
      * subst j. rewrite list_lookup_insert_eq, Hx by lia. cbn. by rewrite N.lxor_assoc.
      * rewrite list_lookup_insert_ne by done. by rewrite N.lxor_0_l.
    + rewrite HC. cbn [bucket_c xor_sum foldr hit_c]. fold (xor_sum (hit_c j) acts). by rewrite N.lxor_0_l.
  - destruct (lookup_lt_is_Some_2 (bucket_c sh) i) as [x Hx]; [lia|].
    rewrite (arr_get_Ok _ _ _ Hx). cbn [mbind outcome_bind].
    destruct (IH (mkShared (bucket_a sh) (<[i:=N.lxor x v]> (bucket_c sh)))) as (sh' & -> & Hl' & HA & HC);
      [by split; cbn; rewrite ?length_insert|].
    exists sh'. split; [done|]. split; [done|]. split; intros j.
    + rewrite HA. cbn [bucket_a xor_sum foldr hit_a]. fold (xor_sum (hit_a j) acts). by rewrite N.lxor_0_l.
    + rewrite HC. cbn [bucket_c xor_sum foldr hit_c]. fold (xor_sum (hit_c j) acts). case_decide as Hj.
      * subst j. rewrite list_lookup_insert_eq, Hx by lia. cbn. by rewrite N.lxor_assoc.
      * rewrite list_lookup_insert_ne by done. by rewrite N.lxor_0_l.
Qed.

(** ** The device functions *)

Lemma ctzll_lt v : v ≠ 0%N → (v < 2 ^ 64)%N → (ctzll v < 64)%N.
Proof.
  intros Hv Hlt. apply N.nle_gt. intros Hle. pose proof (ctzll_bit v Hv) as Hb.
  by rewrite (testbit_lt_pow2 64) in Hb.
Qed.

Lemma ffsll_ctzll v : v ≠ 0%N → (v < 2 ^ 64)%N → wsub 64 (ffsll v) 1 = ctzll v.
Proof.
  intros Hv Hlt. pose proof (ctzll_lt v Hv Hlt). destruct v as [|p]; [done|]. cbn [ffsll ctzll] in *.
  rewrite wsub_small by lia. lia.
Qed.

Lemma device_concat_pairing_fn_eq i j : device_concat_pairing_fn i j = concat_pairing_fn i j.
Proof. unfold device_concat_pairing_fn, concat_pairing_fn. by case_decide. Qed.

Section device.
Context `{Hashing}.

(** The host's hash is the library's XXH3, the device's its copy in this
    repository: on the keys in use they are the same function. *)
Definition device_hash_agrees : Prop :=
  ∀ key seed, (key < 2 ^ 64)%N → (seed < 2 ^ 64)%N → xxh3 key seed = CUDA_XXH64 key seed.

Context (Hagree : device_hash_agrees).

Lemma device_index_hash x s :
  (x < 2 ^ 64)%N → bucket_get_index_hash x s = Bucket_Boruvka.get_index_hash x s.
Proof.
  intros Hx. unfold bucket_get_index_hash, Bucket_Boruvka.get_index_hash. f_equal. symmetry.
  apply Hagree; [done|apply wrap_lt].
Qed.

Lemma device_index_depth x s m :
  (x < 2 ^ 64)%N → (m < 64)%N → bucket_get_index_depth x s m = Bucket_Boruvka.get_index_depth x s m.
Proof.
  intros Hx Hm. unfold bucket_get_index_depth, Bucket_Boruvka.get_index_depth.
  rewrite Hagree by (done || apply wrap_lt). apply ffsll_ctzll.
  - intros Hz. apply N.lor_eq_0_iff in Hz as [_ Hz]. rewrite N.shiftl_1_l in Hz.
    rewrite wrap_small in Hz by (apply N.pow_lt_mono_r; lia). by apply N.pow_nonzero in Hz.
  - apply lor_lt; [apply CUDA_XXH64_lt|apply wrap_lt].
Qed.
End device.

Lemma bind_concat {A B C} (g : A → list B) (f : B → list C) l :
  concat ((λ t, b ← g t; f b) <$> l) = (b ← concat (g <$> l); f b).
Proof. induction l as [|a l IH]; [done|]. rewrite !fmap_cons. cbn [concat]. by rewrite bind_app, IH. Qed.

Lemma concat_fmap_bind {A B} (f : A → list B) l : concat (f <$> l) = (a ← l; f a).
Proof. induction l as [|a l IH]; [done|]. rewrite fmap_cons. cbn [concat mbind list_bind]. by rewrite IH. Qed.

Lemma bind_lookup_total {A B} `{!Inhabited B} (f : B → list A) (l : list B) :
  (u ← seq 0 (length l); f (l !!! u)) = (d ← l; f d).
Proof.
  induction l as [|d l IH]; [done|]. cbn [length seq mbind list_bind]. f_equal.
  rewrite <- IH, <- fmap_S_seq. by rewrite list_fmap_bind.
Qed.

Lemma Forall_bind_intro {A B} (P : B → Prop) (f : A → list B) l :
  (∀ a, a ∈ l → Forall P (f a)) → Forall P (a ← l; f a).
Proof.
  intros Hf. apply list.Forall_forall. intros b Hb. apply list_elem_of_bind in Hb as (a & Hb & Ha).
  specialize (Hf a Ha). rewrite list.Forall_forall in Hf. by apply Hf.
Qed.

(** ** One block *)

(** The sizes the host passes are those of its sketches. *)
Definition sketch_params (s : Sketch) : SketchParams :=
  mkParams (num_buckets s) (num_columns s) (bkt_per_col s) (seed s).

(** The batch of a block in the device arrays. *)
Record batch_at (inp : DeviceInput) (block src : nat) (dsts : list nat) : Prop := {
  ba_src : update_src inp !! block = Some src;
  ba_size : update_sizes inp !! block = Some (length dsts);
  ba_edges : ∃ start, update_start_index inp !! block = Some start ∧
    ∀ k d, dsts !! k = Some d → edgeUpdates inp !! (start + k) = Some d;
}.

Section block.
Context `{BuildConfig, Hashing}.
Context (Hcameo : L0_SAMPLING = false) (Hagree : device_hash_agrees).
Context (s : Sketch) (Hwf : sketch_wf s) (Hcols : 0 < num_columns s).
Context (T : nat) (HT : 0 < T).
Abbreviation p := (sketch_params s).
Abbreviation nb := (num_buckets s).

Lemma update_column_in_range x c :
  c < num_columns s → Forall (xors nb) (update_column_actions p x c).
Proof.
  intros Hc. pose proof (wf_buckets _ Hwf). pose proof (wf_bpc_pos _ Hwf).
  unfold update_column_actions. apply Forall_app. split.
  - case_decide; [|constructor]. repeat constructor; cbn; lia.
  - destruct (N.ltb_spec (bucket_get_index_depth x (u64 (p_seed p + N.of_nat c * 5)) (N.of_nat (p_bkt_per_col p)))
      (N.of_nat (p_bkt_per_col p))) as [Hd|]; [|constructor].
    cbn [p_bkt_per_col p_seed sketch_params] in Hd |- *. repeat constructor; cbn; nia.
Qed.

(** The columns of one update, on entry [j] of an array. *)
Lemma columns_sum (hit : nat → SharedAction → N) (val x : N) j :
  (∀ i, xor_sum (hit j) (bucket_update i x (bucket_get_index_hash x (seed s))) = if decide (i = j) then val else 0%N) →
  (x < 2 ^ 64)%N → j < nb →
  xor_sum (hit j) (c ← seq 0 (num_columns s); update_column_actions p x c) =
    if touches s j x then val else 0%N.
Proof.
  intros Hhit Hx Hj. pose proof (wf_buckets _ Hwf) as Hnb. pose proof (wf_bpc_pos _ Hwf) as Hpos.
  pose proof (wf_bpc_lt _ Hwf) as Hlt. rewrite xor_sum_bind.
  assert (∀ c, xor_sum (hit j) (update_column_actions p x c) =
    N.lxor (if decide (c = 0 ∧ j = nb - 1) then val else 0%N)
           (if decide ((depth_of s c x < N.of_nat (bkt_per_col s))%N ∧ c * bkt_per_col s + N.to_nat (depth_of s c x) = j)
            then val else 0%N)) as Hc.
  { intros c. unfold update_column_actions. cbn [p_num_buckets p_num_columns p_bkt_per_col p_seed sketch_params].
    rewrite device_index_depth by (done || lia). change (u64 (seed s + N.of_nat c * 5)) with (column_seed s c).
    fold (depth_of s c x). rewrite xor_sum_app. f_equal.
    - destruct (decide (c = 0)) as [->|Hne]; [|by rewrite decide_False by naive_solver].
      rewrite Hhit. apply decide_ext. lia.
    - destruct (N.ltb_spec (depth_of s c x) (N.of_nat (bkt_per_col s))).
      + rewrite Hhit. apply decide_ext. naive_solver.
      + by rewrite decide_False by lia. }
  rewrite (xor_sum_ext _ _ _ (λ c _, Hc c)). unfold touches. destruct (decide (j = nb - 1)) as [Hlast|Hlast].
  - rewrite bool_decide_true by done. cbn [orb].
    rewrite (xor_sum_single _ 0) by (apply NoDup_seq || (intros k Hk Hne;
      rewrite elem_of_seq in Hk; rewrite !decide_False by nia; done)).
    rewrite decide_True by (apply elem_of_seq; lia). rewrite decide_True by done.
    rewrite decide_False by nia. apply N.lxor_0_r.
  - rewrite bool_decide_false by done. cbn [orb]. unfold row_touched. rewrite Hcameo.
    pose proof (Nat.div_mod_eq j (bkt_per_col s)) as Hdiv.
    pose proof (Nat.mod_upper_bound j (bkt_per_col s)) as Hmod.
    rewrite (xor_sum_single _ (j / bkt_per_col s)); [|apply NoDup_seq|].
    + rewrite decide_True by (apply elem_of_seq; split; [lia|]; apply Nat.Div0.div_lt_upper_bound; lia).
      rewrite decide_False, N.lxor_0_l by naive_solver. set (c := j / bkt_per_col s) in *.
      destruct (N.ltb_spec (depth_of s c x) (N.of_nat (bkt_per_col s))),
        (N.eqb_spec (N.of_nat (j mod bkt_per_col s)) (depth_of s c x)); cbn [andb].
      * by rewrite decide_True by nia.
      * rewrite decide_False; [done|]. intros [_ He]. nia.
      * rewrite decide_False by lia. done.
      * by rewrite decide_False by lia.
    + intros k Hk Hne. rewrite !decide_False; [done| |naive_solver]. intros [Hd He].
      apply Hne. rewrite <- He, Nat.div_add_l, Nat.div_small by lia. lia.
Qed.

Lemma columns_sum_a x j :
  (x < 2 ^ 64)%N → j < nb →
  xor_sum (hit_a j) (c ← seq 0 (num_columns s); update_column_actions p x c) = if touches s j x then x else 0%N.
Proof.
  apply columns_sum. intros i. cbn. rewrite N.lxor_0_r. case_decide; by rewrite ?N.lxor_0_r.
Qed.

Lemma columns_sum_c x j :
  (x < 2 ^ 64)%N → j < nb →
  xor_sum (hit_c j) (c ← seq 0 (num_columns s); update_column_actions p x c) = if touches s j x then checksum s x else 0%N.
Proof.
  intros Hx. apply columns_sum; [|done]. intros i. cbn. rewrite device_index_hash by done. rewrite N.lxor_0_l, N.lxor_0_r.
  done.
Qed.

Lemma sums_content xs j :
  mkBucket (xor_sum (λ x, if touches s j x then x else 0%N) xs)
           (xor_sum (λ x, if touches s j x then checksum s x else 0%N) xs) = content s j (toggle_all xs ∅).
Proof.
  induction xs as [|x xs IH] using rev_ind; [by rewrite content_empty|].
  rewrite toggle_all_app. cbn [toggle_all foldl]. fold (toggle_all xs ∅). rewrite content_toggle, <- IH, !xor_sum_app.
  unfold Bucket_Boruvka.update. cbn [xor_sum foldr alpha gamma]. destruct (touches s j x); by rewrite ?N.lxor_0_r.
Qed.

(** The programs of the second phase together are the updates of all columns. *)
Lemma update_programs_ok inp block src dsts :
  batch_at inp block src dsts → node_ok src → Forall node_ok dsts →
  ∃ progs, outcome_list (update_program T p inp block <$> seq 0 T) = Ok progs ∧
    concat progs ≡ₚ (d ← dsts; c ← seq 0 (num_columns s); update_column_actions p (concat_pairing_fn src d) c).
Proof.
  intros [Hsrc Hsize (start & Hstart & Hedges)] Hs Hd.
  set (f := λ u c, update_column_actions p (concat_pairing_fn src (dsts !!! u)) c).
  set (item := λ id, f (id / num_columns s) (id mod num_columns s)).
  set (total := length dsts * num_columns s).
  assert (∀ id, id < total → update_item p inp block id = Ok (item id)) as Hitem.
  { intros id Hid. unfold update_item. cbn [p_num_columns sketch_params].
    assert (id / num_columns s < length dsts) as Hu by (apply Nat.Div0.div_lt_upper_bound; unfold total in Hid; lia).
    destruct (lookup_lt_is_Some_2 dsts _ Hu) as [d Hdu].
    rewrite (arr_get_Ok _ _ _ Hsrc). cbn [mbind outcome_bind].
    rewrite (arr_get_Ok _ _ _ Hstart). cbn [mbind outcome_bind].
    rewrite (arr_get_Ok _ _ _ (Hedges _ _ Hdu)). cbn [mbind outcome_bind]. unfold item, f. rewrite (list_lookup_total_correct _ _ _ Hdu).
    by rewrite device_concat_pairing_fn_eq. }
  exists ((λ t, id ← thread_ids t total T; item id) <$> seq 0 T). split.
  - apply outcome_list_fmap. intros t Ht. unfold update_program. rewrite (arr_get_Ok _ _ _ Hsize).
    cbn [mbind outcome_bind p_num_columns sketch_params]. fold total.
    rewrite (outcome_list_fmap _ item).
    + cbn [mbind outcome_bind]. by rewrite concat_fmap_bind.
    + intros id Hid. apply Hitem. apply elem_of_seq in Ht.
      pose proof (thread_ids_perm total T HT) as Hperm.
      assert (id ∈ seq 0 total) as Hin; [|apply elem_of_seq in Hin; lia].
      rewrite <- Hperm, concat_fmap_bind. apply list_elem_of_bind. exists t. split; [done|].
      apply elem_of_seq. lia.
  - rewrite bind_concat, (thread_ids_perm total T HT). unfold item, total. rewrite bind_seq_mul.
    unfold f. by rewrite (bind_lookup_total
      (λ d, c ← seq 0 (num_columns s); update_column_actions p (concat_pairing_fn src d) c)).
Qed.

Lemma init_programs_perm :
  concat (init_program T p <$> seq 0 T) ≡ₚ (i ← seq 0 nb; [InitA i; InitC i]).
Proof.
  unfold init_program. cbn [p_num_buckets sketch_params].
  by rewrite (bind_concat (λ t, thread_ids t nb T)), (thread_ids_perm nb T HT).
Qed.

(** The edges of a batch. *)
Definition batch_set (src : nat) (dsts : list nat) : gset N :=
  toggle_all (concat_pairing_fn src <$> dsts) ∅.

Lemma block_sketch_ok inp garbage sched1 sched2 block src dsts :
  batch_at inp block src dsts → node_ok src → Forall node_ok dsts → shared_len nb garbage →
  ∃ sh, block_sketch T p inp garbage sched1 sched2 block = Ok sh ∧ shared_len nb sh ∧
    ∀ j, j < nb → bucket_a sh !! j = Some (alpha (content s j (batch_set src dsts))) ∧
                  bucket_c sh !! j = Some (gamma (content s j (batch_set src dsts))).
Proof.
  intros Hb Hsrc Hdsts Hg. unfold block_sketch.
  pose proof (interleave_perm sched1 (init_program T p <$> seq 0 T)) as Hp1.
  rewrite init_programs_perm in Hp1.
  destruct (exec_inits nb (interleave sched1 (init_program T p <$> seq 0 T)).*2 garbage Hg)
    as (sh0 & -> & Hl0 & HA & HC).
  { rewrite Hp1. apply Forall_bind_intro. intros i Hi. apply elem_of_seq in Hi. repeat constructor; cbn; lia. }
  cbn [mbind outcome_bind].
  destruct (update_programs_ok inp block src dsts Hb Hsrc Hdsts) as (progs & -> & Hprogs).
  cbn [mbind outcome_bind]. pose proof (interleave_perm sched2 progs) as Hp2. rewrite Hprogs in Hp2.
  destruct (exec_xors nb (interleave sched2 progs).*2 sh0 Hl0) as (sh & -> & Hl & Ha & Hc).
  { rewrite Hp2. apply Forall_bind_intro. intros d _. apply Forall_bind_intro. intros c Hc.
    apply update_column_in_range. apply elem_of_seq in Hc. lia. }
  exists sh. split; [done|]. split; [done|]. intros j Hj.
  assert (bucket_a sh0 !! j = Some 0%N) as Ha0.
  { apply HA. left. rewrite Hp1. apply list_elem_of_bind. exists j. split; [set_solver|apply elem_of_seq; lia]. }
  assert (bucket_c sh0 !! j = Some 0%N) as Hc0.
  { apply HC. left. rewrite Hp1. apply list_elem_of_bind. exists j. split; [set_solver|apply elem_of_seq; lia]. }
  assert (∀ d, d ∈ dsts → (concat_pairing_fn src d < 2 ^ 64)%N) as Hlt.
  { intros d Hd. apply concat_pairing_fn_lt; [done|]. rewrite list.Forall_forall in Hdsts. by apply Hdsts. }
  rewrite Ha, Hc, Ha0, Hc0. cbn [fmap option_fmap option_map]. rewrite !N.lxor_0_l.
  rewrite !(xor_sum_perm _ _ _ Hp2), !xor_sum_bind.
  rewrite (xor_sum_ext _ _ _ (λ d Hd, columns_sum_a _ j (Hlt d Hd) Hj)).
  rewrite (xor_sum_ext _ _ _ (λ d Hd, columns_sum_c _ j (Hlt d Hd) Hj)).
  unfold batch_set. rewrite <- sums_content. cbn [alpha gamma].
  by rewrite !xor_sum_fmap.
Qed.

(** ** Global memory *)

Definition stores (n : nat) (f : nat → Bucket) (act : GlobalAction) : Prop :=
  match act with
  | SetAlpha i v => i < n ∧ v = alpha (f i)
  | SetGamma i v => i < n ∧ v = gamma (f i)
  | _ => False
  end.

Lemma exec_stores n f acts m :
  length m = n → Forall (stores n f) acts →
  ∃ m', outcome_fold exec_global m acts = Ok m' ∧ length m' = n ∧
    ∀ j b, m !! j = Some b → ∃ b', m' !! j = Some b' ∧
      (SetAlpha j (alpha (f j)) ∈ acts ∨ alpha b = alpha (f j) → alpha b' = alpha (f j)) ∧
      (SetGamma j (gamma (f j)) ∈ acts ∨ gamma b = gamma (f j) → gamma b' = gamma (f j)) ∧
      ((∀ v, SetAlpha j v ∉ acts) → (∀ v, SetGamma j v ∉ acts) → b' = b).
Proof.
  intros Hl Hacts. revert m Hl. induction Hacts as [|act acts Hact _ IH]; intros m Hl.
  { exists m. split; [done|]. split; [done|]. intros j b Hb. exists b. split_and!; [done|set_solver..]. }
  cbn [outcome_fold].
  assert (∃ i v b0 g, m !! i = Some b0 ∧ exec_global m act = Ok (<[i := g]> m) ∧ i < n ∧
    ((act = SetAlpha i v ∧ v = alpha (f i) ∧ g = mkBucket v (gamma b0)) ∨
     (act = SetGamma i v ∧ v = gamma (f i) ∧ g = mkBucket (alpha b0) v))) as (i & v & b0 & g & Hi & -> & Hin & Hcase).
  { destruct act as [i v|i v|i v|i v]; cbn in Hact; [| |done..]; destruct Hact as [Hin ->];
      (destruct (lookup_lt_is_Some_2 m i) as [b0 Hb0]; [lia|]); cbn [exec_global];
      rewrite (arr_get_Ok _ _ _ Hb0); cbn [mbind outcome_bind]; do 4 eexists; split_and!; try done; eauto. }
  cbn [mbind outcome_bind]. destruct (IH (<[i := g]> m)) as (m' & -> & Hl' & Hm'); [by rewrite length_insert|].
  exists m'. split; [done|]. split; [done|]. intros j b Hb.
  destruct (decide (j = i)) as [->|Hne].
  - rewrite Hi in Hb. injection Hb as <-.
    destruct (Hm' i g) as (b' & Hb' & HA & HG & Hsame); [by apply list_lookup_insert_eq; rewrite Hl|].
    exists b'. split; [done|]. destruct Hcase as [(-> & -> & ->)|(-> & -> & ->)]; cbn in *.
    + split_and!; [naive_solver|intros [Hx|Hx]; apply HG; set_solver|]. intros Hn _. exfalso. eapply Hn. left.
    + split_and!; [intros [Hx|Hx]; apply HA; set_solver|naive_solver|]. intros _ Hn. exfalso. eapply Hn. left.
  - destruct (Hm' j b) as (b' & Hb' & HA & HG & Hsame); [by rewrite list_lookup_insert_ne|].
    exists b'. split; [done|].
    split_and!; [intros [Hx|Hx]; apply HA; destruct Hcase as [(-> & _)|(-> & _)]; set_solver
      |intros [Hx|Hx]; apply HG; destruct Hcase as [(-> & _)|(-> & _)]; set_solver|].
    intros HnA HnG. apply Hsame; intros w Hw; [apply (HnA w)|apply (HnG w)]; by right.
Qed.

Lemma thread_items_ok (item : nat → outcome (list GlobalAction)) (g : nat → list GlobalAction) :
  (∀ i, i < nb → item i = Ok (g i)) →
  ∃ progs, outcome_list (thread_items T p item <$> seq 0 T) = Ok progs ∧
    concat progs ≡ₚ (i ← seq 0 nb; g i).
Proof.
  intros Hitem. exists ((λ t, i ← thread_ids t nb T; g i) <$> seq 0 T). split.
  - apply outcome_list_fmap. intros t Ht. unfold thread_items. cbn [p_num_buckets sketch_params].
    rewrite (outcome_list_fmap _ g); [cbn [mbind outcome_bind]; by rewrite concat_fmap_bind|].
    intros i Hi. apply Hitem. apply elem_of_seq in Ht.
    assert (i ∈ seq 0 nb) as Hin; [|apply elem_of_seq in Hin; lia].
    rewrite <- (thread_ids_perm nb T HT), concat_fmap_bind. apply list_elem_of_bind. exists t.
    split; [done|apply elem_of_seq; lia].
  - by rewrite (bind_concat (λ t, thread_ids t nb T)), (thread_ids_perm nb T HT).
Qed.

Lemma outcome_list_exists {A B} (P : A → B → Prop) (f : A → outcome B) l :
  (∀ x, x ∈ l → ∃ y, f x = Ok y ∧ P x y) → ∃ ys, outcome_list (f <$> l) = Ok ys ∧ Forall2 P l ys.
Proof.
  induction l as [|x l IH]; intros Hf; [by exists []|].
  destruct (Hf x) as (y & Hy & HP); [set_solver|]. destruct IH as (ys & Hys & HPs); [set_solver|].
  exists (y :: ys). rewrite fmap_cons. cbn [outcome_list]. rewrite Hy, Hys. by split; [|constructor].
Qed.

Lemma concat_Forall2_perm {A} (g : nat → list A) (l : list nat) (ys : list (list (list A))) :
  Forall2 (λ b progs, concat progs ≡ₚ g b) l ys → concat (concat ys) ≡ₚ (b ← l; g b).
Proof.
  induction 1 as [|b progs l ys Hb _ IH]; [done|]. cbn [concat mbind list_bind].
  by rewrite concat_app, Hb, IH.
Qed.

(** A launch in terms of the batches it is for. *)
Definition input_for (inp : DeviceInput) (batches : list (nat * list nat)) : Prop :=
  ∀ b src dsts, batches !! b = Some (src, dsts) →
    batch_at inp b src dsts ∧ node_ok src ∧ Forall node_ok dsts.

(** What the last phase stores for batch [b]. *)
Definition batch_value (batches : list (nat * list nat)) (b : nat) : gset N :=
  match batches !! b with Some (src, dsts) => batch_set src dsts | None => ∅ end.

Definition batch_stores (batches : list (nat * list nat)) (b : nat) : list GlobalAction :=
  i ← seq 0 nb; [SetAlpha (b * nb + i) (alpha (content s i (batch_value batches b)));
                 SetGamma (b * nb + i) (gamma (content s i (batch_value batches b)))].

Lemma batch_stores_ok inp garbage sched1 sched2 batches b :
  input_for inp batches → shared_len nb garbage → b < length batches →
  ∃ sh progs, block_sketch T p inp garbage sched1 sched2 b = Ok sh ∧ shared_len nb sh ∧
    outcome_list (thread_items T p (store_item p b sh) <$> seq 0 T) = Ok progs ∧ concat progs ≡ₚ batch_stores batches b.
Proof.
  intros Hinp Hg Hb. destruct (lookup_lt_is_Some_2 batches b Hb) as [[src dsts] Hsd].
  destruct (Hinp b src dsts Hsd) as (Hat & Hs & Hd).
  destruct (block_sketch_ok inp garbage sched1 sched2 b src dsts Hat Hs Hd Hg) as (sh & Hrun & Hsh & Hval).
  destruct (thread_items_ok (store_item p b sh) (λ i, [SetAlpha (b * nb + i) (alpha (content s i (batch_value batches b)));
    SetGamma (b * nb + i) (gamma (content s i (batch_value batches b)))])) as (progs & Hprogs & Hperm).
  { intros i Hi. destruct (Hval i Hi) as [Ha Hc]. unfold store_item, batch_value. rewrite (arr_get_Ok _ _ _ Ha), (arr_get_Ok _ _ _ Hc), Hsd.
    done. }
  by exists sh, progs.
Qed.

(** The stores of all batches, in any order. *)
Lemma exec_batch_stores batches acts m :
  acts ≡ₚ (b ← seq 0 (length batches); batch_stores batches b) → length batches * nb ≤ length m →
  ∃ m', outcome_fold exec_global m acts = Ok m' ∧ length m' = length m ∧
    (∀ b src dsts i, batches !! b = Some (src, dsts) → i < nb →
       m' !! (b * nb + i) = Some (content s i (batch_set src dsts))) ∧
    ∀ k, length batches * nb ≤ k → m' !! k = m !! k.
Proof.
  intros Hp Hm. pose proof (wf_buckets _ Hwf) as Hnb. set (N := length batches) in *.
  set (f := λ k, content s (k mod nb) (batch_value batches (k / nb))).
  assert (∀ b i, i < nb → f (b * nb + i) = content s i (batch_value batches b)) as Hf.
  { intros b i Hi. unfold f. rewrite Nat.div_add_l, Nat.div_small, Nat.add_0_r by lia.
    by rewrite Nat.add_comm, Nat.Div0.mod_add, Nat.mod_small. }
  destruct (exec_stores (length m) f acts m eq_refl) as (m' & -> & Hl & Hm').
  { rewrite Hp. apply Forall_bind_intro. intros b Hb. apply elem_of_seq in Hb. apply Forall_bind_intro.
    intros i Hi. apply elem_of_seq in Hi. assert (b * nb + i < length m) by nia. rewrite <- Hf by lia. repeat constructor; done. }
  assert (∀ k act, act ∈ acts → (∃ v, act = SetAlpha k v) ∨ (∃ v, act = SetGamma k v) → k < N * nb) as Hbelow.
  { intros k act Hact Hk. rewrite Hp in Hact. apply list_elem_of_bind in Hact as (b & Hact & Hb).
    apply list_elem_of_bind in Hact as (i & Hact & Hi). apply elem_of_seq in Hb, Hi.
    assert (k = b * nb + i) by (destruct Hk as [[v ->]|[v ->]]; set_solver). nia. }
  exists m'. split; [done|]. split; [done|]. split.
  - intros b src dsts i Hb Hi. pose proof (lookup_lt_Some _ _ _ Hb) as HbN. fold N in HbN.
    destruct (lookup_lt_is_Some_2 m (b * nb + i)) as [b0 Hb0]; [nia|].
    destruct (Hm' _ _ Hb0) as (b' & -> & HA & HG & _). f_equal.
    assert (content s i (batch_set src dsts) = f (b * nb + i)) as ->.
    { rewrite Hf by done. unfold batch_value. by rewrite Hb. }
    assert (∀ act, act ∈ [SetAlpha (b * nb + i) (alpha (f (b * nb + i))); SetGamma (b * nb + i) (gamma (f (b * nb + i)))]
      → act ∈ acts) as Hin.
    { intros act Hact. rewrite Hf in Hact by done. rewrite Hp. apply list_elem_of_bind. exists b. split; [|apply elem_of_seq; lia].
      apply list_elem_of_bind. exists i. split; [done|apply elem_of_seq; lia]. }
    assert (alpha b' = alpha (f (b * nb + i))) as HA' by (apply HA; left; apply Hin; left).
    assert (gamma b' = gamma (f (b * nb + i))) as HG' by (apply HG; left; apply Hin; right; left).
    destruct b' as [a' g'], (f (b * nb + i)). cbn in HA', HG'. by subst.
  - intros k Hk. destruct (m !! k) as [b0|] eqn:Hb0.
    + destruct (Hm' _ _ Hb0) as (b' & -> & _ & _ & Hsame). f_equal. apply Hsame.
      * intros v Hv. specialize (Hbelow k _ Hv (or_introl (ex_intro _ v eq_refl))). lia.
      * intros v Hv. specialize (Hbelow k _ Hv (or_intror (ex_intro _ v eq_refl))). lia.
    + apply lookup_ge_None_2. apply lookup_ge_None_1 in Hb0. lia.
Qed.

Lemma default_kernel_ok inp garbage scheds sched batches m :
  input_for inp batches → shared_len nb garbage → length batches * nb ≤ length m →
  ∃ m', sketchUpdate_default_kernel T p inp garbage scheds sched (length batches) m = Ok m' ∧
    length m' = length m ∧
    (∀ b src dsts i, batches !! b = Some (src, dsts) → i < nb →
       m' !! (b * nb + i) = Some (content s i (batch_set src dsts))) ∧
    ∀ k, length batches * nb ≤ k → m' !! k = m !! k.
Proof.
  intros Hinp Hg Hm. unfold sketchUpdate_default_kernel, launch.
  destruct (outcome_list_exists (λ b progs, concat progs ≡ₚ batch_stores batches b) (default_block T p inp garbage scheds)
    (seq 0 (length batches))) as (ys & -> & Hys).
  { intros b Hb. apply elem_of_seq in Hb. unfold default_block.
    destruct (batch_stores_ok inp garbage (scheds b).1 (scheds b).2 batches b) as (sh & progs & -> & _ & Hrun & Hperm);
      [done|done|lia|]. cbn [mbind outcome_bind]. by exists progs. }
  cbn [mbind outcome_bind]. apply exec_batch_stores; [|done].
  rewrite interleave_perm. by apply (concat_Forall2_perm (batch_stores batches)).
Qed.

(** One block per several batches. *)
Lemma single_default_batches inp scheds stores batches ids sh acts :
  input_for inp batches → shared_len nb sh → Forall (λ b, b < length batches) ids →
  ∃ sh' acts', outcome_fold (single_default_batch T p inp scheds stores) (sh, acts) ids = Ok (sh', acts') ∧
    acts' ≡ₚ acts ++ (b ← ids; batch_stores batches b).
Proof.
  intros Hinp Hg Hids. revert sh acts Hg. induction Hids as [|b ids Hb _ IH]; intros sh acts Hg.
  { exists sh, acts. by rewrite app_nil_r. }
  destruct (batch_stores_ok inp sh (scheds b).1 (scheds b).2 batches b) as (sh1 & progs & Hsh & Hlen & Hrun & Hperm); [done..|].
  cbn [outcome_fold]. unfold single_default_batch at 2. cbn [fst snd]. rewrite Hsh. cbn [mbind outcome_bind]. rewrite Hrun.
  cbn [mbind outcome_bind]. destruct (IH sh1 (acts ++ (interleave (stores b) progs).*2) Hlen) as (sh' & acts' & -> & Hacts).
  exists sh', acts'. split; [done|]. rewrite Hacts, interleave_perm, Hperm, <- app_assoc. done.
Qed.

Lemma single_default_kernel_ok blocks inp garbage scheds stores sched batches m :
  0 < blocks → input_for inp batches → shared_len nb garbage → length batches * nb ≤ length m →
  ∃ m', single_sketchUpdate_default_kernel T p blocks (length batches) inp garbage scheds stores sched m = Ok m' ∧
    length m' = length m ∧
    (∀ b src dsts i, batches !! b = Some (src, dsts) → i < nb →
       m' !! (b * nb + i) = Some (content s i (batch_set src dsts))) ∧
    ∀ k, length batches * nb ≤ k → m' !! k = m !! k.
Proof.
  intros Hblocks Hinp Hg Hm. unfold single_sketchUpdate_default_kernel, launch.
  destruct (outcome_list_exists (λ blk progs, concat progs ≡ₚ (b ← thread_ids blk (length batches) blocks; batch_stores batches b))
    (single_default_block T p blocks (length batches) inp garbage scheds stores) (seq 0 blocks)) as (ys & -> & Hys).
  { intros blk Hblk. apply elem_of_seq in Hblk. unfold single_default_block.
    destruct (single_default_batches inp scheds stores batches (thread_ids blk (length batches) blocks) garbage []) as (sh & acts & -> & Hacts);
      [done|done| |].
    - apply list.Forall_forall. intros b Hb. unfold thread_ids in Hb. apply elem_of_strided in Hb as (k & -> & Hk); lia.
    - cbn [mbind outcome_bind]. eexists. split; [done|]. cbn. by rewrite app_nil_r. }
  cbn [mbind outcome_bind]. apply exec_batch_stores; [|done].
  rewrite interleave_perm, (concat_Forall2_perm _ _ _ Hys), <- (thread_ids_perm (length batches) blocks Hblocks).
  by rewrite <- bind_concat, concat_fmap_bind.
Qed.

(** *** The kernel for sketches in managed memory *)

Definition gxors (n : nat) (act : GlobalAction) : Prop :=
  match act with XorAlpha i _ | XorGamma i _ => i < n | _ => False end.

Definition hit_alpha (j : nat) (act : GlobalAction) : N :=
  match act with XorAlpha i v => if decide (i = j) then v else 0%N | _ => 0%N end.
Definition hit_gamma (j : nat) (act : GlobalAction) : N :=
  match act with XorGamma i v => if decide (i = j) then v else 0%N | _ => 0%N end.

Lemma exec_gxors n acts m :
  length m = n → Forall (gxors n) acts →
  ∃ m', outcome_fold exec_global m acts = Ok m' ∧ length m' = n ∧
    ∀ j, m' !! j = bxor (mkBucket (xor_sum (hit_alpha j) acts) (xor_sum (hit_gamma j) acts)) <$> m !! j.
Proof.
  intros Hl Hacts. revert m Hl. induction Hacts as [|act acts Hact _ IH]; intros m Hl.
  { exists m. split; [done|]. split; [done|]. intros j. destruct (m !! j) as [[a g]|]; [|done].
    cbn. unfold bxor. cbn. by rewrite !N.lxor_0_l. }
  cbn [outcome_fold].
  assert (∃ i va vg b0, m !! i = Some b0 ∧ exec_global m act = Ok (<[i := bxor (mkBucket va vg) b0]> m) ∧
    i < n ∧ ∀ j, hit_alpha j act = (if decide (i = j) then va else 0%N) ∧
                 hit_gamma j act = (if decide (i = j) then vg else 0%N)) as (i & va & vg & b0 & Hi & -> & Hin & Hhit).
  { destruct act as [i v|i v|i v|i v]; cbn in Hact; [done|done| |];
      (destruct (lookup_lt_is_Some_2 m i) as [b0 Hb0]; [lia|]); cbn [exec_global];
      rewrite (arr_get_Ok _ _ _ Hb0); cbn [mbind outcome_bind].
    - exists i, v, 0%N, b0. split; [done|]. split; [unfold bxor; cbn; by rewrite N.lxor_0_l, N.lxor_comm|].
      split; [done|]. intros j. cbn. by case_decide.
    - exists i, 0%N, v, b0. split; [done|]. split; [unfold bxor; cbn; by rewrite N.lxor_0_l, N.lxor_comm|].
      split; [done|]. intros j. cbn. by case_decide. }
  cbn [mbind outcome_bind]. destruct (IH (<[i := bxor (mkBucket va vg) b0]> m)) as (m' & -> & Hl' & Hm');
    [by rewrite length_insert|].
  exists m'. split; [done|]. split; [done|]. intros j. rewrite Hm'. cbn [xor_sum foldr].
  fold (xor_sum (hit_alpha j) acts) (xor_sum (hit_gamma j) acts). destruct (Hhit j) as [-> ->].
  destruct (decide (i = j)) as [->|Hne].
  - rewrite list_lookup_insert_eq, Hi by lia. cbn. unfold bxor. cbn. f_equal. f_equal;
      rewrite <- N.lxor_assoc; f_equal; apply N.lxor_comm.
  - rewrite list_lookup_insert_ne by done. by rewrite !N.lxor_0_l.
Qed.

(** The edges of the batches of one vertex. *)
Definition vertex_edges (batches : list (nat * list nat)) (v : nat) : list N :=
  p ← batches; if decide (p.1 = v) then concat_pairing_fn p.1 <$> p.2 else [].

Lemma content_vertex_edges (batches : list (nat * list nat)) v j :
  mkBucket (xor_sum (λ b, if decide (b.1 = v) then alpha (content s j (batch_set b.1 b.2)) else 0%N) batches)
           (xor_sum (λ b, if decide (b.1 = v) then gamma (content s j (batch_set b.1 b.2)) else 0%N) batches) =
  content s j (toggle_all (vertex_edges batches v) ∅).
Proof.
  induction batches as [|b batches IH]; [by rewrite content_empty|].
  unfold vertex_edges. cbn [mbind list_bind]. fold (vertex_edges batches v).
  rewrite toggle_all_app, (toggle_all_empty (vertex_edges batches v)), content_symdiff, <- IH.
  cbn [xor_sum foldr]. unfold bxor. cbn [alpha gamma]. case_decide; [done|]. cbn [toggle_all foldl].
  by rewrite content_empty.
Qed.

Lemma uvm_kernel_ok inp garbage scheds sched batches m :
  input_for inp batches → shared_len nb garbage →
  (∀ b, b ∈ batches → S b.1 * nb ≤ length m) →
  ∃ m', sketchUpdate_UVM_kernel T p inp garbage scheds sched (length batches) m = Ok m' ∧
    length m' = length m ∧
    ∀ v j X, j < nb → m !! (v * nb + j) = Some (content s j X) →
      m' !! (v * nb + j) = Some (content s j (symdiff (toggle_all (vertex_edges batches v) ∅) X)).
Proof.
  intros Hinp Hg Hm. pose proof (wf_buckets _ Hwf) as Hnb.
  unfold sketchUpdate_UVM_kernel, launch.
  set (items := λ b : nat * list nat, i ← seq 0 nb;
    [XorAlpha (b.1 * nb + i) (alpha (content s i (batch_set b.1 b.2)));
     XorGamma (b.1 * nb + i) (gamma (content s i (batch_set b.1 b.2)))]).
  destruct (outcome_list_exists (λ b progs, concat progs ≡ₚ items (batches !!! b)) (uvm_block T p inp garbage scheds)
    (seq 0 (length batches))) as (ys & -> & Hys).
  { intros b Hb. apply elem_of_seq in Hb. destruct (lookup_lt_is_Some_2 batches b) as [[src dsts] Hsd]; [lia|].
    rewrite (list_lookup_total_correct _ _ _ Hsd).
    destruct (Hinp b src dsts Hsd) as (Hat & Hs & Hd). unfold uvm_block.
    destruct (block_sketch_ok inp garbage (scheds b).1 (scheds b).2 b src dsts Hat Hs Hd Hg) as (sh & -> & _ & Hsh).
    cbn [mbind outcome_bind]. rewrite (arr_get_Ok _ _ _ (ba_src _ _ _ _ Hat)). cbn [mbind outcome_bind].
    apply (thread_items_ok (xor_item p src sh)). intros i Hi.
    destruct (Hsh i Hi) as [Ha Hc]. unfold xor_item. rewrite (arr_get_Ok _ _ _ Ha), (arr_get_Ok _ _ _ Hc). done. }
  cbn [mbind outcome_bind]. pose proof (interleave_perm sched (concat ys)) as Hp.
  rewrite (concat_Forall2_perm (λ b, items (batches !!! b)) _ _ Hys) in Hp.
  rewrite (bind_lookup_total items batches) in Hp.
  destruct (exec_gxors (length m) (interleave sched (concat ys)).*2 m eq_refl) as (m' & -> & Hl & Hm').
  { rewrite Hp. apply Forall_bind_intro. intros b Hb. apply Forall_bind_intro. intros i Hi. apply elem_of_seq in Hi.
    specialize (Hm b Hb). assert (b.1 * nb + i < length m) by nia. repeat constructor; done. }
  exists m'. split; [done|]. split; [done|]. intros v j X Hj Hv. rewrite Hm', Hv. cbn [fmap option_fmap option_map].
  f_equal. rewrite content_symdiff, <- content_vertex_edges. f_equal.
  rewrite !(xor_sum_perm _ _ _ Hp), !xor_sum_bind.
  assert (∀ (sel : Bucket → N) (hit : nat → GlobalAction → N),
    (∀ k i b, hit k (XorAlpha i (alpha b)) = (if decide (i = k) then sel b else 0%N) ∧ hit k (XorGamma i (gamma b)) = 0%N ∨
       hit k (XorGamma i (gamma b)) = (if decide (i = k) then sel b else 0%N) ∧ hit k (XorAlpha i (alpha b)) = 0%N) →
    ∀ b : nat * list nat, xor_sum (hit (v * nb + j)) (items b) =
      if decide (b.1 = v) then sel (content s j (batch_set b.1 b.2)) else 0%N) as Hsum.
  { intros sel hit Hhit b. unfold items. rewrite xor_sum_bind.
    assert (∀ i, xor_sum (hit (v * nb + j))
      [XorAlpha (b.1 * nb + i) (alpha (content s i (batch_set b.1 b.2)));
       XorGamma (b.1 * nb + i) (gamma (content s i (batch_set b.1 b.2)))] =
      if decide (b.1 * nb + i = v * nb + j) then sel (content s i (batch_set b.1 b.2)) else 0%N) as Hi.
    { intros i. unfold xor_sum. cbn [foldr]. destruct (Hhit (v * nb + j) (b.1 * nb + i) (content s i (batch_set b.1 b.2))) as [[-> ->]|[-> ->]];
        by rewrite ?N.lxor_0_l, ?N.lxor_0_r. }
    rewrite (xor_sum_ext _ _ _ (λ i _, Hi i)). rewrite (xor_sum_single _ j); [|apply NoDup_seq|].
    - rewrite decide_True by (apply elem_of_seq; lia). apply decide_ext. nia.
    - intros k Hk Hne. apply elem_of_seq in Hk. rewrite decide_False; [done|]. intros He. apply Hne.
      assert (b.1 = v) by nia. nia. }
  f_equal; apply xor_sum_ext; intros b _; apply Hsum; intros k i b'; cbn; auto.
Qed.
End block.

Lemma represents_slice `{BuildConfig, Hashing} s X (m : list Bucket) v :
  represents s X → v * num_buckets s + num_buckets s ≤ length m →
  take (num_buckets s) (drop (v * num_buckets s) m) = buckets s ↔
  ∀ j, j < num_buckets s → m !! (v * num_buckets s + j) = Some (content s j X).
Proof.
  intros [Hwf Hr] Hlen. split.
  - intros He j Hj. rewrite <- (Hr j Hj), <- He, lookup_take_lt, lookup_drop by done. done.
  - intros Hm. apply list_eq_same_length with (n := num_buckets s).
    + by rewrite (wf_length _ Hwf).
    + rewrite length_take, length_drop. lia.
    + intros j x y Hj. rewrite lookup_take_lt, lookup_drop, Hm, Hr by done. congruence.
Qed.

Lemma represents_fresh_batch `{BuildConfig, Hashing} s src dsts :
  sketch_wf s →
  represents (foldl update (zero_contents s) (concat_pairing_fn src <$> dsts)) (batch_set src dsts).
Proof. intros Hwf. by apply represents_update_all, represents_zero_contents. Qed.

(** The buckets that a kernel stored, as sketches of the batches. *)
Lemma stored_slices `{BuildConfig, Hashing} s batches (m : list Bucket) :
  sketch_wf s → length batches * num_buckets s ≤ length m →
  (∀ b src dsts i, batches !! b = Some (src, dsts) → i < num_buckets s →
     m !! (b * num_buckets s + i) = Some (content s i (batch_set src dsts))) →
  ∀ b src dsts, batches !! b = Some (src, dsts) →
    take (num_buckets s) (drop (b * num_buckets s) m) =
      buckets (foldl update (zero_contents s) (concat_pairing_fn src <$> dsts)).
Proof.
  intros Hwf Hm Hm' b src dsts Hb. pose proof (lookup_lt_Some _ _ _ Hb).
  pose proof (represents_fresh_batch s src dsts Hwf) as Hr.
  set (s' := foldl update _ _) in *. assert (geometry s' = geometry s) as Hgeo.
  { unfold s'. rewrite geometry_update_all. done. }
  assert (num_buckets s' = num_buckets s) as Hnb by (unfold geometry in Hgeo; by simplify_eq).
  rewrite <- Hnb. apply (represents_slice s' (batch_set src dsts)); [done|nia|].
  intros j Hj. rewrite Hnb in *. rewrite (content_geometry s' s) by done. by apply Hm'.
Qed.

Lemma default_kernel_slices `{BuildConfig, Hashing} s T inp garbage scheds sched batches m :
  L0_SAMPLING = false → device_hash_agrees → sketch_wf s → 0 < num_columns s → 0 < T →
  input_for inp batches → shared_len (num_buckets s) garbage →
  length batches * num_buckets s ≤ length m →
  ∃ m', sketchUpdate_default_kernel T (sketch_params s) inp garbage scheds sched (length batches) m = Ok m' ∧
    length m' = length m ∧
    ∀ b src dsts, batches !! b = Some (src, dsts) →
      take (num_buckets s) (drop (b * num_buckets s) m') =
        buckets (foldl update (zero_contents s) (concat_pairing_fn src <$> dsts)).
Proof.
  intros Hcameo Hagree Hwf Hcols HT Hinp Hg Hm.
  destruct (default_kernel_ok Hcameo Hagree s Hwf Hcols T HT inp garbage scheds sched batches m Hinp Hg Hm)
    as (m' & Hrun & Hl & Hm' & _).
  exists m'. split; [done|]. split; [done|]. apply stored_slices; [done|lia|done].
Qed.

Lemma uvm_kernel_slices `{BuildConfig, Hashing} s T inp garbage scheds sched batches m :
  L0_SAMPLING = false → device_hash_agrees → sketch_wf s → 0 < num_columns s → 0 < T →
  input_for inp batches → shared_len (num_buckets s) garbage →
  (∀ b, b ∈ batches → S b.1 * num_buckets s ≤ length m) →
  ∃ m', sketchUpdate_UVM_kernel T (sketch_params s) inp garbage scheds sched (length batches) m = Ok m' ∧
    length m' = length m ∧
    ∀ v sk X, represents sk X → geometry sk = geometry s → S v * num_buckets s ≤ length m →
      take (num_buckets s) (drop (v * num_buckets s) m) = buckets sk →
      take (num_buckets s) (drop (v * num_buckets s) m') = buckets (foldl update sk (vertex_edges batches v)).
Proof.
  intros Hcameo Hagree Hwf Hcols HT Hinp Hg Hm.
  destruct (uvm_kernel_ok Hcameo Hagree s Hwf Hcols T HT inp garbage scheds sched batches m Hinp Hg Hm)
    as (m' & Hrun & Hl & Hm').
  exists m'. split; [done|]. split; [done|]. intros v sk X Hr Hgeo Hv Hslice.
  assert (num_buckets sk = num_buckets s) as Hnb by (unfold geometry in Hgeo; by simplify_eq).
  set (es := vertex_edges batches v). pose proof (represents_update_all sk es X Hr) as Hr'.
  set (sk' := foldl update sk es) in *. assert (geometry sk' = geometry s) as Hgeo'.
  { unfold sk'. by rewrite geometry_update_all. }
  assert (num_buckets sk' = num_buckets s) as Hnb' by (unfold geometry in Hgeo'; by simplify_eq).
  rewrite <- Hnb'. apply (represents_slice sk' (toggle_all es X)); [done|lia|].
  intros j Hj. rewrite Hnb' in *. rewrite (content_geometry sk' s) by done.
  rewrite toggle_all_empty, symdiff_comm. apply Hm'; [done|].
  rewrite <- Hnb in *. rewrite <- (content_geometry sk s) by done.
  by apply (represents_slice sk X); [|lia| |].
Qed.

(** C18. A launch of either kernel, under any schedule of the threads of its blocks and
    with any garbage in shared memory, does what the host's sketches do. The default
    kernel leaves, for each batch, the buckets of a zeroed sketch updated with the
    batch, and so does the kernel of single launches for any number of blocks, each of
    which does several batches; the one for managed memory updates the buckets of each
    batch's vertex, and several batches may be of one vertex. This is the CameoSketch
    build. *)
Theorem kernels_match_cpu `{BuildConfig, Hashing} s T blocks inp garbage scheds stores sched batches m :
  L0_SAMPLING = false → device_hash_agrees → sketch_wf s → 0 < num_columns s → 0 < T →
  input_for inp batches → shared_len (num_buckets s) garbage →
  (length batches * num_buckets s ≤ length m →
   ∃ m', sketchUpdate_default_kernel T (sketch_params s) inp garbage scheds sched (length batches) m = Ok m' ∧
     ∀ b src dsts, batches !! b = Some (src, dsts) →
       take (num_buckets s) (drop (b * num_buckets s) m') =
         buckets (foldl update (zero_contents s) (concat_pairing_fn src <$> dsts))) ∧
  (0 < blocks → length batches * num_buckets s ≤ length m →
   ∃ m', single_sketchUpdate_default_kernel T (sketch_params s) blocks (length batches) inp garbage scheds stores sched m = Ok m' ∧
     ∀ b src dsts, batches !! b = Some (src, dsts) →
       take (num_buckets s) (drop (b * num_buckets s) m') =
         buckets (foldl update (zero_contents s) (concat_pairing_fn src <$> dsts))) ∧
  ((∀ b, b ∈ batches → S b.1 * num_buckets s ≤ length m) →
   ∃ m', sketchUpdate_UVM_kernel T (sketch_params s) inp garbage scheds sched (length batches) m = Ok m' ∧
     ∀ v sk X, represents sk X → geometry sk = geometry s → S v * num_buckets s ≤ length m →
       take (num_buckets s) (drop (v * num_buckets s) m) = buckets sk →
       take (num_buckets s) (drop (v * num_buckets s) m') = buckets (foldl update sk (vertex_edges batches v))).
Proof.
  intros Hcameo Hagree Hwf Hcols HT Hinp Hg. split; [|split].
  - intros Hm. destruct (default_kernel_slices s T inp garbage scheds sched batches m) as (m' & Hrun & _ & Hm'); [done..|].
    by exists m'.
  - intros Hblocks Hm. destruct (single_default_kernel_ok Hcameo Hagree s Hwf Hcols T HT blocks inp garbage scheds stores sched batches m)
      as (m' & Hrun & Hl & Hm' & _); [done..|].
    exists m'. split; [done|]. apply stored_slices; [done|lia|done].
  - intros Hm. destruct (uvm_kernel_slices s T inp garbage scheds sched batches m) as (m' & Hrun & _ & Hm'); [done..|].
    by exists m'.
Qed.

Section witnesses.
#[local] Existing Instances default_build integral_libm xxh3_hashing.

Lemma device_hash_agrees_xxh3 : device_hash_agrees.
Proof. done. Qed.

(** Three batches for a graph of three nodes, two of them of node 0. *)
Definition example_batches : list (nat * list nat) := [(0, [1; 2]); (2, [0; 1]); (0, [2])].
Definition example_input : DeviceInput := mkInput [0; 2; 0] [2; 2; 1] [0; 2; 4] [1; 2; 0; 1; 2].
Definition example_shape : Sketch := new_sketch 6 7 2 1.

Lemma example_input_for : input_for example_input example_batches.
Proof.
  intros b src dsts Hb. split_and!.
  - destruct b as [|[|[|b]]]; cbn in Hb; simplify_eq; (constructor; [done|done|]); eexists; (split; [done|]);
      intros k d Hk; destruct k as [|[|k]]; cbn in *; simplify_eq; done.
  - destruct b as [|[|[|b]]]; cbn in Hb; simplify_eq; done.
  - destruct b as [|[|[|b]]]; cbn in Hb; simplify_eq; repeat constructor.
Qed.

Lemma kernels_match_cpu_witness :
  (∃ m', sketchUpdate_default_kernel 2 (sketch_params example_shape) example_input
      (mkShared (replicate 9 5%N) (replicate 9 6%N)) (λ _, ([1; 0; 1], [1; 1; 0])) [3; 1; 0]
      (length example_batches) (replicate 27 bzero) = Ok m' ∧
    take 9 (drop 9 m') = buckets (foldl update (zero_contents example_shape) (concat_pairing_fn 2 <$> [0; 1]))) ∧
  (∃ m', single_sketchUpdate_default_kernel 2 (sketch_params example_shape) 2 (length example_batches) example_input
      (mkShared (replicate 9 5%N) (replicate 9 6%N)) (λ _, ([1; 0; 1], [1; 1; 0])) (λ _, [1; 0]) [3; 1; 0] (replicate 27 bzero) = Ok m' ∧
    take 9 (drop 9 m') = buckets (foldl update (zero_contents example_shape) (concat_pairing_fn 2 <$> [0; 1]))) ∧
  ∃ m', sketchUpdate_UVM_kernel 2 (sketch_params example_shape) example_input
      (mkShared (replicate 9 5%N) (replicate 9 6%N)) (λ _, ([1; 0; 1], [1; 1; 0])) [3; 1; 0]
      (length example_batches) (replicate 27 bzero) = Ok m' ∧
    take 9 (drop 0 m') = buckets (foldl update example_shape (vertex_edges example_batches 0)).
Proof.
  assert (num_buckets example_shape = 9) as Hnb by by vm_compute.
  assert (sketch_wf example_shape) as Hwf by (apply new_sketch_wf; exact example_bkt).
  destruct (kernels_match_cpu example_shape 2 2 example_input (mkShared (replicate 9 5%N) (replicate 9 6%N))
    (λ _, ([1; 0; 1], [1; 1; 0])) (λ _, [1; 0]) [3; 1; 0] example_batches (replicate 27 bzero)) as (Hd & Hs & Hu);
    [done|exact device_hash_agrees_xxh3|exact Hwf|vm_compute; lia|lia|exact example_input_for|by rewrite Hnb|].
  split; [|split].
  - destruct Hd as (m' & Hrun & Hm'); [rewrite Hnb; vm_compute; lia|].
    exists m'. split; [done|]. specialize (Hm' 1 2 [0; 1] eq_refl). rewrite Hnb in Hm'. exact Hm'.
  - destruct Hs as (m' & Hrun & Hm'); [lia|rewrite Hnb; vm_compute; lia|].
    exists m'. split; [done|]. specialize (Hm' 1 2 [0; 1] eq_refl). rewrite Hnb in Hm'. exact Hm'.
  - destruct Hu as (m' & Hrun & Hm').
    { intros b Hb. rewrite Hnb. unfold example_batches in Hb.
      rewrite !elem_of_cons in Hb. destruct Hb as [->|[->|[->|Hb]]]; [vm_compute; lia..|]. by apply elem_of_nil in Hb. }
    exists m'. split; [done|].
    specialize (Hm' 0 example_shape ∅ (represents_new_sketch 6 7 2 1 example_bkt) eq_refl).
    rewrite Hnb in Hm'. apply Hm'; [vm_compute; lia|]. by vm_compute.
Defined.
End witnesses.
