(* ===== verification/CudaStream.v ===== *)
(** * A stream to the GPU: src/include/cuda_stream.h

    Class [CudaStream] collects batches in one half of its host buffers, and when the
    half is full sends it to the GPU and goes on with the other half; the deltas of a
    half come back in [h_buckets] and are applied when the next one is full. The
    operations it queues run on the device at any time up to the next
    [cudaStreamSynchronize]: a call takes the number of queued operations that the
    device has finished before it. This is the part for sketches in host memory
    ([process_batch_default], [flush_buffers_default]). *)

From Stdlib Require Import NArith Lia.
From stdpp Require Import base list gmap sets numbers.
From S2P Require Import Prelude Float64 Util Bucket Sketch XXHash CudaKernel.

(** What the stream asks of its algorithm: [apply_raw_buckets_update]. *)
Class RawBucketsAlg (A : Type) := {
  alg_apply_raw_buckets_update : nat → list Bucket → A → outcome A;
}.

(** What is left open about a launch: the schedules of its threads, and what
    shared memory holds before. *)
Record LaunchEnv := mkEnv {
  env_blocks : nat → list nat * list nat;
  env_grid : list nat;
  env_garbage : Shared;
}.

(** The operations queued on the device. *)
Inductive StreamOp :=
  | CopyEdges (start len : nat)
  | CopySizes (start n : nat)
  | CopySrc (start n : nat)
  | CopyStart (start n : nat)
  | LaunchKernel (n : nat) (env : LaunchEnv)
  | CopyBuckets (n : nat).

(** The buffers in host memory. *)
Record HostBuffers := mkHost {
  h_edgeUpdates : list nat;
  h_update_sizes : list nat;
  h_update_src : list nat;
  h_update_start_index : list nat;
  h_buckets : list Bucket;
}.

Record CudaStream := mkStream {
  graph_id : nat;
  stream_nodes : nat;
  stream_params : SketchParams;
  num_device_threads : nat;
  stream_batch_size : nat;
  batch_limit : nat;
  buffer_id : nat;
  batch_offset : nat;
  batch_count : nat;
  first_buffer : bool;
  host : HostBuffers;
  d_input : DeviceInput;
  d_buckets : list Bucket;
  queue : list StreamOp;
}.

Definition set_device (st : CudaStream) (inp : DeviceInput) (b : list Bucket) : CudaStream :=
  mkStream (graph_id st) (stream_nodes st) (stream_params st) (num_device_threads st)
    (stream_batch_size st) (batch_limit st) (buffer_id st) (batch_offset st) (batch_count st)
    (first_buffer st) (host st) inp b (queue st).
Definition set_host (st : CudaStream) (h : HostBuffers) : CudaStream :=
  mkStream (graph_id st) (stream_nodes st) (stream_params st) (num_device_threads st)
    (stream_batch_size st) (batch_limit st) (buffer_id st) (batch_offset st) (batch_count st)
    (first_buffer st) h (d_input st) (d_buckets st) (queue st).
Definition set_queue (st : CudaStream) (q : list StreamOp) : CudaStream :=
  mkStream (graph_id st) (stream_nodes st) (stream_params st) (num_device_threads st)
    (stream_batch_size st) (batch_limit st) (buffer_id st) (batch_offset st) (batch_count st)
    (first_buffer st) (host st) (d_input st) (d_buckets st) q.
Definition set_fill (st : CudaStream) (id offset count : nat) (first : bool) : CudaStream :=
  mkStream (graph_id st) (stream_nodes st) (stream_params st) (num_device_threads st)
    (stream_batch_size st) (batch_limit st) id offset count first
    (host st) (d_input st) (d_buckets st) (queue st).

(** The constructor. The device buffers and [h_buckets] are not initialised. *)
Definition new_CudaStream (graph num_nodes threads batch_size num_batch_per_buffer : nat) (p : SketchParams)
    (junk : DeviceInput) (junk_buckets junk_h_buckets : list Bucket) : CudaStream :=
  mkStream graph num_nodes p threads batch_size num_batch_per_buffer 0 0 0 true
    (mkHost (replicate (2 * num_batch_per_buffer * batch_size) 0) (replicate (2 * num_batch_per_buffer) 0)
       (replicate (2 * num_batch_per_buffer) 0) (replicate (2 * num_batch_per_buffer) 0) junk_h_buckets)
    junk junk_buckets [].

(** A copy of [n] entries from [start] to the beginning of another array. *)
Definition copy_range {X} (target source : list X) (start n : nat) : outcome (list X) :=
  if decide (n ≤ length target ∧ start + n ≤ length source)
  then Ok (take n (drop start source) ++ drop n target) else Throw OutOfBounds.

(** Entries written one by one from a position on. *)
Definition write_range {X} (target : list X) (pos : nat) (l : list X) : outcome (list X) :=
  if decide (pos + length l ≤ length target)
  then Ok (take pos target ++ l ++ drop (pos + length l) target) else Throw OutOfBounds.

Section device.
Context `{Hashing}.

(** One operation of the device. *)
Definition exec_op (st : CudaStream) (op : StreamOp) : outcome CudaStream :=
  let inp := d_input st in let h := host st in
  match op with
  | CopyEdges start len =>
      x ← copy_range (edgeUpdates inp) (h_edgeUpdates h) start len;
      Ok (set_device st (mkInput (update_src inp) (update_sizes inp) (update_start_index inp) x) (d_buckets st))
  | CopySizes start n =>
      x ← copy_range (update_sizes inp) (h_update_sizes h) start n;
      Ok (set_device st (mkInput (update_src inp) x (update_start_index inp) (edgeUpdates inp)) (d_buckets st))
  | CopySrc start n =>
      x ← copy_range (update_src inp) (h_update_src h) start n;
      Ok (set_device st (mkInput x (update_sizes inp) (update_start_index inp) (edgeUpdates inp)) (d_buckets st))
  | CopyStart start n =>
      x ← copy_range (update_start_index inp) (h_update_start_index h) start n;
      Ok (set_device st (mkInput (update_src inp) (update_sizes inp) x (edgeUpdates inp)) (d_buckets st))
  | LaunchKernel n env =>
      b ← sketchUpdate_default_kernel (num_device_threads st) (stream_params st) inp (env_garbage env)
            (env_blocks env) (env_grid env) n (d_buckets st);
      Ok (set_device st inp b)
  | CopyBuckets n =>
      x ← copy_range (h_buckets h) (d_buckets st) 0 n;
      Ok (set_host st (mkHost (h_edgeUpdates h) (h_update_sizes h) (h_update_src h) (h_update_start_index h) x))
  end.

(** The device finishes the first [k] operations of the queue. *)
Definition device_steps (k : nat) (st : CudaStream) : outcome CudaStream :=
  st' ← outcome_fold exec_op st (take k (queue st));
  Ok (set_queue st' (drop k (queue st))).

Definition cudaStreamSynchronize (st : CudaStream) : outcome CudaStream :=
  device_steps (length (queue st)) st.

(** The copies, the launch and the copy back of a half with [n] batches. *)
Definition send_buffer (n : nat) (env : LaunchEnv) (st : CudaStream) : CudaStream :=
  let start_index := buffer_id st * batch_limit st * stream_batch_size st in
  let start_batch_id := buffer_id st * batch_limit st in
  set_queue st (queue st ++
    [CopyEdges start_index (batch_offset st - start_index); CopySizes start_batch_id n;
     CopySrc start_batch_id n; CopyStart start_batch_id n; LaunchKernel n env;
     CopyBuckets (p_num_buckets (stream_params st) * n)]).

Section algorithm.
Context {A : Type} `{RawBucketsAlg A}.

(** The sketch of a node, as a 32-bit index. *)
Definition sketch_of (st : CudaStream) (v : nat) : nat :=
  N.to_nat (u32 (N.of_nat (graph_id st * stream_nodes st + v))).

(** The deltas of the first [n] batches from [batch_id] on. *)
Definition apply_delta (st : CudaStream) (first_batch_id : nat) (a : A) (batch_id : nat) : outcome A :=
  let nb := p_num_buckets (stream_params st) in
  src ← arr_get (h_update_src (host st)) (first_batch_id + batch_id);
  if decide (batch_id * nb + nb ≤ length (h_buckets (host st))) then
    alg_apply_raw_buckets_update (sketch_of st src) (take nb (drop (batch_id * nb) (h_buckets (host st)))) a
  else Throw OutOfBounds.

Definition apply_deltas (st : CudaStream) (first_batch_id n : nat) (a : A) : outcome A :=
  outcome_fold (apply_delta st first_batch_id) a (seq 0 n).

(** The batch goes to the end of the current half. *)
Definition fill_batch (src_vertex : nat) (dst_vertices : list nat) (st : CudaStream) : outcome CudaStream :=
  let h := host st in
  let start_index := buffer_id st * batch_limit st * stream_batch_size st in
  let start_batch_id := buffer_id st * batch_limit st in
  edges ← write_range (h_edgeUpdates h) (batch_offset st) dst_vertices;
  sizes ← arr_set (h_update_sizes h) (start_batch_id + batch_count st) (length dst_vertices);
  srcs ← arr_set (h_update_src h) (start_batch_id + batch_count st) src_vertex;
  starts ← arr_set (h_update_start_index h) (start_batch_id + batch_count st) (batch_offset st - start_index);
  Ok (set_fill (set_host st (mkHost edges sizes srcs starts (h_buckets h))) (buffer_id st)
        (batch_offset st + length dst_vertices) (S (batch_count st)) (first_buffer st)).

Definition process_batch_default (env : LaunchEnv) (src_vertex : nat) (dst_vertices : list nat)
    (st : CudaStream) (a : A) : outcome (CudaStream * A) :=
  st ← fill_batch src_vertex dst_vertices st;
  if decide (batch_count st = batch_limit st) then
    st ← cudaStreamSynchronize st;
    let prev_buffer_id := Nat.lxor (buffer_id st) 1 in
    a ← (if first_buffer st then Ok a
         else apply_deltas st (prev_buffer_id * batch_limit st) (batch_limit st) a);
    let st := send_buffer (batch_count st) env st in
    Ok (set_fill st prev_buffer_id (prev_buffer_id * batch_limit st * stream_batch_size st) 0 false, a)
  else Ok (st, a).

(** A call, after the device has done [progress] of the queued operations. *)
Definition process_batch (progress : nat) (env : LaunchEnv) (src_vertex : nat) (dst_vertices : list nat)
    (st : CudaStream) (a : A) : outcome (CudaStream * A) :=
  st ← device_steps progress st;
  process_batch_default env src_vertex dst_vertices st a.

Definition flush_buffers_default (env : LaunchEnv) (st : CudaStream) (a : A) : outcome (CudaStream * A) :=
  st ← cudaStreamSynchronize st;
  a ← apply_deltas st (Nat.lxor (buffer_id st) 1 * batch_limit st) (batch_limit st) a;
  if decide (batch_count st = 0) then Ok (st, a)
  else
    st ← cudaStreamSynchronize (send_buffer (batch_count st) env st);
    a ← apply_deltas st (buffer_id st * batch_limit st) (batch_count st) a;
    Ok (st, a).
End algorithm.
End device.
