(* ===== verification/CudaStreamSpec.v ===== *)
(** * A stream applies each batch once: src/include/cuda_stream.h

    While the device works on one half of the host buffers, the host fills the other:
    whenever the device runs, it reads what was there when the half was sent. So every
    batch's delta is applied exactly once, in order, up to and including one flush. *)

From Stdlib Require Import NArith Lia.
From stdpp Require Import base list gmap sets numbers.
From S2P Require Import Prelude Float64 Util Bucket Sketch XXHash Concrete SketchSpec CudaKernel CudaKernelSpec CudaStream.

Lemma outcome_fold_seq {A B} (f : A → nat → outcome A) (g : A → B → outcome A) (l : list B) k a :
  (∀ i b a, l !! i = Some b → f a (k + i) = g a b) →
  outcome_fold f a (seq k (length l)) = outcome_fold g a l.
Proof.
  revert k a. induction l as [|b l IH]; intros k a Hf; [done|]. cbn [length seq outcome_fold].
  rewrite <- (Hf 0 b a eq_refl), Nat.add_0_r. destruct (f a k) as [a'|e]; [|done]. cbn [mbind outcome_bind].
  apply IH. intros i b' a'' Hi. rewrite <- (Hf (S i) b' a'' Hi). f_equal. lia.
Qed.

Lemma copy_range_ok {X} (target source : list X) start n :
  n ≤ length target → start + n ≤ length source →
  ∃ l, copy_range target source start n = Ok l ∧ length l = length target ∧
    (∀ i, i < n → l !! i = source !! (start + i)).
Proof.
  intros Hn Hs. unfold copy_range. rewrite decide_True by done. eexists. split; [done|]. split.
  - rewrite length_app, length_take, !length_drop. lia.
  - intros i Hi. rewrite lookup_app_l by (rewrite length_take, length_drop; lia).
    by rewrite lookup_take_lt, lookup_drop.
Qed.

Lemma write_range_ok {X} (target : list X) pos l :
  pos + length l ≤ length target →
  ∃ t, write_range target pos l = Ok t ∧ length t = length target ∧
    (∀ k x, l !! k = Some x → t !! (pos + k) = Some x) ∧
    (∀ k, k < pos ∨ pos + length l ≤ k → t !! k = target !! k).
Proof.
  intros Hl. unfold write_range. rewrite decide_True by done. eexists. split; [done|]. split; [|split].
  - rewrite !length_app, length_take, length_drop. lia.
  - intros k x Hk. pose proof (lookup_lt_Some _ _ _ Hk).
    rewrite lookup_app_r by (rewrite length_take; lia). rewrite length_take, Nat.min_l by lia.
    rewrite lookup_app_l by lia. by replace (pos + k - pos) with k by lia.
  - intros k [Hk|Hk].
    + rewrite lookup_app_l by (rewrite length_take; lia). by apply lookup_take_lt.
    + rewrite lookup_app_r by (rewrite length_take; lia). rewrite length_take, Nat.min_l by lia.
      rewrite lookup_app_r by lia. rewrite lookup_drop. f_equal. lia.
Qed.

Lemma lxor_le id : id ≤ 1 → Nat.lxor id 1 ≤ 1 ∧ Nat.lxor (Nat.lxor id 1) 1 = id.
Proof. destruct id as [|[|]]; cbn; lia. Qed.

(** The updates of the batches that come before. *)
Definition offs (l : list (nat * list nat)) : nat := sum_list_with (λ b, length b.2) l.

Lemma offs_app l l' : offs (l ++ l') = offs l + offs l'.
Proof. apply sum_list_with_app. Qed.

Lemma offs_middle l i b : l !! i = Some b → offs (take i l) + length b.2 ≤ offs l.
Proof.
  intros Hib. rewrite <- (take_drop_middle l i b Hib) at 2. rewrite offs_app. unfold offs at 3. cbn. lia.
Qed.

Section stream.
Context `{BuildConfig, Hashing}.
Context (Hcameo : L0_SAMPLING = false) (Hagree : device_hash_agrees).
Context (s : Sketch) (Hwf : sketch_wf s) (Hcols : 0 < num_columns s).
Context (graph nodes T bsize lim : nat) (HT : 0 < T) (Hlim : 0 < lim).
Abbreviation nb := (num_buckets s).
Implicit Types (l : list (nat * list nat)) (st : CudaStream).

(** The delta of a batch. *)
Definition delta (b : nat * list nat) : list Bucket :=
  buckets (foldl update (zero_contents s) (concat_pairing_fn b.1 <$> b.2)).

Definition batch_fits (b : nat * list nat) : Prop :=
  length b.2 ≤ bsize ∧ node_ok b.1 ∧ Forall node_ok b.2.

Lemma offs_le l : Forall batch_fits l → offs l ≤ length l * bsize.
Proof. induction 1 as [|b l [Hb _] _ IH]; [done|]. unfold offs in *. cbn. lia. Qed.

(** The sizes of the stream's buffers, but those of the deltas. *)
Record stream_base st : Prop := {
  sk_graph : graph_id st = graph ∧ stream_nodes st = nodes;
  sk_params : stream_params st = sketch_params s ∧ num_device_threads st = T;
  sk_batch : stream_batch_size st = bsize ∧ batch_limit st = lim;
  sk_id : buffer_id st ≤ 1;
  sk_edges : length (h_edgeUpdates (host st)) = 2 * lim * bsize;
  sk_sizes : length (h_update_sizes (host st)) = 2 * lim;
  sk_src : length (h_update_src (host st)) = 2 * lim;
  sk_start : length (h_update_start_index (host st)) = 2 * lim;
  sk_d_edges : length (edgeUpdates (d_input st)) = lim * bsize;
  sk_d_sizes : length (update_sizes (d_input st)) = lim;
  sk_d_src : length (update_src (d_input st)) = lim;
  sk_d_start : length (update_start_index (d_input st)) = lim;
}.

Record stream_ok st : Prop := {
  so_base : stream_base st;
  so_buckets : length (h_buckets (host st)) = nb * lim;
  so_d_buckets : length (d_buckets st) = nb * lim;
}.

(** Half [id] of the host buffers holds the batches [l]. *)
Definition half_ok (h : HostBuffers) (id : nat) l : Prop :=
  ∀ i b, l !! i = Some b →
    h_update_src h !! (id * lim + i) = Some b.1 ∧
    h_update_sizes h !! (id * lim + i) = Some (length b.2) ∧
    h_update_start_index h !! (id * lim + i) = Some (offs (take i l)) ∧
    ∀ k d, b.2 !! k = Some d → h_edgeUpdates h !! (id * lim * bsize + offs (take i l) + k) = Some d.

Definition slices (m : list Bucket) l : Prop :=
  ∀ i b, l !! i = Some b → take nb (drop (i * nb) m) = delta b.

(** The operations that send a half, and how far the device is with them. *)
Definition ops (id : nat) l (env : LaunchEnv) : list StreamOp :=
  [CopyEdges (id * lim * bsize) (offs l); CopySizes (id * lim) (length l); CopySrc (id * lim) (length l);
   CopyStart (id * lim) (length l); LaunchKernel (length l) env; CopyBuckets (nb * length l)].

Definition copied (st : CudaStream) (id : nat) l (j : nat) : Prop :=
  let h := host st in let inp := d_input st in
  (1 ≤ j → ∀ x, x < offs l → edgeUpdates inp !! x = h_edgeUpdates h !! (id * lim * bsize + x)) ∧
  (2 ≤ j → ∀ i, i < length l → update_sizes inp !! i = h_update_sizes h !! (id * lim + i)) ∧
  (3 ≤ j → ∀ i, i < length l → update_src inp !! i = h_update_src h !! (id * lim + i)) ∧
  (4 ≤ j → ∀ i, i < length l → update_start_index inp !! i = h_update_start_index h !! (id * lim + i)).

Definition stage (st : CudaStream) (id : nat) l (j : nat) : Prop :=
  copied st id l j ∧ (5 ≤ j → slices (d_buckets st) l) ∧ (6 ≤ j → slices (h_buckets (host st)) l).

(** What the device does not touch. *)
Definition same_fill st st' : Prop :=
  buffer_id st' = buffer_id st ∧ batch_offset st' = batch_offset st ∧ batch_count st' = batch_count st ∧
  first_buffer st' = first_buffer st ∧
  h_edgeUpdates (host st') = h_edgeUpdates (host st) ∧ h_update_sizes (host st') = h_update_sizes (host st) ∧
  h_update_src (host st') = h_update_src (host st) ∧
  h_update_start_index (host st') = h_update_start_index (host st).

#[local] Instance same_fill_trans : Transitive same_fill.
Proof. unfold same_fill. intros st1 st2 st3. intuition congruence. Qed.

Lemma half_ok_same st st' id l : same_fill st st' → half_ok (host st) id l → half_ok (host st') id l.
Proof.
  intros (_ & _ & _ & _ & He & Hsz & Hsr & Hst) Hh i b Hb. rewrite He, Hsz, Hsr, Hst. by apply Hh.
Qed.

Definition env_ok (env : LaunchEnv) : Prop := shared_len nb (env_garbage env).

(** What the device arrays hold after the copies is the input of the launch. *)
Lemma staged_input st id l :
  copied st id l 4 → half_ok (host st) id l → Forall batch_fits l → input_for (d_input st) l.
Proof.
  intros (Hed & Hsz & Hsr & Hst) Hh Hl i src dsts Hi.
  destruct (Hh i (src, dsts) Hi) as (H1' & H2' & H3' & H4'). pose proof (lookup_lt_Some _ _ _ Hi) as Hlt.
  rewrite list.Forall_forall in Hl. destruct (Hl (src, dsts)) as (_ & Hs & Hd); [by eapply list_elem_of_lookup_2|].
  split; [constructor|done].
  - by rewrite Hsr by lia.
  - by rewrite Hsz by lia.
  - exists (offs (take i l)). split; [by rewrite Hst by lia|]. intros k d Hk.
    rewrite Hed; [|lia|].
    + rewrite Nat.add_assoc. by apply H4'.
    + pose proof (lookup_lt_Some _ _ _ Hk). rewrite <- (take_drop_middle l i _ Hi) at 2.
      rewrite offs_app. unfold offs at 3. cbn. lia.
Qed.

(** One of the four copies. *)
Lemma exec_copy_ok st id l env j :
  stream_base st → copied st id l j → Forall batch_fits l → id ≤ 1 → length l ≤ lim → j < 4 →
  ∀ op, ops id l env !! j = Some op →
  ∃ st', exec_op st op = Ok st' ∧ stream_base st' ∧ copied st' id l (S j) ∧ same_fill st st' ∧ queue st' = queue st ∧
    host st' = host st ∧ d_buckets st' = d_buckets st.
Proof.
  intros Hok Hst Hl Hid Hlen Hj op Hop. pose proof (offs_le l Hl) as Hoffs.
  assert (offs l ≤ lim * bsize) as Hoffs' by nia.
  assert (id * lim * bsize + lim * bsize ≤ 2 * lim * bsize) as Hhalf by nia.
  pose proof Hok as [Hg Hp Hb Hi He Hsz Hsr Hs Hde Hdsz Hdsr Hdst].
  pose proof Hst as (G1 & G2 & G3 & G4).
  destruct j as [|[|[|[|j]]]]; [| | | |lia]; cbn in Hop; injection Hop as <-; cbn [exec_op].
  - destruct (copy_range_ok (edgeUpdates (d_input st)) (h_edgeUpdates (host st)) (id * lim * bsize) (offs l))
      as (x & -> & Hx & Hxl); [lia|lia|]. cbn [mbind outcome_bind].
    eexists. split; [done|]. split; [constructor; cbn; try done; by rewrite Hx|].
    split; [|done]. split; [by intros _ y Hy; apply Hxl|]. split_and!; intros ?; lia.
  - destruct (copy_range_ok (update_sizes (d_input st)) (h_update_sizes (host st)) (id * lim) (length l))
      as (x & -> & Hx & Hxl); [lia|nia|]. cbn [mbind outcome_bind].
    eexists. split; [done|]. split; [constructor; cbn; try done; by rewrite Hx|].
    split; [|done]. split; [intros _; apply G1; lia|]. split; [by intros _ i Hi'; apply Hxl|]. split_and!; intros ?; lia.
  - destruct (copy_range_ok (update_src (d_input st)) (h_update_src (host st)) (id * lim) (length l))
      as (x & -> & Hx & Hxl); [lia|nia|]. cbn [mbind outcome_bind].
    eexists. split; [done|]. split; [constructor; cbn; try done; by rewrite Hx|].
    split; [|done]. split; [intros _; apply G1; lia|]. split; [intros _; apply G2; lia|].
    split; [by intros _ i Hi'; apply Hxl|intros ?; lia].
  - destruct (copy_range_ok (update_start_index (d_input st)) (h_update_start_index (host st)) (id * lim) (length l))
      as (x & -> & Hx & Hxl); [lia|nia|]. cbn [mbind outcome_bind].
    eexists. split; [done|]. split; [constructor; cbn; try done; by rewrite Hx|].
    split; [|done]. split; [intros _; apply G1; lia|]. split; [intros _; apply G2; lia|].
    split; [intros _; apply G3; lia|by intros _ i Hi'; apply Hxl].
Qed.

Lemma copied_ge st id l j j' : 4 ≤ j → copied st id l j → copied st id l j'.
Proof. intros Hj (G1 & G2 & G3 & G4). split_and!; intros _; [apply G1|apply G2|apply G3|apply G4]; lia. Qed.

Lemma exec_op_ok st id l env j :
  stream_ok st → stage st id l j → half_ok (host st) id l → Forall batch_fits l → env_ok env →
  id ≤ 1 → length l ≤ lim → ∀ op, ops id l env !! j = Some op →
  ∃ st', exec_op st op = Ok st' ∧ stream_ok st' ∧ stage st' id l (S j) ∧
    same_fill st st' ∧ queue st' = queue st.
Proof.
  intros [Hok Hbk Hdb] (Hc & G5 & G6) Hh Hl Henv Hid Hlen op Hop.
  destruct (decide (j < 4)) as [Hj|Hj].
  { destruct (exec_copy_ok st id l env j Hok Hc Hl Hid Hlen Hj op Hop) as (st' & Hrun & Hok' & Hc' & Hs & Hq & Hh' & Hd).
    exists st'. split; [done|]. split; [constructor; [done|by rewrite Hh'|by rewrite Hd]|].
    split; [|done]. split; [done|]. split; intros ?; lia. }
  pose proof (copied_ge st id l j 4 ltac:(lia) Hc) as Hc4. pose proof (sk_params _ Hok) as Hp.
  destruct j as [|[|[|[|[|[|j]]]]]]; [lia..| | |done]; cbn in Hop; injection Hop as <-; cbn [exec_op].
  - rewrite (proj1 Hp), (proj2 Hp).
    destruct (default_kernel_slices s T (d_input st) (env_garbage env) (env_blocks env) (env_grid env) l (d_buckets st))
      as (m' & -> & Hm & Hsl); try done; [by apply (staged_input st id l)|nia|]. cbn [mbind outcome_bind].
    eexists. split; [done|]. split; [by constructor; [destruct Hok; constructor| |cbn; rewrite Hm]|].
    split; [|done]. split; [exact (copied_ge _ _ _ _ _ (Nat.le_refl 4) Hc4)|].
    split; [|intros ?; lia]. intros _ i [src dsts] Hi'. by apply Hsl.
  - destruct (copy_range_ok (h_buckets (host st)) (d_buckets st) 0 (nb * length l)) as (x & -> & Hx & Hxl); [nia|nia|].
    cbn [mbind outcome_bind].
    eexists. split; [done|]. split; [by constructor; [destruct Hok; constructor|cbn; rewrite Hx|]|].
    split; [|done]. split; [exact (copied_ge _ _ _ _ _ (Nat.le_refl 4) Hc4)|]. split; [intros _; apply G5; lia|].
    intros _ i b Hib. rewrite <- (G5 ltac:(lia) i b Hib). pose proof (lookup_lt_Some _ _ _ Hib).
    cbn [host set_host h_buckets]. apply list_eq_same_length with (n := nb).
    + rewrite length_take, length_drop. nia.
    + rewrite length_take, length_drop. nia.
    + intros k y z Hk. rewrite !lookup_take_lt, !lookup_drop, Hxl by nia. cbn. congruence.
Qed.

Lemma length_ops id l env : length (ops id l env) = 6.
Proof. done. Qed.

Lemma exec_ops_ok k st id l env j :
  stream_ok st → stage st id l j → half_ok (host st) id l → Forall batch_fits l → env_ok env →
  id ≤ 1 → length l ≤ lim →
  ∃ st', outcome_fold exec_op st (take k (drop j (ops id l env))) = Ok st' ∧ stream_ok st' ∧
    stage st' id l ((6 `min` (j + k)) `max` j) ∧ same_fill st st' ∧ queue st' = queue st.
Proof.
  intros Hok Hst Hh Hl Henv Hid Hlen. revert j st Hok Hst Hh. induction k as [|k IH]; intros j st Hok Hst Hh.
  { exists st. split; [done|]. split; [done|]. by replace ((6 `min` (j + 0)) `max` j) with j by lia. }
  destruct (ops id l env !! j) as [op|] eqn:Hop.
  - destruct (exec_op_ok st id l env j Hok Hst Hh Hl Henv Hid Hlen op Hop) as (st1 & Hrun & Hok1 & Hst1 & Hs1 & Hq1).
    apply lookup_lt_Some in Hop as Hj. rewrite length_ops in Hj.
    rewrite (drop_S _ _ _ Hop). cbn [take firstn outcome_fold]. rewrite Hrun. cbn [mbind outcome_bind].
    destruct (IH (S j) st1 Hok1 Hst1) as (st2 & Hrun2 & Hok2 & Hst2 & Hs2 & Hq2); [by eapply half_ok_same|].
    exists st2. split; [done|]. split; [done|]. split; [|split; [by etrans|congruence]].
    by replace ((6 `min` (j + S k)) `max` j) with ((6 `min` (S j + k)) `max` S j) by lia.
  - apply lookup_ge_None_1 in Hop. rewrite length_ops in Hop. rewrite drop_ge by done.
    exists st. destruct k; (split; [done|]; split; [done|]; by replace ((6 `min` (j + S _)) `max` j) with j by lia).
Qed.

(** The device side of the invariant: it is somewhere in the work on [prev], which is in
    the other half. *)
Definition sending st (id : nat) l (env : LaunchEnv) (j : nat) : Prop :=
  length l ≤ lim ∧ Forall batch_fits l ∧ half_ok (host st) id l ∧ env_ok env ∧ j ≤ 6 ∧
  stage st id l j ∧ queue st = drop j (ops id l env).

Lemma device_steps_ok k st id l env j :
  stream_ok st → id ≤ 1 → sending st id l env j →
  ∃ st', device_steps k st = Ok st' ∧ stream_ok st' ∧ sending st' id l env (6 `min` (j + k)) ∧ same_fill st st'.
Proof.
  intros Hok Hid (Hlen & Hl & Hh & Henv & Hj & Hst & Hq). unfold device_steps. rewrite Hq.
  destruct (exec_ops_ok k st id l env j) as (st1 & -> & Hok1 & Hst1 & Hs1 & Hq1); [done..|].
  cbn [mbind outcome_bind]. eexists. split; [done|]. split; [by destruct Hok1 as [[] ? ?]; constructor|]. split; [|exact Hs1].
  split; [done|]. split; [done|]. split; [by apply (half_ok_same st)|]. split; [done|]. split; [lia|].
  split; [by replace (6 `min` (j + k)) with ((6 `min` (j + k)) `max` j) by lia|].
  cbn [queue set_queue]. rewrite drop_drop. destruct (decide (j + k ≤ 6)).
  - by replace (6 `min` (j + k)) with (j + k) by lia.
  - rewrite !drop_ge; [done|rewrite length_ops; lia..].
Qed.

Lemma synchronize_ok st id l env j :
  stream_ok st → id ≤ 1 → sending st id l env j →
  ∃ st', cudaStreamSynchronize st = Ok st' ∧ stream_ok st' ∧ queue st' = [] ∧ slices (h_buckets (host st')) l ∧
    half_ok (host st') id l ∧ same_fill st st'.
Proof.
  intros Hok Hid Hsend. pose proof Hsend as (_ & _ & _ & _ & Hj & _ & Hq). unfold cudaStreamSynchronize.
  destruct (device_steps_ok (length (queue st)) st id l env j Hok Hid Hsend) as (st' & Hrun & Hok' & Hsend' & Hs).
  exists st'. split; [done|]. split; [done|]. rewrite Hq, length_drop, length_ops in Hsend'.
  replace (6 `min` (j + (6 - j))) with 6 in Hsend' by lia.
  destruct Hsend' as (_ & _ & Hh & _ & _ & Hst & Hq'). split; [done|].
  destruct Hst as (_ & _ & Hb). split; [by apply Hb|]. by split.
Qed.

(** *** The host's writes *)

(** Two host memories with the same half [id]. *)
Definition same_half (h h' : HostBuffers) (id : nat) : Prop :=
  (∀ x, x < lim * bsize → h_edgeUpdates h' !! (id * lim * bsize + x) = h_edgeUpdates h !! (id * lim * bsize + x)) ∧
  (∀ i, i < lim → h_update_sizes h' !! (id * lim + i) = h_update_sizes h !! (id * lim + i) ∧
     h_update_src h' !! (id * lim + i) = h_update_src h !! (id * lim + i) ∧
     h_update_start_index h' !! (id * lim + i) = h_update_start_index h !! (id * lim + i)) ∧
  h_buckets h' = h_buckets h.

Lemma half_ok_same_half h h' id l :
  same_half h h' id → length l ≤ lim → Forall batch_fits l → half_ok h id l → half_ok h' id l.
Proof.
  intros (He & Hi & _) Hlen Hl Hh i b Hib. pose proof (offs_le l Hl) as Hoffs.
  assert (offs l ≤ lim * bsize) as Hoffs' by nia. clear Hoffs.
  pose proof (lookup_lt_Some _ _ _ Hib). destruct (Hh i b Hib) as (E1 & E2 & E3 & E4).
  destruct (Hi i) as (-> & -> & ->); [lia|]. split_and!; [done|done|done|]. intros k d Hk.
  rewrite <- (E4 k d Hk), <- Nat.add_assoc. rewrite He, Nat.add_assoc; [done|].
  pose proof (lookup_lt_Some _ _ _ Hk) as Hkl. pose proof (offs_middle l i b Hib). lia.
Qed.

Lemma copied_same_half st st' id l j :
  same_half (host st) (host st') id → d_input st' = d_input st → length l ≤ lim → Forall batch_fits l →
  copied st id l j → copied st' id l j.
Proof.
  intros (He & Hi & _) Hinp Hlen Hl (G1 & G2 & G3 & G4). pose proof (offs_le l Hl) as Hoffs.
  assert (offs l ≤ lim * bsize) as Hoffs' by nia. clear Hoffs. unfold copied. cbn zeta. rewrite Hinp. split_and!.
  - intros Hj1 x Hx. rewrite He by lia. by apply G1.
  - intros Hj1 i Hil. destruct (Hi i) as (-> & _ & _); [lia|]. by apply G2.
  - intros Hj1 i Hil. destruct (Hi i) as (_ & -> & _); [lia|]. by apply G3.
  - intros Hj1 i Hil. destruct (Hi i) as (_ & _ & ->); [lia|]. by apply G4.
Qed.

Lemma sending_same_half st st' id l env j :
  same_half (host st) (host st') id → d_input st' = d_input st → d_buckets st' = d_buckets st →
  queue st' = queue st → sending st id l env j → sending st' id l env j.
Proof.
  intros Hsame Hinp Hdb Hq (Hlen & Hl & Hh & Henv & Hj & (Hc & G5 & G6) & Hqq).
  split; [done|]. split; [done|]. split; [by eapply half_ok_same_half|]. split; [done|]. split; [done|].
  split; [|by rewrite Hq]. split; [by eapply copied_same_half|]. destruct Hsame as (_ & _ & Hb). rewrite Hdb, Hb. by split.
Qed.

Lemma fill_batch_ok st cur b :
  stream_base st → batch_count st = length cur → length cur < lim →
  batch_offset st = buffer_id st * lim * bsize + offs cur →
  half_ok (host st) (buffer_id st) cur → Forall batch_fits cur → batch_fits b →
  ∃ st', fill_batch b.1 b.2 st = Ok st' ∧ stream_base st' ∧
    buffer_id st' = buffer_id st ∧ batch_count st' = length (cur ++ [b]) ∧
    batch_offset st' = buffer_id st * lim * bsize + offs (cur ++ [b]) ∧ first_buffer st' = first_buffer st ∧
    half_ok (host st') (buffer_id st) (cur ++ [b]) ∧
    same_half (host st) (host st') (Nat.lxor (buffer_id st) 1) ∧
    d_input st' = d_input st ∧ d_buckets st' = d_buckets st ∧ queue st' = queue st.
Proof.
  intros Hok Hcount Hcur Hoff Hh Hfits Hb. pose proof Hok as [Hg Hp [Hbs Hlm] Hid He Hsz Hsr Hs Hde Hdsz Hdsr Hdst].
  pose proof (offs_le cur Hfits) as Hoffs. destruct Hb as [Hlb _].
  assert (offs cur + length b.2 ≤ lim * bsize) as Hroom by nia.
  assert (buffer_id st * lim * bsize + lim * bsize ≤ 2 * lim * bsize) as Hhalf by nia.
  assert (buffer_id st * lim + length cur < 2 * lim) as Hidx by nia.
  unfold fill_batch. rewrite Hoff, Hcount, Hbs, Hlm.
  destruct (write_range_ok (h_edgeUpdates (host st)) (buffer_id st * lim * bsize + offs cur) b.2)
    as (edges & -> & Hel & Hew & Heo); [lia|]. cbn [mbind outcome_bind].
  rewrite !arr_set_Ok by lia. cbn [mbind outcome_bind].
  eexists. split; [done|]. split; [constructor; cbn; rewrite ?length_insert; try done; lia|].
  cbn. split; [done|]. split; [rewrite length_app; cbn; lia|].
  split; [rewrite offs_app; unfold offs at 3; cbn; lia|]. split; [done|]. split; [|split; [|done]].
  - intros i b' Hib. apply lookup_app_Some in Hib as [Hib|[Hge Hib]]; cbn.
    + pose proof (lookup_lt_Some _ _ _ Hib). destruct (Hh i b' Hib) as (E1 & E2 & E3 & E4).
      rewrite !list_lookup_insert_ne, take_app_le by lia. split_and!; [done..|].
      intros k d Hk. rewrite <- (E4 k d Hk). apply Heo. left. pose proof (lookup_lt_Some _ _ _ Hk).
      pose proof (offs_middle cur i b' Hib). lia.
    + apply list_lookup_singleton_Some in Hib as [Hi' <-]. replace i with (length cur) by lia.
      rewrite !list_lookup_insert_eq, take_app_length by lia. split_and!; [done|done|f_equal; lia|]. intros k d Hk. by apply Hew.
  - split; [|split; [|done]]; cbn.
    + intros x Hx. apply Heo. destruct (buffer_id st) as [|[|]]; [| |lia]; cbn; [right|left]; nia.
    + intros i Hi'. rewrite !list_lookup_insert_ne; [done|..]; destruct (buffer_id st) as [|[|]]; cbn in *; lia.
Qed.

(** *** The whole stream *)

Context {A : Type} `{RawBucketsAlg A}.

(** The deltas of batches, applied in order to the sketches of their nodes. *)
Definition apply_all l (a : A) : outcome A :=
  outcome_fold (λ a b, alg_apply_raw_buckets_update (N.to_nat (u32 (N.of_nat (graph * nodes + b.1)))) (delta b) a) a l.

Lemma apply_all_app l l' a : apply_all (l ++ l') a = (a' ← apply_all l a; apply_all l' a').
Proof. apply outcome_fold_app. Qed.

Lemma apply_deltas_ok st id l a :
  stream_ok st → half_ok (host st) id l → slices (h_buckets (host st)) l → length l ≤ lim →
  apply_deltas st (id * lim) (length l) a = apply_all l a.
Proof.
  intros Hok Hh Hsl Hlen. pose proof Hok as [[[Hg Hn] [Hp _] _ _ _ _ _ _ _ _ _ _] Hbk _].
  unfold apply_deltas, apply_all. apply outcome_fold_seq. intros i b a' Hib. cbn [Nat.add].
  pose proof (lookup_lt_Some _ _ _ Hib). destruct (Hh i b Hib) as (Hsrc & _).
  unfold apply_delta. rewrite (arr_get_Ok _ _ _ Hsrc). cbn [mbind outcome_bind]. unfold sketch_of.
  rewrite Hg, Hn, Hp. cbn [p_num_buckets sketch_params]. rewrite decide_True by nia.
  by rewrite (Hsl i b Hib).
Qed.

(** [prev] was sent last, [cur] is in the current half. *)
Record sinv st (prev cur : list (nat * list nat)) : Prop := {
  si_ok : stream_ok st;
  si_count : batch_count st = length cur;
  si_lim : length cur ≤ lim;
  si_offset : batch_offset st = buffer_id st * lim * bsize + offs cur;
  si_half : half_ok (host st) (buffer_id st) cur;
  si_fits : Forall batch_fits cur;
  si_first : first_buffer st = bool_decide (prev = []);
  si_prev : prev = [] ∧ queue st = [] ∨
    length prev = lim ∧ ∃ env j, sending st (Nat.lxor (buffer_id st) 1) prev env j;
}.

Lemma device_steps_nil k st : queue st = [] → device_steps k st = Ok st.
Proof. destruct st. cbn. intros ->. unfold device_steps. cbn. by rewrite take_nil, drop_nil. Qed.

Lemma device_steps_sinv k st prev cur :
  sinv st prev cur → ∃ st', device_steps k st = Ok st' ∧ sinv st' prev cur.
Proof.
  intros Hinv. pose proof Hinv as [Hok Hc Hl Ho Hh Hf Hfb [[Hp Hq]|(Hp & env & j & Hs)]].
  { exists st. split; [by apply device_steps_nil|done]. }
  pose proof (lxor_le _ (sk_id _ (so_base _ Hok))) as [Hid _].
  destruct (device_steps_ok k st _ _ _ _ Hok Hid Hs) as (st' & Hrun & Hok' & Hs' & Hsame).
  exists st'. split; [done|]. pose proof Hsame as (Hid' & Ho' & Hc' & Hfb' & _).
  constructor; rewrite ?Hid', ?Ho', ?Hc', ?Hfb'; try done; [by eapply half_ok_same|]. right. eauto.
Qed.

(** What waiting for the device gives. *)
Lemma synchronize_sinv st prev cur :
  sinv st prev cur →
  ∃ st', cudaStreamSynchronize st = Ok st' ∧ sinv st' prev cur ∧ queue st' = [] ∧
    (∀ a, prev ≠ [] → apply_deltas st' (Nat.lxor (buffer_id st') 1 * lim) lim a = apply_all prev a).
Proof.
  intros Hinv. pose proof Hinv as [Hok Hc Hl Ho Hh Hf Hfb [[Hp Hq]|(Hp & env & j & Hs)]].
  { exists st. split; [by apply device_steps_nil|]. split_and!; [done|done|]. by intros a []. }
  pose proof (lxor_le _ (sk_id _ (so_base _ Hok))) as [Hid _].
  destruct (synchronize_ok st _ _ _ _ Hok Hid Hs) as (st' & Hrun & Hok' & Hq' & Hsl & Hh' & Hsame).
  exists st'. split; [done|]. pose proof Hsame as (Hid' & Ho' & Hc' & Hfb' & _).
  destruct (device_steps_sinv (length (queue st)) st prev cur Hinv) as (st2 & Hrun2 & Hinv2).
  unfold cudaStreamSynchronize in Hrun. rewrite Hrun2 in Hrun. injection Hrun as <-.
  split; [done|]. split; [done|]. intros a _. rewrite Hid'.
  rewrite <- Hp at 2. apply apply_deltas_ok; [done..|lia].
Qed.

(** A half of full or remaining batches goes to the device. *)
Lemma send_buffer_ok st cur env :
  stream_ok st → queue st = [] → batch_offset st = buffer_id st * lim * bsize + offs cur → length cur ≤ lim →
  half_ok (host st) (buffer_id st) cur → Forall batch_fits cur → env_ok env →
  stream_ok (send_buffer (length cur) env st) ∧ sending (send_buffer (length cur) env st) (buffer_id st) cur env 0.
Proof.
  intros Hok Hq Ho Hl Hh Hf Henv. pose proof Hok as [[Hg [Hp _] [Hbs Hlm] Hid He Hsz Hsr Hs Hde Hdsz Hdsr Hdst] Hbk Hdb].
  split; [destruct Hok as [[] ? ?]; constructor; [by constructor|done|done]|]. split; [done|]. split; [done|]. split; [done|]. split; [done|]. split; [lia|].
  split; [unfold stage, copied; cbn zeta; split_and!; intros ?; lia|]. cbn [queue set_queue send_buffer]. rewrite Hq, Hp, Hbs, Hlm, Ho.
  cbn [p_num_buckets sketch_params app drop].
  by rewrite Nat.add_comm, Nat.add_sub.
Qed.

Lemma process_batch_step k env st a prev cur b :
  sinv st prev cur → length cur < lim → batch_fits b → env_ok env →
  (length cur + 1 < lim ∧ ∃ st', process_batch k env b.1 b.2 st a = Ok (st', a) ∧ sinv st' prev (cur ++ [b])) ∨
  (length cur + 1 = lim ∧ ∃ st', process_batch k env b.1 b.2 st a = (a' ← apply_all prev a; Ok (st', a')) ∧
     sinv st' (cur ++ [b]) []).
Proof.
  intros Hinv Hroom Hb Henv. unfold process_batch.
  destruct (device_steps_sinv k st prev cur Hinv) as (st1 & -> & Hinv1). cbn [mbind outcome_bind].
  pose proof Hinv1 as [Hok Hc Hl Ho Hh Hf Hfb Hprev].
  destruct (fill_batch_ok st1 cur b (so_base _ Hok)) as (st2 & Hfill & Hbase2 & Hid2 & Hc2 & Ho2 & Hfb2 & Hh2 & Hsame & Hdi & Hdb & Hq2); try done.
  unfold process_batch_default. rewrite Hfill. cbn [mbind outcome_bind].
  assert (stream_ok st2) as Hok2.
  { destruct Hok as [_ Hb1 Hb2], Hsame as (_ & _ & Hhb). constructor; [done|by rewrite Hhb|by rewrite Hdb]. }
  pose proof (sk_batch _ (so_base _ Hok2)) as [Hbs2 Hlm2].
  assert (sinv st2 prev (cur ++ [b])) as Hinv2.
  { constructor; rewrite ?Hid2, ?Hfb2; try done.
    - rewrite length_app. cbn. lia.
    - apply list.Forall_app. by split; [|apply list.Forall_singleton].
    - destruct Hprev as [[-> Hq]|(Hp & env' & j & Hs)]; [left; by rewrite Hq2|]. right. split; [done|].
      exists env', j. by apply (sending_same_half st1). }
  rewrite length_app in Hc2. cbn [length] in Hc2.
  destruct (decide (length cur + 1 = lim)) as [Hfull|Hmore]; [right|left].
  2: { rewrite decide_False by lia. split; [lia|]. by exists st2. }
  split; [done|]. rewrite decide_True by lia.
  destruct (synchronize_sinv st2 prev (cur ++ [b]) Hinv2) as (st3 & -> & Hinv3 & Hq3 & Happ). cbn [mbind outcome_bind].
  pose proof Hinv3 as [Hok3 Hc3 Hl3 Ho3 Hh3 Hf3 Hfb3 _]. pose proof (sk_batch _ (so_base _ Hok3)) as [Hbs3 Hlm3].
  assert ((if first_buffer st3 then Ok a else apply_deltas st3 (Nat.lxor (buffer_id st3) 1 * batch_limit st3) (batch_limit st3) a)
          = apply_all prev a) as ->.
  { rewrite Hfb3, Hlm3. case_bool_decide as Hp; [by subst prev|]. by apply Happ. }
  rewrite Hc3. destruct (send_buffer_ok st3 (cur ++ [b]) env) as [Hok4 Hs4]; [done..|].
  pose proof (lxor_le _ (sk_id _ (so_base _ Hok3))) as [Hle Hinvol].
  pose proof (sk_batch _ (so_base _ Hok4)) as [Hbs4 Hlm4]. eexists. split; [done|]. rewrite Hlm4, Hbs4.
  constructor; cbn [buffer_id batch_offset batch_count first_buffer set_fill host]; try done.
  - destruct Hok4 as [[] ? ?]. by constructor; [constructor|..].
  - cbn. lia.
  - rewrite bool_decide_eq_false_2; [done|]. by destruct cur.
  - right. split; [rewrite length_app; cbn; lia|]. exists env, 0. rewrite Hinvol.
    destruct Hs4 as (G1 & G2 & G3 & G4 & G5 & G6 & G7). by split_and!.
Qed.

(** A call: the progress of the device before it, what is open of the launch it may
    make, and its batch. *)
Implicit Types (calls : list (nat * LaunchEnv * (nat * list nat))).

Definition call_ok (c : nat * LaunchEnv * (nat * list nat)) : Prop := env_ok c.1.2 ∧ batch_fits c.2.

Definition process_call (x : CudaStream * A) (c : nat * LaunchEnv * (nat * list nat)) : outcome (CudaStream * A) :=
  process_batch c.1.1 c.1.2 c.2.1 c.2.2 x.1 x.2.

Lemma process_calls calls st a prev cur :
  sinv st prev cur → length cur < lim → Forall call_ok calls →
  ∃ st' before prev' cur', prev ++ cur ++ calls.*2 = before ++ prev' ++ cur' ∧
    outcome_fold process_call (st, a) calls = (a' ← apply_all before a; Ok (st', a')) ∧
    sinv st' prev' cur' ∧ length cur' < lim ∧ (prev' = [] → prev = [] ∧ before = []).
Proof.
  intros Hinv Hl Hcalls. revert st a prev cur Hinv Hl.
  induction Hcalls as [|[[k env] b] calls [Henv Hb] _ IH]; intros st a prev cur Hinv Hl.
  { exists st, [], prev, cur. by rewrite app_nil_r. }
  cbn [outcome_fold fmap list_fmap snd]. unfold process_call at 2. cbn [fst snd].
  destruct (process_batch_step k env st a prev cur b Hinv Hl Hb Henv)
    as [(Hm & st' & -> & Hinv')|(Hm & st' & -> & Hinv')]; cbn [mbind outcome_bind].
  - destruct (IH st' a prev (cur ++ [b]) Hinv') as (st2 & before & prev' & cur' & Heq & Hrun & Hrest).
    { rewrite length_app. cbn. lia. }
    exists st2, before, prev', cur'. rewrite <- Heq, <- app_assoc. done.
  - set (a1 := match apply_all prev a with Ok a' => a' | Throw _ => a end).
    destruct (IH st' a1 (cur ++ [b]) [] Hinv') as (st2 & before & prev' & cur' & Heq & Hrun & Hi2 & Hl2 & Hb2); [cbn; lia|].
    exists st2, (prev ++ before), prev', cur'. split; [|split; [|split; [done|split; [done|]]]].
    + rewrite <- !app_assoc, <- Heq. cbn. by rewrite <- app_assoc.
    + rewrite apply_all_app. subst a1. by destruct (apply_all prev a).
    + intros Hp. destruct (Hb2 Hp) as [Hnil _]. by destruct cur.
Qed.

Lemma stream_flush_ok env st prev cur a :
  sinv st prev cur → length cur < lim → prev ≠ [] → env_ok env →
  (x ← flush_buffers_default env st a; Ok x.2) = apply_all (prev ++ cur) a.
Proof.
  intros Hinv Hl Hprev Henv. unfold flush_buffers_default.
  destruct (synchronize_sinv st prev cur Hinv) as (st1 & -> & Hinv1 & Hq1 & Happ). cbn [mbind outcome_bind].
  pose proof Hinv1 as [Hok1 Hc1 _ Ho1 Hh1 Hf1 _ _]. pose proof (sk_batch _ (so_base _ Hok1)) as [Hbs Hlm].
  rewrite Hlm, Happ by done. rewrite apply_all_app. destruct (apply_all prev a) as [a'|e]; [|done].
  cbn [mbind outcome_bind]. rewrite Hc1. destruct cur as [|b cur]; [done|]. rewrite decide_False by done.
  destruct (send_buffer_ok st1 (b :: cur) env) as [Hok2 Hs2]; [done|done|done|lia|done|done|done|].
  destruct (synchronize_ok _ _ _ _ _ Hok2 (sk_id _ (so_base _ Hok1)) Hs2) as (st3 & -> & Hok3 & _ & Hsl3 & Hh3 & Hsame).
  cbn [mbind outcome_bind]. destruct Hsame as (Hid & _ & Hc & _). cbn in Hid, Hc. pose proof (sk_batch _ (so_base _ Hok3)) as [_ Hlm3].
  rewrite Hid, Hc, Hc1, Hlm3, (apply_deltas_ok _ _ (b :: cur)); [|done..|lia].
  by destruct (apply_all (b :: cur) a').
Qed.

(** A new stream, with device memory of the right sizes. *)
Lemma new_CudaStream_base junk junk_buckets junk_h_buckets :
  length (edgeUpdates junk) = lim * bsize → length (update_sizes junk) = lim →
  length (update_src junk) = lim → length (update_start_index junk) = lim →
  stream_base (new_CudaStream graph nodes T bsize lim (sketch_params s) junk junk_buckets junk_h_buckets).
Proof. intros Je Js Jr Jt. constructor; cbn; rewrite ?length_replicate; try done; lia. Qed.

Lemma new_CudaStream_sinv junk junk_buckets junk_h_buckets :
  length (edgeUpdates junk) = lim * bsize → length (update_sizes junk) = lim →
  length (update_src junk) = lim → length (update_start_index junk) = lim →
  length junk_buckets = nb * lim → length junk_h_buckets = nb * lim →
  sinv (new_CudaStream graph nodes T bsize lim (sketch_params s) junk junk_buckets junk_h_buckets) [] [].
Proof.
  intros Je Js Jr Jt Jd Jh. constructor; try done; [|cbn; lia|by left].
  constructor; [by apply new_CudaStream_base|cbn; by rewrite ?Jh|cbn; by rewrite ?Jd].
Qed.

(** Batches one after the other, and a flush. *)
Definition stream_then_flush calls (env : LaunchEnv) st (a : A) : outcome A :=
  x ← outcome_fold process_call (st, a) calls;
  x ← flush_buffers_default env x.1 x.2; Ok x.2.

Lemma stream_then_flush_ok calls env st a :
  sinv st [] [] → lim ≤ length calls → Forall call_ok calls → env_ok env →
  stream_then_flush calls env st a = apply_all calls.*2 a.
Proof.
  intros Hinv Hlen Hcalls Henv. unfold stream_then_flush.
  destruct (process_calls calls st a [] [] Hinv Hlim Hcalls) as (st' & before & prev & cur & Heq & -> & Hinv' & Hl & Hb).
  cbn [app] in Heq. rewrite Heq, apply_all_app. destruct (apply_all before a) as [a'|e]; [|done]. cbn [mbind outcome_bind fst snd].
  apply stream_flush_ok; try done. intros ->. destruct Hb as [_ ->]; [done|].
  apply (f_equal length) in Heq. rewrite length_fmap in Heq. cbn in Heq. lia.
Qed.
End stream.
