(* ===== verification/CudaStreamProps.v ===== *)
(** * Properties of the stream to the GPU: src/include/cuda_stream.h *)

From Stdlib Require Import NArith Lia.
From stdpp Require Import base list gmap sets numbers.
From S2P Require Import Prelude Float64 Util Bucket Sketch XXHash Concrete SketchSpec CudaKernel CudaKernelSpec CudaStream CudaStreamSpec.

(** C15. Whenever the device runs the operations the host has queued (any number of them
    before each call), under any schedule of its threads and whatever its memory holds
    at the start, a stream that is given at least one half of batches and then flushed
    once applies the delta of every batch to the sketch of its node exactly once, in
    order: the outcome is that of applying the deltas directly, the algorithm's own
    errors included, and no buffer is accessed out of bounds. *)
Theorem stream_applies_each_batch_once `{BuildConfig, Hashing} {A} `{RawBucketsAlg A}
    s graph nodes T bsize lim junk junk_buckets junk_h_buckets calls env (a : A) :
  L0_SAMPLING = false → device_hash_agrees → sketch_wf s → 0 < num_columns s → 0 < T → 0 < lim →
  length (edgeUpdates junk) = lim * bsize → length (update_sizes junk) = lim →
  length (update_src junk) = lim → length (update_start_index junk) = lim →
  length junk_buckets = num_buckets s * lim → length junk_h_buckets = num_buckets s * lim →
  Forall (call_ok s bsize) calls → env_ok s env → lim ≤ length calls →
  stream_then_flush calls env
      (new_CudaStream graph nodes T bsize lim (sketch_params s) junk junk_buckets junk_h_buckets) a =
    apply_all s graph nodes calls.*2 a.
Proof.
  intros Hcameo Hagree Hwf Hcols HT Hlim Je Js Jr Jt Jd Jh Hcalls Henv Hlen.
  apply (stream_then_flush_ok Hcameo Hagree s Hwf Hcols graph nodes T bsize lim HT Hlim); try done.
  by apply new_CudaStream_sinv.
Qed.

Section examples.
#[local] Existing Instances default_build integral_libm xxh3_hashing.

(** An algorithm that only records the deltas it is given. *)
#[local] Instance log_alg : RawBucketsAlg (list (nat * list Bucket)) :=
  {| alg_apply_raw_buckets_update v raw log := Ok (log ++ [(v, raw)]) |}.

Definition example_env : LaunchEnv :=
  mkEnv (λ _, ([1; 0; 1], [1; 1; 0])) [3; 1; 0] (mkShared (replicate 9 5%N) (replicate 9 6%N)).

(** A stream with halves of two batches, each of at most two updates. *)
Definition example_stream : CudaStream :=
  new_CudaStream 0 3 2 2 2 (sketch_params example_shape)
    (mkInput [9; 9] [9; 9] [9; 9] [9; 9; 9; 9]) (replicate 18 (mkBucket 3 4)) (replicate 18 (mkBucket 5 6)).

Definition example_calls : list (nat * LaunchEnv * (nat * list nat)) :=
  [(0, example_env, (0, [1; 2])); (2, example_env, (2, [0; 1])); (3, example_env, (0, [2]))].

Lemma example_calls_ok : Forall (call_ok example_shape 2) example_calls.
Proof.
  assert (num_buckets example_shape = 9) as Hnb by by vm_compute.
  assert (env_ok example_shape example_env) as Henv by (unfold env_ok; rewrite Hnb; done).
  repeat constructor; try done; cbn; lia.
Qed.

Lemma stream_applies_each_batch_once_witness :
  stream_then_flush example_calls example_env example_stream [] =
    apply_all example_shape 0 3 [(0, [1; 2]); (2, [0; 1]); (0, [2])] [].
Proof.
  assert (num_buckets example_shape = 9) as Hnb by by vm_compute.
  assert (sketch_wf example_shape) as Hwf by (apply new_sketch_wf; exact example_bkt).
  apply (stream_applies_each_batch_once example_shape 0 3 2 2 2 _ _ _ example_calls example_env []);
    rewrite ?Hnb; try done; try lia;
    [vm_compute; lia|exact example_calls_ok|cbn; lia].
Defined.

(** The nodes whose sketches the deltas after one and after two flushes went to. A
    second flush applies the last half and the rest again: it does not see that
    they were applied. *)
Definition flush_twice (calls : list (nat * LaunchEnv * (nat * list nat))) :
    outcome (list nat * list nat) :=
  x ← outcome_fold process_call (example_stream, []) calls;
  y ← flush_buffers_default example_env x.1 x.2;
  z ← flush_buffers_default example_env y.1 y.2;
  Ok (y.2.*1, z.2.*1).

Lemma second_flush_applies_again :
  flush_twice example_calls = Ok ([0; 2; 0], [0; 2; 0; 0; 2; 0]).
Proof. by vm_compute. Qed.

(** A flush before the first half was sent applies what [h_buckets] held when it
    was allocated to the sketch of the graph's first node. *)
Lemma early_flush_applies_junk :
  (x ← outcome_fold process_call (example_stream, []) [(0, example_env, (2, [0; 1]))];
   y ← flush_buffers_default example_env x.1 x.2; Ok (take 2 y.2)) =
  Ok (replicate 2 (0, replicate 9 (mkBucket 5 6))).
Proof. by vm_compute. Qed.
End examples.
