(* ===== verification/CCGpu.v ===== *)
(** * Connected components with sketches updated on the GPU: src/src/cc_gpu_sketch_alg.cpp

    Class [CCGPUSketchAlg] is [CCSketchAlg] with a stream to the GPU per worker thread,
    for sketches in host memory. A worker's call is one step, and so is the flush of one
    stream; what the GPU does in between is part of the next step of its stream. *)

From Stdlib Require Import NArith Lia.
From stdpp Require Import base list gmap sets numbers.
From S2P Require Import Prelude Float64 Util Bucket Sketch XXHash Dsu Configuration CCSketchAlg CudaKernel CudaStream.

(** A stream gives its deltas to the algorithm it belongs to. *)
#[export] Instance cc_raw_buckets : RawBucketsAlg CCSketchAlg :=
  {| alg_apply_raw_buckets_update v raw c := apply_raw_buckets_update c v raw |}.

Record CCGPUSketchAlg := mkCCGpu {
  cc_base : CCSketchAlg;
  small_batch_size : nat;
  cudaStreams : list CudaStream;
}.

Definition set_base (g : CCGPUSketchAlg) (c : CCSketchAlg) : CCGPUSketchAlg :=
  mkCCGpu c (small_batch_size g) (cudaStreams g).
Definition set_stream (g : CCGPUSketchAlg) (thr_id : nat) (st : CudaStream) : CCGPUSketchAlg :=
  mkCCGpu (cc_base g) (small_batch_size g) (<[thr_id := st]> (cudaStreams g)).

Section ops.
Context `{BuildConfig, Libm, Hashing}.

(** The parameters of the kernels, as the tool that processes a stream computes them. *)
Definition tool_sketch_params (num_nodes : nat) (sd : N) : SketchParams :=
  let num_samples := calc_cc_samples (N.of_nat num_nodes) d_one in
  let num_columns := num_samples * default_cols_per_sample in
  let bkt_per_col := calc_bkt_per_col (calc_vector_length (N.of_nat num_nodes)) in
  mkParams (num_columns * bkt_per_col + 1) num_columns bkt_per_col sd.

Definition small_batch_perc : double := d_zero.

(** The constructor; [junk] is what the memory of each stream's buffers holds. *)
Definition new_CCGPUSketchAlg (num_nodes : nat) (prio : list N) (num_threads num_batch_per_buffer : nat)
    (params : SketchParams) (cfg : CCAlgConfiguration) (junk : nat → DeviceInput * list Bucket * list Bucket)
    : outcome CCGPUSketchAlg :=
  let c := new_CCSketchAlg num_nodes (p_seed params) prio cfg in
  batch_size ← get_desired_updates_per_batch c;
  Ok (mkCCGpu c (N.to_nat (trunc_to_N (dmul (of_N batch_size) small_batch_perc)))
    ((λ thr_id, new_CudaStream 0 num_nodes 1024 (N.to_nat batch_size) num_batch_per_buffer params
        (junk thr_id).1.1 (junk thr_id).1.2 (junk thr_id).2) <$> seq 0 num_threads)).

(** The driver allocates the workers' scratch sketches. *)
Definition gpu_allocate_worker_memory (g : CCGPUSketchAlg) (num_workers : nat) : CCGPUSketchAlg :=
  set_base g (allocate_worker_memory (cc_base g) num_workers).

(** A worker's call. Before it the GPU does [progress] of the operations of the worker's
    stream, and [env] is what is open about a launch. *)
Definition gpu_apply_update_batch (thr_id progress : nat) (env : LaunchEnv) (src_vertex : nat)
    (dst_vertices : list nat) (g : CCGPUSketchAlg) : outcome CCGPUSketchAlg :=
  if update_locked (cc_base g) then Throw UpdateLockedException
  else if decide (length dst_vertices ≤ small_batch_size g) then
    c ← apply_update_batch (cc_base g) thr_id src_vertex dst_vertices;
    Ok (set_base g c)
  else
    st ← arr_get (cudaStreams g) thr_id;
    x ← process_batch progress env src_vertex dst_vertices st (cc_base g);
    Ok (set_stream (set_base g x.2) thr_id x.1).

(** The task of one of the threads that flush the streams. *)
Definition flush_stream_task (env : nat → LaunchEnv) (g : CCGPUSketchAlg) (thr_id : nat) : outcome CCGPUSketchAlg :=
  st ← arr_get (cudaStreams g) thr_id;
  x ← flush_buffers_default (env thr_id) st (cc_base g);
  Ok (set_stream (set_base g x.2) thr_id x.1).

(** The threads run in any order. *)
Definition gpu_flush_buffers (env : nat → LaunchEnv) (order : list nat) (g : CCGPUSketchAlg) : outcome CCGPUSketchAlg :=
  outcome_fold (flush_stream_task env) g order.
End ops.

(** *** Calls of the workers *)

Record GpuCall := mkCall {
  gc_thr : nat;
  gc_progress : nat;
  gc_env : LaunchEnv;
  gc_batch : nat * list nat;
}.

Definition gpu_call `{BuildConfig, Hashing} (g : CCGPUSketchAlg) (c : GpuCall) : outcome CCGPUSketchAlg :=
  gpu_apply_update_batch (gc_thr c) (gc_progress c) (gc_env c) (gc_batch c).1 (gc_batch c).2 g.

Definition gpu_run `{BuildConfig, Hashing} (calls : list GpuCall) (g : CCGPUSketchAlg) : outcome CCGPUSketchAlg :=
  outcome_fold gpu_call g calls.
