(* ===== verification/CCGpuSpec.v ===== *)
(** * The GPU's sketches are those of the stream: src/src/cc_gpu_sketch_alg.cpp

    The batches of the calls so far are those applied to the sketches of
    [CCSketchAlg] and those that the workers' streams still hold. *)

From Stdlib Require Import NArith Lia.
From stdpp Require Import base list gmap sets numbers.
From S2P Require Import Prelude Float64 Util Bucket Sketch XXHash Concrete SketchSpec Dsu Graph Configuration CCSketchAlg CudaKernel CudaKernelSpec CudaStream CudaStreamSpec CCGpu.

Section gpu.
Context `{BuildConfig, Libm, Hashing}.
Context (Hcameo : L0_SAMPLING = false) (Hagree : device_hash_agrees).
Context (s : Sketch) (Hwf : sketch_wf s) (Hcols : 0 < num_columns s).
Context (n bsize lim workers small : nat) (n_ok : (N.of_nat n ≤ 2 ^ 32)%N) (Hlim : 0 < lim).

(** The number of scratch sketches, which only small batches use. *)
Context (scratch : nat).
Implicit Types (g : CCGPUSketchAlg) (l : list (nat * list nat)).

Lemma vertex_edges_app l l' v : vertex_edges (l ++ l') v = vertex_edges l v ++ vertex_edges l' v.
Proof. unfold vertex_edges. apply bind_app. Qed.

Lemma vertex_edges_single b v :
  vertex_edges [b] v = if decide (b.1 = v) then concat_pairing_fn b.1 <$> b.2 else [].
Proof. unfold vertex_edges. cbn. by rewrite app_nil_r. Qed.

Lemma vertex_edges_perm l l' v : l ≡ₚ l' → vertex_edges l v ≡ₚ vertex_edges l' v.
Proof. intros Hp. unfold vertex_edges. by rewrite Hp. Qed.

Lemma toggle_vertex_edges_cons b l v (X : gset N) :
  toggle_all (vertex_edges (b :: l) v) X =
  toggle_all (vertex_edges l v) (fun_upd (λ _, X) b.1 (symdiff X (toggle_all (concat_pairing_fn b.1 <$> b.2) ∅)) v).
Proof.
  unfold vertex_edges. cbn [mbind list_bind]. rewrite toggle_all_app. f_equal. unfold fun_upd.
  destruct (decide (b.1 = v)) as [->|Hne].
  - rewrite decide_True by done. apply toggle_all_empty.
  - by rewrite decide_False by done.
Qed.

(** Deltas applied to the algorithm's sketches. *)
Lemma apply_all_sketches l (c : CCSketchAlg) V :
  sketches_ok n (geometry s) V c → Forall (λ b, b.1 < n) l →
  ∃ c', apply_all s 0 n l c = Ok c' ∧ sketches_ok n (geometry s) (λ v, toggle_all (vertex_edges l v) (V v)) c' ∧
    update_locked c' = update_locked c ∧ delta_sketches c' = delta_sketches c.
Proof.
  intros Hok Hl. revert c V Hok. induction Hl as [|b l Hb _ IH]; intros c V Hok.
  { exists c. split; [done|]. by split. }
  unfold apply_all. cbn [outcome_fold Nat.mul Nat.add]. rewrite wrap_small, Nat2N.id by lia.
  cbn [alg_apply_raw_buckets_update cc_raw_buckets].
  destruct (apply_raw_buckets_update_ok n (geometry s) V c b.1 (delta s b)
    (foldl update (zero_contents s) (concat_pairing_fn b.1 <$> b.2)) (toggle_all (concat_pairing_fn b.1 <$> b.2) ∅))
    as (c1 & -> & Hok1 & Hc1); [done|done| | |done|].
  { by apply represents_update_all, represents_zero_contents. }
  { by rewrite geometry_update_all. }
  cbn [mbind outcome_bind]. destruct (IH c1 _ Hok1) as (c' & Hrun & Hok' & Hlk & Hd).
  exists c'. split; [exact Hrun|]. split; [|rewrite Hlk, Hd, Hc1; by split].
  eapply sketches_ok_ext; [|exact Hok']. intros v _. cbn beta.
  rewrite toggle_vertex_edges_cons. unfold fun_upd. by case_decide; subst.
Qed.

(** *** The invariant *)

Abbreviation halves := (list (nat * list nat) * list (nat * list nat))%type.

Definition pending (p : halves) : list (nat * list nat) := p.1 ++ p.2.

Abbreviation stream_inv st p := (sinv s 0 n 1024 bsize lim st p.1 p.2 ∧ length p.2 < lim).

(** The calls of a worker that fill its stream. *)
Definition big_call (thr : nat) (c : GpuCall) : bool :=
  bool_decide (gc_thr c = thr ∧ small < length (gc_batch c).2).

(** [hist] are the calls so far. *)
Record gpu_inv (hist : list GpuCall) (pend : list halves) g : Prop := {
  gi_open : update_locked (cc_base g) = false;
  gi_workers : length (delta_sketches (cc_base g)) = scratch;
  gi_small : small_batch_size g = small;
  gi_streams : Forall2 (λ st p, stream_inv st p) (cudaStreams g) pend;
  gi_pend : length pend = workers;
  gi_count : ∀ i p, pend !! i = Some p → p.1 = [] → length (filter (big_call i) hist) = length p.2;
  gi_sketches : ∃ applied, gc_batch <$> hist ≡ₚ applied ++ concat (pending <$> pend) ∧
    Forall (λ b, b.1 < n) (gc_batch <$> hist) ∧
    sketches_ok n (geometry s) (λ v, toggle_all (vertex_edges applied v) ∅) (cc_base g);
}.

Lemma pending_insert pend i p :
  pend !! i = Some p →
  ∃ rest, concat (pending <$> pend) ≡ₚ pending p ++ rest ∧
    ∀ p', concat (pending <$> <[i := p']> pend) ≡ₚ pending p' ++ rest.
Proof. apply concat_fmap_entry. Qed.

Lemma filter_call_snoc (P : GpuCall → bool) hist (c : GpuCall) :
  filter P (hist ++ [c]) = filter P hist ++ (if P c then [c] else []).
Proof. rewrite list.filter_app. f_equal. by cbn; destruct (P c). Qed.

Definition gpu_call_ok (c : GpuCall) : Prop :=
  gc_thr c < workers ∧ env_ok s (gc_env c) ∧ batch_fits bsize (gc_batch c) ∧ (gc_batch c).1 < n.

Definition scratch_ok (c : GpuCall) : Prop := length (gc_batch c).2 ≤ small → gc_thr c < scratch.

Lemma small_call_step hist pend g (c : GpuCall) :
  gpu_inv hist pend g → gpu_call_ok c → length (gc_batch c).2 ≤ small → gc_thr c < scratch →
  ∃ g', gpu_call g c = Ok g' ∧ gpu_inv (hist ++ [c]) pend g'.
Proof.
  intros [Hopen Hwk Hsm Hst Hpl Hcnt (applied & Hperm & Hsrc & Hsk)] (_ & _ & _ & Hn) Hsmall Hthr.
  unfold gpu_call, gpu_apply_update_batch. rewrite Hopen, Hsm, decide_True by done.
  destruct (apply_update_batch_ok n (geometry s) _ (cc_base g) (gc_thr c) (gc_batch c).1 (gc_batch c).2 Hsk Hn)
    as (c' & -> & Hsk' & Hwk' & Hc'); [lia|done|]. cbn [mbind outcome_bind].
  eexists. split; [done|]. constructor; cbn; try done; [by rewrite Hc'|by rewrite Hwk'| |].
  - intros i p Hp Hnil. rewrite filter_call_snoc.
    assert (big_call i c = false) as -> by (apply bool_decide_eq_false_2; lia). rewrite app_nil_r. by apply Hcnt.
  - exists (applied ++ [gc_batch c]). split; [|split].
    + rewrite fmap_app, Hperm. cbn. solve_Permutation.
    + rewrite fmap_app, list.Forall_app. split; [done|by repeat constructor].
    + eapply sketches_ok_ext; [|exact Hsk']. intros v _. cbn beta. rewrite vertex_edges_app, toggle_all_app.
      rewrite vertex_edges_single. unfold fun_upd. destruct (decide (v = (gc_batch c).1)) as [->|Hv].
      * by rewrite decide_True.
      * by rewrite decide_False by congruence.
Qed.

Lemma forall2_insert_inv streams (pend : list halves) i st (p : halves) :
  Forall2 (λ st p, stream_inv st p) streams pend → stream_inv st p →
  Forall2 (λ st p, stream_inv st p) (<[i := st]> streams) (<[i := p]> pend).
Proof. intros Hst Hp. by apply Forall2_insert. Qed.

(** How the streams' batches count: a stream that was never sent holds all of its worker's. *)
Lemma count_insert hist (pend : list halves) (c : GpuCall) (p p' : halves) :
  (∀ i p, pend !! i = Some p → p.1 = [] → length (filter (big_call i) hist) = length p.2) →
  pend !! gc_thr c = Some p → small < length (gc_batch c).2 →
  (p'.1 = [] → p.1 = [] ∧ length p'.2 = S (length p.2)) →
  ∀ i q, <[gc_thr c := p']> pend !! i = Some q → q.1 = [] → length (filter (big_call i) (hist ++ [c])) = length q.2.
Proof.
  intros Hcnt Hp Hbig Hp' i q Hq Hnil. rewrite filter_call_snoc, length_app.
  destruct (decide (i = gc_thr c)) as [->|Hne].
  - rewrite list_lookup_insert_eq in Hq by (by eapply lookup_lt_Some). injection Hq as <-.
    destruct (Hp' Hnil) as [Hp1 ->]. rewrite (Hcnt _ _ Hp Hp1).
    assert (big_call (gc_thr c) c = true) as -> by (by apply bool_decide_eq_true_2). cbn. lia.
  - rewrite list_lookup_insert_ne in Hq by done. rewrite (Hcnt _ _ Hq Hnil).
    assert (big_call i c = false) as -> by (apply bool_decide_eq_false_2; intros [? _]; congruence). cbn. lia.
Qed.

Lemma big_call_step hist pend g (c : GpuCall) :
  gpu_inv hist pend g → gpu_call_ok c → small < length (gc_batch c).2 →
  ∃ pend' g', gpu_call g c = Ok g' ∧ gpu_inv (hist ++ [c]) pend' g'.
Proof.
  intros [Hopen Hwk Hsm Hst Hpl Hcnt (applied & Hperm & Hsrc & Hsk)] (Hthr & Henv & Hfits & Hn) Hbig.
  unfold gpu_call, gpu_apply_update_batch. rewrite Hopen, Hsm, decide_False by lia.
  destruct (lookup_lt_is_Some_2 pend (gc_thr c)) as [[prev cur] Hp]; [lia|].
  destruct (Forall2_lookup_r _ _ _ _ _ Hst Hp) as (st & Hst1 & Hinv & Hlt). cbn [fst snd] in Hinv, Hlt.
  rewrite (arr_get_Ok _ _ _ Hst1). cbn [mbind outcome_bind].
  destruct (pending_insert pend _ _ Hp) as (rest & Hrest & Hins). rewrite Hrest in Hperm. cbn in Hperm.
  destruct (process_batch_step Hcameo Hagree s Hwf Hcols 0 n 1024 bsize lim (Nat.lt_0_succ _) Hlim (gc_progress c)
    (gc_env c) st (cc_base g) prev cur (gc_batch c) Hinv Hlt Hfits Henv)
    as [(Hm & st' & -> & Hinv')|(Hm & st' & -> & Hinv')].
  - exists (<[gc_thr c := (prev, cur ++ [gc_batch c])]> pend). cbn [mbind outcome_bind]. eexists. split; [done|].
    constructor; cbn; try done.
    + apply forall2_insert_inv; [done|]. split; [done|]. cbn. rewrite length_app. cbn. lia.
    + by rewrite length_insert.
    + eapply count_insert; [done..|]. cbn. intros ->. rewrite length_app. cbn. split; [done|lia].
    + exists applied. rewrite Hins. split; [|split; [|done]].
      * rewrite fmap_app, Hperm. cbn. solve_Permutation.
      * rewrite fmap_app, list.Forall_app. split; [done|by repeat constructor].
  - assert (Forall (λ b, b.1 < n) prev) as Hprev by (rewrite Hperm, !list.Forall_app in Hsrc; naive_solver).
    destruct (apply_all_sketches prev (cc_base g) _ Hsk Hprev) as (c' & -> & Hsk' & Hlk & Hd). cbn [mbind outcome_bind].
    exists (<[gc_thr c := (cur ++ [gc_batch c], [])]> pend). eexists. split; [done|].
    constructor; cbn; try done; [congruence|congruence| | | |].
    + apply forall2_insert_inv; [done|]. split; [done|]. cbn. lia.
    + by rewrite length_insert.
    + eapply count_insert; [done..|]. cbn. by destruct cur.
    + exists (applied ++ prev). rewrite Hins. split; [|split].
      * rewrite fmap_app, Hperm. cbn. solve_Permutation.
      * rewrite fmap_app, list.Forall_app. split; [done|by repeat constructor].
      * eapply sketches_ok_ext; [|exact Hsk']. intros v _. cbn beta. by rewrite vertex_edges_app, toggle_all_app.
Qed.

Lemma gpu_run_ok calls hist pend g :
  gpu_inv hist pend g → Forall (λ c, gpu_call_ok c ∧ scratch_ok c) calls →
  ∃ pend' g', gpu_run calls g = Ok g' ∧ gpu_inv (hist ++ calls) pend' g'.
Proof.
  intros Hinv Hcalls. revert hist pend g Hinv. induction Hcalls as [|c calls [Hc Hscr] _ IH]; intros hist pend g Hinv.
  { exists pend, g. by rewrite app_nil_r. }
  assert (∃ pend' g', gpu_call g c = Ok g' ∧ gpu_inv (hist ++ [c]) pend' g') as (pend1 & g1 & Hrun & Hinv1).
  { destruct (decide (length (gc_batch c).2 ≤ small)).
    - destruct (small_call_step hist pend g c) as (g' & ? & ?); [done..|by apply Hscr|]. by exists pend, g'.
    - apply (big_call_step hist pend g c); [done..|lia]. }
  destruct (IH _ _ _ Hinv1) as (pend' & g' & Hrest & Hinv'). exists pend', g'.
  unfold gpu_run in *. cbn [outcome_fold]. rewrite Hrun. cbn [mbind outcome_bind].
  rewrite cons_middle, app_assoc. done.
Qed.

(** One flush: each stream's batches come to the sketches. *)
Lemma gpu_flush_ok envs order (pend : list halves) g V :
  NoDup order → (∀ i, env_ok s (envs i)) → sketches_ok n (geometry s) V (cc_base g) →
  (∀ i, i ∈ order → ∃ st p, cudaStreams g !! i = Some st ∧ pend !! i = Some p ∧ stream_inv st p ∧ p.1 ≠ [] ∧
     Forall (λ b, b.1 < n) (pending p)) →
  ∃ g', gpu_flush_buffers envs order g = Ok g' ∧
    sketches_ok n (geometry s) (λ v, toggle_all (vertex_edges (i ← order; default [] (pending <$> pend !! i)) v) (V v)) (cc_base g') ∧
    update_locked (cc_base g') = update_locked (cc_base g).
Proof.
  intros Hnd Henv. revert g V. induction Hnd as [|i order Hi _ IH]; intros g V Hsk Hst; [by exists g|].
  destruct (Hst i) as (st & [prev cur] & Hs & Hp & [Hinv Hlt] & Hprev & Hn); [by left|]. cbn [fst snd] in *.
  unfold gpu_flush_buffers. cbn [outcome_fold]. unfold flush_stream_task at 2. rewrite (arr_get_Ok _ _ _ Hs). cbn [mbind outcome_bind].
  pose proof (stream_flush_ok Hcameo Hagree s Hwf Hcols 0 n 1024 bsize lim (Nat.lt_0_succ _) Hlim (envs i) st prev cur (cc_base g)
    Hinv Hlt Hprev (Henv i)) as Hflush.
  destruct (apply_all_sketches (pending (prev, cur)) (cc_base g) V Hsk Hn) as (c' & Hc' & Hsk' & Hlk & _).
  unfold pending in Hc'. cbn [fst snd] in Hc'. rewrite Hc' in Hflush.
  destruct (flush_buffers_default (envs i) st (cc_base g)) as [[st' c2]|]; [|done]. cbn in Hflush. injection Hflush as ->.
  cbn [mbind outcome_bind fst snd].
  destruct (IH (set_stream (set_base g c') i st') _ Hsk') as (g' & Hrun & Hok & Hlk').
  { intros j Hj. destruct (Hst j) as (stj & pj & ? & ? & ?); [by right|]. exists stj, pj. split; [|done].
    cbn. rewrite list_lookup_insert_ne; [done|]. intros ->. done. }
  exists g'. split; [done|]. split; [|by rewrite Hlk'].
  eapply sketches_ok_ext; [|exact Hok]. intros v _. cbn beta. cbn [mbind list_bind]. rewrite Hp. cbn [fmap option_fmap option_map default].
  by rewrite vertex_edges_app, toggle_all_app.
Qed.

Lemma pending_bind_seq (pend : list halves) :
  (i ← seq 0 (length pend); default [] (pending <$> pend !! i)) = concat (pending <$> pend).
Proof.
  induction pend as [|p pend IH]; [done|]. rewrite fmap_cons. cbn [length seq mbind list_bind]. rewrite concat_cons. f_equal.
  rewrite <- IH, <- fmap_S_seq. by rewrite list_fmap_bind.
Qed.

Lemma gpu_run_flush_ok calls envs order g pend :
  gpu_inv [] pend g → Forall (λ c, gpu_call_ok c ∧ scratch_ok c) calls → (∀ i, env_ok s (envs i)) → order ≡ₚ seq 0 workers →
  (∀ thr, thr < workers → lim ≤ length (filter (big_call thr) calls)) →
  ∃ g', (g1 ← gpu_run calls g; gpu_flush_buffers envs order g1) = Ok g' ∧
    sketches_ok n (geometry s) (λ v, toggle_all (vertex_edges (gc_batch <$> calls) v) ∅) (cc_base g').
Proof.
  intros Hinv Hcalls Henv Horder Hfull.
  destruct (gpu_run_ok calls [] pend g Hinv Hcalls) as (pend1 & g1 & -> & Hinv1). cbn [mbind outcome_bind app] in *.
  destruct Hinv1 as [Hopen Hwk Hsm Hst Hpl Hcnt (applied & Hperm & Hsrc & Hsk)].
  destruct (gpu_flush_ok envs order pend1 g1 (λ v, toggle_all (vertex_edges applied v) ∅)) as (g' & Hrun & Hok & _); [|done|exact Hsk| |].
  - rewrite Horder. apply NoDup_seq.
  - intros i Hi. rewrite Horder in Hi. apply elem_of_seq in Hi.
    destruct (lookup_lt_is_Some_2 pend1 i) as [p Hp]; [lia|].
    destruct (Forall2_lookup_r _ _ _ _ _ Hst Hp) as (st & Hs & Hstp).
    exists st, p. split_and!; [done|done|apply Hstp|apply Hstp| |].
    + intros Hnil. specialize (Hfull i ltac:(lia)). rewrite (Hcnt i p Hp Hnil) in Hfull. lia.
    + destruct (pending_insert pend1 i p Hp) as (rest & Hrest & _).
      rewrite Hperm, Hrest, !list.Forall_app in Hsrc. apply Hsrc.
  - exists g'. split; [done|]. eapply sketches_ok_ext; [|exact Hok]. intros v _. cbn beta.
    rewrite <- toggle_all_app, <- vertex_edges_app. apply toggle_all_perm, vertex_edges_perm.
    by rewrite Hperm, Horder, <- Hpl, pending_bind_seq.
Qed.

(** The memory of a stream's buffers, as far as the constructor needs it. *)
Definition junk_ok (junk : DeviceInput * list Bucket * list Bucket) : Prop :=
  length (edgeUpdates junk.1.1) = lim * bsize ∧ length (update_sizes junk.1.1) = lim ∧
  length (update_src junk.1.1) = lim ∧ length (update_start_index junk.1.1) = lim ∧
  length junk.1.2 = num_buckets s * lim ∧ length junk.2 = num_buckets s * lim.
End gpu.

(** The parameters of the tool are those of the algorithm's sketches. *)
Lemma tool_sketch_params_ok `{BuildConfig, Libm, Hashing} n sd :
  tool_sketch_params n sd = sketch_params (alg_sketch n sd d_one).
Proof. done. Qed.

Lemma alg_sketch_columns `{BuildConfig, Libm, Hashing} n sd : L0_SAMPLING = false → 0 < num_columns (alg_sketch n sd d_one).
Proof.
  intros Hcameo. unfold alg_sketch, new_sketch. cbn [num_columns]. unfold calc_cc_samples, default_cols_per_sample.
  rewrite Hcameo. lia.
Qed.

(** Streams that were just constructed hold nothing. *)
Lemma new_streams_inv `{BuildConfig, Hashing} s n bsize lim workers junk :
  0 < num_columns s → 0 < lim → (∀ thr, junk_ok s bsize lim (junk thr)) →
  Forall2 (λ st p, sinv s 0 n 1024 bsize lim st p.1 p.2 ∧ length p.2 < lim)
    ((λ thr, new_CudaStream 0 n 1024 bsize lim (sketch_params s) (junk thr).1.1 (junk thr).1.2 (junk thr).2) <$> seq 0 workers)
    (replicate workers ([], [])).
Proof.
  intros Hcols Hlim Hjunk. apply Forall2_same_length_lookup. split; [by rewrite length_fmap, length_seq, length_replicate|].
  intros i st p Hst Hp. apply lookup_replicate in Hp as [-> _]. rewrite list_lookup_fmap in Hst.
  destruct (seq 0 workers !! i) as [thr|]; [|done]. injection Hst as <-. cbn. split; [|lia].
  destruct (Hjunk thr) as (? & ? & ? & ? & ? & ?). apply new_CudaStream_sinv; (done || lia).
Qed.

Lemma new_gpu_inv `{BuildConfig, Libm, Hashing} n sd prio cfg workers lim bs junk :
  L0_SAMPLING = false → (N.of_nat n ≤ 2 ^ 32)%N → calc_bkt_per_col (calc_vector_length (N.of_nat n)) < 64 →
  _sketches_factor cfg = d_one → 0 < lim →
  get_desired_updates_per_batch (new_CCSketchAlg n sd prio cfg) = Ok bs →
  (∀ thr, junk_ok (alg_sketch n sd d_one) (N.to_nat bs) lim (junk thr)) →
  ∃ g pend, new_CCGPUSketchAlg n prio workers lim (tool_sketch_params n sd) cfg junk = Ok g ∧
    gpu_inv (alg_sketch n sd d_one) n (N.to_nat bs) lim workers
      (N.to_nat (trunc_to_N (dmul (of_N bs) small_batch_perc))) workers [] pend (gpu_allocate_worker_memory g workers).
Proof.
  intros Hcameo Hn Hb Hfac Hlim Hbs Hjunk. unfold new_CCGPUSketchAlg.
  rewrite tool_sketch_params_ok. cbn [p_seed sketch_params]. change (seed (alg_sketch n sd d_one)) with sd.
  rewrite Hbs. cbn [mbind outcome_bind]. eexists _, (replicate workers ([], [])). split; [done|].
  pose proof (alg_sketch_columns n sd Hcameo) as Hcols.
  constructor; cbn; try done.
  - by rewrite length_replicate.
  - by apply new_streams_inv.
  - by rewrite length_replicate.
  - intros i p Hp _. by apply lookup_replicate in Hp as [-> _].
  - exists []. split; [|split; [done|]].
    + clear. cbn. induction workers as [|k IH]; [done|]. cbn. done.
    + pose proof (new_sketches_ok n Hn sd prio cfg workers Hb) as Hnew. unfold alg_geometry in Hnew. rewrite Hfac in Hnew.
      eapply sketches_ok_ext; [|exact Hnew].
      intros v _. cbn. apply set_eq. intros e. rewrite elem_of_incident. set_solver.
Qed.

(** C11. Connected components on the GPU do what the CPU does. From construction with the
    parameters the tool computes, workers hand in batches in any order among them; each
    worker's stream gets at least one half of batches. However far the GPU is before
    each call, and in whatever order the threads flush the streams, the run succeeds,
    accesses nothing out of bounds, and the sketch of every node then holds exactly the
    edges that the batches toggle at that node. *)
Theorem gpu_run_tracks_batches `{BuildConfig, Libm, Hashing} n sd prio cfg workers lim bs junk calls envs order :
  L0_SAMPLING = false → device_hash_agrees → (N.of_nat n ≤ 2 ^ 32)%N →
  calc_bkt_per_col (calc_vector_length (N.of_nat n)) < 64 → _sketches_factor cfg = d_one → 0 < lim →
  get_desired_updates_per_batch (new_CCSketchAlg n sd prio cfg) = Ok bs →
  (∀ thr, junk_ok (alg_sketch n sd d_one) (N.to_nat bs) lim (junk thr)) →
  Forall (gpu_call_ok (alg_sketch n sd d_one) n (N.to_nat bs) workers) calls →
  (∀ i, env_ok (alg_sketch n sd d_one) (envs i)) → order ≡ₚ seq 0 workers →
  (∀ thr, thr < workers →
    lim ≤ length (filter (big_call (N.to_nat (trunc_to_N (dmul (of_N bs) small_batch_perc))) thr) calls)) →
  ∃ g g', new_CCGPUSketchAlg n prio workers lim (tool_sketch_params n sd) cfg junk = Ok g ∧
    (g1 ← gpu_run calls (gpu_allocate_worker_memory g workers); gpu_flush_buffers envs order g1) = Ok g' ∧
    sketches_ok n (alg_geometry n sd cfg) (λ v, toggle_all (vertex_edges (gc_batch <$> calls) v) ∅) (cc_base g').
Proof.
  intros Hcameo Hagree Hn Hb Hfac Hlim Hbs Hjunk Hcalls Henv Horder Hfull.
  destruct (new_gpu_inv n sd prio cfg workers lim bs junk) as (g & pend & Hnew & Hinv); [done..|].
  assert (sketch_wf (alg_sketch n sd d_one)) as Hwf by by apply new_sketch_wf.
  pose proof (alg_sketch_columns n sd Hcameo) as Hcols.
  destruct (gpu_run_flush_ok Hcameo Hagree _ Hwf Hcols n (N.to_nat bs) lim workers _ Hn Hlim workers calls envs order _ pend Hinv)
    as (g' & Hrun & Hok); [|done..|].
  { eapply list.Forall_impl; [exact Hcalls|]. intros c Hc. split; [done|]. intros _. apply Hc. }
  exists g, g'. split; [done|]. split; [done|]. unfold alg_geometry. by rewrite Hfac.
Qed.

Section witnesses.
#[local] Existing Instances default_build integral_libm xxh3_hashing.

Definition gpu_example_nb : nat := num_buckets (alg_sketch 3 7 d_one).
Definition gpu_example_batch : N :=
  match get_desired_updates_per_batch (new_CCSketchAlg 3 7 [1; 2; 3]%N CCConf.default) with Ok bs => bs | Throw _ => 0 end.

Definition gpu_example_env : LaunchEnv :=
  mkEnv (λ _, ([1; 0; 1], [1; 1; 0])) [3; 1; 0]
    (mkShared (replicate gpu_example_nb 5%N) (replicate gpu_example_nb 6%N)).

Definition gpu_example_junk : DeviceInput * list Bucket * list Bucket :=
  (mkInput [9; 9] [9; 9] [9; 9] (replicate (2 * N.to_nat gpu_example_batch) 9),
   replicate (gpu_example_nb * 2) (mkBucket 3 4), replicate (gpu_example_nb * 2) (mkBucket 5 6)).

(** Two workers; the second one's half is filled and sent, the first one's too, and a
    batch of the first is left for the flush. *)
Definition gpu_example_calls : list GpuCall :=
  [mkCall 0 0 gpu_example_env (0, [1; 2]); mkCall 1 0 gpu_example_env (1, [0]);
   mkCall 0 0 gpu_example_env (2, [0]); mkCall 1 0 gpu_example_env (2, [1]);
   mkCall 0 4 gpu_example_env (1, [2])].

Lemma gpu_example_env_ok : env_ok (alg_sketch 3 7 d_one) gpu_example_env.
Proof. split; cbn; by rewrite length_replicate. Qed.

Lemma gpu_example_fits v ds :
  length ds ≤ 2 → v < 3 → Forall (λ d, d < 3) ds → batch_fits (N.to_nat gpu_example_batch) (v, ds).
Proof.
  intros Hlen Hv Hds. assert (2 ≤ N.to_nat gpu_example_batch) as Hbs by (vm_compute; lia).
  split; [cbn [snd]; lia|]. split; [unfold node_ok; cbn [fst]; lia|].
  eapply list.Forall_impl; [exact Hds|]. intros d Hd. unfold node_ok. cbn beta in Hd. lia.
Qed.

Lemma gpu_run_tracks_batches_witness :
  ∃ g g', new_CCGPUSketchAlg 3 [1; 2; 3]%N 2 2 (tool_sketch_params 3 7) CCConf.default (λ _, gpu_example_junk) = Ok g ∧
    (g1 ← gpu_run gpu_example_calls (gpu_allocate_worker_memory g 2); gpu_flush_buffers (λ _, gpu_example_env) [1; 0] g1) = Ok g' ∧
    sketches_ok 3 (alg_geometry 3 7 CCConf.default)
      (λ v, toggle_all (vertex_edges (gc_batch <$> gpu_example_calls) v) ∅) (cc_base g').
Proof.
  apply (gpu_run_tracks_batches 3 7 [1; 2; 3]%N CCConf.default 2 2 gpu_example_batch (λ _, gpu_example_junk)
    gpu_example_calls (λ _, gpu_example_env) [1; 0]).
  - done.
  - exact device_hash_agrees_xxh3.
  - done.
  - vm_compute. lia.
  - done.
  - lia.
  - by vm_compute.
  - intros _. unfold junk_ok, gpu_example_junk. cbn [fst snd edgeUpdates update_sizes update_src update_start_index].
    rewrite !length_replicate. by fold gpu_example_nb.
  - assert (∀ t k v ds, t < 2 → length ds ≤ 2 → v < 3 → Forall (λ d, d < 3) ds →
      gpu_call_ok (alg_sketch 3 7 d_one) 3 (N.to_nat gpu_example_batch) 2 (mkCall t k gpu_example_env (v, ds))) as Hok.
    { intros t k v ds Ht Hlen Hv Hds. split; [exact Ht|]. split; [exact gpu_example_env_ok|]. split; [|exact Hv].
      by apply gpu_example_fits. }
    repeat (apply list.Forall_cons; split; [apply Hok; [lia|cbn; lia|lia|repeat constructor; lia]|]). apply list.Forall_nil. done.
  - done.
  - apply Permutation_swap.
  - intros thr Hthr. destruct thr as [|[|]]; [vm_compute; lia|vm_compute; lia|lia].
Defined.
End witnesses.
