(* ===== verification/Serial.v ===== *)
(** * Saving and loading: [write_binary] and [construct_from_serialized_data]

    src/src/cc_sketch_alg.cpp and the reading constructor and [serialize] of
    src/src/sketch.cpp. A file is a list of bytes, each an [N] below 256. A read past
    the end of the file is not an error of the program: it leaves what it was to fill
    as it was, so reads take the bytes that memory holds there, [junk]. *)

From Stdlib Require Import NArith ZArith SpecFloat Lia.
From stdpp Require Import base list gmap numbers.
From S2P Require Import Prelude Bytes Float64 Util Bucket Sketch Dsu Configuration CCSketchAlg.

(** ** Doubles as bits *)

(** The binary64 format: sign, biased exponent, fraction. *)
Definition bits_of_double (d : double) : N :=
  let sign (s : bool) := if s then (2 ^ 63)%N else 0%N in
  match d with
  | S754_zero s => sign s
  | S754_infinity s => sign s + 2047 * 2 ^ 52
  | S754_nan => 2047 * 2 ^ 52 + 2 ^ 51
  | S754_finite s m e =>
      if (2 ^ 52 <=? Npos m)%N then sign s + Z.to_N (e + 1075) * 2 ^ 52 + (Npos m - 2 ^ 52)
      else sign s + Npos m
  end%N.

Definition double_of_bits (x : N) : double :=
  let s := N.testbit x 63 in
  let biased := ((x / 2 ^ 52) mod 2048)%N in
  match (x mod 2 ^ 52)%N with
  | N0 => if (biased =? 0)%N then S754_zero s
          else if (biased =? 2047)%N then S754_infinity s
          else S754_finite s (2 ^ 52) (Z.of_N biased - 1075)
  | Npos f => if (biased =? 0)%N then S754_finite s f (-1074)
              else if (biased =? 2047)%N then S754_nan
              else S754_finite s (2 ^ 52 + f) (Z.of_N biased - 1075)
  end.

Section serial.
Context `{BuildConfig, Libm, Hashing}.

(** ** Sketches *)

(** A packed [Bucket]. *)
Definition bucket_bytes (b : Bucket) : list N := le_bytes 8 (alpha b) ++ le_bytes vec_hash_bytes (gamma b).

Definition serialize (s : Sketch) : list N := buckets s ≫= bucket_bytes.

Definition read_bucket (file : list N) (junk : nat → N) (pos : nat) : Bucket :=
  mkBucket (read_word file junk pos 8) (read_word file junk (pos + 8) vec_hash_bytes).

(** The constructor that reads the buckets. *)
Definition read_sketch (vector_len sd : N) (_samples _cols : nat) (file : list N) (junk : nat → N) (pos : nat) : Sketch :=
  let num_columns := _samples * _cols in
  let bkt_per_col := calc_bkt_per_col vector_len in
  let num_buckets := num_columns * bkt_per_col + 1 in
  mkSketch sd _samples _cols num_columns bkt_per_col num_buckets 0
    ((λ i, read_bucket file junk (pos + i * (8 + vec_hash_bytes))) <$> seq 0 num_buckets).

(** ** The algorithm *)

(** The bytes of the file. *)
Definition write_binary (c : CCSketchAlg) : outcome (list N) :=
  l ← outcome_list ((λ i, s ← arr_get (sketches c) i; Ok (serialize s)) <$> seq 0 (num_vertices c));
  Ok (le_bytes 8 (cc_seed c) ++ le_bytes 4 (N.of_nat (num_vertices c)) ++
      le_bytes 8 (bits_of_double (_sketches_factor (config c))) ++ concat l).

(** Each sketch is read where the one before it ended. *)
Fixpoint read_sketches (vector_len sd : N) (samples : nat) (file : list N) (junk : nat → N) (pos n : nat) : list Sketch :=
  match n with
  | O => []
  | S n =>
      let s := read_sketch vector_len sd samples default_cols_per_sample file junk pos in
      s :: read_sketches vector_len sd samples file junk (pos + bucket_array_bytes s) n
  end.

Definition read_CCSketchAlg (nv : nat) (sd : N) (prio : list N) (file : list N) (junk : nat → N) (pos : nat)
    (cfg : CCAlgConfiguration) : CCSketchAlg :=
  let sketch_vec_len := calc_vector_length (N.of_nat nv) in
  let sketch_num_samples := calc_cc_samples (N.of_nat nv) (_sketches_factor cfg) in
  mkCC nv sd false (list_to_set (seq 0 nv))
    (read_sketches sketch_vec_len sd sketch_num_samples file junk pos nv)
    (new_dsu nv prio) false false (replicate nv ∅) [] cfg 0.

(** The random priorities of the union-find are those of as many nodes as were read. *)
Definition construct_from_serialized_data (file : list N) (junk : nat → N) (prio : nat → list N)
    (cfg : CCAlgConfiguration) : CCSketchAlg :=
  let sd := read_word file junk 0 8 in
  let nv := N.to_nat (read_word file junk 8 4) in
  let factor := double_of_bits (read_word file junk 12 8) in
  read_CCSketchAlg nv sd (prio nv) file junk 20 (CCConf.sketches_factor cfg factor).
End serial.
