(* ===== verification/SerialSpec.v ===== *)
(** * What is saved is what is loaded

    Round trips of [double]s, sketches and the whole algorithm. The loaded
    algorithm has no cached answer; its sketches hold the same graph. *)

From Stdlib Require Import NArith ZArith SpecFloat Lia.
From stdpp Require Import base list gmap numbers.
From S2P Require Import Prelude Bytes Float64 Util Bucket Sketch XXHash Concrete SketchSpec Dsu Graph Configuration CCSketchAlg MergeInstr BoruvkaLoop CCQuery Serial.

(** ** Doubles *)

Definition storable (d : double) : Prop := d ≠ S754_nan ∧ valid_binary prec64 emax64 d = true.

Lemma digits_size m : digits2_pos m = Pos.size m.
Proof. induction m as [m IH|m IH|]; cbn; congruence. Qed.

(** The two forms of a finite value: all 53 bits, or the least exponent. *)
Lemma finite_forms m e :
  bounded prec64 emax64 m e = true →
  (2 ^ 52 ≤ Npos m < 2 ^ 53 ∧ (-1074 ≤ e ≤ 971)%Z)%N ∨ ((Npos m < 2 ^ 52)%N ∧ e = (-1074)%Z).
Proof.
  unfold bounded, canonical_mantissa, fexp, emin, prec64, emax64. rewrite andb_true_iff, Z.eqb_eq, Z.leb_le.
  rewrite digits_size. intros [He Hmax]. pose proof (Pos.size_gt m) as Hlt. pose proof (Pos.size_le m) as Hle.
  assert (Npos m < 2 ^ Npos (Pos.size m))%N as Hlt' by lia.
  assert (2 ^ Npos (Pos.size m) ≤ 2 * Npos m)%N as Hle' by lia.
  destruct (decide (53 ≤ Z.pos (Pos.size m))%Z) as [Hd|Hd].
  - left. assert (Pos.size m = 53%positive) as Hs by lia. rewrite Hs in *. lia.
  - right. split; [|lia]. eapply N.lt_le_trans; [exact Hlt'|]. apply N.pow_le_mono_r; lia.
Qed.

Definition sign_bit (s : bool) : N := if s then (2 ^ 63)%N else 0%N.

Lemma double_fields s b f :
  (b < 2048)%N → (f < 2 ^ 52)%N →
  let x := (sign_bit s + b * 2 ^ 52 + f)%N in
  N.testbit x 63 = s ∧ ((x / 2 ^ 52) mod 2048 = b)%N ∧ (x mod 2 ^ 52 = f)%N ∧ (x < 2 ^ 64)%N.
Proof.
  intros Hb Hf x.
  assert (x mod 2 ^ 52 = f)%N as Hmod.
  { unfold x, sign_bit. destruct s.
    - replace (2 ^ 63 + b * 2 ^ 52 + f)%N with (f + (2048 + b) * 2 ^ 52)%N by lia. rewrite N.Div0.mod_add. by apply N.mod_small.
    - replace (0 + b * 2 ^ 52 + f)%N with (f + b * 2 ^ 52)%N by lia. rewrite N.Div0.mod_add. by apply N.mod_small. }
  assert (x / 2 ^ 52 = (if s then 2048 else 0) + b)%N as Hdiv.
  { pose proof (N.div_mod x (2 ^ 52)) as Hx. rewrite Hmod in Hx. unfold x, sign_bit in *. destruct s; lia. }
  split_and!.
  - change 63%N with (11 + 52)%N. rewrite <- N.div_pow2_bits, Hdiv. rewrite <- (N.add_0_l 11), <- N.div_pow2_bits.
    destruct s.
    + replace (2048 + b)%N with (b + 1 * 2 ^ 11)%N by lia. rewrite N.div_add, N.div_small by done. done.
    + rewrite N.add_0_l, N.div_small by done. done.
  - rewrite Hdiv. destruct s.
    + replace (2048 + b)%N with (b + 1 * 2048)%N by lia. rewrite N.Div0.mod_add. by apply N.mod_small.
    + by apply N.mod_small.
  - done.
  - unfold x, sign_bit. destruct s; lia.
Qed.

Lemma double_roundtrip d : storable d → double_of_bits (bits_of_double d) = d ∧ (bits_of_double d < 2 ^ 64)%N.
Proof.
  intros [Hnan Hv]. unfold double_of_bits. destruct d as [s|s| |s m e]; [| |done|].
  - destruct (double_fields s 0 0) as (H1 & H2 & H3 & H4); [done..|]. cbn [bits_of_double].
    change (if s then (2 ^ 63)%N else 0%N) with (sign_bit s). rewrite N.mul_0_l, !N.add_0_r in *. by rewrite H1, H2, H3.
  - destruct (double_fields s 2047 0) as (H1 & H2 & H3 & H4); [done..|]. cbn [bits_of_double].
    change (if s then (2 ^ 63)%N else 0%N) with (sign_bit s). rewrite !N.add_0_r in *. by rewrite H1, H2, H3.
  - cbn [bits_of_double]. change (if s then (2 ^ 63)%N else 0%N) with (sign_bit s).
    destruct (finite_forms m e Hv) as [[[Hm1 Hm2] He]|[Hm ->]].
    + rewrite (proj2 (N.leb_le _ _) Hm1).
      destruct (double_fields s (Z.to_N (e + 1075)) (Npos m - 2 ^ 52)) as (H1 & H2 & H3 & H4); [lia|lia|].
      rewrite H1, H2, H3. split; [|done].
      rewrite (proj2 (N.eqb_neq _ _)) by lia. rewrite (proj2 (N.eqb_neq _ _)) by lia.
      destruct (Npos m - 2 ^ 52)%N as [|f] eqn:Hf; (f_equal; [lia|lia]).
    + rewrite (proj2 (N.leb_gt _ _) Hm). destruct (double_fields s 0 (Npos m)) as (H1 & H2 & H3 & H4); [done..|].
      rewrite N.mul_0_l, N.add_0_r in *. by rewrite H1, H2, H3.
Qed.

Section serial.
Context `{BuildConfig, Libm, Hashing}.

(** The words of a bucket have their widths. *)
Definition bucket_fits (b : Bucket) : Prop := (alpha b < 2 ^ 64 ∧ gamma b < 2 ^ vec_hash_bits)%N.

Lemma length_bucket_bytes b : length (bucket_bytes b) = 8 + vec_hash_bytes.
Proof. unfold bucket_bytes. by rewrite length_app, !length_le_bytes. Qed.

Lemma length_buckets_bytes l : length (l ≫= bucket_bytes) = length l * (8 + vec_hash_bytes).
Proof. induction l as [|b l IH]; [done|]. cbn [mbind list_bind]. rewrite length_app, length_bucket_bytes. cbn. lia. Qed.

Lemma read_bucket_ok pre b post junk :
  bucket_fits b → read_bucket (pre ++ bucket_bytes b ++ post) junk (length pre) = b.
Proof.
  intros [Ha Hg]. unfold read_bucket, bucket_bytes. rewrite <- app_assoc, read_word_ok by done.
  replace (length pre + 8) with (length (pre ++ le_bytes 8 (alpha b))) by (rewrite length_app, length_le_bytes; lia).
  rewrite app_assoc, read_word_ok by done. by destruct b.
Qed.

Lemma read_buckets_ok l pre post junk :
  Forall bucket_fits l →
  (λ i, read_bucket (pre ++ (l ≫= bucket_bytes) ++ post) junk (length pre + i * (8 + vec_hash_bytes))) <$> seq 0 (length l) = l.
Proof.
  intros Hl. revert pre. induction Hl as [|b l Hb _ IH]; intros pre; [done|].
  cbn [length seq mbind list_bind]. rewrite fmap_cons. f_equal.
  - rewrite Nat.mul_0_l, Nat.add_0_r, <- app_assoc. by apply read_bucket_ok.
  - rewrite <- fmap_S_seq, <- list_fmap_compose. etrans; [|exact (IH (pre ++ bucket_bytes b))].
    apply list_fmap_ext. intros _ i _. cbn [compose]. rewrite length_app, length_bucket_bytes, <- !app_assoc. f_equal. lia.
Qed.

(** *** Sketches *)

Lemma read_sketch_ok vlen sd samples s pre post junk :
  geometry s = geometry (new_sketch vlen sd samples default_cols_per_sample) → sample_idx s = 0 → sketch_wf s →
  Forall bucket_fits (buckets s) →
  read_sketch vlen sd samples default_cols_per_sample (pre ++ serialize s ++ post) junk (length pre) = s.
Proof.
  intros Hg Hi Hwf Hf. pose proof (wf_length _ Hwf) as Hlen. unfold geometry, new_sketch in Hg. cbn in Hg. simplify_eq.
  unfold read_sketch, serialize. destruct s as [sd' ns cps nc bpc nbk si bk]. cbn in *. simplify_eq.
  f_equal. rewrite <- Hlen. by apply read_buckets_ok.
Qed.

Lemma read_sketches_ok vlen sd samples ss pre post junk :
  Forall (λ s, geometry s = geometry (new_sketch vlen sd samples default_cols_per_sample) ∧ sample_idx s = 0 ∧
    sketch_wf s ∧ Forall bucket_fits (buckets s)) ss →
  read_sketches vlen sd samples (pre ++ concat (serialize <$> ss) ++ post) junk (length pre) (length ss) = ss.
Proof.
  intros Hss. revert pre. induction Hss as [|s ss (Hg & Hi & Hwf & Hf) _ IH]; intros pre; [done|].
  rewrite fmap_cons. cbn [concat length read_sketches]. rewrite <- app_assoc, read_sketch_ok by done. f_equal.
  rewrite app_assoc. etrans; [|exact (IH (pre ++ serialize s))]. f_equal. rewrite length_app. f_equal.
  unfold bucket_array_bytes, serialize. by rewrite length_buckets_bytes, (wf_length _ Hwf).
Qed.

(** A sketch of edge indices has words of the right widths. *)
Lemma represents_fits s X : represents s X → (∀ x, x ∈ X → (x < 2 ^ 64)%N) → Forall bucket_fits (buckets s).
Proof.
  intros [Hwf Hr] HX. apply list.Forall_forall. intros b Hb. apply list_elem_of_lookup in Hb as [j Hj].
  pose proof (lookup_lt_Some _ _ _ Hj) as Hlt. rewrite (wf_length _ Hwf) in Hlt.
  rewrite (Hr j Hlt) in Hj. injection Hj as <-. unfold content, bucket_of. split; cbn [alpha gamma]; apply xsum_lt.
  - intros x Hx. apply elem_of_filter in Hx as [_ Hx]. by apply HX.
  - intros x _. apply Bucket_Boruvka.get_index_hash_lt.
Qed.

(** *** The algorithm *)

Lemma edge_index_lt n E e : (N.of_nat n ≤ 2 ^ 32)%N → graph_ok n E → e ∈ E → (e < 2 ^ 64)%N.
Proof.
  intros Hn HE He. destruct (HE e He) as (u & v & Hu & Hv & _ & ->).
  apply concat_pairing_fn_lt; unfold node_ok; lia.
Qed.

Lemma fmap_lookup_total {A B} `{Inhabited A} (f : A → B) (l : list A) :
  (λ i, f (l !!! i)) <$> seq 0 (length l) = f <$> l.
Proof.
  induction l as [|x l IH]; [done|]. cbn [length seq]. rewrite !fmap_cons. f_equal.
  by rewrite <- IH, <- fmap_S_seq, <- list_fmap_compose.
Qed.

#[local] Instance sketch_inhabited : Inhabited Sketch := populate (mkSketch 0 0 0 0 0 0 0 []).

Definition file_bytes (n : nat) (sd : N) (factor : double) (ss : list Sketch) : list N :=
  le_bytes 8 sd ++ le_bytes 4 (N.of_nat n) ++ le_bytes 8 (bits_of_double factor) ++ concat (serialize <$> ss).

Definition alg_bytes (n : nat) (c : CCSketchAlg) : list N :=
  file_bytes n (cc_seed c) (_sketches_factor (config c)) (sketches c).

Lemma bind_bytes {A} (f : A → list N) l :
  (∀ x, Forall (λ b, b < 256)%N (f x)) → Forall (λ b, b < 256)%N (l ≫= f).
Proof. intros Hf. induction l as [|x l IH]; [constructor|]. cbn. apply list.Forall_app. by split. Qed.

Lemma file_bytes_are_bytes n sd factor ss : Forall (λ b, b < 256)%N (file_bytes n sd factor ss).
Proof.
  unfold file_bytes. rewrite !list.Forall_app. split_and!; [apply le_bytes_byte..|].
  induction ss as [|s l IH]; [constructor|]. rewrite fmap_cons. cbn [concat]. apply list.Forall_app. split; [|done].
  apply bind_bytes. intros b. apply list.Forall_app. split; apply le_bytes_byte.
Qed.

(** The first sketches of the array, as many as there are nodes, are written. *)
Lemma write_first_ok n c :
  num_vertices c = n → n ≤ length (sketches c) →
  write_binary c = Ok (file_bytes n (cc_seed c) (_sketches_factor (config c)) (take n (sketches c))).
Proof.
  intros Hn Hlen. unfold write_binary. rewrite Hn.
  rewrite (outcome_list_fmap _ (λ i, serialize (take n (sketches c) !!! i))).
  - cbn [mbind outcome_bind]. assert (length (take n (sketches c)) = n) as Ht by (rewrite length_take; lia).
    rewrite <- Ht at 2. by rewrite fmap_lookup_total.
  - intros i Hi. apply elem_of_seq in Hi. destruct (lookup_lt_is_Some_2 (sketches c) i) as [s Hs]; [lia|].
    assert (take n (sketches c) !! i = Some s) as Hs' by (rewrite lookup_take_lt; [done|lia]).
    by rewrite (arr_get_Ok _ _ _ Hs), (list_lookup_total_correct _ _ _ Hs').
Qed.

Lemma write_binary_ok n E c : alg_ok n E c → write_binary c = Ok (alg_bytes n c).
Proof.
  intros [[Hn _ _ _] [Hlen _ _] _ _]. rewrite (write_first_ok n c Hn) by lia. unfold alg_bytes. by rewrite take_ge by lia.
Qed.

Definition storable_sketch (n : nat) (sd : N) (factor : double) (s : Sketch) : Prop :=
  geometry s = geometry (alg_sketch n sd factor) ∧ sample_idx s = 0 ∧ sketch_wf s ∧ Forall bucket_fits (buckets s).

(** The sketches of the algorithm are such as the reading constructor makes. *)
Lemma alg_sketches_storable n E c :
  (N.of_nat n < 2 ^ 32)%N → alg_ok n E c →
  Forall (storable_sketch n (cc_seed c) (_sketches_factor (config c))) (sketches c).
Proof.
  intros Hn [[Hnv _ _ _] [Hlen Hrep _] HE _]. apply list.Forall_forall. intros s Hs.
  apply list_elem_of_lookup in Hs as [v Hv]. destruct (Hrep v s Hv) as (Hr & Hg & Hi).
  unfold cc_sketch in Hg. rewrite Hnv in Hg. split_and!; [done|done|apply Hr|].
  apply (represents_fits s (incident E v)); [done|]. intros e He. apply elem_of_incident in He as [_ He].
  apply (edge_index_lt n E); [lia|done|done].
Qed.

(** The whole file is read back. *)
Lemma construct_file_ok n sd factor ss junk prio cfg :
  (N.of_nat n < 2 ^ 32)%N → (sd < 2 ^ 64)%N → storable factor → dleb factor d_zero = false →
  length ss = n → Forall (storable_sketch n sd factor) ss →
  construct_from_serialized_data (file_bytes n sd factor ss) junk prio cfg =
    mkCC n sd false (list_to_set (seq 0 n)) ss (new_dsu n (prio n)) false false (replicate n ∅) []
      (CCConf.sketches_factor cfg factor) 0.
Proof.
  intros Hn Hsd Hst Hpos Hlen Hss. unfold file_bytes.
  set (hd := le_bytes 8 sd). set (nv := le_bytes 4 (N.of_nat n)). set (fac := le_bytes 8 (bits_of_double factor)).
  destruct (double_roundtrip _ Hst) as [Hd Hdlt].
  assert (∀ tail, read_word (hd ++ tail) junk 0 8 = sd) as Rsd by (intros; by apply (read_word_ok [])).
  assert (∀ tail, read_word (hd ++ nv ++ tail) junk 8 4 = N.of_nat n) as Rnv.
  { intros tail. by apply (read_word_ok hd 4). }
  assert (∀ tail, read_word (hd ++ nv ++ fac ++ tail) junk 12 8 = bits_of_double factor) as Rfac.
  { intros tail. rewrite app_assoc. by apply (read_word_ok (hd ++ nv) 8). }
  unfold construct_from_serialized_data. rewrite Rsd, Rnv, Rfac, Hd, Nat2N.id.
  unfold read_CCSketchAlg. f_equal. unfold CCConf.sketches_factor at 1. rewrite Hpos. cbn [_sketches_factor].
  rewrite !app_assoc. rewrite <- (app_nil_r (concat _)).
  pose proof (read_sketches_ok (calc_vector_length (N.of_nat n)) sd (calc_cc_samples (N.of_nat n) factor) ss ((hd ++ nv) ++ fac) [] junk Hss) as Hread.
  by rewrite Hlen in Hread.
Qed.

Lemma construct_ok n E c junk prio cfg :
  (N.of_nat n < 2 ^ 32)%N → alg_ok n E c → (cc_seed c < 2 ^ 64)%N →
  storable (_sketches_factor (config c)) → dleb (_sketches_factor (config c)) d_zero = false →
  construct_from_serialized_data (alg_bytes n c) junk prio cfg =
    mkCC n (cc_seed c) false (list_to_set (seq 0 n)) (sketches c) (new_dsu n (prio n)) false false (replicate n ∅) []
      (CCConf.sketches_factor cfg (_sketches_factor (config c))) 0.
Proof.
  intros Hn Hok Hsd Hst Hpos. apply construct_file_ok; try done; [apply (ao_sketches _ _ _ Hok)|by apply (alg_sketches_storable n E)].
Qed.

Lemma reloaded_ok n E c junk prio cfg :
  (N.of_nat n < 2 ^ 32)%N → alg_ok n E c → (cc_seed c < 2 ^ 64)%N →
  storable (_sketches_factor (config c)) → dleb (_sketches_factor (config c)) d_zero = false → length (prio n) = n →
  let c' := construct_from_serialized_data (alg_bytes n c) junk prio cfg in
  alg_ok n E c' ∧ sketches c' = sketches c ∧ cc_seed c' = cc_seed c ∧ update_locked c' = false.
Proof.
  intros Hn Hok Hsd Hst Hpos Hprio c'. unfold c'. rewrite (construct_ok n E) by done.
  split; [|done]. pose proof Hok as [[Hnv _ _ _] [Hlen Hrep _] HE Hbkt].
  assert (cc_sketch (mkCC n (cc_seed c) false (list_to_set (seq 0 n)) (sketches c) (new_dsu n (prio n)) false false
    (replicate n ∅) [] (CCConf.sketches_factor cfg (_sketches_factor (config c))) 0) = cc_sketch c) as Hsk.
  { unfold cc_sketch, CCConf.sketches_factor. cbn. by rewrite Hpos, Hnv. }
  assert (N.of_nat n ≤ 2 ^ 32)%N as Hn' by lia.
  destruct (new_eager_ok n Hn' (cc_seed c) (prio n) cfg Hprio) as [_ Hst0 _ _].
  constructor; [| |done|done].
  - constructor; [done| |done|done]. by destruct Hst0; constructor.
  - rewrite Hsk. by constructor.
Qed.
End serial.

(** C14. Saving and loading: an algorithm in any state between operations writes a file
    from which it is rebuilt with the same seed, sketches and configured size, bit for
    bit, whatever memory held before and whatever configuration it is loaded with. It
    forgets the cached answer and the lock, and it is in a state in which every query
    answers about the same graph. *)
Theorem saved_algorithm_reloads `{BuildConfig, Libm, Hashing} n E c junk prio cfg :
  (N.of_nat n < 2 ^ 32)%N → alg_ok n E c → (cc_seed c < 2 ^ 64)%N →
  storable (_sketches_factor (config c)) → dleb (_sketches_factor (config c)) d_zero = false → length (prio n) = n →
  ∃ file, write_binary c = Ok file ∧ Forall (λ b, b < 256)%N file ∧
    let c' := construct_from_serialized_data file junk prio cfg in
    alg_ok n E c' ∧ sketches c' = sketches c ∧ cc_seed c' = cc_seed c ∧
    _sketches_factor (config c') = _sketches_factor (config c) ∧ dsu_valid c' = false ∧ update_locked c' = false.
Proof.
  intros Hn Hok Hsd Hst Hpos Hprio. exists (alg_bytes n c). split; [by apply (write_binary_ok n E)|].
  split; [by apply file_bytes_are_bytes|].
  destruct (reloaded_ok n E c junk prio cfg) as (Ha & Hb & Hc & Hd); [done..|]. cbv zeta.
  split_and!; [done|done|done| |by rewrite (construct_ok n E)|done].
  rewrite (construct_ok n E) by done. cbn. unfold CCConf.sketches_factor. by rewrite Hpos.
Qed.

Section witnesses.
#[local] Existing Instances default_build integral_libm xxh3_hashing.

Lemma saved_algorithm_reloads_witness :
  ∃ file, write_binary example_state = Ok file ∧
    alg_ok 4 example_graph (construct_from_serialized_data file (λ _, 77%N) (λ n, replicate n 5%N) CCConf.default).
Proof.
  destruct (saved_algorithm_reloads 4 example_graph example_state (λ _, 77%N) (λ n, replicate n 5%N) CCConf.default
    example_n_lt example_alg_ok) as (file & Hw & _ & Hok & _).
  - by vm_compute.
  - split; by vm_compute.
  - by vm_compute.
  - done.
  - exists file. exact (conj Hw Hok).
Defined.

(** A file cut short is loaded without an error, with what memory held. *)
Lemma truncated_file_loads :
  let c := construct_from_serialized_data [] (λ i, if decide (8 ≤ i < 12) then 0%N else 77%N) (λ n, replicate n 5%N) CCConf.default in
  num_vertices c = 0 ∧ cc_seed c = of_le_bytes (replicate 8 77%N).
Proof. by vm_compute. Qed.
End witnesses.
