(* ===== verification/CudaUvm.v ===== *)
(** * Sketches in managed memory: the other mode of src/include/cuda_stream.h

    With [cudaUVM_enabled] the buckets of all sketches of [CCSketchAlg] lie one after
    the other in memory that host and GPU share, and a launch updates them directly.
    There are no deltas: [process_batch_UVM] and [flush_buffers_UVM] only queue copies
    and launches. Several streams update the same memory; one kernel is one step of it.
    A run is a sequence of events: the calls and flushes of the workers, and the
    operations the device finishes in between. *)

From Stdlib Require Import NArith Lia.
From stdpp Require Import base list gmap sets numbers.
From S2P Require Import Prelude Float64 Util Bucket Sketch XXHash Dsu Configuration CCSketchAlg CudaKernel CudaStream CCGpu.

(** The memory of the buckets: sketch [i] has the entries from [i * num_buckets] on. *)
Definition managed_buckets (c : CCSketchAlg) : list Bucket := sketches c ≫= buckets.

Definition set_managed (c : CCSketchAlg) (m : list Bucket) : CCSketchAlg :=
  set_sketches c (imap (λ i s, set_buckets s (take (num_buckets s) (drop (i * num_buckets s) m))) (sketches c)).

Section device.
Context `{Hashing}.

(** One operation of the device: a launch works on the managed memory. *)
Definition exec_op_UVM (st : CudaStream) (c : CCSketchAlg) (op : StreamOp) : outcome (CudaStream * CCSketchAlg) :=
  match op with
  | LaunchKernel n env =>
      m ← sketchUpdate_UVM_kernel (num_device_threads st) (stream_params st) (d_input st) (env_garbage env)
            (env_blocks env) (env_grid env) n (managed_buckets c);
      Ok (st, set_managed c m)
  | _ => st ← exec_op st op; Ok (st, c)
  end.

(** The device finishes the first [k] operations of the queue. *)
Fixpoint device_steps_UVM (k : nat) (st : CudaStream) (c : CCSketchAlg) : outcome (CudaStream * CCSketchAlg) :=
  match k, queue st with
  | S k, op :: q => x ← exec_op_UVM (set_queue st q) c op; device_steps_UVM k x.1 x.2
  | _, _ => Ok (st, c)
  end.

Definition synchronize_UVM (st : CudaStream) (c : CCSketchAlg) : outcome (CudaStream * CCSketchAlg) :=
  device_steps_UVM (length (queue st)) st c.

(** The copies and the launch for a half with [n] batches. *)
Definition send_buffer_UVM (n : nat) (env : LaunchEnv) (st : CudaStream) : CudaStream :=
  let start_index := buffer_id st * batch_limit st * stream_batch_size st in
  let start_batch_id := buffer_id st * batch_limit st in
  set_queue st (queue st ++
    [CopyEdges start_index (batch_offset st - start_index); CopySizes start_batch_id n;
     CopySrc start_batch_id n; CopyStart start_batch_id n; LaunchKernel n env]).

Definition process_batch_UVM (env : LaunchEnv) (src_vertex : nat) (dst_vertices : list nat)
    (st : CudaStream) (c : CCSketchAlg) : outcome (CudaStream * CCSketchAlg) :=
  st ← fill_batch src_vertex dst_vertices st;
  if decide (batch_count st = batch_limit st) then
    x ← synchronize_UVM st c;
    let st := send_buffer_UVM (batch_count x.1) env x.1 in
    let next := Nat.lxor (buffer_id st) 1 in
    Ok (set_fill st next (next * batch_limit st * stream_batch_size st) 0 (first_buffer st), x.2)
  else Ok (st, c).

Definition flush_buffers_UVM (env : LaunchEnv) (st : CudaStream) : CudaStream :=
  if decide (batch_count st = 0) then st else send_buffer_UVM (batch_count st) env st.
End device.

(** ** [CCGPUSketchAlg] in this mode *)

Inductive UvmEvent :=
  | UvmCall (c : GpuCall)
  | UvmFlush (thr_id : nat) (env : LaunchEnv)
  | UvmProgress (thr_id k : nat).

Section ops.
Context `{BuildConfig, Hashing}.

Definition gpu_apply_update_batch_UVM (thr_id : nat) (env : LaunchEnv) (src_vertex : nat)
    (dst_vertices : list nat) (g : CCGPUSketchAlg) : outcome CCGPUSketchAlg :=
  if update_locked (cc_base g) then Throw UpdateLockedException
  else if decide (length dst_vertices ≤ small_batch_size g) then
    c ← apply_update_batch (cc_base g) thr_id src_vertex dst_vertices;
    Ok (set_base g c)
  else
    st ← arr_get (cudaStreams g) thr_id;
    x ← process_batch_UVM env src_vertex dst_vertices st (cc_base g);
    Ok (set_stream (set_base g x.2) thr_id x.1).

Definition exec_event (g : CCGPUSketchAlg) (e : UvmEvent) : outcome CCGPUSketchAlg :=
  match e with
  | UvmCall c => gpu_apply_update_batch_UVM (gc_thr c) (gc_env c) (gc_batch c).1 (gc_batch c).2 g
  | UvmFlush thr_id env =>
      st ← arr_get (cudaStreams g) thr_id;
      Ok (set_stream g thr_id (flush_buffers_UVM env st))
  | UvmProgress thr_id k =>
      st ← arr_get (cudaStreams g) thr_id;
      x ← device_steps_UVM k st (cc_base g);
      Ok (set_stream (set_base g x.2) thr_id x.1)
  end.

(** The last call of [flush_buffers]: the device finishes the work of every stream. *)
Definition drain_stream (g : CCGPUSketchAlg) (thr_id : nat) : outcome CCGPUSketchAlg :=
  st ← arr_get (cudaStreams g) thr_id;
  x ← synchronize_UVM st (cc_base g);
  Ok (set_stream (set_base g x.2) thr_id x.1).

Definition cudaDeviceSynchronize (order : list nat) (g : CCGPUSketchAlg) : outcome CCGPUSketchAlg :=
  outcome_fold drain_stream g order.
End ops.
