(* ===== verification/CudaUvmSpec.v ===== *)
(** * Streams over managed memory update the sketches of their batches

    The invariant of a stream: its queue is what is left of the work on some halves,
    whose batches the host no longer changes. *)

From Stdlib Require Import NArith Lia.
From stdpp Require Import base list gmap sets numbers.
From S2P Require Import Prelude Float64 Util Bucket Sketch XXHash Concrete SketchSpec Dsu Graph Configuration CCSketchAlg CudaKernel CudaKernelSpec CudaStream CudaStreamSpec CCGpu CCGpuSpec CudaUvm.

Section managed.
Context `{BuildConfig, Hashing}.

(** Slices of the managed memory. *)
Lemma managed_length (l : list Sketch) nb :
  Forall (λ s, length (buckets s) = nb) l → length (l ≫= buckets) = length l * nb.
Proof. induction 1 as [|s l Hs _ IH]; [done|]. cbn [mbind list_bind]. rewrite length_app, Hs, IH. cbn. lia. Qed.

Lemma managed_slice (l : list Sketch) nb v sk :
  Forall (λ s, length (buckets s) = nb) l → l !! v = Some sk →
  take nb (drop (v * nb) (l ≫= buckets)) = buckets sk.
Proof.
  intros Hl. revert v. induction Hl as [|s l Hs Hl IH]; intros v Hv; [done|].
  cbn [mbind list_bind]. destruct v as [|v]; cbn in Hv.
  - injection Hv as ->. cbn [Nat.mul]. by rewrite drop_0, <- Hs, take_app_length.
  - rewrite <- (IH v Hv), drop_app_ge by (rewrite Hs; lia). f_equal. f_equal. rewrite Hs. lia.
Qed.

Lemma set_buckets_update_all sk es : set_buckets sk (buckets (foldl update sk es)) = foldl update sk es.
Proof.
  revert sk. induction es as [|e es IH]; intros sk; [by destruct sk|]. cbn [foldl].
  rewrite <- (IH (update sk e)) at 2. by destruct sk.
Qed.

Context (Hcameo : L0_SAMPLING = false) (Hagree : device_hash_agrees).
Context (s : Sketch) (Hwf : sketch_wf s) (Hcols : 0 < num_columns s).
Context (n : nat).

(** A launch on the managed memory of an algorithm. *)
Lemma managed_launch c V T inp garbage scheds sched batches :
  0 < T → sketches_ok n (geometry s) V c → input_for inp batches → shared_len (num_buckets s) garbage →
  Forall (λ b, b.1 < n) batches →
  ∃ m, sketchUpdate_UVM_kernel T (sketch_params s) inp garbage scheds sched (length batches) (managed_buckets c) = Ok m ∧
    sketches_ok n (geometry s) (λ v, toggle_all (vertex_edges batches v) (V v)) (set_managed c m).
Proof.
  intros HT Hok Hinp Hg Hn. pose proof Hok as [Hlen Hrep Hdel].
  assert (∀ v sk, sketches c !! v = Some sk → num_buckets sk = num_buckets s) as Hnb.
  { intros v sk Hv. destruct (Hrep v sk Hv) as (_ & Hgeo & _). unfold geometry in Hgeo. by simplify_eq. }
  assert (Forall (λ s', length (buckets s') = num_buckets s) (sketches c)) as Hall.
  { apply list.Forall_forall. intros s' Hs'. apply list_elem_of_lookup in Hs' as [v Hv].
    destruct (Hrep v s' Hv) as ([Hwf' _] & _). rewrite (wf_length _ Hwf'). by eapply Hnb. }
  assert (∀ v sk, sketches c !! v = Some sk → length (managed_buckets c) = n * num_buckets s ∧
    take (num_buckets s) (drop (v * num_buckets s) (managed_buckets c)) = buckets sk) as Hslice.
  { intros v sk Hv. unfold managed_buckets. rewrite <- Hlen. split; [by apply managed_length|by apply managed_slice]. }
  destruct (uvm_kernel_slices s T inp garbage scheds sched batches (managed_buckets c)) as (m & Hrun & Hm & Hupd); try done.
  { intros b Hb. rewrite list.Forall_forall in Hn. specialize (Hn b Hb).
    destruct (lookup_lt_is_Some_2 (sketches c) b.1) as [sk Hsk]; [lia|].
    rewrite (proj1 (Hslice _ _ Hsk)). nia. }
  exists m. split; [done|]. constructor; cbn; [by rewrite length_imap| |done].
  intros v s' Hv. rewrite list_lookup_imap in Hv. destruct (sketches c !! v) as [sk|] eqn:Hsk; [|done].
  cbn in Hv. injection Hv as <-. destruct (Hrep v sk Hsk) as (Hr & Hgeo & Hi). pose proof (lookup_lt_Some _ _ _ Hsk).
  rewrite (Hnb v sk Hsk), (Hupd v sk (V v)), set_buckets_update_all; [|done|done| |by apply Hslice].
  - split; [by apply represents_update_all|]. rewrite geometry_update_all. split; [done|].
    rewrite <- set_buckets_update_all. by destruct sk.
  - rewrite (proj1 (Hslice v sk Hsk)). nia.
Qed.

(** *** The queue of a stream *)

Context (bsize lim : nat) (Hlim : 0 < lim).
Abbreviation base_ok st := (stream_base s 0 n 1024 bsize lim st).

(** A half that was sent: its number, its batches and what is open about its launch. *)
Record Job := mkJob { job_id : nat; job_batches : list (nat * list nat); job_env : LaunchEnv }.

Definition job_ops (jb : Job) : list StreamOp := take 5 (ops s bsize lim (job_id jb) (job_batches jb) (job_env jb)).

Record job_ok (h : HostBuffers) (jb : Job) : Prop := {
  jo_id : job_id jb ≤ 1;
  jo_len : length (job_batches jb) ≤ lim;
  jo_fits : Forall (batch_fits bsize) (job_batches jb);
  jo_nodes : Forall (λ b, b.1 < n) (job_batches jb);
  jo_half : half_ok bsize lim h (job_id jb) (job_batches jb);
  jo_env : env_ok s (job_env jb);
}.

(** The jobs whose launch is still to come; [j] operations of the first are done. *)
Record uqueue st (js : list Job) (j : nat) : Prop := {
  uq_base : base_ok st;
  uq_jobs : Forall (job_ok (host st)) js;
  uq_queue : queue st = drop j (js ≫= job_ops);
  uq_stage : match js with [] => j = 0 | jb :: _ => j < 5 ∧ copied bsize lim st (job_id jb) (job_batches jb) j end;
}.

Definition waiting (js : list Job) : list (nat * list nat) := js ≫= job_batches.

Lemma base_set_queue st q : base_ok st → base_ok (set_queue st q).
Proof. intros []. by constructor. Qed.

Lemma job_ok_same st st' jb : same_fill st st' → job_ok (host st) jb → job_ok (host st') jb.
Proof. intros Hs []. constructor; try done. by eapply half_ok_same. Qed.

Lemma copied_0 st jb : copied bsize lim st (job_id jb) (job_batches jb) 0.
Proof. split_and!; intros ?; lia. Qed.

Lemma exec_op_UVM_ok st c V js j op q :
  uqueue st js j → sketches_ok n (geometry s) V c → queue st = op :: q →
  ∃ st' c' js' j' l, exec_op_UVM (set_queue st q) c op = Ok (st', c') ∧ uqueue st' js' j' ∧ queue st' = q ∧
    waiting js = l ++ waiting js' ∧ (∃ i, js' = drop i js) ∧
    sketches_ok n (geometry s) (λ v, toggle_all (vertex_edges l v) (V v)) c' ∧
    same_fill st st' ∧ update_locked c' = update_locked c ∧ delta_sketches c' = delta_sketches c.
Proof.
  intros [Hbase Hjobs Hqueue Hstage] Hsk Hq. rewrite Hq in Hqueue.
  destruct js as [|jb js]; [by subst j|]. destruct Hstage as [Hj Hcopied].
  apply list.Forall_cons in Hjobs as [Hjb Hjobs]. pose proof Hjb as [Hid Hlen Hfits Hnodes Hhalf Henv].
  cbn [mbind list_bind] in Hqueue.
  assert (job_ops jb !! j = Some op) as Hop.
  { assert ((job_ops jb ++ (js ≫= job_ops)) !! j = Some op) as Hop.
    { rewrite <- (Nat.add_0_r j), <- lookup_drop, <- Hqueue. done. }
    rewrite lookup_app_l in Hop by (cbn; lia). done. }
  assert (q = drop (S j) (job_ops jb ++ (js ≫= job_ops))) as Hrest.
  { change q with (drop 1 (op :: q)). rewrite Hqueue, drop_drop. f_equal. lia. }
  destruct (decide (j < 4)) as [Hj4|Hj4].
  - destruct (exec_copy_ok s Hcols 0 n 1024 bsize lim (Nat.lt_0_succ _) Hlim (set_queue st q) (job_id jb) (job_batches jb) (job_env jb) j)
      with (op := op) as (st' & Hrun & Hbase' & Hc' & Hs & Hq' & Hh & Hd); try done.
    { by apply base_set_queue. }
    { unfold job_ops in Hop. rewrite lookup_take_lt in Hop by lia. done. }
    exists st', c, (jb :: js), (S j), []. split.
    { unfold exec_op_UVM. destruct j as [|[|[|[|j]]]]; [| | | |lia]; cbn in Hop; injection Hop as <-; by rewrite Hrun. }
    split_and!; try done; [|by exists 0].
    constructor; [done| |by rewrite Hq'|by split; [lia|]]. rewrite Hh. by constructor.
  - assert (j = 4) as -> by lia. cbn in Hop. injection Hop as <-. cbn [exec_op_UVM].
    pose proof (sk_params _ _ _ _ _ _ _ Hbase) as [Hp HT]. cbn [num_device_threads stream_params d_input set_queue].
    rewrite Hp, HT.
    destruct (managed_launch c V 1024 (d_input st) (env_garbage (job_env jb)) (env_blocks (job_env jb)) (env_grid (job_env jb))
      (job_batches jb)) as (m & Hrun & Hsk'); [lia|done|by apply (staged_input s Hcols 1024 bsize lim (Nat.lt_0_succ _) Hlim st (job_id jb))|done|done|].
    rewrite Hrun. cbn [mbind outcome_bind]. exists (set_queue st q), (set_managed c m), js, 0, (job_batches jb).
    split; [done|]. split; [|split_and!; try done; by exists 1].
    constructor; [by apply base_set_queue|done|exact Hrest|]. destruct js as [|jb' js]; [done|]. split; [lia|apply copied_0].
Qed.

Lemma device_steps_UVM_ok k st c V js j :
  uqueue st js j → sketches_ok n (geometry s) V c →
  ∃ st' c' js' j' l, device_steps_UVM k st c = Ok (st', c') ∧ uqueue st' js' j' ∧
    length (queue st') = length (queue st) - k ∧ waiting js = l ++ waiting js' ∧ (∃ i, js' = drop i js) ∧
    sketches_ok n (geometry s) (λ v, toggle_all (vertex_edges l v) (V v)) c' ∧
    same_fill st st' ∧ update_locked c' = update_locked c ∧ delta_sketches c' = delta_sketches c.
Proof.
  revert st c V js j. induction k as [|k IH]; intros st c V js j Hu Hsk.
  { exists st, c, js, j, []. split_and!; try done; [lia|by exists 0]. }
  cbn [device_steps_UVM]. destruct (queue st) as [|op q] eqn:Hq.
  { exists st, c, js, j, []. split_and!; try done; [by rewrite Hq|by exists 0]. }
  destruct (exec_op_UVM_ok st c V js j op q Hu Hsk Hq)
    as (st1 & c1 & js1 & j1 & l1 & -> & Hu1 & Hq1 & Hw1 & (i1 & Hi1) & Hsk1 & Hs1 & Hlk1 & Hd1).
  cbn [mbind outcome_bind fst snd].
  destruct (IH st1 c1 _ js1 j1 Hu1 Hsk1) as (st' & c' & js' & j' & l & -> & Hu' & Hq' & Hw & (i & Hi) & Hsk' & Hs & Hlk & Hd).
  exists st', c', js', j', (l1 ++ l). split; [done|]. split; [done|]. split; [by rewrite Hq', Hq1|].
  split; [by rewrite Hw1, Hw, app_assoc|]. split; [exists (i1 + i); by rewrite Hi, Hi1, drop_drop|].
  split; [|split; [by eapply same_fill_trans|split; congruence]].
  eapply sketches_ok_ext; [|exact Hsk']. intros v _. cbn beta. by rewrite vertex_edges_app, toggle_all_app.
Qed.

Lemma uqueue_empty st js j : uqueue st js j → queue st = [] → js = [].
Proof.
  intros [_ _ Hq Hst] He. destruct js as [|jb js]; [done|]. exfalso. destruct Hst as [Hj _].
  rewrite Hq in He. apply (f_equal length) in He. rewrite length_drop in He. cbn in He. lia.
Qed.

Lemma synchronize_UVM_ok st c V js j :
  uqueue st js j → sketches_ok n (geometry s) V c →
  ∃ st' c', synchronize_UVM st c = Ok (st', c') ∧ uqueue st' [] 0 ∧ queue st' = [] ∧
    sketches_ok n (geometry s) (λ v, toggle_all (vertex_edges (waiting js) v) (V v)) c' ∧
    same_fill st st' ∧ update_locked c' = update_locked c ∧ delta_sketches c' = delta_sketches c.
Proof.
  intros Hu Hsk. unfold synchronize_UVM.
  destruct (device_steps_UVM_ok (length (queue st)) st c V js j Hu Hsk)
    as (st' & c' & js' & j' & l & -> & Hu' & Hq' & Hw & _ & Hsk' & Hrest).
  rewrite Nat.sub_diag in Hq'. apply nil_length_inv in Hq' as Hq. pose proof (uqueue_empty _ _ _ Hu' Hq) as ->.
  pose proof (uq_stage _ _ _ Hu') as ->. exists st', c'. rewrite Hw. unfold waiting at 1. cbn [mbind list_bind].
  rewrite app_nil_r. done.
Qed.

(** *** The half that the host fills *)

Record ufill st (js : list Job) (cur : list (nat * list nat)) : Prop := {
  uf_count : batch_count st = length cur;
  uf_lim : length cur < lim;
  uf_offset : batch_offset st = buffer_id st * lim * bsize + offs cur;
  uf_half : half_ok bsize lim (host st) (buffer_id st) cur;
  uf_fits : Forall (batch_fits bsize) cur;
  uf_nodes : Forall (λ b, b.1 < n) cur;
  uf_other : Forall (λ jb, job_id jb = Nat.lxor (buffer_id st) 1) js;
}.

Lemma ufill_same st st' js i cur : same_fill st st' → ufill st js cur → ufill st' (drop i js) cur.
Proof.
  intros Hs [Hc Hl Ho Hh Hf Hn Hj]. pose proof Hs as (Hid & Hoff & Hcount & _).
  constructor; rewrite ?Hid, ?Hoff, ?Hcount; try done; [by eapply half_ok_same|by apply Forall_drop].
Qed.

(** Batches at the end of the queue. *)
Lemma send_buffer_UVM_ok st js j cur env :
  uqueue st js j → batch_offset st = buffer_id st * lim * bsize + offs cur → length cur ≤ lim →
  half_ok bsize lim (host st) (buffer_id st) cur → Forall (batch_fits bsize) cur → Forall (λ b, b.1 < n) cur → env_ok s env →
  uqueue (send_buffer_UVM (length cur) env st) (js ++ [mkJob (buffer_id st) cur env]) j.
Proof.
  intros [Hbase Hjobs Hq Hst] Ho Hl Hh Hf Hn Henv. pose proof Hbase as [_ [Hp _] [Hbs Hlm] Hid _ _ _ _ _ _ _ _].
  assert (j ≤ length (js ≫= job_ops)) as Hj.
  { destruct js as [|jb js]; [lia|]. destruct Hst as [Hj _]. cbn [mbind list_bind]. rewrite length_app. cbn. lia. }
  constructor.
  - by apply base_set_queue.
  - apply list.Forall_app. split; [done|]. constructor; [|done]. by constructor.
  - cbn [queue set_queue send_buffer_UVM]. rewrite bind_app, drop_app_le by done. rewrite <- Hq. f_equal.
    rewrite Hbs, Hlm, Ho. unfold job_ops, ops. cbn [mbind list_bind job_id job_batches job_env take app].
    by rewrite Nat.add_comm, Nat.add_sub.
  - destruct js as [|jb js]; [|done]. subst j. split; [lia|apply copied_0].
Qed.

Lemma process_batch_UVM_ok env st c V js j cur b :
  uqueue st js j → ufill st js cur → sketches_ok n (geometry s) V c → batch_fits bsize b → b.1 < n → env_ok s env →
  ∃ st' c' js' j' cur' l, process_batch_UVM env b.1 b.2 st c = Ok (st', c') ∧ uqueue st' js' j' ∧ ufill st' js' cur' ∧
    waiting js ++ cur ++ [b] = l ++ waiting js' ++ cur' ∧
    sketches_ok n (geometry s) (λ v, toggle_all (vertex_edges l v) (V v)) c' ∧
    update_locked c' = update_locked c ∧ delta_sketches c' = delta_sketches c.
Proof.
  intros Hu Hfill Hsk Hb Hbn Henv. pose proof Hu as [Hbase Hjobs Hq Hst]. pose proof Hfill as [Hc Hl Ho Hh Hf Hn Hother].
  destruct (fill_batch_ok s Hcols 0 n 1024 bsize lim (Nat.lt_0_succ _) Hlim st cur b Hbase Hc Hl Ho Hh Hf Hb)
    as (st2 & Hrun & Hbase2 & Hid2 & Hc2 & Ho2 & _ & Hh2 & Hsame & Hdi & _ & Hq2).
  assert (uqueue st2 js j) as Hu2.
  { constructor; [done| |by rewrite Hq2|].
    - eapply list.Forall_impl; [exact (Forall_and Hjobs Hother)|].
      intros jb [[] Hjid]. constructor; try done.
      apply (half_ok_same_half s Hcols 1024 bsize lim (Nat.lt_0_succ _) Hlim (host st)); try done. by rewrite Hjid.
    - destruct js as [|jb js]; [done|]. destruct Hst as [Hj Hcp]. split; [done|].
      apply list.Forall_cons in Hother as [Hjid _]. apply list.Forall_cons in Hjobs as [[] _].
      apply (copied_same_half s Hcols 1024 bsize lim (Nat.lt_0_succ _) Hlim st); try done. by rewrite Hjid. }
  assert (Forall (batch_fits bsize) (cur ++ [b]) ∧ Forall (λ b, b.1 < n) (cur ++ [b])) as [Hf2 Hn2].
  { rewrite !list.Forall_app, !list.Forall_singleton. by split_and!. }
  rewrite <- Hid2 in Ho2, Hh2, Hother. clear Hid2.
  unfold process_batch_UVM. rewrite Hrun. cbn [mbind outcome_bind].
  pose proof (sk_batch _ _ _ _ _ _ _ Hbase2) as [Hbs Hlm]. pose proof Hc2 as Hc2'. rewrite length_app in Hc2'. cbn [length] in Hc2'.
  destruct (decide (length cur + 1 = lim)) as [Hfull|Hmore].
  2: { rewrite decide_False by lia. exists st2, c, js, j, (cur ++ [b]), []. split_and!; try done.
    constructor; try done. rewrite <- Hc2, Hc2'. lia. }
  rewrite decide_True by lia.
  destruct (synchronize_UVM_ok st2 c V js j Hu2 Hsk) as (st3 & c' & -> & Hu3 & Hq3 & Hsk' & Hs3 & Hlk & Hd).
  cbn [mbind outcome_bind fst snd]. pose proof Hs3 as (Hid3 & Hoff3 & Hcount3 & _). rewrite Hcount3, Hc2.
  assert (uqueue (send_buffer_UVM (length (cur ++ [b])) env st3) [mkJob (buffer_id st3) (cur ++ [b]) env] 0) as Hu4.
  { apply (send_buffer_UVM_ok st3 []); rewrite ?Hid3, ?Hoff3; try done; [rewrite length_app; cbn; lia|by eapply half_ok_same]. }
  set (st4 := send_buffer_UVM _ env st3) in *. pose proof (sk_id _ _ _ _ _ _ _ (uq_base _ _ _ Hu3)) as Hid.
  pose proof (lxor_le _ Hid) as [Hle Hinvol]. change (buffer_id st4) with (buffer_id st3).
  eexists _, c', [mkJob (buffer_id st3) (cur ++ [b]) env], 0, [], (waiting js). split; [done|].
  split; [|split; [|split; [|by split_and!]]].
  - destruct Hu4 as [[] ? ? ?]. by constructor; [constructor|..].
  - pose proof (sk_batch _ _ _ _ _ _ _ (uq_base _ _ _ Hu4)) as [Hbs4 Hlm4]. rewrite Hlm4, Hbs4.
    constructor; try done. constructor; [|done].
    cbn [job_id buffer_id set_fill]. by rewrite Hinvol.
  - unfold waiting at 3. cbn. by rewrite !app_nil_r.
Qed.
End managed.
