(* ===== verification/CudaUvmProps.v ===== *)
(** * Runs of the GPU algorithm over managed memory

    The batches of the calls so far are those that launches have applied to the
    sketches and those that the workers' streams still hold, wherever each worker and
    the device are. *)

From Stdlib Require Import NArith Lia.
From stdpp Require Import base list gmap sets numbers.
From S2P Require Import Prelude Float64 Util Bucket Sketch XXHash Concrete SketchSpec Dsu Graph Configuration CCSketchAlg CudaKernel CudaKernelSpec CudaStream CudaStreamSpec CCGpu CCGpuSpec CudaUvm CudaUvmSpec.

Section run.
Context `{BuildConfig, Libm, Hashing}.
Context (Hcameo : L0_SAMPLING = false) (Hagree : device_hash_agrees).
Context (s : Sketch) (Hwf : sketch_wf s) (Hcols : 0 < num_columns s).
Context (n bsize lim workers small : nat) (Hlim : 0 < lim).
Implicit Types (g : CCGPUSketchAlg).

(** What a worker's stream still holds; [true] when the worker has flushed it. *)
Abbreviation holding := (bool * list (nat * list nat))%type.

Definition stream_holds (st : CudaStream) (p : holding) : Prop :=
  ∃ js j cur, uqueue s n bsize lim st js j ∧ (p.1 = false → ufill n bsize lim st js cur) ∧
    (p.1 = true → cur = []) ∧ p.2 = waiting js ++ cur.

Record uvm_inv (hist : list GpuCall) (pend : list holding) g : Prop := {
  ui_open : update_locked (cc_base g) = false;
  ui_workers : length (delta_sketches (cc_base g)) = workers;
  ui_small : small_batch_size g = small;
  ui_streams : Forall2 stream_holds (cudaStreams g) pend;
  ui_pend : length pend = workers;
  ui_sketches : ∃ applied, gc_batch <$> hist ≡ₚ applied ++ concat (snd <$> pend) ∧
    sketches_ok n (geometry s) (λ v, toggle_all (vertex_edges applied v) ∅) (cc_base g);
}.

Definition event_calls (e : UvmEvent) : list GpuCall := match e with UvmCall c => [c] | _ => [] end.

(** Which events may come: a worker that has flushed does nothing more. *)
Definition event_ok (flushed : list bool) (e : UvmEvent) : Prop :=
  match e with
  | UvmCall c => flushed !! gc_thr c = Some false ∧ env_ok s (gc_env c) ∧ batch_fits bsize (gc_batch c) ∧ (gc_batch c).1 < n
  | UvmFlush thr env => flushed !! thr = Some false ∧ env_ok s env
  | UvmProgress thr _ => thr < workers
  end.

Definition event_flags (flushed : list bool) (e : UvmEvent) : list bool :=
  match e with UvmFlush thr _ => <[thr := true]> flushed | _ => flushed end.

(** A step of one stream that moves the batches [l] into the sketches. *)
Lemma stream_step hist new pend g thr (p p' : holding) c' st' l applied :
  uvm_inv hist pend g → pend !! thr = Some p → stream_holds st' p' → p.2 ++ (gc_batch <$> new) ≡ₚ l ++ p'.2 →
  gc_batch <$> hist ≡ₚ applied ++ concat (snd <$> pend) →
  sketches_ok n (geometry s) (λ v, toggle_all (vertex_edges l v) (toggle_all (vertex_edges applied v) ∅)) c' →
  update_locked c' = update_locked (cc_base g) → length (delta_sketches c') = length (delta_sketches (cc_base g)) →
  uvm_inv (hist ++ new) (<[thr := p']> pend) (set_stream (set_base g c') thr st').
Proof.
  intros [Hopen Hwk Hsm Hst Hpl _] Hp Hp' Hmove Hperm Hsk Hlk Hd.
  destruct (concat_fmap_entry snd pend thr p Hp) as (rest & Hrest & Hins).
  constructor; cbn; [congruence|congruence|done|by apply Forall2_insert|by rewrite length_insert|].
  exists (applied ++ l). rewrite Hins. split.
  - rewrite fmap_app, Hperm, Hrest, <- !app_assoc. f_equiv. rewrite (Permutation_app_comm rest), app_assoc, Hmove.
    by rewrite <- app_assoc.
  - eapply sketches_ok_ext; [|exact Hsk]. intros v _. cbn beta. by rewrite vertex_edges_app, toggle_all_app.
Qed.

Lemma event_ok_step hist pend g e :
  uvm_inv hist pend g → event_ok (fst <$> pend) e →
  ∃ pend' g', exec_event g e = Ok g' ∧ uvm_inv (hist ++ event_calls e) pend' g' ∧
    fst <$> pend' = event_flags (fst <$> pend) e.
Proof.
  intros Hinv Hev. pose proof Hinv as [Hopen Hwk Hsm Hst Hpl (applied & Hperm & Hsk)].
  assert (∀ thr b, (fst <$> pend) !! thr = Some b → ∃ l st, pend !! thr = Some (b, l) ∧ cudaStreams g !! thr = Some st ∧
    stream_holds st (b, l)) as Hlook.
  { intros thr b Hb. rewrite list_lookup_fmap in Hb. destruct (pend !! thr) as [[b' l]|] eqn:Hp; [|done].
    cbn in Hb. injection Hb as ->. destruct (Forall2_lookup_r _ _ _ _ _ Hst Hp) as (st & Hs & Hh). by exists l, st. }
  destruct e as [c|thr env|thr k]; cbn [exec_event event_calls event_flags event_ok] in *.
  - destruct Hev as (Hflag & Henv & Hfits & Hn). unfold gpu_apply_update_batch_UVM. rewrite Hopen, Hsm.
    destruct (Hlook _ _ Hflag) as (l & st & Hp & Hs & (js & j & cur & Hu & Hfill & _ & Hl)).
    destruct (decide (length (gc_batch c).2 ≤ small)).
    + destruct (apply_update_batch_ok n (geometry s) _ (cc_base g) (gc_thr c) (gc_batch c).1 (gc_batch c).2 Hsk Hn)
        as (c' & -> & Hsk' & Hwk' & Hc'); [|done|]. { rewrite Hwk, <- Hpl. by eapply lookup_lt_Some. }
      cbn [mbind outcome_bind]. exists pend. eexists. split; [done|]. split; [|done].
      constructor; cbn; try done; [by rewrite Hc'|by rewrite Hwk'|].
      exists (applied ++ [gc_batch c]). split; [rewrite fmap_app, Hperm; cbn; solve_Permutation|].
      eapply sketches_ok_ext; [|exact Hsk']. intros v _. cbn beta. rewrite vertex_edges_app, toggle_all_app, vertex_edges_single.
      unfold fun_upd. destruct (decide (v = (gc_batch c).1)) as [->|Hv]; [by rewrite decide_True|by rewrite decide_False by congruence].
    + rewrite (arr_get_Ok _ _ _ Hs). cbn [mbind outcome_bind].
      destruct (process_batch_UVM_ok Hcameo Hagree s Hwf Hcols n bsize lim Hlim (gc_env c) st (cc_base g) _ js j cur (gc_batch c)
        Hu (Hfill eq_refl) Hsk Hfits Hn Henv) as (st' & c' & js' & j' & cur' & l' & -> & Hu' & Hfill' & Hmove & Hsk' & Hlk & Hd).
      cbn [mbind outcome_bind fst snd]. exists (<[gc_thr c := (false, waiting js' ++ cur')]> pend). eexists. split; [done|]. split.
      * apply (stream_step hist [c] pend g (gc_thr c) (false, l) _ _ _ l' applied); [done|done| | |done|done|done|by rewrite Hd].
        -- by exists js', j', cur'.
        -- cbn in Hl |- *. rewrite Hl, <- Hmove, <- app_assoc. done.
      * rewrite list_fmap_insert. apply list_insert_id. done.
  - destruct Hev as [Hflag Henv]. destruct (Hlook _ _ Hflag) as (l & st & Hp & Hs & (js & j & cur & Hu & Hfill & _ & Hl)).
    rewrite (arr_get_Ok _ _ _ Hs). cbn [mbind outcome_bind]. destruct (Hfill eq_refl) as [Hc Hlt Ho Hh Hf Hn _].
    assert (∃ js', uqueue s n bsize lim (flush_buffers_UVM env st) js' j ∧ l = waiting js') as (js' & Hu' & Hl').
    { unfold flush_buffers_UVM. rewrite Hc. cbn in Hl. destruct cur as [|b cur].
      - exists js. rewrite decide_True by done. split; [done|]. by rewrite app_nil_r in Hl.
      - rewrite decide_False by done. eexists. split.
        + apply (send_buffer_UVM_ok s Hcols n bsize lim Hlim); try done. lia.
        + rewrite Hl. unfold waiting. rewrite bind_app. cbn. by rewrite app_nil_r. }
    exists (<[thr := (true, l)]> pend). eexists. split; [done|]. split; [|by rewrite list_fmap_insert].
    rewrite app_nil_r. change (set_stream g thr ?x) with (set_stream (set_base g (cc_base g)) thr x).
    rewrite <- (app_nil_r hist). apply (stream_step hist [] pend g thr (false, l) (true, l) _ _ [] applied); try done.
    + exists js', j, []. split; [done|]. split; [done|]. split; [done|]. by rewrite app_nil_r.
    + cbn. by rewrite app_nil_r.
  - destruct (lookup_lt_is_Some_2 pend thr) as [[b l] Hp]; [lia|].
    destruct (Hlook thr b) as (l' & st & Hp' & Hs & (js & j & cur & Hu & Hfill & Hflush & Hl)).
    { by rewrite list_lookup_fmap, Hp. }
    rewrite Hp in Hp'. injection Hp' as <-. rewrite (arr_get_Ok _ _ _ Hs). cbn [mbind outcome_bind].
    destruct (device_steps_UVM_ok Hcameo Hagree s Hwf Hcols n bsize lim Hlim k st (cc_base g) _ js j Hu Hsk)
      as (st' & c' & js' & j' & l1 & -> & Hu' & _ & Hw & (i & Hi) & Hsk' & Hsame & Hlk & Hd).
    cbn [mbind outcome_bind fst snd]. exists (<[thr := (b, waiting js' ++ cur)]> pend). eexists. split; [done|]. split.
    + apply (stream_step hist [] pend g thr (b, l) _ _ _ l1 applied); [done|done| | |done|done|done|by rewrite Hd].
      * exists js', j', cur. split; [done|]. split; [|done]. intros Hb. rewrite Hi. eapply ufill_same; [done|]. by apply Hfill.
      * cbn in Hl |- *. by rewrite Hl, Hw, app_nil_r, <- app_assoc.
    + rewrite list_fmap_insert. apply list_insert_id. by rewrite list_lookup_fmap, Hp.
Qed.

Fixpoint events_ok (flushed : list bool) (es : list UvmEvent) : Prop :=
  match es with
  | [] => True
  | e :: es => event_ok flushed e ∧ events_ok (event_flags flushed e) es
  end.

Lemma run_events_ok es hist pend g :
  uvm_inv hist pend g → events_ok (fst <$> pend) es →
  ∃ pend' g', outcome_fold exec_event g es = Ok g' ∧ uvm_inv (hist ++ (es ≫= event_calls)) pend' g' ∧
    fst <$> pend' = foldl event_flags (fst <$> pend) es.
Proof.
  revert hist pend g. induction es as [|e es IH]; intros hist pend g Hinv Hes.
  { exists pend, g. cbn. by rewrite app_nil_r. }
  destruct Hes as [He Hes]. destruct (event_ok_step hist pend g e Hinv He) as (pend1 & g1 & Hrun & Hinv1 & Hfl1).
  rewrite <- Hfl1 in Hes. destruct (IH _ _ _ Hinv1 Hes) as (pend' & g' & Hrest & Hinv' & Hfl').
  exists pend', g'. cbn [outcome_fold mbind list_bind foldl]. rewrite Hrun. cbn [mbind outcome_bind].
  rewrite app_assoc, <- Hfl1. done.
Qed.

Lemma drain_step hist pend g thr l :
  uvm_inv hist pend g → pend !! thr = Some (true, l) →
  ∃ g', drain_stream g thr = Ok g' ∧ uvm_inv hist (<[thr := (true, [])]> pend) g'.
Proof.
  intros Hinv Hp. pose proof Hinv as [Hopen Hwk Hsm Hst Hpl (applied & Hperm & Hsk)].
  destruct (Forall2_lookup_r _ _ _ _ _ Hst Hp) as (st & Hs & (js & j & cur & Hu & _ & Hcur & Hl)).
  cbn in Hcur, Hl. rewrite Hcur, app_nil_r in Hl by done. unfold drain_stream. rewrite (arr_get_Ok _ _ _ Hs). cbn [mbind outcome_bind].
  destruct (synchronize_UVM_ok Hcameo Hagree s Hwf Hcols n bsize lim Hlim st (cc_base g) _ js j Hu Hsk)
    as (st' & c' & -> & Hu' & _ & Hsk' & _ & Hlk & Hd).
  cbn [mbind outcome_bind fst snd]. eexists. split; [done|]. rewrite <- (app_nil_r hist).
  apply (stream_step hist [] pend g thr (true, l) (true, []) _ _ (waiting js) applied); try done; [|by rewrite Hl|by rewrite Hd].
  by exists [], 0, [].
Qed.

Lemma cudaDeviceSynchronize_ok order hist pend g :
  uvm_inv hist pend g → (∀ p, p ∈ pend → p.1 = true) → Forall (λ i, i < workers) order →
  ∃ pend' g', cudaDeviceSynchronize order g = Ok g' ∧ uvm_inv hist pend' g' ∧
    ∀ i p, pend' !! i = Some p → p = (true, []) ∨ ((i ∉ order) ∧ pend !! i = Some p).
Proof.
  revert pend g. induction order as [|i order IH]; intros pend g Hinv Hfl Hord.
  { exists pend, g. split; [done|]. split; [done|]. intros i p Hp. right. split; [set_solver|done]. }
  apply list.Forall_cons in Hord as [Hi Hord].
  destruct (lookup_lt_is_Some_2 pend i) as [[b l] Hp]; [by rewrite (ui_pend _ _ _ Hinv)|].
  pose proof (Hfl _ (list_elem_of_lookup_2 _ _ _ Hp)) as Hb. cbn in Hb. subst b.
  destruct (drain_step hist pend g i l Hinv Hp) as (g1 & Hrun & Hinv1).
  destruct (IH _ g1 Hinv1) as (pend' & g' & Hrest & Hinv' & Hdone); [|done|].
  { intros p Hpin. apply list_elem_of_lookup in Hpin as [k Hk]. destruct (decide (k = i)) as [->|Hne].
    - rewrite list_lookup_insert_eq in Hk by (by eapply lookup_lt_Some). by injection Hk as <-.
    - rewrite list_lookup_insert_ne in Hk by done. apply Hfl. by eapply list_elem_of_lookup_2. }
  exists pend', g'. unfold cudaDeviceSynchronize in *. cbn [outcome_fold]. rewrite Hrun. cbn [mbind outcome_bind].
  split; [done|]. split; [done|]. intros k p Hk. destruct (Hdone k p Hk) as [->|[Hnot Hk']]; [by left|].
  destruct (decide (k = i)) as [->|Hne].
  - rewrite list_lookup_insert_eq in Hk' by (by eapply lookup_lt_Some). injection Hk' as <-. by left.
  - rewrite list_lookup_insert_ne in Hk' by done. right. split; [set_solver|done].
Qed.

(** After every worker's flush and the last synchronisation. *)
Lemma uvm_run_ok es order g pend :
  uvm_inv [] pend g → events_ok (fst <$> pend) es → foldl event_flags (fst <$> pend) es = replicate workers true →
  order ≡ₚ seq 0 workers →
  ∃ g', (g1 ← outcome_fold exec_event g es; cudaDeviceSynchronize order g1) = Ok g' ∧
    sketches_ok n (geometry s) (λ v, toggle_all (vertex_edges (gc_batch <$> (es ≫= event_calls)) v) ∅) (cc_base g').
Proof.
  intros Hinv Hes Hfl Horder. destruct (run_events_ok es [] pend g Hinv Hes) as (pend1 & g1 & -> & Hinv1 & Hfl1).
  cbn [mbind outcome_bind]. rewrite Hfl in Hfl1.
  destruct (cudaDeviceSynchronize_ok order _ pend1 g1 Hinv1) as (pend' & g' & Hrun & Hinv' & Hdone).
  { intros p Hp. assert (p.1 ∈ fst <$> pend1) as Hp1 by (by apply list_elem_of_fmap_2). rewrite Hfl1 in Hp1.
    by apply elem_of_replicate in Hp1 as [? _]. }
  { apply list.Forall_forall. intros i Hi. rewrite Horder in Hi. apply elem_of_seq in Hi. lia. }
  exists g'. split; [done|]. destruct Hinv' as [_ _ _ _ Hpl (applied & Hperm & Hsk)].
  eapply sketches_ok_ext; [|exact Hsk]. intros v _. cbn beta. apply toggle_all_perm, vertex_edges_perm.
  cbn [app] in Hperm. rewrite Hperm. assert (concat (snd <$> pend') = []) as ->; [|by rewrite app_nil_r].
  assert (Forall (λ p, p.2 = []) pend') as Hall.
  { apply list.Forall_forall. intros p Hp. apply list_elem_of_lookup in Hp as [i Hi].
    destruct (Hdone i p Hi) as [->|[Hnot _]]; [done|]. destruct Hnot. rewrite Horder. apply elem_of_seq.
    apply lookup_lt_Some in Hi. lia. }
  clear -Hall. induction Hall as [|p l Hp _ IH]; [done|]. cbn. by rewrite Hp.
Qed.
End run.

(** Device memory of the sizes a stream over managed memory needs. *)
Definition input_sized (bsize lim : nat) (inp : DeviceInput) : Prop :=
  length (edgeUpdates inp) = lim * bsize ∧ length (update_sizes inp) = lim ∧
  length (update_src inp) = lim ∧ length (update_start_index inp) = lim.

Lemma new_uvm_inv `{BuildConfig, Libm, Hashing} n sd prio cfg workers lim bs junk :
  L0_SAMPLING = false → (N.of_nat n ≤ 2 ^ 32)%N → calc_bkt_per_col (calc_vector_length (N.of_nat n)) < 64 →
  _sketches_factor cfg = d_one → 0 < lim →
  get_desired_updates_per_batch (new_CCSketchAlg n sd prio cfg) = Ok bs →
  (∀ thr, input_sized (N.to_nat bs) lim (junk thr).1.1) →
  ∃ g, new_CCGPUSketchAlg n prio workers lim (tool_sketch_params n sd) cfg junk = Ok g ∧
    uvm_inv (alg_sketch n sd d_one) n (N.to_nat bs) lim workers
      (N.to_nat (trunc_to_N (dmul (of_N bs) small_batch_perc))) [] (replicate workers (false, [])) (gpu_allocate_worker_memory g workers).
Proof.
  intros Hcameo Hn Hb Hfac Hlim Hbs Hjunk. unfold new_CCGPUSketchAlg.
  rewrite tool_sketch_params_ok. cbn [p_seed sketch_params]. change (seed (alg_sketch n sd d_one)) with sd.
  rewrite Hbs. cbn [mbind outcome_bind]. eexists. split; [done|].
  constructor; cbn; try done; [by rewrite length_replicate| |by rewrite length_replicate|].
  - apply Forall2_same_length_lookup. split; [by rewrite length_fmap, length_seq, length_replicate|].
    intros i st p Hst Hp. apply lookup_replicate in Hp as [-> _]. rewrite list_lookup_fmap in Hst.
    destruct (seq 0 workers !! i) as [thr|]; [|done]. injection Hst as <-. destruct (Hjunk thr) as (? & ? & ? & ?).
    exists [], 0, []. split; [|by split_and!]. constructor; [|done|done|done].
    apply new_CudaStream_base; (done || lia || by apply alg_sketch_columns).
  - exists []. split.
    + clear. cbn. induction workers as [|k IH]; [done|]. by cbn.
    + pose proof (new_sketches_ok n Hn sd prio cfg workers Hb) as Hnew. unfold alg_geometry in Hnew. rewrite Hfac in Hnew.
      eapply sketches_ok_ext; [|exact Hnew]. intros v _. cbn. apply set_eq. intros e. rewrite elem_of_incident. set_solver.
Qed.

(** C12. The same over memory that host and GPU share. Workers hand in batches, the device
    does any of the queued operations at any moment, and workers flush when they have
    nothing more to do, all in any order; the kernels work directly on the sketches.
    Once the device has finished every stream, the sketch of every node holds exactly
    the edges that the batches toggle at that node, without any bound on how many
    batches a worker must have had. *)
Theorem managed_run_tracks_batches `{BuildConfig, Libm, Hashing} n sd prio cfg workers lim bs junk es order :
  L0_SAMPLING = false → device_hash_agrees → (N.of_nat n ≤ 2 ^ 32)%N →
  calc_bkt_per_col (calc_vector_length (N.of_nat n)) < 64 → _sketches_factor cfg = d_one → 0 < lim →
  get_desired_updates_per_batch (new_CCSketchAlg n sd prio cfg) = Ok bs →
  (∀ thr, input_sized (N.to_nat bs) lim (junk thr).1.1) →
  events_ok (alg_sketch n sd d_one) n (N.to_nat bs) workers (replicate workers false) es →
  foldl event_flags (replicate workers false) es = replicate workers true → order ≡ₚ seq 0 workers →
  ∃ g g', new_CCGPUSketchAlg n prio workers lim (tool_sketch_params n sd) cfg junk = Ok g ∧
    (g1 ← outcome_fold exec_event (gpu_allocate_worker_memory g workers) es; cudaDeviceSynchronize order g1) = Ok g' ∧
    sketches_ok n (alg_geometry n sd cfg) (λ v, toggle_all (vertex_edges (gc_batch <$> (es ≫= event_calls)) v) ∅) (cc_base g').
Proof.
  intros Hcameo Hagree Hn Hb Hfac Hlim Hbs Hjunk Hes Hfl Horder.
  destruct (new_uvm_inv n sd prio cfg workers lim bs junk) as (g & Hnew & Hinv); [done..|].
  assert (sketch_wf (alg_sketch n sd d_one)) as Hwf by by apply new_sketch_wf.
  assert (fst <$> replicate workers (false, @nil (nat * list nat)) = replicate workers false) as Hflags by by rewrite fmap_replicate.
  destruct (uvm_run_ok Hcameo Hagree _ Hwf (alg_sketch_columns n sd Hcameo) n (N.to_nat bs) lim workers _ Hlim es order _ _ Hinv)
    as (g' & Hrun & Hok); [by rewrite Hflags|by rewrite Hflags|done|].
  exists g, g'. split; [done|]. split; [done|]. unfold alg_geometry. by rewrite Hfac.
Qed.

Section witnesses.
#[local] Existing Instances default_build integral_libm xxh3_hashing.

(** The device runs ahead of and behind the workers; one worker flushes while the
    other still gets batches. *)
Definition uvm_example_events : list UvmEvent :=
  [UvmCall (mkCall 0 0 gpu_example_env (0, [1; 2])); UvmCall (mkCall 1 0 gpu_example_env (1, [0]));
   UvmCall (mkCall 0 0 gpu_example_env (2, [0])); UvmProgress 0 3; UvmFlush 1 gpu_example_env; UvmProgress 1 6;
   UvmCall (mkCall 0 0 gpu_example_env (1, [2])); UvmProgress 0 1; UvmFlush 0 gpu_example_env].

Lemma managed_run_tracks_batches_witness :
  ∃ g g', new_CCGPUSketchAlg 3 [1; 2; 3]%N 2 2 (tool_sketch_params 3 7) CCConf.default (λ _, gpu_example_junk) = Ok g ∧
    (g1 ← outcome_fold exec_event (gpu_allocate_worker_memory g 2) uvm_example_events; cudaDeviceSynchronize [1; 0] g1) = Ok g' ∧
    sketches_ok 3 (alg_geometry 3 7 CCConf.default)
      (λ v, toggle_all (vertex_edges (gc_batch <$> (uvm_example_events ≫= event_calls)) v) ∅) (cc_base g').
Proof.
  apply (managed_run_tracks_batches 3 7 [1; 2; 3]%N CCConf.default 2 2 gpu_example_batch (λ _, gpu_example_junk)
    uvm_example_events [1; 0]).
  - done.
  - exact device_hash_agrees_xxh3.
  - done.
  - vm_compute. lia.
  - done.
  - lia.
  - by vm_compute.
  - intros _. unfold input_sized, gpu_example_junk. cbn [fst edgeUpdates update_sizes update_src update_start_index].
    by rewrite !length_replicate.
  - cbn [events_ok uvm_example_events event_ok event_flags gc_thr gc_env gc_batch fst snd].
    split_and!; first [exact gpu_example_env_ok | apply gpu_example_fits; [cbn; lia|lia|repeat constructor; lia] | done | lia].
  - done.
  - apply Permutation_swap.
Defined.
End witnesses.
