(* ===== verification/SkGpu.v ===== *)
(** * One kernel for the whole stream: src/src/sk_gpu_sketch_alg.cpp

    Class [SKGPUSketchAlg] first records all batches, then updates the sketches in one
    of three ways: on the CPU, with one kernel launch over managed memory, or through
    the streams. The steps of a worker that records a batch are its accesses to the
    shared counters, the buffer of updates and, under the mutex, the three maps. *)

From Stdlib Require Import NArith Lia.
From stdpp Require Import base list gmap sets numbers sorting.
From S2P Require Import Prelude Float64 Util Bucket Sketch XXHash Dsu Configuration CCSketchAlg CudaKernel CudaStream CCGpu CudaUvm.

(** ** The algorithm *)

Module SK.

(** A worker's local variables: the offset and the number of its batch. *)
Record Locals := mkLocals { offset : nat; batch_id : nat }.

Record SKGPUSketchAlg := mkSK {
  base : CCSketchAlg;
  h_edgeUpdates : list nat;
  edgeUpdate_offset : nat;
  batch_count : nat;
  batch_sizes : gmap nat nat;
  batch_src : gmap nat nat;
  batch_start_index : gmap nat nat;
  locals : list Locals;
  delta_sketches : list Sketch;
  cudaStreams : list CudaStream;
}.

Definition set_base (a : SKGPUSketchAlg) (c : CCSketchAlg) : SKGPUSketchAlg :=
  mkSK c (h_edgeUpdates a) (edgeUpdate_offset a) (batch_count a) (batch_sizes a) (batch_src a)
    (batch_start_index a) (locals a) (delta_sketches a) (cudaStreams a).
Definition set_delta (a : SKGPUSketchAlg) (thr_id : nat) (d : Sketch) : SKGPUSketchAlg :=
  mkSK (base a) (h_edgeUpdates a) (edgeUpdate_offset a) (batch_count a) (batch_sizes a) (batch_src a)
    (batch_start_index a) (locals a) (<[thr_id := d]> (delta_sketches a)) (cudaStreams a).
Definition set_stream (a : SKGPUSketchAlg) (thr_id : nat) (st : CudaStream) : SKGPUSketchAlg :=
  mkSK (base a) (h_edgeUpdates a) (edgeUpdate_offset a) (batch_count a) (batch_sizes a) (batch_src a)
    (batch_start_index a) (locals a) (delta_sketches a) (<[thr_id := st]> (cudaStreams a)).

Section construct.
Context `{BuildConfig, Libm, Hashing}.

(** The constructor, with the scratch sketches of the CPU's mode or the streams of the
    GPU's; [junk] is what the streams' buffers hold and [num_workers] is the number of
    threads that record batches. *)
Definition new_SKGPUSketchAlg (using_gpu : bool) (num_nodes num_updates num_threads num_workers : nat) (prio : list N)
    (params : SketchParams) (cfg : CCAlgConfiguration) (junk : nat → DeviceInput * list Bucket * list Bucket)
    : outcome SKGPUSketchAlg :=
  let c := new_CCSketchAlg num_nodes (p_seed params) prio cfg in
  batch_size ← get_desired_updates_per_batch c;
  Ok (mkSK c (replicate (2 * num_updates) 0) 0 0 ∅ ∅ ∅ (replicate num_workers (mkLocals 0 0))
    (if using_gpu then [] else replicate num_threads (alg_sketch num_nodes (p_seed params) d_one))
    (if using_gpu then (λ thr_id, new_CudaStream 0 num_nodes 1024 (N.to_nat batch_size) 540 params
        (junk thr_id).1.1 (junk thr_id).1.2 (junk thr_id).2) <$> seq 0 num_threads else [])).
End construct.

(** *** Recording batches *)

Inductive Action :=
  | FetchOffset (size : nat)
  | WriteUpdate (index dst : nat)
  | FetchBatchId
  | InsertBatch (src_vertex size : nat).

(** What a worker does for one batch. *)
Definition apply_update_batch (src_vertex : nat) (dst_vertices : list nat) : list Action :=
  [FetchOffset (length dst_vertices)] ++ imap WriteUpdate dst_vertices ++
  [FetchBatchId; InsertBatch src_vertex (length dst_vertices)].

(** [std::map::insert] keeps the value of a key that is there. *)
Definition map_insert (m : gmap nat nat) (k v : nat) : gmap nat nat :=
  match m !! k with Some _ => m | None => <[k := v]> m end.

Definition exec (a : SKGPUSketchAlg) (x : nat * Action) : outcome SKGPUSketchAlg :=
  let set h off count sizes src start ls :=
    mkSK (base a) h off count sizes src start ls (delta_sketches a) (cudaStreams a) in
  l ← arr_get (locals a) x.1;
  match x.2 with
  | FetchOffset size =>
      Ok (set (h_edgeUpdates a) (edgeUpdate_offset a + size) (batch_count a) (batch_sizes a) (batch_src a)
        (batch_start_index a) (<[x.1 := mkLocals (edgeUpdate_offset a) (batch_id l)]> (locals a)))
  | WriteUpdate index dst =>
      h ← arr_set (h_edgeUpdates a) (offset l + index) dst;
      Ok (set h (edgeUpdate_offset a) (batch_count a) (batch_sizes a) (batch_src a) (batch_start_index a) (locals a))
  | FetchBatchId =>
      Ok (set (h_edgeUpdates a) (edgeUpdate_offset a) (batch_count a + 1) (batch_sizes a) (batch_src a)
        (batch_start_index a) (<[x.1 := mkLocals (offset l) (batch_count a)]> (locals a)))
  | InsertBatch src_vertex size =>
      Ok (set (h_edgeUpdates a) (edgeUpdate_offset a) (batch_count a)
        (map_insert (batch_sizes a) (batch_id l) size) (map_insert (batch_src a) (batch_id l) src_vertex)
        (map_insert (batch_start_index a) (batch_id l) (offset l)) (locals a))
  end.

(** The workers record their batches; a call throws while updates are locked. *)
Definition record_batches (calls : list (list (nat * list nat))) (sched : list nat) (a : SKGPUSketchAlg)
    : outcome SKGPUSketchAlg :=
  if update_locked (base a) then Throw UpdateLockedException
  else outcome_fold exec a (interleave sched ((λ bs, b ← bs; apply_update_batch b.1 b.2) <$> calls)).

(** *** Updating the sketches *)

(** [operator[]] of the maps: a missing key counts as 0. *)
Definition map_get (m : gmap nat nat) (k : nat) : nat := default 0 (m !! k).

Definition key_le (x y : nat * nat) : Prop := x.1 ≤ y.1.
#[export] Instance key_le_dec x y : Decision (key_le x y).
Proof. unfold key_le. apply _. Defined.

(** The updates of a batch in the buffer. *)
Definition batch_updates (a : SKGPUSketchAlg) (batch_id : nat) : outcome (list nat) :=
  outcome_list ((λ u, arr_get (h_edgeUpdates a) (map_get (batch_start_index a) batch_id + u)) <$>
    seq 0 (map_get (batch_sizes a) batch_id)).

(** The batches of each thread. *)
Definition thread_batches (num_batches num_threads : nat) : list (list nat) :=
  (λ thr_id, thread_ids thr_id num_batches num_threads) <$> seq 0 num_threads.

Section launches.
Context `{BuildConfig, Hashing}.

(** A batch on the CPU; only the last part touches what threads share, under a lock. *)
Definition cpu_batch (a : SKGPUSketchAlg) (x : nat * nat) : outcome SKGPUSketchAlg :=
  d ← arr_get (delta_sketches a) x.1;
  let src_vertex := map_get (batch_src a) x.2 in
  dsts ← batch_updates a x.2;
  let d := foldl (λ d dst, update d (concat_pairing_fn src_vertex dst)) (zero_contents d) dsts in
  c ← apply_raw_buckets_update (base a) src_vertex (buckets d);
  Ok (set_base (set_delta a x.1 d) c).

Definition launch_cpu_update (num_host_threads : nat) (sched : list nat) (a : SKGPUSketchAlg) : outcome SKGPUSketchAlg :=
  outcome_fold cpu_batch a (interleave sched (thread_batches (batch_count a) num_host_threads)).

(** A batch through its thread's stream; [progress] and [envs] are what the device does. *)
Definition gpu_batch (progress : nat → nat) (envs : nat → LaunchEnv) (a : SKGPUSketchAlg) (x : nat * nat)
    : outcome SKGPUSketchAlg :=
  let src_vertex := map_get (batch_src a) x.2 in
  dsts ← batch_updates a x.2;
  st ← arr_get (cudaStreams a) x.1;
  r ← process_batch (progress x.2) (envs x.2) src_vertex dsts st (base a);
  Ok (set_stream (set_base a r.2) x.1 r.1).

Definition launch_gpu_update (progress : nat → nat) (envs : nat → LaunchEnv) (num_host_threads : nat) (sched : list nat)
    (a : SKGPUSketchAlg) : outcome SKGPUSketchAlg :=
  outcome_fold (gpu_batch progress envs) a (interleave sched (thread_batches (batch_count a) num_host_threads)).

Definition flush_stream (envs : nat → LaunchEnv) (a : SKGPUSketchAlg) (thr_id : nat) : outcome SKGPUSketchAlg :=
  st ← arr_get (cudaStreams a) thr_id;
  r ← flush_buffers_default (envs thr_id) st (base a);
  Ok (set_stream (set_base a r.2) thr_id r.1).

Definition flush_buffers (envs : nat → LaunchEnv) (order : list nat) (a : SKGPUSketchAlg) : outcome SKGPUSketchAlg :=
  outcome_fold (flush_stream envs) a order.

(** The arrays that a launch reads are filled from the maps, in the order of the keys;
    [junk] is what the memory held. *)
Definition map_entries (m : gmap nat nat) : list (nat * nat) := merge_sort key_le (map_to_list m).

Definition fill_entry (a : SKGPUSketchAlg) (inp : DeviceInput) (kv : nat * nat) : outcome DeviceInput :=
  sizes ← arr_set (update_sizes inp) kv.1 kv.2;
  srcs ← arr_set (update_src inp) kv.1 (map_get (batch_src a) kv.1);
  starts ← arr_set (update_start_index inp) kv.1 (map_get (batch_start_index a) kv.1);
  Ok (mkInput srcs sizes starts (edgeUpdates inp)).

Definition launch_input (a : SKGPUSketchAlg) (junk : nat → nat) : outcome DeviceInput :=
  let m := junk <$> seq 0 (batch_count a) in
  outcome_fold (fill_entry a) (mkInput m m m (h_edgeUpdates a)) (map_entries (batch_sizes a)).

Definition launch_gpu_kernel (params : SketchParams) (junk : nat → nat) (env : LaunchEnv) (a : SKGPUSketchAlg)
    : outcome SKGPUSketchAlg :=
  inp ← launch_input a junk;
  m ← single_sketchUpdate_UVM_kernel 1024 params inp (env_garbage env) (env_blocks env) (env_grid env)
        (batch_count a) (managed_buckets (base a));
  Ok (set_base a (set_managed (base a) m)).
End launches.
End SK.
