(* ===== verification/SkGpuSpec.v ===== *)
(** * Batches are recorded once: src/src/sk_gpu_sketch_alg.cpp

    Whatever the interleaving of the workers, the buffer and the maps hold every batch
    under a number of its own: a worker writes only to the part of the buffer that its
    atomic add reserved, and announces its batch when it is written. *)

From Stdlib Require Import NArith Lia.
From stdpp Require Import base list gmap sets numbers sorting.
From S2P Require Import Prelude Float64 Util Bucket Sketch XXHash Concrete SketchSpec Dsu Graph Configuration CCSketchAlg CudaKernel CudaKernelSpec CudaStream CudaStreamSpec CCGpu CCGpuSpec CudaUvm CudaUvmSpec SkGpu.

Import SK.

Abbreviation batch := (nat * list nat)%type.

(** ** Reserved parts of the buffer *)

Definition written (h : list nat) (off : nat) (l : list nat) : Prop :=
  ∀ j d, l !! j = Some d → h !! (off + j) = Some d.

Lemma reserved_below (slots : list batch) i i' b :
  i < i' → slots !! i = Some b → offs (take i slots) + length b.2 ≤ offs (take i' slots).
Proof.
  intros Hi Hb. rewrite <- (lookup_take_lt _ i') in Hb by done.
  pose proof (offs_middle (take i' slots) i b Hb) as Hm. rewrite take_take, Nat.min_l in Hm by lia. done.
Qed.

Lemma written_insert (slots : list batch) h i i' b b' k x l :
  slots !! i = Some b → slots !! i' = Some b' → i ≠ i' → k < length b.2 → l `prefix_of` b'.2 →
  written h (offs (take i' slots)) l → written (<[offs (take i slots) + k := x]> h) (offs (take i' slots)) l.
Proof.
  intros Hb Hb' Hne Hk [l' Hl] Hw j d Hj. rewrite list_lookup_insert_ne; [by apply Hw|].
  apply lookup_lt_Some in Hj. apply (f_equal length) in Hl. rewrite length_app in Hl.
  destruct (decide (i < i')).
  - pose proof (reserved_below slots i i' b ltac:(lia) Hb). lia.
  - pose proof (reserved_below slots i' i b' ltac:(lia) Hb'). lia.
Qed.

Lemma written_snoc h off l k d :
  l !! k = Some d → off + k < length h → written h off (take k l) → written (<[off + k := d]> h) off (take (S k) l).
Proof.
  intros Hd Hlt Hw j d' Hj. destruct (decide (j = k)) as [->|Hne].
  - rewrite lookup_take_lt, Hd in Hj by lia. injection Hj as <-. by apply list_lookup_insert_eq.
  - rewrite list_lookup_insert_ne by lia. apply Hw. pose proof (lookup_lt_Some _ _ _ Hj) as Hl.
    rewrite length_take in Hl. rewrite lookup_take_lt in Hj |- * by lia. done.
Qed.

(** ** Where a worker is *)

Inductive Phase :=
  | Idle
  | Writing (i : nat) (b : batch) (k : nat)
  | Holding (i : nat) (b : batch) (id : nat).

Record Worker := mkWorker { phase : Phase; todo : list batch }.

Definition phase_actions (ph : Phase) : list Action :=
  match ph with
  | Idle => []
  | Writing _ b k => drop k (imap WriteUpdate b.2) ++ [FetchBatchId; InsertBatch b.1 (length b.2)]
  | Holding _ b _ => [InsertBatch b.1 (length b.2)]
  end.

Definition remaining (w : Worker) : list Action :=
  phase_actions (phase w) ++ (b ← todo w; apply_update_batch b.1 b.2).

Definition writing (w : Worker) : list nat := match phase w with Writing i _ _ => [i] | _ => [] end.
Definition holding (w : Worker) : list nat := match phase w with Holding _ _ id => [id] | _ => [] end.

(** [slots] are the batches in the order of their places in the buffer, [ids] gives the
    place of each number that was handed out, [ins] are the numbers in the maps. *)
Definition phase_ok (slots : list batch) (ids : list nat) (h : list nat) (w : Worker) (l : Locals) : Prop :=
  match phase w with
  | Idle => True
  | Writing i b k => slots !! i = Some b ∧ offset l = offs (take i slots) ∧ written h (offset l) (take k b.2)
  | Holding i b id => slots !! i = Some b ∧ offset l = offs (take i slots) ∧ ids !! id = Some i ∧ batch_id l = id
  end.

Definition entry (a : SKGPUSketchAlg) (id : nat) : option nat * option nat * option nat :=
  (batch_sizes a !! id, batch_src a !! id, batch_start_index a !! id).

Record rec_inv (a0 : SKGPUSketchAlg) (all : list batch) (ws : list Worker) (slots : list batch) (ids ins : list nat)
    (a : SKGPUSketchAlg) : Prop := {
  ri_rest : base a = base a0 ∧ delta_sketches a = delta_sketches a0 ∧ cudaStreams a = cudaStreams a0 ∧
    length (h_edgeUpdates a) = length (h_edgeUpdates a0);
  ri_all : all ≡ₚ slots ++ concat (todo <$> ws);
  ri_room : offs all ≤ length (h_edgeUpdates a);
  ri_locals : Forall2 (phase_ok slots ids (h_edgeUpdates a)) ws (locals a);
  ri_offset : edgeUpdate_offset a = offs slots;
  ri_count : batch_count a = length ids;
  ri_slots : seq 0 (length slots) ≡ₚ ids ++ concat (writing <$> ws);
  ri_ids : seq 0 (length ids) ≡ₚ ins ++ concat (holding <$> ws);
  ri_written : ∀ id i b, ids !! id = Some i → slots !! i = Some b → written (h_edgeUpdates a) (offs (take i slots)) b.2;
  ri_in : ∀ id, id ∈ ins → ∃ i b, ids !! id = Some i ∧ slots !! i = Some b ∧
    entry a id = (Some (length b.2), Some b.1, Some (offs (take i slots)));
  ri_out : ∀ id, id ∉ ins → entry a id = (None, None, None);
}.

Lemma offs_perm (l l' : list batch) : l ≡ₚ l' → offs l = offs l'.
Proof. intros Hp. unfold offs. by rewrite Hp. Qed.

(** Other workers do not notice new places or numbers. *)
Lemma phase_ok_grow slots ids h w l slots' ids' :
  phase_ok slots ids h w l → phase_ok (slots ++ slots') (ids ++ ids') h w l.
Proof.
  unfold phase_ok. destruct (phase w) as [|i b k|i b id]; [done| |]; intros (Hb & Ho & Hrest).
  - pose proof (lookup_lt_Some _ _ _ Hb). rewrite lookup_app_l, take_app_le by lia. done.
  - destruct Hrest as [Hid Hl]. pose proof (lookup_lt_Some _ _ _ Hb). pose proof (lookup_lt_Some _ _ _ Hid).
    rewrite !lookup_app_l, take_app_le by lia. done.
Qed.

Section steps.
Context (a0 : SKGPUSketchAlg) (all : list batch).
Implicit Types (a : SKGPUSketchAlg) (ws : list Worker).

Definition step_ok a ws t act w' : Prop :=
  ∃ slots' ids' ins' a', exec a (t, act) = Ok a' ∧ rec_inv a0 all (<[t := w']> ws) slots' ids' ins' a'.

Lemma fetch_offset_ok ws slots ids ins a t b bs :
  rec_inv a0 all ws slots ids ins a → ws !! t = Some (mkWorker Idle (b :: bs)) →
  step_ok a ws t (FetchOffset (length b.2)) (mkWorker (Writing (length slots) b 0) bs).
Proof.
  intros [Hrest Hall Hroom Hloc Hoff Hcnt Hslots Hids Hwr Hin Hout] Ht.
  destruct (Forall2_lookup_l _ _ _ _ _ Hloc Ht) as (l & Hl & _).
  exists (slots ++ [b]), ids, ins. eexists. split; [unfold exec; cbn [fst snd]; rewrite (arr_get_Ok _ _ _ Hl); done|].
  destruct (concat_fmap_entry todo ws t _ Ht) as (r1 & Hr1 & Hi1). destruct (concat_fmap_entry writing ws t _ Ht) as (r2 & Hr2 & Hi2).
  destruct (concat_fmap_entry holding ws t _ Ht) as (r3 & Hr3 & Hi3).
  assert (∀ i b', slots !! i = Some b' → (slots ++ [b]) !! i = Some b' ∧ take i (slots ++ [b]) = take i slots) as Hgrow.
  { intros i b' Hi. pose proof (lookup_lt_Some _ _ _ Hi). by rewrite lookup_app_l, take_app_le by lia. }
  constructor; cbn; try done.
  - rewrite Hall, Hi1, Hr1. cbn. rewrite <- app_assoc. done.
  - apply Forall2_insert; [|cbn; rewrite lookup_app_r, Nat.sub_diag, take_app_length by done; done].
    eapply Forall2_impl; [exact Hloc|]. intros w l' Hw. rewrite <- (app_nil_r ids). by apply phase_ok_grow.
  - rewrite offs_app, Hoff. unfold offs at 3. cbn. lia.
  - rewrite Hi2, length_app, seq_app, Hslots, Hr2. cbn. solve_Permutation.
  - by rewrite Hi3, Hids, Hr3.
  - intros id i b' Hi Hb'. assert (i < length slots) as Hlt.
    { apply list_elem_of_lookup_2 in Hi. assert (i ∈ seq 0 (length slots)) as Hs by (rewrite Hslots; set_solver).
      apply elem_of_seq in Hs. lia. }
    destruct (lookup_lt_is_Some_2 slots i Hlt) as [b2 Hb2]. destruct (Hgrow i b2 Hb2) as [Hb3 ->].
    apply (Hwr id i b' Hi). congruence.
  - intros id Hid. destruct (Hin id Hid) as (i & b' & Hi & Hb' & He). exists i, b'. destruct (Hgrow i b' Hb') as [-> ->]. done.
Qed.

Lemma write_update_ok ws slots ids ins a t i b k d bs :
  rec_inv a0 all ws slots ids ins a → ws !! t = Some (mkWorker (Writing i b k) bs) → b.2 !! k = Some d →
  step_ok a ws t (WriteUpdate k d) (mkWorker (Writing i b (S k)) bs).
Proof.
  intros [Hrest Hall Hroom Hloc Hoff Hcnt Hslots Hids Hwr Hin Hout] Ht Hd.
  destruct (Forall2_lookup_l _ _ _ _ _ Hloc Ht) as (l & Hl & (Hb & Ho & Hw)). cbn in Hb, Ho, Hw.
  pose proof (lookup_lt_Some _ _ _ Hd) as Hk.
  assert (offs (take i slots) + k < length (h_edgeUpdates a)) as Hlt.
  { pose proof (offs_middle slots i b Hb). rewrite (offs_perm _ _ Hall), offs_app in Hroom. lia. }
  exists slots, ids, ins. eexists. split.
  { unfold exec. cbn [fst snd]. rewrite (arr_get_Ok _ _ _ Hl). cbn [mbind outcome_bind]. rewrite Ho, arr_set_Ok by done. done. }
  destruct (concat_fmap_entry todo ws t _ Ht) as (r1 & Hr1 & Hi1). destruct (concat_fmap_entry writing ws t _ Ht) as (r2 & Hr2 & Hi2).
  destruct (concat_fmap_entry holding ws t _ Ht) as (r3 & Hr3 & Hi3).
  assert (NoDup (ids ++ concat (writing <$> ws))) as Hnd by (rewrite <- Hslots; apply NoDup_seq).
  assert (∀ t' w' i' b' k', ws !! t' = Some w' → t' ≠ t → phase w' = Writing i' b' k' → i ≠ i') as Hother.
  { intros t' w' i' b' k' Hw' Hne Hph <-. rewrite Hr2 in Hnd. apply list.NoDup_app in Hnd as (_ & _ & Hnd).
    cbn [writing phase app] in Hnd. apply list.NoDup_cons in Hnd as [Hni _]. apply Hni.
    destruct (concat_fmap_entry writing (<[t := mkWorker Idle []]> ws) t' w') as (r & Hr & _).
    { by rewrite list_lookup_insert_ne. }
    rewrite Hi2 in Hr. cbn [writing phase app] in Hr. rewrite Hr. unfold writing. rewrite Hph. set_solver. }
  constructor; cbn; try done.
  - by rewrite length_insert.
  - by rewrite Hi1, Hall, Hr1.
  - by rewrite length_insert.
  - apply Forall2_same_length_lookup. split; [rewrite length_insert; by eapply Forall2_length|].
    intros t' w' l' Hw' Hl'. destruct (decide (t' = t)) as [->|Hne].
    + rewrite list_lookup_insert_eq in Hw' by (by eapply lookup_lt_Some). injection Hw' as <-.
      assert (l' = l) as -> by congruence. split; [done|]. split; [done|]. rewrite <- Ho. apply written_snoc; [done|lia|done].
    + rewrite list_lookup_insert_ne in Hw' by done. destruct (Forall2_lookup_l _ _ _ _ _ Hloc Hw') as (l2 & Hl2 & Hok).
      assert (l2 = l') as -> by congruence. unfold phase_ok in *. destruct (phase w') as [|i' b' k'|i' b' id'] eqn:Hph; [done| |done].
      destruct Hok as (Hb' & Ho' & Hw2). split; [done|]. split; [done|]. rewrite Ho' in *.
      eapply written_insert; [done|done|by eapply Hother|done|apply prefix_take|done].
  - by rewrite Hi2, Hslots, Hr2.
  - by rewrite Hi3, Hids, Hr3.
  - intros id i' b' Hi' Hb'. eapply written_insert; [done|done| |done|done|by eapply Hwr].
    intros <-. apply list_elem_of_lookup_2 in Hi'. apply list.NoDup_app in Hnd as (_ & Hnd & _). apply (Hnd i Hi').
    rewrite Hr2. cbn. set_solver.
Qed.

Lemma fetch_batch_id_ok ws slots ids ins a t i b k bs :
  rec_inv a0 all ws slots ids ins a → ws !! t = Some (mkWorker (Writing i b k) bs) → length b.2 ≤ k →
  step_ok a ws t FetchBatchId (mkWorker (Holding i b (length ids)) bs).
Proof.
  intros [Hrest Hall Hroom Hloc Hoff Hcnt Hslots Hids Hwr Hin Hout] Ht Hk.
  destruct (Forall2_lookup_l _ _ _ _ _ Hloc Ht) as (l & Hl & (Hb & Ho & Hw)). cbn in Hb, Ho, Hw.
  exists slots, (ids ++ [i]), ins. eexists. split; [unfold exec; cbn [fst snd]; rewrite (arr_get_Ok _ _ _ Hl); done|].
  destruct (concat_fmap_entry todo ws t _ Ht) as (r1 & Hr1 & Hi1). destruct (concat_fmap_entry writing ws t _ Ht) as (r2 & Hr2 & Hi2).
  destruct (concat_fmap_entry holding ws t _ Ht) as (r3 & Hr3 & Hi3).
  constructor; cbn; try done.
  - by rewrite Hi1, Hall, Hr1.
  - apply Forall2_insert.
    + eapply Forall2_impl; [exact Hloc|]. intros w l' Hw'. rewrite <- (app_nil_r slots). by apply phase_ok_grow.
    + split; [done|]. split; [done|]. rewrite lookup_app_r, Nat.sub_diag by done. done.
  - rewrite length_app, Hcnt. done.
  - rewrite Hi2, Hslots, Hr2. cbn. solve_Permutation.
  - rewrite length_app, seq_app, Hi3, Hids, Hr3. cbn. solve_Permutation.
  - intros id i' b' Hi' Hb'. destruct (decide (id < length ids)).
    + rewrite lookup_app_l in Hi' by done. by eapply Hwr.
    + rewrite lookup_app_r in Hi' by lia. apply list_lookup_singleton_Some in Hi' as [_ <-].
      assert (b' = b) as -> by congruence. rewrite take_ge in Hw by done. by rewrite <- Ho.
  - intros id Hid. destruct (Hin id Hid) as (i' & b' & Hi' & Hb' & He). exists i', b'. split; [|done].
    by rewrite lookup_app_l by (by eapply lookup_lt_Some).
Qed.

Lemma insert_batch_ok ws slots ids ins a t i b id bs :
  rec_inv a0 all ws slots ids ins a → ws !! t = Some (mkWorker (Holding i b id) bs) →
  step_ok a ws t (InsertBatch b.1 (length b.2)) (mkWorker Idle bs).
Proof.
  intros [Hrest Hall Hroom Hloc Hoff Hcnt Hslots Hids Hwr Hin Hout] Ht.
  destruct (Forall2_lookup_l _ _ _ _ _ Hloc Ht) as (l & Hl & (Hb & Ho & Hid & Hlid)). cbn in Hb, Ho, Hid, Hlid.
  destruct (concat_fmap_entry todo ws t _ Ht) as (r1 & Hr1 & Hi1). destruct (concat_fmap_entry writing ws t _ Ht) as (r2 & Hr2 & Hi2).
  destruct (concat_fmap_entry holding ws t _ Ht) as (r3 & Hr3 & Hi3).
  assert (id ∉ ins) as Hnew.
  { assert (NoDup (ins ++ concat (holding <$> ws))) as Hnd by (rewrite <- Hids; apply NoDup_seq).
    intros Hi. apply list.NoDup_app in Hnd as (_ & Hnd & _). apply (Hnd id Hi). rewrite Hr3. cbn. set_solver. }
  pose proof (Hout id Hnew) as He. unfold entry in He. injection He as He1 He2 He3.
  exists slots, ids, (ins ++ [id]). eexists. split.
  { unfold exec. cbn [fst snd]. rewrite (arr_get_Ok _ _ _ Hl). cbn [mbind outcome_bind]. unfold map_insert.
    rewrite Hlid, He1, He2, He3. done. }
  constructor; cbn; try done.
  - by rewrite Hi1, Hall, Hr1.
  - rewrite <- (list_insert_id (locals a) t l) by done. by apply Forall2_insert.
  - by rewrite Hi2, Hslots, Hr2.
  - rewrite Hi3, Hids, Hr3. cbn. solve_Permutation.
  - intros id' Hid'. apply elem_of_app in Hid' as [Hid'|Hid'].
    + destruct (Hin id' Hid') as (i' & b' & Hi' & Hb' & He). exists i', b'. split; [done|]. split; [done|].
      unfold entry in *. cbn. rewrite !lookup_insert_ne by (intros ->; done). done.
    + apply list_elem_of_singleton in Hid' as ->. exists i, b. split; [done|]. split; [done|].
      unfold entry. cbn. by rewrite !lookup_insert_eq, Ho.
  - intros id' Hid'. rewrite elem_of_app, list_elem_of_singleton in Hid'. unfold entry. cbn.
    rewrite !lookup_insert_ne by (intros ->; tauto). apply Hout. tauto.
Qed.
End steps.

(** ** A whole recording *)

Lemma record_step a0 all ts t act l a :
  ts !! t = Some (act :: l) → (∃ ws slots ids ins, ts = remaining <$> ws ∧ rec_inv a0 all ws slots ids ins a) →
  ∃ a', exec a (t, act) = Ok a' ∧ ∃ ws slots ids ins, <[t := l]> ts = remaining <$> ws ∧ rec_inv a0 all ws slots ids ins a'.
Proof.
  intros Hts (ws & slots & ids & ins & -> & Hinv). rewrite list_lookup_fmap in Hts.
  destruct (ws !! t) as [[ph bs]|] eqn:Ht; [|done]. cbn in Hts. injection Hts as Hts.
  assert (∀ w', remaining w' = l → step_ok a0 all a ws t act w' →
    ∃ a', exec a (t, act) = Ok a' ∧ ∃ ws' slots' ids' ins', <[t := l]> (remaining <$> ws) = remaining <$> ws' ∧
      rec_inv a0 all ws' slots' ids' ins' a') as Hdone.
  { intros w' <- (slots' & ids' & ins' & a' & Hrun & Hinv'). exists a'. split; [done|].
    exists (<[t := w']> ws), slots', ids', ins'. by rewrite list_fmap_insert. }
  unfold remaining in Hts. cbn [phase todo] in Hts. destruct ph as [|i b k|i b id].
  - destruct bs as [|b bs]; [done|]. cbn in Hts. injection Hts as <- Hl.
    apply (Hdone (mkWorker (Writing (length slots) b 0) bs)); [|by eapply fetch_offset_ok].
    unfold remaining. cbn. by rewrite <- Hl, <- !app_assoc.
  - destruct (b.2 !! k) as [d|] eqn:Hd.
    + cbn in Hts. rewrite (drop_S _ (WriteUpdate k d)) in Hts by (by rewrite list_lookup_imap, Hd). injection Hts as <- Hl.
      by apply (Hdone (mkWorker (Writing i b (S k)) bs)); [|by eapply write_update_ok].
    + cbn in Hts. apply lookup_ge_None_1 in Hd. rewrite drop_ge in Hts by (by rewrite length_imap). injection Hts as <- Hl.
      apply (Hdone (mkWorker (Holding i b (length ids)) bs)); [done|].
      by eapply fetch_batch_id_ok.
  - cbn in Hts. injection Hts as <- <-. by apply (Hdone (mkWorker Idle bs)); [|by eapply insert_batch_ok].
Qed.

(** What the recorded state says: batch [id] is [bs !! id]. *)
Record recorded (a : SKGPUSketchAlg) (bs : list batch) : Prop := {
  rc_count : batch_count a = length bs;
  rc_in : ∀ id b, bs !! id = Some b → ∃ off, entry a id = (Some (length b.2), Some b.1, Some off) ∧
    written (h_edgeUpdates a) off b.2;
  rc_out : ∀ id, length bs ≤ id → entry a id = (None, None, None);
}.

(** Before anything is recorded. *)
Record unrecorded (a : SKGPUSketchAlg) : Prop := {
  un_open : update_locked (base a) = false;
  un_offset : edgeUpdate_offset a = 0;
  un_count : batch_count a = 0;
  un_entry : ∀ id, entry a id = (None, None, None);
}.

Definition same_rest (a a' : SKGPUSketchAlg) : Prop :=
  base a' = base a ∧ delta_sketches a' = delta_sketches a ∧ cudaStreams a' = cudaStreams a ∧
  length (h_edgeUpdates a') = length (h_edgeUpdates a).

Lemma all_done (ws : list Worker) :
  Forall (λ l, l = []) (remaining <$> ws) →
  concat (todo <$> ws) = [] ∧ concat (writing <$> ws) = [] ∧ concat (holding <$> ws) = [].
Proof.
  induction ws as [|[ph bs] ws IH]; [done|]. rewrite fmap_cons, list.Forall_cons. intros [Hw Hws].
  destruct (IH Hws) as (H1 & H2 & H3). unfold remaining in Hw. cbn [phase todo] in Hw.
  apply app_nil in Hw as [Hph Hbs]. destruct bs as [|b bs]; [|done].
  destruct ph as [|i b k|i b id]; [by cbn; rewrite H1, H2, H3| |done]. cbn in Hph. by apply app_nil in Hph as [_ ?].
Qed.

Lemma fmap_lookup_total_seq {A} `{!Inhabited A} (l : list A) : (λ i, l !!! i) <$> seq 0 (length l) = l.
Proof.
  apply list_eq. intros i. rewrite list_lookup_fmap. destruct (decide (i < length l)) as [Hi|Hi].
  - rewrite lookup_seq_lt by done. cbn. symmetry. by apply list_lookup_lookup_total_lt.
  - by rewrite (lookup_ge_None_2 l), (lookup_ge_None_2 (seq _ _)) by (rewrite ?length_seq; lia).
Qed.

Lemma record_batches_ok a calls sched :
  unrecorded a → length (locals a) = length calls → offs (concat calls) ≤ length (h_edgeUpdates a) →
  ∃ a' bs, record_batches calls sched a = Ok a' ∧ bs ≡ₚ concat calls ∧ recorded a' bs ∧ same_rest a a'.
Proof.
  intros [Hopen Hoff Hcnt Hent] Hlen Hroom. unfold record_batches. rewrite Hopen.
  set (ws0 := mkWorker Idle <$> calls).
  assert (todo <$> ws0 = calls) as Htodo by (unfold ws0; rewrite <- list_fmap_compose; apply list_fmap_id).
  assert (((λ bs : list batch, b ← bs; apply_update_batch b.1 b.2) <$> calls) = remaining <$> ws0) as ->.
  { unfold ws0. rewrite <- list_fmap_compose. done. }
  assert (∀ f : Worker → list nat, (∀ bs, f (mkWorker Idle bs) = []) → concat (f <$> ws0) = []) as Hnone.
  { intros f Hf. unfold ws0. clear -Hf. induction calls as [|c l IH]; [done|]. cbn. by rewrite Hf, IH. }
  destruct (interleave_invariant exec (λ ts a', ∃ ws slots ids ins, ts = remaining <$> ws ∧ rec_inv a (concat calls) ws slots ids ins a')
    (λ ts t act l a', record_step a (concat calls) ts t act l a') sched (remaining <$> ws0) a)
    as (a' & ts' & Hrun & Hnil & _ & (ws & slots & ids & ins & -> & Hinv)).
  { exists ws0, [], [], []. split; [done|]. constructor; try done; rewrite ?Htodo, ?Hnone by done; try done; [|set_solver].
    apply Forall2_same_length_lookup. split; [by unfold ws0; rewrite length_fmap|]. intros i w l Hw _.
    unfold ws0 in Hw. rewrite list_lookup_fmap in Hw. destruct (calls !! i); [|done]. by injection Hw as <-. }
  destruct (all_done ws Hnil) as (H1 & H2 & H3). destruct Hinv as [Hrest Hall _ _ _ Hc Hslots Hids Hwr Hin Hout].
  rewrite H1, app_nil_r in Hall. rewrite H2, app_nil_r in Hslots. rewrite H3, app_nil_r in Hids.
  exists a', ((λ i, slots !!! i) <$> ids). split; [done|]. split; [by rewrite <- Hslots, fmap_lookup_total_seq|]. split; [|done].
  constructor.
  - by rewrite length_fmap.
  - intros id b Hb. rewrite list_lookup_fmap in Hb. destruct (ids !! id) as [i|] eqn:Hi; [|done]. cbn in Hb. injection Hb as <-.
    assert (id ∈ ins) as Hid. { rewrite <- Hids. apply elem_of_seq. apply lookup_lt_Some in Hi. lia. }
    destruct (Hin id Hid) as (i' & b & Hi' & Hb & He). assert (i' = i) as -> by congruence.
    rewrite (list_lookup_total_correct _ _ _ Hb). eexists. split; [exact He|]. by eapply Hwr.
  - intros id Hid. rewrite length_fmap in Hid. apply Hout. rewrite <- Hids, elem_of_seq. lia.
Qed.
