(* ===== verification/SkGpuProps.v ===== *)
(** * The recorded batches reach the sketches: src/src/sk_gpu_sketch_alg.cpp

    The CPU's threads, the single kernel and the streams each apply every recorded batch
    once, so the sketches are those of the batches that the workers handed in. *)

From Stdlib Require Import NArith Lia.
From stdpp Require Import base list gmap sets numbers sorting.
From S2P Require Import Prelude Float64 Util Bucket Sketch XXHash Concrete SketchSpec Dsu Graph Configuration CCSketchAlg CudaKernel CudaKernelSpec CudaStream CudaStreamSpec CCGpu CCGpuSpec CudaUvm CudaUvmSpec SkGpu SkGpuSpec.

Import SK.

Lemma map_get_Some (m : gmap nat nat) k v : m !! k = Some v → map_get m k = v.
Proof. intros Hk. unfold map_get. by rewrite Hk. Qed.

Lemma recorded_get a bs id b :
  recorded a bs → bs !! id = Some b →
  map_get (batch_src a) id = b.1 ∧ batch_updates a id = Ok b.2.
Proof.
  intros [_ Hin _] Hb. destruct (Hin id b Hb) as (off & He & Hw). unfold entry in He. injection He as Hs Hsrc Hst.
  split; [by apply map_get_Some|]. unfold batch_updates. rewrite (map_get_Some _ _ _ Hs), (map_get_Some _ _ _ Hst).
  rewrite <- (fmap_lookup_total_seq b.2) at 2. apply outcome_list_fmap. intros u Hu. apply elem_of_seq in Hu.
  apply arr_get_Ok, Hw. apply list_lookup_lookup_total_lt. lia.
Qed.

(** The threads share the batches among them. *)
Lemma thread_batches_perm sched num T :
  0 < T → (interleave sched (thread_batches num T)).*2 ≡ₚ seq 0 num.
Proof. intros HT. rewrite interleave_perm. by apply thread_ids_perm. Qed.

Lemma thread_batches_lt sched num T t id :
  0 < T → (t, id) ∈ interleave sched (thread_batches num T) → t < T ∧ id < num.
Proof.
  intros HT Hin. split.
  - pose proof (interleave_lt _ _ _ Hin) as Ht. unfold thread_batches in Ht. rewrite length_fmap, length_seq in Ht. done.
  - apply (list_elem_of_fmap_2 snd) in Hin. rewrite thread_batches_perm in Hin by done. apply elem_of_seq in Hin. cbn in Hin. lia.
Qed.

(** ** The arrays of a launch *)

Definition input_length (num : nat) (inp : DeviceInput) : Prop :=
  length (update_sizes inp) = num ∧ length (update_src inp) = num ∧ length (update_start_index inp) = num.

Lemma fill_entries_ok a num l inp :
  NoDup l.*1 → Forall (λ kv, kv.1 < num) l → input_length num inp →
  ∃ inp', outcome_fold (fill_entry a) inp l = Ok inp' ∧ edgeUpdates inp' = edgeUpdates inp ∧
    (∀ kv, kv ∈ l → update_sizes inp' !! kv.1 = Some kv.2 ∧ update_src inp' !! kv.1 = Some (map_get (batch_src a) kv.1) ∧
       update_start_index inp' !! kv.1 = Some (map_get (batch_start_index a) kv.1)) ∧
    (∀ k, k ∉ l.*1 → update_sizes inp' !! k = update_sizes inp !! k ∧ update_src inp' !! k = update_src inp !! k ∧
       update_start_index inp' !! k = update_start_index inp !! k).
Proof.
  intros Hnd Hlt. revert inp Hnd. induction Hlt as [|[k v] l Hk _ IH]; intros inp Hnd (H1 & H2 & H3).
  { exists inp. split; [done|]. split; [done|]. split; [set_solver|done]. }
  rewrite fmap_cons, list.NoDup_cons in Hnd. destruct Hnd as [Hni Hnd]. cbn [fst] in Hk, Hni.
  cbn [outcome_fold]. unfold fill_entry at 2. cbn [fst snd]. rewrite !arr_set_Ok by lia. cbn [mbind outcome_bind].
  destruct (IH (mkInput (<[k := map_get (batch_src a) k]> (update_src inp)) (<[k := v]> (update_sizes inp))
    (<[k := map_get (batch_start_index a) k]> (update_start_index inp)) (edgeUpdates inp)) Hnd)
    as (inp' & -> & Hed & Hin & Hout).
  { unfold input_length. cbn. by rewrite !length_insert. }
  exists inp'. split; [done|]. split; [done|]. split.
  - intros kv Hkv. apply elem_of_cons in Hkv as [->|Hkv]; [|by apply Hin]. cbn [fst snd].
    destruct (Hout k Hni) as (-> & -> & ->). cbn. by rewrite !list_lookup_insert_eq by lia.
  - intros k' Hk'. rewrite fmap_cons, elem_of_cons in Hk'. destruct (Hout k') as (-> & -> & ->); [tauto|]. cbn.
    rewrite !list_lookup_insert_ne by (intros ->; tauto). done.
Qed.

Lemma launch_input_ok a bs junk :
  recorded a bs → Forall (λ b, node_ok b.1 ∧ Forall node_ok b.2) bs →
  ∃ inp, launch_input a junk = Ok inp ∧ input_for inp bs.
Proof.
  intros Hrec Hnodes. pose proof Hrec as [Hcnt Hin Hout]. unfold launch_input.
  assert (map_entries (batch_sizes a) ≡ₚ map_to_list (batch_sizes a)) as Hperm by apply merge_sort_Permutation.
  destruct (fill_entries_ok a (batch_count a) (map_entries (batch_sizes a))
    (mkInput (junk <$> seq 0 (batch_count a)) (junk <$> seq 0 (batch_count a)) (junk <$> seq 0 (batch_count a)) (h_edgeUpdates a)))
    as (inp & -> & Hed & Hfill & _).
  - rewrite Hperm. apply NoDup_fst_map_to_list.
  - rewrite Hperm. apply list.Forall_forall. intros [k v] Hkv. apply elem_of_map_to_list in Hkv. cbn.
    destruct (decide (k < batch_count a)); [done|]. specialize (Hout k). unfold entry in Hout. rewrite Hkv in Hout.
    rewrite Hcnt in *. discriminate Hout. lia.
  - unfold input_length. cbn. by rewrite length_fmap, length_seq.
  - exists inp. split; [done|]. intros id src dsts Hb. destruct (Hin id _ Hb) as (off & He & Hw). cbn [fst snd] in *.
    unfold entry in He. injection He as Hs Hsrc Hst. rewrite list.Forall_forall in Hnodes.
    split; [|apply (Hnodes (src, dsts)); by eapply list_elem_of_lookup_2].
    destruct (Hfill (id, length dsts)) as (G1 & G2 & G3); [by rewrite Hperm, elem_of_map_to_list|]. cbn [fst snd] in *.
    rewrite (map_get_Some _ _ _ Hsrc) in G2. rewrite (map_get_Some _ _ _ Hst) in G3.
    constructor; [done|done|]. exists off. split; [done|]. by rewrite Hed.
Qed.

Section launches.
Context `{BuildConfig, Libm, Hashing}.
Context (Hcameo : L0_SAMPLING = false) (Hagree : device_hash_agrees).
Context (s : Sketch) (Hwf : sketch_wf s) (Hcols : 0 < num_columns s) (n : nat).
Implicit Types (a : SKGPUSketchAlg) (bs : list batch).

Abbreviation holds V c := (sketches_ok n (geometry s) V c).

Lemma launch_gpu_kernel_ok a bs junk env V :
  recorded a bs → Forall (λ b, b.1 < n ∧ node_ok b.1 ∧ Forall node_ok b.2) bs → env_ok s env → holds V (base a) →
  ∃ a', launch_gpu_kernel (sketch_params s) junk env a = Ok a' ∧
    holds (λ v, toggle_all (vertex_edges bs v) (V v)) (base a').
Proof.
  intros Hrec Hbs Henv Hok. unfold launch_gpu_kernel.
  destruct (launch_input_ok a bs junk Hrec) as (inp & -> & Hinp).
  { eapply list.Forall_impl; [exact Hbs|]. by intros b (_ & ? & ?). }
  cbn [mbind outcome_bind]. rewrite (rc_count _ _ Hrec).
  destruct (managed_launch Hcameo Hagree s Hwf Hcols n (base a) V 1024 inp (env_garbage env) (env_blocks env) (env_grid env) bs)
    as (m & Hrun & Hok'); [lia|done|done|done| |].
  { eapply list.Forall_impl; [exact Hbs|]. by intros b (? & _). }
  unfold single_sketchUpdate_UVM_kernel. unfold sketchUpdate_UVM_kernel in Hrun. rewrite Hrun.
  cbn [mbind outcome_bind]. by eexists.
Qed.

(** One batch on the CPU. *)
Lemma cpu_batch_ok a bs V t id b :
  recorded a bs → bs !! id = Some b → b.1 < n → t < length (delta_sketches a) →
  Forall (λ d, sketch_wf d ∧ geometry d = geometry s) (delta_sketches a) → holds V (base a) →
  ∃ a', cpu_batch a (t, id) = Ok a' ∧ recorded a' bs ∧ length (delta_sketches a') = length (delta_sketches a) ∧
    Forall (λ d, sketch_wf d ∧ geometry d = geometry s) (delta_sketches a') ∧
    holds (λ v, toggle_all (vertex_edges [b] v) (V v)) (base a').
Proof.
  intros Hrec Hb Hn Ht Hds Hok. destruct (recorded_get a bs id b Hrec Hb) as [Hsrc Hup].
  destruct (lookup_lt_is_Some_2 _ _ Ht) as [d Hd]. destruct (Forall_lookup_1 _ _ _ _ Hds Hd) as [Hdwf Hdg].
  unfold cpu_batch. cbn [fst snd]. rewrite (arr_get_Ok _ _ _ Hd), Hup, Hsrc. cbn [mbind outcome_bind].
  rewrite <- foldl_fmap. set (d' := foldl update (zero_contents d) (concat_pairing_fn b.1 <$> b.2)).
  assert (represents d' (toggle_all (concat_pairing_fn b.1 <$> b.2) ∅)) as Hd'.
  { by apply represents_update_all, represents_zero_contents. }
  assert (geometry d' = geometry s) as Hg' by (unfold d'; by rewrite geometry_update_all).
  destruct (apply_raw_buckets_update_ok n (geometry s) V (base a) b.1 (buckets d') d' _ Hok Hn Hd' Hg' eq_refl)
    as (c & -> & Hok' & _). cbn [mbind outcome_bind].
  eexists. split; [done|]. split; [|split; [|split]].
  - destruct Hrec as [? ? ?]. by constructor.
  - cbn. by rewrite length_insert.
  - cbn. apply list.Forall_insert; [done|]. split; [apply Hd'|done].
  - eapply sketches_ok_ext; [|exact Hok']. intros v _. cbn beta. unfold vertex_edges, fun_upd. cbn [mbind list_bind].
    rewrite app_nil_r. destruct (decide (v = b.1)) as [->|Hne].
    + rewrite decide_True by done. symmetry. apply toggle_all_empty.
    + by rewrite decide_False by congruence.
Qed.

Lemma cpu_batches_ok acts a bs V :
  recorded a bs → Forall (λ b, b.1 < n) bs → Forall (λ d, sketch_wf d ∧ geometry d = geometry s) (delta_sketches a) →
  (∀ t id, (t, id) ∈ acts → t < length (delta_sketches a) ∧ id < length bs) → holds V (base a) →
  ∃ a', outcome_fold cpu_batch a acts = Ok a' ∧
    holds (λ v, toggle_all (vertex_edges ((λ x, bs !!! x.2) <$> acts) v) (V v)) (base a').
Proof.
  intros Hrec Hbs. revert a V Hrec. induction acts as [|[t id] acts IH]; intros a V Hrec Hds Hacts Hok; [by exists a|].
  destruct (Hacts t id) as [Ht Hid]; [by left|]. destruct (lookup_lt_is_Some_2 bs id Hid) as [b Hb].
  destruct (cpu_batch_ok a bs V t id b) as (a1 & Hrun & Hrec1 & Hlen1 & Hds1 & Hok1); [done|done| |done..|].
  { by apply (Forall_lookup_1 _ _ _ _ Hbs Hb). }
  destruct (IH a1 (λ v, toggle_all (vertex_edges [b] v) (V v)) Hrec1 Hds1) as (a' & Hrest & Hok'); [|done|].
  { intros t' id' Hin. rewrite Hlen1. apply Hacts. by right. }
  exists a'. cbn [outcome_fold]. rewrite Hrun. split; [done|]. eapply sketches_ok_ext; [|exact Hok']. intros v _. cbn beta.
  rewrite fmap_cons. cbn [snd]. rewrite (list_lookup_total_correct _ _ _ Hb).
  by rewrite <- toggle_all_app, <- vertex_edges_app.
Qed.

Lemma all_batches_perm bs sched T v :
  0 < T → vertex_edges ((λ x : nat * nat, bs !!! x.2) <$> interleave sched (thread_batches (length bs) T)) v ≡ₚ vertex_edges bs v.
Proof.
  intros HT. apply vertex_edges_perm. rewrite <- (fmap_lookup_total_seq bs) at 2.
  rewrite <- (thread_batches_perm sched (length bs) T HT). by rewrite <- list_fmap_compose.
Qed.

Lemma launch_cpu_update_ok a bs sched V :
  recorded a bs → Forall (λ b, b.1 < n) bs → Forall (λ d, sketch_wf d ∧ geometry d = geometry s) (delta_sketches a) →
  0 < length (delta_sketches a) → holds V (base a) →
  ∃ a', launch_cpu_update (length (delta_sketches a)) sched a = Ok a' ∧
    holds (λ v, toggle_all (vertex_edges bs v) (V v)) (base a').
Proof.
  intros Hrec Hbs Hds HT Hok. unfold launch_cpu_update. rewrite (rc_count _ _ Hrec).
  destruct (cpu_batches_ok (interleave sched (thread_batches (length bs) (length (delta_sketches a)))) a bs V)
    as (a' & Hrun & Hok'); [done..| |done|].
  { intros t id Hin. by eapply thread_batches_lt. }
  exists a'. split; [done|]. eapply sketches_ok_ext; [|exact Hok']. intros v _. by apply toggle_all_perm, all_batches_perm.
Qed.

(** *** Through the streams: the calls are those of [CCGPUSketchAlg]. *)

Definition view (a : SKGPUSketchAlg) : CCGPUSketchAlg := mkCCGpu (base a) 0 (cudaStreams a).

Definition batch_call (progress : nat → nat) (envs : nat → LaunchEnv) bs (x : nat * nat) : GpuCall :=
  mkCall x.1 (progress x.2) (envs x.2) (bs !!! x.2).

Lemma gpu_batch_run progress envs bs x a g b :
  recorded a bs → bs !! x.2 = Some b → b.2 ≠ [] → gpu_call (view a) (batch_call progress envs bs x) = Ok g →
  ∃ a', gpu_batch progress envs a x = Ok a' ∧ view a' = g ∧ recorded a' bs.
Proof.
  intros Hrec Hb Hne. destruct (recorded_get a bs x.2 b Hrec Hb) as [Hsrc Hup].
  unfold gpu_call, gpu_apply_update_batch, batch_call, gpu_batch. rewrite (list_lookup_total_correct _ _ _ Hb), Hup, Hsrc.
  cbn [gc_thr gc_progress gc_env gc_batch view cc_base small_batch_size CCGpu.cudaStreams mbind outcome_bind].
  destruct (update_locked (base a)); [done|]. rewrite decide_False by (destruct b.2; cbn; [done|lia]).
  destruct (arr_get (cudaStreams a) x.1) as [st|]; [|done]. cbn [mbind outcome_bind].
  destruct (process_batch (progress x.2) (envs x.2) b.1 b.2 st (base a)) as [[st' c]|]; [|done]. cbn [mbind outcome_bind].
  intros Hg. injection Hg as <-. eexists. split; [done|]. split; [done|]. destruct Hrec as [? ? ?]. by constructor.
Qed.

Lemma gpu_batches_run progress envs bs acts a g :
  recorded a bs → (∀ x, x ∈ acts → ∃ b, bs !! x.2 = Some b ∧ b.2 ≠ []) →
  gpu_run (batch_call progress envs bs <$> acts) (view a) = Ok g →
  ∃ a', outcome_fold (gpu_batch progress envs) a acts = Ok a' ∧ view a' = g.
Proof.
  revert a. induction acts as [|x acts IH]; intros a Hrec Hacts Hrun.
  { cbn in Hrun. injection Hrun as <-. by exists a. }
  destruct (Hacts x) as (b & Hb & Hne); [by left|]. unfold gpu_run in *. rewrite fmap_cons in Hrun. cbn [outcome_fold] in *.
  destruct (gpu_call (view a) (batch_call progress envs bs x)) as [g1|] eqn:Hg1; [|done]. cbn [mbind outcome_bind] in Hrun.
  destruct (gpu_batch_run _ _ _ _ _ _ _ Hrec Hb Hne Hg1) as (a1 & -> & <- & Hrec1). cbn [mbind outcome_bind].
  apply IH; [done| |done]. intros y Hy. apply Hacts. by right.
Qed.

Lemma flush_streams_run envs order a g :
  gpu_flush_buffers envs order (view a) = Ok g → ∃ a', flush_buffers envs order a = Ok a' ∧ view a' = g.
Proof.
  unfold gpu_flush_buffers, flush_buffers. revert a. induction order as [|i order IH]; intros a Hrun.
  { cbn in Hrun. injection Hrun as <-. by exists a. }
  cbn [outcome_fold] in *. unfold flush_stream at 2. unfold flush_stream_task at 2 in Hrun. cbn [view CCGpu.cudaStreams cc_base] in Hrun.
  destruct (arr_get (cudaStreams a) i) as [st|]; [|done]. cbn [mbind outcome_bind] in *.
  destruct (flush_buffers_default (envs i) st (base a)) as [[st' c]|]; [|done]. cbn [mbind outcome_bind] in *. by apply IH.
Qed.

(** Each stream gets the batches of its thread. *)
Lemma batch_calls_of progress envs bs acts thr :
  (∀ x, x ∈ acts → ∃ b, bs !! x.2 = Some b ∧ b.2 ≠ []) →
  length (filter (big_call 0 thr) (batch_call progress envs bs <$> acts)) = length (thread_of thr acts).
Proof.
  intros Hacts. unfold thread_of. rewrite length_fmap. induction acts as [|x acts IH]; [done|].
  rewrite fmap_cons, !filter_cons. destruct (Hacts x) as (b & Hb & Hne); [by left|].
  assert (big_call 0 thr (batch_call progress envs bs x) ↔ x.1 = thr) as Hiff.
  { unfold big_call. rewrite bool_decide_spec. cbn. rewrite (list_lookup_total_correct _ _ _ Hb). destruct b.2; [done|]. cbn. lia. }
  specialize (IH ltac:(set_solver)). destruct (decide (x.1 = thr)) as [Hx|Hx].
  - rewrite decide_True by (by apply Hiff). cbn. by rewrite IH.
  - rewrite decide_False by (by rewrite Hiff). done.
Qed.

Lemma length_strided k fuel i num step : k ≤ fuel → i + k * step < num + step → k ≤ length (strided fuel i num step).
Proof.
  revert fuel i. induction k as [|k IH]; intros fuel i Hf Hi; [lia|]. destruct fuel as [|fuel]; [lia|]. cbn [strided].
  rewrite decide_True by lia. cbn [length]. specialize (IH fuel (i + step)). lia.
Qed.

Lemma length_thread_ids k t num T : t < T → k * T ≤ num → k ≤ length (thread_ids t num T).
Proof. intros Ht Hk. apply length_strided; nia. Qed.

Lemma launch_gpu_update_ok a bs progress envs fenvs sched order T bsize lim pend V :
  recorded a bs → Forall (λ b, b.2 ≠ [] ∧ b.1 < n ∧ batch_fits bsize b) bs → 0 < T → 0 < lim → lim * T ≤ length bs →
  (∀ id, env_ok s (envs id)) → (∀ i, env_ok s (fenvs i)) → order ≡ₚ seq 0 T → (N.of_nat n ≤ 2 ^ 32)%N →
  gpu_inv s n bsize lim T 0 0 [] pend (view a) → holds V (base a) → (∀ v, V v = ∅) →
  ∃ a', (a1 ← launch_gpu_update progress envs T sched a; flush_buffers fenvs order a1) = Ok a' ∧
    holds (λ v, toggle_all (vertex_edges bs v) (V v)) (base a').
Proof.
  intros Hrec Hbs HT Hlim Hmany Henv Hfenv Horder Hn Hinv Hok HV. unfold launch_gpu_update. rewrite (rc_count _ _ Hrec).
  set (acts := interleave sched (thread_batches (length bs) T)).
  assert (∀ x, x ∈ acts → x.1 < T ∧ ∃ b, bs !! x.2 = Some b ∧ b.2 ≠ [] ∧ b.1 < n ∧ batch_fits bsize b) as Hacts.
  { intros [t id] Hx. destruct (thread_batches_lt _ _ _ _ _ HT Hx) as [Ht Hid]. split; [done|].
    destruct (lookup_lt_is_Some_2 bs id Hid) as [b Hb]. exists b. split; [done|]. by apply (Forall_lookup_1 _ _ _ _ Hbs Hb). }
  assert (∀ x, x ∈ acts → ∃ b, bs !! x.2 = Some b ∧ b.2 ≠ []) as Hne by (intros x Hx; destruct (Hacts x Hx) as (_ & b & ? & ? & _); by exists b).
  destruct (gpu_run_flush_ok Hcameo Hagree s Hwf Hcols n bsize lim T 0 Hn Hlim 0 (batch_call progress envs bs <$> acts) fenvs order (view a) pend Hinv)
    as (g & Hrun & Hg); [| done|done| |].
  - apply list.Forall_forall. intros c Hc. apply list_elem_of_fmap in Hc as (x & -> & Hx).
    destruct (Hacts x Hx) as (Ht & b & Hb & Hb2 & Hb1 & Hfits). unfold batch_call. rewrite (list_lookup_total_correct _ _ _ Hb).
    split; [exact (conj Ht (conj (Henv _) (conj Hfits Hb1)))|]. unfold scratch_ok. cbn. destruct b.2; [done|cbn; lia].
  - intros thr Hthr. rewrite batch_calls_of by done. unfold acts. rewrite thread_of_interleave. unfold thread_batches.
    rewrite list_lookup_fmap, lookup_seq_lt by done. cbn. by apply length_thread_ids.
  - destruct (gpu_run (batch_call progress envs bs <$> acts) (view a)) as [g1|] eqn:Hg1; [|done]. cbn [mbind outcome_bind] in Hrun.
    destruct (gpu_batches_run progress envs bs acts a g1 Hrec Hne Hg1) as (a1 & -> & <-). cbn [mbind outcome_bind].
    destruct (flush_streams_run fenvs order a1 g Hrun) as (a' & -> & <-). exists a'. split; [done|].
    eapply sketches_ok_ext; [|exact Hg]. intros v _. cbn beta. rewrite HV, <- list_fmap_compose. by apply toggle_all_perm, all_batches_perm.
Qed.
End launches.

(** ** Runs *)

(** What the constructor leaves, in either mode. *)
Lemma new_sk_ok `{BuildConfig, Libm, Hashing} using_gpu n updates T workers sd prio cfg junk bsz :
  L0_SAMPLING = false → (N.of_nat n ≤ 2 ^ 32)%N → calc_bkt_per_col (calc_vector_length (N.of_nat n)) < 64 →
  _sketches_factor cfg = d_one → get_desired_updates_per_batch (new_CCSketchAlg n sd prio cfg) = Ok bsz →
  let s := alg_sketch n sd d_one in
  ∃ a, new_SKGPUSketchAlg using_gpu n updates T workers prio (tool_sketch_params n sd) cfg junk = Ok a ∧
    unrecorded a ∧ length (locals a) = workers ∧ length (h_edgeUpdates a) = 2 * updates ∧
    sketches_ok n (geometry s) (λ _, ∅) (base a) ∧ (using_gpu = false → delta_sketches a = replicate T s) ∧
    (using_gpu = true → (∀ thr, junk_ok s (N.to_nat bsz) 540 (junk thr)) →
     gpu_inv s n (N.to_nat bsz) 540 T 0 0 [] (replicate T ([], [])) (view a)).
Proof.
  intros Hcameo Hn Hb Hfac Hbsz s. unfold new_SKGPUSketchAlg. rewrite tool_sketch_params_ok. cbn [p_seed sketch_params].
  change (seed (alg_sketch n sd d_one)) with sd. rewrite Hbsz. cbn [mbind outcome_bind]. eexists. split; [done|].
  assert (sketches_ok n (geometry s) (λ _, ∅) (new_CCSketchAlg n sd prio cfg)) as Hok.
  { destruct (new_sketches_ok n Hn sd prio cfg 0 Hb) as [Hl Hr _]. unfold alg_geometry in Hr. rewrite Hfac in Hr.
    constructor; [exact Hl| |done]. intros v sk Hv. destruct (Hr v sk Hv) as [Hv' Hrest]. split; [|done].
    replace (∅ : gset N) with (incident ∅ v); [done|]. apply set_eq. intros e. rewrite elem_of_incident. set_solver. }
  split; [by constructor|]. split; [cbn; by rewrite length_replicate|]. split; [cbn [h_edgeUpdates]; by rewrite length_replicate|].
  split; [done|]. split; [by intros ->|]. intros -> Hjunk. constructor; cbn; try done.
  - apply new_streams_inv; [by apply alg_sketch_columns|lia|done].
  - by rewrite length_replicate.
  - intros i p Hp _. by apply lookup_replicate in Hp as [-> _].
  - exists []. split; [|split; [done|exact Hok]]. clear. cbn. induction T as [|k IH]; [done|]. cbn. done.
Qed.

Lemma sketches_of_batches `{BuildConfig, Hashing} n G (l l' : list batch) (c : CCSketchAlg) :
  l ≡ₚ l' → sketches_ok n G (λ v, toggle_all (vertex_edges l v) ∅) c → sketches_ok n G (λ v, toggle_all (vertex_edges l' v) ∅) c.
Proof. intros Hp Hok. eapply sketches_ok_ext; [|exact Hok]. intros v _. cbn beta. by apply toggle_all_perm, vertex_edges_perm. Qed.

(** C13. The variant that records the whole stream first. Workers record their batches,
    their atomic adds, writes and locked insertions in any order; no update is lost or
    written over, and every batch gets a number of its own. After that each way of
    updating the sketches gives the same: the threads of the CPU under any schedule, a
    single kernel launch over managed memory, or the streams with the flush after them,
    if there are enough batches for a half of every stream. The sketch of every node
    then holds exactly the edges that the batches toggle at that node. *)
Theorem single_kernel_run_tracks_batches `{BuildConfig, Libm, Hashing} using_gpu n updates T calls rsched sd prio cfg junk bsz :
  L0_SAMPLING = false → device_hash_agrees → (N.of_nat n ≤ 2 ^ 32)%N →
  calc_bkt_per_col (calc_vector_length (N.of_nat n)) < 64 → _sketches_factor cfg = d_one → 0 < T →
  get_desired_updates_per_batch (new_CCSketchAlg n sd prio cfg) = Ok bsz →
  Forall (λ b, b.2 ≠ [] ∧ b.1 < n ∧ batch_fits (N.to_nat bsz) b) (concat calls) → offs (concat calls) ≤ 2 * updates →
  let params := tool_sketch_params n sd in
  let s := alg_sketch n sd d_one in
  let tracks a' := sketches_ok n (alg_geometry n sd cfg) (λ v, toggle_all (vertex_edges (concat calls) v) ∅) (base a') in
  ∃ a a1, new_SKGPUSketchAlg using_gpu n updates T (length calls) prio params cfg junk = Ok a ∧
    record_batches calls rsched a = Ok a1 ∧ batch_count a1 = length (concat calls) ∧
    (using_gpu = false → ∀ sched, ∃ a', launch_cpu_update T sched a1 = Ok a' ∧ tracks a') ∧
    (using_gpu = true → ∀ mem env, env_ok s env → ∃ a', launch_gpu_kernel params mem env a1 = Ok a' ∧ tracks a') ∧
    (using_gpu = true → (∀ thr, junk_ok s (N.to_nat bsz) 540 (junk thr)) → 540 * T ≤ length (concat calls) →
     ∀ progress envs fenvs sched order, (∀ id, env_ok s (envs id)) → (∀ i, env_ok s (fenvs i)) → order ≡ₚ seq 0 T →
     ∃ a', (a2 ← launch_gpu_update progress envs T sched a1; flush_buffers fenvs order a2) = Ok a' ∧ tracks a').
Proof.
  intros Hcameo Hagree Hn Hb Hfac HT Hbsz Hcalls Hroom params s tracks.
  assert (sketch_wf s) as Hwf by by apply new_sketch_wf. pose proof (alg_sketch_columns n sd Hcameo) as Hcols. fold s in Hcols.
  destruct (new_sk_ok using_gpu n updates T (length calls) sd prio cfg junk bsz) as (a & Hnew & Hun & Hloc & Hlen & Hok & Hcpu & Hgpu); [done..|].
  destruct (record_batches_ok a calls rsched Hun Hloc) as (a1 & bs & Hrun & Hperm & Hrec & (Hbase & Hdel & Hstr & _)); [by rewrite Hlen|].
  rewrite <- Hperm in Hcalls. rewrite <- Hbase in Hok.
  assert (∀ a', sketches_ok n (geometry s) (λ v, toggle_all (vertex_edges bs v) ∅) (base a') → tracks a') as Htracks.
  { intros a' Ha'. unfold tracks, alg_geometry. rewrite Hfac. by eapply sketches_of_batches. }
  exists a, a1. split; [done|]. split; [done|]. split; [by rewrite (rc_count _ _ Hrec), Hperm|]. split; [|split].
  - intros Hmode sched. specialize (Hcpu Hmode). rewrite <- Hdel in Hcpu.
    destruct (launch_cpu_update_ok s n a1 bs sched (λ _, ∅) Hrec) as (a' & Hl & Ha'); [| | |done|].
    + eapply list.Forall_impl; [exact Hcalls|]. by intros b (_ & ? & _).
    + rewrite Hcpu. apply Forall_replicate. done.
    + by rewrite Hcpu, length_replicate.
    + rewrite Hcpu, length_replicate in Hl. exists a'. split; [done|]. by apply Htracks.
  - intros Hmode mem env Henv. destruct (launch_gpu_kernel_ok Hcameo Hagree s Hwf Hcols n a1 bs mem env (λ _, ∅) Hrec) as (a' & Hl & Ha'); [|done|done|].
    + eapply list.Forall_impl; [exact Hcalls|]. by intros b (_ & ? & _ & ?).
    + exists a'. split; [done|]. by apply Htracks.
  - intros Hmode Hjunk Hmany progress envs fenvs sched order Henvs Hfenvs Horder. specialize (Hgpu Hmode Hjunk).
    assert (view a1 = view a) as Hview by (unfold view; by rewrite Hbase, Hstr). rewrite <- Hview in Hgpu.
    destruct (launch_gpu_update_ok Hcameo Hagree s Hwf Hcols n a1 bs progress envs fenvs sched order T (N.to_nat bsz) 540
      (replicate T ([], [])) (λ _, ∅) Hrec Hcalls HT) as (a' & Hl & Ha'); [lia|by rewrite Hperm|done..|].
    exists a'. split; [done|]. by apply Htracks.
Qed.

Section witnesses.
#[local] Existing Instances default_build integral_libm xxh3_hashing.

(** Two workers and two host threads, with more than a half of batches for each stream. *)
Definition sk_example_calls : list (list batch) :=
  [replicate 540 (0, [1; 2]); replicate 540 (2, [1]) ++ [(1, [0])]].

Definition sk_example_junk : DeviceInput * list Bucket * list Bucket :=
  (mkInput (replicate 540 9) (replicate 540 9) (replicate 540 9) (replicate (540 * N.to_nat gpu_example_batch) 9),
   replicate (gpu_example_nb * 540) (mkBucket 3 4), replicate (gpu_example_nb * 540) (mkBucket 5 6)).

Lemma single_kernel_run_tracks_batches_witness :
  ∃ a a1, new_SKGPUSketchAlg true 3 811 2 2 [1; 2; 3]%N (tool_sketch_params 3 7) CCConf.default (λ _, sk_example_junk) = Ok a ∧
    record_batches sk_example_calls [1; 0; 0; 1; 1; 0; 1] a = Ok a1 ∧ batch_count a1 = 1081 ∧
    ∃ a', (a2 ← launch_gpu_update id (λ _, gpu_example_env) 2 [0; 1; 1] a1; flush_buffers (λ _, gpu_example_env) [1; 0] a2) = Ok a' ∧
      sketches_ok 3 (alg_geometry 3 7 CCConf.default) (λ v, toggle_all (vertex_edges (concat sk_example_calls) v) ∅) (base a').
Proof.
  destruct (single_kernel_run_tracks_batches true 3 811 2 sk_example_calls [1; 0; 0; 1; 1; 0; 1] 7 [1; 2; 3]%N CCConf.default
    (λ _, sk_example_junk) gpu_example_batch) as (a & a1 & Hnew & Hrec & Hcount & _ & _ & Hstreams).
  - done.
  - exact device_hash_agrees_xxh3.
  - done.
  - vm_compute. lia.
  - done.
  - lia.
  - by vm_compute.
  - unfold sk_example_calls. cbn [concat]. rewrite !list.Forall_app.
    assert (∀ v ds, ds ≠ [] → length ds ≤ 2 → v < 3 → Forall (λ d, d < 3) ds →
      (v, ds).2 ≠ [] ∧ (v, ds).1 < 3 ∧ batch_fits (N.to_nat gpu_example_batch) (v, ds)) as Hb.
    { intros v ds Hne Hlen Hv Hds. split; [done|]. split; [done|]. by apply gpu_example_fits. }
    split; [|split; [split|constructor]]; [apply Forall_replicate|apply Forall_replicate|constructor; [|constructor]];
      (apply Hb; [done|cbn; lia|lia|repeat constructor; lia]).
  - apply Nat.leb_le. by vm_compute.
  - exists a, a1. split; [exact Hnew|]. split; [exact Hrec|]. split; [rewrite Hcount; by vm_compute|].
    apply Hstreams; [done| |apply Nat.leb_le; by vm_compute|intros _; exact gpu_example_env_ok..|apply Permutation_swap].
    intros _. unfold junk_ok, sk_example_junk. cbn [fst snd edgeUpdates update_sizes update_src update_start_index].
    rewrite !length_replicate. by fold gpu_example_nb.
Defined.
End witnesses.
