(* ===== verification/Typing.v ===== *)
(** * Words keep their widths

    A typing of the state of [CCSketchAlg]: its sketches have one geometry, their words
    fit the machine types they stand for, and no more samples are counted than there
    are. Whatever well-typed operations run in whatever order, failed queries included,
    the state stays typed; no assumption on checksums or on the sense of the updates. *)

From Stdlib Require Import NArith Lia.
From stdpp Require Import base list gmap sets numbers relations.
From S2P Require Import Prelude Bytes Float64 Util Bucket Sketch XXHash Concrete SketchSpec Dsu Graph Configuration CCSketchAlg Partition ReturnTypes MergeInstr Boruvka CCQuery SerialSpec.

Create HintDb typed.

Section typing.
Context `{BuildConfig, Libm, Hashing}.
Implicit Types (s t : Sketch) (c : CCSketchAlg).

(** ** Sketches *)

(** A sketch of the geometry of [g]. *)
Record sketch_typed (g s : Sketch) : Prop := {
  st_wf : sketch_wf s;
  st_geometry : geometry s = geometry g;
  st_words : Forall bucket_fits (buckets s);
  st_samples : sample_idx s ≤ num_samples s;
}.

Lemma bzero_fits : bucket_fits bzero.
Proof. split; apply pow2_pos. Qed.

Lemma bxor_fits b b' : bucket_fits b → bucket_fits b' → bucket_fits (bxor b b').
Proof. intros [] []. split; by apply lxor_lt. Qed.

Lemma bucket_update_fits b x h :
  bucket_fits b → (x < 2 ^ 64)%N → (h < 2 ^ vec_hash_bits)%N → bucket_fits (Bucket_Boruvka.update b x h).
Proof. intros [] ? ?. split; by apply lxor_lt. Qed.

Lemma total_fits (l : list Bucket) i : Forall bucket_fits l → bucket_fits (l !!! i).
Proof.
  intros Hl. rewrite list_lookup_total_alt. destruct (l !! i) as [b|] eqn:Hb; [|apply bzero_fits].
  by apply (Forall_lookup_1 _ _ _ _ Hl Hb).
Qed.

Lemma alter_fits (f : Bucket → Bucket) i (l : list Bucket) :
  (∀ b, bucket_fits b → bucket_fits (f b)) → Forall bucket_fits l → Forall bucket_fits (alter f i l).
Proof. intros Hf Hl. apply Forall_alter; [done|]. intros b _ Hb. by apply Hf. Qed.

Lemma foldl_fits {A} (step : list Bucket → A → list Bucket) (ids : list A) l :
  (∀ l a, Forall bucket_fits l → Forall bucket_fits (step l a)) → Forall bucket_fits l → Forall bucket_fits (foldl step l ids).
Proof. intros Hstep. revert l. induction ids as [|a ids IH]; intros l Hl; [done|]. cbn. by apply IH, Hstep. Qed.

Lemma xor_at_fits ids l other : Forall bucket_fits l → Forall bucket_fits other → Forall bucket_fits (xor_at ids l other).
Proof.
  intros Hl Ho. unfold xor_at. apply foldl_fits; [|done]. intros l' i Hl'. apply alter_fits; [|done].
  intros b Hb. apply bxor_fits; [done|]. by apply total_fits.
Qed.

Lemma update_fits s x : (x < 2 ^ 64)%N → Forall bucket_fits (buckets s) → Forall bucket_fits (buckets (update s x)).
Proof.
  intros Hx Hs. unfold update. cbn [buckets set_buckets].
  assert (∀ b, bucket_fits b → bucket_fits (Bucket_Boruvka.update b x (Bucket_Boruvka.get_index_hash x (checksum_seed s)))) as Hb.
  { intros b Hb. apply bucket_update_fits; [done|done|apply Bucket_Boruvka.get_index_hash_lt]. }
  apply foldl_fits; [|by apply alter_fits]. intros l i Hl. unfold update_column, cube_column, cameo_column.
  destruct L0_SAMPLING; case_match; [apply foldl_fits; [|done]; intros l' j Hl'| |..]; try by apply alter_fits. all: done.
Qed.

Lemma update_typed g s x : (x < 2 ^ 64)%N → sketch_typed g s → sketch_typed g (update s x).
Proof. intros Hx [Hwf Hg Hw Hi]. constructor; [by apply update_wf|done|by apply update_fits|done]. Qed.

Lemma update_all_typed g s l : Forall (λ x, x < 2 ^ 64)%N l → sketch_typed g s → sketch_typed g (foldl update s l).
Proof. intros Hl. revert s. induction Hl as [|x l Hx _ IH]; intros s Hs; [done|]. cbn. by apply IH, update_typed. Qed.

Lemma merge_raw_typed g s raw : Forall bucket_fits raw → sketch_typed g s → sketch_typed g (merge_raw_bucket_buffer s raw).
Proof.
  intros Hr [Hwf Hg Hw Hi]. constructor; [|done|by apply xor_at_fits|done].
  eapply sketch_wf_intro; [done|done|]. apply length_xor_at.
Qed.

Lemma merge_typed g s t : sketch_typed g s → sketch_typed g t → sketch_typed g (merge s t).
Proof. intros [Hwf Hg Hw Hi] [_ _ Ht _]. constructor; [by apply merge_wf|done|by apply xor_at_fits|done]. Qed.

Lemma range_merge_typed g s t k m : sketch_typed g s → sketch_typed g t → sketch_typed g (range_merge s t k m).
Proof.
  intros [Hwf Hg Hw Hi] [_ _ Ht _]. constructor; [by apply range_merge_wf|by rewrite range_merge_geometry| |]; unfold range_merge; case_decide.
  - done.
  - cbn. apply (xor_at_fits _ (xor_at [_] _ _)); [|done]. by apply xor_at_fits.
  - done.
  - cbn. lia.
Qed.

Lemma zero_contents_typed g s : sketch_typed g s → sketch_typed g (zero_contents s).
Proof.
  intros [Hwf Hg Hw Hi]. constructor; [by apply zero_contents_wf|done| |cbn; lia]. cbn. apply foldl_fits; [|done].
  intros l i Hl. apply Forall_insert; [done|apply bzero_fits].
Qed.

Lemma set_sample_idx_typed g s i : i ≤ num_samples s → sketch_typed g s → sketch_typed g (set_sample_idx s i).
Proof. intros Hi [Hwf Hg Hw _]. constructor; [|done|done|done]. eapply sketch_wf_intro; done. Qed.

Lemma sample_typed g s : sketch_typed g s → sketch_typed g (sample s).2.
Proof.
  intros Hs. unfold sample. case_decide as Hi; [done|]. pose proof (set_sample_idx_typed g s (S (sample_idx s)) ltac:(lia) Hs).
  repeat case_match; done.
Qed.

(** The index of a sample is a 64-bit word too. *)
Lemma sample_index_lt g s r : sketch_typed g s → (sample s).1 = Ok r → (sample_index r < 2 ^ 64)%N.
Proof.
  intros [_ _ Hw _]. unfold sample. case_decide; [done|].
  assert (∀ ids a, first_good (set_sample_idx s (S (sample_idx s))) ids = Some a → (a < 2 ^ 64)%N) as Hfirst.
  { intros ids a. induction ids as [|i ids IH]; [done|]. cbn [first_good]. case_match; [|done]. intros Ha. injection Ha as <-.
    by apply total_fits. }
  pose proof (total_fits _ (num_buckets s - 1) Hw) as [Hdet _].
  repeat case_match; cbn; intros Hr; try done; injection Hr as <-; cbn; [apply pow2_pos|exact Hdet|by eapply Hfirst|apply pow2_pos].
Qed.

Lemma new_sketch_typed vlen sd ns cols :
  calc_bkt_per_col vlen < 64 → sketch_typed (new_sketch vlen sd ns cols) (new_sketch vlen sd ns cols).
Proof.
  intros Hb. constructor; [by apply new_sketch_wf|done| |cbn; lia]. cbn. apply Forall_replicate. apply bzero_fits.
Qed.

(** ** Emulations only sample, and decode node ids *)

(** The array of a forest holds node ids. *)
Definition forest_typed (f : list (gset nat)) : Prop := Forall (λ D, ∀ d, d ∈ D → node_ok d) f.

Lemma forest_typed_insert f u v D :
  node_ok v → f !! u = Some D → forest_typed f → forest_typed (<[u := {[v]} ∪ D]> f).
Proof.
  intros Hv HD Hf. apply Forall_insert; [done|]. intros d. rewrite elem_of_union, elem_of_singleton.
  intros [->|Hd]; [done|]. by apply (Forall_lookup_1 _ _ _ _ Hf HD).
Qed.

Lemma node_ok_max u v : node_ok u → node_ok v → node_ok (u `max` v).
Proof. unfold node_ok. lia. Qed.

Lemma decoded_ends_ok idx : node_ok (src (inv_concat_pairing_fn idx)) ∧ node_ok (dst (inv_concat_pairing_fn idx)).
Proof. split; unfold node_ok, inv_concat_pairing_fn; cbn [src dst]; rewrite N2Nat.id; apply wrap_lt. Qed.

Lemma sample_supernode_typed d f s :
  (sample_supernode d f s).2 = (sample s).2 ∧ (forest_typed f → forest_typed (sample_supernode d f s).1.2).
Proof.
  unfold sample_supernode. destruct (sample s) as [[smp|e] s']; [|done]. destruct (result smp); [|done|done].
  destruct (decoded_ends_ok (sample_index smp)) as [Hs Hd]. set (e := inv_concat_pairing_fn (sample_index smp)) in *.
  destruct (DisjointSetUnion_MT.merge _ _ _ _) as [[m d']|]; [|done]. destruct (merged m); [|done].
  destruct (arr_get f _) as [D|] eqn:HD; [|done]. split; [done|]. intros Hf. apply arr_get_inv in HD. apply forest_typed_insert; [by apply node_ok_max|done|done].
Qed.

Lemma sample_caught_typed st s x :
  sample_caught st s = Ok x → x.2 = (sample s).2 ∧ (forest_typed (r_forest st) → forest_typed (r_forest x.1)).
Proof.
  unfold sample_caught. pose proof (sample_supernode_typed (r_dsu st) (r_forest st) s) as [Hs Hf].
  destruct (sample_supernode (r_dsu st) (r_forest st) s) as [[[res d] f] s']. cbn in Hs, Hf. subst s'.
  destruct res as [b|e]; [|destruct e; try done]; intros Hx; by injection Hx as <-.
Qed.

Lemma exec_action_typed r st a st' :
  exec_action r st a = Ok st' → forest_typed (r_forest st) → forest_typed (r_forest st').
Proof.
  unfold exec_action. destruct a.2 as [skt|gl k|gl skt|gl].
  - destruct (sample_caught st skt) as [x|] eqn:Hx; [|done]. intros Hr. injection Hr as <-. by apply (sample_caught_typed _ _ _ Hx).
  - destruct (arr_get _ _); [|done]. intros Hr. by injection Hr as <-.
  - destruct (arr_get _ _) as [x|]; [|done]. cbn [mbind outcome_bind]. destruct (merge_global _ _ _). intros Hr. by injection Hr as <-.
  - destruct (r_ready st !!! a.1); [|intros Hr; by injection Hr as <-]. destruct (arr_get _ _) as [x|]; [|done]. cbn [mbind outcome_bind].
    destruct (sample_caught st (g_sketch x)) as [y|] eqn:Hy; [|done]. intros Hr. injection Hr as <-. by apply (sample_caught_typed _ _ _ Hy).
Qed.

Context (P : Sketch → Prop) (P_sample : ∀ s, P s → P (sample s).2).

Definition round_typed (len : nat) (x : RoundState * list Sketch) : Prop :=
  Forall P x.2 ∧ length x.2 = len ∧ forest_typed (r_forest x.1).

Lemma round_zero_typed base order len st sks x :
  run_round_zero base order st sks = Ok x → round_typed len (st, sks) → round_typed len x.
Proof.
  unfold run_round_zero. revert st sks. induction order as [|i order IH]; intros st sks; cbn [foldl].
  { intros Hx Hs. by injection Hx as <-. }
  assert (∀ e l, foldl (round_zero_step base) (Throw e) l = Throw e) as Hthrow by (intros e l; induction l; [done|]; cbn; done).
  unfold round_zero_step at 2. cbn [mbind outcome_bind]. destruct (arr_get sks (base + i)) as [s|e] eqn:Hs; cbn [mbind outcome_bind].
  2: { by rewrite Hthrow. }
  destruct (sample_caught st s) as [y|e] eqn:Hy; cbn [mbind outcome_bind]; [|by rewrite Hthrow].
  intros Hx (Hsks & Hlen & Hf). destruct (sample_caught_typed _ _ _ Hy) as [Hsk Hf']. apply arr_get_inv in Hs.
  apply (IH _ _ Hx). split; [|split; [|by apply Hf']].
  - apply Forall_insert; [done|]. rewrite Hsk. apply P_sample. by apply (Forall_lookup_1 _ _ _ _ Hsks Hs).
  - cbn. by rewrite length_insert.
Qed.

Definition emulation_typed (len : nat) (b : BoruvkaState) : Prop :=
  Forall P (b_sketches b) ∧ length (b_sketches b) = len ∧ forest_typed (b_forest b).

Lemma boruvka_loop_typed nv base fresh part T sch fuel r instrs gl len b :
  emulation_typed len b → emulation_typed len (boruvka_loop nv base fresh part T sch fuel r instrs gl b).2.
Proof.
  revert r instrs gl b. induction fuel as [|fuel IH]; intros r instrs gl b Hb; [done|]. cbn [boruvka_loop].
  destruct (perform_boruvka_round _ _ _ _ _ _ _ _ _ _ _ _ _) as [[st sks]|e] eqn:Hround; [|done].
  assert (round_typed len (st, sks)) as Hnew.
  { destruct Hb as (Hsk & Hlen & Hf). unfold perform_boruvka_round in Hround. case_decide.
    - by apply (round_zero_typed _ _ _ _ _ _ Hround).
    - destruct (outcome_list _); [|done]. cbn [mbind outcome_bind] in Hround. destruct (exec_all _ _ _) as [st1|] eqn:Hexec; [|done].
      injection Hround as <- <-. split; [done|]. split; [done|].
      by apply (outcome_fold_inv _ (λ st, forest_typed (r_forest st)) _ _ _ (exec_action_typed r) Hexec). }
  destruct (r_err st); [done|]. destruct (r_modified st); [|done].
  destruct (create_merge_instructions _ _ _ _ _ _) as [[d instrs']|e]; [|done]. by apply IH.
Qed.
End typing.

#[export] Hint Resolve update_typed update_all_typed merge_raw_typed merge_typed range_merge_typed zero_contents_typed
  sample_typed : typed.

(** ** The algorithm *)

Section algorithm.
Context `{BuildConfig, Libm, Hashing}.
Context (n : nat) (g : Sketch).
Implicit Types (c : CCSketchAlg).

Record alg_typed c : Prop := {
  at_n : num_vertices c = n;
  at_sketch : cc_sketch c = g;
  at_length : length (sketches c) = n;
  at_sketches : Forall (sketch_typed g) (sketches c);
  at_deltas : Forall (sketch_typed g) (delta_sketches c);
  at_forest : forest_typed (spanning_forest c);
}.

(** What the eager answer and the queries' results do not change. *)
Definition same_frame c c' : Prop :=
  same_config c c' ∧ sketches c' = sketches c ∧ (forest_typed (spanning_forest c) → forest_typed (spanning_forest c')).

Lemma alg_typed_frame c c' : same_frame c c' → alg_typed c → alg_typed c'.
Proof.
  intros [(Hn & Hs & Hc & Hd) [Hsk Hf]] []. constructor; rewrite ?Hn, ?Hd, ?Hsk; try done; [|by apply Hf].
  unfold cc_sketch in *. by rewrite Hn, Hs, Hc.
Qed.

Definition edge_typed (e : Edge) : Prop := node_ok (src e) ∧ node_ok (dst e).

Lemma pre_insert_frame c upd c' : pre_insert c upd = Ok c' → edge_typed (edge upd) → same_frame c c'.
Proof.
  unfold pre_insert. intros Hr [Hs Hd]. repeat case_match; try (injection Hr as <-; by split).
  destruct (DisjointSetUnion_MT.merge _ _ _ _) as [md|]; [|done]. cbn [mbind outcome_bind] in Hr.
  destruct (arr_get _ _) as [D|] eqn:HD; [|done]. cbn [mbind outcome_bind] in Hr. apply arr_get_inv in HD.
  repeat case_match; injection Hr as <-; split; try done. split; [done|]. intros Hf.
  apply forest_typed_insert; [by apply node_ok_max|done|done].
Qed.

Lemma set_sketch_typed c v s : alg_typed c → sketch_typed g s → alg_typed (set_sketches c (<[v := s]> (sketches c))).
Proof. intros [] Hs. constructor; cbn; [done|done|by rewrite length_insert|by apply Forall_insert|done|done]. Qed.

Lemma update_sketch_typed c v x c' : update_sketch c v x = Ok c' → (x < 2 ^ 64)%N → alg_typed c → alg_typed c'.
Proof.
  unfold update_sketch. destruct (arr_get (sketches c) v) as [s|] eqn:Hs; [|done]. cbn. intros Hr Hx Hc. injection Hr as <-.
  apply set_sketch_typed; [done|]. apply update_typed; [done|]. apply arr_get_inv in Hs. by apply (Forall_lookup_1 _ _ _ _ (at_sketches _ Hc) Hs).
Qed.

Lemma update_alg_typed c upd c' : update_alg c upd = Ok c' → edge_typed (edge upd) → alg_typed c → alg_typed c'.
Proof.
  unfold update_alg. destruct (pre_insert c upd) as [c1|] eqn:Hpre; [|done]. cbn [mbind outcome_bind].
  destruct (update_sketch c1 _ _) as [c2|] eqn:Hfst; [|done]. cbn [mbind outcome_bind]. intros Hsnd He Hc. pose proof He as [Hs Hd].
  pose proof (concat_pairing_fn_lt _ _ Hs Hd). apply (update_sketch_typed _ _ _ _ Hsnd); [done|].
  apply (update_sketch_typed _ _ _ _ Hfst); [done|]. apply (alg_typed_frame c); [by eapply pre_insert_frame|done].
Qed.

Lemma apply_update_batch_typed c thr v dsts c' :
  apply_update_batch c thr v dsts = Ok c' → node_ok v → Forall node_ok dsts → alg_typed c → alg_typed c'.
Proof.
  unfold apply_update_batch. destruct (update_locked c); [done|]. destruct (arr_get (delta_sketches c) thr) as [d|] eqn:Hd; [|done].
  cbn [mbind outcome_bind]. destruct (arr_get (sketches c) v) as [s|] eqn:Hs; [|done]. cbn [mbind outcome_bind]. intros Hr Hv Hds Hc.
  injection Hr as <-. apply arr_get_inv in Hd, Hs. pose proof Hc as [Hn Hg Hlen Hsk Hdel Hfor]. rewrite <- foldl_fmap.
  assert (sketch_typed g (foldl update (zero_contents d) (concat_pairing_fn v <$> dsts))) as Hdelta.
  { apply update_all_typed; [|apply zero_contents_typed; by apply (Forall_lookup_1 _ _ _ _ Hdel Hd)].
    apply Forall_fmap. eapply list.Forall_impl; [exact Hds|]. intros d' Hd'. by apply concat_pairing_fn_lt. }
  constructor; cbn; [done|done|by rewrite length_insert| |by apply Forall_insert|done].
  apply Forall_insert; [done|]. apply merge_typed; [|done]. by apply (Forall_lookup_1 _ _ _ _ Hsk Hs).
Qed.

Lemma apply_raw_typed c v raw c' :
  apply_raw_buckets_update c v raw = Ok c' → Forall bucket_fits raw → alg_typed c → alg_typed c'.
Proof.
  unfold apply_raw_buckets_update. destruct (arr_get (sketches c) v) as [s|] eqn:Hs; [|done]. cbn. intros Hr Hraw Hc. injection Hr as <-.
  apply set_sketch_typed; [done|]. apply merge_raw_typed; [done|]. apply arr_get_inv in Hs. by apply (Forall_lookup_1 _ _ _ _ (at_sketches _ Hc) Hs).
Qed.

Lemma boruvka_emulation_typed q c : alg_typed c → alg_typed (boruvka_emulation q c).2.
Proof.
  intros [Hn Hg Hlen Hsk Hdel Hfor]. unfold boruvka_emulation, boruvka_rounds.
  pose proof (boruvka_loop_typed (sketch_typed g) (sample_typed g) (num_vertices c) 0 (cc_sketch c) get_ith_partition (q_threads q)
    (q_schedule q) (S (S (num_samples (cc_sketch c)))) 0 ((λ i, mkInstr i i) <$> seq 0 (num_vertices c))
    (replicate (q_threads q) (mkGlobal (cc_sketch c) size_max 0))
    (length (sketches c)) (mkBoruvka (reset (dsu c)) (replicate (num_vertices c) ∅) (sketches c) (last_query_rounds c))) as Hloop.
  cbn [num_vertices set_locked dsu sketches last_query_rounds]. change (cc_sketch (set_locked c true)) with (cc_sketch c).
  destruct (boruvka_loop _ _ _ _ _ _ _ _ _ _ _) as [res b]. destruct Hloop as (Hall & Hl & Hf).
  { split; [done|]. split; [done|]. apply Forall_replicate. cbn. set_solver. }
  cbn [snd] in *. rewrite Hlen in Hl. by destruct res; constructor.
Qed.

Lemma reset_sample_states_typed c : alg_typed c → alg_typed (reset_sample_states c).
Proof.
  intros []. constructor; cbn; [done|done|by rewrite length_fmap| |done|done]. apply Forall_fmap.
  eapply list.Forall_impl; [eassumption|]. intros s Hs. apply set_sample_idx_typed; [lia|done].
Qed.

Lemma connected_components_typed q c : alg_typed c → alg_typed (connected_components q c).2.
Proof.
  intros Hc. unfold connected_components, ensure_answer. destruct (shared_dsu_valid c).
  - repeat case_match; cbn; try done. by apply (alg_typed_frame c).
  - pose proof (boruvka_emulation_typed q c Hc) as Hb. destruct (boruvka_emulation q c) as [res c1]. cbn in Hb.
    pose proof (reset_sample_states_typed c1 Hb). repeat case_match; cbn; try done. by apply (alg_typed_frame (reset_sample_states c1)).
Qed.

Lemma point_query_typed q a b c : alg_typed c → alg_typed (point_query q a b c).2.
Proof.
  intros Hc. unfold point_query, ensure_answer. destruct (dsu_valid c).
  - repeat case_match; cbn; try done; by apply (alg_typed_frame c).
  - pose proof (boruvka_emulation_typed q c Hc) as Hb. destruct (boruvka_emulation q c) as [res c1]. cbn in Hb.
    pose proof (reset_sample_states_typed c1 Hb). repeat case_match; cbn; try done; by apply (alg_typed_frame (reset_sample_states c1)).
Qed.

Definition typed_result {A} (x : outcome A * CCSketchAlg) : Prop := alg_typed x.2.

Lemma update_all_typed_alg l c c' :
  update_all_alg c l = Ok c' → Forall (λ u, edge_typed (edge u)) l → alg_typed c → alg_typed c'.
Proof.
  intros Hr Hl. revert c Hr. induction Hl as [|u l Hu _ IH]; intros c Hr Hc; cbn [update_all_alg] in Hr; [by injection Hr as <-|].
  destruct (update_alg c u) as [c1|] eqn:Hone; [|done]. apply (IH c1 Hr). by eapply update_alg_typed.
Qed.

(** The edges of a forest are edges of 32-bit nodes. *)
Definition sf_typed (sf : SpanningForest) : Prop := Forall edge_typed (edges sf).

Lemma forest_total_typed f i d : forest_typed f → d ∈ f !!! i → node_ok d.
Proof.
  intros Hf. rewrite list_lookup_total_alt. destruct (f !! i) as [D|] eqn:HD; [|set_solver]. apply (Forall_lookup_1 _ _ _ _ Hf HD).
Qed.

Lemma calc_spanning_forest_typed q c :
  (N.of_nat n ≤ 2 ^ 32)%N → alg_typed c →
  alg_typed (calc_spanning_forest q c).2 ∧ ∀ sf, (calc_spanning_forest q c).1 = Ok sf → sf_typed sf.
Proof.
  intros Hn Hc. unfold calc_spanning_forest. pose proof (connected_components_typed q c Hc) as Hc'.
  destruct (connected_components q c) as [[cc|e] c1]; cbn [snd fst] in *; [|done]. split; [done|]. intros sf Hsf. injection Hsf as <-.
  apply list.Forall_forall. intros e He. apply elem_of_edges in He as [Hs Hd]. rewrite (at_n _ Hc') in Hs. split; [unfold node_ok; lia|].
  by eapply forest_total_typed, Hd; apply Hc'.
Qed.

Lemma update_sf_typed t sf c : sf_typed sf → alg_typed c → alg_typed (update_sf t sf c).2.
Proof.
  intros Hsf Hc. unfold update_sf. destruct (update_all_alg c (sf_updates t sf)) as [c'|e] eqn:Hr; [|done].
  apply (update_all_typed_alg _ _ _ Hr); [|done]. by apply Forall_fmap.
Qed.

Lemma peel_forests_typed qs SFs m c :
  (N.of_nat n ≤ 2 ^ 32)%N → Forall sf_typed SFs → alg_typed c →
  alg_typed (peel_forests qs SFs m c).2 ∧ ∀ x, (peel_forests qs SFs m c).1 = Ok x → Forall sf_typed x.1.
Proof.
  intros Hn. revert SFs m c. induction qs as [|q qs IH]; intros SFs m c HSFs Hc; cbn [peel_forests].
  { split; [done|]. intros x Hx. by injection Hx as <-. }
  destruct (calc_spanning_forest_typed q c Hn Hc) as [Hc' Hsf]. destruct (calc_spanning_forest q c) as [[sf|e] c1]; cbn [fst snd] in *; [|done].
  specialize (Hsf sf eq_refl). pose proof (update_sf_typed DELETE sf c1 Hsf Hc') as Hc2.
  destruct (update_sf DELETE sf c1) as [[u|e] c2]; cbn [fst snd] in *; [|done]. apply IH; [|done].
  apply list.Forall_app. split; [done|by constructor].
Qed.

Lemma restore_forests_typed SFs c : Forall sf_typed SFs → alg_typed c → alg_typed (restore_forests SFs c).2.
Proof.
  intros HSFs. revert c. induction HSFs as [|sf SFs Hsf _ IH]; intros c Hc; cbn [restore_forests]; [done|].
  pose proof (update_sf_typed INSERT sf c Hsf Hc) as Hc'. destruct (update_sf INSERT sf c) as [[u|e] c1]; [by apply IH|done].
Qed.

Lemma calc_disjoint_typed qs c :
  (N.of_nat n ≤ 2 ^ 32)%N → alg_typed c → alg_typed (calc_disjoint_spanning_forests qs c).2.
Proof.
  intros Hn Hc. unfold calc_disjoint_spanning_forests. destruct (peel_forests_typed qs [] 0 c Hn) as [Hc' Hx]; [constructor|done|].
  destruct (peel_forests qs [] 0 c) as [[[SFs m]|e] c1]; cbn [fst snd] in *; [|done]. specialize (Hx _ eq_refl). cbn in Hx.
  pose proof (restore_forests_typed SFs c1 Hx Hc') as Hc2. destruct (restore_forests SFs c1) as [[u|e] c2]; cbn [snd] in *; [|done].
  by apply (alg_typed_frame c2).
Qed.

(** ** Any operations in any order *)

Inductive alg_step : CCSketchAlg → CCSketchAlg → Prop :=
  | step_pre_insert c upd c' : edge_typed (edge upd) → pre_insert c upd = Ok c' → alg_step c c'
  | step_batch c thr v dsts c' : node_ok v → Forall node_ok dsts → apply_update_batch c thr v dsts = Ok c' → alg_step c c'
  | step_raw c v raw c' : Forall bucket_fits raw → apply_raw_buckets_update c v raw = Ok c' → alg_step c c'
  | step_update c upd c' : edge_typed (edge upd) → update_alg c upd = Ok c' → alg_step c c'
  | step_components c q : alg_step c (connected_components q c).2
  | step_point c q a b : alg_step c (point_query q a b c).2
  | step_forest c q : alg_step c (calc_spanning_forest q c).2
  | step_forests c qs : alg_step c (calc_disjoint_spanning_forests qs c).2.

Lemma alg_step_typed c c' : (N.of_nat n ≤ 2 ^ 32)%N → alg_step c c' → alg_typed c → alg_typed c'.
Proof.
  intros Hn [c0 upd c0' He Hr|c0 thr v dsts c0' Hv Hds Hr|c0 v raw c0' Hraw Hr|c0 upd c0' He Hr|c0 q|c0 q a b|c0 q|c0 qs] Hc.
  - apply (alg_typed_frame c0); [by eapply pre_insert_frame|done].
  - by eapply apply_update_batch_typed.
  - by eapply apply_raw_typed.
  - by eapply update_alg_typed.
  - by apply connected_components_typed.
  - by apply point_query_typed.
  - by apply calc_spanning_forest_typed.
  - by apply calc_disjoint_typed.
Qed.
End algorithm.

Lemma new_alg_typed `{BuildConfig, Libm, Hashing} n sd prio cfg workers :
  calc_bkt_per_col (calc_vector_length (N.of_nat n)) < 64 →
  alg_typed n (alg_sketch n sd (_sketches_factor cfg)) (allocate_worker_memory (new_CCSketchAlg n sd prio cfg) workers).
Proof.
  intros Hb. pose proof (new_sketch_typed _ sd (calc_cc_samples (N.of_nat n) (_sketches_factor cfg)) default_cols_per_sample Hb) as Hs.
  constructor; cbn; [done|done|by rewrite length_fmap, length_seq| |by apply Forall_replicate|].
  - apply Forall_fmap. apply list.Forall_forall. intros i _. exact Hs.
  - apply Forall_replicate. set_solver.
Qed.

(** C35. The state stays well typed. After construction, let any operations run in any
    order: updates of any 32-bit nodes, batches, raw buckets that fit their types, and
    queries, whether they succeed or throw. All sketches and the workers' scratch
    sketches then still have one geometry and as many buckets as it says; every bucket
    holds a 64-bit index and a checksum of its declared width; no sketch has counted
    more samples than it has; the forest array holds 32-bit nodes; and whatever a
    sketch answers is a 64-bit index whose decoded ends are 32-bit nodes. No assumption
    on the hash, on checksums or on the graph is needed. *)
Theorem state_stays_typed `{BuildConfig, Libm, Hashing} n sd prio cfg workers c :
  (N.of_nat n ≤ 2 ^ 32)%N → calc_bkt_per_col (calc_vector_length (N.of_nat n)) < 64 →
  rtc alg_step (allocate_worker_memory (new_CCSketchAlg n sd prio cfg) workers) c →
  alg_typed n (alg_sketch n sd (_sketches_factor cfg)) c ∧
  ∀ v s r, sketches c !! v = Some s → (sample s).1 = Ok r →
    (sample_index r < 2 ^ 64)%N ∧ edge_typed (inv_concat_pairing_fn (sample_index r)).
Proof.
  intros Hn Hb Hsteps.
  assert (alg_typed n (alg_sketch n sd (_sketches_factor cfg)) c) as Hc.
  { pose proof (new_alg_typed n sd prio cfg workers Hb) as Hc. induction Hsteps as [c|c c1 c2 Hs _ IH]; [done|].
    apply IH. by eapply alg_step_typed. }
  split; [done|]. intros v s r Hv Hr. split; [|apply decoded_ends_ok].
  eapply sample_index_lt; [|exact Hr]. by apply (Forall_lookup_1 _ _ _ _ (at_sketches _ _ _ Hc) Hv).
Qed.

Section witnesses.
#[local] Existing Instances default_build integral_libm xxh3_hashing.

(** A batch, an update and a query that answers. *)
Definition typed_example : CCSketchAlg :=
  let c := allocate_worker_memory (new_CCSketchAlg 4 7 [1; 2; 3; 4]%N CCConf.default) 1 in
  match apply_update_batch c 0 1 [2; 3] with
  | Ok c => match update_alg c (mkUpdate (mkEdge 0 3) INSERT) with
            | Ok c => (connected_components example_run c).2
            | Throw _ => c
            end
  | Throw _ => c
  end.

Lemma state_stays_typed_witness :
  alg_typed 4 (alg_sketch 4 7 (_sketches_factor CCConf.default)) typed_example ∧
  ∀ v s r, sketches typed_example !! v = Some s → (sample s).1 = Ok r →
    (sample_index r < 2 ^ 64)%N ∧ edge_typed (inv_concat_pairing_fn (sample_index r)).
Proof.
  apply (state_stays_typed 4 7 [1; 2; 3; 4]%N CCConf.default 1 typed_example).
  - done.
  - vm_compute. lia.
  - unfold typed_example. set (c := allocate_worker_memory _ _).
    destruct (apply_update_batch c 0 1 [2; 3]) as [c1|] eqn:Hbatch; [|constructor].
    eapply rtc_l; [by eapply step_batch, Hbatch; repeat constructor|].
    destruct (update_alg c1 _) as [c2|] eqn:Hupd; [|constructor].
    eapply rtc_l; [by eapply step_update, Hupd|]. eapply rtc_l; [|constructor]. apply step_components.
Defined.
End witnesses.
