(* ===== verification/GraphVerifier.v ===== *)
(** * The verifier of query answers: src/test/util/graph_verifier.cpp

    Class [GraphVerifier] keeps the graph as an adjacency matrix, computes its components
    by Kruskal's algorithm and checks the answers of queries against them. Operations
    that can throw half way return the outcome and the state they leave. *)

From Stdlib Require Import NArith Lia.
From stdpp Require Import base list gmap numbers.
From S2P Require Import Prelude Util Bucket Dsu Graph CCSketchAlg ReturnTypes.

(** [adj_matrix[i][j]] is the edge of [i] and [i + j]. *)
Record GraphVerifier := mkGV {
  gv_num_vertices : nat;
  adj_matrix : list (list bool);
  kruskal_dsu : DSU;
  kruskal_ccs : nat;
  need_query_compute : bool;
}.

Definition set_adj (v : GraphVerifier) (adj : list (list bool)) (need : bool) : GraphVerifier :=
  mkGV (gv_num_vertices v) adj (kruskal_dsu v) (kruskal_ccs v) need.
Definition set_kruskal (v : GraphVerifier) (d : DSU) : GraphVerifier :=
  mkGV (gv_num_vertices v) (adj_matrix v) d (kruskal_ccs v) (need_query_compute v).

(** The constructor leaves [kruskal_ccs] as it was in memory. *)
Definition new_GraphVerifier (vertices : nat) (prio : list N) (junk : nat) : GraphVerifier :=
  mkGV vertices ((λ i, replicate (vertices - i) false) <$> seq 0 vertices) (new_dsu vertices prio) junk true.

(** The copy constructor: the counter is again as memory has it, the flag set. *)
Definition copy_GraphVerifier (oth : GraphVerifier) (junk : nat) : GraphVerifier :=
  mkGV (gv_num_vertices oth) (adj_matrix oth) (kruskal_dsu oth) junk true.

(** Vectors are indexed without a check. *)
Definition flip_entry (adj : list (list bool)) (i j : nat) : outcome (list (list bool)) :=
  row ← arr_get adj i; b ← arr_get row j;
  Ok (<[i := <[j := negb b]> row]> adj).

Definition edge_update (e : Edge) (v : GraphVerifier) : outcome GraphVerifier :=
  if decide (gv_num_vertices v ≤ src e ∨ gv_num_vertices v ≤ dst e) then Throw BadEdgeException
  else
    let s := src e `min` dst e in
    let d := src e `max` dst e in
    adj ← flip_entry (adj_matrix v) s (d - s);
    Ok (set_adj v adj true).

(** One entry of the loops of [kruskal]. *)
Definition kruskal_entry (adj : list (list bool)) (x : DSU * nat) (ij : nat * nat) : outcome (DSU * nat) :=
  row ← arr_get adj ij.1; b ← arr_get row ij.2;
  if (b : bool) then
    md ← DisjointSetUnion.merge x.1 ij.1 (ij.1 + ij.2);
    Ok (md.2, if merged md.1 then x.2 - 1 else x.2)
  else Ok x.

Definition matrix_entries (adj : list (list bool)) (n : nat) : list (nat * nat) :=
  i ← seq 0 n; (i,.) <$> seq 0 (length (adj !!! i)).

Definition kruskal (v : GraphVerifier) : outcome GraphVerifier :=
  if need_query_compute v then
    let n := gv_num_vertices v in
    x ← outcome_fold (kruskal_entry (adj_matrix v)) (reset (kruskal_dsu v), n) (matrix_entries (adj_matrix v) n);
    Ok (mkGV n (adj_matrix v) x.1 x.2 false)
  else Ok v.

(** The constructor from a file of a stream's final edges; reading it belongs to the
    stream library. *)
Definition file_step (adj : list (list bool)) (e : Edge) : outcome (list (list bool)) :=
  let s := src e `min` dst e in flip_entry adj s (src e `max` dst e - s).

Definition new_GraphVerifier_file (vertices : nat) (prio : list N) (junk : nat) (es : list Edge) : outcome GraphVerifier :=
  let v := new_GraphVerifier vertices prio junk in
  adj ← outcome_fold file_step (adj_matrix v) es;
  kruskal (set_adj v adj true).

Definition verify_edge (e : Edge) (v : GraphVerifier) : outcome unit :=
  let s := src e `min` dst e in
  let d := src e `max` dst e in
  row ← arr_get (adj_matrix v) s; b ← arr_get row (d - s);
  if (b : bool) then Ok tt else Throw BadEdgeException.

(** ** Components *)

Fixpoint verify_nodes (cc : ConnectedComponents) (l : list nat) (v : GraphVerifier) : outcome unit * GraphVerifier :=
  match l with
  | [] => (Ok tt, v)
  | i :: l =>
      match find_root (kruskal_dsu v) i with
      | Throw e => (Throw e, v)
      | Ok (r, d) =>
          let v := set_kruskal v d in
          match is_connected cc r i with
          | Throw e => (Throw e, v)
          | Ok b => if (b : bool) then verify_nodes cc l v else (Throw IncorrectCCException, v)
          end
      end
  end.

Definition verify_connected_components (cc : ConnectedComponents) (v : GraphVerifier) : outcome unit * GraphVerifier :=
  match kruskal v with
  | Throw e => (Throw e, v)
  | Ok v =>
      if decide (kruskal_ccs v = num_cc cc) then verify_nodes cc (seq 0 (gv_num_vertices v)) v
      else (Throw IncorrectCCException, v)
  end.

(** ** Forests *)

(** The loop over the edges of one forest. *)
Fixpoint verify_forest_edges (backup : list (list bool)) (es : list Edge) (forest_ccs : DSU) (v : GraphVerifier)
    : outcome DSU * GraphVerifier :=
  match es with
  | [] => (Ok forest_ccs, v)
  | e :: es =>
      match DisjointSetUnion.merge forest_ccs (src e) (dst e) with
      | Throw x => (Throw x, v)
      | Ok (m, forest_ccs) =>
          if merged m then
            match verify_edge e v with
            | Throw x => (Throw x, set_adj v backup (need_query_compute v))
            | Ok _ =>
                match edge_update e v with
                | Throw x => (Throw x, v)
                | Ok v => verify_forest_edges backup es forest_ccs v
                end
            end
          else (Throw IncorrectForestException, set_adj v backup (need_query_compute v))
      end
  end.

(** The loop that compares the roots in the graph with the roots in the forest. *)
Fixpoint verify_roots (backup : list (list bool)) (l : list nat) (root_map : gmap nat nat) (forest_ccs : DSU)
    (v : GraphVerifier) : outcome unit * GraphVerifier :=
  match l with
  | [] => (Ok tt, v)
  | i :: l =>
      match find_root (kruskal_dsu v) i with
      | Throw x => (Throw x, v)
      | Ok (kruskal_root, d) =>
          let v := set_kruskal v d in
          match find_root forest_ccs i with
          | Throw x => (Throw x, v)
          | Ok (r, forest_ccs) =>
              match root_map !! kruskal_root with
              | None => verify_roots backup l (<[kruskal_root := r]> root_map) forest_ccs v
              | Some r' =>
                  if decide (r' = r) then verify_roots backup l root_map forest_ccs v
                  else (Throw IncorrectForestException, set_adj v backup (need_query_compute v))
              end
          end
      end
  end.

(** [prios] are the priorities of each forest's own union-find. *)
Fixpoint verify_forests (backup : list (list bool)) (SFs : list SpanningForest) (prios : nat → list N)
    (v : GraphVerifier) : outcome unit * GraphVerifier :=
  match SFs with
  | [] => (Ok tt, set_adj v backup (need_query_compute v))
  | sf :: SFs =>
      match kruskal v with
      | Throw x => (Throw x, v)
      | Ok v =>
          let n := gv_num_vertices v in
          let '(res, v) := verify_forest_edges backup (edges sf) (new_dsu n (prios (length SFs))) v in
          match res with
          | Throw x => (Throw x, v)
          | Ok forest_ccs =>
              let '(res, v) := verify_roots backup (seq 0 n) ∅ forest_ccs v in
              match res with
              | Throw x => (Throw x, v)
              | Ok _ => verify_forests backup SFs prios v
              end
          end
      end
  end.

Definition verify_spanning_forests (SFs : list SpanningForest) (prios : nat → list N) (v : GraphVerifier)
    : outcome unit * GraphVerifier :=
  verify_forests (adj_matrix v) SFs prios v.

(** The verifier of two streams; what was computed of the first one stays. *)
Definition combine (v oth : GraphVerifier) : outcome GraphVerifier :=
  adj ← outcome_list (imap (λ i row,
    outcome_list (imap (λ j b, o ← arr_get (adj_matrix oth) i; b' ← arr_get o j; Ok (xorb b b')) row)) (adj_matrix v));
  Ok (set_adj v adj (need_query_compute v)).

Definition gv_eqb (v oth : GraphVerifier) : bool := bool_decide (adj_matrix v = adj_matrix oth).
