(* ===== verification/GraphVerifierSpec.v ===== *)
(** * What the verifier accepts: src/test/util/graph_verifier.cpp

    The verifier accepts exactly the right answers: components are compared with those
    of Kruskal's algorithm by their number and the root of every node, forests by
    replaying their edges. *)

From Stdlib Require Import NArith Lia.
From stdpp Require Import base list gmap sets numbers relations.
From S2P Require Import Prelude Util Bucket Dsu Graph CCSketchAlg ReturnTypes CCQuery GraphVerifier.

(** ** Numbers of roots *)

Definition roots (n : nat) (d : DSU) : list nat := filter (λ v, parent d !! v = Some v) (seq 0 n).

Definition num_roots (n : nat) (d : DSU) : nat := length (roots n d).

Lemma filter_all {A} (P : A → Prop) `{∀ x, Decision (P x)} (l : list A) : (∀ x, x ∈ l → P x) → filter P l = l.
Proof.
  induction l as [|x l IH]; intros Hl; [done|]. rewrite filter_cons, decide_True by (apply Hl; by left).
  f_equal. apply IH. intros y Hy. apply Hl. by right.
Qed.

Lemma elem_of_roots n d r : r ∈ roots n d ↔ r < n ∧ parent d !! r = Some r.
Proof. unfold roots. rewrite list_elem_of_filter, elem_of_seq. split; intros []; split; try done; lia. Qed.

Lemma NoDup_roots n d : NoDup (roots n d).
Proof. apply NoDup_filter, NoDup_seq. Qed.

Lemma root_exists n (e : DSU) v : dsu_wf e → dsu_n e = n → v < n → ∃ r, root_of (parent e) v r ∧ r ∈ roots n e.
Proof.
  intros He Hen Hv. destruct (root_of_ex _ _ _ v He) as [r Hr]; [lia|]. exists r. split; [done|].
  apply elem_of_roots. destruct (root_of_lt _ _ _ _ _ He Hr). split; [lia|]. by eapply root_of_root.
Qed.

Lemma roots_apart n d r r' : r ∈ roots n d → r' ∈ roots n d → dsu_rel d r r' → r = r'.
Proof.
  rewrite !elem_of_roots. intros [_ Hr] [_ Hr'] (w & Hw & Hw').
  assert (root_of (parent d) r r) as H1 by by constructor. assert (root_of (parent d) r' r') as H2 by by constructor.
  rewrite (root_of_det _ _ _ _ H1 Hw), (root_of_det _ _ _ _ H2 Hw'). done.
Qed.

Section two.
Context (n : nat) (d d' : DSU) (Hwf : dsu_wf d) (Hn : dsu_n d = n) (Hwf' : dsu_wf d') (Hn' : dsu_n d' = n).

(** A function that finds roots in the second union-find. *)
Lemma root_function : ∃ f : nat → nat, ∀ v, v < n → root_of (parent d') v (f v) ∧ f v ∈ roots n d'.
Proof.
  exists (λ v, match find_root d' v with Ok x => x.1 | Throw _ => 0 end). intros v Hv.
  destruct (find_root_spec d' v Hwf') as (r & d2 & -> & Hr & _); [lia|]. cbn. split; [done|].
  apply elem_of_roots. destruct (root_of_lt _ _ _ _ _ Hwf' Hr). split; [lia|]. by eapply root_of_root.
Qed.

Lemma coarser_roots_covered f :
  (∀ v, v < n → root_of (parent d') v (f v) ∧ f v ∈ roots n d') →
  (∀ x y, x < n → y < n → dsu_rel d x y → dsu_rel d' x y) →
  ∀ v r, v < n → root_of (parent d) v r → f r = f v.
Proof.
  intros Hf Hsub v r Hv Hr. destruct (root_of_lt _ _ _ _ _ Hwf Hr) as [_ Hrn].
  assert (dsu_rel d' r v) as (w & Hw & Hw'). { apply Hsub; [lia|done|]. exists r. split; [|done]. constructor. by eapply root_of_root. }
  destruct (Hf v Hv) as [Hfv _]. destruct (Hf r ltac:(lia)) as [Hfr _].
  rewrite (root_of_det _ _ _ _ Hfr Hw), (root_of_det _ _ _ _ Hfv Hw'). done.
Qed.

Lemma coarser_roots_submseteq f :
  (∀ v, v < n → root_of (parent d') v (f v) ∧ f v ∈ roots n d') →
  (∀ x y, x < n → y < n → dsu_rel d x y → dsu_rel d' x y) → roots n d' ⊆+ f <$> roots n d.
Proof.
  intros Hf Hsub. pose proof (coarser_roots_covered f Hf Hsub) as Hcov.
  apply NoDup_submseteq; [apply NoDup_roots|]. intros r' Hr'. pose proof Hr' as [Hlt Hroot]%elem_of_roots.
  destruct (root_exists n d r' Hwf Hn Hlt) as (r & Hr & Hin). apply list_elem_of_fmap. exists r. split; [|done].
  destruct (Hf r' Hlt) as [Hfr _]. rewrite (Hcov r' r Hlt Hr). apply (root_of_det (parent d') r'); [by constructor|done].
Qed.

Lemma coarser_count : (∀ x y, x < n → y < n → dsu_rel d x y → dsu_rel d' x y) → num_roots n d' ≤ num_roots n d.
Proof.
  intros Hsub. destruct root_function as [f Hf]. pose proof (coarser_roots_submseteq f Hf Hsub) as Hle.
  apply submseteq_length in Hle. by rewrite length_fmap in Hle.
Qed.

(** Of two partitions, one coarser than the other, with as many classes: they are equal. *)
Lemma coarser_same_count x y :
  (∀ x y, x < n → y < n → dsu_rel d x y → dsu_rel d' x y) → num_roots n d = num_roots n d' →
  x < n → y < n → dsu_rel d' x y → dsu_rel d x y.
Proof.
  intros Hsub Hcount Hx Hy Hxy. destruct root_function as [f Hf].
  pose proof (coarser_roots_covered f Hf Hsub) as Hcov.
  assert (f <$> roots n d ≡ₚ roots n d') as Hperm.
  { symmetry. apply submseteq_length_Permutation; [by apply coarser_roots_submseteq|].
    unfold num_roots in Hcount. rewrite length_fmap. lia. }
  assert (NoDup (f <$> roots n d)) as Hnd by (rewrite Hperm; apply NoDup_roots).
  destruct (root_exists n d x Hwf Hn Hx) as (rx & Hrx & Hinx), (root_exists n d y Hwf Hn Hy) as (ry & Hry & Hiny).
  assert (f rx = f ry) as Heq.
  { rewrite (Hcov x rx Hx Hrx), (Hcov y ry Hy Hry). destruct Hxy as (w & Hw & Hw'). destruct (Hf x Hx) as [Hfx _], (Hf y Hy) as [Hfy _].
    rewrite (root_of_det _ _ _ _ Hfx Hw), (root_of_det _ _ _ _ Hfy Hw'). done. }
  assert (rx = ry) as ->; [|by exists ry].
  apply list_elem_of_lookup in Hinx as [i Hi], Hiny as [j Hj].
  assert (i = j) as ->; [|congruence].
  apply (NoDup_lookup (f <$> roots n d) i j (f rx)); [done|by rewrite list_lookup_fmap, Hi|by rewrite list_lookup_fmap, Hj, Heq].
Qed.

(** Joining two classes leaves one class fewer. *)
Lemma join_count u v :
  u < n → v < n → ¬ dsu_rel d u v → (∀ x y, x < n → y < n → dsu_rel d' x y ↔ join_rel (dsu_rel d) u v x y) →
  num_roots n d = S (num_roots n d').
Proof.
  intros Hu Hv Huv Hrel. destruct root_function as [f Hf].
  assert (∀ x y, x < n → y < n → dsu_rel d x y → dsu_rel d' x y) as Hsub by (intros x y Hx Hy Hxy; apply Hrel; [done|done|by left]).
  pose proof (coarser_roots_covered f Hf Hsub) as Hcov.
  destruct (root_exists n d u Hwf Hn Hu) as (ru & Hru & Hinu), (root_exists n d v Hwf Hn Hv) as (rv & Hrv & Hinv).
  assert (∀ x y, dsu_rel d x y → dsu_rel d y x) as Hsym by (intros x y (w & ? & ?); by exists w).
  assert (dsu_rel d u ru ∧ dsu_rel d v rv) as [Hdu Hdv] by (split; by apply same_set_root).
  assert (∀ x y, x < n → y < n → f x = f y → dsu_rel d' x y) as Hfrel.
  { intros x y Hx Hy Hxy. exists (f x). split; [by apply Hf|rewrite Hxy; by apply Hf]. }
  assert (∀ x y z, dsu_rel d x y → dsu_rel d y z → dsu_rel d x z) as Htrans.
  { intros x y z (w & H1 & H2) (w' & H3 & H4). exists w. split; [done|]. by rewrite (root_of_det _ _ _ _ H2 H3). }
  assert (ru ≠ rv) as Hne by (intros ->; apply Huv; apply (Htrans u rv v); [done|by apply Hsym]).
  destruct (proj1 (elem_of_Permutation (roots n d) rv) Hinv) as [l Hl].
  assert (NoDup (rv :: l)) as Hnd by (rewrite <- Hl; apply NoDup_roots). apply list.NoDup_cons in Hnd as [Hnv Hnd].
  assert (∀ r, r ∈ l ↔ r ∈ roots n d ∧ r ≠ rv) as Hinl.
  { intros r. rewrite Hl, elem_of_cons. split; [intros Hr; split; [by right|by intros ->]|tauto]. }
  assert (f <$> l ≡ₚ roots n d') as Hperm; [|unfold num_roots; by rewrite Hl, <- Hperm, length_cons, length_fmap].
  apply NoDup_Permutation; [|apply NoDup_roots|].
  - apply NoDup_fmap_2_strong; [|done]. intros x y Hx Hy Hxy. apply Hinl in Hx as [Hx Hxv], Hy as [Hy Hyv].
    pose proof Hx as [Hxn _]%elem_of_roots. pose proof Hy as [Hyn _]%elem_of_roots.
    apply (roots_apart n d); [done|done|].
    destruct (proj1 (Hrel x y Hxn Hyn) (Hfrel x y Hxn Hyn Hxy)) as [?|[[? ?]|[? ?]]]; [done| |].
    + destruct Hyv. apply (roots_apart n d); [done..|]. apply (Htrans y v rv); [by apply Hsym|done].
    + destruct Hxv. apply (roots_apart n d); [done..|]. by apply (Htrans x v rv).
  - intros r'. split.
    + intros (r & -> & Hr)%list_elem_of_fmap. apply Hinl in Hr as [[Hr _]%elem_of_roots _]. by apply Hf.
    + intros Hr'. pose proof Hr' as [Hlt Hroot]%elem_of_roots. destruct (root_exists n d r' Hwf Hn Hlt) as (r & Hr & Hin).
      assert (f r = r') as Hfr.
      { rewrite (Hcov r' r Hlt Hr). apply (root_of_det (parent d') r'); [by apply Hf|by constructor]. }
      apply list_elem_of_fmap. destruct (decide (r = rv)) as [->|Hr2]; [|exists r; by rewrite Hinl].
      exists ru. split; [|by apply Hinl]. rewrite <- Hfr, (Hcov u ru), (Hcov v rv) by done.
      assert (dsu_rel d' u v) as (w & Hw & Hw').
      { apply Hrel; [done|done|]. right. left. split; [by apply (Htrans u ru u); [|apply Hsym]|by apply (Htrans v rv v); [|apply Hsym]]. }
      destruct (Hf u Hu) as [Hfu _], (Hf v Hv) as [Hfv _]. by rewrite (root_of_det _ _ _ _ Hfu Hw), (root_of_det _ _ _ _ Hfv Hw').
Qed.
End two.

Lemma same_classes_count n d d' :
  dsu_wf d → dsu_n d = n → dsu_wf d' → dsu_n d' = n →
  (∀ x y, x < n → y < n → dsu_rel d x y ↔ dsu_rel d' x y) → num_roots n d = num_roots n d'.
Proof.
  intros Hwf Hn Hwf' Hn' Hrel. apply Nat.le_antisymm; apply coarser_count; try done; intros x y Hx Hy; by apply Hrel.
Qed.

(** What a merge that joins nothing says. *)
Lemma merged_false n d u v (m : DSUMergeRet) :
  dsu_wf d → dsu_n d = n → u < n → v < n → (merged m = true ↔ ¬ dsu_rel d u v) → merged m = false → dsu_rel d u v.
Proof.
  intros Hwf Hn Hu Hv Hm Hf. destruct (root_exists n d u Hwf Hn Hu) as (ru & Hru & _), (root_exists n d v Hwf Hn Hv) as (rv & Hrv & _).
  destruct (decide (ru = rv)) as [->|Hne]; [by exists rv|]. exfalso. rewrite (proj2 Hm) in Hf; [done|].
  intros Hrel. apply Hne. by apply (same_set_roots (parent d) u v).
Qed.

(** ** The matrix *)

Section verifier.
Context (n : nat) (n_ok : (N.of_nat n ≤ 2 ^ 32)%N).
Implicit Types (E F : gset N) (v : GraphVerifier) (adj : list (list bool)).

(** The matrix holds the graph [E], with no edge from a node to itself. *)
Record adj_repr adj E : Prop := {
  ar_rows : length adj = n;
  ar_row : ∀ i row, adj !! i = Some row → length row = n - i;
  ar_loop : ∀ i row, adj !! i = Some row → row !! 0 = Some false;
  ar_entry : ∀ i j row b, adj !! i = Some row → row !! j = Some b → 0 < j → b = true ↔ concat_pairing_fn i (i + j) ∈ E;
  ar_graph : graph_ok n E;
}.

Lemma adj_lookup adj E i j :
  adj_repr adj E → 0 < j → i + j < n → ∃ row b, adj !! i = Some row ∧ row !! j = Some b ∧ (b = true ↔ concat_pairing_fn i (i + j) ∈ E).
Proof.
  intros [Hl Hr _ He _] Hj Hij. destruct (lookup_lt_is_Some_2 adj i) as [row Hrow]; [lia|].
  destruct (lookup_lt_is_Some_2 row j) as [b Hb]; [rewrite (Hr _ _ Hrow); lia|]. exists row, b. split_and!; [done..|by eapply He].
Qed.

Lemma flip_entry_ok adj E i j :
  adj_repr adj E → 0 < j → i + j < n →
  ∃ adj', flip_entry adj i j = Ok adj' ∧ adj_repr adj' (toggle (concat_pairing_fn i (i + j)) E).
Proof.
  intros Hrep Hj Hij. destruct (adj_lookup adj E i j Hrep Hj Hij) as (row & b & Hrow & Hb & Hbe). destruct Hrep as [Hl Hr H0 He HE].
  unfold flip_entry. rewrite (arr_get_Ok _ _ _ Hrow). cbn [mbind outcome_bind]. rewrite (arr_get_Ok _ _ _ Hb). cbn [mbind outcome_bind].
  eexists. split; [done|]. pose proof (lookup_lt_Some _ _ _ Hrow). pose proof (lookup_lt_Some _ _ _ Hb).
  assert (∀ i' row', <[i:=<[j:=negb b]> row]> adj !! i' = Some row' →
    (i' = i ∧ row' = <[j:=negb b]> row) ∨ (i' ≠ i ∧ adj !! i' = Some row')) as Hcase.
  { intros i' row' Hi'. destruct (decide (i' = i)) as [->|Hne].
    - rewrite list_lookup_insert_eq in Hi' by done. injection Hi' as <-. by left.
    - rewrite list_lookup_insert_ne in Hi' by done. by right. }
  constructor.
  - by rewrite length_insert.
  - intros i' row' [[-> ->]|[_ Hi']]%Hcase; [rewrite length_insert; by apply Hr|by apply Hr].
  - intros i' row' [[-> ->]|[_ Hi']]%Hcase; [rewrite list_lookup_insert_ne by lia; by eapply H0|by eapply H0].
  - intros i' j' row' b' Hi' Hb' Hj'. rewrite elem_of_toggle.
    assert (i' + j' < n) as Hlt.
    { pose proof (lookup_lt_Some _ _ _ Hi') as Hi2. rewrite length_insert, Hl in Hi2. pose proof (lookup_lt_Some _ _ _ Hb') as Hj2.
      apply Hcase in Hi' as [[-> ->]|[_ Hi']]; [rewrite length_insert in Hj2|]; erewrite Hr in Hj2 by done; lia. }
    destruct (decide (i' = i ∧ j' = j)) as [[-> ->]|Hne].
    + rewrite list_lookup_insert_eq in Hi' by done. injection Hi' as <-. rewrite list_lookup_insert_eq in Hb' by done. injection Hb' as <-.
      destruct b; cbn; [|]; split; intros; try done; [|naive_solver..]. tauto.
    + assert (concat_pairing_fn i' (i' + j') ≠ concat_pairing_fn i (i + j)) as Hdiff.
      { intros Heq. apply concat_pairing_fn_inj in Heq; [|by apply (node_ok_lt n); lia..]. lia. }
      assert (b' = true ↔ concat_pairing_fn i' (i' + j') ∈ E) as ->; [|tauto].
      apply Hcase in Hi' as [[-> ->]|[_ Hi']]; [|by eapply He].
      rewrite list_lookup_insert_ne in Hb' by (intros <-; tauto). by eapply He.
  - apply graph_ok_toggle; [done..|lia|lia|lia].
Qed.

(** ** Kruskal's algorithm *)

(** The edges at the entries of a list. *)
Definition entry_edges adj (l : list (nat * nat)) : gset N :=
  list_to_set (l ≫= λ ij : nat * nat, if ((adj !!! ij.1) !!! ij.2 : bool) then [concat_pairing_fn ij.1 (ij.1 + ij.2)] else []).

Definition entry_in adj (ij : nat * nat) : Prop := ∃ row b, adj !! ij.1 = Some row ∧ row !! ij.2 = Some b.

Record kruskal_inv F (x : DSU * nat) : Prop := {
  ki_wf : dsu_wf x.1;
  ki_n : dsu_n x.1 = n;
  ki_rel : ∀ a b, a < n → b < n → dsu_rel x.1 a b ↔ conn n F a b;
  ki_count : x.2 = num_roots n x.1;
}.

Lemma kruskal_entry_ok adj E F x ij :
  adj_repr adj E → entry_in adj ij → kruskal_inv F x →
  ∃ x', kruskal_entry adj x ij = Ok x' ∧ kruskal_inv (entry_edges adj [ij] ∪ F) x'.
Proof.
  intros [Hl Hr H0 He _] (row & b & Hrow & Hb) [Hwf Hn Hrel Hcnt]. destruct ij as [i j], x as [d k]. cbn [fst snd] in *.
  unfold kruskal_entry. cbn [fst snd]. rewrite (arr_get_Ok _ _ _ Hrow). cbn [mbind outcome_bind]. rewrite (arr_get_Ok _ _ _ Hb). cbn [mbind outcome_bind].
  unfold entry_edges. cbn [mbind list_bind fst snd]. rewrite (list_lookup_total_correct _ _ _ Hrow), (list_lookup_total_correct _ _ _ Hb).
  destruct b.
  2: { exists (d, k). split; [done|]. cbn. rewrite (left_id_L ∅ (∪)). by constructor. }
  pose proof (lookup_lt_Some _ _ _ Hrow) as Hi. pose proof (lookup_lt_Some _ _ _ Hb) as Hj. rewrite (Hr _ _ Hrow) in Hj.
  destruct (decide (j = 0)) as [->|Hj0]; [by rewrite (H0 _ _ Hrow) in Hb|].
  destruct (DisjointSetUnion_merge_ok d i (i + j) Hwf) as (m & d' & -> & Hwf' & Hn' & _ & Hm & _ & Hrel'); [lia|lia|].
  cbn [mbind outcome_bind fst snd]. eexists. split; [done|]. cbn [app list_to_set_app list_to_set]. rewrite (right_id_L ∅ (∪)).
  rewrite Hn in *. constructor; cbn [fst snd]; [done|done| |].
  - intros a b Ha Hb'. rewrite Hrel', conn_insert by (done || lia).
    unfold join_rel. rewrite !Hrel by lia. done.
  - case_eq (merged m); intros Hmerged.
    + rewrite (join_count n d d' Hwf Hn Hwf' Hn' i (i + j)) in Hcnt; [|lia|lia|by apply Hm|done]. cbn [fst snd] in *. lia.
    + assert (dsu_rel d i (i + j)) as Hij by (apply (merged_false n d i (i + j) m); (done || lia)).
      rewrite Hcnt. apply same_classes_count; [done..|]. intros a b Ha Hb'. rewrite Hrel' by done. symmetry.
      apply join_rel_related; [apply _|apply _|done].
Qed.

(** All entries, in the order of the loops. *)
Lemma kruskal_entries_ok adj E l F x :
  adj_repr adj E → Forall (entry_in adj) l → kruskal_inv F x →
  ∃ x', outcome_fold (kruskal_entry adj) x l = Ok x' ∧ kruskal_inv (entry_edges adj l ∪ F) x'.
Proof.
  intros Hrep Hl. revert F x. induction Hl as [|ij l Hij _ IH]; intros F x Hx.
  { exists x. split; [done|]. unfold entry_edges. cbn. by rewrite (left_id_L ∅ (∪)). }
  destruct (kruskal_entry_ok adj E F x ij Hrep Hij Hx) as (x1 & Hone & Hx1). destruct (IH _ x1 Hx1) as (x' & Hrun & Hx').
  exists x'. cbn [outcome_fold]. rewrite Hone. split; [done|].
  replace (entry_edges adj (ij :: l) ∪ F) with (entry_edges adj l ∪ (entry_edges adj [ij] ∪ F)); [done|].
  unfold entry_edges. cbn [mbind list_bind]. rewrite app_nil_r, list_to_set_app_L. set_solver.
Qed.

Lemma matrix_entries_in adj E : adj_repr adj E → Forall (entry_in adj) (matrix_entries adj n).
Proof.
  intros [Hl _ _ _ _]. apply list.Forall_forall. intros [i j] Hij. unfold matrix_entries in Hij.
  apply list_elem_of_bind in Hij as (i' & Hij & Hi). apply elem_of_seq in Hi. apply list_elem_of_fmap in Hij as (j' & Heq & Hj).
  injection Heq as -> ->. apply elem_of_seq in Hj. destruct (lookup_lt_is_Some_2 adj i') as [row Hrow]; [lia|].
  rewrite (list_lookup_total_correct _ _ _ Hrow) in Hj. destruct (lookup_lt_is_Some_2 row j') as [b Hb]; [lia|]. by exists row, b.
Qed.

Lemma matrix_edges adj E : adj_repr adj E → entry_edges adj (matrix_entries adj n) = E.
Proof.
  intros Hrep. apply set_eq. intros e. unfold entry_edges. rewrite elem_of_list_to_set, list_elem_of_bind. split.
  - intros ([i j] & He & Hij). pose proof (matrix_entries_in adj E Hrep) as Hin. rewrite list.Forall_forall in Hin.
    destruct (Hin _ Hij) as (row & b & Hrow & Hb). cbn [fst snd] in *.
    rewrite (list_lookup_total_correct _ _ _ Hrow), (list_lookup_total_correct _ _ _ Hb) in He.
    destruct b; [|by apply elem_of_nil in He]. apply list_elem_of_singleton in He as ->.
    destruct Hrep as [_ _ H0 He _]. destruct (decide (j = 0)) as [->|Hj]; [by rewrite (H0 _ _ Hrow) in Hb|].
    apply (He _ _ _ _ Hrow Hb); [lia|done].
  - intros He. destruct (is_edge_ends n n_ok e) as (u & w & Huw & Hw & _ & ->); [by apply Hrep|].
    destruct (adj_lookup adj E u (w - u) Hrep) as (row & b & Hrow & Hb & Hbe); [lia|lia|].
    replace (u + (w - u)) with w in Hbe by lia. exists (u, w - u). cbn [fst snd].
    rewrite (list_lookup_total_correct _ _ _ Hrow), (list_lookup_total_correct _ _ _ Hb). replace (u + (w - u)) with w by lia.
    split; [rewrite (proj2 Hbe He); set_solver|]. unfold matrix_entries. apply list_elem_of_bind. exists u.
    rewrite list_elem_of_fmap, (list_lookup_total_correct _ _ _ Hrow). split; [|apply elem_of_seq; lia].
    exists (w - u). split; [done|]. apply elem_of_seq. apply lookup_lt_Some in Hb. lia.
Qed.

(** The verifier of the graph [E]; what it computed is right unless it is to be computed again. *)
Record verifier_ok E v : Prop := {
  vo_n : gv_num_vertices v = n;
  vo_adj : adj_repr (adj_matrix v) E;
  vo_wf : dsu_wf (kruskal_dsu v);
  vo_dsu : dsu_n (kruskal_dsu v) = n;
  vo_fresh : need_query_compute v = false → kruskal_inv E (kruskal_dsu v, kruskal_ccs v);
}.

Lemma kruskal_ok E v :
  verifier_ok E v →
  ∃ v', kruskal v = Ok v' ∧ verifier_ok E v' ∧ kruskal_inv E (kruskal_dsu v', kruskal_ccs v') ∧
    adj_matrix v' = adj_matrix v ∧ need_query_compute v' = false.
Proof.
  intros [Hn Hadj Hwf Hdn Hfresh]. unfold kruskal. destruct (need_query_compute v) eqn:Hneed.
  2: { exists v. split; [done|]. split; [constructor; try done; intros _; by apply Hfresh|]. split; [by apply Hfresh|done]. }
  rewrite Hn. destruct (kruskal_entries_ok (adj_matrix v) E (matrix_entries (adj_matrix v) n) ∅ (reset (kruskal_dsu v), n) Hadj)
    as ([d k] & -> & Hinv).
  - by apply (matrix_entries_in _ E).
  - constructor; cbn [fst snd]; [by apply reset_wf|done| |].
    + intros a b Ha Hb. rewrite reset_rel, Hdn. split.
      * intros [-> _]. apply conn_refl.
      * intros Hab. split; [|done]. unfold conn in Hab. destruct Hab as [|a c b (_ & _ & _ & Hc) _]; [done|set_solver].
    + unfold num_roots, roots. rewrite filter_all; [by rewrite length_seq|].
      intros w Hw. apply elem_of_seq in Hw. cbn. rewrite Hdn. apply lookup_seq_lt. lia.
  - cbn [mbind outcome_bind fst snd]. rewrite (right_id_L ∅ (∪)), (matrix_edges _ E Hadj) in Hinv.
    eexists. split; [done|]. split; [|done]. destruct Hinv. by constructor.
Qed.

Lemma edge_update_ok E v e :
  verifier_ok E v → src e < n → dst e < n → src e ≠ dst e →
  ∃ v', edge_update e v = Ok v' ∧ verifier_ok (toggle (concat_pairing_fn (src e) (dst e)) E) v' ∧
    kruskal_dsu v' = kruskal_dsu v.
Proof.
  intros [Hn Hadj Hwf Hdn _] Hs Hd Hne. unfold edge_update. rewrite Hn, decide_False by lia.
  destruct (flip_entry_ok (adj_matrix v) E (src e `min` dst e) (src e `max` dst e - src e `min` dst e) Hadj) as (adj & -> & Hadj'); [lia|lia|].
  cbn [mbind outcome_bind]. eexists. split; [done|]. split; [|done]. constructor; cbn; try done.
  replace (concat_pairing_fn (src e) (dst e)) with
    (concat_pairing_fn (src e `min` dst e) (src e `min` dst e + (src e `max` dst e - src e `min` dst e))); [done|].
  replace (src e `min` dst e + (src e `max` dst e - src e `min` dst e)) with (src e `max` dst e) by lia.
  destruct (decide (src e < dst e)); [by rewrite Nat.min_l, Nat.max_r by lia|].
  rewrite Nat.min_r, Nat.max_l by lia. apply concat_pairing_fn_comm.
Qed.

Lemma verify_edge_ok E v e :
  verifier_ok E v → src e < dst e → dst e < n →
  verify_edge e v = if decide (concat_pairing_fn (src e) (dst e) ∈ E) then Ok tt else Throw BadEdgeException.
Proof.
  intros [Hn Hadj _ _ _] Hlt Hd. unfold verify_edge. rewrite Nat.min_l, Nat.max_r by lia.
  destruct (adj_lookup _ E (src e) (dst e - src e) Hadj) as (row & b & Hrow & Hb & Hbe); [lia|lia|].
  rewrite (arr_get_Ok _ _ _ Hrow). cbn [mbind outcome_bind]. rewrite (arr_get_Ok _ _ _ Hb). cbn [mbind outcome_bind].
  replace (src e + (dst e - src e)) with (dst e) in Hbe by lia. destruct b; case_decide; naive_solver.
Qed.

(** ** Building verifiers *)

Lemma new_verifier_ok prio junk : length prio = n → verifier_ok ∅ (new_GraphVerifier n prio junk).
Proof.
  intros Hp. constructor; cbn; [done| |by apply new_dsu_wf|done|done].
  assert (∀ i row, ((λ i, replicate (n - i) false) <$> seq 0 n) !! i = Some row → i < n ∧ row = replicate (n - i) false) as Hrow.
  { intros i row Hi. rewrite list_lookup_fmap in Hi. destruct (seq 0 n !! i) eqn:Hs; [|done].
    apply lookup_seq in Hs as [-> Hlt]. by injection Hi as <-. }
  constructor.
  - by rewrite length_fmap, length_seq.
  - intros i row [_ ->]%Hrow. apply length_replicate.
  - intros i row [Hi ->]%Hrow. apply lookup_replicate. split; [done|lia].
  - intros i j row b [_ ->]%Hrow [-> _]%lookup_replicate _. set_solver.
  - intros e He. set_solver.
Qed.

Lemma copy_verifier_ok E v junk : verifier_ok E v → verifier_ok E (copy_GraphVerifier v junk).
Proof. intros [? ? ? ? _]. by constructor. Qed.

Lemma edge_updates_ok E v upds :
  verifier_ok E v → Forall (upd_ok n) upds →
  ∃ v', outcome_fold (λ v e, edge_update e v) v (edge <$> upds) = Ok v' ∧ verifier_ok (toggle_all (upd_index <$> upds) E) v' ∧
    (need_query_compute v = true → need_query_compute v' = true).
Proof.
  intros Hok Hall. revert E v Hok. induction Hall as [|u upds (Hs & Hd & Hne) _ IH]; intros E v Hok; [by exists v|].
  destruct (edge_update_ok E v (edge u) Hok Hs Hd Hne) as (v1 & Hu & Hok1 & _).
  destruct (IH _ v1 Hok1) as (v' & Hrun & Hok' & Hneed). exists v'. rewrite !fmap_cons. cbn [outcome_fold]. rewrite Hu.
  split; [done|]. split; [done|]. intros _. apply Hneed. revert Hu. unfold edge_update. case_decide; [done|].
  destruct (flip_entry _ _ _); cbn [mbind outcome_bind]; [|done]. by intros [= <-].
Qed.

Lemma combined_entry adj1 adj2 E1 E2 i row j b :
  adj_repr adj1 E1 → adj_repr adj2 E2 → adj1 !! i = Some row → row !! j = Some b →
  ∃ row2 b2, adj2 !! i = Some row2 ∧ row2 !! j = Some b2.
Proof.
  intros Hrep1 Hrep2 Hi Hj. pose proof (lookup_lt_Some _ _ _ Hi). pose proof (lookup_lt_Some _ _ _ Hj).
  rewrite (ar_rows _ _ Hrep1) in *. rewrite (ar_row _ _ Hrep1 _ _ Hi) in *.
  destruct (lookup_lt_is_Some_2 adj2 i) as [row2 Hi2]; [rewrite (ar_rows _ _ Hrep2); lia|].
  destruct (lookup_lt_is_Some_2 row2 j) as [b2 Hj2]; [rewrite (ar_row _ _ Hrep2 _ _ Hi2); lia|]. by exists row2, b2.
Qed.

Definition combined_row (adj2 : list (list bool)) (i : nat) (row : list bool) : list bool :=
  imap (λ j b, xorb b ((adj2 !!! i) !!! j)) row.

Lemma combined_repr adj1 adj2 E1 E2 :
  adj_repr adj1 E1 → adj_repr adj2 E2 → adj_repr (imap (combined_row adj2) adj1) (symdiff E1 E2).
Proof.
  intros Hrep1 Hrep2.
  assert (∀ i row, imap (combined_row adj2) adj1 !! i = Some row → ∃ row1, adj1 !! i = Some row1 ∧ row = combined_row adj2 i row1) as Hrow.
  { intros i row Hi. rewrite list_lookup_imap in Hi. destruct (adj1 !! i) as [row1|]; [|done]. injection Hi as <-. by exists row1. }
  assert (∀ i row j b1, adj1 !! i = Some row → row !! j = Some b1 →
    ∃ row2 b2, adj2 !! i = Some row2 ∧ row2 !! j = Some b2 ∧ combined_row adj2 i row !! j = Some (xorb b1 b2)) as Hent.
  { intros i row j b1 Hi Hj. destruct (combined_entry _ _ _ _ i row j b1 Hrep1 Hrep2 Hi Hj) as (row2 & b2 & H2 & H3).
    exists row2, b2. split; [done|]. split; [done|]. unfold combined_row. rewrite list_lookup_imap, Hj. cbn.
    by rewrite (list_lookup_total_correct _ _ _ H2), (list_lookup_total_correct _ _ _ H3). }
  destruct Hrep1 as [Hl1 Hr1 H01 He1 HE1], Hrep2 as [Hl2 Hr2 H02 He2 HE2]. constructor.
  - by rewrite length_imap.
  - intros i row (row1 & Hi & ->)%Hrow. unfold combined_row. rewrite length_imap. by apply Hr1.
  - intros i row (row1 & Hi & ->)%Hrow. destruct (Hent i row1 0 false Hi (H01 _ _ Hi)) as (row2 & b2 & H2 & H3 & ->).
    rewrite (H02 _ _ H2) in H3. by injection H3 as <-.
  - intros i j row b (row1 & Hi & ->)%Hrow Hb Hj.
    destruct (row1 !! j) as [b1|] eqn:Hb1; [|unfold combined_row in Hb; by rewrite list_lookup_imap, Hb1 in Hb].
    destruct (Hent i row1 j b1 Hi Hb1) as (row2 & b2 & Hi2 & Hb2 & Hx). rewrite Hx in Hb. injection Hb as <-.
    pose proof (He1 _ _ _ _ Hi Hb1 Hj). pose proof (He2 _ _ _ _ Hi2 Hb2 Hj). rewrite elem_of_symdiff. destruct b1, b2; cbn; naive_solver.
  - intros e [[He _]|[He _]]%elem_of_symdiff; [by apply HE1|by apply HE2].
Qed.

Lemma combine_ok E1 E2 v1 v2 :
  verifier_ok E1 v1 → verifier_ok E2 v2 → need_query_compute v1 = true →
  ∃ v, combine v1 v2 = Ok v ∧ verifier_ok (symdiff E1 E2) v.
Proof.
  intros [Hn1 Hrep1 Hwf Hdn _] [_ Hrep2 _ _ _] Hneed. unfold combine.
  rewrite (outcome_list_imap _ (combined_row (adj_matrix v2))).
  2: { intros i row Hi. apply outcome_list_imap. intros j b Hj.
       destruct (combined_entry _ _ _ _ i row j b Hrep1 Hrep2 Hi Hj) as (row2 & b2 & H2 & H3).
       rewrite (arr_get_Ok _ _ _ H2). cbn [mbind outcome_bind]. rewrite (arr_get_Ok _ _ _ H3). cbn [mbind outcome_bind].
       by rewrite (list_lookup_total_correct _ _ _ H2), (list_lookup_total_correct _ _ _ H3). }
  cbn [mbind outcome_bind]. rewrite Hneed. eexists. split; [done|]. constructor; cbn; try done. by apply combined_repr.
Qed.
End verifier.
