(* ===== verification/GraphVerifierProps.v ===== *)
(** * Right answers pass, wrong ones do not: src/test/util/graph_verifier.cpp

    The two checks of the verifier as decision procedures, and the answers of
    [CCSketchAlg] to its queries, which always pass. *)

From Stdlib Require Import NArith Lia.
From stdpp Require Import base list gmap sets numbers relations.
From S2P Require Import Prelude Float64 Util Bucket Sketch XXHash Concrete SketchSpec Dsu Graph Configuration CCSketchAlg Partition ReturnTypes MergeInstr Boruvka BoruvkaLoop CCQuery GraphVerifier GraphVerifierSpec.

Section checks.
Context (n : nat) (n_ok : (N.of_nat n ≤ 2 ^ 32)%N).
Implicit Types (E F : gset N) (v : GraphVerifier).

(** ** Components *)

(** Looking roots up changes nothing that counts. *)
Record same_state v v' : Prop := {
  ss_n : gv_num_vertices v' = gv_num_vertices v;
  ss_adj : adj_matrix v' = adj_matrix v;
  ss_ccs : kruskal_ccs v' = kruskal_ccs v;
  ss_need : need_query_compute v' = need_query_compute v;
  ss_wf : dsu_wf (kruskal_dsu v');
  ss_dsu : dsu_n (kruskal_dsu v') = dsu_n (kruskal_dsu v);
  ss_roots : ∀ x r, root_of (parent (kruskal_dsu v)) x r ↔ root_of (parent (kruskal_dsu v')) x r;
}.

Lemma same_state_refl v : dsu_wf (kruskal_dsu v) → same_state v v.
Proof. by constructor. Qed.

Lemma same_state_trans v v1 v2 : same_state v v1 → same_state v1 v2 → same_state v v2.
Proof. intros [] []. constructor; try congruence. intros x r. rewrite ss_roots0. apply ss_roots1. Qed.

Lemma same_state_step v i :
  dsu_wf (kruskal_dsu v) → dsu_n (kruskal_dsu v) = n → i < n →
  ∃ r d, find_root (kruskal_dsu v) i = Ok (r, d) ∧ root_of (parent (kruskal_dsu v)) i r ∧ same_state v (set_kruskal v d).
Proof.
  intros Hwf Hn Hi. destruct (find_root_spec (kruskal_dsu v) i Hwf) as (r & d & Hf & Hr & Hwf' & Hn' & _ & Heq); [lia|].
  exists r, d. split; [done|]. split; [done|]. by constructor.
Qed.

Lemma num_roots_same d d' : (∀ x r, root_of (parent d) x r ↔ root_of (parent d') x r) → num_roots n d = num_roots n d'.
Proof.
  intros Heq. unfold num_roots, roots. f_equal. apply list_filter_iff. intros w.
  split; intros Hr; (eapply root_of_root; apply Heq; by constructor).
Qed.

Lemma kruskal_inv_same E v v' :
  same_state v v' → kruskal_inv n E (kruskal_dsu v, kruskal_ccs v) → kruskal_inv n E (kruskal_dsu v', kruskal_ccs v').
Proof.
  intros [_ _ Hc _ Hwf Hd Heq] [_ Hn Hrel Hk]. cbn [fst snd] in *. constructor; cbn [fst snd]; [done|congruence| |].
  - intros a b Ha Hb. rewrite <- Hrel by done. symmetry. by apply same_set_ext.
  - rewrite Hc, Hk. by apply num_roots_same.
Qed.

Lemma verifier_ok_same E v v' : same_state v v' → verifier_ok n E v → verifier_ok n E v'.
Proof.
  intros Hs [Hn Hadj Hwf Hdn Hf]. pose proof Hs as [H1 H2 H3 H4 H5 H6 H7].
  constructor; [congruence|by rewrite H2|done|congruence|]. rewrite H4. intros Hneed. by eapply kruskal_inv_same, Hf.
Qed.

Section components.
Context (d : DSU) (cc : ConnectedComponents).
Context (Hwf : dsu_wf d) (Hdn : dsu_n d = n) (Hcc : components_of n d cc).

Lemma verify_nodes_ok l v :
  dsu_wf (kruskal_dsu v) → dsu_n (kruskal_dsu v) = n → Forall (λ i, i < n) l →
  ∃ res v', verify_nodes cc l v = (res, v') ∧ same_state v v' ∧ (res = Ok tt ∨ res = Throw IncorrectCCException) ∧
    (res = Ok tt ↔ ∀ i r, i ∈ l → root_of (parent (kruskal_dsu v)) i r → dsu_rel d r i).
Proof.
  intros Hkwf Hkn Hl. revert v Hkwf Hkn. induction Hl as [|i l Hi _ IH]; intros v Hkwf Hkn; cbn [verify_nodes].
  { exists (Ok tt), v. split; [done|]. split; [by apply same_state_refl|]. split; [by left|]. split; [set_solver|done]. }
  destruct (same_state_step v i Hkwf Hkn Hi) as (r & d' & -> & Hr & Hs).
  destruct (root_of_lt _ _ _ _ _ Hkwf Hr) as [_ Hrn]. rewrite Hkn in Hrn.
  destruct (is_connected_ok n d cc r i Hcc Hrn Hi) as (b & -> & Hb). destruct b.
  - destruct (IH (set_kruskal v d')) as (res & v' & -> & Hs' & Hres & Hiff); [apply Hs|rewrite <- Hkn; apply Hs|].
    exists res, v'. split; [done|]. split; [by eapply same_state_trans|]. split; [done|]. rewrite Hiff. split.
    + intros Hall j rj [->|Hj]%elem_of_cons Hrj; [|apply Hall; [done|]; by apply Hs].
      rewrite (root_of_det _ _ _ _ Hrj Hr). by apply Hb.
    + intros Hall j rj Hj Hrj. apply Hall; [by right|]. by apply (ss_roots _ _ Hs).
  - exists (Throw IncorrectCCException), (set_kruskal v d'). split; [done|]. split; [done|]. split; [by right|].
    split; [done|]. intros Hall. exfalso. assert (false = true) as Hf; [|done]. apply Hb, Hall; [by left|done].
Qed.

Lemma verify_components_ok E v :
  verifier_ok n E v →
  ∃ res v', verify_connected_components cc v = (res, v') ∧ verifier_ok n E v' ∧ adj_matrix v' = adj_matrix v ∧
    (res = Ok tt ∨ res = Throw IncorrectCCException) ∧
    (res = Ok tt ↔ ∀ x y, x < n → y < n → dsu_rel d x y ↔ conn n E x y).
Proof.
  intros Hok. destruct (kruskal_ok n n_ok E v Hok) as (v1 & Hk & Hok1 & [Hkwf Hkn Hrel Hcnt] & Hadj & _). cbn [fst snd] in *.
  unfold verify_connected_components. rewrite Hk, (vo_n _ _ _ Hok1).
  assert (num_cc cc = num_roots n d) as Hnum by apply (co_count _ _ _ Hcc).
  destruct (decide (kruskal_ccs v1 = num_cc cc)) as [Heq|Hneq].
  - destruct (verify_nodes_ok (seq 0 n) v1 Hkwf Hkn) as (res & v' & -> & Hs & Hres & Hiff); [apply Forall_seq; lia|].
    exists res, v'. split; [done|]. split; [by eapply verifier_ok_same|]. split; [by rewrite (ss_adj _ _ Hs)|]. split; [done|].
    rewrite Hiff. split.
    + intros Hall x y Hx Hy. rewrite <- Hrel by done.
      assert (∀ x y, x < n → y < n → dsu_rel (kruskal_dsu v1) x y → dsu_rel d x y) as Hsub.
      { intros a b Ha Hb (r & Hra & Hrb). etrans; [symmetry|]; apply Hall; (done || (apply elem_of_seq; lia)). }
      split; [|by apply Hsub]. apply (coarser_same_count n (kruskal_dsu v1) d Hkwf Hkn Hwf Hdn x y Hsub); [congruence|done|done].
    + intros Hall i r Hi Hr. apply elem_of_seq in Hi. destruct (root_of_lt _ _ _ _ _ Hkwf Hr) as [_ Hrn]. rewrite Hkn in Hrn.
      apply Hall; [done|lia|]. apply Hrel; [done|lia|]. symmetry. by apply same_set_root.
  - exists (Throw IncorrectCCException), v1. split; [done|]. split; [done|]. split; [done|]. split; [by right|]. split; [done|].
    intros Hall. destruct Hneq. rewrite Hcnt, Hnum. apply same_classes_count; [done..|].
    intros x y Hx Hy. by rewrite Hrel, Hall.
Qed.
End components.

(** ** Forests *)

(** Without one of its edges a forest does not connect its ends. *)
Lemma forest_edge_needed X u w :
  forest n X → u < n → w < n → concat_pairing_fn u w ∈ X → u ≠ w → ¬ conn n (X ∖ {[concat_pairing_fn u w]}) u w.
Proof.
  intros HX Hu Hw. induction HX as [|F a b HF IH Ha Hb Hab Hnc]; intros He Hne; [set_solver|].
  assert (concat_pairing_fn a b ∉ F) as HnF by (intros Hin; apply Hnc, rtc_once; by split_and!).
  destruct (decide (concat_pairing_fn u w = concat_pairing_fn a b)) as [Heq|Hdiff].
  - rewrite Heq. replace (({[concat_pairing_fn a b]} ∪ F) ∖ {[concat_pairing_fn a b]}) with F by set_solver.
    apply concat_pairing_fn_inj in Heq as [[-> ->]|[-> ->]]; [done| |by apply (node_ok_lt n n_ok)..].
    intros Hc. apply Hnc. by apply conn_sym.
  - assert (concat_pairing_fn u w ∈ F) as HeF by set_solver.
    replace (({[concat_pairing_fn a b]} ∪ F) ∖ {[concat_pairing_fn u w]}) with
      ({[concat_pairing_fn a b]} ∪ F ∖ {[concat_pairing_fn u w]}) by set_solver.
    rewrite conn_insert by done. assert (conn n F u w) as Huw by (apply rtc_once; by split_and!).
    assert (∀ x y, conn n (F ∖ {[concat_pairing_fn u w]}) x y → conn n F x y) as Hmono by (intros x y; apply conn_mono; set_solver).
    intros [Hc|[[H1 H2]|[H1 H2]]]; [by apply IH| |]; apply Hnc; apply Hmono in H1, H2.
    + etrans; [apply conn_sym, H1|]. etrans; [exact Huw|]. by apply conn_sym.
    + etrans; [exact H2|]. etrans; [apply conn_sym, Huw|]. done.
Qed.

Abbreviation edge_ends e := (src e < dst e < n).
Abbreviation idx e := (concat_pairing_fn (src e) (dst e)).

(** Replaying the edges of a forest: [F] are those so far. *)
Fixpoint replay E F (es : list Edge) : Prop :=
  match es with
  | [] => True
  | e :: es => ¬ conn n F (src e) (dst e) ∧ idx e ∈ E ∧ replay (E ∖ {[idx e]}) ({[idx e]} ∪ F) es
  end.

Abbreviation indices es := ((λ e, idx e) <$> es).

Lemma replay_iff E F es :
  Forall (λ e, edge_ends e) es → forest n F → F ## E →
  replay E F es ↔ NoDup (indices es) ∧ list_to_set (indices es) ⊆ E ∧ forest n (list_to_set (indices es) ∪ F).
Proof.
  intros Hes. revert E F. induction Hes as [|e es [Hlt Hdn] _ IH]; intros E F HF Hdis.
  { cbn. rewrite (left_id_L ∅ (∪)). split; [intros _; split_and!; [constructor|set_solver|done]|done]. }
  rewrite fmap_cons. cbn [replay list_to_set]. rewrite list.NoDup_cons.
  assert (∀ X : gset N, ({[idx e]} ∪ X) ∪ F = X ∪ ({[idx e]} ∪ F)) as Hassoc by (intros; set_solver). rewrite Hassoc.
  split.
  - intros (Hnc & He & Hrest). apply IH in Hrest as (Hnd & Hsub & Hfor); [|by apply forest_add; (done || lia)|set_solver].
    split_and!; [|done|set_solver|done]. intros Hin. assert (idx e ∈ (list_to_set (indices es) : gset N)); [by apply elem_of_list_to_set|set_solver].
  - intros ([Hni Hnd] & Hsub & Hfor). assert (idx e ∈ E) as He by set_solver.
    assert (¬ conn n F (src e) (dst e)) as Hnc.
    { intros Hc. apply (forest_edge_needed _ (src e) (dst e) Hfor); [lia|lia|set_solver|lia|].
      assert (idx e ∉ F) as HnF by set_solver. apply (conn_mono n n_ok F); [|done].
      intros x Hx. assert (x ≠ idx e) by (by intros ->). set_solver. }
    split; [done|]. split; [done|]. apply IH; [by apply forest_add; (done || lia)|set_solver|].
    split; [done|]. split; [|done]. assert (idx e ∉ (list_to_set (indices es) : gset N)); [by rewrite elem_of_list_to_set|set_solver].
Qed.

Lemma replay_forest E es :
  Forall (λ e, edge_ends e) es →
  replay E ∅ es ↔ NoDup (indices es) ∧ list_to_set (indices es) ⊆ E ∧ forest n (list_to_set (indices es)).
Proof. intros Hes. rewrite (replay_iff E ∅ es Hes) by (constructor || set_solver). by rewrite (right_id_L ∅ (∪)). Qed.

(** A union-find of the components of [F]. *)
Record dsu_of F (d : DSU) : Prop := {
  do_wf : dsu_wf d;
  do_n : dsu_n d = n;
  do_rel : ∀ a b, a < n → b < n → dsu_rel d a b ↔ conn n F a b;
}.

Lemma dsu_of_merge F d e :
  dsu_of F d → edge_ends e →
  ∃ m d', DisjointSetUnion.merge d (src e) (dst e) = Ok (m, d') ∧ (merged m = true ↔ ¬ conn n F (src e) (dst e)) ∧
    dsu_of ({[idx e]} ∪ F) d'.
Proof.
  intros [Hwf Hn Hrel] [Hlt Hdn].
  destruct (DisjointSetUnion_merge_ok d (src e) (dst e) Hwf) as (m & d' & -> & Hwf' & Hn' & _ & Hm & _ & Hrel'); [lia|lia|].
  exists m, d'. split; [done|]. split; [by rewrite Hm, Hrel by lia|]. constructor; [done|congruence|].
  intros a b Ha Hb. rewrite Hrel', conn_insert by (done || lia). unfold join_rel. by rewrite !Hrel by lia.
Qed.

Section forests.
Context (backup : list (list bool)).

Definition refused {A} (res : outcome A) v : Prop :=
  (res = Throw BadEdgeException ∨ res = Throw IncorrectForestException) ∧ adj_matrix v = backup.

Lemma verify_forest_edges_ok es E F d v :
  Forall (λ e, edge_ends e) es → verifier_ok n E v → dsu_of F d →
  ∃ res v', verify_forest_edges backup es d v = (res, v') ∧ kruskal_dsu v' = kruskal_dsu v ∧ gv_num_vertices v' = n ∧
    ((∃ d', res = Ok d' ∧ dsu_of (list_to_set (indices es) ∪ F) d' ∧ replay E F es ∧
        verifier_ok n (E ∖ list_to_set (indices es)) v') ∨
     (refused res v' ∧ ¬ replay E F es)).
Proof.
  intros Hes. revert E F d v. induction Hes as [|e es He _ IH]; intros E F d v Hok Hd; cbn [verify_forest_edges replay].
  { exists (Ok d), v. split; [done|]. split; [done|]. split; [apply Hok|]. left. exists d. cbn.
    rewrite (left_id_L ∅ (∪)), difference_empty_L. done. }
  destruct (dsu_of_merge F d e Hd He) as (m & d1 & -> & Hm & Hd1). destruct (merged m).
  2: { eexists _, _. split; [done|]. split; [done|]. split; [apply Hok|]. right.
       split; [split; [by right|done]|]. intros [Hnc _]. assert (false = true) as Hf by (by apply Hm). done. }
  assert (¬ conn n F (src e) (dst e)) as Hnc by (by apply Hm). destruct He as [Hlt Hdn].
  rewrite (verify_edge_ok n n_ok E v e Hok Hlt Hdn). destruct (decide (idx e ∈ E)) as [HeE|HeE].
  2: { eexists _, _. split; [done|]. split; [done|]. split; [apply Hok|]. right. split; [split; [by left|done]|]. tauto. }
  destruct (edge_update_ok n n_ok E v e Hok) as (v1 & -> & Hok1 & Hk1); [lia..|].
  replace (toggle (idx e) E) with (E ∖ {[idx e]}) in Hok1 by (apply set_eq; intros y; rewrite elem_of_toggle; set_solver).
  destruct (IH _ _ d1 v1 Hok1 Hd1) as (res & v' & -> & Hk & Hn' & Hcase). exists res, v'. split; [done|]. split; [by rewrite Hk|].
  split; [done|]. rewrite fmap_cons. cbn [list_to_set]. rewrite <- difference_difference_l_L.
  destruct Hcase as [(d' & -> & Hd' & Hrep & Hok')|[Hno Hrep]]; [left|right; tauto].
  exists d'. split_and!; [done| |done..]. by replace ({[idx e]} ∪ list_to_set (indices es) ∪ F)
    with (list_to_set (indices es) ∪ ({[idx e]} ∪ F)) by set_solver.
Qed.

(** The map holds the root in the forest of every root met so far. *)
Record map_ok (K G : DSU) (pl : list nat) (M : gmap nat nat) : Prop := {
  mp_some : ∀ k r, M !! k = Some r → ∃ i, i ∈ pl ∧ root_of (parent K) i k ∧ root_of (parent G) i r;
  mp_none : ∀ i k, i ∈ pl → root_of (parent K) i k → is_Some (M !! k);
}.

(** The classes of [K] met are classes of [G]. *)
Definition refines_on (l : list nat) (K G : DSU) : Prop := ∀ i j, i ∈ l → j ∈ l → dsu_rel K i j → dsu_rel G i j.

Lemma map_ok_add K G pl M i k r :
  map_ok K G pl M → root_of (parent K) i k → root_of (parent G) i r → M !! k = None → map_ok K G (pl ++ [i]) (<[k := r]> M).
Proof.
  intros [Hs Hn] Hk Hr Hno. constructor.
  - intros k' r'. destruct (decide (k' = k)) as [->|Hne].
    + rewrite lookup_insert_eq. intros [= <-]. exists i. set_solver.
    + rewrite lookup_insert_ne by done. intros (j & Hj & ?)%Hs. exists j. set_solver.
  - intros j k' Hj Hk'. destruct (decide (k' = k)) as [->|Hne]; [by rewrite lookup_insert_eq|].
    rewrite lookup_insert_ne by done. apply elem_of_app in Hj as [Hj| ->%list_elem_of_singleton]; [by eapply Hn|].
    destruct Hne. by apply (root_of_det (parent K) i).
Qed.

Lemma map_ok_keep K G pl M i k r :
  map_ok K G pl M → root_of (parent K) i k → M !! k = Some r → map_ok K G (pl ++ [i]) M.
Proof.
  intros [Hs Hn] Hk Hr. constructor; [intros k' r' (j & Hj & ?)%Hs; exists j; set_solver|].
  intros j k' Hj Hk'. apply elem_of_app in Hj as [Hj| ->%list_elem_of_singleton]; [by eapply Hn|].
  by rewrite (root_of_det _ _ _ _ Hk' Hk).
Qed.

Lemma refines_on_add K G pl M i k r :
  map_ok K G pl M → refines_on pl K G → root_of (parent K) i k → root_of (parent G) i r →
  (∀ r', M !! k = Some r' → r' = r) → refines_on (pl ++ [i]) K G.
Proof.
  intros [Hs Hn] Hsub Hk Hr Hsame.
  assert (∀ j, j ∈ pl → dsu_rel K i j → dsu_rel G i j) as Hone.
  { intros j Hj (k' & Hik & Hjk). rewrite <- (root_of_det _ _ _ _ Hk Hik) in Hjk.
    destruct (Hn j k Hj Hjk) as [r' Hr']. destruct (Hs _ _ Hr') as (j' & Hj' & Hjk' & Hjr').
    rewrite (Hsame _ Hr') in Hjr'. destruct (Hsub j j' Hj Hj') as (w & Hw & Hw'); [by exists k|].
    exists r. split; [done|]. by rewrite (root_of_det _ _ _ _ Hjr' Hw'). }
  intros a b Ha Hb Hab. apply elem_of_app in Ha as [Ha| ->%list_elem_of_singleton], Hb as [Hb| ->%list_elem_of_singleton].
  - by apply Hsub.
  - symmetry. apply Hone; [done|by symmetry].
  - by apply Hone.
  - by exists r.
Qed.

(** [K] and [G] are the two union-finds before the loop. *)
Lemma verify_roots_ok (K G : DSU) l pl M d v :
  same_state v v → dsu_n (kruskal_dsu v) = n → (∀ x r, root_of (parent K) x r ↔ root_of (parent (kruskal_dsu v)) x r) →
  dsu_wf d → dsu_n d = n → (∀ x r, root_of (parent G) x r ↔ root_of (parent d) x r) →
  Forall (λ i, i < n) l → map_ok K G pl M → refines_on pl K G →
  ∃ res v', verify_roots backup l M d v = (res, v') ∧
    ((res = Ok tt ∧ same_state v v' ∧ refines_on (pl ++ l) K G) ∨ (refused res v' ∧ ¬ refines_on (pl ++ l) K G)).
Proof.
  intros Hv Hkn HK Hwf Hdn HG Hl. revert pl M d v Hv Hkn HK Hwf Hdn HG.
  induction Hl as [|i l Hi _ IH]; intros pl M d v Hv Hkn HK Hwf Hdn HG HM Hsub; cbn [verify_roots].
  { exists (Ok tt), v. split; [done|]. left. by rewrite app_nil_r. }
  destruct (same_state_step v i) as (k & dk & -> & Hk & Hs); [apply Hv|done|done|].
  destruct (find_root_spec d i Hwf) as (r & d1 & -> & Hr & Hwf1 & Hn1 & _ & HG1); [lia|].
  assert (root_of (parent K) i k) as HKi by (by apply HK). assert (root_of (parent G) i r) as HGi by (by apply HG).
  assert (∀ x r, root_of (parent K) x r ↔ root_of (parent dk) x r) as HK1 by (intros x y; rewrite HK; apply (ss_roots _ _ Hs)).
  assert (∀ x r, root_of (parent G) x r ↔ root_of (parent d1) x r) as HG2 by (intros x y; by rewrite HG).
  assert (same_state (set_kruskal v dk) (set_kruskal v dk)) as Hv1 by (apply same_state_refl, Hs).
  assert (dsu_n dk = n) as Hkn1 by (rewrite <- Hkn; apply (ss_dsu _ _ Hs)).
  assert (∀ M', map_ok K G (pl ++ [i]) M' → refines_on (pl ++ [i]) K G →
    ∃ res v', verify_roots backup l M' d1 (set_kruskal v dk) = (res, v') ∧
      ((res = Ok tt ∧ same_state v v' ∧ refines_on (pl ++ i :: l) K G) ∨ (refused res v' ∧ ¬ refines_on (pl ++ i :: l) K G))) as Hgo.
  { intros M' HM' Hsub'. destruct (IH (pl ++ [i]) M' d1 (set_kruskal v dk)) as (res & v' & Hrun & Hcase); [done..|congruence|done|done|done|].
    exists res, v'. split; [done|]. rewrite <- app_assoc in Hcase. destruct Hcase as [(? & Hs' & ?)|?]; [left|by right].
    split_and!; [done|by eapply same_state_trans|done]. }
  case_eq (M !! k); [intros r' Hmk|intros Hmk].
  - case_decide as Hr'.
    + apply Hgo; [by eapply map_ok_keep|]. apply (refines_on_add K G pl M i k r); [done..|]. intros r2 Hr2. congruence.
    + eexists _, _. split; [done|]. right. split; [split; [by right|done]|]. intros Hall.
      destruct (mp_some _ _ _ _ HM _ _ Hmk) as (j & Hj & HKj & HGj).
      destruct (Hall i j) as (w & Hw & Hw'); [set_solver|set_solver|by exists k|].
      destruct Hr'. by rewrite (root_of_det _ _ _ _ HGj Hw'), (root_of_det _ _ _ _ HGi Hw).
  - apply Hgo; [by apply map_ok_add|]. apply (refines_on_add K G pl M i k r); [done..|]. by rewrite Hmk.
Qed.

Definition sf_ends (sf : SpanningForest) : Prop := Forall (λ e, edge_ends e) (edges sf).

Lemma conn_same_classes E F :
  (∀ x y, x < n → y < n → conn n E x y → conn n F x y) → F ⊆ E → ∀ x y, conn n F x y ↔ conn n E x y.
Proof.
  intros Hsub HFE x y. split; [by apply (conn_mono n n_ok)|].
  intros Hc. destruct (conn_lt n n_ok E x y Hc) as [->|[Hx Hy]]; [apply conn_refl|by apply Hsub].
Qed.

(** What the two loops over one forest check together. *)
Lemma spanning_forest_checked E (sf : SpanningForest) (K G : DSU) :
  sf_ends sf → dsu_of E K → dsu_of (list_to_set (sf_indices sf)) G →
  spanning_forest_of n E sf ↔ replay E ∅ (edges sf) ∧ refines_on (seq 0 n) K G.
Proof.
  intros Hends [_ _ HK] [_ _ HG]. rewrite replay_forest by done.
  assert (refines_on (seq 0 n) K G ↔ ∀ x y, x < n → y < n → conn n E x y → conn n (list_to_set (sf_indices sf)) x y) as ->.
  { split.
    - intros Hr x y Hx Hy Hxy. apply HG; [done..|]. apply Hr; [apply elem_of_seq; lia..|]. by apply HK.
    - intros Hc x y Hx%elem_of_seq Hy%elem_of_seq Hxy. apply HG; [lia..|]. apply Hc; [lia..|]. by apply HK; [lia..|]. }
  split.
  - intros [Hnd Hsub Hfor Hspan _]. split; [done|]. intros x y _ _. apply Hspan.
  - intros [(Hnd & Hsub & Hfor) Hr]. constructor; [done..| |by apply list.Forall_forall]. by apply conn_same_classes.
Qed.

Lemma verify_forests_ok prios SFs E v :
  (∀ k, length (prios k) = n) → verifier_ok n E v → Forall sf_ends SFs →
  ∃ res v', verify_forests backup SFs prios v = (res, v') ∧ adj_matrix v' = backup ∧
    ((res = Ok tt ∧ disjoint_forests n E SFs) ∨
     ((res = Throw BadEdgeException ∨ res = Throw IncorrectForestException) ∧ ¬ disjoint_forests n E SFs)).
Proof.
  intros Hprios Hok Hends. revert E v Hok. induction Hends as [|sf SFs Hsf _ IH]; intros E v Hok; cbn [verify_forests disjoint_forests].
  { eexists _, _. split; [done|]. split; [done|]. by left. }
  destruct (kruskal_ok n n_ok E v Hok) as (v1 & -> & Hok1 & [Hkwf Hkn Hrel _] & _ & _). cbn [fst] in *.
  assert (dsu_of E (kruskal_dsu v1)) as HK by by constructor.
  rewrite (vo_n _ _ _ Hok1).
  destruct (verify_forest_edges_ok (edges sf) E ∅ (new_dsu n (prios (length SFs))) v1) as (res & v2 & -> & Hk2 & Hn2 & Hcase); [done|done| |].
  { constructor; [by apply new_dsu_wf|done|]. intros a b Ha Hb.
    rewrite (reset_rel (new_dsu n (prios (length SFs)))). split; [intros [-> _]; apply conn_refl|].
    intros Hab. split; [|done]. unfold conn in Hab. destruct Hab as [|a c b (_ & _ & _ & Hc) _]; [done|set_solver]. }
  destruct Hcase as [(d' & -> & Hd & Hrep & Hok2)|[[Hres Hadj] Hrep]].
  2: { destruct Hres as [-> | ->]; (eexists _, _; split; [done|]; split; [done|]; right; split; [by auto|]);
       intros [Hsp _]; apply Hrep; destruct Hsp; by apply replay_forest. }
  rewrite (right_id_L ∅ (∪)) in Hd.
  destruct (verify_roots_ok (kruskal_dsu v1) d' (seq 0 n) [] ∅ d' v2) as (res & v3 & -> & Hcase);
    [apply same_state_refl, Hok2|apply Hok2|by rewrite Hk2|apply Hd|apply Hd|done|apply Forall_seq; lia| |intros i j Hi; by apply elem_of_nil in Hi|].
  { constructor; [by intros k r|intros i k Hi; by apply elem_of_nil in Hi]. }
  cbn [app] in Hcase. pose proof (spanning_forest_checked E sf _ _ Hsf HK Hd) as Hiff.
  destruct Hcase as [(-> & Hs & Href)|[[Hres Hadj] Href]].
  2: { destruct Hres as [-> | ->]; (eexists _, _; split; [done|]; split; [done|]; right; split; [by auto|]); tauto. }
  destruct (IH (E ∖ list_to_set (sf_indices sf)) v3) as (res & v' & Hrun & Hadj & Hcase); [by eapply verifier_ok_same|].
  exists res, v'. split; [done|]. split; [done|]. destruct Hcase as [[-> HSFs]|[Hres HSFs]]; [left|right; tauto].
  split; [done|]. tauto.
Qed.
End forests.
End checks.

(** ** Properties *)

Section theorems.
Context `{BuildConfig, Libm, Hashing}.

(** C24. The verifier of a graph accepts exactly the right answers, and refuses the
    others with its own exceptions. Components pass when they are the connected
    components of the graph; forests pass when each is a spanning forest of what the
    earlier ones left of it, and the graph is afterwards as it was. *)
Theorem verifier_accepts_right_answers n E v :
  (N.of_nat n ≤ 2 ^ 32)%N → verifier_ok n E v →
  (∀ d cc, dsu_wf d → dsu_n d = n → components_of n d cc →
    ∃ res v', verify_connected_components cc v = (res, v') ∧ verifier_ok n E v' ∧
      (res = Ok tt ∨ res = Throw IncorrectCCException) ∧
      (res = Ok tt ↔ ∀ x y, x < n → y < n → dsu_rel d x y ↔ conn n E x y)) ∧
  (∀ SFs prios, (∀ k, length (prios k) = n) → Forall (sf_ends n) SFs →
    ∃ res v', verify_spanning_forests SFs prios v = (res, v') ∧ adj_matrix v' = adj_matrix v ∧
      (res = Ok tt ∨ res = Throw BadEdgeException ∨ res = Throw IncorrectForestException) ∧
      (res = Ok tt ↔ disjoint_forests n E SFs)).
Proof.
  intros Hn Hok. split.
  - intros d cc Hwf Hdn Hcc. destruct (verify_components_ok n Hn d cc Hwf Hdn Hcc E v Hok) as (res & v' & Hrun & Hok' & _ & Hres).
    by exists res, v'.
  - intros SFs prios Hp Hends. destruct (verify_forests_ok n Hn (adj_matrix v) prios SFs E v Hp Hok Hends) as (res & v' & Hrun & Hadj & Hcase).
    exists res, v'. split; [done|]. split; [done|].
    destruct Hcase as [[-> HSF]|[[-> | ->] HSF]]; (split; [by auto|done]).
Qed.

End theorems.

(** ** Witnesses *)

Section witnesses.
#[local] Existing Instances default_build integral_libm xxh3_hashing.

Definition example_prios (_ : nat) : list N := [3; 1; 4; 1]%N.

Lemma verifier_accepts_right_answers_witness :
  ∃ v, outcome_fold (λ v e, edge_update e v) (new_GraphVerifier 4 [2; 7; 1; 8]%N 9) (edge <$> example_updates) = Ok v ∧
    ∀ SFs, Forall (sf_ends 4) SFs → ∃ res v', verify_spanning_forests SFs example_prios v = (res, v') ∧
      (res = Ok tt ↔ disjoint_forests 4 example_graph SFs).
Proof.
  destruct (edge_updates_ok 4 example_n_le ∅ _ example_updates (new_verifier_ok 4 example_n_le [2; 7; 1; 8]%N 9 eq_refl) example_updates_ok)
    as (v & Hv & Hok & _). exists v. split; [exact Hv|]. intros SFs HSF.
  destruct (verifier_accepts_right_answers 4 _ v example_n_le Hok) as [_ Hforests].
  destruct (Hforests SFs example_prios (λ _, eq_refl) HSF) as (res & v' & H1 & _ & _ & H2). exists res, v'. exact (conj H1 H2).
Defined.

End witnesses.

(** ** A verifier that has checked forests *)

Definition stale_verifier : outcome GraphVerifier := edge_update (mkEdge 0 1) (new_GraphVerifier 2 [3; 5]%N 0).
Definition stale_forests : list SpanningForest := [mkForest 2 [mkEdge 0 1] [] false; mkForest 2 [] [] false].
Definition stale_components : ConnectedComponents := mkComponents [0; 0] 2 1.

(** Peeling off the first forest leaves an empty graph. Checking the second computes its
    components, and these stay for a later check of components, of the whole graph. *)
Example forests_leave_stale_components :
  match stale_verifier with
  | Ok v =>
      let '(res, v') := verify_spanning_forests stale_forests (λ _, [1; 2]%N) v in
      (verify_connected_components stale_components v).1 = Ok tt ∧ res = Ok tt ∧ adj_matrix v' = adj_matrix v ∧
      (verify_connected_components stale_components v').1 = Throw IncorrectCCException
  | Throw _ => False
  end.
Proof. vm_compute. by split_and!. Qed.
