(* ===== verification/DeviceHash.v ===== *)
(** * Hashes of keys of any length on the device: src/include/cuda_xxhash64.cuh

    The whole of the program's copy of XXH3: a key in memory and its length give the
    hash. Every read is checked against the memory it reads from, every assertion is
    an outcome. [XXHash] has the parts that keys of 8 bytes use. *)

From Stdlib Require Import NArith Lia.
From stdpp Require Import base list numbers.
From S2P Require Import Prelude Bucket XXHash.

#[local] Open Scope N_scope.

(** ** Memory *)

Definition CUDA_XXH_ASSERT (c : bool) : outcome unit := if c then Ok tt else Throw AssertionFailed.

(** [n] bytes at [p + o]. *)
Definition read (n : nat) (p : list N) (o : nat) : outcome N :=
  if decide (o + n ≤ length p)%nat then Ok (readLE n (drop o p)) else Throw OutOfBounds.

Abbreviation read32 := (read 4).
Abbreviation read64 := (read 8).

Definition CUDA_XXH_writeLE64 (dst : list N) (o : nat) (v64 : N) : outcome (list N) :=
  if decide (o + 8 ≤ length dst)%nat then Ok (take o dst ++ to_bytes 8 v64 ++ drop (o + 8) dst)
  else Throw OutOfBounds.

Definition CUDA_XXH_swap64 (x : N) : N :=
  N.lor (N.lor (N.lor (N.lor (N.lor (N.lor (N.lor
    (N.land (u64 (N.shiftl x 56)) 0xff00000000000000)
    (N.land (u64 (N.shiftl x 40)) 0x00ff000000000000))
    (N.land (u64 (N.shiftl x 24)) 0x0000ff0000000000))
    (N.land (u64 (N.shiftl x 8)) 0x000000ff00000000))
    (N.land (N.shiftr x 8) 0x00000000ff000000))
    (N.land (N.shiftr x 24) 0x0000000000ff0000))
    (N.land (N.shiftr x 40) 0x000000000000ff00))
    (N.land (N.shiftr x 56) 0x00000000000000ff).

(** ** Constants *)

Definition CUDA_XXH_SECRET_DEFAULT_SIZE : nat := 192.
Definition CUDA_XXH3_SECRET_SIZE_MIN : nat := 136.
Definition CUDA_XXH_STRIPE_LEN : nat := 64.
Definition CUDA_XXH_SECRET_CONSUME_RATE : nat := 8.
Definition CUDA_XXH_ACC_NB : nat := 8.
Definition CUDA_XXH3_MIDSIZE_MAX : nat := 240.
Definition CUDA_XXH3_MIDSIZE_STARTOFFSET : nat := 3.
Definition CUDA_XXH3_MIDSIZE_LASTOFFSET : nat := 17.
Definition CUDA_XXH_SECRET_LASTACC_START : nat := 7.
Definition CUDA_XXH_SECRET_MERGEACCS_START : nat := 11.

Definition CUDA_XXH_PRIME32_1 : N := 0x9E3779B1.
Definition CUDA_XXH_PRIME32_2 : N := 0x85EBCA77.
Definition CUDA_XXH_PRIME32_3 : N := 0xC2B2AE3D.
Definition CUDA_XXH_PRIME64_1 : N := 0x9E3779B185EBCA87.
Definition CUDA_XXH_PRIME64_2 : N := 0xC2B2AE3D27D4EB4F.
Definition CUDA_XXH_PRIME64_3 : N := 0x165667B19E3779F9.
Definition CUDA_XXH_PRIME64_4 : N := 0x85EBCA77C2B2AE63.
Definition CUDA_XXH_PRIME64_5 : N := 0x27D4EB2F165667C5.

Definition CUDA_XXH3_INIT_ACC : list N :=
  [CUDA_XXH_PRIME32_3; CUDA_XXH_PRIME64_1; CUDA_XXH_PRIME64_2; CUDA_XXH_PRIME64_3;
   CUDA_XXH_PRIME64_4; CUDA_XXH_PRIME32_2; CUDA_XXH_PRIME64_5; CUDA_XXH_PRIME32_1].

(** ** Multiplication and mixing *)

Record XXH128_hash := mkHash128 { low64 : N; high64 : N }.

Definition CUDA_XXH_mult32to64 (x y : N) : N := u64 (u32 x * u32 y).

Definition CUDA_XXH_mult64to128 (lhs rhs : N) : XXH128_hash :=
  let lo_lo := CUDA_XXH_mult32to64 (N.land lhs 0xFFFFFFFF) (N.land rhs 0xFFFFFFFF) in
  let hi_lo := CUDA_XXH_mult32to64 (N.shiftr lhs 32) (N.land rhs 0xFFFFFFFF) in
  let lo_hi := CUDA_XXH_mult32to64 (N.land lhs 0xFFFFFFFF) (N.shiftr rhs 32) in
  let hi_hi := CUDA_XXH_mult32to64 (N.shiftr lhs 32) (N.shiftr rhs 32) in
  let cross := u64 (u64 (N.shiftr lo_lo 32 + N.land hi_lo 0xFFFFFFFF) + lo_hi) in
  let upper := u64 (u64 (N.shiftr hi_lo 32 + N.shiftr cross 32) + hi_hi) in
  let lower := N.lor (u64 (N.shiftl cross 32)) (N.land lo_lo 0xFFFFFFFF) in
  mkHash128 lower upper.

Definition CUDA_XXH3_mul128_fold64 (lhs rhs : N) : N :=
  let product := CUDA_XXH_mult64to128 lhs rhs in N.lxor (low64 product) (high64 product).

Definition CUDA_XXH3_avalanche (h64 : N) : N :=
  let h64 := CUDA_XXH_xorshift64 h64 37 in
  let h64 := u64 (h64 * 0x165667919E3779F9) in
  CUDA_XXH_xorshift64 h64 32.

Definition CUDA_XXH64_avalanche (h64 : N) : N :=
  let h64 := N.lxor h64 (N.shiftr h64 33) in
  let h64 := u64 (h64 * CUDA_XXH_PRIME64_2) in
  let h64 := N.lxor h64 (N.shiftr h64 29) in
  let h64 := u64 (h64 * CUDA_XXH_PRIME64_3) in
  N.lxor h64 (N.shiftr h64 32).

(** ** Keys of more than 240 bytes *)

Definition CUDA_XXH3_mix2Accs (acc : list N) (a : nat) (secret : list N) (o : nat) : outcome N :=
  a0 ← arr_get acc a; k0 ← read64 secret o;
  a1 ← arr_get acc (a + 1)%nat; k1 ← read64 secret (o + 8)%nat;
  Ok (CUDA_XXH3_mul128_fold64 (N.lxor a0 k0) (N.lxor a1 k1)).

Definition CUDA_XXH3_mergeAccs (acc secret : list N) (o : nat) (start : N) : outcome N :=
  result64 ← outcome_fold (λ r i,
    x ← CUDA_XXH3_mix2Accs acc (2 * i)%nat secret (o + 16 * i)%nat; Ok (u64 (r + x))) start (seq 0 4);
  Ok (CUDA_XXH3_avalanche result64).

(** An update in place of one accumulator. *)
Definition acc_update (i : nat) (f : N → N) (acc : list N) : outcome (list N) :=
  x ← arr_get acc i; Ok (<[i := f x]> acc).

(** Adjacent lanes are swapped for the input. *)
Definition accumulate_512_lane (input : list N) (o : nat) (secret : list N) (k : nat) (acc : list N) (i : nat)
    : outcome (list N) :=
  data_val ← read64 input (o + 8 * i)%nat;
  key ← read64 secret (k + i * 8)%nat;
  let data_key := N.lxor data_val key in
  acc ← acc_update (Nat.lxor i 1) (λ x, u64 (x + data_val)) acc;
  acc_update i (λ x, u64 (x + CUDA_XXH_mult32to64 (N.land data_key 0xFFFFFFFF) (N.shiftr data_key 32))) acc.

Definition CUDA_XXH3_accumulate_512_scalar (acc input : list N) (o : nat) (secret : list N) (k : nat) : outcome (list N) :=
  outcome_fold (accumulate_512_lane input o secret k) acc (seq 0 CUDA_XXH_ACC_NB).

Definition scramble_lane (secret : list N) (k : nat) (acc : list N) (i : nat) : outcome (list N) :=
  key64 ← read64 secret (k + 8 * i)%nat;
  acc_update i (λ x, u64 (N.lxor (CUDA_XXH_xorshift64 x 47) key64 * CUDA_XXH_PRIME32_1)) acc.

Definition CUDA_XXH3_scrambleAcc_scalar (acc secret : list N) (k : nat) : outcome (list N) :=
  outcome_fold (scramble_lane secret k) acc (seq 0 CUDA_XXH_ACC_NB).

Definition custom_secret_round (seed64 : N) (customSecret : list N) (i : nat) : outcome (list N) :=
  r0 ← read64 CUDA_XXH3_kSecret (16 * i)%nat;
  r1 ← read64 CUDA_XXH3_kSecret (16 * i + 8)%nat;
  customSecret ← CUDA_XXH_writeLE64 customSecret (16 * i)%nat (u64 (r0 + seed64));
  CUDA_XXH_writeLE64 customSecret (16 * i + 8)%nat (wsub 64 r1 seed64).

Definition CUDA_XXH3_initCustomSecret_scalar (customSecret : list N) (seed64 : N) : outcome (list N) :=
  outcome_fold (custom_secret_round seed64) customSecret (seq 0 (CUDA_XXH_SECRET_DEFAULT_SIZE / 16)%nat).

Section long.
Context (f_acc512 : list N → list N → nat → list N → nat → outcome (list N)).
Context (f_scramble : list N → list N → nat → outcome (list N)).

Definition CUDA_XXH3_accumulate (acc input : list N) (o : nat) (secret : list N) (nbStripes : nat) : outcome (list N) :=
  outcome_fold (λ acc n,
    f_acc512 acc input (o + n * CUDA_XXH_STRIPE_LEN)%nat secret (n * CUDA_XXH_SECRET_CONSUME_RATE)%nat) acc (seq 0 nbStripes).

Definition CUDA_XXH3_hashLong_internal_loop (acc input : list N) (len : nat) (secret : list N) (secretSize : nat)
    : outcome (list N) :=
  let nbStripesPerBlock := ((secretSize - CUDA_XXH_STRIPE_LEN) / CUDA_XXH_SECRET_CONSUME_RATE)%nat in
  let block_len := (CUDA_XXH_STRIPE_LEN * nbStripesPerBlock)%nat in
  let nb_blocks := ((len - 1) / block_len)%nat in
  CUDA_XXH_ASSERT (bool_decide (CUDA_XXH3_SECRET_SIZE_MIN ≤ secretSize)%nat);;
  acc ← outcome_fold (λ acc n,
    acc ← CUDA_XXH3_accumulate acc input (n * block_len)%nat secret nbStripesPerBlock;
    f_scramble acc secret (secretSize - CUDA_XXH_STRIPE_LEN)%nat) acc (seq 0 nb_blocks);
  CUDA_XXH_ASSERT (bool_decide (CUDA_XXH_STRIPE_LEN < len)%nat);;
  let nbStripes := (((len - 1) - block_len * nb_blocks) / CUDA_XXH_STRIPE_LEN)%nat in
  CUDA_XXH_ASSERT (bool_decide (nbStripes ≤ secretSize / CUDA_XXH_SECRET_CONSUME_RATE)%nat);;
  acc ← CUDA_XXH3_accumulate acc input (nb_blocks * block_len)%nat secret nbStripes;
  f_acc512 acc input (len - CUDA_XXH_STRIPE_LEN)%nat secret
    (secretSize - CUDA_XXH_STRIPE_LEN - CUDA_XXH_SECRET_LASTACC_START)%nat.

Definition CUDA_XXH3_hashLong_64b_internal (input : list N) (len : nat) (secret : list N) (secretSize : nat) : outcome N :=
  acc ← CUDA_XXH3_hashLong_internal_loop CUDA_XXH3_INIT_ACC input len secret secretSize;
  CUDA_XXH_ASSERT (bool_decide (CUDA_XXH_ACC_NB * 8 + CUDA_XXH_SECRET_MERGEACCS_START ≤ secretSize)%nat);;
  CUDA_XXH3_mergeAccs acc secret CUDA_XXH_SECRET_MERGEACCS_START (u64 (N.of_nat len * CUDA_XXH_PRIME64_1)).

(** [mem] is what the array of the custom secret holds before it is written. *)
Definition CUDA_XXH3_hashLong_64b_withSeed_internal (f_initSec : list N → N → outcome (list N)) (mem : list N)
    (input : list N) (len : nat) (seed : N) : outcome N :=
  if decide (seed = 0) then CUDA_XXH3_hashLong_64b_internal input len CUDA_XXH3_kSecret CUDA_XXH_SECRET_DEFAULT_SIZE
  else
    secret ← f_initSec mem seed;
    CUDA_XXH3_hashLong_64b_internal input len secret CUDA_XXH_SECRET_DEFAULT_SIZE.
End long.

Definition CUDA_XXH3_hashLong_64b_withSeed (mem input : list N) (len : nat) (seed : N) : outcome N :=
  CUDA_XXH3_hashLong_64b_withSeed_internal CUDA_XXH3_accumulate_512_scalar CUDA_XXH3_scrambleAcc_scalar
    CUDA_XXH3_initCustomSecret_scalar mem input len seed.

(** ** Keys of at most 16 bytes *)

Definition CUDA_XXH3_len_1to3_64b (input : list N) (len : nat) (secret : list N) (seed : N) : outcome N :=
  CUDA_XXH_ASSERT (bool_decide (1 ≤ len ∧ len ≤ 3)%nat);;
  c1 ← arr_get input 0; c2 ← arr_get input (Nat.shiftr len 1); c3 ← arr_get input (len - 1)%nat;
  let combined := N.lor (N.lor (N.lor (u32 (N.shiftl c1 16)) (u32 (N.shiftl c2 24))) c3) (u32 (N.shiftl (u32 (N.of_nat len)) 8)) in
  s0 ← read32 secret 0; s1 ← read32 secret 4;
  let bitflip := u64 (N.lxor s0 s1 + seed) in
  Ok (CUDA_XXH64_avalanche (N.lxor combined bitflip)).

Definition len_4to8_64b (input : list N) (len : nat) (secret : list N) (seed : N) : outcome N :=
  CUDA_XXH_ASSERT (bool_decide (4 ≤ len ∧ len ≤ 8)%nat);;
  let seed := N.lxor seed (u64 (N.shiftl (CUDA_XXH_swap32 (u32 seed)) 32)) in
  input1 ← read32 input 0; input2 ← read32 input (len - 4)%nat;
  s0 ← read64 secret 8; s1 ← read64 secret 16;
  let bitflip := wsub 64 (N.lxor s0 s1) seed in
  let input64 := u64 (input2 + u64 (N.shiftl input1 32)) in
  Ok (CUDA_XXH3_rrmxmx (N.lxor input64 bitflip) (N.of_nat len)).

Definition CUDA_XXH3_len_9to16_64b (input : list N) (len : nat) (secret : list N) (seed : N) : outcome N :=
  CUDA_XXH_ASSERT (bool_decide (9 ≤ len ∧ len ≤ 16)%nat);;
  s0 ← read64 secret 24; s1 ← read64 secret 32;
  let bitflip1 := u64 (N.lxor s0 s1 + seed) in
  s2 ← read64 secret 40; s3 ← read64 secret 48;
  let bitflip2 := wsub 64 (N.lxor s2 s3) seed in
  lo ← read64 input 0; hi ← read64 input (len - 8)%nat;
  let input_lo := N.lxor lo bitflip1 in
  let input_hi := N.lxor hi bitflip2 in
  let acc := u64 (u64 (u64 (N.of_nat len + CUDA_XXH_swap64 input_lo) + input_hi) + CUDA_XXH3_mul128_fold64 input_lo input_hi) in
  Ok (CUDA_XXH3_avalanche acc).

Definition CUDA_XXH3_len_0to16_64b (input : list N) (len : nat) (secret : list N) (seed : N) : outcome N :=
  CUDA_XXH_ASSERT (bool_decide (len ≤ 16)%nat);;
  if decide (8 < len)%nat then CUDA_XXH3_len_9to16_64b input len secret seed
  else if decide (4 ≤ len)%nat then len_4to8_64b input len secret seed
  else if decide (len ≠ 0%nat) then CUDA_XXH3_len_1to3_64b input len secret seed
  else
    s0 ← read64 secret 56; s1 ← read64 secret 64;
    Ok (CUDA_XXH64_avalanche (N.lxor seed (N.lxor s0 s1))).

(** ** Keys of 17 to 240 bytes *)

Definition CUDA_XXH3_mix16B (input : list N) (o : nat) (secret : list N) (k : nat) (seed64 : N) : outcome N :=
  input_lo ← read64 input o; input_hi ← read64 input (o + 8)%nat;
  s0 ← read64 secret k; s1 ← read64 secret (k + 8)%nat;
  Ok (CUDA_XXH3_mul128_fold64 (N.lxor input_lo (u64 (s0 + seed64))) (N.lxor input_hi (wsub 64 s1 seed64))).

(** [acc += CUDA_XXH3_mix16B(input + o, secret + k, seed)] for each pair of offsets in turn. *)
Definition add_mix16B (input secret : list N) (seed : N) (acc : N) (ok : nat * nat) : outcome N :=
  x ← CUDA_XXH3_mix16B input ok.1 secret ok.2 seed; Ok (u64 (acc + x)).

Definition CUDA_XXH3_len_17to128_64b (input : list N) (len : nat) (secret : list N) (secretSize : nat) (seed : N) : outcome N :=
  CUDA_XXH_ASSERT (bool_decide (CUDA_XXH3_SECRET_SIZE_MIN ≤ secretSize)%nat);;
  CUDA_XXH_ASSERT (bool_decide (16 < len ∧ len ≤ 128)%nat);;
  let add := outcome_fold (add_mix16B input secret seed) in
  let acc := u64 (N.of_nat len * CUDA_XXH_PRIME64_1) in
  acc ← (if decide (32 < len)%nat then
    acc ← (if decide (64 < len)%nat then
      acc ← (if decide (96 < len)%nat then add acc [(48, 96); (len - 64, 112)]%nat else Ok acc);
      add acc [(32, 64); (len - 48, 80)]%nat
    else Ok acc);
    add acc [(16, 32); (len - 32, 48)]%nat
  else Ok acc);
  acc ← add acc [(0, 0); (len - 16, 16)]%nat;
  Ok (CUDA_XXH3_avalanche acc).

Definition CUDA_XXH3_len_129to240_64b (input : list N) (len : nat) (secret : list N) (secretSize : nat) (seed : N) : outcome N :=
  CUDA_XXH_ASSERT (bool_decide (CUDA_XXH3_SECRET_SIZE_MIN ≤ secretSize)%nat);;
  CUDA_XXH_ASSERT (bool_decide (128 < len ∧ len ≤ CUDA_XXH3_MIDSIZE_MAX)%nat);;
  let add := outcome_fold (add_mix16B input secret seed) in
  let acc := u64 (N.of_nat len * CUDA_XXH_PRIME64_1) in
  let nbRounds := (len / 16)%nat in
  acc ← add acc ((λ i, (16 * i, 16 * i)%nat) <$> seq 0 8);
  let acc := CUDA_XXH3_avalanche acc in
  CUDA_XXH_ASSERT (bool_decide (8 ≤ nbRounds)%nat);;
  acc ← add acc ((λ i, (16 * i, 16 * (i - 8) + CUDA_XXH3_MIDSIZE_STARTOFFSET)%nat) <$> seq 8 (nbRounds - 8));
  acc ← add acc [(len - 16, CUDA_XXH3_SECRET_SIZE_MIN - CUDA_XXH3_MIDSIZE_LASTOFFSET)%nat];
  Ok (CUDA_XXH3_avalanche acc).

(** ** Any key *)

Definition CUDA_XXH3_64bits_internal (f_hashLong : list N → nat → N → outcome N) (input : list N) (len : nat)
    (seed64 : N) (secret : list N) (secretLen : nat) : outcome N :=
  CUDA_XXH_ASSERT (bool_decide (CUDA_XXH3_SECRET_SIZE_MIN ≤ secretLen)%nat);;
  if decide (len ≤ 16)%nat then CUDA_XXH3_len_0to16_64b input len secret seed64
  else if decide (len ≤ 128)%nat then CUDA_XXH3_len_17to128_64b input len secret secretLen seed64
  else if decide (len ≤ CUDA_XXH3_MIDSIZE_MAX)%nat then CUDA_XXH3_len_129to240_64b input len secret secretLen seed64
  else f_hashLong input len seed64.

Definition CUDA_XXH64_of (mem input : list N) (len : nat) (seed : N) : outcome N :=
  CUDA_XXH3_64bits_internal (CUDA_XXH3_hashLong_64b_withSeed mem) input len seed CUDA_XXH3_kSecret CUDA_XXH_SECRET_DEFAULT_SIZE.
