(* ===== verification/DeviceHash32.v ===== *)
(** * The 32-bit hash on the device: src/include/cuda_xxhash32.cuh

    The last bytes of a key are processed by loops or by a switch whose cases fall
    through into each other; the switch [XXH_REROLL] of the file chooses. Reads are
    checked against the memory of the key. *)

From Stdlib Require Import NArith Lia.
From stdpp Require Import base list numbers.
From S2P Require Import Prelude Bucket XXHash DeviceHash.

#[local] Open Scope N_scope.

Inductive XXH_alignment := XXH_aligned | XXH_unaligned.

Definition XXH_PRIME32_1 : N := 0x9E3779B1.
Definition XXH_PRIME32_2 : N := 0x85EBCA77.
Definition XXH_PRIME32_3 : N := 0xC2B2AE3D.
Definition XXH_PRIME32_4 : N := 0x27D4EB2F.
Definition XXH_PRIME32_5 : N := 0x165667B1.

Definition XXH_readLE32 (p : list N) (o : nat) : outcome N := read32 p o.

Definition XXH_readLE32_align (p : list N) (o : nat) (align : XXH_alignment) : outcome N :=
  match align with
  | XXH_unaligned => XXH_readLE32 p o
  | XXH_aligned => read32 p o
  end.

Definition XXH_rotl32 (x r : N) : N := N.lor (u32 (N.shiftl x r)) (N.shiftr x (32 - r)).

Definition XXH32_round (acc input : N) : N :=
  let acc := u32 (acc + u32 (input * XXH_PRIME32_2)) in
  let acc := XXH_rotl32 acc 13 in
  u32 (acc * XXH_PRIME32_1).

Definition XXH32_avalanche (h32 : N) : N :=
  let h32 := N.lxor h32 (N.shiftr h32 15) in
  let h32 := u32 (h32 * XXH_PRIME32_2) in
  let h32 := N.lxor h32 (N.shiftr h32 13) in
  let h32 := u32 (h32 * XXH_PRIME32_3) in
  N.lxor h32 (N.shiftr h32 16).

(** ** The last bytes *)

(** The locals [h32] and [ptr], an offset. *)
Definition Tail : Type := N * nat.

Section finalize.
Context (input : list N) (align : XXH_alignment).

Definition XXH_PROCESS1 (st : Tail) : outcome Tail :=
  b ← arr_get input st.2;
  let h32 := u32 (st.1 + u32 (b * XXH_PRIME32_5)) in
  Ok (u32 (XXH_rotl32 h32 11 * XXH_PRIME32_1), S st.2).

Definition XXH_PROCESS4 (st : Tail) : outcome Tail :=
  x ← XXH_readLE32_align input st.2 align;
  let h32 := u32 (st.1 + u32 (x * XXH_PRIME32_3)) in
  Ok (u32 (XXH_rotl32 h32 17 * XXH_PRIME32_4), (st.2 + 4)%nat).

Definition finish (st : Tail) : outcome N := Ok (XXH32_avalanche st.1).

(** [while (len >= 4)]. *)
Fixpoint rerolled4 (fuel len : nat) (st : Tail) : outcome (Tail * nat) :=
  if decide (4 ≤ len)%nat then
    match fuel with
    | O => Throw OutOfFuel
    | S fuel => st ← XXH_PROCESS4 st; rerolled4 fuel (len - 4) st
    end
  else Ok (st, len).

(** [while (len > 0)]. *)
Fixpoint rerolled1 (len : nat) (st : Tail) : outcome Tail :=
  match len with
  | O => Ok st
  | S len => st ← XXH_PROCESS1 st; rerolled1 len st
  end.

Definition finalize_loops (h32 : N) (ptr len : nat) : outcome N :=
  let len := Nat.land len 15 in
  stl ← rerolled4 len len (h32, ptr);
  st ← rerolled1 stl.2 stl.1;
  finish st.

(** The cases of the switch, in the order they fall through. *)
Definition case_4 (st : Tail) : outcome N := st ← XXH_PROCESS4 st; finish st.
Definition case_8 (st : Tail) : outcome N := st ← XXH_PROCESS4 st; case_4 st.
Definition case_12 (st : Tail) : outcome N := st ← XXH_PROCESS4 st; case_8 st.

Definition case_5 (st : Tail) : outcome N := st ← XXH_PROCESS4 st; st ← XXH_PROCESS1 st; finish st.
Definition case_9 (st : Tail) : outcome N := st ← XXH_PROCESS4 st; case_5 st.
Definition case_13 (st : Tail) : outcome N := st ← XXH_PROCESS4 st; case_9 st.

Definition case_6 (st : Tail) : outcome N :=
  st ← XXH_PROCESS4 st; st ← XXH_PROCESS1 st; st ← XXH_PROCESS1 st; finish st.
Definition case_10 (st : Tail) : outcome N := st ← XXH_PROCESS4 st; case_6 st.
Definition case_14 (st : Tail) : outcome N := st ← XXH_PROCESS4 st; case_10 st.

Definition case_0 (st : Tail) : outcome N := finish st.
Definition case_1 (st : Tail) : outcome N := st ← XXH_PROCESS1 st; case_0 st.
Definition case_2 (st : Tail) : outcome N := st ← XXH_PROCESS1 st; case_1 st.
Definition case_3 (st : Tail) : outcome N := st ← XXH_PROCESS1 st; case_2 st.
Definition case_7 (st : Tail) : outcome N := st ← XXH_PROCESS4 st; case_3 st.
Definition case_11 (st : Tail) : outcome N := st ← XXH_PROCESS4 st; case_7 st.
Definition case_15 (st : Tail) : outcome N := st ← XXH_PROCESS4 st; case_11 st.

Definition finalize_switch (h32 : N) (ptr len : nat) : outcome N :=
  let st := (h32, ptr) in
  match Nat.land len 15 with
  | 12 => case_12 st | 8 => case_8 st | 4 => case_4 st
  | 13 => case_13 st | 9 => case_9 st | 5 => case_5 st
  | 14 => case_14 st | 10 => case_10 st | 6 => case_6 st
  | 15 => case_15 st | 11 => case_11 st | 7 => case_7 st
  | 3 => case_3 st | 2 => case_2 st | 1 => case_1 st | 0 => case_0 st
  | _ => Throw AssertionFailed
  end%nat.

Definition XXH32_finalize (XXH_REROLL : bool) (h32 : N) (ptr len : nat) : outcome N :=
  if XXH_REROLL then finalize_loops h32 ptr len else finalize_switch h32 ptr len.

(** ** The blocks of 16 bytes *)

Definition Lanes : Type := N * N * N * N.

Definition XXH32_block (v : Lanes) (o : nat) : outcome Lanes :=
  let '(v1, v2, v3, v4) := v in
  x1 ← XXH_readLE32_align input o align;
  x2 ← XXH_readLE32_align input (o + 4) align;
  x3 ← XXH_readLE32_align input (o + 8) align;
  x4 ← XXH_readLE32_align input (o + 12) align;
  Ok (XXH32_round v1 x1, XXH32_round v2 x2, XXH32_round v3 x3, XXH32_round v4 x4).

(** [do ... while (input < limit)]. *)
Fixpoint XXH32_blocks (fuel : nat) (limit : nat) (v : Lanes) (o : nat) : outcome (Lanes * nat) :=
  match fuel with
  | O => Throw OutOfFuel
  | S fuel =>
      v ← XXH32_block v o;
      let o := (o + 16)%nat in
      if decide (o < limit)%nat then XXH32_blocks fuel limit v o else Ok (v, o)
  end.

Definition XXH32_endian_align (XXH_REROLL : bool) (len : nat) (seed : N) : outcome N :=
  ho ← (if decide (16 ≤ len)%nat then
    let v1 := u32 (u32 (seed + XXH_PRIME32_1) + XXH_PRIME32_2) in
    let v2 := u32 (seed + XXH_PRIME32_2) in
    let v3 := u32 (seed + 0) in
    let v4 := wsub 32 seed XXH_PRIME32_1 in
    vo ← XXH32_blocks len (len - 15) (v1, v2, v3, v4) 0;
    let '(v1, v2, v3, v4) := vo.1 in
    Ok (u32 (u32 (u32 (XXH_rotl32 v1 1 + XXH_rotl32 v2 7) + XXH_rotl32 v3 12) + XXH_rotl32 v4 18), vo.2)
  else Ok (u32 (seed + XXH_PRIME32_5), 0%nat));
  let h32 := u32 (ho.1 + u32 (N.of_nat len)) in
  XXH32_finalize XXH_REROLL h32 ho.2 (Nat.land len 15).
End finalize.

Definition CUDA_XXH32 (XXH_REROLL : bool) (input : list N) (len : nat) (seed : N) : outcome N :=
  XXH32_endian_align input XXH_unaligned XXH_REROLL len seed.
