(* ===== verification/DeviceHashSpec.v ===== *)
(** * The device hash is total: src/include/cuda_xxhash64.cuh, src/include/cuda_xxhash32.cuh

    Both hashes read only the key and the secret they are given, whatever the length
    of the key; no assertion fails. The long multiplication is exact, and the two ways
    to process the tail of a key in the 32-bit hash agree. *)

From Stdlib Require Import NArith Lia.
From stdpp Require Import base list numbers.
From S2P Require Import Prelude Util Bucket XXHash DeviceHash DeviceHash32.

(** ** Computations that succeed *)

(** [m] returns a value with [P]. *)
Definition runs {A} (m : outcome A) (P : A → Prop) : Prop :=
  match m with Ok x => P x | Throw _ => False end.

Lemma runs_ok {A} (m : outcome A) (P : A → Prop) : runs m P ↔ ∃ x, m = Ok x ∧ P x.
Proof. destruct m; cbn; naive_solver. Qed.

Lemma runs_bind {A B} (m : outcome A) (f : A → outcome B) (P : A → Prop) (Q : B → Prop) :
  runs m P → (∀ x, P x → runs (f x) Q) → runs (m ≫= f) Q.
Proof. destruct m; cbn; [auto|done]. Qed.

Lemma runs_imp {A} (m : outcome A) (P Q : A → Prop) : (∀ x, P x → Q x) → runs m P → runs m Q.
Proof. destruct m; cbn; auto. Qed.

Lemma runs_fold {A S} (step : S → A → outcome S) (I : S → Prop) (l : list A) st :
  I st → (∀ st a, a ∈ l → I st → runs (step st a) I) → runs (outcome_fold step st l) I.
Proof.
  revert st. induction l as [|a l IH]; intros st Hst Hstep; [done|]. cbn [outcome_fold].
  eapply runs_bind; [apply Hstep; [by left|done]|]. intros st' Hst'. apply IH; [done|].
  intros st2 b Hb. apply Hstep. by right.
Qed.

Lemma runs_assert c : c = true → runs (CUDA_XXH_ASSERT c) (λ _, True).
Proof. by intros ->. Qed.

Lemma runs_get {A} (l : list A) i : i < length l → runs (arr_get l i) (λ _, True).
Proof. intros Hi. destruct (lookup_lt_is_Some_2 l i Hi) as [x Hx]. by rewrite (arr_get_Ok _ _ _ Hx). Qed.

Lemma read_Ok n p o : o + n ≤ length p → read n p o = Ok (readLE n (drop o p)).
Proof. intros Ho. unfold read. by rewrite decide_True. Qed.

Lemma runs_read n p o : o + n ≤ length p → runs (read n p o) (λ _, True).
Proof. intros Ho. by rewrite read_Ok. Qed.

Lemma kSecret_length : length CUDA_XXH3_kSecret = 192.
Proof. reflexivity. Qed.

(** One bind of a computation that only reads or asserts. *)
Ltac run_one :=
  lazymatch goal with
  | |- runs (Ok _) _ => cbn [runs]
  | |- runs (mbind _ (read _ _ _)) _ => eapply runs_bind; [apply runs_read; lia|intros ? _]
  | |- runs (mbind _ (arr_get _ _)) _ => eapply runs_bind; [apply runs_get; lia|intros ? _]
  | |- runs (mbind _ (CUDA_XXH_ASSERT _)) _ => eapply runs_bind; [apply runs_assert, bool_decide_eq_true; lia|intros _ _]
  end.
Ltac run := cbv zeta; repeat run_one.

(** ** Words *)

Lemma xorshift64_lt x s : (x < 2 ^ 64)%N → (CUDA_XXH_xorshift64 x s < 2 ^ 64)%N.
Proof.
  intros Hx. apply lxor_lt; [done|]. rewrite N.shiftr_div_pow2.
  eapply N.le_lt_trans; [apply N.Div0.div_le_upper_bound|exact Hx].
  pose proof (pow2_pos s). nia.
Qed.

Lemma CUDA_XXH3_avalanche_lt h : (CUDA_XXH3_avalanche h < 2 ^ 64)%N.
Proof. apply xorshift64_lt, wrap_lt. Qed.

Lemma CUDA_XXH64_avalanche_lt h : (CUDA_XXH64_avalanche h < 2 ^ 64)%N.
Proof. apply (xorshift64_lt _ 32), wrap_lt. Qed.

Lemma CUDA_XXH3_rrmxmx_lt h len : (CUDA_XXH3_rrmxmx h len < 2 ^ 64)%N.
Proof. apply xorshift64_lt, wrap_lt. Qed.

Abbreviation word64 := (λ h : N, (h < 2 ^ 64)%N).

#[export] Hint Resolve CUDA_XXH3_avalanche_lt CUDA_XXH64_avalanche_lt CUDA_XXH3_rrmxmx_lt : core.

Section mult.
#[local] Abbreviation B := (2 ^ 32)%N.

Lemma word_products a b : (a < B)%N → (b < B)%N → (a * b ≤ (B - 1) * (B - 1))%N.
Proof. intros Ha Hb. apply N.mul_le_mono; lia. Qed.

Lemma shiftl_word x : u64 (N.shiftl x 32) = N.shiftl (x mod B) 32.
Proof.
  rewrite !N.shiftl_mul_pow2. unfold wrap. change (2 ^ 64)%N with (B * B)%N. apply N.Div0.mul_mod_distr_r.
Qed.

(** The sums of partial products do not overflow. *)
Lemma school_sums ll hl lh hh :
  (ll ≤ (B - 1) * (B - 1))%N → (hl ≤ (B - 1) * (B - 1))%N → (lh ≤ (B - 1) * (B - 1))%N → (hh ≤ (B - 1) * (B - 1))%N →
  (ll / B + hl mod B + lh < 2 ^ 64)%N ∧
  (hl / B + (ll / B + hl mod B + lh) / B + hh < 2 ^ 64)%N ∧
  ((hl / B + (ll / B + hl mod B + lh) / B + hh) * 2 ^ 64 + ((ll / B + hl mod B + lh) mod B * B + ll mod B) =
   ll + hl * B + lh * B + hh * (B * B))%N.
Proof.
  intros Hll Hhl Hlh Hhh.
  assert (ll / B ≤ B - 2)%N by (apply N.lt_succ_r; apply N.Div0.div_lt_upper_bound; lia).
  assert (hl / B ≤ B - 2)%N by (apply N.lt_succ_r; apply N.Div0.div_lt_upper_bound; lia).
  pose proof (N.div_mod ll B ltac:(done)). pose proof (N.div_mod hl B ltac:(done)).
  assert (hl mod B < B)%N by (by apply N.mod_lt). assert (ll mod B < B)%N by (by apply N.mod_lt).
  assert (ll / B + hl mod B + lh < 2 ^ 64)%N as Hcross by lia.
  set (c := (ll / B + hl mod B + lh)%N) in *. pose proof (N.div_mod c B ltac:(done)).
  assert (c mod B < B)%N by (by apply N.mod_lt).
  assert (c / B < B)%N by (apply N.Div0.div_lt_upper_bound; lia).
  split; [done|]. split; lia.
Qed.

(** The grade school multiplication does not overflow and loses nothing. *)
Lemma mult64to128_exact lhs rhs :
  (lhs < 2 ^ 64)%N → (rhs < 2 ^ 64)%N →
  (high64 (CUDA_XXH_mult64to128 lhs rhs) * 2 ^ 64 + low64 (CUDA_XXH_mult64to128 lhs rhs) = lhs * rhs)%N.
Proof.
  intros Hl Hr. unfold CUDA_XXH_mult64to128, CUDA_XXH_mult32to64. cbn [high64 low64].
  change 0xFFFFFFFF%N with (N.ones 32). rewrite !N.land_ones, !N.shiftr_div_pow2.
  assert (∀ x, (x < 2 ^ 64)%N → (x / B < B)%N) as Hdiv by (intros x Hx; apply N.Div0.div_lt_upper_bound; lia).
  assert (∀ x, (x mod B < B)%N) as Hmod by (intros x; by apply N.mod_lt).
  rewrite !(wrap_small 32) by auto.
  pose proof (N.div_mod lhs B ltac:(done)) as Hlhs. pose proof (N.div_mod rhs B ltac:(done)) as Hrhs.
  pose proof (Hdiv _ Hl) as Ha1. pose proof (Hdiv _ Hr) as Hb1. pose proof (Hmod lhs) as Ha0. pose proof (Hmod rhs) as Hb0.
  set (a1 := (lhs / B)%N) in *. set (b1 := (rhs / B)%N) in *. set (a0 := (lhs mod B)%N) in *. set (b0 := (rhs mod B)%N) in *.
  pose proof (word_products a0 b0 Ha0 Hb0) as Hll. pose proof (word_products a1 b0 Ha1 Hb0) as Hhl.
  pose proof (word_products a0 b1 Ha0 Hb1) as Hlh. pose proof (word_products a1 b1 Ha1 Hb1) as Hhh.
  rewrite !(wrap_small 64 (_ * _)) by lia.
  destruct (school_sums _ _ _ _ Hll Hhl Hlh Hhh) as (Hc & Hu & Heq).
  rewrite (wrap_small 64 (_ / _ + _ mod _)) by lia. rewrite (wrap_small 64 (_ / _ + _ mod _ + _)) by lia.
  rewrite (wrap_small 64 (_ / _ + _ / _)) by lia. rewrite (wrap_small 64 (_ + _ + a1 * b1)) by lia.
  rewrite shiftl_word, lor_shiftl_add by apply Hmod. rewrite Heq, Hlhs, Hrhs. lia.
Qed.
End mult.

(** ** Keys of at most 240 bytes *)

Section key.
Context (input secret : list N) (seed : N).
Context (secret_length : length secret = 192).
Abbreviation len := (length input).

Lemma len_1to3_runs : 1 ≤ len ≤ 3 → runs (CUDA_XXH3_len_1to3_64b input len secret seed) word64.
Proof.
  intros Hlen. assert (Nat.shiftr len 1 < len) as Hmid by (rewrite Nat.shiftr_div_pow2; apply Nat.Div0.div_lt_upper_bound; cbn; lia).
  unfold CUDA_XXH3_len_1to3_64b. run. auto.
Qed.

Lemma len_4to8_runs : 4 ≤ len ≤ 8 → runs (len_4to8_64b input len secret seed) word64.
Proof. intros Hlen. unfold len_4to8_64b. run. auto. Qed.

Lemma len_9to16_runs : 9 ≤ len ≤ 16 → runs (CUDA_XXH3_len_9to16_64b input len secret seed) word64.
Proof. intros Hlen. unfold CUDA_XXH3_len_9to16_64b. run. auto. Qed.

Lemma len_0to16_runs : len ≤ 16 → runs (CUDA_XXH3_len_0to16_64b input len secret seed) word64.
Proof.
  intros Hlen. unfold CUDA_XXH3_len_0to16_64b. run. repeat case_decide.
  - apply len_9to16_runs. lia.
  - apply len_4to8_runs. lia.
  - apply len_1to3_runs. lia.
  - run. auto.
Qed.

(** Offsets at which 16 bytes can be mixed. *)
Definition mix_ok (ok : nat * nat) : Prop := ok.1 + 16 ≤ len ∧ ok.2 + 16 ≤ 192.

Lemma add_mixes_run l acc : Forall mix_ok l → runs (outcome_fold (add_mix16B input secret seed) acc l) (λ _, True).
Proof.
  intros Hl. apply runs_fold; [done|]. intros st [o k] Hin _. rewrite list.Forall_forall in Hl. destruct (Hl _ Hin). cbn [fst snd] in *.
  unfold add_mix16B, CUDA_XXH3_mix16B. cbn [fst snd]. apply (runs_bind _ _ (λ _, True)); [run; exact I|done].
Qed.

Lemma runs_mixes {B} l acc (f : N → outcome B) Q :
  Forall mix_ok l → (∀ x, runs (f x) Q) → runs (outcome_fold (add_mix16B input secret seed) acc l ≫= f) Q.
Proof. intros Hl Hf. eapply runs_bind; [by apply add_mixes_run|auto]. Qed.

Lemma len_17to128_runs : 16 < len ≤ 128 → runs (CUDA_XXH3_len_17to128_64b input len secret 192 seed) word64.
Proof.
  intros Hlen. unfold CUDA_XXH3_len_17to128_64b, CUDA_XXH3_SECRET_SIZE_MIN. run.
  eapply (runs_bind _ _ (λ _, True)).
  - case_decide; [|done]. eapply (runs_bind _ _ (λ _, True)).
    + case_decide; [|done]. eapply (runs_bind _ _ (λ _, True)).
      * case_decide; [|done]. apply add_mixes_run. repeat constructor; cbn; lia.
      * intros x _. apply add_mixes_run. repeat constructor; cbn; lia.
    + intros x _. apply add_mixes_run. repeat constructor; cbn; lia.
  - intros x _. apply runs_mixes; [repeat constructor; cbn; lia|]. intros y. run. auto.
Qed.

Lemma len_129to240_runs : 128 < len ≤ 240 → runs (CUDA_XXH3_len_129to240_64b input len secret 192 seed) word64.
Proof.
  intros Hlen. unfold CUDA_XXH3_len_129to240_64b, CUDA_XXH3_SECRET_SIZE_MIN, CUDA_XXH3_MIDSIZE_MAX, CUDA_XXH3_MIDSIZE_STARTOFFSET, CUDA_XXH3_MIDSIZE_LASTOFFSET.
  pose proof (Nat.div_mod len 16 ltac:(done)). pose proof (Nat.mod_upper_bound len 16 ltac:(done)). run.
  apply runs_mixes; [apply Forall_fmap, list.Forall_forall; intros i Hi%elem_of_seq; unfold mix_ok; cbn; lia|]. intros x. run.
  apply runs_mixes; [apply Forall_fmap, list.Forall_forall; intros i Hi%elem_of_seq; unfold mix_ok; cbn; lia|]. intros y.
  apply runs_mixes; [repeat constructor; cbn; lia|]. intros z. run. auto.
Qed.
End key.

(** ** Longer keys *)

Section long_key.
Context (input secret : list N) (secret_length : length secret = 192).
Abbreviation len := (length input).

(** The eight accumulators. *)
Abbreviation accs := (λ acc : list N, length acc = 8).

Lemma acc_update_runs i f acc : i < 8 → length acc = 8 → runs (acc_update i f acc) accs.
Proof. intros Hi Hacc. unfold acc_update. run. by rewrite length_insert. Qed.

Lemma lane_swapped i : i < 8 → Nat.lxor i 1 < 8.
Proof. intros Hi. do 8 (destruct i as [|i]; [cbn; lia|]). lia. Qed.

Lemma accumulate_512_runs acc o k :
  o + 64 ≤ len → k + 64 ≤ 192 → length acc = 8 → runs (CUDA_XXH3_accumulate_512_scalar acc input o secret k) accs.
Proof.
  intros Ho Hk Hacc. apply runs_fold; [done|]. intros acc' i Hi%elem_of_seq Hacc'. unfold CUDA_XXH_ACC_NB in Hi. unfold accumulate_512_lane. run.
  eapply runs_bind; [apply acc_update_runs; [apply lane_swapped; lia|done]|]. intros acc2 Hacc2. apply acc_update_runs; [lia|done].
Qed.

Lemma scramble_runs acc k : k + 64 ≤ 192 → length acc = 8 → runs (CUDA_XXH3_scrambleAcc_scalar acc secret k) accs.
Proof.
  intros Hk Hacc. apply runs_fold; [done|]. intros acc' i Hi%elem_of_seq Hacc'. unfold CUDA_XXH_ACC_NB in Hi. unfold scramble_lane. run.
  apply acc_update_runs; [lia|done].
Qed.

Lemma accumulate_runs acc o nb :
  o + nb * 64 ≤ len → nb ≤ 16 → length acc = 8 → runs (CUDA_XXH3_accumulate CUDA_XXH3_accumulate_512_scalar acc input o secret nb) accs.
Proof.
  intros Ho Hnb Hacc. apply runs_fold; [done|]. intros acc' n Hn%elem_of_seq Hacc'.
  unfold CUDA_XXH_STRIPE_LEN, CUDA_XXH_SECRET_CONSUME_RATE. apply accumulate_512_runs; [nia|lia|done].
Qed.

Lemma internal_loop_runs acc :
  240 < len → length acc = 8 →
  runs (CUDA_XXH3_hashLong_internal_loop CUDA_XXH3_accumulate_512_scalar CUDA_XXH3_scrambleAcc_scalar acc input len secret 192) accs.
Proof.
  intros Hlen Hacc. unfold CUDA_XXH3_hashLong_internal_loop, CUDA_XXH3_SECRET_SIZE_MIN, CUDA_XXH_SECRET_LASTACC_START.
  change ((192 - CUDA_XXH_STRIPE_LEN) / CUDA_XXH_SECRET_CONSUME_RATE) with 16.
  change (192 / CUDA_XXH_SECRET_CONSUME_RATE) with 24.
  change (192 - CUDA_XXH_STRIPE_LEN - 7) with 121. change (192 - CUDA_XXH_STRIPE_LEN) with 128. change (CUDA_XXH_STRIPE_LEN * 16) with 1024. cbv zeta.
  pose proof (Nat.div_mod (len - 1) 1024 ltac:(done)) as Hblocks. pose proof (Nat.mod_upper_bound (len - 1) 1024 ltac:(done)).
  set (nb := (len - 1) / 1024) in *. change CUDA_XXH_STRIPE_LEN with 64.
  pose proof (Nat.div_mod (len - 1 - 1024 * nb) 64 ltac:(done)) as Hstripes. set (ns := (len - 1 - 1024 * nb) / 64) in *.
  run. eapply (runs_bind _ _ accs).
  { apply runs_fold; [done|]. intros acc' n Hn%elem_of_seq Hacc'. eapply runs_bind; [apply accumulate_runs; [nia|lia|done]|].
    intros acc2 Hacc2. by apply scramble_runs; [lia|]. }
  intros acc1 Hacc1. run. eapply runs_bind; [apply accumulate_runs; [lia|lia|done]|]. intros acc2 Hacc2.
  apply accumulate_512_runs; [lia|lia|done].
Qed.

Lemma mergeAccs_runs acc start : length acc = 8 → runs (CUDA_XXH3_mergeAccs acc secret 11 start) word64.
Proof.
  intros Hacc. unfold CUDA_XXH3_mergeAccs. eapply (runs_bind _ _ (λ _, True)).
  - apply runs_fold; [done|]. intros r i Hi%elem_of_seq _. unfold CUDA_XXH3_mix2Accs. apply (runs_bind _ _ (λ _, True)); [run; exact I|done].
  - intros r _. cbn. auto.
Qed.

Lemma hashLong_internal_runs :
  240 < len →
  runs (CUDA_XXH3_hashLong_64b_internal CUDA_XXH3_accumulate_512_scalar CUDA_XXH3_scrambleAcc_scalar input len secret 192) word64.
Proof.
  intros Hlen. unfold CUDA_XXH3_hashLong_64b_internal. eapply runs_bind; [by apply internal_loop_runs|]. intros acc Hacc.
  unfold CUDA_XXH_ACC_NB, CUDA_XXH_SECRET_MERGEACCS_START. run. by apply mergeAccs_runs.
Qed.
End long_key.

(** *** The secret of a seed *)

Lemma to_bytes_length n x : length (to_bytes n x) = n.
Proof. revert x. induction n as [|n IH]; intros x; cbn [to_bytes length]; [done|]. by rewrite IH. Qed.

Lemma write_at p q o v : length p = o → 8 ≤ length q → CUDA_XXH_writeLE64 (p ++ q) o v = Ok (p ++ to_bytes 8 v ++ drop 8 q).
Proof.
  intros <- Hq. unfold CUDA_XXH_writeLE64. rewrite decide_True by (rewrite length_app; lia).
  by rewrite take_app_length, drop_app_add.
Qed.

(** The 16 bytes that one round writes. *)
Definition secret_chunk (seed : N) (i : nat) : list N :=
  to_bytes 8 (u64 (readLE 8 (drop (16 * i) CUDA_XXH3_kSecret) + seed)) ++
  to_bytes 8 (wsub 64 (readLE 8 (drop (16 * i + 8) CUDA_XXH3_kSecret)) seed).

Lemma secret_chunk_length seed i : length (secret_chunk seed i) = 16.
Proof. unfold secret_chunk. by rewrite length_app, !to_bytes_length. Qed.

Lemma custom_round_ok seed p q i :
  i < 12 → length p = 16 * i → 16 ≤ length q →
  custom_secret_round seed (p ++ q) i = Ok ((p ++ secret_chunk seed i) ++ drop 16 q).
Proof.
  intros Hi Hp Hq. unfold custom_secret_round. rewrite !read_Ok by (rewrite kSecret_length; lia). cbn [mbind outcome_bind].
  rewrite write_at by lia. cbn [mbind outcome_bind]. rewrite (app_assoc p).
  rewrite write_at by (rewrite ?length_app, ?to_bytes_length, ?length_drop; lia). by rewrite drop_drop, <- !app_assoc.
Qed.

Lemma custom_rounds_ok seed k i p q :
  i + k ≤ 12 → length p = 16 * i → 16 * k ≤ length q →
  outcome_fold (custom_secret_round seed) (p ++ q) (seq i k) = Ok ((p ++ concat (secret_chunk seed <$> seq i k)) ++ drop (16 * k) q).
Proof.
  revert i p q. induction k as [|k IH]; intros i p q Hik Hp Hq; [cbn; by rewrite app_nil_r|].
  cbn [seq outcome_fold]. rewrite custom_round_ok by lia. cbn [mbind outcome_bind].
  rewrite IH; [|lia|rewrite length_app, secret_chunk_length; lia|rewrite length_drop; lia].
  rewrite drop_drop, fmap_cons. cbn [concat]. rewrite app_assoc. by replace (16 + 16 * k) with (16 * S k) by lia.
Qed.

(** The secret is written whole: nothing of the memory it is written to is left. *)
Lemma custom_secret_ok mem seed :
  length mem = 192 →
  CUDA_XXH3_initCustomSecret_scalar mem seed = Ok (concat (secret_chunk seed <$> seq 0 12)).
Proof.
  intros Hmem. unfold CUDA_XXH3_initCustomSecret_scalar. change (CUDA_XXH_SECRET_DEFAULT_SIZE / 16) with 12.
  pose proof (custom_rounds_ok seed 12 0 [] mem ltac:(lia) eq_refl ltac:(lia)) as Hrun. rewrite (drop_ge mem), app_nil_r in Hrun by lia. exact Hrun.
Qed.

Lemma hashLong_ok input seed :
  240 < length input → ∃ h, (h < 2 ^ 64)%N ∧ ∀ mem, length mem = 192 → CUDA_XXH3_hashLong_64b_withSeed mem input (length input) seed = Ok h.
Proof.
  intros Hlen. unfold CUDA_XXH3_hashLong_64b_withSeed, CUDA_XXH3_hashLong_64b_withSeed_internal.
  set (secret := if decide (seed = 0%N) then CUDA_XXH3_kSecret else concat (secret_chunk seed <$> seq 0 12)).
  assert (length secret = 192) as Hs by (unfold secret; case_decide; reflexivity).
  destruct (proj1 (runs_ok _ _) (hashLong_internal_runs input secret Hs Hlen)) as (h & Hh & Hlt). exists h. split; [done|].
  intros mem Hmem. rewrite (custom_secret_ok mem seed Hmem). unfold secret in Hh. by case_decide.
Qed.

(** ** Any key *)

Lemma CUDA_XXH64_of_ok input seed :
  ∃ h, (h < 2 ^ 64)%N ∧ ∀ mem, length mem = 192 → CUDA_XXH64_of mem input (length input) seed = Ok h.
Proof.
  assert (∀ m, runs m word64 → ∃ h, (h < 2 ^ 64)%N ∧ ∀ mem : list N, length mem = 192 → m = Ok h) as Hruns.
  { intros m (h & -> & Hh)%runs_ok. by exists h. }
  pose proof kSecret_length. unfold CUDA_XXH64_of, CUDA_XXH3_64bits_internal, CUDA_XXH3_MIDSIZE_MAX.
  change (CUDA_XXH_ASSERT (bool_decide (CUDA_XXH3_SECRET_SIZE_MIN ≤ CUDA_XXH_SECRET_DEFAULT_SIZE))) with (Ok tt). cbn [mbind outcome_bind].
  repeat case_decide.
  - by apply Hruns, len_0to16_runs.
  - apply Hruns, len_17to128_runs; [done|lia].
  - apply Hruns, len_129to240_runs; [done|lia].
  - apply hashLong_ok. lia.
Qed.

(** On 8-byte keys it is the hash the sketches use. *)
Lemma CUDA_XXH64_of_index mem k seed : CUDA_XXH64_of mem (to_bytes 8 k) 8 seed = Ok (CUDA_XXH64 k seed).
Proof.
  unfold CUDA_XXH64_of, CUDA_XXH3_64bits_internal, CUDA_XXH3_len_0to16_64b, CUDA_XXH64, CUDA_XXH3_len_4to8_64b, len_4to8_64b.
  pose proof (to_bytes_length 8 k) as Hlen. rewrite Hlen. repeat (rewrite decide_True by lia || rewrite decide_False by lia).
  rewrite !read_Ok by (rewrite ?Hlen, ?kSecret_length; lia). reflexivity.
Qed.
