(* ===== verification/DeviceHashProps.v ===== *)
(** * Properties of the device hashes: src/include/cuda_xxhash64.cuh, src/include/cuda_xxhash32.cuh *)

From Stdlib Require Import NArith Lia.
From stdpp Require Import base list numbers.
From S2P Require Import Prelude Util Bucket XXHash DeviceHash DeviceHash32 DeviceHashSpec.

(** Run a tail of known length, one step at a time. *)
Ltac run_tail :=
  repeat (cbn [mbind outcome_bind fst snd rerolled4 rerolled1 Nat.sub];
    match goal with
    | |- context [decide ?P] => (rewrite (decide_True (P := P)) by lia) || (rewrite (decide_False (P := P)) by lia)
    | |- context [mbind _ (XXH_PROCESS4 ?i ?a ?st)] => destruct (XXH_PROCESS4 i a st)
    | |- context [mbind _ (XXH_PROCESS1 ?i ?st)] => destruct (XXH_PROCESS1 i st)
    end); cbn [mbind outcome_bind fst snd rerolled4 rerolled1 Nat.sub].

(** ** The tail of the 32-bit hash *)

Section tail.
Context (input : list N) (align : XXH_alignment).

Lemma land_15 len : Nat.land len 15 = len mod 16.
Proof. exact (Nat.land_ones len 4). Qed.

(** The switch runs what the loops run. *)
Lemma finalize_same h32 ptr len : finalize_switch input align h32 ptr len = finalize_loops input align h32 ptr len.
Proof.
  unfold finalize_switch, finalize_loops. rewrite land_15. pose proof (Nat.mod_upper_bound len 16 ltac:(done)) as Hlen.
  set (n := len mod 16) in *. clearbody n.
  unfold case_15, case_11, case_7, case_3, case_2, case_1, case_0, case_14, case_10, case_6, case_13, case_9, case_5, case_12, case_8, case_4.
  do 16 (destruct n as [|n]; [run_tail; reflexivity|]). lia.
Qed.

Abbreviation total := (length input).

Lemma process4_runs st : st.2 + 4 ≤ total → runs (XXH_PROCESS4 input align st) (λ st', st'.2 = st.2 + 4).
Proof. intros Hst. unfold XXH_PROCESS4, XXH_readLE32_align, XXH_readLE32. destruct align; run; done. Qed.

Lemma process1_runs st : st.2 < total → runs (XXH_PROCESS1 input st) (λ st', st'.2 = S st.2).
Proof. intros Hst. unfold XXH_PROCESS1. run. done. Qed.

Lemma rerolled4_runs fuel len st :
  len ≤ fuel → st.2 + len ≤ total → runs (rerolled4 input align fuel len st) (λ x, x.1.2 + x.2 = st.2 + len).
Proof.
  revert len st. induction fuel as [|fuel IH]; intros len st Hf Hst; cbn [rerolled4]; (case_decide; [|done]); [lia|].
  eapply runs_bind; [apply process4_runs; lia|]. intros st' Hst'. cbv beta in Hst'. eapply runs_imp; [|apply IH; lia]. cbn. lia.
Qed.

Lemma rerolled1_runs len st : st.2 + len ≤ total → runs (rerolled1 input len st) (λ _, True).
Proof.
  revert st. induction len as [|len IH]; intros st Hst; cbn [rerolled1]; [done|].
  eapply runs_bind; [apply process1_runs; lia|]. intros st' Hst'. cbv beta in Hst'. apply IH. lia.
Qed.

Lemma XXH32_avalanche_lt h : (XXH32_avalanche h < 2 ^ 32)%N.
Proof.
  apply lxor_lt; [apply wrap_lt|]. rewrite N.shiftr_div_pow2. eapply N.le_lt_trans; [apply N.Div0.div_le_upper_bound|apply (wrap_lt 32)].
  apply N.le_mul_l. by vm_compute.
Qed.

Lemma finalize_runs reroll h32 ptr len :
  ptr + len mod 16 ≤ total → runs (XXH32_finalize input align reroll h32 ptr len) (λ h, (h < 2 ^ 32)%N).
Proof.
  intros Hlen. assert (runs (finalize_loops input align h32 ptr len) (λ h, (h < 2 ^ 32)%N)) as Hloops.
  { unfold finalize_loops. rewrite land_15. cbv zeta. eapply runs_bind; [by apply rerolled4_runs|]. intros [st l] Hst. cbn [fst snd] in *.
    eapply runs_bind; [apply rerolled1_runs; lia|]. intros st' _. apply XXH32_avalanche_lt. }
  unfold XXH32_finalize. destruct reroll; [done|]. by rewrite finalize_same.
Qed.

Lemma block_runs v o : o + 16 ≤ total → runs (XXH32_block input align v o) (λ _, True).
Proof.
  intros Ho. destruct v as [[[v1 v2] v3] v4]. unfold XXH32_block, XXH_readLE32_align, XXH_readLE32. destruct align; run; done.
Qed.

(** The loop stops at the last whole block. *)
Lemma blocks_run fuel k v :
  16 * k + 16 ≤ total → total ≤ k + fuel → runs (XXH32_blocks input align fuel (total - 15) v (16 * k)) (λ x, x.2 + total mod 16 = total).
Proof.
  revert k v. induction fuel as [|fuel IH]; intros k v Hk Hf; cbn [XXH32_blocks]; [lia|].
  eapply runs_bind; [by apply block_runs|]. intros v' _. cbv zeta. replace (16 * k + 16) with (16 * S k) by lia.
  case_decide as Hlt; [apply IH; lia|]. cbn [runs snd].
  pose proof (Nat.div_mod total 16 ltac:(done)). pose proof (Nat.mod_upper_bound total 16 ltac:(done)). lia.
Qed.

Lemma endian_align_runs reroll seed : runs (XXH32_endian_align input align reroll total seed) (λ h, (h < 2 ^ 32)%N).
Proof.
  unfold XXH32_endian_align. eapply (runs_bind _ _ (λ x, x.2 + total mod 16 = total)).
  - case_decide as Hlen; [|cbn [runs snd]; rewrite Nat.mod_small; lia].
    eapply runs_bind; [apply (blocks_run total 0); lia|]. intros [[[[v1 v2] v3] v4] o] Ho. exact Ho.
  - intros [h o] Ho. cbv zeta. apply finalize_runs. cbn [snd] in *. rewrite land_15, Nat.Div0.mod_mod. lia.
Qed.
End tail.

(** ** Published values

    What the XXH3 and XXH32 libraries give for the bytes of their own self test: the
    device code is the same function. *)

Fixpoint test_bytes (n : nat) (gen : N) : list N :=
  match n with
  | O => []
  | S n => N.shiftr gen 56 :: test_bytes n (u64 (gen * 0x9E3779B185EBCA8D))
  end.

Definition hash_test (n : nat) (seed : N) : outcome N := CUDA_XXH64_of (replicate 192 0%N) (test_bytes n 0x9E3779B1) n seed.

Example published_XXH3 :
  (λ n, hash_test n 0) <$> [0; 1; 6; 12; 24; 80; 195; 403] =
  Ok <$> [0x2D06800538D394C2; 0xC44BDFF4074EECDB; 0x27B56A84CD2D7325; 0xA713DAF0DFBB77E7;
          0xA3FE70BF9D3510EB; 0xBCDEFBBB2C47C90A; 0xCD94217EE362EC3A; 0xCDEB804D65C6DEA4]%N.
Proof. by vm_compute. Qed.

Example published_XXH3_seed :
  (λ n, hash_test n 0x9E3779B185EBCA8D) <$> [0; 1; 6; 12; 24; 80; 195; 403] =
  Ok <$> [0xA8A6B918B2F0364A; 0x032BE332DD766EF8; 0x84589C116AB59AB9; 0xE7303E1B2336DE0E;
          0x850E80FC35BDD690; 0xC6DD0CB699532E73; 0xBA68003D370CB3D9; 0x6259F6ECFD6443FD]%N.
Proof. by vm_compute. Qed.

Example published_XXH32 :
  (λ n, CUDA_XXH32 false (test_bytes n 0x9E3779B1) n 0) <$> [0; 1; 14; 222] =
  Ok <$> [0x02CC5D05; 0xCF65B03E; 0x1208E7E2; 0x5BD11DBD]%N.
Proof. by vm_compute. Qed.

(** ** Properties *)

(** C19. The device hash of a key of any length, under any seed, is a 64-bit word: no
    assertion fails, nothing outside the key and the secret is read, and the memory in
    which the secret of a seed is built does not matter. For an 8-byte key it is the
    hash that the sketches use. *)
Theorem device_hash_total (key : list N) (seed k : N) (mem : list N) :
  length mem = 192 →
  (∃ h, (h < 2 ^ 64)%N ∧ CUDA_XXH64_of mem key (length key) seed = Ok h ∧
    ∀ mem', length mem' = 192 → CUDA_XXH64_of mem' key (length key) seed = Ok h) ∧
  CUDA_XXH64_of mem (to_bytes 8 k) 8 seed = Ok (CUDA_XXH64 k seed).
Proof.
  intros Hmem. split; [|apply CUDA_XXH64_of_index]. destruct (CUDA_XXH64_of_ok key seed) as (h & Hlt & Hh). exists h. auto.
Qed.

(** The 32-bit hash gives the same word whether the tail of a key goes through the
    loops or through the switch with its falling cases, and reads nothing but the key. *)
Theorem hash32_builds_agree (key : list N) (seed : N) :
  ∃ h, (h < 2 ^ 32)%N ∧ ∀ reroll, CUDA_XXH32 reroll key (length key) seed = Ok h.
Proof.
  destruct (proj1 (runs_ok _ _) (endian_align_runs key XXH_unaligned true seed)) as (h & Hh & Hlt). exists h. split; [done|].
  intros []; [exact Hh|]. rewrite <- Hh. unfold CUDA_XXH32, XXH32_endian_align, XXH32_finalize.
  destruct (if decide _ then _ else _) as [[h1 o]|e]; [|done]. apply finalize_same.
Qed.

(** ** Witnesses *)

Lemma device_hash_total_witness :
  (∃ h, (h < 2 ^ 64)%N ∧ CUDA_XXH64_of (replicate 192 7%N) (test_bytes 300 1) 300 9 = Ok h ∧
    ∀ mem', length mem' = 192 → CUDA_XXH64_of mem' (test_bytes 300 1) 300 9 = Ok h) ∧
  CUDA_XXH64_of (replicate 192 7%N) (to_bytes 8 5) 8 9 = Ok (CUDA_XXH64 5 9).
Proof. exact (device_hash_total (test_bytes 300 1) 9 5 (replicate 192 7%N) eq_refl). Defined.
