(* ===== verification/MCSerial.v ===== *)
(** * Saving the minimum cut algorithm: [write_binary], [construct_from_serialized_data]

    The same functions of src/src/mc_sketch_alg.cpp, marked there as unused. The file
    has the format of [Serial]: the sketches of as many nodes as there are, so of the
    first sketch graph only. *)

From Stdlib Require Import NArith Lia.
From stdpp Require Import base list gmap numbers.
From S2P Require Import Prelude Bytes Float64 Util Bucket Sketch XXHash Concrete SketchSpec Dsu Graph Configuration CCSketchAlg Partition MergeInstr Boruvka BoruvkaLoop CCQuery Serial SerialSpec MCSketchAlg MCFilter MCQuery.

Module MCFile.
Section ops.
Context `{BuildConfig, Libm, Hashing}.

Definition write_binary (m : MCSketchAlg) : outcome (list N) := Serial.write_binary (core m).

(** The reading constructor. It leaves [max_sketch_graphs] as it was in memory. *)
Definition read_MCSketchAlg (nv : nat) (sd : N) (prio : list N) (file : list N) (junk : nat → N) (pos : nat)
    (cfg : CCAlgConfiguration) (junk_max : nat) : MCSketchAlg :=
  mkMC (read_CCSketchAlg nv sd prio file junk pos cfg) junk_max 0.

Definition construct_from_serialized_data (file : list N) (junk : nat → N) (prio : nat → list N)
    (cfg : CCAlgConfiguration) (junk_max : nat) : MCSketchAlg :=
  let sd := read_word file junk 0 8 in
  let nv := N.to_nat (read_word file junk 8 4) in
  let factor := double_of_bits (read_word file junk 12 8) in
  read_MCSketchAlg nv sd (prio nv) file junk 20 (CCConf.sketches_factor cfg factor) junk_max.
End ops.
End MCFile.

Section spec.
Context `{BuildConfig, Libm, Hashing}.
Context (n : nat) (n_ok : (N.of_nat n < 2 ^ 32)%N).

(** A file does not hold how many samples were used. *)
Lemma serialize_reset s : serialize (reset_sample_state s) = serialize s.
Proof. done. Qed.

Lemma first_graph_storable Es J m s :
  mc_ok n Es J m → 0 < num_sketch_graphs m → s ∈ take n (sketches (core m)) →
  storable_sketch n (cc_seed (core m)) (_sketches_factor (config (core m))) (reset_sample_state s).
Proof.
  intros Hok Hg Hs. apply list_elem_of_lookup in Hs as [v Hv]. apply lookup_take_Some in Hv as [Hv Hvn].
  destruct (mo_sketches _ _ _ _ Hok 0 Hg v Hvn) as (s' & Hs' & Hr & Hgeo & _). rewrite Nat.mul_0_l, Nat.add_0_l in Hs'.
  rewrite Hv in Hs'. injection Hs' as <-. unfold cc_sketch in Hgeo. rewrite (mo_n _ _ _ _ Hok) in Hgeo.
  split; [exact Hgeo|]. split; [done|]. split; [apply (represents_set_sample_idx _ 0 _ Hr)|].
  apply (represents_fits _ (incident (Es 0) v)); [by apply represents_set_sample_idx|].
  intros e He. apply elem_of_incident in He as [_ He]. apply (edge_index_lt n (Es 0)); [lia|by apply (mo_graph _ _ _ _ Hok)|done].
Qed.

(** The first sketch graph is saved and read back, with none of its samples used. The
    algorithm read has no sketch graphs of its own account: creating the first one
    again is what it accepts. *)
Lemma first_graph_reloads Es J m junk prio cfg junk_max :
  mc_ok n Es J m → 0 < num_sketch_graphs m → (cc_seed (core m) < 2 ^ 64)%N →
  storable (_sketches_factor (config (core m))) → dleb (_sketches_factor (config (core m))) d_zero = false →
  ∃ file, MCFile.write_binary m = Ok file ∧
    let m' := MCFile.construct_from_serialized_data file junk prio cfg junk_max in
    sketches (core m') = reset_sample_state <$> take n (sketches (core m)) ∧
    contents n 0 (cc_sketch (core m')) (incident (Es 0)) 0 (sketches (core m')) ∧
    num_sketch_graphs m' = 0 ∧ max_sketch_graphs m' = junk_max.
Proof.
  intros Hok Hg Hsd Hst Hpos.
  assert (n ≤ length (sketches (core m))) as Hlen by (rewrite (mo_length _ _ _ _ Hok Hg); nia).
  eexists. split; [apply (write_first_ok n (core m) (mo_n _ _ _ _ Hok) Hlen)|]. cbv zeta.
  set (ss := reset_sample_state <$> take n (sketches (core m))).
  assert (file_bytes n (cc_seed (core m)) (_sketches_factor (config (core m))) (take n (sketches (core m))) =
    file_bytes n (cc_seed (core m)) (_sketches_factor (config (core m))) ss) as ->.
  { unfold file_bytes, ss. by rewrite <- list_fmap_compose. }
  assert (core (MCFile.construct_from_serialized_data (file_bytes n (cc_seed (core m)) (_sketches_factor (config (core m))) ss) junk prio cfg junk_max) =
    Serial.construct_from_serialized_data (file_bytes n (cc_seed (core m)) (_sketches_factor (config (core m))) ss) junk prio cfg) as Hcore by done.
  rewrite Hcore, (construct_file_ok n); [|done..| |].
  - split; [done|]. split; [|done]. intros v Hv. unfold ss. cbn [sketches].
    destruct (mo_sketches _ _ _ _ Hok 0 Hg v Hv) as (s & Hs & Hr & Hgeo & _). rewrite Nat.mul_0_l, Nat.add_0_l in Hs.
    exists (reset_sample_state s). rewrite Nat.add_0_l, list_lookup_fmap, lookup_take_lt, Hs by done. split; [done|].
    split; [by apply represents_set_sample_idx|]. split; [|done].
    change (geometry (reset_sample_state s)) with (geometry s). rewrite Hgeo. unfold cc_sketch. cbn [num_vertices cc_seed config].
    rewrite (mo_n _ _ _ _ Hok). unfold CCConf.sketches_factor. by rewrite Hpos.
  - unfold ss. rewrite length_fmap, length_take. lia.
  - unfold ss. apply Forall_fmap, list.Forall_forall. intros s Hs. by apply (first_graph_storable Es J).
Qed.
End spec.
