(* ===== verification/ManagedSketch.v ===== *)
(** * Sketches built in managed memory: src/src/sketch.cpp, src/src/cc_sketch_alg.cpp,
    src/src/mc_sketch_alg.cpp

    The constructor of [Sketch] that is given the memory of all sketches and clears its
    own part of it, and the constructors that use it. Built in any order, the sketches
    are those of ordinary memory and the memory is the one [CudaUvm.managed_buckets]
    reads off them. *)

From Stdlib Require Import NArith Lia.
From stdpp Require Import base list gmap numbers.
From S2P Require Import Prelude Float64 Util Bucket Sketch SketchSpec Configuration CCSketchAlg CCQuery MCSketchAlg CudaUvm.

Section ops.
Context `{BuildConfig, Libm, Hashing}.

(** Clears the entries of sketch [sketch_id] in [_buckets]. *)
Definition managed_sketch (vector_len sd : N) (sketch_id : nat) (_buckets : list Bucket) (_samples _cols : nat)
    : outcome (Sketch * list Bucket) :=
  let s := new_sketch vector_len sd _samples _cols in
  let start := sketch_id * num_buckets s in
  if decide (start + num_buckets s ≤ length _buckets) then
    Ok (s, take start _buckets ++ replicate (num_buckets s) bzero ++ drop (start + num_buckets s) _buckets)
  else Throw OutOfBounds.

(** One iteration of the loops that fill an array of sketches from [base] on. *)
Definition managed_entry (nv base : nat) (sd : N) (factor : double) (st : list Sketch * list Bucket) (i : nat)
    : outcome (list Sketch * list Bucket) :=
  x ← managed_sketch (calc_vector_length (N.of_nat nv)) sd i st.2 (calc_cc_samples (N.of_nat nv) factor) default_cols_per_sample;
  sks ← arr_set st.1 (base + i) x.1;
  Ok (sks, x.2).

(** The constructor of [CCSketchAlg] with [cuda_uvm]; [sks] is the new array. *)
Definition new_CCSketchAlg_UVM (nv : nat) (cuda_uvm : bool) (sd : N) (_buckets : list Bucket) (prio : list N)
    (cfg : CCAlgConfiguration) (sks : list Sketch) : outcome (CCSketchAlg * list Bucket) :=
  if cuda_uvm then
    st ← outcome_fold (managed_entry nv 0 sd (_sketches_factor cfg)) (sks, _buckets) (seq 0 nv);
    Ok (set_sketches (new_CCSketchAlg nv sd prio cfg) st.1, st.2)
  else Ok (new_CCSketchAlg nv sd prio cfg, _buckets).

(** [create_sketch_graph] with [cudaUVM_enabled]; [order] is that of the parallel loop,
    [room] what the array holds where the graph's sketches go. *)
Definition create_sketch_graph_UVM (graph_id : nat) (cudaUVM_buckets : list Bucket) (order : list nat) (room : list Sketch)
    (m : MCSketchAlg) : outcome (MCSketchAlg * list Bucket) :=
  let c := core m in
  if decide (max_sketch_graphs m ≤ graph_id ∨ graph_id ≠ num_sketch_graphs m) then Ok (m, cudaUVM_buckets)
  else
    st ← outcome_fold (managed_entry (num_vertices c) (graph_id * num_vertices c) (cc_seed c) (_sketches_factor (config c)))
           (take (graph_id * num_vertices c) (sketches c) ++ room, cudaUVM_buckets) order;
    Ok (mkMC (set_sketches c st.1) (max_sketch_graphs m) (S (num_sketch_graphs m)), st.2).
End ops.

(** ** Any order of construction *)

Lemma replicate_const_seq {A} (x : A) k : replicate k x = (λ _, x) <$> seq 0 k.
Proof.
  apply list_eq. intros j. rewrite list_lookup_fmap. destruct (decide (j < k)) as [Hj|Hj].
  - rewrite lookup_seq_lt by done. by apply lookup_replicate.
  - rewrite lookup_seq_ge by lia. apply lookup_replicate_None. lia.
Qed.

Lemma replicate_bind {A B} (f : A → list B) x y w k : f x = replicate w y → replicate k x ≫= f = replicate (k * w) y.
Proof.
  intros Hf. induction k as [|k IH]; [done|]. change (f x ++ (replicate k x ≫= f) = replicate (w + k * w) y).
  by rewrite Hf, IH, replicate_add.
Qed.

Section spec.
Context `{BuildConfig, Libm, Hashing}.
Context (nv : nat) (sd : N) (factor : double).
Abbreviation fresh := (alg_sketch nv sd factor).
Abbreviation nb := (num_buckets fresh).

Lemma managed_sketch_ok i mem :
  i < nv → length mem = nv * nb →
  ∃ mem', managed_sketch (calc_vector_length (N.of_nat nv)) sd i mem (calc_cc_samples (N.of_nat nv) factor) default_cols_per_sample =
      Ok (fresh, mem') ∧ length mem' = nv * nb ∧
    ∀ k, mem' !! k = if decide (i * nb ≤ k < i * nb + nb) then Some bzero else mem !! k.
Proof.
  intros Hi Hmem. unfold managed_sketch. fold fresh. assert (i * nb + nb ≤ nv * nb) as Hin by nia.
  rewrite decide_True by lia. eexists. split; [done|]. split.
  { rewrite !length_app, length_take, length_replicate, length_drop. lia. }
  intros k. case_decide as Hk.
  - rewrite lookup_app_r by (rewrite length_take; lia). rewrite length_take, Nat.min_l by lia.
    rewrite lookup_app_l by (rewrite length_replicate; lia). apply lookup_replicate. split; [done|lia].
  - destruct (decide (k < i * nb)).
    + rewrite lookup_app_l by (rewrite length_take; lia). by rewrite lookup_take_lt by lia.
    + rewrite lookup_app_r by (rewrite length_take; lia). rewrite length_take, Nat.min_l by lia.
      rewrite lookup_app_r by (rewrite length_replicate; lia). rewrite length_replicate, lookup_drop. f_equal. lia.
Qed.

Lemma managed_entry_ok base i sks mem :
  i < nv → length mem = nv * nb → base + nv ≤ length sks →
  ∃ mem', managed_entry nv base sd factor (sks, mem) i = Ok (<[base + i := fresh]> sks, mem') ∧ length mem' = nv * nb ∧
    ∀ k, mem' !! k = if decide (i * nb ≤ k < i * nb + nb) then Some bzero else mem !! k.
Proof.
  intros Hi Hmem Hsks. destruct (managed_sketch_ok i mem Hi Hmem) as (mem' & Hrun & Hmem' & Hlk). exists mem'. split; [|done].
  unfold managed_entry. cbn [fst snd]. rewrite Hrun. cbn [mbind outcome_bind fst snd].
  by rewrite arr_set_Ok by lia.
Qed.

(** The sketches of [order] are made and their memory is clear; the rest is as before. *)
Lemma managed_entries_ok base order sks mem :
  Forall (λ i, i < nv) order → length mem = nv * nb → base + nv ≤ length sks →
  ∃ sks' mem', outcome_fold (managed_entry nv base sd factor) (sks, mem) order = Ok (sks', mem') ∧
    length sks' = length sks ∧ length mem' = nv * nb ∧
    (∀ k, sks' !! k = if decide (base ≤ k ∧ k - base ∈ order) then Some fresh else sks !! k) ∧
    (∀ k, mem' !! k = Some bzero ∨ mem' !! k = mem !! k) ∧
    (∀ i k, i ∈ order → i * nb ≤ k < i * nb + nb → mem' !! k = Some bzero).
Proof.
  intros Horder. revert sks mem. induction Horder as [|i order Hi _ IH]; intros sks mem Hmem Hsks.
  { exists sks, mem. split; [done|]. split; [done|]. split; [done|]. split; [|split; [by right|set_solver]].
    intros k. rewrite decide_False; [done|set_solver]. }
  cbn [outcome_fold]. destruct (managed_entry_ok base i sks mem Hi Hmem Hsks) as (mem1 & -> & Hmem1 & Hlk). cbn [mbind outcome_bind].
  destruct (IH (<[base + i := fresh]> sks) mem1 Hmem1) as (sks' & mem' & Hrun & Hl & Hm & Hsk & Hz & Hz'); [rewrite length_insert; lia|].
  exists sks', mem'. split; [exact Hrun|]. split; [by rewrite Hl, length_insert|]. split; [done|]. split; [|split].
  - intros k. rewrite Hsk. destruct (decide (base ≤ k ∧ k - base ∈ order)) as [[Hb Hk]|Hno].
    + by rewrite decide_True by (split; [done|by right]).
    + destruct (decide (k = base + i)) as [->|Hne].
      * rewrite list_lookup_insert_eq by lia. rewrite decide_True; [done|]. split; [lia|]. replace (base + i - base) with i by lia. by left.
      * rewrite list_lookup_insert_ne by done. rewrite decide_False; [done|]. intros [Hb [Heq|Hk]%elem_of_cons]; [lia|tauto].
  - intros k. destruct (Hz k) as [?|Hk]; [by left|]. rewrite Hk, Hlk. case_decide; [by left|by right].
  - intros j k [->|Hj]%elem_of_cons Hk; [|by apply (Hz' j)]. destruct (Hz k) as [?|Hk']; [done|]. by rewrite Hk', Hlk, decide_True.
Qed.

(** All of them: the memory is that of the sketches, one after the other. *)
Lemma managed_all_ok base order sks mem :
  order ≡ₚ seq 0 nv → length mem = nv * nb → length sks = base + nv →
  outcome_fold (managed_entry nv base sd factor) (sks, mem) order =
    Ok (take base sks ++ replicate nv fresh, replicate nv fresh ≫= buckets).
Proof.
  intros Horder Hmem Hsks. destruct (managed_entries_ok base order sks mem) as (sks' & mem' & -> & Hl & Hm & Hsk & _ & Hz); [|done|lia|].
  { rewrite Horder. apply Forall_seq. lia. }
  f_equal. f_equal.
  - apply list_eq. intros k. rewrite Hsk. destruct (decide (k < base)) as [Hk|Hk].
    + rewrite decide_False by lia. rewrite lookup_app_l by (rewrite length_take; lia). by rewrite lookup_take_lt.
    + rewrite lookup_app_r by (rewrite length_take; lia). rewrite length_take, Nat.min_l by lia.
      destruct (decide (k < base + nv)) as [Hk'|Hk'].
      * rewrite decide_True by (split; [lia|rewrite Horder; apply elem_of_seq; lia]). symmetry. apply lookup_replicate. split; [done|lia].
      * rewrite decide_False by (rewrite Horder, elem_of_seq; lia). rewrite lookup_ge_None_2 by lia.
        symmetry. apply lookup_replicate_None. lia.
  - rewrite (replicate_bind buckets fresh bzero nb) by done.
    apply list_eq. intros k. destruct (decide (k < nv * nb)) as [Hk|Hk].
    + rewrite (proj2 (lookup_replicate _ _ _ _) (conj eq_refl Hk)).
      assert (nb ≠ 0) as Hnb by lia. pose proof (Nat.div_mod k nb Hnb). pose proof (Nat.mod_upper_bound k nb Hnb).
      apply (Hz (k / nb)); [|lia]. rewrite Horder. apply elem_of_seq. split; [lia|]. apply Nat.Div0.div_lt_upper_bound. lia.
    + rewrite lookup_ge_None_2 by lia. symmetry. apply lookup_replicate_None. lia.
Qed.
End spec.

(** ** The constructors *)

Section constructors.
Context `{BuildConfig, Libm, Hashing}.

(** What memory held before does not matter, and neither does where the sketches lie. *)
Lemma new_CCSketchAlg_UVM_ok nv cuda_uvm sd mem prio cfg sks :
  length mem = nv * num_buckets (alg_sketch nv sd (_sketches_factor cfg)) → length sks = nv →
  new_CCSketchAlg_UVM nv cuda_uvm sd mem prio cfg sks =
    Ok (new_CCSketchAlg nv sd prio cfg, if cuda_uvm then managed_buckets (new_CCSketchAlg nv sd prio cfg) else mem).
Proof.
  intros Hmem Hsks. unfold new_CCSketchAlg_UVM. destruct cuda_uvm; [|done].
  rewrite (managed_all_ok nv sd (_sketches_factor cfg) 0 (seq 0 nv) sks mem) by done. cbn [mbind outcome_bind fst snd].
  rewrite replicate_const_seq. done.
Qed.

(** A sketch graph in managed memory is the sketch graph in ordinary memory. *)
Lemma create_sketch_graph_UVM_ok graph_id mem order room m :
  let c := core m in
  order ≡ₚ seq 0 (num_vertices c) → length room = num_vertices c → graph_id * num_vertices c ≤ length (sketches c) →
  length mem = num_vertices c * num_buckets (cc_sketch c) →
  ∃ mem', create_sketch_graph_UVM graph_id mem order room m = Ok (MC.create_sketch_graph graph_id m, mem') ∧
    (graph_id = num_sketch_graphs m → graph_id < max_sketch_graphs m →
      mem' = drop (graph_id * num_vertices c) (sketches (core (MC.create_sketch_graph graph_id m))) ≫= buckets).
Proof.
  intros c Horder Hroom Hlen Hmem. unfold create_sketch_graph_UVM, MC.create_sketch_graph. fold c.
  case_decide as Hbad; [eexists; split; [done|]; intros; exfalso; lia|].
  rewrite (managed_all_ok (num_vertices c) (cc_seed c) (_sketches_factor (config c)));
    [|done|done|rewrite length_app, length_take; lia]. cbn [mbind outcome_bind fst snd].
  rewrite take_app_le, take_take, Nat.min_id by (rewrite length_take; lia).
  rewrite replicate_const_seq. eexists. split; [done|]. intros _ _. cbn [sketches core set_sketches].
  rewrite drop_app_ge, length_take, Nat.min_l, Nat.sub_diag by (rewrite ?length_take; lia). done.
Qed.
End constructors.
