(* ===== verification/MinCutQuery.v ===== *)
(** * The minimum cut query: the query loop of src/tools/min_cut.cu

    The program that runs [MCGPUSketchAlg] asks one sampled graph after the other for a
    certificate, [k] disjoint spanning forests or the edges of the store, lets VieCut
    compute a cut of it and stops at the first cut smaller than [k]. *)

From Stdlib Require Import NArith ZArith SpecFloat Lia.
From stdpp Require Import base list gmap sets numbers.
From S2P Require Import Prelude Float64 Util Bucket Sketch Configuration Graph CCSketchAlg ReturnTypes MCSketchAlg EdgeStore McGpu.

Definition set_mc (a : MCGPUSketchAlg) (m : MCSketchAlg) : MCGPUSketchAlg :=
  mkMcGpu m (gpu_num_nodes a) (gpu_num_subgraphs a) (cur_subgraphs a) (num_host_threads a)
    (gpu_batch_size a) (gpu_seed a) (subgraphs a) (edge_store a).

Section ops.
Context `{BuildConfig, Libm, Hashing, VieCut}.
Context (sort : list Edge → list Edge).

(** [SFs_edges] of one turn. [runs] are the choices of the run-time in the [k] queries
    and filters of each graph. *)
Definition certificate (runs : nat → list MC.ForestRun) (graph_id : nat) (a : MCGPUSketchAlg)
    : outcome (list Edge * MCGPUSketchAlg) :=
  if decide (cur_subgraphs a ≤ graph_id) then Ok (get_adjlist_spanning_forests a, a)
  else
    r ← MC.calc_disjoint_spanning_forests sort (runs graph_id) graph_id (mc a);
    Ok (concat (edges <$> r.1), set_mc a r.2).

(** The loop from [graph_id] on, [n] turns. The answer is the graph and its cut. *)
Fixpoint query_loop (k : N) (runs : nat → list MC.ForestRun) (n graph_id : nat) (a : MCGPUSketchAlg)
    : outcome (option (nat * MinCut) * MCGPUSketchAlg) :=
  match n with
  | O => Ok (None, a)
  | S n =>
      r ← certificate runs graph_id a;
      let cut := MC.calc_minimum_cut r.1 (mc r.2) in
      if decide (cur_subgraphs a ≤ graph_id ∨ (value cut < k)%N) then Ok (Some (graph_id, cut), r.2)
      else query_loop k runs n (S graph_id) r.2
  end.

Definition minimum_cut_query (k : N) (runs : nat → list MC.ForestRun) (num_graphs : nat) (a : MCGPUSketchAlg) :=
  query_loop k runs num_graphs 0 a.

(** The value printed. *)
Definition final_value (graph_id : nat) (cut : MinCut) : double :=
  dmul (of_N (value cut)) (of_N (2 ^ N.of_nat graph_id)).
End ops.

(** ** Parameters

    What the program computes from the number of nodes before it reads the stream. *)

Definition dsub (x y : double) : double := SFsub prec64 emax64 x y.
Definition epsilon : double := S754_finite false 6755399441055744 (-53).
Definition d_one_and_half : double := S754_finite false 6755399441055744 (-52).
Definition d_1_2 : double := S754_finite false 5404319552844595 (-52).

(** [1 << i] of an [int], as a divisor of a [size_t]. *)
Definition int_shift (i : nat) : outcome N :=
  if decide (i < 31) then Ok (2 ^ N.of_nat i)%N
  else if decide (i = 31) then Ok (2 ^ 64 - 2 ^ 31)%N else Throw OutOfBounds.

Record QueryParams := mkQueryParams {
  qp_k : N;
  qp_reduced_k : double;
  qp_num_graphs : nat;
  qp_num_samples : nat;
  qp_sketch_bytes : double;
  qp_max_sketch_graphs : nat;
}.

Section params.
Context `{BuildConfig, Libm}.

Definition query_k (num_nodes : N) : N := ceil_to_N (ddiv (log2 (of_N num_nodes)) (dmul epsilon epsilon)).

Definition query_reduced_k (num_nodes : N) : double :=
  dmul (ddiv (of_N (query_k num_nodes)) (log2 (of_N num_nodes))) d_one_and_half.

Definition query_num_graphs (num_nodes : N) : nat := 1 + N.to_nat (trunc_to_N (dmul (of_N 2) (log2 (of_N num_nodes)))).

(** [4 * w * num_nodes] is a 32-bit product. *)
Definition query_sketch_bytes (num_nodes : N) : double :=
  let l := log2 (of_N num_nodes) in
  dmul (dmul (of_N (u32 (16 * num_nodes))) (dadd (dmul (of_N 2) l) (of_N 2)))
    (ddiv (dmul (query_reduced_k num_nodes) l) (dsub (of_N 1) (log2 d_1_2))).

(** The loop that counts the graphs whose edges would take more room than a sketch. *)
Definition count_sketch_graph (num_edges_complete : N) (sketch_bytes : double) (max_sketch_graphs i : nat) : outcome nat :=
  d ← int_shift i;
  let adjlist_bytes := dmul (of_N 8) (of_N (num_edges_complete / d)) in
  Ok (if dleb sketch_bytes adjlist_bytes then S max_sketch_graphs else max_sketch_graphs).

Definition query_params (num_nodes : N) : outcome QueryParams :=
  let num_graphs := query_num_graphs num_nodes in
  let num_edges_complete := (u64 (num_nodes * wsub 64 num_nodes 1) / 2)%N in
  max_sketch_graphs ← outcome_fold (count_sketch_graph num_edges_complete (query_sketch_bytes num_nodes)) 0 (seq 0 num_graphs);
  Ok (mkQueryParams (query_k num_nodes) (query_reduced_k num_nodes) num_graphs
        (calc_cc_samples num_nodes (query_reduced_k num_nodes)) (query_sketch_bytes num_nodes) max_sketch_graphs).
End params.
