(* ===== verification/MinCutProps.v ===== *)
(** * Small cuts survive in the certificate: src/tools/min_cut.cu

    [k] disjoint spanning forests of a graph have every cut of the graph that has fewer
    than [k] edges, and at least [k] edges of every other cut. So a cut smaller than
    [k] of a certificate is a cut of the sampled graph, edge for edge. *)

From Stdlib Require Import NArith Lia.
From stdpp Require Import base list gmap sets numbers relations.
From S2P Require Import Prelude Float64 Util Bucket Sketch XXHash Concrete SketchSpec Dsu Graph Configuration CCSketchAlg Partition ReturnTypes MergeInstr Boruvka BoruvkaLoop CCQuery MCSketchAlg MCFilter MCQuery MCProps EdgeStore McGpu MinCutQuery.

(** ** Certificates *)

Section cert.
Context (n : nat) (n_ok : (N.of_nat n ≤ 2 ^ 32)%N).
Implicit Types (E F : gset N) (S : list nat).

Lemma cut_mono E F S : E ⊆ F → cut E S ⊆ cut F S.
Proof. intros HEF e. rewrite !elem_of_cut. set_solver. Qed.

Lemma cut_union E F S : cut (E ∪ F) S = cut E S ∪ cut F S.
Proof. apply set_eq. intros e. rewrite elem_of_union, !elem_of_cut, elem_of_union. naive_solver. Qed.

(** A path between two sides of a cut crosses it. *)
Lemma conn_crosses F S u w :
  graph_ok n F → conn n F u w → (u ∈ S ∧ (w ∉ S)) ∨ ((u ∉ S) ∧ w ∈ S) → cut F S ≠ ∅.
Proof.
  intros HF Hc [[Hu Hw]|[Hu Hw]] He; [apply Hw|apply Hu]; (eapply (cut_empty_closed n n_ok); [done|done| |]); [exact Hu|done|exact Hw|].
  by apply conn_sym.
Qed.

(** The edges of all forests. *)
Definition forest_edges (SFs : list SpanningForest) : gset N := list_to_set (concat (sf_indices <$> SFs)).

Lemma forest_edges_cons sf SFs : forest_edges (sf :: SFs) = list_to_set (sf_indices sf) ∪ forest_edges SFs.
Proof. unfold forest_edges. rewrite fmap_cons. cbn [concat]. by rewrite list_to_set_app_L. Qed.

Lemma forest_edges_sub E SFs : disjoint_forests n E SFs → forest_edges SFs ⊆ E.
Proof.
  revert E. induction SFs as [|sf SFs IH]; intros E; [set_solver|]. intros [[_ Hsub _ _ _] Hd].
  rewrite forest_edges_cons. specialize (IH _ Hd). set_solver.
Qed.

(** An edge that no forest has is crossed by each of them. *)
Lemma missing_edge_crossed E SFs S e :
  graph_ok n E → disjoint_forests n E SFs → e ∈ cut E S → e ∉ forest_edges SFs → length SFs ≤ size (cut (forest_edges SFs) S).
Proof.
  revert E. induction SFs as [|sf SFs IH]; intros E HE Hd He Hn; [cbn; lia|].
  destruct Hd as [[_ Hsub _ Hspan _] Hd]. rewrite forest_edges_cons in *. set (F := list_to_set (sf_indices sf)) in *.
  pose proof (forest_edges_sub _ _ Hd) as Hrest.
  rewrite cut_union, size_union by (intros x; rewrite !elem_of_cut; set_solver).
  assert (length SFs ≤ size (cut (forest_edges SFs) S)) as Hle.
  { apply (IH (E ∖ F)); [intros x Hx; apply HE; set_solver|done| |set_solver].
    apply elem_of_cut in He as [Hc He]. apply elem_of_cut. split; [done|set_solver]. }
  assert (cut F S ≠ ∅) as Hne.
  { destruct (cut_edge_ends n n_ok E S e HE He) as (_ & _ & Hadj & _ & Hside).
    apply (conn_crosses F S (src (inv_concat_pairing_fn e)) (dst (inv_concat_pairing_fn e))); [intros x Hx; apply HE; set_solver| |tauto].
    apply Hspan. by apply rtc_once. }
  assert (size (cut F S) ≠ 0) as Hpos by (intros Hz; apply Hne; by apply leibniz_equiv, size_empty_inv). cbn [length]. lia.
Qed.

(** The certificate and the graph have the same small cuts. *)
Lemma certificate_cuts E SFs S :
  graph_ok n E → disjoint_forests n E SFs → size (cut (forest_edges SFs) S) < length SFs → cut (forest_edges SFs) S = cut E S.
Proof.
  intros HE Hd Hlt. apply set_eq. intros e. split; [by apply cut_mono, forest_edges_sub|]. intros He.
  destruct (decide (e ∈ forest_edges SFs)) as [Hin|Hnin].
  - apply elem_of_cut in He as [Hc _]. by apply elem_of_cut.
  - pose proof (missing_edge_crossed E SFs S e HE Hd He Hnin). lia.
Qed.
End cert.

(** ** The cut of a list of edges *)

Section viecut.
Context `{VieCut}.

Definition edge_index (e : Edge) : N := concat_pairing_fn (src e) (dst e).

(** The nodes on the side that [getNodeInCut] marks. *)
Definition side (n : nat) (es : list Edge) : list nat := filter (λ i, getNodeInCut n es i = true) (seq 0 n).

(** The edges of a list between [S] and the other nodes. *)
Definition list_cut (es : list Edge) (S : list nat) : list Edge := filter (λ e, crosses S (edge_index e) = true) es.

Definition proper (n : nat) (S : list nat) : Prop := (∃ v, v < n ∧ v ∈ S) ∧ (∃ v, v < n ∧ v ∉ S).

(** VieCut returns a cut with both sides not empty, and its value. *)
Definition viecut_sound (n : nat) : Prop :=
  ∀ es, (∀ e, e ∈ es → src e < n ∧ dst e < n) →
    proper n (side n es) ∧ perform_minimum_cut n es = N.of_nat (length (list_cut es (side n es))).

(** The cut is a smallest one. *)
Definition viecut_exact (n : nat) : Prop :=
  ∀ es S, (∀ e, e ∈ es → src e < n ∧ dst e < n) → proper n S →
    (perform_minimum_cut n es ≤ N.of_nat (length (list_cut es S)))%N.
End viecut.

(** The list of all forests' edges has each index once. *)
Lemma forest_list_indices SFs : edge_index <$> concat (edges <$> SFs) = concat (sf_indices <$> SFs).
Proof. induction SFs as [|sf SFs IH]; [done|]. rewrite !fmap_cons. cbn [concat]. by rewrite fmap_app, IH. Qed.

Section forest_list.
Context (n : nat) (n_ok : (N.of_nat n < 2 ^ 32)%N).

Lemma n_le : (N.of_nat n ≤ 2 ^ 32)%N.
Proof. lia. Qed.

Lemma forest_list_NoDup E SFs : disjoint_forests n E SFs → NoDup (concat (sf_indices <$> SFs)).
Proof.
  revert E. induction SFs as [|sf SFs IH]; intros E; [constructor|]. intros [[Hnd _ _ _ _] Hd].
  rewrite fmap_cons. cbn [concat]. apply list.NoDup_app. split; [done|]. split; [|by apply (IH (E ∖ list_to_set (sf_indices sf)))].
  intros x Hx Hin. pose proof (forest_edges_sub n n_le _ _ Hd x) as Hsub. unfold forest_edges in Hsub.
  rewrite elem_of_list_to_set in Hsub. specialize (Hsub Hin). apply elem_of_difference in Hsub as [_ Hnot].
  apply Hnot. by apply elem_of_list_to_set.
Qed.

Lemma list_cut_size E SFs S :
  disjoint_forests n E SFs → length (list_cut (concat (edges <$> SFs)) S) = size (cut (forest_edges SFs) S).
Proof.
  intros Hd. pose proof (forest_list_NoDup E SFs Hd) as Hnd.
  assert (cut (forest_edges SFs) S = list_to_set (filter (λ x, crosses S x = true) (concat (sf_indices <$> SFs)))) as ->.
  { apply set_eq. intros x. rewrite elem_of_cut, elem_of_list_to_set, list_elem_of_filter. unfold forest_edges.
    by rewrite elem_of_list_to_set. }
  rewrite size_list_to_set by (by apply NoDup_filter). rewrite <- forest_list_indices.
  unfold list_cut. induction (concat (edges <$> SFs)) as [|e es IH]; [done|]. rewrite fmap_cons, !filter_cons. repeat case_decide; cbn [length]; congruence.
Qed.

Lemma forest_list_ends E SFs e : disjoint_forests n E SFs → e ∈ concat (edges <$> SFs) → src e < n ∧ dst e < n.
Proof.
  intros Hd He. apply list_elem_of_In, in_concat in He as (l & Hl & He). apply list_elem_of_In in Hl, He.
  apply list_elem_of_fmap in Hl as (sf & -> & Hsf). pose proof (disjoint_forests_edges n n_ok E SFs sf Hd Hsf e He). lia.
Qed.
End forest_list.

(** ** The query loop *)

Section loop.
Context `{BuildConfig, Libm, Hashing, VieCut}.
Context (n : nat) (n_ok : (N.of_nat n < 2 ^ 32)%N).
Context (sort : list Edge → list Edge) (sort_perm : ∀ l, sort l ≡ₚ l).
Context (k : nat) (runs : nat → list MC.ForestRun).

(** A cut with its value, where [w] gives the number of edges across a set of nodes. *)
Record right_cut (w : list nat → nat) (c : MinCut) : Prop := {
  rc_proper : proper n (elements (left_vertices c));
  rc_sides : right_vertices c = list_to_set (seq 0 n) ∖ left_vertices c;
  rc_value : value c = N.of_nat (w (elements (left_vertices c)));
  rc_least : viecut_exact n → ∀ S, proper n S → (value c ≤ N.of_nat (w S))%N;
}.

Lemma left_side es m v : num_vertices (core m) = n → v ∈ elements (left_vertices (MC.calc_minimum_cut es m)) ↔ v ∈ side n es.
Proof. intros <-. unfold MC.calc_minimum_cut, side. cbn [left_vertices]. by rewrite elem_of_elements, elem_of_list_to_set. Qed.

Lemma crosses_same S S' e : (∀ v, v ∈ S ↔ v ∈ S') → crosses S e = crosses S' e.
Proof. intros HS. unfold crosses. f_equal; by apply bool_decide_ext. Qed.

Lemma list_cut_same es S S' : (∀ v, v ∈ S ↔ v ∈ S') → list_cut es S = list_cut es S'.
Proof. intros HS. unfold list_cut. apply list_filter_iff. intros e. by rewrite (crosses_same S S'). Qed.

(** What VieCut says of a list of edges. *)
Lemma calc_minimum_cut_ok es m :
  viecut_sound n → num_vertices (core m) = n → (∀ e, e ∈ es → src e < n ∧ dst e < n) →
  right_cut (λ S, length (list_cut es S)) (MC.calc_minimum_cut es m).
Proof.
  intros Hsound Hn Hes. destruct (Hsound es Hes) as [[(v & Hv & Hin) (v' & Hv' & Hout)] Hval].
  pose proof (λ v, left_side es m v Hn) as Hleft. constructor.
  - split; [exists v; by rewrite Hleft|exists v'; by rewrite Hleft].
  - apply set_eq. intros u. unfold MC.calc_minimum_cut. cbn [left_vertices right_vertices].
    rewrite elem_of_difference, !elem_of_list_to_set, !list_elem_of_filter, Hn. tauto.
  - rewrite (list_cut_same es _ (side n es)) by done. rewrite <- Hval. unfold MC.calc_minimum_cut. cbn [value]. by rewrite Hn.
  - intros Hexact S HS. unfold MC.calc_minimum_cut. cbn [value]. rewrite Hn. by apply Hexact.
Qed.

(** A small cut of the certificate is a cut of the graph; without one the graph has none. *)
Lemma certificate_answer E SFs m :
  viecut_sound n → num_vertices (core m) = n → graph_ok n E → disjoint_forests n E SFs → length SFs = k →
  let c := MC.calc_minimum_cut (concat (edges <$> SFs)) m in
  ((value c < N.of_nat k)%N → right_cut (λ S, size (cut E S)) c) ∧
  ((N.of_nat k ≤ value c)%N → viecut_exact n → ∀ S, proper n S → k ≤ size (cut E S)).
Proof.
  intros Hsound Hn HE Hd Hlen c. pose proof (n_le n n_ok) as Hle.
  pose proof (list_cut_size n n_ok E SFs) as Hsize.
  destruct (calc_minimum_cut_ok (concat (edges <$> SFs)) m Hsound Hn) as [C1 C2 C3 C4]; [intros e; by apply (forest_list_ends n n_ok E)|].
  fold c in C1, C2, C3, C4. rewrite Hsize in C3 by done.
  assert (∀ S, size (cut (forest_edges SFs) S) ≤ size (cut E S)) as Hsub.
  { intros S. apply subseteq_size, (cut_mono n Hle). by apply (forest_edges_sub n Hle). }
  split.
  - intros Hlt. constructor; [done|done| |].
    + rewrite C3. f_equal. f_equal. apply (certificate_cuts n Hle); [done|done|lia].
    + intros Hexact S HS. specialize (C4 Hexact S HS). rewrite Hsize in C4 by done. specialize (Hsub S). lia.
  - intros Hge Hexact S HS. specialize (C4 Hexact S HS). rewrite Hsize in C4 by done. specialize (Hsub S). lia.
Qed.

(** Some emulation for a graph of the loop runs out of samples. *)
Fixpoint loop_ran_out (t g : nat) (a : MCGPUSketchAlg) : Prop :=
  match t with
  | O => False
  | S t =>
      g < cur_subgraphs a ∧
      (ran_out sort g (runs g) (mc a) ∨
       match certificate sort runs g a with Ok r => loop_ran_out t (S g) r.2 | Throw _ => False end)
  end.

Record loop_ok (Es : nat → gset N) (J : nat → nat) (g : nat) (a : MCGPUSketchAlg) : Prop := {
  lo_mc : ∃ J', mc_ok n Es J' (mc a) ∧ ∀ i, g ≤ i → J' i = J i;
  lo_cur : cur_subgraphs a = num_sketch_graphs (mc a);
  lo_sound : ∀ i, i < cur_subgraphs a → checksum_sound (cc_seed (core (mc a))) (Es i);
  lo_samples : ∀ i, i < cur_subgraphs a → J i + k ≤ num_samples (cc_sketch (core (mc a)));
  lo_store : ∀ e, e ∈ get_edges (edge_store a) → src e < n ∧ dst e < n;
}.

Definition runs_fine : Prop :=
  ∀ g, length (runs g) = k ∧ Forall (λ run, mc_run_ok n (MC.f_query run)) (runs g) ∧ filters_split n sort (runs g).

(** One certificate from a sketch graph. *)
Lemma sketch_certificate_ok Es J g a :
  runs_fine → loop_ok Es J g a → g < cur_subgraphs a →
  ∃ SFs a', certificate sort runs g a = Ok (concat (edges <$> SFs), a') ∧ length SFs = k ∧
    (ran_out sort g (runs g) (mc a) ∨ disjoint_forests n (Es g) SFs) ∧ graph_ok n (Es g) ∧
    num_vertices (core (mc a')) = n ∧ cur_subgraphs a' = cur_subgraphs a ∧ edge_store a' = edge_store a ∧ loop_ok Es J (S g) a'.
Proof.
  intros Hruns [(J' & Hok & HJ) Hcur Hs Hsamples Hstore] Hg. destruct (Hruns g) as (Hlen & Hq & Hsp).
  assert (g < num_sketch_graphs (mc a)) as Hg' by lia.
  destruct (calc_disjoint_ok n n_ok sort sort_perm g Es J' (mc a) (runs g) Hok Hg' Hq Hsp) as
    (SFs & m' & Hrun & Hl & _ & Hd & [Hok' Hsame Hnum]); [by apply Hs|rewrite HJ, Hlen by done; by apply Hsamples|].
  exists SFs, (set_mc a m'). unfold certificate. rewrite decide_False by lia. unfold get_adjlist_spanning_forests. rewrite Hrun.
  split; [done|]. split; [congruence|]. split; [done|]. split; [by apply (mo_graph _ _ _ _ Hok)|]. split; [apply Hok'|].
  split; [done|]. split; [done|]. constructor; cbn [mc set_mc cur_subgraphs edge_store].
  - exists (upd_graph J' g (J' g + length (runs g))). split; [done|]. intros i Hi. unfold upd_graph. case_decide; [lia|]. apply HJ. lia.
  - congruence.
  - destruct Hsame as (_ & -> & _). done.
  - by rewrite (cc_sketch_same _ _ Hsame).
  - done.
Qed.

(** The answer of the loop from graph [g] on. *)
Definition loop_answer (Es : nat → gset N) (store : list Edge) (cur g t : nat) (res : option (nat * MinCut)) : Prop :=
  match res with
  | Some (r, c) =>
      g ≤ r ∧
      ((r < cur ∧ (value c < N.of_nat k)%N ∧ right_cut (λ S, size (cut (Es r) S)) c) ∨
       (r = cur ∧ right_cut (λ S, length (list_cut store S)) c)) ∧
      (viecut_exact n → ∀ i S, g ≤ i < r → proper n S → k ≤ size (cut (Es i) S))
  | None => g + t ≤ cur ∧ (viecut_exact n → ∀ i S, g ≤ i < g + t → proper n S → k ≤ size (cut (Es i) S))
  end.

Lemma query_loop_ok Es J t g a :
  viecut_sound n → runs_fine → loop_ok Es J g a → g ≤ cur_subgraphs a →
  ∃ res a', query_loop sort (N.of_nat k) runs t g a = Ok (res, a') ∧
    (loop_ran_out t g a ∨ loop_answer Es (get_edges (edge_store a)) (cur_subgraphs a) g t res).
Proof.
  intros Hsound Hruns. revert g a. induction t as [|t IH]; intros g a Hok Hg; cbn [query_loop loop_ran_out].
  { exists None, a. split; [done|]. right. split; [lia|]. intros. lia. }
  destruct (decide (g = cur_subgraphs a)) as [->|Hne].
  { unfold certificate at 1. rewrite decide_True by lia. cbn [mbind outcome_bind fst snd]. rewrite decide_True by lia.
    eexists _, _. split; [done|]. right. split; [done|]. split; [|intros; lia]. right. split; [done|].
    destruct (lo_mc _ _ _ _ Hok) as (J' & Hmc & _). apply calc_minimum_cut_ok; [done|apply Hmc|apply Hok]. }
  destruct (sketch_certificate_ok Es J g a Hruns Hok ltac:(lia)) as (SFs & a' & Hcert & Hlen & Hd & HE & Hn & Hcur & Hst & Hok').
  rewrite Hcert. cbn [mbind outcome_bind fst snd].
  destruct Hd as [Hro|Hd].
  { destruct (decide _); [eexists _, _; split; [done|]; left; split; [lia|by left]|].
    destruct (IH (S g) a' Hok' ltac:(lia)) as (res & a2 & Hrun & _). exists res, a2. split; [done|]. left. split; [lia|by left]. }
  destruct (certificate_answer (Es g) SFs (mc a') Hsound Hn HE Hd Hlen) as [Hsmall Hlarge].
  case_decide as Hstop.
  - eexists _, _. split; [done|]. right. split; [done|]. split; [|intros; lia]. left.
    destruct Hstop as [Hbad|Hval]; [lia|]. split; [lia|]. split; [done|by apply Hsmall].
  - destruct (IH (S g) a' Hok' ltac:(lia)) as (res & a2 & Hrun & Hcase). exists res, a2. split; [done|].
    rewrite Hcur, Hst in Hcase. destruct Hcase as [Hro|Hans]; [left; split; [lia|by right]|right].
    assert (∀ i S, viecut_exact n → i = g → proper n S → k ≤ size (cut (Es i) S)) as Hthis.
    { intros i S Hexact -> HS. apply Hlarge; [lia|done|done]. }
    unfold loop_answer in *. destruct res as [[r c]|].
    + destruct Hans as (Hr & Hwhich & Hbelow). split; [lia|]. split; [done|]. intros Hexact i S Hi HS.
      destruct (decide (i = g)); [by apply Hthis|]. apply Hbelow; [done|lia|done].
    + destruct Hans as (Hr & Hbelow). split; [lia|]. intros Hexact i S Hi HS.
      destruct (decide (i = g)); [by apply Hthis|]. apply Hbelow; [done|lia|done].
Qed.
End loop.


(** ** Witness *)

Section witnesses.
#[local] Existing Instances default_build integral_libm xxh3_hashing.

(** A VieCut that always cuts node 0 off. *)
#[local] Instance cut_off_node0 : VieCut := {|
  perform_minimum_cut := λ n es, N.of_nat (length (list_cut es [0]));
  getNodeInCut := λ n es i, bool_decide (i = 0);
|}.

Lemma cut_off_node0_sound : viecut_sound 4.
Proof.
  intros es _. assert (side 4 es = [0]) as -> by reflexivity. split; [|done].
  split; [exists 0; split; [lia|by left]|exists 1; split; [lia|set_solver]].
Qed.

Definition example_cut_runs (_ : nat) : list MC.ForestRun := example_forest_runs.

Lemma example_cut_runs_fine : runs_fine 4 id 2 example_cut_runs.
Proof.
  intros g. split; [done|]. split.
  - constructor; [exact example_mc_run_ok|constructor; [exact example_mc_run_ok|constructor]].
  - apply example_filters_split. constructor; [done|constructor; [done|constructor]].
Qed.

Lemma example_graph1_sound m :
  same_config (core example_mc_new) (core m) → checksum_sound (cc_seed (core m)) (example_mc_graphs 1).
Proof.
  intros (_ & -> & _). replace (example_mc_graphs 1) with (list_to_set [concat_pairing_fn 1 3] : gset N) by by vm_compute.
  apply checksum_soundb_spec; [|by vm_compute]. apply (bool_decide_unpack _). by vm_compute.
Qed.

Definition example_cut_alg (m : MCSketchAlg) : MCGPUSketchAlg :=
  mkMcGpu m 4 5 2 2 8 7 [] (new_EdgeStore 7 4 100 5 2 0).


(** ** The parameters *)

(** The samples are enough for the [k] queries of each graph. *)
Example params_1000 :
  match query_params 1000 with
  | Ok p => (qp_k p, qp_num_graphs p, qp_num_samples p, qp_max_sketch_graphs p) = (18%N, 21, 37, 0) ∧ N.to_nat (qp_k p) ≤ qp_num_samples p
  | Throw _ => False
  end.
Proof. vm_compute. split; [done|lia]. Qed.

(** From 65536 nodes on there are more than 32 graphs, and the loop shifts an [int] by 32. *)
Lemma params_shift_too_far : query_num_graphs 65536 = 33 ∧ query_params 65536 = Throw OutOfBounds.
Proof. by vm_compute. Qed.

(** From 2^28 nodes on the size of a sketch graph wraps around. *)
Lemma sketch_bytes_wraps : query_sketch_bytes (2 ^ 28) = of_N 0.
Proof. by vm_compute. Qed.
End witnesses.
