(* ===== verification/BinStream.v ===== *)
(** * Readers of a binary graph stream: src/CUDAtest/include/binary_graph_stream.h

    A stream file is a header, the number of nodes and of updates, and then nine
    bytes per update. [BinaryGraphStream] reads it through one buffer.
    [BinaryGraphStream_MT] is shared by threads, each with an [MT_StreamReader]: they
    claim blocks of the file by a fetch-and-add of an atomic offset, and a main thread
    may register a query at an index or block the stream on demand. A step of the
    model is one access of a thread to a shared atomic, so a schedule is an
    interleaving of the threads' accesses. *)

From Stdlib Require Import NArith Lia.
From stdpp Require Import base list numbers.
From S2P Require Import Prelude Bytes.

(** ** Updates *)

(** [GraphUpdate] of the prototype; the type is the byte the file holds. *)
Record GraphUpdate := mkUpdate { upd_src : N; upd_dst : N; upd_type : N }.

#[global] Instance GraphUpdate_eq_dec : EqDecision GraphUpdate.
Proof. solve_decision. Defined.

(** The values of [UpdateType]. *)
Definition INSERT : N := 0.
Definition DELETE : N := 1.
Definition NXT_QUERY : N := 2.
Definition END_OF_FILE : N := 3.

Definition edge_size : nat := 1 + 2 * 4.
Definition header_size : nat := 4 + 8.

(** What [get_edge] reads at an offset of its buffer. *)
Definition decode_update (buf : list N) (pos : nat) : outcome GraphUpdate :=
  if decide (pos + edge_size ≤ length buf) then
    Ok (mkUpdate (of_le_bytes (take 4 (drop (pos + 1) buf))) (of_le_bytes (take 4 (drop (pos + 5) buf)))
          (default 0%N (buf !! pos)))
  else Throw OutOfBounds.

(** The bytes [l] stored at an offset of a buffer. *)
Definition write_bytes (buf : list N) (pos : nat) (l : list N) : list N :=
  take pos buf ++ l ++ drop (pos + length l) buf.

(** ** One reader *)

(** An [std::ifstream] on a file of bytes: its position, [eofbit], [failbit] and
    [badbit]. *)
Record ifstream := mkIfs { ifs_pos : nat; eofbit : bool; failbit : bool; badbit : bool }.

Definition ifs_fail (f : ifstream) : bool := failbit f || badbit f.
Definition ifs_good (f : ifstream) : bool := negb (eofbit f) && negb (ifs_fail f).

(** [read(buf, n)] takes what is left of the file if that is less than [n], and then
    sets [eofbit] and [failbit]; a stream that is not good reads nothing. [io_error]
    says at which offsets the device fails. *)
Definition ifs_read (file : list N) (io_error : nat → bool) (f : ifstream) (n : nat) : ifstream * list N :=
  if negb (ifs_good f) then (mkIfs (ifs_pos f) (eofbit f) true (badbit f), [])
  else if io_error (ifs_pos f) then (mkIfs (ifs_pos f) false (failbit f) true, [])
  else
    let l := take n (drop (ifs_pos f) file) in
    let short := length l <? n in
    (mkIfs (ifs_pos f + length l) short short false, l).

Record BinaryGraphStream := mkStream {
  bin_file : ifstream;
  buf : nat;
  start_buf : list N;
  buf_size : nat;
  num_nodes : N;
  num_edges : N;
}.

Section reader.
Variables (file : list N) (io_error : nat → bool).

Definition read_data (s : BinaryGraphStream) : outcome BinaryGraphStream :=
  let '(f, l) := ifs_read file io_error (bin_file s) (buf_size s) in
  if ifs_fail f && negb (eofbit f) then Throw StreamFailedException
  else Ok (mkStream f 0 (write_bytes (start_buf s) 0 l) (buf_size s) (num_nodes s) (num_edges s)).

(** [is_open]: the file could be opened. [mem] is what the allocated buffer holds,
    [junk] what the members of the header hold. *)
Definition new_BinaryGraphStream (is_open : bool) (_b : nat) (mem : list N) (junk : nat → N) : outcome BinaryGraphStream :=
  if negb is_open then Throw BadStreamException
  else
    let buf_size := _b - _b mod edge_size in
    let '(f, nodes) := ifs_read file io_error (mkIfs 0 false false false) 4 in
    let '(f, edges) := ifs_read file io_error f 8 in
    read_data (mkStream f 0 (take buf_size mem) buf_size
                 (read_word nodes junk 0 4) (read_word edges junk 0 8)).

Definition get_edge (s : BinaryGraphStream) : outcome (GraphUpdate * BinaryGraphStream) :=
  u ← decode_update (start_buf s) (buf s);
  let s := mkStream (bin_file s) (buf s + edge_size) (start_buf s) (buf_size s) (num_nodes s) (num_edges s) in
  s ← (if buf s =? buf_size s then read_data s else Ok s);
  Ok (u, s).

(** The client's loop: [n] calls. *)
Fixpoint get_edges (n : nat) (s : BinaryGraphStream) : outcome (list GraphUpdate * BinaryGraphStream) :=
  match n with
  | O => Ok ([], s)
  | S n => p ← get_edge s; q ← get_edges n p.2; Ok (p.1 :: q.1, q.2)
  end.
End reader.

(** ** The shared stream *)

Record BinaryGraphStream_MT := mkMT {
  mt_num_nodes : N;
  mt_num_edges : N;
  mt_buf_size : N;
  end_of_file : N;
  stream_off : N;
  query_index : N;
  query_block : bool;
}.

(** [-1] as a [uint64_t]. *)
Definition no_query : N := 2 ^ 64 - 1.

(** [stream_fd] is what [open] returned; [file] is what it opened. *)
Definition new_BinaryGraphStream_MT (stream_fd : option nat) (file : list N) (_b : N) : outcome BinaryGraphStream_MT :=
  if decide (stream_fd = Some 0) then Throw BadStreamException
  else
    let readable := if stream_fd is Some _ then file else [] in
    if negb (length (take 4 readable) =? 4) then Throw BadStreamException
    else if negb (length (take 8 (drop 4 readable)) =? 8) then Throw BadStreamException
    else
      let nodes := of_le_bytes (take 4 readable) in
      let edges := of_le_bytes (take 8 (drop 4 readable)) in
      Ok (mkMT nodes edges (_b - _b mod N.of_nat edge_size)
            (wrap 64 (wrap 64 (edges * N.of_nat edge_size) + N.of_nat header_size))
            (N.of_nat header_size) no_query false).

Definition set_stream_off (s : BinaryGraphStream_MT) (off : N) : BinaryGraphStream_MT :=
  mkMT (mt_num_nodes s) (mt_num_edges s) (mt_buf_size s) (end_of_file s) off (query_index s) (query_block s).

Definition set_query (s : BinaryGraphStream_MT) (q : N) (b : bool) : BinaryGraphStream_MT :=
  mkMT (mt_num_nodes s) (mt_num_edges s) (mt_buf_size s) (end_of_file s) (stream_off s) q b.

Definition on_demand_query (s : BinaryGraphStream_MT) : BinaryGraphStream_MT := set_query s (query_index s) true.
Definition post_query_resume (s : BinaryGraphStream_MT) : BinaryGraphStream_MT := set_query s no_query false.
Definition stream_reset (s : BinaryGraphStream_MT) : BinaryGraphStream_MT := set_stream_off s (N.of_nat header_size).

Definition register_query (query_idx : N) (s : BinaryGraphStream_MT) : bool * BinaryGraphStream_MT :=
  let byte_index := wrap 64 (N.of_nat header_size + wrap 64 (query_idx * N.of_nat edge_size)) in
  if (byte_index <=? stream_off s)%N then (false, s) else (true, set_query s byte_index (query_block s)).

(** ** A thread's reader *)

(** Where a thread is: at the start of [get_edge]; in [read_data], before it reads
    [query_block], before it compares the offset with the end, before it reads the
    offset and then the query index to compare them, before the fetch-and-add; with
    the block at [read_off], before the check that the query is past, before the load
    and the store of a thread that went past it, before the two comparisons and the
    two loads that truncate a read at the query, before the store, before the read of
    the file; after a read that returned nothing, before it reads the query index and
    the offset; after a return that ends the thread's loop; after an exception. *)
Inductive reader_pc :=
  | GetEdge
  | RdBlock | RdEof | RdOff | RdQuery (off : N) | RdFetch
  | RdPast (read_off : N) | RdPastLoad | RdPastStore (v : N)
  | RdTrunc1 (read_off : N) | RdTrunc2 (read_off : N) | RdTrunc3 (read_off : N)
  | RdTrunc4 (read_off data_to_read : N) | RdTruncStore (read_off data_to_read v : N)
  | RdRead (read_off data_to_read : N)
  | RetQuery | RetOff (q : N)
  | Stopped (marker : N) | Failed (e : exn).

Record MT_StreamReader := mkReader {
  r_buf : list N;
  r_pos : nat;
  data_in_buf : nat;
  r_pc : reader_pc;
  returned : list GraphUpdate;
}.

Definition set_pc (r : MT_StreamReader) (p : reader_pc) : MT_StreamReader :=
  mkReader (r_buf r) (r_pos r) (data_in_buf r) p (returned r).

(** [read_data] returned 0. *)
Definition return_zero (r : MT_StreamReader) : MT_StreamReader :=
  mkReader (r_buf r) (r_pos r) 0 RetQuery (returned r).

(** A new reader, whose buffer is [mem]. *)
Definition new_MT_StreamReader (s : BinaryGraphStream_MT) (mem : list N) : MT_StreamReader :=
  mkReader (take (N.to_nat (mt_buf_size s)) mem) 0 0 GetEdge [].

(** [get_edge] returned [u]. A thread must not call it while a query is in progress,
    nor is there anything after the end: it calls it until it gets one of the two
    special types. *)
Definition return_update (r : MT_StreamReader) (u : GraphUpdate) : MT_StreamReader :=
  let stop := (upd_type u =? NXT_QUERY)%N || (upd_type u =? END_OF_FILE)%N in
  mkReader (r_buf r) (r_pos r) (data_in_buf r) (if stop then Stopped (upd_type u) else GetEdge)
    (returned r ++ [u]).

(** The update at the reader's position. *)
Definition next_update (r : MT_StreamReader) : MT_StreamReader :=
  match decode_update (r_buf r) (r_pos r) with
  | Ok u => return_update (mkReader (r_buf r) (r_pos r + edge_size) (data_in_buf r) (r_pc r) (returned r)) u
  | Throw e => set_pc r (Failed e)
  end.

(** The update of [return {{-1, -1}, type}]. *)
Definition marker_update (type : N) : GraphUpdate := mkUpdate (2 ^ 32 - 1) (2 ^ 32 - 1) type.

Section threads.
(** [pread_count off n] is what [pread] returns when [n] bytes are asked for at
    [off]: the number it stored, or nothing for an error. *)
Variables (file : list N) (pread_count : N → N → option N).

(** The loop of calls of [pread]; each stores at the start of the buffer. *)
Fixpoint pread_loop (fuel : nat) (read_off data_to_read data_read : N) (b : list N) : outcome (list N * N) :=
  if (data_read <? data_to_read)%N then
    match fuel with
    | O => Throw OutOfFuel
    | S fuel =>
        match pread_count (read_off + data_read) data_to_read with
        | None => Throw StreamFailedException
        | Some ret =>
            let l := take (N.to_nat ret) (drop (N.to_nat (read_off + data_read)) file) in
            pread_loop fuel read_off data_to_read (data_read + ret) (write_bytes b 0 l)
        end
    end
  else Ok (b, data_read).

Definition reader_step (s : BinaryGraphStream_MT) (r : MT_StreamReader) : BinaryGraphStream_MT * MT_StreamReader :=
  match r_pc r with
  | GetEdge => (s, if data_in_buf r <=? r_pos r then set_pc r RdBlock else next_update r)
  | RdBlock => (s, if query_block s then return_zero r else set_pc r RdEof)
  | RdEof => (s, if (end_of_file s <=? stream_off s)%N then return_zero r else set_pc r RdOff)
  | RdOff => (s, set_pc r (RdQuery (stream_off s)))
  | RdQuery off => (s, if (query_index s <=? off)%N then return_zero r else set_pc r RdFetch)
  | RdFetch => (set_stream_off s (wrap 64 (stream_off s + mt_buf_size s)), set_pc r (RdPast (stream_off s)))
  | RdPast read_off =>
      (s, if (query_index s <=? read_off)%N then set_pc r RdPastLoad
          else if (end_of_file s <=? read_off)%N then return_zero r
          else set_pc r (RdTrunc1 read_off))
  | RdPastLoad => (s, set_pc r (RdPastStore (query_index s)))
  | RdPastStore v => (set_stream_off s v, return_zero r)
  | RdTrunc1 read_off =>
      (s, set_pc r (if (read_off <=? query_index s)%N then RdTrunc2 read_off else RdRead read_off (mt_buf_size s)))
  | RdTrunc2 read_off =>
      (s, set_pc r (if (query_index s <? wrap 64 (read_off + mt_buf_size s))%N then RdTrunc3 read_off
                    else RdRead read_off (mt_buf_size s)))
  | RdTrunc3 read_off => (s, set_pc r (RdTrunc4 read_off (wsub 64 (query_index s) read_off)))
  | RdTrunc4 read_off data_to_read => (s, set_pc r (RdTruncStore read_off data_to_read (query_index s)))
  | RdTruncStore read_off data_to_read v => (set_stream_off s v, set_pc r (RdRead read_off data_to_read))
  | RdRead read_off data_to_read =>
      let data_to_read := if (end_of_file s <? wrap 64 (read_off + data_to_read))%N
                          then wsub 64 (end_of_file s) read_off else data_to_read in
      (s, match pread_loop (S (N.to_nat data_to_read)) read_off data_to_read 0 (r_buf r) with
          | Throw e => set_pc r (Failed e)
          | Ok (b, data_read) =>
              let data_read := wrap 32 data_read in
              if (data_read =? 0)%N then return_zero (mkReader b (r_pos r) (data_in_buf r) (r_pc r) (returned r))
              else next_update (mkReader b 0 (N.to_nat data_read) (r_pc r) (returned r))
          end)
  | RetQuery => (s, set_pc r (RetOff (query_index s)))
  | RetOff q => (s, return_update r (marker_update (if (q <=? stream_off s)%N then NXT_QUERY else END_OF_FILE)))
  | Stopped _ | Failed _ => (s, r)
  end.

(** ** The threads together *)

Record Readers := mkReaders { stream : BinaryGraphStream_MT; readers : list MT_StreamReader }.

(** One access of thread [t]. *)
Definition readers_step (t : nat) (st : Readers) : Readers :=
  match readers st !! t with
  | Some r => let p := reader_step (stream st) r in mkReaders p.1 (<[t := p.2]> (readers st))
  | None => st
  end.

(** The threads run in the order [sched]. *)
Definition run_readers (sched : list nat) (st : Readers) : Readers :=
  foldl (λ st t, readers_step t st) st sched.

(** The threads go back to reading after a query. *)
Definition restart (st : Readers) : Readers :=
  mkReaders (stream st) ((λ r, set_pc r GetEdge) <$> readers st).
End threads.
