(* ===== verification/BinStreamSpec.v ===== *)
(** * The file of a stream, and one reader of it

    The bytes of a stream file and what a reader's buffer makes of them: calls of
    [BinaryGraphStream::get_edge] give the updates of the file in order. *)

From Stdlib Require Import NArith Lia.
From stdpp Require Import base list numbers.
From S2P Require Import Prelude Bytes BinStream.

Ltac sizes := unfold edge_size, header_size in *; cbn in *; lia.

(** ** The format *)

(** An insertion or a deletion of an edge of 32-bit nodes. *)
Definition data_update (u : GraphUpdate) : Prop :=
  (upd_src u < 2 ^ 32)%N ∧ (upd_dst u < 2 ^ 32)%N ∧ (upd_type u = INSERT ∨ upd_type u = DELETE).

#[global] Instance data_update_dec u : Decision (data_update u).
Proof. unfold data_update. apply _. Defined.

Definition encode_update (u : GraphUpdate) : list N :=
  upd_type u :: le_bytes 4 (upd_src u) ++ le_bytes 4 (upd_dst u).

Definition stream_file (nodes : N) (ups : list GraphUpdate) : list N :=
  le_bytes 4 nodes ++ le_bytes 8 (N.of_nat (length ups)) ++ (ups ≫= encode_update).

Lemma length_encode u : length (encode_update u) = edge_size.
Proof. unfold encode_update. cbn [length]. by rewrite length_app, !length_le_bytes. Qed.

Lemma length_encoded l : length (l ≫= encode_update) = length l * edge_size.
Proof.
  induction l as [|u l IH]; [done|]. rewrite bind_cons, length_app, length_encode, IH. cbn [length]. lia.
Qed.

Lemma length_stream_file nodes ups : length (stream_file nodes ups) = header_size + length ups * edge_size.
Proof. unfold stream_file. rewrite !length_app, !length_le_bytes, length_encoded. unfold header_size. lia. Qed.

Lemma drop_encoded i l : drop (i * edge_size) (l ≫= encode_update) = drop i l ≫= encode_update.
Proof.
  revert i. induction l as [|u l IH]; intros i; [by rewrite drop_nil; destruct (i * edge_size)|].
  destruct i as [|i]; [done|]. rewrite bind_cons. cbn [drop].
  rewrite drop_app_ge by (rewrite length_encode; sizes).
  rewrite length_encode. replace (S i * edge_size - edge_size) with (i * edge_size) by sizes. apply IH.
Qed.

Lemma take_encoded k l : take (k * edge_size) (l ≫= encode_update) = take k l ≫= encode_update.
Proof.
  revert k. induction l as [|u l IH]; intros k; [by rewrite take_nil; destruct (k * edge_size)|].
  destruct k as [|k]; [done|]. cbn [take]. rewrite !bind_cons.
  rewrite take_app_ge by (rewrite length_encode; sizes).
  rewrite length_encode. replace (S k * edge_size - edge_size) with (k * edge_size) by sizes. by rewrite IH.
Qed.

(** The bytes of a block of the file are those of its updates. *)
Lemma block_of_file nodes ups i k :
  take (k * edge_size) (drop (header_size + i * edge_size) (stream_file nodes ups)) = take k (drop i ups) ≫= encode_update.
Proof.
  rewrite <- drop_drop. unfold stream_file. rewrite (app_assoc (le_bytes 4 nodes)).
  rewrite (drop_app_length' (_ ++ _) _ header_size) by (by rewrite length_app, !length_le_bytes).
  by rewrite drop_encoded, take_encoded.
Qed.

(** ** Buffers *)

Lemma length_write_bytes b pos l : pos + length l ≤ length b → length (write_bytes b pos l) = length b.
Proof. intros H. unfold write_bytes. rewrite !length_app, length_take, length_drop. lia. Qed.

Lemma decode_encoded pre u post :
  data_update u → decode_update (pre ++ encode_update u ++ post) (length pre) = Ok u.
Proof.
  intros (Hs & Hd & _). unfold decode_update. rewrite decide_True by (rewrite !length_app, length_encode; lia).
  rewrite !drop_app_add, lookup_app_r, Nat.sub_diag by lia.
  unfold encode_update. cbn [app]. rewrite <- (app_assoc (le_bytes 4 (upd_src u))).
  replace 5 with (S (length (le_bytes 4 (upd_src u)))) by (by rewrite length_le_bytes).
  cbn [drop]. rewrite drop_0, drop_app_length.
  rewrite !take_app_length' by (by rewrite length_le_bytes).
  rewrite !of_le_bytes_le_bytes by done. by destruct u.
Qed.

(** The next [n] updates of a buffer. *)
Fixpoint parse (n : nat) (b : list N) (pos : nat) : list GraphUpdate :=
  match n with
  | O => []
  | S n => match decode_update b pos with Ok u => u :: parse n b (pos + edge_size) | Throw _ => [] end
  end.

Lemma parse_encoded l pre post :
  Forall data_update l → parse (length l) (pre ++ (l ≫= encode_update) ++ post) (length pre) = l.
Proof.
  revert pre. induction l as [|u l IH]; intros pre Hl; [done|].
  apply list.Forall_cons in Hl as [Hu Hl]. cbn [length parse]. rewrite bind_cons, <- app_assoc, decode_encoded by done.
  f_equal. rewrite (app_assoc pre). replace (length pre + edge_size) with (length (pre ++ encode_update u))
    by (by rewrite length_app, length_encode). by apply IH.
Qed.

Lemma decode_in_bounds b pos : pos + edge_size ≤ length b → ∃ u, decode_update b pos = Ok u.
Proof. intros H. unfold decode_update. rewrite decide_True by done. eauto. Qed.

(** ** One reader *)

Section one_reader.
Variables (file : list N) (io_error : nat → bool) (c : nat).
Hypothesis io_ok : ∀ p, io_error p = false.
Hypothesis c_pos : 1 ≤ c.

(** The updates [l] are what the file holds from the position of [f]. *)
Definition unread (f : ifstream) (l : list GraphUpdate) : Prop :=
  (ifs_good f = true ∧ drop (ifs_pos f) file = l ≫= encode_update) ∨
  (eofbit f = true ∧ l = []).

(** The buffer holds [l1] at the reader's position, the file [l2] after it. *)
Definition reads_split (s : BinaryGraphStream) (l1 l2 : list GraphUpdate) : Prop := ∃ pre post,
  start_buf s = pre ++ (l1 ≫= encode_update) ++ post ∧ length pre = buf s ∧
  length (start_buf s) = c * edge_size ∧ buf_size s = c * edge_size ∧ buf s < c * edge_size ∧
  unread (bin_file s) l2 ∧ (l2 ≠ [] → post = []) ∧ (l1 = [] → l2 = []).

(** [s] is to return the updates [l]. *)
Definition reads (s : BinaryGraphStream) (l : list GraphUpdate) : Prop :=
  ∃ l1 l2, l = l1 ++ l2 ∧ reads_split s l1 l2.

Lemma read_block f l :
  unread f l → ∃ f', ifs_read file io_error f (c * edge_size) = (f', take c l ≫= encode_update) ∧
                     ifs_fail f' && negb (eofbit f') = false ∧ unread f' (drop c l).
Proof.
  intros [[Hgood Hl]|[Heof ->]]; unfold ifs_read.
  - rewrite Hgood, io_ok. cbn [negb]. rewrite Hl, take_encoded. eexists. split; [done|].
    unfold unread, ifs_good, ifs_fail. cbn [eofbit failbit badbit ifs_pos].
    destruct (Nat.ltb_spec (length (take c l ≫= encode_update)) (c * edge_size)) as [Hshort|Hfull]; cbn; split; [done| |done|].
    + right. split; [done|]. rewrite length_encoded, length_take in Hshort. apply drop_ge. sizes.
    + left. split; [done|]. rewrite <- drop_drop, Hl.
      replace (length _) with (c * edge_size); [apply drop_encoded|].
      rewrite length_encoded, length_take in *. sizes.
  - unfold ifs_good. rewrite Heof. cbn [negb andb]. rewrite take_nil, drop_nil. eexists. split; [done|].
    cbn. split; [done|]. by right.
Qed.

Lemma refill s l :
  unread (bin_file s) l → length (start_buf s) = c * edge_size → buf_size s = c * edge_size →
  ∃ s', read_data file io_error s = Ok s' ∧ reads s' l ∧ num_nodes s' = num_nodes s ∧ num_edges s' = num_edges s.
Proof.
  intros Hl Hlen Hsize. destruct (read_block _ _ Hl) as (f' & Hread & Hfail & Hrest).
  unfold read_data. rewrite Hsize, Hread, Hfail. eexists. split; [done|]. split; [|done].
  assert (Hle : length (take c l ≫= encode_update) ≤ c * edge_size).
  { rewrite length_encoded, length_take. sizes. }
  exists (take c l), (drop c l). split; [by rewrite take_drop|].
  exists [], (drop (0 + length (take c l ≫= encode_update)) (start_buf s)). cbn [start_buf buf bin_file buf_size].
  rewrite length_write_bytes by lia. split_and!; try done.
  - sizes.
  - intros Hne. apply drop_ge. rewrite Hlen, length_encoded, length_take.
    assert (c < length l) by (apply Nat.nle_gt; intros Hge; apply Hne; by apply drop_ge). sizes.
  - intros Hnil. destruct l as [|u l]; [apply drop_nil|]. destruct c; [lia|done].
Qed.

Lemma get_edge_reads s u l :
  Forall data_update (u :: l) → reads s (u :: l) → ∃ s', get_edge file io_error s = Ok (u, s') ∧ reads s' l.
Proof.
  intros Hdata (l1 & l2 & Hsplit & pre & post & Hbuf & Hpre & Hlen & Hsize & Hlt & Hrest & Hpost & Hnil).
  destruct l1 as [|v l1]; [rewrite Hnil in Hsplit by done; done|]. injection Hsplit as <- ->.
  apply list.Forall_cons in Hdata as [Hu _]. rewrite bind_cons, <- app_assoc in Hbuf.
  unfold get_edge. rewrite Hbuf, <- Hpre, decode_encoded by done. cbn [mbind outcome_bind buf buf_size].
  rewrite <- Hbuf. assert (Htotal : buf s + edge_size + length l1 * edge_size + length post = c * edge_size).
  { rewrite <- Hlen, Hbuf, !length_app, length_encode, length_encoded. lia. }
  destruct (Nat.eqb_spec (length pre + edge_size) (buf_size s)) as [Hend|Hmore].
  - assert (l1 = []) as -> by (destruct l1; [done|sizes]).
    destruct (refill (mkStream (bin_file s) (length pre + edge_size) (start_buf s) (buf_size s) (num_nodes s) (num_edges s)) l2)
      as (s' & -> & Hreads & _); [done..|]. cbn [mbind outcome_bind]. by exists s'.
  - eexists. split; [done|]. exists l1, l2. split; [done|]. exists (pre ++ encode_update u), post.
    cbn [start_buf buf buf_size bin_file]. rewrite <- app_assoc, length_app, length_encode.
    split_and!; try done; [lia|]. intros ->. destruct l2 as [|x l2]; [done|]. rewrite Hpost in Htotal by done.
    cbn [length] in Htotal. lia.
Qed.

Lemma get_edges_reads l s :
  Forall data_update l → reads s l → ∃ s', get_edges file io_error (length l) s = Ok (l, s').
Proof.
  revert s. induction l as [|u l IH]; intros s Hl Hs; [by exists s|].
  destruct (get_edge_reads s u l Hl Hs) as (s1 & Hget & Hs1). apply list.Forall_cons in Hl as [_ Hl].
  destruct (IH s1 Hl Hs1) as [s2 Hrest]. exists s2. cbn [length get_edges]. rewrite Hget. cbn [mbind outcome_bind fst snd].
  by rewrite Hrest.
Qed.
End one_reader.

Lemma ifs_read_full file io_error f n l :
  (∀ p, io_error p = false) → ifs_good f = true → take n (drop (ifs_pos f) file) = l → length l = n →
  ifs_read file io_error f n = (mkIfs (ifs_pos f + n) false false false, l).
Proof. intros Hio Hgood Hl Hlen. unfold ifs_read. rewrite Hgood, Hio, Hl, Hlen. cbn [negb]. by rewrite Nat.ltb_irrefl. Qed.

(** Opening a stream file and reading its first block. *)
Lemma open_stream nodes ups io_error _b mem junk :
  (∀ p, io_error p = false) → (nodes < 2 ^ 32)%N → (N.of_nat (length ups) < 2 ^ 64)%N →
  edge_size ≤ _b → _b ≤ length mem →
  ∃ s, new_BinaryGraphStream (stream_file nodes ups) io_error true _b mem junk = Ok s ∧
       num_nodes s = nodes ∧ num_edges s = N.of_nat (length ups) ∧
       reads (stream_file nodes ups) (_b / edge_size) s ups.
Proof.
  intros Hio Hnodes Hups Hb Hmem. set (file := stream_file nodes ups).
  assert (Hsize : _b - _b mod edge_size = _b / edge_size * edge_size).
  { pose proof (Nat.div_mod_eq _b edge_size). lia. }
  unfold new_BinaryGraphStream. cbn [negb]. rewrite Hsize.
  rewrite (ifs_read_full _ _ _ 4 (le_bytes 4 nodes)); [|done|done|by apply take_app_length'|apply length_le_bytes].
  rewrite (ifs_read_full _ _ _ 8 (le_bytes 8 (N.of_nat (length ups)))); [|done|done| |apply length_le_bytes].
  2:{ cbn [ifs_pos]. subst file. unfold stream_file. rewrite drop_app_length' by done.
      by apply take_app_length'. }
  assert (Hword : ∀ k x, (x < 2 ^ (8 * N.of_nat k))%N → read_word (le_bytes k x) junk 0 k = x).
  { intros k x Hx. rewrite <- (app_nil_r (le_bytes k x)). by apply (read_word_ok []). }
  rewrite !Hword by done.
  edestruct (refill file io_error (_b / edge_size) Hio) as (s & Hs & Hreads & Hn & He).
  5: { exists s. split; [exact Hs|]. split; [exact Hn|]. split; [exact He|exact Hreads]. }
  - apply Nat.div_le_lower_bound; sizes.
  - left. split; [done|]. cbn [bin_file ifs_pos]. subst file. unfold stream_file. rewrite app_assoc.
    apply drop_app_length'. by rewrite length_app, !length_le_bytes.
  - cbn [start_buf]. rewrite length_take. pose proof (Nat.Div0.mul_div_le _b edge_size). lia.
  - done.
Qed.
