(* ===== verification/BinStreamMT.v ===== *)
(** * Threads that share a stream: the invariant

    What holds in every interleaving of the readers of a [BinaryGraphStream_MT]
    until a query, or the end of the file: the updates a thread holds are those of the
    blocks it claimed, and these with the blocks nobody claimed yet are the updates
    before the query. *)

From Stdlib Require Import NArith Lia.
From stdpp Require Import base list numbers.
From S2P Require Import Prelude Bytes BinStream BinStreamSpec.

(** The byte at which the update of an index starts, and back. *)
Definition pos (i : nat) : N := N.of_nat (header_size + i * edge_size).
Definition idx (off : N) : nat := (N.to_nat off - header_size) / edge_size.

Ltac psizes := unfold pos, edge_size, header_size in *; cbn [Nat.add Nat.mul] in *; lia.

Lemma idx_pos i : idx (pos i) = i.
Proof.
  unfold idx, pos. rewrite Nat2N.id, Nat.add_comm, Nat.add_sub. by apply Nat.div_mul.
Qed.

Lemma idx_ge i off : (pos i ≤ off)%N → i ≤ idx off.
Proof. intros H. unfold idx. apply Nat.div_le_lower_bound; psizes. Qed.

(** A thread that looked at the end of the file and has yet to claim a block. *)
Definition claiming (r : MT_StreamReader) : nat :=
  match r_pc r with RdOff | RdQuery _ | RdFetch => 1 | _ => 0 end.

Definition delivered (r : MT_StreamReader) : list GraphUpdate := filter data_update (returned r).

Definition running (r : MT_StreamReader) : bool := match r_pc r with Stopped _ | Failed _ => false | _ => true end.

Section shared.
(** The updates of the file, blocks of [c] of them, the index [q] of the query in
    bytes, the number [L] of updates before it, and [T] threads. *)
Variables (nodes : N) (ups : list GraphUpdate) (pread_count : N → N → option N) (c : nat) (q : N) (L T : nat).
Abbreviation file := (stream_file nodes ups).
Abbreviation m := (length ups).
Abbreviation bufsz := (N.of_nat (c * edge_size)).
Abbreviation E := (pos m + bufsz * N.of_nat T)%N.

(** The updates from an offset up to the query, and those of the block there. *)
Definition from (off : N) : list GraphUpdate := drop (idx off) (take L ups).
Definition block (read_off : N) : list GraphUpdate := take c (from read_off).

(** The updates a thread has claimed and not yet returned. *)
Definition held (r : MT_StreamReader) : list GraphUpdate :=
  match r_pc r with
  | GetEdge => parse ((data_in_buf r - r_pos r) / edge_size) (r_buf r) (r_pos r)
  | RdPast o | RdTrunc1 o | RdTrunc2 o | RdTrunc3 o | RdTrunc4 o _ | RdTruncStore o _ _ | RdRead o _ => block o
  | _ => []
  end.

(** A thread that is to set the offset back to the query. *)
Definition setting_back (r : MT_StreamReader) : Prop :=
  match r_pc r with
  | RdPast o | RdTrunc1 o | RdTrunc2 o => (q < o + bufsz)%N
  | RdPastLoad | RdPastStore _ | RdTrunc3 _ | RdTrunc4 _ _ | RdTruncStore _ _ _ => True
  | _ => False
  end.

#[global] Instance setting_back_dec r : Decision (setting_back r).
Proof. unfold setting_back. destruct (r_pc r); apply _. Defined.

(** A block that was claimed when the offset is [off]. *)
Definition claimed (off o : N) : Prop :=
  ((∃ i, o = pos i) ∨ pos L ≤ o)%N ∧ (o + bufsz ≤ off ∨ q ≤ off)%N ∧ (o + bufsz ≤ E)%N.

Definition thread_ok (off : N) (r : MT_StreamReader) : Prop :=
  length (r_buf r) = c * edge_size ∧
  match r_pc r with
  | GetEdge =>
      data_in_buf r ≤ c * edge_size ∧
      (data_in_buf r ≤ r_pos r ∨ ∃ n, data_in_buf r = r_pos r + n * edge_size) ∧ Forall data_update (held r)
  | RdBlock | RdEof | RdOff | RdFetch => True
  | RdQuery v => (v ≤ off ∨ q ≤ off)%N
  | RdPast o => claimed off o
  | RdPastLoad => (q ≤ off)%N
  | RdPastStore v => v = q ∧ (q ≤ off)%N
  | RdTrunc1 o | RdTrunc2 o => claimed off o ∧ (o < q ∧ o < pos m)%N
  | RdTrunc3 o => claimed off o ∧ (o < q < o + bufsz ∧ o < pos m)%N
  | RdTrunc4 o d => claimed off o ∧ (o < q < o + bufsz ∧ o < pos m ∧ d = q - o)%N
  | RdTruncStore o d v => claimed off o ∧ (o < q < o + bufsz ∧ o < pos m ∧ d = q - o ∧ v = q)%N
  | RdRead o d =>
      claimed off o ∧ (o < q ∧ o < pos m ∧ (d = bufsz ∧ o + bufsz ≤ q ∨ d = q - o ∧ q < o + bufsz))%N
  | RetQuery => data_in_buf r = 0 ∧ (pos L ≤ off)%N
  | RetOff v => data_in_buf r = 0 ∧ v = q ∧ (pos L ≤ off)%N
  | Stopped k =>
      data_in_buf r = 0 ∧ (pos L ≤ off)%N ∧ ((q ≤ pos m)%N → k = NXT_QUERY) ∧ (q = no_query → k = END_OF_FILE)
  | Failed _ => False
  end.

Definition stream_ok (s : BinaryGraphStream_MT) : Prop :=
  mt_buf_size s = bufsz ∧ end_of_file s = pos m ∧ query_index s = q ∧ query_block s = false ∧
  ((∃ i, stream_off s = pos i) ∨ pos L ≤ stream_off s)%N.

(** How the offset moves: up, or back to the query. *)
Definition moves (off off' : N) : Prop := (off ≤ off' ∨ q ≤ off ∧ off' = q)%N.

(** What is left of a thread's work. *)
Definition rank (r : MT_StreamReader) : nat :=
  match r_pc r with
  | Stopped _ | Failed _ => 0
  | RetOff _ => 1
  | RetQuery => 2
  | RdPastStore _ => 3
  | RdPastLoad => 4
  | RdPast o => if length (block o) =? 0 then 5 else 26 + length (block o)
  | RdFetch => 6
  | RdQuery _ => 7
  | RdOff => 8
  | RdEof => 9
  | RdBlock => 10
  | GetEdge => 11 + length (held r)
  | RdRead o _ => 20 + length (block o)
  | RdTruncStore o _ _ => 21 + length (block o)
  | RdTrunc4 o _ => 22 + length (block o)
  | RdTrunc3 o => 23 + length (block o)
  | RdTrunc2 o => 24 + length (block o)
  | RdTrunc1 o => 25 + length (block o)
  end.

Hypothesis ups_ok : Forall data_update ups.
Hypothesis c_pos : 1 ≤ c.
Hypothesis c_word : (bufsz < 2 ^ 32)%N.
Hypothesis L_le : L ≤ m.
Hypothesis L_query : pos L = N.min q (pos m).
Hypothesis q_word : (q < 2 ^ 64)%N.
Hypothesis no_wrap : (E < no_query)%N.
Hypothesis full_reads : ∀ off n, (off + n ≤ N.of_nat (length file))%N → pread_count off n = Some n.

Lemma from_past off : (pos L ≤ off)%N → from off = [].
Proof. intros H. apply drop_ge. rewrite length_take. pose proof (idx_ge _ _ H). lia. Qed.

Lemma from_split off : ((∃ i, off = pos i) ∨ pos L ≤ off)%N → from off = block off ++ from (off + bufsz).
Proof.
  intros [[i ->]|H].
  - unfold block, from. assert (Hsum : (pos i + bufsz)%N = pos (i + c)) by psizes.
    rewrite Hsum, !idx_pos, <- drop_drop. symmetry. apply take_drop.
  - unfold block. rewrite !from_past by psizes. by destruct c.
Qed.

Lemma length_block i : length (block (pos i)) = c `min` (L - i).
Proof. unfold block, from. rewrite idx_pos, length_take, length_drop, length_take. lia. Qed.

Lemma block_data o : Forall data_update (block o).
Proof. by apply list.Forall_take, list.Forall_drop, list.Forall_take. Qed.

Lemma moves_claimed off off' o : moves off off' → claimed off o → claimed off' o.
Proof. unfold moves, claimed. intros H (H1 & H2 & H3). split_and!; [done| |done]. lia. Qed.

Lemma moves_ok off off' r : moves off off' → thread_ok off r → thread_ok off' r.
Proof.
  intros Hm [Hlen Hr]. split; [done|]. pose proof (λ o, moves_claimed off off' o Hm) as Hc.
  destruct (r_pc r); unfold moves in Hm; intuition (try lia); eauto.
Qed.

(** ** One access of one thread *)

(** The read of a block fills the buffer with the updates of the block. *)
Lemma pread_block b o d :
  length b = c * edge_size → (∃ i, o = pos i) → (o < q)%N → (o < pos m)%N →
  (d = bufsz ∧ o + bufsz ≤ q ∨ d = q - o ∧ q < o + bufsz)%N →
  let d' := (if (pos m <? wrap 64 (o + d))%N then wsub 64 (pos m) o else d) in
  d' = N.of_nat (length (block o) * edge_size) ∧ 1 ≤ length (block o) ∧
  ∃ b', pread_loop file pread_count (S (N.to_nat d')) o d' 0 b = Ok (b', d') ∧
        length b' = c * edge_size ∧ parse (length (block o)) b' 0 = block o.
Proof.
  intros Hb [i ->] Hq Hend Hd d'. rewrite length_block.
  assert (Hd' : d' = N.of_nat ((c `min` (L - i)) * edge_size)).
  { subst d'. assert (pos i + d < 2 ^ 64)%N by (unfold no_query in *; psizes). rewrite wrap_small by done.
    destruct (N.ltb_spec (pos m) (pos i + d)); [rewrite wsub_small by (unfold no_query in *; psizes)|]; psizes. }
  assert (Hone : 1 ≤ c `min` (L - i)) by psizes.
  split; [done|]. split; [done|].
  pose proof (length_stream_file nodes ups) as Hfile.
  set (l := block (pos i)).
  assert (Hl : take (N.to_nat d') (drop (N.to_nat (pos i + 0)) file) = l ≫= encode_update).
  { rewrite N.add_0_r, Hd', Nat2N.id. unfold pos. rewrite Nat2N.id, block_of_file. f_equal.
    subst l. unfold block, from. rewrite idx_pos.
    by rewrite skipn_firstn_comm, take_take. }
  exists (write_bytes b 0 (l ≫= encode_update)).
  assert (Hlen : length (l ≫= encode_update) ≤ length b).
  { rewrite length_encoded. subst l. rewrite length_block. psizes. }
  split; [|split].
  - cbn [pread_loop]. destruct (N.ltb_spec 0 d'); [|psizes].
    rewrite full_reads by (rewrite Hfile; psizes). rewrite Hl.
    destruct (N.to_nat d') as [|k]; cbn [pread_loop]; (destruct (N.ltb_spec (0 + d') d'); [lia|done]).
  - by rewrite length_write_bytes.
  - unfold write_bytes. cbn [take app Nat.add]. rewrite <- length_block. fold l.
    apply (parse_encoded l []). apply block_data.
Qed.

(** A call that finds an update in the buffer returns it. *)
Lemma next_update_ok r n :
  length (r_buf r) = c * edge_size → data_in_buf r ≤ c * edge_size → data_in_buf r = r_pos r + S n * edge_size →
  Forall data_update (parse (S n) (r_buf r) (r_pos r)) →
  ∃ u, parse (S n) (r_buf r) (r_pos r) = u :: parse n (r_buf r) (r_pos r + edge_size) ∧ data_update u ∧
       next_update r = mkReader (r_buf r) (r_pos r + edge_size) (data_in_buf r) GetEdge (returned r ++ [u]).
Proof.
  intros Hb Hle Hn Hdata. cbn [parse] in *. unfold next_update.
  destruct (decode_in_bounds (r_buf r) (r_pos r)) as [u Hu]; [sizes|]. rewrite Hu in *.
  apply list.Forall_cons in Hdata as [Hu' _]. exists u. split; [done|]. split; [done|].
  unfold return_update. destruct Hu' as (_ & _ & [-> | ->]); done.
Qed.

(** What a step of a thread does to the stream and to the thread: it keeps what is
    known of both; the updates returned, held and not yet claimed stay the same; at
    most one block is claimed per look at the end of the file; a running thread has
    less to do; and an offset past the query is some thread's to set back. *)
Definition step_spec (s : BinaryGraphStream_MT) (r : MT_StreamReader) (p : BinaryGraphStream_MT * MT_StreamReader) : Prop :=
  let off := stream_off s in let off' := stream_off p.1 in
  stream_ok p.1 ∧ thread_ok off' p.2 ∧ moves off off' ∧
  delivered p.2 ++ held p.2 ++ from off' = delivered r ++ held r ++ from off ∧
  (off' + bufsz * N.of_nat (claiming p.2) ≤ off + bufsz * N.of_nat (claiming r) ∨
   off' = off ∧ off < pos m ∧ claiming r = 0%nat ∧ claiming p.2 = 1%nat)%N ∧
  (running r = true → rank p.2 + 40 * length (from off') < rank r + 40 * length (from off)) ∧
  ((q ≤ pos m)%N → (off' ≤ q)%N ∨ setting_back p.2 ∨ off' = off ∧ ¬ setting_back r).

Lemma quiet_step s r r' :
  stream_ok s → thread_ok (stream_off s) r' → delivered r' ++ held r' = delivered r ++ held r →
  claiming r' ≤ claiming r ∨ (stream_off s < pos m)%N ∧ claiming r = 0 ∧ claiming r' = 1 →
  rank r' < rank r → ((q ≤ pos m)%N → setting_back r → setting_back r') → step_spec s r (s, r').
Proof.
  intros Hs Hr Heq Hclaim Hrank Hback. unfold step_spec. cbn [fst snd].
  split; [done|]. split; [done|]. split; [left; lia|]. split; [by rewrite !app_assoc, Heq|].
  split; [|split; [intros _; lia|]].
  - destruct Hclaim as [Hle|Hnew]; [left|right; tauto]. apply N.add_le_mono_l, N.mul_le_mono_l. lia.
  - intros Hle. destruct (decide (setting_back r)) as [Hd|Hd]; [right; left; auto|right; right; done].
Qed.

(** A refill with no shared access: the thread returns 0. *)
Lemma zero_step s r b :
  stream_ok s → length b = c * edge_size → held r = [] → (pos L ≤ stream_off s)%N → 2 < rank r →
  ((q ≤ pos m)%N → ¬ setting_back r) → step_spec s r (s, return_zero (mkReader b (r_pos r) (data_in_buf r) (r_pc r) (returned r))).
Proof.
  intros Hs Hb Hheld HL Hrank Hback. apply quiet_step; [done|done| |left; cbn; lia|done|intros Hle Hset; by destruct (Hback Hle)].
  by rewrite Hheld.
Qed.

Lemma get_edge_step s r :
  stream_ok s → thread_ok (stream_off s) r → r_pc r = GetEdge →
  step_spec s r (s, if data_in_buf r <=? r_pos r then set_pc r RdBlock else next_update r).
Proof.
  intros Hs [Hlen Hr] Hpc. rewrite Hpc in Hr. destruct Hr as (Hle & Hn & Hdata).
  destruct (Nat.leb_spec (data_in_buf r) (r_pos r)) as [Hempty|Hsome].
  - assert (Hheld : held r = []).
    { unfold held. rewrite Hpc. replace (data_in_buf r - r_pos r) with 0 by lia. done. }
    apply quiet_step; [done|done|by rewrite Hheld| | |unfold setting_back; rewrite Hpc; tauto].
    + left. unfold claiming. cbn. lia.
    + unfold rank. rewrite Hpc. cbn. lia.
  - destruct Hn as [Hn|[[|n] Hn]]; [lia|sizes|].
    assert (Hheld : held r = parse (S n) (r_buf r) (r_pos r)).
    { unfold held. rewrite Hpc. f_equal. rewrite Hn. replace (_ - _) with (S n * edge_size) by lia. by apply Nat.div_mul. }
    rewrite Hheld in Hdata. destruct (next_update_ok r n Hlen Hle Hn Hdata) as (u & Hu & Hdu & ->).
    rewrite Hu in Hdata. apply list.Forall_cons in Hdata as [_ Hdata].
    set (r' := mkReader _ _ _ _ _).
    assert (Hheld' : held r' = parse n (r_buf r) (r_pos r + edge_size)).
    { unfold held. cbn [r_pc r' data_in_buf r_pos r_buf]. f_equal. rewrite Hn.
      replace (_ - _) with (n * edge_size) by sizes. by apply Nat.div_mul. }
    apply quiet_step; [done| | | | |unfold setting_back; rewrite Hpc; tauto].
    + split; [done|]. cbn [r_pc r' data_in_buf r_pos]. rewrite Hheld'. split; [done|]. split; [|done].
      right. exists n. rewrite Hn. sizes.
    + rewrite Hheld', Hheld, Hu. unfold delivered. cbn [returned r']. rewrite list.filter_app, <- app_assoc.
      by rewrite filter_cons_True.
    + left. unfold claiming. cbn. lia.
    + unfold rank. rewrite Hpc, Hheld, Hu. cbn [r_pc r']. rewrite Hheld'. cbn [length]. lia.
Qed.

(** The fetch-and-add claims the block at the offset. *)
Lemma fetch_step s r :
  stream_ok s → thread_ok (stream_off s) r → (stream_off s + bufsz ≤ E)%N → r_pc r = RdFetch →
  step_spec s r (set_stream_off s (wrap 64 (stream_off s + mt_buf_size s)), set_pc r (RdPast (stream_off s))).
Proof.
  intros (Hbuf & Hend & Hq & Hblock & Hal) [Hlen Hr] HE Hpc. rewrite Hbuf, wrap_small by (unfold no_query in *; lia).
  pose proof (from_split _ Hal) as Hsplit. set (off := stream_off s) in *.
  unfold step_spec. cbn [fst snd set_stream_off stream_off]. fold off.
  assert (Hal' : ((∃ i, off + bufsz = pos i) ∨ pos L ≤ off + bufsz)%N).
  { destruct Hal as [[i ->]|H]; [left; exists (i + c); psizes|right; lia]. }
  split; [by split_and!|]. split; [|split; [left; lia|split; [|split; [|split]]]].
  - split; [done|]. change (claimed (off + bufsz) off). split; [done|]. split; [left; lia|done].
  - change (delivered (set_pc r _)) with (delivered r). unfold held at 2. rewrite Hpc, Hsplit. done.
  - left. unfold claiming. rewrite Hpc. cbn. lia.
  - intros _. assert (Hlens : length (from off) = length (block off) + length (from (off + bufsz))).
    { by rewrite Hsplit, length_app at 1. }
    unfold rank. rewrite Hpc. cbn [r_pc set_pc]. destruct (Nat.eqb_spec (length (block off)) 0); lia.
  - intros _. destruct (N.le_gt_cases (off + bufsz) q); [by left|]. right. left. change (q < off + bufsz)%N. lia.
Qed.

(** Setting the offset to the query. *)
Lemma store_step s r r' :
  stream_ok s → thread_ok (stream_off s) r → thread_ok q r' → (q ≤ stream_off s)%N →
  delivered r' ++ held r' = delivered r ++ held r → claiming r' = 0 → rank r' < rank r →
  step_spec s r (set_stream_off s q, r').
Proof.
  intros (Hbuf & Hend & Hq & Hblock & Hal) Hr Hr' Hle Heq Hclaim Hrank.
  assert (HL : (pos L ≤ q)%N) by lia.
  unfold step_spec. cbn [fst snd set_stream_off stream_off]. rewrite (from_past q), (from_past (stream_off s)), !app_nil_r by lia.
  split; [by split_and!; try done; right|]. split; [done|]. split; [right; done|]. split; [done|].
  split; [left; lia|]. split; [intros _; lia|]. intros _. by left.
Qed.

(** After the read of its block a thread returns the first update of it. *)
Lemma read_step s r o d :
  stream_ok s → thread_ok (stream_off s) r → r_pc r = RdRead o d →
  step_spec s r (reader_step file pread_count s r).
Proof.
  intros Hs [Hlen Hr] Hpc. rewrite Hpc in Hr. destruct Hr as ((Hal & Hcl) & Hq & Hend & Hd).
  pose proof Hs as (_ & Hsend & _).
  assert (Hpos : ∃ i, o = pos i) by (destruct Hal as [?|?]; [done|lia]).
  destruct (pread_block (r_buf r) o d Hlen Hpos Hq Hend Hd) as (Hd' & Hone & b' & Hloop & Hlen' & Hparse).
  unfold reader_step. rewrite Hpc, Hsend. cbv zeta in *. rewrite Hloop. cbv beta iota zeta.
  set (d' := if (_ <? _)%N then _ else _) in *. clearbody d'. subst d'.
  set (k := length (block o)) in *.
  assert (Hk : k ≤ c) by (subst k; unfold block; rewrite length_take; lia).
  rewrite wrap_small by psizes. destruct (N.eqb_spec (N.of_nat (k * edge_size)) 0); [psizes|].
  rewrite Nat2N.id. destruct k as [|k'] eqn:Hk'; [lia|].
  destruct (next_update_ok (mkReader b' 0 (S k' * edge_size) (r_pc r) (returned r)) k') as (u & Hu & Hdu & Hnext);
    [done|cbn; sizes|cbn; sizes|cbn [r_buf r_pos]; rewrite Hparse; apply block_data|].
  cbn [r_buf r_pos data_in_buf returned] in Hu, Hnext. rewrite Hpc in Hnext. rewrite Hnext.
  rewrite Hparse in Hu. pose proof (block_data o) as Hdata. rewrite Hu in Hdata. apply list.Forall_cons in Hdata as [_ Hdata].
  set (r' := mkReader _ _ _ _ _).
  assert (Hheld : held r' = parse k' b' (0 + edge_size)).
  { unfold held. cbn [r_pc r' data_in_buf r_pos r_buf]. f_equal. replace (_ - _) with (k' * edge_size) by sizes.
    by apply Nat.div_mul. }
  apply quiet_step; [done| | |left; unfold claiming; cbn; lia| |unfold setting_back; rewrite Hpc; tauto].
  - split; [done|]. cbn [r_pc r' data_in_buf r_pos]. rewrite Hheld. split; [sizes|]. split; [|done].
    right. exists k'. sizes.
  - rewrite Hheld. unfold held. rewrite Hpc, Hu. unfold delivered. cbn [returned r'].
    rewrite list.filter_app, <- app_assoc. by rewrite filter_cons_True.
  - unfold rank. rewrite Hpc. cbn [r_pc r']. rewrite Hheld.
    assert (length (u :: parse k' b' (0 + edge_size)) = S k') as Hl by (rewrite <- Hu; done). cbn [length] in Hl. lia.
Qed.

(** A step that only moves the thread on. *)
Lemma set_pc_step s r p :
  stream_ok s → thread_ok (stream_off s) (set_pc r p) → held (set_pc r p) = held r →
  claiming (set_pc r p) ≤ claiming r ∨ (stream_off s < pos m)%N ∧ claiming r = 0 ∧ claiming (set_pc r p) = 1 →
  rank (set_pc r p) < rank r → ((q ≤ pos m)%N → setting_back r → setting_back (set_pc r p)) →
  step_spec s r (s, set_pc r p).
Proof. intros Hs Hr Hheld Hc Hrank Hback. apply quiet_step; try done. by rewrite Hheld. Qed.

Lemma return_zero_step s r :
  stream_ok s → length (r_buf r) = c * edge_size → held r = [] → (pos L ≤ stream_off s)%N → 2 < rank r →
  ((q ≤ pos m)%N → ¬ setting_back r) → step_spec s r (s, return_zero r).
Proof. intros. by apply (zero_step s r (r_buf r)). Qed.

(** The end of a thread's loop. *)
Lemma marker_step s r v :
  stream_ok s → thread_ok (stream_off s) r → (stream_off s ≤ E)%N → r_pc r = RetOff v →
  step_spec s r (s, return_update r (marker_update (if (v <=? stream_off s)%N then NXT_QUERY else END_OF_FILE))).
Proof.
  intros Hs [Hlen Hr] HE Hpc. rewrite Hpc in Hr. destruct Hr as (Hdata & -> & HL).
  set (k := if (q <=? stream_off s)%N then NXT_QUERY else END_OF_FILE).
  assert (Hk : return_update r (marker_update k) =
    mkReader (r_buf r) (r_pos r) (data_in_buf r) (Stopped k) (returned r ++ [marker_update k])).
  { unfold return_update. subst k. by destruct (q <=? stream_off s)%N. }
  rewrite Hk. apply quiet_step; [done| | |left; cbn; lia| |unfold setting_back; rewrite Hpc; tauto].
  - split; [done|]. cbn [r_pc data_in_buf]. split; [done|]. split; [done|]. subst k.
    destruct (N.leb_spec q (stream_off s)); split; intros; [done|lia|lia|done].
  - unfold held. rewrite Hpc. cbn [r_pc]. rewrite !app_nil_r. unfold delivered. cbn [returned].
    rewrite list.filter_app, filter_cons_False, filter_nil, app_nil_r; [done|].
    intros (_ & _ & Htype). subst k. cbn in Htype. by destruct (q <=? stream_off s)%N, Htype.
  - unfold rank. rewrite Hpc. cbn. lia.
Qed.

Lemma stopped_step s r k :
  stream_ok s → thread_ok (stream_off s) r → r_pc r = Stopped k → step_spec s r (s, r).
Proof.
  intros Hs Hr Hpc. unfold step_spec. cbn [fst snd]. split_and!; try done; [left; lia|left; lia| |].
  - unfold running. by rewrite Hpc.
  - intros _. right. right. split; [done|]. unfold setting_back. rewrite Hpc. tauto.
Qed.

(** What the step of a thread at [p] needs to know of it. *)
Ltac move_on Hpc := apply set_pc_step;
  [done|split; [done|]; cbn [set_pc r_pc]|unfold held; rewrite Hpc; cbn [set_pc r_pc]; try done
  |unfold claiming; rewrite Hpc; cbn [set_pc r_pc]; try (left; lia)
  |unfold rank; rewrite Hpc; cbn [set_pc r_pc]; try lia
  |unfold setting_back; rewrite Hpc; cbn [set_pc r_pc]; try tauto].

(** Past the query: the thread is to set the offset back. *)
Lemma past_step s r o :
  stream_ok s → thread_ok (stream_off s) r → r_pc r = RdPast o →
  step_spec s r (s, if (query_index s <=? o)%N then set_pc r RdPastLoad
                    else if (end_of_file s <=? o)%N then return_zero r else set_pc r (RdTrunc1 o)).
Proof.
  intros Hs [Hlen Hr] Hpc. rewrite Hpc in Hr. destruct Hr as (Hal & Hcl & HE).
  pose proof Hs as (_ & -> & -> & _).
  assert (Hnone : (pos L ≤ o)%N → block o = []) by (intros HL; unfold block; rewrite from_past by done; by destruct c).
  destruct (N.leb_spec q o); [|destruct (N.leb_spec (pos m) o)].
  - move_on Hpc; [lia|rewrite Hnone by lia; done|]. destruct (Nat.eqb_spec (length (block o)) 0); lia.
  - apply return_zero_step; [done|done|unfold held; rewrite Hpc; apply Hnone; lia|lia| |lia].
    unfold rank. rewrite Hpc. destruct (Nat.eqb_spec (length (block o)) 0); lia.
  - destruct Hal as [[i ->]|?]; [|lia].
    assert (1 ≤ length (block (pos i))) by (rewrite length_block; psizes).
    move_on Hpc; [|destruct (Nat.eqb_spec (length (block (pos i))) 0); lia].
    split; [|done]. split; [left; by exists i|done].
Qed.

Theorem reader_step_ok s r :
  stream_ok s → thread_ok (stream_off s) r → (stream_off s + bufsz * N.of_nat (claiming r) ≤ E)%N →
  step_spec s r (reader_step file pread_count s r).
Proof.
  intros Hs Hr HE. pose proof Hr as [Hlen Hpcok]. pose proof Hs as (Hbuf & Hend & Hq & Hblock & Hal).
  destruct (r_pc r) eqn:Hpc; cycle 14; [by apply read_step with read_off data_to_read|..]; cycle -14;
    unfold reader_step; rewrite Hpc; try rewrite Hq.
  - by apply get_edge_step.
  - rewrite Hblock. by move_on Hpc.
  - rewrite Hend. destruct (N.leb_spec (pos m) (stream_off s)).
    + apply return_zero_step; [done|done|unfold held; by rewrite Hpc|lia|unfold rank; rewrite Hpc; lia|].
      intros _. unfold setting_back. rewrite Hpc. tauto.
    + move_on Hpc; [done|]. right. lia.
  - move_on Hpc. left. lia.
  - destruct (N.leb_spec q off).
    + apply return_zero_step; [done|done|unfold held; by rewrite Hpc|lia|unfold rank; rewrite Hpc; lia|].
      intros _. unfold setting_back. rewrite Hpc. tauto.
    + by move_on Hpc.
  - apply fetch_step; try done. unfold claiming in HE. rewrite Hpc in HE. lia.
  - rewrite <- Hq. by apply past_step.
  - move_on Hpc. done.
  - destruct Hpcok as [-> Hle]. apply store_step; try done; [|unfold held; by rewrite Hpc|unfold rank; rewrite Hpc; cbn; lia].
    split; [done|]. cbn. split; [done|lia].
  - destruct Hpcok as (Hcl & Ho & Hm). rewrite (proj2 (N.leb_le _ _)) by lia. move_on Hpc. split; [done|lia].
  - destruct Hpcok as (Hcl & Ho & Hm). rewrite Hbuf, wrap_small by (destruct Hcl as (_ & _ & ?); unfold no_query in *; lia).
    destruct (N.ltb_spec q (read_off + bufsz)); move_on Hpc; [split; [done|lia]| |lia].
    split; [done|]. split; [done|]. split; [done|]. by left.
  - destruct Hpcok as (Hcl & Ho & Hm). rewrite wsub_small by lia. move_on Hpc. split; [done|lia].
  - destruct Hpcok as (Hcl & Ho & Hm & Hd). move_on Hpc. split; [done|lia].
  - destruct Hpcok as (Hcl & Ho & Hm & -> & ->). pose proof Hcl as (Hc1 & Hc2 & Hc3).
    apply store_step; try done; [|lia|unfold held; by rewrite Hpc|unfold rank; rewrite Hpc; cbn [set_pc r_pc]; lia].
    split; [done|]. cbn [set_pc r_pc]. split; [|split; [lia|split; [done|right; lia]]].
    split; [done|]. split; [by right|done].
  - destruct Hpcok as [Hdata HL]. move_on Hpc. done.
  - apply marker_step; try done. lia.
  - by apply stopped_step with marker.
  - done.
Qed.
(** ** All threads *)

Definition readers_ok (st : Readers) : Prop :=
  let off := stream_off (stream st) in
  length (readers st) = T ∧ stream_ok (stream st) ∧
  (∀ t r, readers st !! t = Some r → thread_ok off r) ∧
  (off + bufsz * N.of_nat (sum_list_with claiming (readers st)) ≤ E)%N ∧
  ((q ≤ pos m)%N → (off ≤ q)%N ∨ ∃ t r, readers st !! t = Some r ∧ setting_back r).

(** What the threads returned or hold and what is not yet claimed. *)
Definition contents (st : Readers) : list GraphUpdate :=
  concat ((λ r, delivered r ++ held r) <$> readers st) ++ from (stream_off (stream st)).

Definition work (st : Readers) : nat :=
  sum_list_with rank (readers st) + 40 * length (from (stream_off (stream st))).

Lemma claiming_sum l : sum_list_with claiming l ≤ length l.
Proof.
  induction l as [|r l IH]; [done|]. cbn [sum_list_with length].
  assert (claiming r ≤ 1) by (unfold claiming; destruct (r_pc r); lia). lia.
Qed.

Lemma from_moves off off' : moves off off' → from off' `sublist_of` from off.
Proof.
  intros [Hle|[_ ->]].
  - unfold from. assert (idx off ≤ idx off') by (apply Nat.Div0.div_le_mono; lia).
    replace (idx off') with (idx off + (idx off' - idx off)) by lia. rewrite <- drop_drop. apply sublist_drop.
  - rewrite (from_past q) by lia. apply sublist_nil_l.
Qed.

Lemma concat_insert {A B} (f : A → list B) (l : list A) t a b X Y :
  l !! t = Some a → f b ++ X ≡ₚ f a ++ Y → concat (f <$> <[t := b]> l) ++ X ≡ₚ concat (f <$> l) ++ Y.
Proof.
  revert t. induction l as [|x l IH]; intros [|t] Hl Hp; simplify_eq/=.
  - rewrite <- !app_assoc. rewrite (Permutation_app_comm (concat _) X), (Permutation_app_comm (concat _) Y), !app_assoc.
    by rewrite Hp.
  - rewrite <- !app_assoc. by rewrite (IH t Hl Hp).
Qed.

Lemma readers_step_spec t st r :
  readers_ok st → readers st !! t = Some r →
  step_spec (stream st) r (reader_step file pread_count (stream st) r).
Proof.
  intros (Hlen & Hs & Hthreads & HE & Hback) Hr. apply reader_step_ok; [done|by apply (Hthreads t)|].
  pose proof (sum_list_with_insert claiming _ _ _ (mkReader [] 0 0 GetEdge []) Hr) as Hsum. cbn in Hsum.
  etrans; [|exact HE]. apply N.add_le_mono_l, N.mul_le_mono_l. lia.
Qed.

Lemma readers_step_ok t st : readers_ok st → readers_ok (readers_step file pread_count t st).
Proof.
  intros Hok. unfold readers_step. destruct (readers st !! t) as [r|] eqn:Hr; [|done].
  pose proof (readers_step_spec t st r Hok Hr) as Hspec. destruct Hok as (Hlen & Hs & Hthreads & HE & Hback).
  destruct (reader_step _ _ _ _) as [s' r']. cbn [fst snd] in *.
  destruct Hspec as (Hs' & Hr' & Hmoves & _ & Hclaim & _ & Hset). cbn [fst snd] in *.
  pose proof (sum_list_with_insert claiming _ _ _ r' Hr) as Hsum.
  assert (Ht : t < length (readers st)) by (by eapply lookup_lt_Some).
  unfold readers_ok. cbn [stream readers]. split; [by rewrite length_insert|]. split; [done|]. split; [|split].
  - intros u x Hx. destruct (decide (u = t)) as [->|Hne].
    + rewrite list_lookup_insert_eq in Hx by done. by injection Hx as <-.
    + rewrite list_lookup_insert_ne in Hx by done. eapply moves_ok; [exact Hmoves|by eapply Hthreads].
  - set (sum := sum_list_with claiming (readers st)) in *. set (sum' := sum_list_with claiming (<[t := r']> (readers st))) in *.
    destruct Hclaim as [Hle|(-> & Hlt & Hc0 & Hc1)].
    + assert (Hdist : ∀ a b, (bufsz * N.of_nat (a + b) = bufsz * N.of_nat a + bufsz * N.of_nat b)%N) by (intros; lia).
      pose proof (f_equal (λ x, bufsz * N.of_nat x)%N Hsum) as Hmul. cbn beta in Hmul. rewrite !Hdist in Hmul. lia.
    + assert (Hbound : sum' ≤ T).
      { subst sum'. etrans; [apply claiming_sum|]. rewrite length_insert. lia. }
      apply N.add_le_mono; [lia|]. apply N.mul_le_mono_l. lia.
  - intros Hle. destruct (Hset Hle) as [?|[?|[-> Hnot]]]; [by left| |].
    + right. exists t, r'. by rewrite list_lookup_insert_eq.
    + destruct (Hback Hle) as [?|(u & x & Hu & Hx)]; [by left|]. right. exists u, x. split; [|done].
      rewrite list_lookup_insert_ne; [done|]. intros ->. rewrite Hr in Hu. by injection Hu as ->.
Qed.

Lemma readers_step_contents t st :
  readers_ok st → contents (readers_step file pread_count t st) ≡ₚ contents st.
Proof.
  intros Hok. unfold readers_step. destruct (readers st !! t) as [r|] eqn:Hr; [|done].
  destruct (readers_step_spec t st r Hok Hr) as (_ & _ & _ & Heq & _).
  unfold contents. cbn [stream readers]. eapply concat_insert; [exact Hr|]. by rewrite <- !app_assoc, Heq.
Qed.

Lemma readers_step_order t st u x x' :
  readers_ok st → readers st !! u = Some x → readers (readers_step file pread_count t st) !! u = Some x' →
  (delivered x' ++ held x' ++ from (stream_off (stream (readers_step file pread_count t st)))) `sublist_of`
  (delivered x ++ held x ++ from (stream_off (stream st))).
Proof.
  intros Hok Hx. unfold readers_step. destruct (readers st !! t) as [r|] eqn:Hr; [|by intros; simplify_eq].
  destruct (readers_step_spec t st r Hok Hr) as (_ & _ & Hmoves & Heq & _). cbn [stream readers].
  destruct (decide (u = t)) as [->|Hne].
  - rewrite list_lookup_insert_eq by (by eapply lookup_lt_Some). intros Hx'. simplify_eq. by rewrite Heq.
  - rewrite list_lookup_insert_ne by done. intros Hx'. simplify_eq.
    do 2 (apply sublist_app; [done|]). by apply from_moves.
Qed.

Lemma readers_step_work t st r :
  readers_ok st → readers st !! t = Some r → running r = true →
  work (readers_step file pread_count t st) < work st.
Proof.
  intros Hok Hr Hrun. unfold readers_step. rewrite Hr.
  destruct (readers_step_spec t st r Hok Hr) as (_ & _ & _ & _ & _ & Hwork & _). specialize (Hwork Hrun).
  pose proof (sum_list_with_insert rank _ _ _ (reader_step file pread_count (stream st) r).2 Hr) as Hsum.
  unfold work. cbn [stream readers]. lia.
Qed.
(** ** Runs *)

Abbreviation run := (run_readers file pread_count).

Lemma run_ok sched st : readers_ok st → readers_ok (run sched st).
Proof. revert st. induction sched as [|t sched IH]; intros st Hok; [done|]. by apply IH, readers_step_ok. Qed.

Lemma run_contents sched st : readers_ok st → contents (run sched st) ≡ₚ contents st.
Proof.
  revert st. induction sched as [|t sched IH]; intros st Hok; [done|].
  cbn [run_readers foldl]. fold (run sched (readers_step file pread_count t st)).
  rewrite IH by by apply readers_step_ok. by apply readers_step_contents.
Qed.

Lemma readers_step_lookup t st u x :
  readers st !! u = Some x → is_Some (readers (readers_step file pread_count t st) !! u).
Proof.
  intros Hx. unfold readers_step. destruct (readers st !! t); [|by exists x]. cbn [readers].
  apply lookup_lt_is_Some. rewrite length_insert. by eapply lookup_lt_Some.
Qed.

Lemma run_order sched st u x x' :
  readers_ok st → readers st !! u = Some x → readers (run sched st) !! u = Some x' →
  (delivered x' ++ held x' ++ from (stream_off (stream (run sched st)))) `sublist_of`
  (delivered x ++ held x ++ from (stream_off (stream st))).
Proof.
  revert st x. induction sched as [|t sched IH]; intros st x Hok Hx Hx'; [by cbn in *; simplify_eq|].
  destruct (readers_step_lookup t st u x Hx) as [y Hy].
  etrans; [by apply (IH _ y); [apply readers_step_ok|..]|by eapply readers_step_order].
Qed.

(** Thread [u] is still running. *)
Definition runs_at (st : Readers) (u : nat) : Prop := ∃ x, readers st !! u = Some x ∧ running x = true.

Lemma runs_back t st u : runs_at (readers_step file pread_count t st) u → runs_at st u.
Proof.
  intros (x & Hx & Hrun). unfold readers_step in Hx. destruct (readers st !! t) as [r|] eqn:Hr; [|by exists x].
  cbn [readers] in Hx. destruct (decide (u = t)) as [->|Hne].
  - rewrite list_lookup_insert_eq in Hx by (by eapply lookup_lt_Some). injection Hx as <-. exists r. split; [done|].
    unfold running in *. destruct (r_pc r) eqn:Hpc; try done; unfold reader_step in Hrun; rewrite Hpc in Hrun;
      cbn [snd] in Hrun; by rewrite Hpc in Hrun.
  - rewrite list_lookup_insert_ne in Hx by done. by exists x.
Qed.

Lemma runs_work sched st u :
  readers_ok st → runs_at (run sched st) u → count_occ Nat.eq_dec sched u + work (run sched st) ≤ work st.
Proof.
  revert st. induction sched as [|t sched IH]; intros st Hok Hrun; [done|].
  pose proof (readers_step_ok t st Hok) as Hok'. cbn [run_readers foldl] in *.
  fold (run sched (readers_step file pread_count t st)) in *. specialize (IH _ Hok' Hrun).
  assert (Hstart : runs_at (readers_step file pread_count t st) u).
  { clear IH Hok Hok'. revert Hrun. generalize (readers_step file pread_count t st) as st'.
    induction sched as [|a sched IHs]; intros st' Hrun; [done|]. apply (runs_back a). by apply IHs. }
  apply runs_back in Hstart as (x & Hx & Hrunx). cbn [count_occ]. destruct (Nat.eq_dec t u) as [->|Hne].
  - pose proof (readers_step_work u st x Hok Hx Hrunx). lia.
  - destruct (readers st !! t) as [r|] eqn:Hr.
    + destruct (running r) eqn:Hrunr; [pose proof (readers_step_work t st r Hok Hr Hrunr); lia|].
      assert (Hsame : reader_step file pread_count (stream st) r = (stream st, r)).
      { unfold running in Hrunr. unfold reader_step. by destruct (r_pc r). }
      assert (readers_step file pread_count t st = st) as Heq; [|rewrite Heq in *; lia].
      unfold readers_step. rewrite Hr, Hsame. cbn [fst snd]. rewrite list_insert_id by done. by destruct st.
    + assert (readers_step file pread_count t st = st) as Heq; [|rewrite Heq in *; lia].
      unfold readers_step. by rewrite Hr.
Qed.

(** ** From fresh readers to stopped ones *)

(** A thread that is to read on, with nothing in its buffer. *)
Definition fresh (r : MT_StreamReader) : Prop :=
  r_pc r = GetEdge ∧ length (r_buf r) = c * edge_size ∧ data_in_buf r = 0.

Lemma fresh_held r : fresh r → held r = [].
Proof. intros (Hpc & _ & Hdata). unfold held. by rewrite Hpc, Hdata. Qed.

Lemma fresh_delivered rs : Forall fresh rs → concat ((λ r, delivered r ++ held r) <$> rs) = concat (delivered <$> rs).
Proof.
  intros Hrs. f_equal. apply list_fmap_ext. intros i r Hi. rewrite fresh_held; [by rewrite app_nil_r|].
  by eapply list.Forall_lookup_1.
Qed.

Lemma fresh_ok s rs i :
  stream_ok s → stream_off s = pos i → i ≤ L → length rs = T → Forall fresh rs → readers_ok (mkReaders s rs).
Proof.
  intros Hs Hoff Hi Hlen Hrs.
  assert (Hclaim : sum_list_with claiming rs = 0).
  { clear Hlen. induction Hrs as [|r rs (Hpc & _) Hrs IH]; [done|]. cbn [sum_list_with]. rewrite IH.
    unfold claiming. by rewrite Hpc. }
  unfold readers_ok. cbn [stream readers]. split; [done|]. split; [done|]. split; [|split].
  - intros t r Hr. pose proof (list.Forall_lookup_1 _ _ _ _ Hrs Hr) as Hf. pose proof (fresh_held r Hf) as Hheld.
    destruct Hf as (Hpc & Hb & Hdata). split; [done|]. rewrite Hpc, Hdata, Hheld. split; [lia|]. split; [left; lia|done].
  - rewrite Hclaim, Hoff. psizes.
  - intros Hle. left. rewrite Hoff. psizes.
Qed.

Definition all_stopped (st : Readers) : Prop := ∀ t, ¬ runs_at st t.

(** Every thread has stopped: all up to the query was returned, the threads were
    told why, and a registered query is where the offset stands. *)
Lemma stopped_readers s rs i sched :
  stream_ok s → stream_off s = pos i → i ≤ L → 0 < T → length rs = T → Forall fresh rs →
  let st := run sched (mkReaders s rs) in
  all_stopped st →
  concat (delivered <$> readers st) ≡ₚ concat (delivered <$> rs) ++ drop i (take L ups) ∧
  Forall (λ r, data_in_buf r = 0 ∧ length (r_buf r) = c * edge_size ∧
               ∃ k, r_pc r = Stopped k ∧ ((q ≤ pos m)%N → k = NXT_QUERY) ∧ (q = no_query → k = END_OF_FILE)) (readers st) ∧
  stream_ok (stream st) ∧ length (readers st) = T ∧ ((q ≤ pos m)%N → stream_off (stream st) = q).
Proof.
  intros Hs Hoff Hi HT Hlen Hrs st Hstop. pose proof (fresh_ok s rs i Hs Hoff Hi Hlen Hrs) as Hok.
  pose proof (run_ok sched _ Hok) as Hok'. pose proof (run_contents sched _ Hok) as Hcont. fold st in Hok', Hcont.
  destruct Hok' as (Hlen' & Hs' & Hthreads & _ & Hback).
  assert (Hall : ∀ t r, readers st !! t = Some r → ∃ k, r_pc r = Stopped k).
  { intros t r Hr. pose proof (Hthreads t r Hr) as [_ Hpc]. assert (Hnot : running r ≠ true).
    { intros Hrun. apply (Hstop t). by exists r. }
    unfold running in Hnot. destruct (r_pc r); try done; by eexists. }
  assert (HL : (pos L ≤ stream_off (stream st))%N).
  { destruct (lookup_lt_is_Some_2 (readers st) 0) as [r Hr]; [lia|]. destruct (Hall 0 r Hr) as [k Hk].
    destruct (Hthreads 0 r Hr) as [_ Hpc]. rewrite Hk in Hpc. tauto. }
  split; [|split; [|split; [done|split; [done|]]]].
  - unfold contents in Hcont. cbn [readers stream] in Hcont. rewrite (fresh_delivered rs), Hoff in Hcont by done.
    unfold from at 2 in Hcont. rewrite idx_pos, from_past, app_nil_r in Hcont by done.
    rewrite <- Hcont. apply Permutation_refl'. f_equal. apply list_fmap_ext. intros t r Hr.
    destruct (Hall t r Hr) as [k Hk]. unfold held. rewrite Hk. symmetry. apply app_nil_r.
  - apply list.Forall_lookup_2. intros t r Hr. destruct (Hall t r Hr) as [k Hk]. destruct (Hthreads t r Hr) as [Hb Hpc].
    rewrite Hk in Hpc. split; [tauto|]. split; [done|]. exists k. tauto.
  - intros Hle. destruct (Hback Hle) as [?|(t & r & Hr & Hset)]; [lia|]. destruct (Hall t r Hr) as [k Hk].
    unfold setting_back in Hset. by rewrite Hk in Hset.
Qed.

(** A thread never has more accesses to make than this. *)
Lemma stops s rs i sched :
  stream_ok s → stream_off s = pos i → i ≤ L → length rs = T → Forall fresh rs →
  (∀ t, t < T → 11 * T + 40 * L < count_occ Nat.eq_dec sched t) → all_stopped (run sched (mkReaders s rs)).
Proof.
  intros Hs Hoff Hi Hlen Hrs Hturns t Hrun. pose proof (fresh_ok s rs i Hs Hoff Hi Hlen Hrs) as Hok.
  pose proof (runs_work sched _ t Hok Hrun) as Hwork. destruct (run_ok sched _ Hok) as (Hlen' & _).
  assert (Ht : t < T).
  { destruct Hrun as (x & Hx & _). rewrite <- Hlen'. by eapply lookup_lt_Some. }
  specialize (Hturns t Ht).
  assert (Hstart : work (mkReaders s rs) ≤ 11 * T + 40 * L); [|lia].
  unfold work. cbn [readers stream]. apply Nat.add_le_mono.
  - rewrite <- Hlen. clear -Hrs c_pos. induction Hrs as [|r rs Hr Hrs IH]; [done|]. cbn [sum_list_with length].
    unfold rank at 1. rewrite (fresh_held r Hr). destruct Hr as (-> & _). cbn [length]. lia.
  - unfold from. rewrite length_drop, length_take. lia.
Qed.

(** Each thread returns its updates in the order of the file. *)
Lemma in_order s rs i sched t r r' :
  stream_ok s → stream_off s = pos i → i ≤ L → length rs = T → Forall fresh rs →
  rs !! t = Some r → readers (run sched (mkReaders s rs)) !! t = Some r' →
  delivered r' `sublist_of` (delivered r ++ drop i (take L ups)).
Proof.
  intros Hs Hoff Hi Hlen Hrs Hr Hr'. pose proof (fresh_ok s rs i Hs Hoff Hi Hlen Hrs) as Hok.
  pose proof (run_order sched _ t r r' Hok Hr Hr') as Hsub. cbn [stream] in Hsub.
  rewrite (fresh_held r), Hoff in Hsub by (by eapply list.Forall_lookup_1). unfold from at 2 in Hsub. rewrite idx_pos in Hsub.
  etrans; [|exact Hsub]. apply sublist_inserts_r. done.
Qed.
End shared.
