(* ===== verification/BinStreamProps.v ===== *)
(** * What the readers of a stream file promise

    One reader returns the file; threads that share a stream return every update once,
    whatever the schedule, and stop at a registered query. *)

From Stdlib Require Import NArith Lia.
From stdpp Require Import base list numbers.
From S2P Require Import Prelude Bytes BinStream BinStreamSpec BinStreamMT.

(** ** The stream that is opened *)

(** The bounds of the machine words: of the header, of the buffer, and of the offset
    when each of [T] threads has claimed a block past the end. *)
Definition stream_fits (nodes : N) (ups : list GraphUpdate) (_b : N) (T : nat) : Prop :=
  (nodes < 2 ^ 32)%N ∧ (N.of_nat edge_size ≤ _b < 2 ^ 32)%N ∧
  (pos (length ups) + _b * N.of_nat T < no_query)%N.

(** [pread] of bytes that the file has gives all of them. *)
Definition reads_fully (file : list N) (pread_count : N → N → option N) : Prop :=
  ∀ off n, (off + n ≤ N.of_nat (length file))%N → pread_count off n = Some n.

Definition all_done (st : Readers) : bool := forallb (λ r, negb (running r)) (readers st).

Lemma all_done_stopped st : all_done st = true → all_stopped st.
Proof.
  unfold all_done. rewrite forallb_forall. intros H t (x & Hx & Hrun). specialize (H x).
  rewrite Hrun in H. discriminate H. apply list_elem_of_In. by eapply list_elem_of_lookup_2.
Qed.

Lemma stopped_all_done st : all_stopped st → all_done st = true.
Proof.
  intros H. apply forallb_forall. intros x Hx. apply list_elem_of_In, list_elem_of_lookup in Hx as [t Ht].
  destruct (running x) eqn:Hrun; [|done]. destruct (H t). by exists x.
Qed.

Definition block_updates (_b : N) : nat := N.to_nat _b / edge_size.

Lemma block_bytes _b : (_b - _b mod N.of_nat edge_size)%N = N.of_nat (block_updates _b * edge_size).
Proof.
  unfold block_updates. rewrite Nat2N.inj_mul, Nat2N.inj_div, N2Nat.id. change (N.of_nat edge_size) with 9%N.
  pose proof (N.div_mod _b 9 ltac:(done)). pose proof (N.mod_lt _b 9 ltac:(done)).
  set (x := (_b / 9)%N) in *. set (y := (_b mod 9)%N) in *. clearbody x y. lia.
Qed.

Section opened.
Variables (nodes : N) (ups : list GraphUpdate) (_b : N) (T : nat) (pread_count : N → N → option N).
Abbreviation file := (stream_file nodes ups).
Abbreviation c := (block_updates _b).
Hypothesis fits : stream_fits nodes ups _b T.
Hypothesis ups_ok : Forall data_update ups.
Hypothesis full_reads : reads_fully file pread_count.

Lemma c_pos : 1 ≤ c.
Proof. destruct fits as (_ & Hb & _). apply Nat.div_le_lower_bound; sizes. Qed.

Lemma block_le : (N.of_nat (c * edge_size) ≤ _b)%N.
Proof. rewrite <- block_bytes. apply N.le_sub_l. Qed.

Lemma opened_stream fd : fd ≠ 0 →
  new_BinaryGraphStream_MT (Some fd) file _b =
  Ok (mkMT nodes (N.of_nat (length ups)) (N.of_nat (c * edge_size)) (pos (length ups)) (pos 0) no_query false).
Proof.
  intros Hfd. destruct fits as (Hn & Hb & HE). unfold new_BinaryGraphStream_MT.
  rewrite decide_False by congruence.
  assert (Hfour : take 4 file = le_bytes 4 nodes) by by apply take_app_length'.
  assert (Height : take 8 (drop 4 file) = le_bytes 8 (N.of_nat (length ups))).
  { unfold stream_file. rewrite drop_app_length' by done. by apply take_app_length'. }
  rewrite Hfour, Height, !length_le_bytes. cbn [Nat.eqb negb]. cbv zeta.
  assert (Hm : (N.of_nat (length ups) < 2 ^ 64)%N) by (unfold no_query in *; psizes).
  rewrite !of_le_bytes_le_bytes by done. rewrite block_bytes.
  rewrite !wrap_small; [|unfold no_query in *; psizes|rewrite wrap_small by (unfold no_query in *; psizes); unfold no_query in *; psizes].
  do 2 f_equal; psizes.
Qed.

(** The hypotheses of the invariant, for a query at [q] before which there are [L]
    updates. *)
Definition query_at (q : N) (L : nat) : Prop :=
  L ≤ length ups ∧ pos L = N.min q (pos (length ups)) ∧ (q < 2 ^ 64)%N.

Lemma no_query_at : query_at no_query (length ups).
Proof. destruct fits as (_ & _ & HE). split; [done|]. split; [lia|done]. Qed.

Lemma query_index_at qi : qi ≤ length ups → query_at (pos qi) qi.
Proof. intros H. destruct fits as (_ & _ & HE). split; [done|]. split; [psizes|]. unfold no_query in *. psizes. Qed.

Lemma word_bounds :
  (N.of_nat (c * edge_size) < 2 ^ 32)%N ∧ (pos (length ups) + N.of_nat (c * edge_size) * N.of_nat T < no_query)%N.
Proof.
  pose proof block_le as Hc. destruct fits as (_ & [_ Hb] & HE). split; [lia|].
  pose proof (N.mul_le_mono_r _ _ (N.of_nat T) Hc). lia.
Qed.

(** A stream in the state between two phases. *)
Definition stream_at (q : N) (i : nat) (s : BinaryGraphStream_MT) : Prop :=
  mt_buf_size s = N.of_nat (c * edge_size) ∧ end_of_file s = pos (length ups) ∧ query_index s = q ∧
  query_block s = false ∧ stream_off s = pos i.

Lemma stream_at_ok q L i s : stream_at q i s → stream_ok ups c q L s.
Proof. intros (H1 & H2 & H3 & H4 & H5). split_and!; try done. left. by exists i. Qed.

(** The threads run until all have stopped. *)
Lemma phase q L i s rs sched :
  query_at q L → stream_at q i s → i ≤ L → 0 < T → length rs = T → Forall (fresh c) rs →
  let st := run_readers file pread_count sched (mkReaders s rs) in
  all_done st = true →
  concat (delivered <$> readers st) ≡ₚ concat (delivered <$> rs) ++ drop i (take L ups) ∧
  Forall (fresh c) (readers (restart st)) ∧ length (readers st) = T ∧
  Forall (λ r, (q ≤ pos (length ups))%N → r_pc r = Stopped NXT_QUERY) (readers st) ∧
  Forall (λ r, q = no_query → r_pc r = Stopped END_OF_FILE) (readers st) ∧
  ((q ≤ pos (length ups))%N → stream_at q L (stream st)).
Proof.
  intros (HL & Hq & Hqw) Hs Hi HT Hlen Hrs st Hdone. destruct word_bounds as [Hw HE].
  pose proof (stopped_readers nodes ups pread_count c q L T ups_ok c_pos Hw HL Hq Hqw HE full_reads s rs i sched) as Hstop.
  destruct Hstop as (Hperm & Hreaders & Hs' & Hlen' & Hoff);
    [by eapply stream_at_ok|apply Hs|done..|by apply all_done_stopped|].
  fold st in Hperm, Hreaders, Hs', Hlen', Hoff.
  split; [done|]. split; [|split; [done|split; [|split]]].
  - cbn [restart readers]. apply list.Forall_fmap. eapply list.Forall_impl; [exact Hreaders|].
    intros r (Hdata & Hb & _). done.
  - eapply list.Forall_impl; [exact Hreaders|]. intros r (_ & _ & k & Hk & Hnext & _) Hle. by rewrite Hk, Hnext.
  - eapply list.Forall_impl; [exact Hreaders|]. intros r (_ & _ & k & Hk & _ & Hend) Hle. by rewrite Hk, Hend.
  - intros Hle. destruct Hs' as (H1 & H2 & H3 & H4 & _). split_and!; try done. rewrite Hoff by done. lia.
Qed.

Lemma new_readers_fresh q i s mems :
  stream_at q i s → Forall (λ mem, N.to_nat _b ≤ length mem) mems → Forall (fresh c) (new_MT_StreamReader s <$> mems) ∧
  concat (delivered <$> (new_MT_StreamReader s <$> mems)) = [].
Proof.
  intros (Hbuf & _) Hmems. pose proof block_le as Hle. split.
  - apply list.Forall_fmap. eapply list.Forall_impl; [exact Hmems|]. intros mem Hmem. split; [done|]. split; [|done].
    unfold new_MT_StreamReader. cbn [r_buf compose]. rewrite length_take, Hbuf, Nat2N.id. cbn beta in Hmem. set (k := c * edge_size) in *. clearbody k. lia.
  - clear Hmems. by induction mems.
Qed.
End opened.

(** [n] updates of a path, for examples. *)
Definition path_updates (n : nat) : list GraphUpdate :=
  (λ i, mkUpdate (N.of_nat i) (N.of_nat (S i)) INSERT) <$> seq 0 n.

(** ** Where the readers fall short of their comments *)

(** [on_demand_query] is to make every thread return [NXT_QUERY]; with no query
    registered, a thread that finds the stream blocked returns [END_OF_FILE]. *)
Lemma on_demand_query_is_end_of_file file pread_count s r :
  query_index s = no_query → (stream_off s < no_query)%N → r_pc r = GetEdge → data_in_buf r ≤ r_pos r →
  let st := run_readers file pread_count [0; 0; 0; 0] (mkReaders (on_demand_query s) [r]) in
  readers st = [mkReader (r_buf r) (r_pos r) 0 (Stopped END_OF_FILE) (returned r ++ [marker_update END_OF_FILE])].
Proof.
  intros Hq Hoff Hpc Hempty.
  assert (Hstep : ∀ sched s r, run_readers file pread_count (0 :: sched) (mkReaders s [r]) =
    run_readers file pread_count sched (mkReaders (reader_step file pread_count s r).1 [(reader_step file pread_count s r).2])) by done.
  rewrite Hstep. unfold reader_step. rewrite Hpc, (proj2 (Nat.leb_le _ _) Hempty). cbn [fst snd].
  rewrite Hstep. unfold reader_step. cbn [set_pc r_pc on_demand_query set_query query_block fst snd].
  rewrite Hstep. unfold reader_step. cbn [set_pc return_zero r_pc fst snd].
  change (query_index _) with (query_index s). rewrite Hq.
  rewrite Hstep. unfold reader_step. cbn [set_pc r_pc fst snd].
  change (stream_off _) with (stream_off s). by rewrite (proj2 (N.leb_gt _ _)) by done.
Qed.

(** The read after the first of a block that came in two parts stores over the first
    part and asks for a whole block again: after a read of five bytes and one of
    eighteen the thread returns a deletion that is not in the file, and takes its buffer
    of eighteen bytes to hold 23. *)
Definition short_pread (off n : N) : option N := if (off =? 12)%N then Some 5%N else Some n.

Lemma short_read_makes_up_updates :
  match new_BinaryGraphStream_MT (Some 3) (stream_file 8 (path_updates 3)) 18 with
  | Ok s =>
      let st := run_readers (stream_file 8 (path_updates 3)) short_pread (replicate 10 0)
                  (mkReaders s [new_MT_StreamReader s (replicate 18 0%N)]) in
      returned <$> readers st = [[mkUpdate 0 1 DELETE]] ∧ (mkUpdate 0 1 DELETE ∉ path_updates 3) ∧
      data_in_buf <$> readers st = [23]
  | Throw _ => False
  end.
Proof.
  vm_compute. split; [done|]. split; [|done]. intros Hin. apply list_elem_of_In in Hin.
  cbn in Hin. intuition discriminate.
Qed.

(** After the last update the one reader returns what its buffer held. *)
Lemma one_reader_has_no_end :
  match new_BinaryGraphStream (stream_file 8 (path_updates 1)) (λ _, false) true 18 (replicate 18 7%N) (λ _, 0%N) with
  | Ok s => fst <$> get_edges (stream_file 8 (path_updates 1)) (λ _, false) 2 s =
              Ok [mkUpdate 0 1 INSERT; mkUpdate 117901063 117901063 7]
  | Throw _ => False
  end.
Proof. by vm_compute. Qed.

(** ** Claims *)

(** C29. A file of any updates, read back: opening it gives the header's numbers, and as
    many calls of [get_edge] as it has updates return them in order, whatever the size
    of the buffer and what it held. *)
Theorem stream_reads_back nodes ups io_error _b mem junk :
  (∀ p, io_error p = false) → (nodes < 2 ^ 32)%N → (N.of_nat (length ups) < 2 ^ 64)%N → Forall data_update ups →
  edge_size ≤ _b → _b ≤ length mem →
  ∃ s s', new_BinaryGraphStream (stream_file nodes ups) io_error true _b mem junk = Ok s ∧
          num_nodes s = nodes ∧ num_edges s = N.of_nat (length ups) ∧
          get_edges (stream_file nodes ups) io_error (length ups) s = Ok (ups, s').
Proof.
  intros Hio Hn Hlen Hups Hb Hmem.
  destruct (open_stream nodes ups io_error _b mem junk Hio Hn Hlen Hb Hmem) as (s & Hs & Hnodes & Hedges & Hreads).
  destruct (get_edges_reads _ _ (_b / edge_size) Hio ltac:(apply Nat.div_le_lower_bound; sizes) ups s Hups Hreads) as [s' Hs'].
  by exists s, s'.
Qed.

Definition full_pread (off n : N) : option N := Some n.

Lemma stream_reads_back_witness :
  ∃ s s', new_BinaryGraphStream (stream_file 8 (path_updates 5)) (λ _, false) true 20 (replicate 20 0%N) (λ _, 0%N) = Ok s ∧
          num_nodes s = 8%N ∧ num_edges s = 5%N ∧
          get_edges (stream_file 8 (path_updates 5)) (λ _, false) 5 s = Ok (path_updates 5, s').
Proof.
  apply (stream_reads_back 8 (path_updates 5) (λ _, false) 20 (replicate 20 0%N) (λ _, 0%N)); try done.
  - apply (bool_decide_unpack _). by vm_compute.
  - apply Nat.leb_le. by vm_compute.
Defined.

(** C16. Threads that share a stream: in any schedule that gives each of them enough
    turns, all stop at the end of the file; between them they returned every update of
    the file exactly once, and each thread its updates in the order of the file. *)
Theorem threads_share_stream nodes ups pread_count _b fd mems s sched :
  stream_fits nodes ups _b (length mems) → Forall data_update ups → reads_fully (stream_file nodes ups) pread_count →
  fd ≠ 0 → mems ≠ [] → Forall (λ mem, N.to_nat _b ≤ length mem) mems →
  new_BinaryGraphStream_MT (Some fd) (stream_file nodes ups) _b = Ok s →
  (∀ t, t < length mems → 11 * length mems + 40 * length ups < count_occ Nat.eq_dec sched t) →
  let st := run_readers (stream_file nodes ups) pread_count sched (mkReaders s (new_MT_StreamReader s <$> mems)) in
  Forall (λ r, r_pc r = Stopped END_OF_FILE) (readers st) ∧ length (readers st) = length mems ∧
  concat (delivered <$> readers st) ≡ₚ ups ∧ Forall (λ r, delivered r `sublist_of` ups) (readers st).
Proof.
  intros Hfits Hups Hfull Hfd Hne Hmems Hopen Hturns st.
  rewrite (opened_stream nodes ups _b (length mems)) in Hopen by done. injection Hopen as <-.
  set (s := mkMT _ _ _ _ _ _ _) in *. set (rs := new_MT_StreamReader s <$> mems) in *.
  assert (Hs : stream_at ups _b no_query 0 s) by done.
  assert (HT : 0 < length mems) by (destruct mems; [done|cbn; lia]).
  assert (Hlen : length rs = length mems) by apply length_fmap.
  destruct (new_readers_fresh ups _b no_query 0 s mems Hs Hmems) as [Hfresh Hnone].
  pose proof (no_query_at nodes ups _b (length mems) Hfits) as Hq. pose proof Hq as (HL & HLq & Hqw).
  destruct (word_bounds nodes ups _b (length mems) Hfits) as [Hw HE].
  pose proof (c_pos nodes ups _b (length mems) Hfits) as Hc.
  pose proof (stream_at_ok ups _b no_query (length ups) 0 s Hs) as Hok.
  assert (Hstop : all_stopped st).
  { apply (stops nodes ups pread_count _ no_query (length ups) (length mems) Hups Hc Hw HL HLq Hqw HE Hfull s rs 0 sched
      Hok ltac:(apply Hs) ltac:(lia) Hlen Hfresh Hturns). }
  destruct (phase nodes ups _b (length mems) pread_count Hfits Hups Hfull no_query (length ups) 0 s rs sched) as
    (Hperm & _ & Hlen' & _ & Hend & _); [done|done|lia|done|done|done|by apply stopped_all_done|].
  fold st in Hperm, Hlen', Hend. split_and!; [|done| |].
  - eapply list.Forall_impl; [exact Hend|]. intros r Hr. by apply Hr.
  - rewrite Hperm. change (concat (delivered <$> rs)) with (concat (delivered <$> (new_MT_StreamReader s <$> mems))).
    rewrite Hnone. cbn [app]. by rewrite drop_0, firstn_all.
  - apply list.Forall_lookup_2. intros t r Hr.
    assert (Ht : t < length rs) by (rewrite Hlen, <- Hlen'; by eapply lookup_lt_Some).
    apply lookup_lt_is_Some in Ht as [r0 Hr0].
    pose proof (in_order nodes ups pread_count _ no_query (length ups) (length mems) Hups Hc Hw HL HLq Hqw HE Hfull
      s rs 0 sched t r0 r Hok ltac:(apply Hs) ltac:(lia) Hlen Hfresh Hr0 Hr) as Hsub.
    rewrite drop_0, firstn_all in Hsub. replace (delivered r0) with (@nil GraphUpdate) in Hsub; [done|].
    subst rs. rewrite list_lookup_fmap in Hr0. destruct (mems !! t); [|done]. cbn in Hr0. by injection Hr0 as <-.
Qed.

(** Two threads, blocks of two updates, in turns. *)
Definition alternate (n : nat) : list nat := concat (replicate n [0; 1]).

Lemma threads_share_stream_witness :
  match new_BinaryGraphStream_MT (Some 3) (stream_file 8 (path_updates 5)) 20 with
  | Ok s =>
      let st := run_readers (stream_file 8 (path_updates 5)) full_pread (alternate 223)
                  (mkReaders s (new_MT_StreamReader s <$> replicate 2 (replicate 20 0%N))) in
      Forall (λ r, r_pc r = Stopped END_OF_FILE) (readers st) ∧ length (readers st) = 2 ∧
      concat (delivered <$> readers st) ≡ₚ path_updates 5 ∧
      Forall (λ r, delivered r `sublist_of` path_updates 5) (readers st)
  | Throw _ => False
  end.
Proof.
  destruct (new_BinaryGraphStream_MT (Some 3) (stream_file 8 (path_updates 5)) 20) as [s|e] eqn:Hs; [|discriminate Hs].
  apply (threads_share_stream 8 (path_updates 5) full_pread 20 3 (replicate 2 (replicate 20 0%N)) s (alternate 223));
    [| | |done|done| |exact Hs|].
  - by vm_compute.
  - apply (bool_decide_unpack _). by vm_compute.
  - by intros off n _.
  - repeat constructor; apply Nat.leb_le; by vm_compute.
  - intros t Ht. apply Nat.ltb_lt. destruct t as [|[|t]]; [by vm_compute..|]. cbn in Ht. lia.
Defined.

(** C17. A registered query: in any schedule of the threads that ends with all of them
    stopped, every thread was told that the query is next, and they returned exactly
    the updates before its index; after [post_query_resume], in any schedule that again
    ends with all stopped, they have returned the rest, each update once in all. *)
Theorem query_splits_stream nodes ups pread_count _b fd mems s s1 qi sched1 sched2 :
  stream_fits nodes ups _b (length mems) → Forall data_update ups → reads_fully (stream_file nodes ups) pread_count →
  fd ≠ 0 → mems ≠ [] → Forall (λ mem, N.to_nat _b ≤ length mem) mems → qi ≤ length ups →
  new_BinaryGraphStream_MT (Some fd) (stream_file nodes ups) _b = Ok s →
  register_query (N.of_nat qi) s = (true, s1) →
  let st1 := run_readers (stream_file nodes ups) pread_count sched1 (mkReaders s1 (new_MT_StreamReader s1 <$> mems)) in
  let st2 := run_readers (stream_file nodes ups) pread_count sched2
               (restart (mkReaders (post_query_resume (stream st1)) (readers st1))) in
  all_done st1 = true → all_done st2 = true →
  (Forall (λ r, r_pc r = Stopped NXT_QUERY) (readers st1) ∧ concat (delivered <$> readers st1) ≡ₚ take qi ups) ∧
  (Forall (λ r, r_pc r = Stopped END_OF_FILE) (readers st2) ∧ concat (delivered <$> readers st2) ≡ₚ ups).
Proof.
  intros Hfits Hups Hfull Hfd Hne Hmems Hqi Hopen Hreg st1 st2 Hdone1 Hdone2.
  rewrite (opened_stream nodes ups _b (length mems)) in Hopen by done. injection Hopen as <-.
  assert (HT : 0 < length mems) by (destruct mems; [done|cbn; lia]).
  pose proof (query_index_at nodes ups _b (length mems) Hfits qi Hqi) as Hq.
  assert (Hle : (pos qi ≤ pos (length ups))%N) by psizes.
  assert (Hs1 : stream_at ups _b (pos qi) 0 s1).
  { unfold register_query in Hreg. cbn [stream_off] in Hreg. rewrite !wrap_small in Hreg.
    2: destruct Hfits as (_ & _ & HE); unfold no_query in *; psizes.
    2: destruct Hfits as (_ & _ & HE); rewrite wrap_small; unfold no_query in *; psizes.
    destruct (_ <=? _)%N; [done|]. injection Hreg as <-. split_and!; try done. cbn. psizes. }
  destruct (new_readers_fresh ups _b (pos qi) 0 s1 mems Hs1 Hmems) as [Hfresh Hnone].
  destruct (phase nodes ups _b (length mems) pread_count Hfits Hups Hfull (pos qi) qi 0 s1 _ sched1 Hq Hs1 ltac:(lia) HT
    ltac:(apply length_fmap) Hfresh Hdone1) as (Hperm1 & Hfresh1 & Hlen1 & Hnext & _ & Hat).
  fold st1 in Hperm1, Hfresh1, Hlen1, Hnext, Hat. rewrite Hnone, drop_0 in Hperm1. cbn [app] in Hperm1.
  assert (Hs2 : stream_at ups _b no_query qi (post_query_resume (stream st1))).
  { destruct (Hat Hle) as (H1 & H2 & H3 & H4 & H5). by split_and!. }
  destruct (phase nodes ups _b (length mems) pread_count Hfits Hups Hfull no_query (length ups) qi _ (readers (restart st1))
    sched2 (no_query_at nodes ups _b (length mems) Hfits) Hs2 Hqi HT ltac:(cbn; by rewrite length_fmap) Hfresh1 Hdone2)
    as (Hperm2 & _ & _ & _ & Hend & _).
  split; split.
  - eapply list.Forall_impl; [exact Hnext|]. intros r Hr. by apply Hr.
  - done.
  - eapply list.Forall_impl; [exact Hend|]. intros r Hr. by apply Hr.
  - etrans; [exact Hperm2|]. cbn [restart readers]. rewrite <- list_fmap_compose.
    change (delivered ∘ _) with delivered. rewrite Hperm1, firstn_all. by rewrite take_drop.
Qed.

Lemma query_splits_stream_witness :
  match new_BinaryGraphStream_MT (Some 3) (stream_file 8 (path_updates 5)) 20 with
  | Ok s =>
      let s1 := (register_query 3 s).2 in
      let st1 := run_readers (stream_file 8 (path_updates 5)) full_pread (alternate 60)
                   (mkReaders s1 (new_MT_StreamReader s1 <$> replicate 2 (replicate 20 0%N))) in
      let st2 := run_readers (stream_file 8 (path_updates 5)) full_pread (alternate 60)
                   (restart (mkReaders (post_query_resume (stream st1)) (readers st1))) in
      (Forall (λ r, r_pc r = Stopped NXT_QUERY) (readers st1) ∧
       concat (delivered <$> readers st1) ≡ₚ take 3 (path_updates 5)) ∧
      (Forall (λ r, r_pc r = Stopped END_OF_FILE) (readers st2) ∧
       concat (delivered <$> readers st2) ≡ₚ path_updates 5)
  | Throw _ => False
  end.
Proof.
  destruct (new_BinaryGraphStream_MT (Some 3) (stream_file 8 (path_updates 5)) 20) as [s|e] eqn:Hs; [|discriminate Hs].
  apply (query_splits_stream 8 (path_updates 5) full_pread 20 3 (replicate 2 (replicate 20 0%N)) s _ 3 (alternate 60) (alternate 60));
    try done.
  - apply (bool_decide_unpack _). by vm_compute.
  - repeat constructor; apply Nat.leb_le; by vm_compute.
  - apply Nat.leb_le. by vm_compute.
  - injection Hs as <-. by vm_compute.
  - injection Hs as <-. by vm_compute.
  - injection Hs as <-. by vm_compute.
Defined.
