(* ===== verification/StreamGen.v ===== *)
(** * Generators of streams: src/tools/stream_generators

    The programs that write a graph stream, and a METIS file of the same graph. A
    generator's effect is the calls it makes of the stream file, which another
    repository provides, and the numbers it prints to the METIS file. Random numbers
    are an argument. Node ids are 32 bits wide: where an expression can leave them the
    model wraps it. *)

From Stdlib Require Import NArith Lia.
From stdpp Require Import base list gmap numbers sorting.
From S2P Require Import Prelude Util CCSketchAlg.

(** ** What a program writes *)

(** Calls of [write_header] and [write_updates]. *)
Inductive file_call :=
  | WriteHeader (vertices edges : N)
  | WriteUpdates (l : list GraphUpdate).

#[global] Instance file_call_eq_dec : EqDecision file_call.
Proof. intros a b. unfold Decision. repeat decide equality. Defined.

(** The updates that calls wrote. *)
Definition written (calls : list file_call) : list GraphUpdate :=
  calls ≫= λ k, match k with WriteHeader _ _ => [] | WriteUpdates l => l end.

(** A METIS file: the numbers of its first line and of the lines after it. *)
Record metis_file := mkMetis { metis_header : N * N; metis_lines : list (list N) }.

(** ** [nodes_list] *)

Abbreviation nodes_map := (gmap nat (list nat)).

(** [if (nodes_list.find(u) == nodes_list.end()) nodes_list[u] = {}]. *)
Definition ensure (u : nat) (m : nodes_map) : nodes_map :=
  match m !! u with None => <[u := []]> m | Some _ => m end.

(** [nodes_list[u].push_back(v)]. *)
Definition push (u v : nat) (m : nodes_map) : nodes_map := <[u := default [] (m !! u) ++ [v]]> m.

(** An iteration goes through the entries in the order of their keys. *)
Definition sorted_entries (m : nodes_map) : list (nat * list nat) :=
  (λ u, (u, default [] (m !! u))) <$> merge_sort le (elements (dom m)).

(** The loop bound [size() - 1] and the access after the loop are those of a line that
    is not empty. *)
Definition metis_line (l : list nat) : outcome (list N) :=
  match l with [] => Throw OutOfBounds | _ => Ok ((λ v, wrap 32 (N.of_nat v + 1)) <$> l) end.

Definition write_metis (n m : N) (nodes_list : nodes_map) : outcome metis_file :=
  lines ← outcome_list ((λ e, metis_line e.2) <$> sorted_entries nodes_list);
  Ok (mkMetis (n, m) lines).

(** ** The state of a generator *)

Record Gen := mkGen { calls : list file_call; nodes_list : nodes_map }.

Definition write_update (e : Edge) (t : UpdateType) (g : Gen) : Gen :=
  mkGen (calls g ++ [WriteUpdates [mkUpdate e t]]) (nodes_list g).

Definition set_nodes (f : nodes_map → nodes_map) (g : Gen) : Gen := mkGen (calls g) (f (nodes_list g)).

Definition open_gen (n m : N) : Gen := mkGen [WriteHeader n m] ∅.

Definition half (n : nat) : nat := n / 2.

(** The bound [num_nodes/2-1] of the loops over the paths. *)
Definition path_length (n : nat) : nat := N.to_nat (wsub 32 (N.of_nat (half n)) 1).

(** An edge of each of the two paths. *)
Definition path_step (n : nat) (metis : bool) (g : Gen) (u : nat) : Gen :=
  let h := half n in
  let g := write_update (mkEdge u (u + 1)) INSERT g in
  let g := write_update (mkEdge (u + h) (u + 1 + h)) INSERT g in
  if metis then
    set_nodes (λ m,
      push (u + 1 + h) (u + h) (push (u + h) (u + 1 + h) (push (u + 1) u (push u (u + 1)
        (ensure (u + 1 + h) (ensure (u + h) (ensure (u + 1) (ensure u m)))))))) g
  else g.

Definition build_paths (n : nat) (metis : bool) (g : Gen) : Gen :=
  foldl (path_step n metis) g (seq 0 (path_length n)).

(** ** [old_generate_binary_stream] *)

Definition old_num_edges (n : nat) : N :=
  let h := N.of_nat (half n) in wrap 32 (wsub 32 (N.of_nat n) 2 + wrap 32 (h * h)).

Definition cross_step (metis : bool) (src : nat) (g : Gen) (dst : nat) : Gen :=
  let g := write_update (mkEdge src dst) INSERT g in
  if metis then set_nodes (λ m, push dst src (push src dst (ensure dst (ensure src m)))) g else g.

Definition connect_halves (n : nat) (metis : bool) (g : Gen) : Gen :=
  foldl (λ g src, foldl (cross_step metis src) g (seq (half n) (n - half n))) g (seq 0 (half n)).

(** The METIS file, when it is asked for. *)
Definition finish (n : nat) (num_edges : N) (metis : bool) (g : Gen) : outcome (list file_call * option metis_file) :=
  if metis then f ← write_metis (N.of_nat n) num_edges (nodes_list g); Ok (calls g, Some f)
  else Ok (calls g, None).

Definition old_generate_binary_stream (n : nat) (metis : bool) : outcome (list file_call * option metis_file) :=
  if n mod 2 =? 1 then Ok ([], None)
  else
    let num_edges := old_num_edges n in
    finish n num_edges metis (connect_halves n metis (build_paths n metis (open_gen (N.of_nat n) num_edges))).

(** ** [generate_binary_stream] of the non-trivial generator *)

Definition min_cut : nat := 10.

Definition num_edges (n : nat) : N :=
  let h := N.of_nat (half n) in let f := N.of_nat (n / 4) in
  (wrap 32 (wsub 32 (N.of_nat n) 2 + wrap 32 (wrap 32 (h * f) * 2)) + N.of_nat min_cut)%N.

Section random.
(** The [k]th number the engine gives to a distribution between two bounds, and how
    many times a loop may roll again. *)
Variables (draw : nat → nat → nat → nat) (fuel : nat).

(** [while (node1 == node2) node2 = dist(mt)]: the node and the next position of the
    engine. *)
Fixpoint reroll (fuel lo hi node1 node2 k : nat) : outcome (nat * nat) :=
  if node1 =? node2 then
    match fuel with
    | O => Throw OutOfFuel
    | S fuel => reroll fuel lo hi node1 (draw k lo hi) (S k)
    end
  else Ok (node2, k).

(** Two different nodes of a range, as an edge. *)
Definition pick_two (lo hi k : nat) : outcome (Edge * nat) :=
  let node1 := draw k lo hi in
  p ← reroll fuel lo hi node1 (draw (S k) lo hi) (S (S k));
  Ok (mkEdge node1 p.1, p.2).

Definition push_both (e : Edge) (m : nodes_map) : nodes_map := push (dst e) (src e) (push (src e) (dst e) m).

(** An edge in each component. *)
Definition inner_step (n : nat) (metis : bool) (st : Gen * nat) (_ : nat) : outcome (Gen * nat) :=
  let h := half n in
  l ← pick_two 0 h st.2;
  let g := write_update l.1 INSERT st.1 in
  r ← pick_two h n l.2;
  let g := write_update r.1 INSERT g in
  Ok (if metis then set_nodes (λ m, push_both r.1 (push_both l.1 m)) g else g, r.2).

(** An edge across the cut. *)
Definition cut_step (n : nat) (metis : bool) (st : Gen * nat) (_ : nat) : Gen * nat :=
  let h := half n in
  let e := mkEdge (draw st.2 0 h) (draw (S st.2) h n) in
  let g := write_update e INSERT st.1 in
  (if metis then set_nodes (push_both e) g else g, S (S st.2)).

Definition generate_binary_stream (n : nat) (metis : bool) : outcome (list file_call * option metis_file) :=
  if n mod 2 =? 1 then Ok ([], None)
  else
    let m := num_edges n in
    let g := build_paths n metis (open_gen (N.of_nat n) m) in
    st ← outcome_fold (inner_step n metis) (g, 0) (seq 0 (half n * (n / 4)));
    let st := foldl (cut_step n metis) st (seq 0 min_cut) in
    finish n m metis st.1.
End random.

(** ** The single-cut generator *)

Module SingleCut.
Definition num_rounds (n : nat) : nat := n / 8.

Definition num_edges (n : nat) : N :=
  wrap 64 (wsub 32 (N.of_nat n) 2 + wrap 64 (wrap 64 (2 * N.of_nat (num_rounds n)) * N.of_nat n)).

Definition cross (n u : nat) : Edge := mkEdge u (u + half n).

(** All the edges across the cut, inserted and deleted; then each in turn. *)
Definition round (n : nat) (g : Gen) (_ : nat) : Gen :=
  let g := foldl (λ g u, write_update (cross n u) INSERT g) g (seq 0 (half n)) in
  let g := foldl (λ g u, write_update (cross n u) DELETE g) g (seq 0 (half n)) in
  foldl (λ g u, write_update (cross n u) DELETE (write_update (cross n u) INSERT g)) g (seq 0 (half n)).

Definition generate_binary_stream (n : nat) : list file_call :=
  if n mod 2 =? 1 then []
  else calls (foldl (round n) (build_paths n false (open_gen (N.of_nat n) (num_edges n))) (seq 0 (num_rounds n))).
End SingleCut.
