(* ===== verification/StreamGenSpec.v ===== *)
(** * What the generators write

    The METIS file lists the neighbours that the written updates give each node; the
    old generator's graph is two paths and every edge between them; the single-cut
    stream inserts only edges that are absent, deletes only edges that are there, and
    leaves the two paths. *)

From Stdlib Require Import NArith Lia.
From stdpp Require Import base list gmap numbers sorting.
From S2P Require Import Prelude Util CCSketchAlg StreamGen.

(** ** Neighbour lists *)

(** The neighbours of [u] that edges give it, in their order. *)
Definition adj (es : list Edge) (u : nat) : list nat :=
  es ≫= λ e, (if src e =? u then [dst e] else []) ++ (if dst e =? u then [src e] else []).

Lemma adj_app es1 es2 u : adj (es1 ++ es2) u = adj es1 u ++ adj es2 u.
Proof. apply bind_app. Qed.

(** [m] has the neighbours of every node that has one, and no other entry. *)
Definition tracks (m : nodes_map) (es : list Edge) : Prop :=
  ∀ u, m !! u = match adj es u with [] => None | l => Some l end.

Lemma lookup_push u v m w :
  push u v m !! w = if decide (u = w) then Some (default [] (m !! u) ++ [v]) else m !! w.
Proof.
  unfold push. destruct (decide (u = w)) as [->|Hne]; [by rewrite lookup_insert_eq|by rewrite lookup_insert_ne].
Qed.

Lemma tracks_push_both m es e : tracks m es → tracks (push_both e m) (es ++ [e]).
Proof.
  intros Hm w. unfold push_both. rewrite adj_app. cbn [adj mbind list_bind].
  rewrite !lookup_push, app_nil_r. pose proof (Hm w) as Hw. pose proof (Hm (dst e)) as Hd. pose proof (Hm (src e)) as Hs.
  assert (Hdef : ∀ u, default [] (m !! u) = adj es u) by (intros u; rewrite (Hm u); by destruct (adj es u)).
  destruct (Nat.eqb_spec (src e) w) as [Hsw|Hsw], (Nat.eqb_spec (dst e) w) as [Hdw|Hdw]; cbn [app].
  - rewrite Hsw, Hdw, !decide_True by done. cbn [default id from_option]. unfold id. rewrite Hdef, <- app_assoc. by destruct (adj es w).
  - rewrite decide_False, decide_True, Hsw, Hdef by done. by destruct (adj es w).
  - rewrite decide_True, decide_False, Hdw, Hdef by congruence. by destruct (adj es w).
  - rewrite !decide_False by done. by rewrite app_nil_r.
Qed.

(** [find] before a [push_back] to the same entries changes nothing. *)
Lemma ensure_some u m : is_Some (m !! u) → ensure u m = m.
Proof. intros [l Hl]. unfold ensure. by rewrite Hl. Qed.

Lemma push_some u v x m : u = v ∨ is_Some (m !! v) → is_Some (push u x m !! v).
Proof. intros [->|H]; rewrite lookup_push; [by rewrite decide_True|destruct (decide (u = v)); eauto]. Qed.

Lemma push_ensure_comm u v x m : push v x (ensure u m) = ensure u (push v x m).
Proof.
  destruct (m !! u) as [l|] eqn:Hu.
  - rewrite !ensure_some; [done|by apply push_some; right; exists l|by exists l].
  - assert (ensure u m = <[u := []]> m) as -> by (unfold ensure; by rewrite Hu).
    destruct (decide (v = u)) as [->|Hne].
    + rewrite ensure_some by (apply push_some; by left). unfold push. rewrite lookup_insert_eq, Hu. apply insert_insert_eq.
    + unfold ensure. rewrite lookup_push, decide_False, Hu by done. unfold push. rewrite lookup_insert_ne by done.
      by apply insert_insert_ne.
Qed.

#[local] Hint Resolve push_some : core.

Lemma push_edge m u v : push v u (push u v (ensure v (ensure u m))) = push_both (mkEdge u v) m.
Proof. rewrite !push_ensure_comm, (ensure_some u), (ensure_some v); eauto 6. Qed.

Lemma push_edges m a b c d :
  push d c (push c d (push b a (push a b (ensure d (ensure c (ensure b (ensure a m))))))) =
  push_both (mkEdge c d) (push_both (mkEdge a b) m).
Proof. rewrite !push_ensure_comm, (ensure_some a), (ensure_some b), (ensure_some c), (ensure_some d); eauto 10. Qed.

(** ** The generators' states *)

(** The edges of a generator's updates. *)
Definition gen_edges (g : Gen) : list Edge := edge <$> written (calls g).

Lemma gen_edges_write e t g : gen_edges (write_update e t g) = gen_edges g ++ [e].
Proof. unfold gen_edges, written, write_update. cbn [calls]. by rewrite bind_app, fmap_app. Qed.

Lemma written_write e t g : written (calls (write_update e t g)) = written (calls g) ++ [mkUpdate e t].
Proof. unfold written, write_update. cbn [calls]. by rewrite bind_app. Qed.

(** [g] wrote the header and then the updates [us]; with METIS, its lists are those of
    the edges. *)
Definition gen_state (n m : N) (metis : bool) (us : list GraphUpdate) (g : Gen) : Prop :=
  calls g = WriteHeader n m :: ((λ u, WriteUpdates [u]) <$> us) ∧ (metis = true → tracks (nodes_list g) (edge <$> us)).

Lemma gen_state_open n m metis : gen_state n m metis [] (open_gen n m).
Proof. split; [done|]. intros _ u. cbn. by rewrite lookup_empty. Qed.

Lemma gen_state_write n m metis us g e t f :
  gen_state n m metis us g → (metis = true → ∀ es x, tracks x es → tracks (f x) (es ++ [e])) →
  gen_state n m metis (us ++ [mkUpdate e t]) (if metis then set_nodes f (write_update e t g) else write_update e t g).
Proof.
  intros [Hcalls Htracks] Hf. unfold gen_state. rewrite !fmap_app. destruct metis; cbn [set_nodes calls nodes_list write_update].
  - rewrite Hcalls. split; [done|]. intros _. by apply Hf, Htracks.
  - rewrite Hcalls. done.
Qed.

Lemma written_singles n m us : written (WriteHeader n m :: ((λ u, WriteUpdates [u]) <$> us)) = us.
Proof. unfold written. cbn. induction us as [|u us IH]; [done|]. cbn. by rewrite IH. Qed.

(** ** The paths *)

Definition insert_of (e : Edge) : GraphUpdate := mkUpdate e INSERT.

Definition path_pair (n u : nat) : list Edge := [mkEdge u (u + 1); mkEdge (u + half n) (u + 1 + half n)].

Definition path_edges (n : nat) : list Edge := seq 0 (path_length n) ≫= path_pair n.

Lemma path_step_state n m metis k us g u :
  gen_state n m metis us g → gen_state n m metis (us ++ (insert_of <$> path_pair k u)) (path_step k metis g u).
Proof.
  intros [Hcalls Htracks]. unfold path_step, gen_state. rewrite !fmap_app.
  destruct metis; cbn [set_nodes calls nodes_list write_update]; rewrite Hcalls, <- app_assoc.
  - split; [done|]. intros _. rewrite push_edges.
    pose proof (tracks_push_both _ _ (mkEdge (u + half k) (u + 1 + half k))
      (tracks_push_both _ _ (mkEdge u (u + 1)) (Htracks eq_refl))) as Hnew.
    by rewrite <- app_assoc in Hnew.
  - done.
Qed.

(** A loop whose steps each write some updates. *)
Lemma loop_state {A} n m metis (step : Gen → A → Gen) (f : A → list GraphUpdate) (l : list A) us g :
  (∀ us g a, gen_state n m metis us g → gen_state n m metis (us ++ f a) (step g a)) →
  gen_state n m metis us g → gen_state n m metis (us ++ (l ≫= f)) (foldl step g l).
Proof.
  intros Hstep. revert us g. induction l as [|a l IH]; intros us g Hg; [by rewrite app_nil_r|].
  cbn [foldl]. rewrite bind_cons, app_assoc. by apply IH, Hstep.
Qed.

Lemma bind_insert_of {A} (l : list A) (f : A → list Edge) : l ≫= (λ a, insert_of <$> f a) = insert_of <$> (l ≫= f).
Proof. induction l as [|a l IH]; [done|]. by rewrite !bind_cons, fmap_app, IH. Qed.

Lemma build_paths_state n m metis k us g :
  gen_state n m metis us g → gen_state n m metis (us ++ (insert_of <$> path_edges k)) (build_paths k metis g).
Proof.
  intros Hg. unfold path_edges. rewrite <- bind_insert_of. apply loop_state; [|done].
  intros. by apply path_step_state.
Qed.

(** ** Edges across *)

Definition cross_edges (n : nat) : list Edge := seq 0 (half n) ≫= λ u, mkEdge u <$> seq (half n) (n - half n).

Lemma cross_step_state n m metis us g u v :
  gen_state n m metis us g → gen_state n m metis (us ++ [insert_of (mkEdge u v)]) (cross_step metis u g v).
Proof.
  intros Hg. unfold cross_step. apply gen_state_write; [done|]. intros _ es x Hx. rewrite push_edge.
  by apply tracks_push_both.
Qed.

Lemma connect_halves_state n m metis k us g :
  gen_state n m metis us g → gen_state n m metis (us ++ (insert_of <$> cross_edges k)) (connect_halves k metis g).
Proof.
  intros Hg. unfold cross_edges. rewrite <- bind_insert_of. apply loop_state; [|done]. clear.
  intros us g u Hg. replace (insert_of <$> (mkEdge u <$> seq (half k) (k - half k)))
    with (seq (half k) (k - half k) ≫= λ v, [insert_of (mkEdge u v)]).
  2:{ rewrite <- list_fmap_compose. induction (seq _ _) as [|v l IH]; [done|]. by rewrite bind_cons, IH. }
  apply loop_state; [|done]. intros. by apply cross_step_state.
Qed.

(** ** METIS files *)

(** The keys in order: the nodes that have neighbours. *)
Lemma sorted_keys m ks :
  StronglySorted lt ks → (∀ u, u ∈ ks ↔ is_Some (m !! u)) →
  sorted_entries m = (λ u, (u, default [] (m !! u))) <$> ks.
Proof.
  intros Hsorted Hks. unfold sorted_entries. f_equal.
  apply (StronglySorted_unique le).
  - apply (StronglySorted_merge_sort le).
  - clear Hks. induction Hsorted as [|u l Hl IH Hu]; constructor; [done|]. eapply list.Forall_impl; [exact Hu|]. cbn. lia.
  - rewrite merge_sort_Permutation. apply NoDup_Permutation; [apply NoDup_elements| |].
    + clear Hks. induction Hsorted as [|u l Hl IH Hu]; constructor; [|done]. intros Hin.
      rewrite list.Forall_forall in Hu. specialize (Hu u Hin). lia.
    + intros u. rewrite elem_of_elements, elem_of_dom. by rewrite Hks.
Qed.

Lemma seq_sorted a k : StronglySorted lt (seq a k).
Proof.
  revert a. induction k as [|k IH]; intros a; [constructor|]. cbn [seq]. constructor; [apply IH|].
  apply list.Forall_forall. intros u Hu. apply elem_of_seq in Hu. lia.
Qed.

(** The file of a graph whose nodes with neighbours are [ks]: a line of numbers for
    each, nodes counted from 1. *)
Definition metis_of (n m : N) (es : list Edge) (ks : list nat) : metis_file :=
  mkMetis (n, m) ((λ u, (λ v, N.of_nat (S v)) <$> adj es u) <$> ks).

Lemma metis_of_tracks n m x es ks :
  tracks x es → StronglySorted lt ks → (∀ u, adj es u ≠ [] ↔ u ∈ ks) →
  (∀ e, e ∈ es → (N.of_nat (src e) + 1 < 2 ^ 32 ∧ N.of_nat (dst e) + 1 < 2 ^ 32)%N) →
  write_metis n m x = Ok (metis_of n m es ks).
Proof.
  intros Hx Hks Hadj Hfit. unfold write_metis.
  rewrite (sorted_keys x ks); [|done|].
  2:{ intros u. rewrite <- Hadj, (Hx u). destruct (adj es u); split; [done|by intros [??]|by eauto|done]. }
  rewrite <- list_fmap_compose.
  rewrite (outcome_list_fmap _ (λ u, (λ v, N.of_nat (S v)) <$> adj es u)); [done|].
  intros u Hu. cbn. rewrite (Hx u). apply Hadj in Hu.
  assert (Hw : Forall (λ v, (N.of_nat v + 1 < 2 ^ 32)%N) (adj es u)).
  { apply list.Forall_forall. intros v Hv. apply list_elem_of_bind in Hv as (e & Hv & He). specialize (Hfit e He).
    apply elem_of_app in Hv as [Hv|Hv]; [destruct (src e =? u)|destruct (dst e =? u)];
      [apply list_elem_of_singleton in Hv as ->; tauto|by apply not_elem_of_nil in Hv|apply list_elem_of_singleton in Hv as ->; tauto|by apply not_elem_of_nil in Hv]. }
  assert (Hline : metis_line (adj es u) = Ok ((λ v, wrap 32 (N.of_nat v + 1)) <$> adj es u)) by by destruct (adj es u).
  replace (default [] _) with (adj es u) by by destruct (adj es u). rewrite Hline. f_equal. apply list_fmap_ext.
  intros i w Hi. rewrite wrap_small; [lia|]. by eapply list.Forall_lookup_1 in Hw.
Qed.

(** The keys of the map are such nodes. *)
Lemma keys_of_tracks x es :
  tracks x es → ∃ ks, StronglySorted lt ks ∧ ∀ u, adj es u ≠ [] ↔ u ∈ ks.
Proof.
  intros Hx. exists (merge_sort le (elements (dom x))). split.
  - assert (Hnd : NoDup (merge_sort le (elements (dom x)))) by (rewrite merge_sort_Permutation; apply NoDup_elements).
    pose proof (StronglySorted_merge_sort le (elements (dom x))) as Hle.
    induction Hle as [|u l Hl IH Hu]; [constructor|]. apply list.NoDup_cons in Hnd as [Hnot Hnd]. constructor; [by apply IH|].
    apply list.Forall_forall. intros v Hv. rewrite list.Forall_forall in Hu. specialize (Hu v Hv).
    assert (u ≠ v) by (intros ->; done). lia.
  - intros u. rewrite merge_sort_Permutation, elem_of_elements, elem_of_dom, (Hx u).
    destruct (adj es u); split; [done|by intros [??]|by eauto|done].
Qed.

(** ** The old generator's graph *)

Definition old_edges (n : nat) : list Edge := path_edges n ++ cross_edges n.

Lemma path_length_small n : 2 ≤ n → (N.of_nat n < 2 ^ 32)%N → path_length n = half n - 1.
Proof.
  intros Hn Hw. unfold path_length. assert (1 ≤ half n) by (apply Nat.div_le_lower_bound; lia).
  assert (half n ≤ n) by (apply Nat.Div0.div_le_upper_bound; lia).
  rewrite wsub_small by lia. lia.
Qed.

Lemma elem_of_path_edges n e :
  e ∈ path_edges n ↔ ∃ u, u < path_length n ∧ (e = mkEdge u (S u) ∨ e = mkEdge (u + half n) (S (u + half n))).
Proof.
  unfold path_edges. rewrite list_elem_of_bind. split.
  - intros (u & He & Hu). apply elem_of_seq in Hu. exists u. split; [lia|].
    apply elem_of_cons in He as [->|He]; [left; f_equal; lia|]. apply list_elem_of_singleton in He as ->. right. f_equal; lia.
  - intros (u & Hu & He). exists u. rewrite elem_of_seq. split; [|lia]. unfold path_pair. rewrite elem_of_cons, list_elem_of_singleton.
    destruct He as [-> | ->]; [left|right]; f_equal; lia.
Qed.

Lemma elem_of_cross_edges n u v : mkEdge u v ∈ cross_edges n ↔ u < half n ≤ v ∧ v < n.
Proof.
  unfold cross_edges. rewrite list_elem_of_bind. split.
  - intros (w & He & Hw). apply elem_of_seq in Hw. apply list_elem_of_fmap in He as (x & Hx & Hin). injection Hx as -> ->.
    apply elem_of_seq in Hin. lia.
  - intros H. exists u. rewrite elem_of_seq. split; [|lia]. apply list_elem_of_fmap. exists v. rewrite elem_of_seq. split; [done|lia].
Qed.

Lemma path_edges_NoDup n : path_length n ≤ half n → NoDup (path_edges n).
Proof.
  intros Hlen. apply NoDup_bind; [|intros u Hu; unfold path_pair|apply NoDup_seq].
  - intros u w e Hu Hw He He'. apply elem_of_seq in Hu, Hw. unfold path_pair in *.
    rewrite elem_of_cons, list_elem_of_singleton in He, He'.
    destruct He as [-> | ->], He' as [He'|He']; injection He'; lia.
  - apply elem_of_seq in Hu. apply list.NoDup_cons. split; [|apply NoDup_singleton].
    rewrite list_elem_of_singleton. intros He. injection He. lia.
Qed.

Lemma cross_edges_NoDup n : NoDup (cross_edges n).
Proof.
  apply NoDup_bind; [| |apply NoDup_seq].
  - intros u w e _ _ He He'. apply list_elem_of_fmap in He as (x & -> & _), He' as (y & He' & _). by injection He'.
  - intros u _. apply NoDup_fmap_2; [|apply NoDup_seq]. intros x y H. by injection H.
Qed.

Section even.
Variable n : nat.
Hypothesis even : n mod 2 = 0.
Hypothesis two : 2 ≤ n.
Hypothesis word : (N.of_nat n < 2 ^ 32)%N.

Lemma n_halves : n = 2 * half n.
Proof. unfold half. pose proof (Nat.div_mod_eq n 2). lia. Qed.

Lemma path_bound : path_length n = half n - 1.
Proof. by apply path_length_small. Qed.

Lemma elem_of_old_edges u v : mkEdge u v ∈ old_edges n ↔ u < v < n ∧ (v = S u ∨ u < half n ≤ v).
Proof.
  pose proof n_halves as Hn. unfold old_edges. rewrite elem_of_app, elem_of_path_edges, elem_of_cross_edges, path_bound. split.
  - intros [(w & Hw & [He|He])|H]; [injection He; lia|injection He; lia|lia].
  - intros [Huv [->|H]]; [|right; lia]. destruct (decide (S u = half n)); [right; lia|]. left.
    destruct (decide (u < half n)); [exists u; split; [lia|by left]|].
    exists (u - half n). split; [lia|]. right. f_equal; lia.
Qed.

Lemma old_edges_NoDup : NoDup (old_edges n).
Proof.
  pose proof n_halves as Hn. apply NoDup_app. split; [apply path_edges_NoDup; rewrite path_bound; lia|]. split; [|apply cross_edges_NoDup].
  intros [u v] Hpath Hcross. apply elem_of_cross_edges in Hcross. apply elem_of_path_edges in Hpath as (w & Hw & He).
  rewrite path_bound in Hw. destruct He as [He|He]; injection He; lia.
Qed.

Lemma length_path_edges : length (path_edges n) = 2 * (half n - 1).
Proof.
  rewrite <- path_bound. unfold path_edges. generalize (path_length n) as k. generalize 0 at 1 as a.
  intros a k. revert a. induction k as [|k IH]; intros a; [done|].
  cbn [seq]. rewrite bind_cons, length_app, IH. cbn [path_pair length]. lia.
Qed.

Lemma length_cross_edges : length (cross_edges n) = half n * half n.
Proof.
  unfold cross_edges. replace (n - half n) with (half n) by (pose proof n_halves; lia). generalize (half n) at 3 4 as k.
  generalize (half n) as h. generalize 0 as a. intros a h k. revert a. induction k as [|k IH]; intros a; [done|].
  cbn [seq]. rewrite bind_cons, length_app, IH, length_fmap, length_seq. lia.
Qed.

(** No wrap around: the declared number of edges is that of the list. *)
Lemma old_num_edges_exact : (N.of_nat n ≤ 131070)%N → old_num_edges n = N.of_nat (length (old_edges n)).
Proof.
  intros Hle. pose proof n_halves as Hn. unfold old_edges. rewrite length_app, length_path_edges, length_cross_edges.
  unfold old_num_edges. assert (Hh : (N.of_nat (half n) ≤ 65535)%N) by lia.
  pose proof (N.mul_le_mono _ _ _ _ Hh Hh) as Hsq. rewrite wsub_small by lia. rewrite (wrap_small 32 (_ * _)) by lia.
  rewrite wrap_small by lia. rewrite Nat2N.inj_add, Nat2N.inj_mul. lia.
Qed.

Lemma adj_elem es u v : v ∈ adj es u ↔ mkEdge u v ∈ es ∨ mkEdge v u ∈ es.
Proof.
  unfold adj. rewrite list_elem_of_bind. split.
  - intros ([a b] & Hv & He). cbn [src dst] in Hv. apply elem_of_app in Hv as [Hv|Hv].
    + destruct (Nat.eqb_spec a u) as [Ha|]; [apply list_elem_of_singleton in Hv; subst; by left|by apply not_elem_of_nil in Hv].
    + destruct (Nat.eqb_spec b u) as [Hb|]; [apply list_elem_of_singleton in Hv; subst; by right|by apply not_elem_of_nil in Hv].
  - intros [He|He]; eexists; (split; [|exact He]); cbn [src dst]; rewrite Nat.eqb_refl, elem_of_app, list_elem_of_singleton; tauto.
Qed.

Lemma old_adj u : adj (old_edges n) u ≠ [] ↔ u < n.
Proof.
  pose proof n_halves as Hn. split.
  - intros Hne. destruct (adj (old_edges n) u) as [|v l] eqn:Hadj; [done|].
    assert (Hv : v ∈ adj (old_edges n) u) by (rewrite Hadj; by apply list_elem_of_here).
    apply adj_elem in Hv as [Hv|Hv]; apply elem_of_old_edges in Hv; lia.
  - intros Hu Hnil. assert (Hv : (if decide (u < half n) then half n else 0) ∈ adj (old_edges n) u).
    { apply adj_elem. rewrite !elem_of_old_edges. destruct (decide (u < half n)); [left|right]; lia. }
    rewrite Hnil in Hv. by apply not_elem_of_nil in Hv.
Qed.
End even.
