(* ===== verification/StreamGenProps.v ===== *)
(** * What the generators promise

    The old generator's stream and METIS file, the single-cut stream, and the
    non-trivial generator's stream for any random numbers. *)

From Stdlib Require Import NArith Lia.
From stdpp Require Import base list gmap numbers sorting.
From S2P Require Import Prelude Util CCSketchAlg StreamGen StreamGenSpec.

(** ** Streams that toggle only what they may *)

Abbreviation edge_set := (gset (nat * nat)).

Definition ends (e : Edge) : nat * nat := (src e, dst e).

(** A stream is well formed from a set of edges when it inserts only absent edges and
    deletes only present ones; it leaves another set. *)
Definition apply_update (X : edge_set) (u : GraphUpdate) : option edge_set :=
  match type u with
  | INSERT => if decide (ends (edge u) ∈ X) then None else Some ({[ends (edge u)]} ∪ X)
  | DELETE => if decide (ends (edge u) ∈ X) then Some (X ∖ {[ends (edge u)]}) else None
  | BREAKPOINT => None
  end.

Fixpoint apply_stream (us : list GraphUpdate) (X : edge_set) : option edge_set :=
  match us with
  | [] => Some X
  | u :: us => X ← apply_update X u; apply_stream us X
  end.

Lemma apply_stream_app us1 us2 X Y :
  apply_stream us1 X = Some Y → apply_stream (us1 ++ us2) X = apply_stream us2 Y.
Proof.
  revert X. induction us1 as [|u us1 IH]; intros X HX; [by injection HX as ->|].
  cbn [apply_stream app] in *. destruct (apply_update X u) as [Z|]; [|done]. by apply IH.
Qed.

Definition edge_set_of (es : list Edge) : edge_set := list_to_set (ends <$> es).

Lemma elem_of_edge_set_of es e : ends e ∈ edge_set_of es ↔ e ∈ es.
Proof.
  unfold edge_set_of. rewrite elem_of_list_to_set, list_elem_of_fmap. split; [|intros He; by exists e].
  intros ([a b] & Heq & He). destruct e. injection Heq as -> ->. done.
Qed.

Lemma insert_all es X :
  NoDup es → (∀ e, e ∈ es → ends e ∉ X) → apply_stream (insert_of <$> es) X = Some (edge_set_of es ∪ X).
Proof.
  revert X. induction es as [|e es IH]; intros X Hnd Hnew; [cbn; by rewrite (left_id_L ∅ (∪))|].
  apply list.NoDup_cons in Hnd as [He Hnd]. rewrite fmap_cons. cbn [apply_stream].
  unfold apply_update at 1. cbn [insert_of type edge]. rewrite decide_False by (apply Hnew, list_elem_of_here). cbn [mbind option_bind].
  rewrite IH; [|done|].
  - f_equal. unfold edge_set_of. rewrite fmap_cons. rewrite list_to_set_cons. set_solver.
  - intros x Hx Hin. apply elem_of_union in Hin as [Hin|Hin]; [|by apply (Hnew x); [apply list_elem_of_further|]].
    apply elem_of_singleton in Hin. apply He. destruct e, x. injection Hin as -> ->. done.
Qed.

Definition delete_of (e : Edge) : GraphUpdate := mkUpdate e DELETE.

Lemma delete_all es X :
  NoDup es → (∀ e, e ∈ es → ends e ∈ X) → apply_stream (delete_of <$> es) X = Some (X ∖ edge_set_of es).
Proof.
  revert X. induction es as [|e es IH]; intros X Hnd Hin; [cbn; by rewrite difference_empty_L|].
  apply list.NoDup_cons in Hnd as [He Hnd]. rewrite fmap_cons. cbn [apply_stream].
  unfold apply_update at 1. cbn [delete_of type edge]. rewrite decide_True by (apply Hin, list_elem_of_here). cbn [mbind option_bind].
  rewrite IH; [|done|].
  - f_equal. unfold edge_set_of. rewrite fmap_cons. rewrite list_to_set_cons. set_solver.
  - intros x Hx. apply elem_of_difference. split; [by apply Hin, list_elem_of_further|].
    rewrite elem_of_singleton. intros Heq. apply He. destruct e, x. injection Heq as -> ->. done.
Qed.

Lemma flicker_all es X :
  (∀ e, e ∈ es → ends e ∉ X) → apply_stream (es ≫= λ e, [insert_of e; delete_of e]) X = Some X.
Proof.
  induction es as [|e es IH]; intros Hnew; [done|]. rewrite bind_cons.
  assert (Hfresh : ends e ∉ X) by apply Hnew, list_elem_of_here.
  rewrite (apply_stream_app _ _ _ X); [apply IH; intros; by apply Hnew, list_elem_of_further|].
  cbn [apply_stream]. assert (Hins : apply_update X (insert_of e) = Some ({[ends e]} ∪ X)).
  { unfold apply_update. cbn [insert_of type edge]. by rewrite decide_False. }
  rewrite Hins. cbn [mbind option_bind]. unfold apply_update. cbn [delete_of type edge].
  rewrite decide_True by set_solver. cbn [mbind option_bind]. f_equal. set_solver.
Qed.

(** ** The single-cut stream *)

Module SingleCutFacts.
Import SingleCut.

Definition cut_edges (n : nat) : list Edge := cross n <$> seq 0 (half n).

Definition round_updates (n : nat) : list GraphUpdate :=
  (insert_of <$> cut_edges n) ++ (delete_of <$> cut_edges n) ++ (cut_edges n ≫= λ e, [insert_of e; delete_of e]).

Lemma write_loop_state n m us g (f : nat → GraphUpdate) l :
  gen_state n m false us g →
  gen_state n m false (us ++ (f <$> l)) (foldl (λ g u, write_update (edge (f u)) (type (f u)) g) g l).
Proof.
  intros Hg. replace (f <$> l) with (l ≫= λ u, [f u]).
  2:{ induction l as [|u l IH]; [done|]. by rewrite bind_cons, IH. }
  apply loop_state; [|done]. clear. intros us g u [Hcalls _]. unfold gen_state. cbn [write_update calls].
  rewrite Hcalls, fmap_app. split; [|done]. by destruct (f u).
Qed.

Lemma round_state n m k us g : gen_state n m false us g → gen_state n m false (us ++ round_updates k) (round k g 0).
Proof.
  intros Hg. unfold round, round_updates. rewrite !app_assoc. unfold cut_edges. rewrite <- !list_fmap_compose, list_fmap_bind.
  apply loop_state.
  - clear. intros us g u [Hcalls _]. unfold gen_state. cbn [write_update calls]. rewrite Hcalls, fmap_app, <- app_assoc. done.
  - apply (write_loop_state _ _ _ _ (delete_of ∘ cross k)). by apply (write_loop_state _ _ _ _ (insert_of ∘ cross k)).
Qed.

Lemma length_round n : length (round_updates n) = 4 * half n.
Proof.
  assert (Hbind : ∀ es, length (es ≫= λ e, [insert_of e; delete_of e]) = 2 * length es).
  { induction es as [|e es IH]; [done|]. rewrite bind_cons, length_app, IH. cbn [length]. lia. }
  unfold round_updates. rewrite !length_app, Hbind, !length_fmap. unfold cut_edges. rewrite length_fmap, length_seq. lia.
Qed.

Lemma cut_edges_NoDup n : NoDup (cut_edges n).
Proof. apply NoDup_fmap_2; [|apply NoDup_seq]. intros x y H. by injection H. Qed.

(** A round ends with the edges it began with. *)
Lemma round_valid n X :
  (∀ e, e ∈ cut_edges n → ends e ∉ X) → apply_stream (round_updates n) X = Some X.
Proof.
  intros Hnew. unfold round_updates.
  rewrite (apply_stream_app _ _ _ (edge_set_of (cut_edges n) ∪ X)) by (apply insert_all; [apply cut_edges_NoDup|done]).
  rewrite (apply_stream_app _ _ _ X); [by apply flicker_all|].
  rewrite delete_all; [|apply cut_edges_NoDup|].
  - f_equal. apply set_eq. intros x. rewrite elem_of_difference, elem_of_union. split; [tauto|]. intros Hx. split; [by right|].
    unfold edge_set_of. rewrite elem_of_list_to_set, list_elem_of_fmap. intros (e & -> & He). by apply (Hnew e).
  - intros e He. apply elem_of_union. left. by apply elem_of_edge_set_of.
Qed.

Lemma rounds_valid n k X :
  (∀ e, e ∈ cut_edges n → ends e ∉ X) → apply_stream (seq 0 k ≫= λ _, round_updates n) X = Some X.
Proof.
  intros Hnew. generalize 0 as a. induction k as [|k IH]; intros a; [done|]. cbn [seq]. rewrite bind_cons.
  rewrite (apply_stream_app _ _ _ X) by by apply round_valid. apply IH.
Qed.

Definition all_updates (n : nat) : list GraphUpdate :=
  (insert_of <$> path_edges n) ++ (seq 0 (num_rounds n) ≫= λ _, round_updates n).

Lemma length_all n :
  n mod 2 = 0 → 2 ≤ n → (N.of_nat n < 2 ^ 32)%N → length (all_updates n) = n - 2 + 2 * num_rounds n * n.
Proof.
  intros Heven Hn Hw. unfold all_updates. rewrite length_app, length_fmap, length_path_edges by done.
  assert (Hrounds : ∀ k, length (seq 0 k ≫= λ _, round_updates n) = k * (4 * half n)).
  { intros k. generalize 0 at 1 as a. induction k as [|k IH]; intros a; [done|]. cbn [seq].
    rewrite bind_cons, length_app, IH, length_round. lia. }
  rewrite Hrounds. pose proof (n_halves n Heven Hn Hw) as Hh. set (h := half n) in *. set (r := num_rounds n) in *.
  clearbody h r. clear Hrounds. subst n. nia.
Qed.

Lemma generate_calls n :
  n mod 2 = 0 → generate_binary_stream n = WriteHeader (N.of_nat n) (num_edges n) :: ((λ u, WriteUpdates [u]) <$> all_updates n).
Proof.
  intros Heven. unfold generate_binary_stream. rewrite Heven. cbn [Nat.eqb].
  assert (Hpaths := build_paths_state _ _ _ n _ _ (gen_state_open (N.of_nat n) (num_edges n) false)).
  cbn [app] in Hpaths.
  assert (Hg := loop_state _ _ _ (round n) (λ _, round_updates n) (seq 0 (num_rounds n)) _ _
    (λ us g _, round_state _ _ n us g) Hpaths).
  apply Hg.
Qed.

Lemma num_edges_exact n :
  n mod 2 = 0 → 2 ≤ n → (N.of_nat n < 2 ^ 32)%N → num_edges n = N.of_nat (length (all_updates n)).
Proof.
  intros Heven Hn Hw. rewrite length_all by done. unfold num_edges.
  assert (Hr : num_rounds n ≤ n) by (apply Nat.Div0.div_le_upper_bound; lia).
  assert (Hprod : (2 * N.of_nat (num_rounds n) * N.of_nat n < 2 ^ 63)%N).
  { assert (8 * num_rounds n ≤ n) by apply Nat.Div0.mul_div_le. nia. }
  rewrite wsub_small by lia. rewrite (wrap_small 64 (2 * _)) by lia. rewrite (wrap_small 64 (_ * _)) by lia.
  rewrite wrap_small by lia. rewrite Nat2N.inj_add, Nat2N.inj_mul, Nat2N.inj_mul. lia.
Qed.

Lemma all_updates_valid n :
  n mod 2 = 0 → 2 ≤ n → (N.of_nat n < 2 ^ 32)%N → apply_stream (all_updates n) ∅ = Some (edge_set_of (path_edges n)).
Proof.
  intros Heven Hn Hw. pose proof (path_bound n Hn Hw) as Hlen. unfold all_updates.
  rewrite (apply_stream_app _ _ _ (edge_set_of (path_edges n))).
  - apply rounds_valid. intros e He. rewrite elem_of_edge_set_of. intros Hpath.
    apply list_elem_of_fmap in He as (u & -> & Hu). apply elem_of_seq in Hu.
    apply elem_of_path_edges in Hpath as (w & Hwl & Heq). destruct Heq as [Heq|Heq]; injection Heq; intros; lia.
  - rewrite insert_all; [by rewrite (right_id_L ∅ (∪))|apply path_edges_NoDup; lia|set_solver].
Qed.
End SingleCutFacts.

(** ** The non-trivial generator, for any random numbers *)

(** A distribution gives numbers between its bounds. *)
Definition draws_in_range (draw : nat → nat → nat → nat) : Prop :=
  ∀ k lo hi, lo ≤ hi → lo ≤ draw k lo hi ≤ hi.

(** Of any [K + 1] numbers in a row some one differs from a given number. *)
Definition draws_vary (draw : nat → nat → nat → nat) (K : nat) : Prop :=
  ∀ k lo hi x, lo < hi → ∃ j, j ≤ K ∧ draw (k + j) lo hi ≠ x.

Section random.
Variables (draw : nat → nat → nat → nat) (K n : nat).
Hypothesis range : draws_in_range draw.
Hypothesis vary : draws_vary draw K.
Hypothesis even : n mod 2 = 0.
Hypothesis two : 2 ≤ n.
Hypothesis small : (N.of_nat n ≤ 131070)%N.

(** An edge inside what the code calls a component: the nodes up to [n / 2], or those
    from there to [n], both ends included. *)
Definition inner_edge (e : Edge) : Prop :=
  src e ≠ dst e ∧ ((src e ≤ half n ∧ dst e ≤ half n) ∨ (half n ≤ src e ≤ n ∧ half n ≤ dst e ≤ n)).

Definition cut_edge (e : Edge) : Prop := src e ≤ half n ≤ dst e ∧ dst e ≤ n.

Lemma reroll_ok fuel lo hi x y k :
  lo < hi → lo ≤ y ≤ hi → (y ≠ x ∨ ∃ j, j < fuel ∧ draw (k + j) lo hi ≠ x) →
  ∃ z k', reroll draw fuel lo hi x y k = Ok (z, k') ∧ z ≠ x ∧ lo ≤ z ≤ hi.
Proof.
  intros Hlt. revert y k. induction fuel as [|fuel IH]; intros y k Hy Hvary; cbn [reroll];
    (destruct (Nat.eqb_spec x y) as [<-|Hne]; [|exists y, k; done]).
  - destruct Hvary as [|(j & Hj & _)]; [done|lia].
  - apply IH; [apply range; lia|]. destruct Hvary as [|(j & Hj & Hd)]; [done|]. destruct j as [|j].
    + left. by rewrite Nat.add_0_r in Hd.
    + right. exists j. split; [lia|]. by replace (S k + j) with (k + S j) by lia.
Qed.

Lemma pick_two_ok lo hi k :
  lo < hi → ∃ e k', pick_two draw (S K) lo hi k = Ok (e, k') ∧ src e ≠ dst e ∧ lo ≤ src e ≤ hi ∧ lo ≤ dst e ≤ hi.
Proof.
  intros Hlt. unfold pick_two.
  destruct (vary (S (S k)) lo hi (draw k lo hi) Hlt) as (j & Hj & Hd).
  destruct (reroll_ok (S K) lo hi (draw k lo hi) (draw (S k) lo hi) (S (S k)) Hlt) as (z & k' & -> & Hz & Hr).
  - apply range. lia.
  - right. exists j. split; [lia|done].
  - exists (mkEdge (draw k lo hi) z), k'. cbn. split; [done|]. split; [done|]. split; [apply range; lia|done].
Qed.

Lemma inner_step_ok metis us g k i :
  gen_state (N.of_nat n) (num_edges n) metis us g →
  ∃ g' k' l r, inner_step draw (S K) n metis (g, k) i = Ok (g', k') ∧ inner_edge l ∧ inner_edge r ∧
    gen_state (N.of_nat n) (num_edges n) metis (us ++ [insert_of l; insert_of r]) g'.
Proof.
  intros [Hcalls Htracks]. assert (1 ≤ half n) by (apply Nat.div_le_lower_bound; lia).
  assert (half n < n) by (apply Nat.Div0.div_lt_upper_bound; lia).
  unfold inner_step. cbn [fst snd].
  destruct (pick_two_ok 0 (half n) k) as (l & k1 & -> & Hl); [lia|]. cbn [mbind outcome_bind fst snd].
  destruct (pick_two_ok (half n) n k1) as (r & k2 & -> & Hr); [lia|]. cbn [mbind outcome_bind fst snd].
  eexists _, k2, l, r. split; [done|]. unfold inner_edge. split; [lia|]. split; [lia|].
  unfold gen_state. rewrite !fmap_app. destruct metis; cbn [set_nodes calls nodes_list write_update]; rewrite Hcalls, <- app_assoc.
  - split; [done|]. intros _. pose proof (tracks_push_both _ _ r (tracks_push_both _ _ l (Htracks eq_refl))) as Hnew.
    by rewrite <- app_assoc in Hnew.
  - done.
Qed.

Lemma inner_loop_ok metis l us g k :
  gen_state (N.of_nat n) (num_edges n) metis us g →
  ∃ g' k' es, outcome_fold (inner_step draw (S K) n metis) (g, k) l = Ok (g', k') ∧ length es = 2 * length l ∧
    Forall inner_edge es ∧ gen_state (N.of_nat n) (num_edges n) metis (us ++ (insert_of <$> es)) g'.
Proof.
  revert us g k. induction l as [|i l IH]; intros us g k Hg.
  { exists g, k, []. rewrite app_nil_r. done. }
  cbn [outcome_fold]. destruct (inner_step_ok metis us g k i Hg) as (g1 & k1 & a & b & -> & Ha & Hb & Hg1).
  cbn [mbind outcome_bind]. destruct (IH _ _ k1 Hg1) as (g2 & k2 & es & -> & Hlen & Hes & Hg2).
  exists g2, k2, (a :: b :: es). split; [done|]. split; [cbn; lia|]. split; [by constructor; [|constructor]|].
  by rewrite <- app_assoc in Hg2.
Qed.

Lemma cut_loop_ok metis l us g k :
  gen_state (N.of_nat n) (num_edges n) metis us g →
  ∃ es, length es = length l ∧ Forall cut_edge es ∧
    gen_state (N.of_nat n) (num_edges n) metis (us ++ (insert_of <$> es)) (foldl (cut_step draw n metis) (g, k) l).1.
Proof.
  revert us g k. induction l as [|i l IH]; intros us g k Hg.
  { exists []. rewrite app_nil_r. done. }
  assert (half n ≤ n) by (apply Nat.Div0.div_le_upper_bound; lia).
  set (e := mkEdge (draw k 0 (half n)) (draw (S k) (half n) n)).
  destruct (IH (us ++ [insert_of e]) (if metis then set_nodes (push_both e) (write_update e INSERT g) else write_update e INSERT g)
    (S (S k))) as (es & Hlen & Hes & Hg').
  { apply gen_state_write; [done|]. intros _ es x Hx. by apply tracks_push_both. }
  exists (e :: es). split; [cbn; lia|]. split; [constructor; [|done]|by rewrite <- app_assoc in Hg'].
  unfold cut_edge. cbn [src dst e]. pose proof (range k 0 (half n) ltac:(lia)). pose proof (range (S k) (half n) n ltac:(lia)). lia.
Qed.

Lemma num_edges_sum : num_edges n = N.of_nat (2 * (half n - 1) + 2 * (half n * (n / 4)) + min_cut).
Proof.
  assert (Hw : (N.of_nat n < 2 ^ 32)%N) by lia. pose proof (n_halves n even two Hw) as Hn.
  assert (Hq : 4 * (n / 4) ≤ n) by apply Nat.Div0.mul_div_le.
  assert (Hh : (N.of_nat (half n) ≤ 65535)%N) by lia. assert (Hf : (N.of_nat (n / 4) ≤ 32767)%N) by lia.
  pose proof (N.mul_le_mono _ _ _ _ Hh Hf) as Hprod. unfold num_edges.
  rewrite wsub_small by lia. rewrite (wrap_small 32 (N.of_nat (half n) * _)) by lia.
  rewrite (wrap_small 32 (_ * 2)) by lia. rewrite wrap_small by lia.
  rewrite !Nat2N.inj_add, !Nat2N.inj_mul. lia.
Qed.
End random.

(** ** Where the generators fall short *)

(** Numbers that are the two bounds of their distribution in turn. *)
Definition ends_in_turn (k lo hi : nat) : nat := if Nat.even k then lo else hi.

Lemma ends_in_turn_range : draws_in_range ends_in_turn.
Proof. intros k lo hi H. unfold ends_in_turn. destruct (Nat.even k); lia. Qed.

Lemma ends_in_turn_vary : draws_vary ends_in_turn 1.
Proof.
  intros k lo hi x Hlt. destruct (decide (ends_in_turn k lo hi = x)) as [Heq|Hne].
  - exists 1. split; [done|]. rewrite Nat.add_1_r. unfold ends_in_turn in *. rewrite Nat.even_succ, <- Nat.negb_even.
    destruct (Nat.even k); cbn; lia.
  - exists 0. split; [lia|]. by rewrite Nat.add_0_r.
Qed.

(** The distributions include their upper bounds: with 8 nodes the stream has edges of a
    node 8, the METIS file a ninth line, and edges meant to be inside the left half
    cross to the right one, beyond the ten of the cut. Edges are inserted again. *)
Lemma random_stream_leaves_range :
  match generate_binary_stream ends_in_turn 2 8 true with
  | Ok (cs, Some f) =>
      (∃ e, e ∈ edge <$> written cs ∧ dst e = 8) ∧ length (metis_lines f) = 9 ∧
      length (filter (λ e, src e < half 8 ≤ dst e) (edge <$> written cs)) = 18 ∧
      apply_stream (written cs) ∅ = None
  | _ => False
  end.
Proof.
  vm_compute. split; [|done]. exists (mkEdge 4 8). split; [|done]. apply list_elem_of_In. cbn. tauto.
Qed.

(** With 131072 nodes the product of the halves wraps around to 0. *)
Lemma old_header_wraps : old_num_edges (N.to_nat 131072) = 131070%N.
Proof.
  unfold old_num_edges, half. rewrite N2Nat.id. assert (H : N.of_nat (N.to_nat 131072 / 2) = 65536%N).
  { rewrite Nat2N.inj_div, N2Nat.id. done. }
  by rewrite H.
Qed.

(** Without nodes the loops over the paths have 4294967295 rounds. *)
Lemma empty_paths_are_long : N.of_nat (path_length 0) = 4294967295%N.
Proof. unfold path_length. by rewrite N2Nat.id. Qed.

(** ** Claims *)

(** C30. The old generator, for an even number of nodes small enough for its 32-bit
    products: it declares as many edges as it writes; it writes, each once and as an
    insertion, the edges of a path in each half and all edges between the halves; and
    the METIS file has the same header and, line by line, each node's neighbours in
    that graph. *)
Theorem old_stream_and_metis_agree n :
  n mod 2 = 0 → 2 ≤ n → (N.of_nat n ≤ 131070)%N →
  ∃ es, NoDup es ∧ (∀ u v, mkEdge u v ∈ es ↔ u < v < n ∧ (v = S u ∨ u < half n ≤ v)) ∧
    let m := N.of_nat (length es) in
    let cs := WriteHeader (N.of_nat n) m :: ((λ u, WriteUpdates [u]) <$> (insert_of <$> es)) in
    old_generate_binary_stream n false = Ok (cs, None) ∧
    old_generate_binary_stream n true = Ok (cs, Some (metis_of (N.of_nat n) m es (seq 0 n))).
Proof.
  intros Heven Hn Hsmall. assert (Hw : (N.of_nat n < 2 ^ 32)%N) by lia. exists (old_edges n).
  split; [by apply old_edges_NoDup|]. split; [intros u v; by apply elem_of_old_edges|].
  cbv zeta. rewrite <- old_num_edges_exact by done. unfold old_generate_binary_stream. rewrite Heven. cbn [Nat.eqb].
  set (m := old_num_edges n).
  assert (Hstate : ∀ metis, gen_state (N.of_nat n) m metis (insert_of <$> old_edges n)
    (connect_halves n metis (build_paths n metis (open_gen (N.of_nat n) m)))).
  { intros metis. unfold old_edges. rewrite fmap_app. apply connect_halves_state.
    apply (build_paths_state _ _ _ n []). apply gen_state_open. }
  split; unfold finish.
  - by destruct (Hstate false) as [-> _].
  - destruct (Hstate true) as [-> Htracks]. rewrite <- list_fmap_compose, list_fmap_id in Htracks.
    rewrite (metis_of_tracks _ _ _ _ (seq 0 n) (Htracks eq_refl)); [done|apply seq_sorted| |].
    + intros u. rewrite old_adj by done. rewrite elem_of_seq. lia.
    + intros [u v] He. apply elem_of_old_edges in He; [|done..]. cbn. lia.
Qed.

Lemma old_stream_and_metis_agree_witness :
  ∃ es, NoDup es ∧ (∀ u v, mkEdge u v ∈ es ↔ u < v < 6 ∧ (v = S u ∨ u < half 6 ≤ v)) ∧
    let m := N.of_nat (length es) in
    let cs := WriteHeader 6 m :: ((λ u, WriteUpdates [u]) <$> (insert_of <$> es)) in
    old_generate_binary_stream 6 false = Ok (cs, None) ∧
    old_generate_binary_stream 6 true = Ok (cs, Some (metis_of 6 m es (seq 0 6))).
Proof. apply (old_stream_and_metis_agree 6); [done|lia|done]. Defined.

(** The single-cut stream: it declares as many updates as it writes; every
    insertion is of an edge that is absent and every deletion of one that is there; and
    what is left are the two paths, no edge of the cut. *)
Theorem single_cut_stream_well_formed n :
  n mod 2 = 0 → 2 ≤ n → (N.of_nat n < 2 ^ 32)%N →
  ∃ us, SingleCut.generate_binary_stream n =
          WriteHeader (N.of_nat n) (N.of_nat (length us)) :: ((λ u, WriteUpdates [u]) <$> us) ∧
        length us = n - 2 + 2 * (n / 8) * n ∧
        ∃ X, apply_stream us ∅ = Some X ∧
             ∀ u v, (u, v) ∈ X ↔ v = S u ∧ v < n ∧ v ≠ half n.
Proof.
  intros Heven Hn Hw. exists (SingleCutFacts.all_updates n).
  split; [rewrite <- SingleCutFacts.num_edges_exact by done; by apply SingleCutFacts.generate_calls|].
  split; [by apply SingleCutFacts.length_all|].
  exists (edge_set_of (path_edges n)). split; [by apply SingleCutFacts.all_updates_valid|].
  intros u v. change (u, v) with (ends (mkEdge u v)). rewrite elem_of_edge_set_of, elem_of_path_edges.
  rewrite (path_bound n Hn Hw). pose proof (n_halves n Heven Hn Hw) as Hh. split.
  - intros (w & Hwl & [He|He]); injection He; intros; lia.
  - intros (-> & Hv & Hne). destruct (decide (u < half n)).
    + exists u. split; [lia|by left].
    + exists (u - half n). split; [lia|]. right. f_equal; lia.
Qed.

Lemma single_cut_stream_well_formed_witness :
  ∃ us, SingleCut.generate_binary_stream 16 = WriteHeader 16 (N.of_nat (length us)) :: ((λ u, WriteUpdates [u]) <$> us) ∧
        length us = 16 - 2 + 2 * (16 / 8) * 16 ∧
        ∃ X, apply_stream us ∅ = Some X ∧ ∀ u v, (u, v) ∈ X ↔ v = S u ∧ v < 16 ∧ v ≠ half 16.
Proof. apply (single_cut_stream_well_formed 16); [done|lia|done]. Defined.


