(* ===== verification/StreamTools.v ===== *)
(** * Programs on stream files: src/tools/converter, src/tools/others/stream_shuffler.cpp
    and src/tools/adjlist_test.cpp

    Conversions between edge lists, streams and METIS files, the shuffler, and a test of
    adjacency lists shared by threads. The programs read a stream through
    [get_update_buffer] of another repository: a stream is the list of the buffers its
    calls give. A text file is the list of the numbers [std::stoi] reads from its
    lines, each an [int]. *)

From Stdlib Require Import NArith ZArith Lia.
From stdpp Require Import base list gmap numbers sorting.
From S2P Require Import Prelude Util CCSketchAlg StreamGen.

(** An [int] stored in an unsigned word. *)
Definition to_word (w : Z) (z : Z) : N := Z.to_N (z mod 2 ^ w).

(** ** Reading a stream *)

Section read.
Context {St : Type} (handle : St → GraphUpdate → outcome St).

(** The loop over a buffer: the state, and whether a breakpoint was met. *)
Fixpoint read_buffer (s : St) (buffer : list GraphUpdate) : outcome (St * bool) :=
  match buffer with
  | [] => Ok (s, false)
  | u :: buffer =>
      if decide (type u = BREAKPOINT) then Ok (s, true)
      else s ← handle s u; read_buffer s buffer
  end.

(** [while (!read_complete)]; without a breakpoint the program asks for more. *)
Fixpoint read_stream (s : St) (buffers : list (list GraphUpdate)) : outcome St :=
  match buffers with
  | [] => Throw OutOfFuel
  | b :: buffers => '(s, read_complete) ← read_buffer s b;
      if read_complete : bool then Ok s else read_stream s buffers
  end.
End read.

(** ** Writing through an array *)

Record Writer := mkWriter { update_array : list GraphUpdate; update_array_index : nat; w_calls : list file_call }.

(** Store an edge in the array; a full array is written. *)
Definition put_edge (size : nat) (w : Writer) (e : Edge) : outcome Writer :=
  a ← arr_get (update_array w) (update_array_index w);
  array ← arr_set (update_array w) (update_array_index w) (mkUpdate e (type a));
  let i := S (update_array_index w) in
  Ok (if i =? size then mkWriter array 0 (w_calls w ++ [WriteUpdates array]) else mkWriter array i (w_calls w)).

(** What remains in the array. *)
Definition put_rest (w : Writer) : list file_call :=
  if 0 <? update_array_index w then w_calls w ++ [WriteUpdates (take (update_array_index w) (update_array w))]
  else w_calls w.

(** ** csv_converter.cpp *)

Module Csv.
(** [edges] and [total_read_updates]. *)
Definition handle (st : gset N * nat) (u : GraphUpdate) : outcome (gset N * nat) :=
  let edge_id := concat_pairing_fn (src (edge u)) (dst (edge u)) in
  let edges := st.1 in
  edges ← (if decide (edge_id ∈ edges) then
             if decide (edge_id ∈ edges) then Ok (edges ∖ {[edge_id]}) else Throw RuntimeError
           else Ok ({[edge_id]} ∪ edges));
  Ok (edges, S st.2).

(** The lines of an edge. *)
Definition lines_of (edge_id : N) : list (nat * nat) :=
  let e := inv_concat_pairing_fn edge_id in [(src e, dst e); (dst e, src e)].

(** The number of updates, of edges, and the lines written. *)
Definition main (buffers : list (list GraphUpdate)) : outcome (nat * nat * list (nat * nat)) :=
  st ← read_stream handle (∅, 0) buffers;
  Ok (st.2, size st.1, elements st.1 ≫= lines_of).
End Csv.

(** ** stream_shuffler.cpp *)

Module Shuffler.
Definition update_array_size : nat := N.to_nat 10000.

Definition handle (edges : list Edge) (u : GraphUpdate) : outcome (list Edge) := Ok (edges ++ [edge u]).

(** [shuffle] is [std::shuffle] with the engine of seed 0; [vertices] and [edges] are
    those of the header of the stream. *)
Definition main (shuffle : list Edge → list Edge) (vertices num_edges : N) (buffers : list (list GraphUpdate))
    : outcome (list file_call) :=
  edges ← read_stream handle [] buffers;
  let edges := shuffle edges in
  let w := mkWriter (replicate update_array_size (mkUpdate (mkEdge 0 0) INSERT)) 0 [WriteHeader vertices num_edges] in
  w ← outcome_fold (put_edge update_array_size) w edges;
  Ok (put_rest w).
End Shuffler.

(** ** stream_converter.cpp *)

Module ToStream.
Definition num_write_updates : nat := N.to_nat 4000.

Definition node_of (z : Z) : nat := N.to_nat (to_word 32 z).

(** The nodes seen, and the counts of them and of edges. *)
Record Counts := mkCounts { node_ids : gset nat; num_read_nodes : nat; num_read_edges : nat }.

Definition see_node (v : nat) (c : Counts) : Counts :=
  if decide (v ∈ node_ids c) then c else mkCounts ({[v]} ∪ node_ids c) (S (num_read_nodes c)) (num_read_edges c).

Definition step (st : Writer * Counts) (line : Z * Z) : outcome (Writer * Counts) :=
  let node1 := node_of line.1 in
  let node2 := node_of line.2 in
  w ← put_edge num_write_updates st.1 (mkEdge node1 node2);
  let c := mkCounts (node_ids st.2) (num_read_nodes st.2) (S (num_read_edges st.2)) in
  Ok (w, see_node node2 (see_node node1 c)).

(** [mem] is what the array on the stack held; [graph_file] the lines, if the file
    could be opened. The result says whether the counts were reported as wrong. *)
Definition main (mem : list Edge) (argv2 argv3 : Z) (graph_file : option (list (Z * Z))) : outcome (list file_call * bool) :=
  let num_nodes := to_word 64 argv2 in
  let num_edges := to_word 64 argv3 in
  let w := mkWriter ((λ e, mkUpdate e INSERT) <$> mem) 0 [WriteHeader num_nodes num_edges] in
  match graph_file with
  | None => Ok (w_calls w, false)
  | Some lines =>
      st ← outcome_fold step (w, mkCounts ∅ 0 0) lines;
      Ok (put_rest st.1, negb (num_nodes =? N.of_nat (num_read_nodes st.2))%N || negb (num_edges =? N.of_nat (num_read_edges st.2))%N)
  end.
End ToStream.

(** ** metis_converter.cpp *)

Module ToMetis.
Record Conv := mkConv {
  num_nodes : nat;
  num_edges : nat;
  current_node_id : nat;
  num_self_edges : nat;
  simplified_node_ids : gmap N nat;
  nodes_list : nodes_map;
}.

(** A node seen for the first time gets the next number. *)
Definition see_node (v : N) (c : Conv) : Conv :=
  match simplified_node_ids c !! v with
  | Some _ => c
  | None =>
      let i := current_node_id c in
      mkConv (S (num_nodes c)) (num_edges c) (S i) (num_self_edges c) (<[v := i]> (simplified_node_ids c))
        (<[i := []]> (nodes_list c))
  end.

(** [operator[]] of the ids gives 0 to a node without a number. *)
Definition id_of (c : Conv) (v : N) : nat := default 0 (simplified_node_ids c !! v).

Definition step (c : Conv) (line : Z * Z) : Conv :=
  let node1 := to_word 64 line.1 in
  let node2 := to_word 64 line.2 in
  let c := see_node node2 (see_node node1 c) in
  let s1 := id_of c node1 in
  let s2 := id_of c node2 in
  mkConv (num_nodes c) (S (num_edges c)) (current_node_id c)
    (if s1 =? s2 then S (num_self_edges c) else num_self_edges c) (simplified_node_ids c)
    (push s2 s1 (push s1 s2 (nodes_list c))).

(** A line: the neighbours but for the node itself. *)
Definition line_of (e : nat * list nat) : list N := N.of_nat <$> filter (λ v, v ≠ e.1) e.2.

Definition main (graph_file : option (list (Z * Z))) : metis_file :=
  let c := foldl step (mkConv 0 0 1 0 ∅ ∅) (default [] graph_file) in
  mkMetis (N.of_nat (num_nodes c), wsub 64 (N.of_nat (num_edges c)) (N.of_nat (num_self_edges c)))
    (line_of <$> sorted_entries (nodes_list c)).
End ToMetis.

(** ** adjlist_test.cpp *)

Module AdjListTest.
Definition num_neighbors : nat := 5.
Definition num_threads : nat := 5.

(** The neighbours that a thread toggles at vertex 0, under the lock of the vertex. *)
Definition task (adj : gset nat) (thr_id : nat) : gset nat :=
  foldl (λ adj i,
    let dst_vertex := thr_id / 2 * num_neighbors + i in
    if decide (dst_vertex ∈ adj) then adj ∖ {[dst_vertex]} else {[dst_vertex]} ∪ adj)
    adj (seq 0 num_neighbors).

(** The threads get the lock in the order [order]. *)
Definition run (order : list nat) : gset nat := foldl task ∅ order.
End AdjListTest.
