(* ===== verification/StreamToolsSpec.v ===== *)
(** * What the programs on stream files compute

    A conversion of a stream gives the edges that occur an odd number of times; the
    shuffler's stream has the same; a METIS file is symmetric and declares what it
    holds. *)

From Stdlib Require Import NArith ZArith Lia.
From stdpp Require Import base list gmap numbers sorting.
From S2P Require Import Prelude Util CCSketchAlg StreamGen StreamGenSpec StreamTools.

(** ** Streams in buffers *)

Section read.
Context {St : Type} (handle : St → GraphUpdate → outcome St).

(** The buffers hold [ups], and a breakpoint after them. *)
Definition stream_of (ups : list GraphUpdate) (buffers : list (list GraphUpdate)) : Prop :=
  Forall (λ u, type u ≠ BREAKPOINT) ups ∧ ∃ b rest, type b = BREAKPOINT ∧ concat buffers = ups ++ b :: rest.

Lemma read_updates s us :
  Forall (λ u, type u ≠ BREAKPOINT) us → read_buffer handle s us = (s ← outcome_fold handle s us; Ok (s, false)).
Proof.
  revert s. induction us as [|u us IH]; intros s Hus; [done|]. apply list.Forall_cons in Hus as [Hu Hus].
  cbn [read_buffer outcome_fold]. rewrite decide_False by done. destruct (handle s u); [by apply IH|done].
Qed.

Lemma read_to_breakpoint s us b rest :
  Forall (λ u, type u ≠ BREAKPOINT) us → type b = BREAKPOINT →
  read_buffer handle s (us ++ b :: rest) = (s ← outcome_fold handle s us; Ok (s, true)).
Proof.
  intros Hus Hb. revert s. induction us as [|u us IH]; intros s; cbn [app read_buffer].
  - by rewrite decide_True.
  - apply list.Forall_cons in Hus as [Hu Hus]. rewrite decide_False by done. cbn [outcome_fold].
    destruct (handle s u); [by apply IH|done].
Qed.

Lemma read_stream_ok s us buffers : stream_of us buffers → read_stream handle s buffers = outcome_fold handle s us.
Proof.
  intros (Hus & b & rest & Hb & Hcat). revert s us Hus Hcat. induction buffers as [|l buffers IH]; intros s us Hus Hcat.
  { by destruct us. }
  cbn [read_stream concat] in *. apply app_eq_inv in Hcat as [(k & -> & Hk)|(k & -> & Hk)].
  - destruct k as [|x k].
    + rewrite app_nil_r, read_updates by done. destruct (outcome_fold handle s us) as [s'|]; [|done].
      cbn [mbind outcome_bind app] in *. by rewrite (IH s' []).
    + injection Hk as <- _. rewrite read_to_breakpoint by done. by destruct (outcome_fold handle s us).
  - apply list.Forall_app in Hus as [Hl Hus]. rewrite read_updates, outcome_fold_app by done.
    destruct (outcome_fold handle s l) as [s'|]; [|done]. cbn [mbind outcome_bind]. by apply IH.
Qed.
End read.

(** ** The array of a writer *)

Section writer.
Variable size : nat.
Hypothesis size_pos : 0 < size.

(** Every write is of some updates, not more than the array holds. *)
Definition small_write (k : file_call) : Prop :=
  match k with WriteHeader _ _ => True | WriteUpdates l => 0 < length l ≤ size end.

(** What was written and what is in the array are the insertions of [es]. *)
Definition writes (es : list Edge) (w : Writer) : Prop :=
  written (w_calls w) ++ take (update_array_index w) (update_array w) = insert_of <$> es ∧
  update_array_index w < size ∧ length (update_array w) = size ∧
  Forall (λ u, type u = INSERT) (update_array w) ∧ Forall small_write (w_calls w).

Lemma written_app cs1 cs2 : written (cs1 ++ cs2) = written cs1 ++ written cs2.
Proof. apply bind_app. Qed.

Lemma put_edge_writes es w e :
  writes es w → ∃ w', put_edge size w e = Ok w' ∧ writes (es ++ [e]) w' ∧
    w_calls w `prefix_of` w_calls w'.
Proof.
  intros (Heq & Hi & Hlen & Htypes & Hsmall). unfold put_edge.
  destruct (lookup_lt_is_Some_2 (update_array w) (update_array_index w)) as [a Ha]; [lia|].
  rewrite (arr_get_Ok _ _ _ Ha). cbn [mbind outcome_bind]. rewrite arr_set_Ok by lia. cbn [mbind outcome_bind].
  pose proof (list.Forall_lookup_1 _ _ _ _ Htypes Ha) as Htype. cbn beta in Htype. rewrite Htype.
  set (i := update_array_index w) in *. set (array := <[i := mkUpdate e INSERT]> (update_array w)).
  assert (Htake : take (S i) array = take i (update_array w) ++ [insert_of e]).
  { erewrite take_S_r by (subst array; apply list_lookup_insert_eq; lia). f_equal. subst array. by rewrite take_insert_ge. }
  assert (Harr : length array = size) by (subst array; by rewrite length_insert).
  assert (Hins : Forall (λ u, type u = INSERT) array) by (subst array; by apply list.Forall_insert).
  destruct (Nat.eqb_spec (S i) size) as [Hfull|Hmore]; eexists; (split; [done|split; [|]]).
  - unfold writes. cbn [w_calls update_array_index update_array take]. split; [|split; [done|split; [done|split; [done|]]]].
    + rewrite app_nil_r, written_app. unfold written at 2. cbn [mbind list_bind]. rewrite app_nil_r.
      rewrite <- (firstn_all array), Harr, <- Hfull, Htake, app_assoc, Heq, fmap_app. done.
    + apply list.Forall_app. split; [done|]. apply list.Forall_singleton. cbn. lia.
  - by apply prefix_app_r.
  - unfold writes. cbn [w_calls update_array_index update_array]. split_and!; try done; [|lia].
    rewrite Htake, app_assoc, Heq, fmap_app. done.
  - done.
Qed.

Lemma put_edges_write l es w :
  writes es w → ∃ w', outcome_fold (put_edge size) w l = Ok w' ∧ writes (es ++ l) w' ∧
    w_calls w `prefix_of` w_calls w'.
Proof.
  revert es w. induction l as [|e l IH]; intros es w Hw; [by exists w; rewrite app_nil_r|].
  cbn [outcome_fold]. destruct (put_edge_writes es w e Hw) as (w1 & -> & Hw1 & Hk1). cbn [mbind outcome_bind].
  destruct (IH _ w1 Hw1) as (w2 & -> & Hw2 & Hk2). exists w2. rewrite <- app_assoc in Hw2.
  split; [done|]. split; [done|]. by etrans.
Qed.

Lemma put_rest_writes es w :
  writes es w → written (put_rest w) = insert_of <$> es ∧ Forall small_write (put_rest w) ∧
    w_calls w `prefix_of` put_rest w.
Proof.
  intros (Heq & Hi & Hlen & Htypes & Hsmall). unfold put_rest.
  destruct (Nat.ltb_spec 0 (update_array_index w)) as [Hsome|Hnone].
  - rewrite written_app. split; [|split].
    + unfold written at 2. cbn [mbind list_bind]. by rewrite app_nil_r.
    + apply list.Forall_app. split; [done|]. apply list.Forall_singleton. cbn. rewrite length_take. lia.
    + by apply prefix_app_r.
  - replace (update_array_index w) with 0 in Heq by lia. rewrite app_nil_r in Heq. done.
Qed.

Lemma new_writer array n m :
  length array = size → Forall (λ u, type u = INSERT) array → writes [] (mkWriter array 0 [WriteHeader n m]).
Proof. intros Hlen Htypes. split_and!; try done. apply list.Forall_singleton. done. Qed.
End writer.

(** ** csv_converter and stream_shuffler *)

Definition edge_id (u : GraphUpdate) : N := concat_pairing_fn (src (edge u)) (dst (edge u)).

Lemma csv_handle_toggles us X k :
  outcome_fold Csv.handle (X, k) us = Ok (toggle_all (edge_id <$> us) X, k + length us).
Proof.
  revert X k. induction us as [|u us IH]; intros X k; [by rewrite Nat.add_0_r|]. cbn [outcome_fold].
  assert (Hone : Csv.handle (X, k) u = Ok (toggle (edge_id u) X, S k)).
  { unfold Csv.handle, toggle. cbn [fst snd]. fold (edge_id u). by destruct (decide (edge_id u ∈ X)). }
  rewrite Hone. cbn [mbind outcome_bind]. rewrite IH. do 2 f_equal. cbn [length]. lia.
Qed.

Lemma csv_main us buffers :
  stream_of us buffers →
  let X := toggle_all (edge_id <$> us) ∅ in
  Csv.main buffers = Ok (length us, size X, elements X ≫= Csv.lines_of).
Proof. intros Hs X. unfold Csv.main. by rewrite (read_stream_ok _ _ us), csv_handle_toggles. Qed.

(** Toggled an odd number of times. *)
Lemma toggled_odd `{Countable A} (l : list A) (x : A) :
  x ∈ toggle_all l (∅ : gset A) ↔ Nat.odd (length (filter (x =.) l)) = true.
Proof.
  assert (Hgen : ∀ X : gset A,
    bool_decide (x ∈ toggle_all l X) = xorb (Nat.odd (length (filter (x =.) l))) (bool_decide (x ∈ X))).
  { induction l as [|y l IH]; intros X; [by rewrite xorb_false_l|].
    change (toggle_all (y :: l) X) with (toggle_all l (toggle y X)). rewrite IH. destruct (decide (x = y)) as [->|Hne].
    - rewrite filter_cons_True by done. cbn [length]. rewrite Nat.odd_succ, <- Nat.negb_odd.
      assert (Hb : bool_decide (y ∈ toggle y X) = negb (bool_decide (y ∈ X))).
      { destruct (decide (y ∈ X)); [rewrite bool_decide_false, bool_decide_true by (rewrite ?elem_of_toggle; naive_solver)
          |rewrite bool_decide_true, bool_decide_false by (rewrite ?elem_of_toggle; naive_solver)]; done. }
      rewrite Hb. by destruct (Nat.odd _), (bool_decide (y ∈ X)).
    - rewrite filter_cons_False by done. f_equal. apply bool_decide_ext. rewrite elem_of_toggle. naive_solver. }
  specialize (Hgen ∅). rewrite (bool_decide_false (x ∈ ∅)), xorb_false_r in Hgen by set_solver.
  rewrite <- Hgen. symmetry. apply bool_decide_eq_true.
Qed.

Lemma toggled_in `{Countable A} (l : list A) (X : gset A) x : x ∈ toggle_all l X → x ∈ l ∨ x ∈ X.
Proof.
  revert X. induction l as [|y l IH]; intros X Hx; [by right|]. apply IH in Hx. rewrite elem_of_cons.
  destruct Hx as [Hx|Hx]; [tauto|]. apply elem_of_toggle in Hx. tauto.
Qed.

Lemma lines_length (l : list N) : length (l ≫= Csv.lines_of) = 2 * length l.
Proof. induction l as [|x l IH]; [done|]. rewrite bind_cons, length_app, IH. cbn [Csv.lines_of length]. lia. Qed.

(** Every edge as a line, and as a line the other way round. *)
Lemma elem_of_lines us u v :
  Forall (λ x, node_ok (src (edge x)) ∧ node_ok (dst (edge x))) us → node_ok u → node_ok v →
  (u, v) ∈ elements (toggle_all (edge_id <$> us) (∅ : gset N)) ≫= Csv.lines_of ↔
  concat_pairing_fn u v ∈ toggle_all (edge_id <$> us) (∅ : gset N).
Proof.
  intros Hok Hu Hv. rewrite list_elem_of_bind. split.
  - intros (x & Hl & Hx). apply elem_of_elements in Hx. pose proof Hx as Hin. apply toggled_in in Hin as [Hin|]; [|set_solver].
    apply list_elem_of_fmap in Hin as (w & -> & Hw). rewrite list.Forall_forall in Hok. destruct (Hok w Hw) as [Hs Hd].
    unfold Csv.lines_of, edge_id in *. rewrite inv_concat_pairing_fn_concat in Hl by done. cbn [src dst] in Hl.
    replace (concat_pairing_fn u v) with (concat_pairing_fn (src (edge w)) (dst (edge w))); [done|].
    rewrite !concat_pairing_fn_arith by done. apply elem_of_cons in Hl as [Hl|Hl];
      [|apply list_elem_of_singleton in Hl]; injection Hl as -> ->; do 2 f_equal; lia.
  - intros Hx. exists (concat_pairing_fn u v). split; [|by apply elem_of_elements].
    unfold Csv.lines_of. rewrite inv_concat_pairing_fn_concat by done. cbn [src dst].
    rewrite elem_of_cons, list_elem_of_singleton. destruct (decide (u ≤ v)); [left|right]; f_equal; lia.
Qed.

(** The shuffled stream. *)
Lemma shuffler_main shuffle n m us buffers :
  (∀ l, shuffle l ≡ₚ l) → stream_of us buffers →
  ∃ cs, Shuffler.main shuffle n m buffers = Ok cs ∧ [WriteHeader n m] `prefix_of` cs ∧
    written cs = insert_of <$> shuffle (edge <$> us) ∧ Forall (small_write Shuffler.update_array_size) cs.
Proof.
  intros Hperm Hs. unfold Shuffler.main. rewrite (read_stream_ok _ _ us) by done.
  assert (Hread : ∀ es, outcome_fold Shuffler.handle es us = Ok (es ++ (edge <$> us))).
  { clear. induction us as [|u us IH]; intros es; [by rewrite app_nil_r|]. cbn [outcome_fold Shuffler.handle mbind outcome_bind].
    rewrite IH, <- app_assoc. done. }
  rewrite Hread. cbn [mbind outcome_bind app]. set (w := mkWriter _ _ _).
  assert (Hpos : 0 < Shuffler.update_array_size) by (apply Nat.ltb_lt; by vm_compute).
  assert (Hw : writes Shuffler.update_array_size [] w).
  { apply new_writer; [done|by rewrite length_replicate|]. by apply list.Forall_replicate. }
  destruct (put_edges_write _ Hpos (shuffle (edge <$> us)) [] w Hw) as (w' & -> & Hw' & Hpre). cbn [mbind outcome_bind].
  destruct (put_rest_writes _ Hpos _ _ Hw') as (Hwritten & Hsmall & Hpre'). exists (put_rest w').
  split; [done|]. split; [by etrans|]. done.
Qed.

(** ** stream_converter *)

Definition line_edge (l : Z * Z) : Edge := mkEdge (ToStream.node_of l.1) (ToStream.node_of l.2).

Definition line_nodes (l : Z * Z) : list nat := [ToStream.node_of l.1; ToStream.node_of l.2].

Definition counts_ok (ls : list (Z * Z)) (c : ToStream.Counts) : Prop :=
  ToStream.node_ids c = list_to_set (ls ≫= line_nodes) ∧
  ToStream.num_read_nodes c = size (ToStream.node_ids c) ∧ ToStream.num_read_edges c = length ls.

Lemma see_node_set v c :
  ToStream.num_read_nodes c = size (ToStream.node_ids c) →
  ToStream.node_ids (ToStream.see_node v c) = {[v]} ∪ ToStream.node_ids c ∧
  ToStream.num_read_nodes (ToStream.see_node v c) = size (ToStream.node_ids (ToStream.see_node v c)) ∧
  ToStream.num_read_edges (ToStream.see_node v c) = ToStream.num_read_edges c.
Proof.
  intros Hsize. unfold ToStream.see_node. destruct (decide (v ∈ ToStream.node_ids c)) as [Hin|Hnot]; cbn.
  - split; [set_solver|done].
  - split; [done|]. split; [|done]. rewrite size_union, size_singleton by set_solver. lia.
Qed.

Lemma stream_steps ls done_lines w c :
  writes ToStream.num_write_updates (line_edge <$> done_lines) w → counts_ok done_lines c →
  ∃ w' c', outcome_fold ToStream.step (w, c) ls = Ok (w', c') ∧
    writes ToStream.num_write_updates (line_edge <$> (done_lines ++ ls)) w' ∧ counts_ok (done_lines ++ ls) c' ∧
    w_calls w `prefix_of` w_calls w'.
Proof.
  assert (Hpos : 0 < ToStream.num_write_updates) by (apply Nat.ltb_lt; by vm_compute).
  revert done_lines w c. induction ls as [|l ls IH]; intros dl w c Hw Hc.
  { exists w, c. rewrite app_nil_r. done. }
  cbn [outcome_fold]. destruct (put_edge_writes _ Hpos _ w (line_edge l) Hw) as (w1 & Hput & Hw1 & Hpre).
  set (c1 := ToStream.see_node (ToStream.node_of l.2) (ToStream.see_node (ToStream.node_of l.1)
    (ToStream.mkCounts (ToStream.node_ids c) (ToStream.num_read_nodes c) (S (ToStream.num_read_edges c))))).
  assert (Hstep : ToStream.step (w, c) l = Ok (w1, c1)).
  { unfold ToStream.step. cbv zeta. cbn [fst snd].
    change (mkEdge (ToStream.node_of l.1) (ToStream.node_of l.2)) with (line_edge l). by rewrite Hput. }
  rewrite Hstep. cbn [mbind outcome_bind].
  assert (Hc1 : counts_ok (dl ++ [l]) c1).
  { destruct Hc as (Hids & Hn & He). set (c0 := ToStream.mkCounts _ _ _) in c1.
    destruct (see_node_set (ToStream.node_of l.1) c0 Hn) as (H1 & H2 & H3).
    destruct (see_node_set (ToStream.node_of l.2) _ H2) as (H4 & H5 & H6). fold c1 in H4, H5, H6.
    split; [|split; [done|]].
    - rewrite H4, H1. subst c0. cbn [ToStream.node_ids]. rewrite Hids, bind_app, list_to_set_app_L.
      assert (Hl : list_to_set ([l] ≫= line_nodes) = ({[ToStream.node_of l.1; ToStream.node_of l.2]} : gset nat)).
      { cbn. set_solver. }
      rewrite Hl. set_solver.
    - rewrite H6, H3. cbn. rewrite He, length_app. cbn. lia. }
  assert (Hw1' : writes ToStream.num_write_updates (line_edge <$> (dl ++ [l])) w1) by by rewrite fmap_app.
  destruct (IH _ w1 c1 Hw1' Hc1) as (w2 & c2 & -> & Hw2 & Hc2 & Hpre2). rewrite <- app_assoc in Hw2, Hc2.
  exists w2, c2. split; [done|]. split; [done|]. split; [done|]. by etrans.
Qed.

Lemma to_stream_main mem n m lines :
  length mem = ToStream.num_write_updates →
  ∃ cs, ToStream.main mem n m (Some lines) =
    Ok (cs, negb (bool_decide (to_word 64 n = N.of_nat (size (list_to_set (lines ≫= line_nodes) : gset nat)) ∧
                               to_word 64 m = N.of_nat (length lines)))) ∧
    [WriteHeader (to_word 64 n) (to_word 64 m)] `prefix_of` cs ∧ written cs = insert_of ∘ line_edge <$> lines ∧
    Forall (small_write ToStream.num_write_updates) cs.
Proof.
  intros Hmem. unfold ToStream.main. set (w := mkWriter _ _ _).
  assert (Hpos : 0 < ToStream.num_write_updates) by (apply Nat.ltb_lt; by vm_compute).
  assert (Hw : writes ToStream.num_write_updates (line_edge <$> []) w).
  { apply new_writer; [done|by rewrite length_fmap|]. apply list.Forall_fmap, list.Forall_true. done. }
  destruct (stream_steps lines [] w (ToStream.mkCounts ∅ 0 0) Hw) as (w' & c' & -> & Hw' & (Hids & Hn & He) & Hpre); [done|].
  cbn [mbind outcome_bind fst snd]. destruct (put_rest_writes _ Hpos _ _ Hw') as (Hwritten & Hsmall & Hpre').
  exists (put_rest w'). rewrite Hn, Hids, He. cbn [app] in *. split; [|split; [by etrans|split; [|done]]].
  - do 2 f_equal. destruct (N.eqb_spec (to_word 64 n) (N.of_nat (size (list_to_set (lines ≫= line_nodes) : gset nat))));
      destruct (N.eqb_spec (to_word 64 m) (N.of_nat (length lines))); cbn;
      [rewrite bool_decide_true by done|rewrite bool_decide_false by tauto..]; done.
  - by rewrite Hwritten, list_fmap_compose.
Qed.
