(* ===== verification/StreamToolsProps.v ===== *)
(** * What the conversions promise

    The METIS converter's numbering and file, and the claims about the programs on
    stream files. *)

From Stdlib Require Import NArith ZArith Lia.
From stdpp Require Import base list gmap numbers sorting.
From S2P Require Import Prelude Util CCSketchAlg StreamGen StreamGenSpec StreamTools StreamToolsSpec.

(** ** metis_converter *)

Module MetisFacts.
Import ToMetis.

(** The two nodes of a line. *)
Definition nodes_of (l : Z * Z) : list N := [to_word 64 l.1; to_word 64 l.2].

Definition edge_of (c : Conv) (l : Z * Z) : Edge := mkEdge (id_of c (to_word 64 l.1)) (id_of c (to_word 64 l.2)).

(** The nodes [vs] have the numbers from 1 on, each one of its own. *)
Definition numbered (vs : list N) (c : Conv) : Prop :=
  current_node_id c = S (num_nodes c) ∧
  (∀ v, v ∈ vs ↔ is_Some (simplified_node_ids c !! v)) ∧
  (∀ v i, simplified_node_ids c !! v = Some i → 1 ≤ i ≤ num_nodes c) ∧
  (∀ v w i, simplified_node_ids c !! v = Some i → simplified_node_ids c !! w = Some i → v = w) ∧
  (∀ i, 1 ≤ i ≤ num_nodes c → ∃ v, simplified_node_ids c !! v = Some i).

(** The lists have an entry for each number, and the neighbours that [es] give it. *)
Definition listed (es : list Edge) (c : Conv) : Prop :=
  (∀ u, default [] (nodes_list c !! u) = adj es u) ∧ (∀ u, is_Some (nodes_list c !! u) ↔ 1 ≤ u ≤ num_nodes c).

Lemma see_node_numbered vs es c v :
  numbered vs c → listed es c →
  numbered (vs ++ [v]) (see_node v c) ∧ listed es (see_node v c) ∧
  (∀ w, w ∈ vs → id_of (see_node v c) w = id_of c w) ∧
  num_edges (see_node v c) = num_edges c ∧ num_self_edges (see_node v c) = num_self_edges c.
Proof.
  intros (Hcur & Hdom & Hrange & Hinj & Hsurj) [Hadj Hkeys]. unfold see_node.
  destruct (simplified_node_ids c !! v) as [j|] eqn:Hv.
  - split; [|done]. split; [done|]. split; [|done]. intros w. rewrite elem_of_app, list_elem_of_singleton, Hdom.
    split; [|tauto]. intros [Hin| ->]; [done|by exists j].
  - rewrite Hcur. split; [|split; [split|split; [|done]]].
    + unfold numbered. cbn [current_node_id num_nodes simplified_node_ids]. split; [done|]. split; [|split; [|split]].
      * intros w. rewrite elem_of_app, list_elem_of_singleton, Hdom, lookup_insert_is_Some. destruct (decide (v = w)); naive_solver.
      * intros w i. rewrite lookup_insert_Some. intros [(_ & Hi)|(_ & Hw)]; [lia|]. apply Hrange in Hw. lia.
      * intros w x i. rewrite !lookup_insert_Some. intros [(Hv1 & Hi1)|(_ & Hw)] [(Hv2 & Hi2)|(_ & Hx)]; [congruence| | |by eapply Hinj].
        -- apply Hrange in Hx. lia.
        -- apply Hrange in Hw. lia.
      * intros i Hi. destruct (decide (i = S (num_nodes c))) as [->|Hne]; [exists v; by rewrite lookup_insert_eq|].
        destruct (Hsurj i) as [w Hw]; [lia|]. exists w. rewrite lookup_insert_ne; [done|]. intros ->. by rewrite Hv in Hw.
    + cbn [nodes_list]. intros u. rewrite <- Hadj. destruct (decide (S (num_nodes c) = u)) as [<-|Hne]; [|by rewrite lookup_insert_ne].
      rewrite lookup_insert_eq. destruct (nodes_list c !! S (num_nodes c)) eqn:Hu; [|done].
      assert (1 ≤ S (num_nodes c) ≤ num_nodes c) by (apply Hkeys; by eexists). lia.
    + cbn [nodes_list num_nodes]. intros u. rewrite lookup_insert_is_Some, Hkeys. destruct (decide (S (num_nodes c) = u)); lia.
    + intros w Hw. unfold id_of. cbn [simplified_node_ids]. rewrite lookup_insert_ne; [done|]. intros ->.
      apply Hdom in Hw. rewrite Hv in Hw. by destruct Hw.
Qed.

(** After the lines [ls]. *)
Definition conv_ok (ls : list (Z * Z)) (c : Conv) : Prop :=
  numbered (ls ≫= nodes_of) c ∧ listed (edge_of c <$> ls) c ∧ num_edges c = length ls ∧
  num_self_edges c = length (filter (λ e, src e = dst e) (edge_of c <$> ls)).

Lemma id_range vs c v : numbered vs c → v ∈ vs → 1 ≤ id_of c v ≤ num_nodes c.
Proof. intros (_ & Hdom & Hrange & _) Hv. apply Hdom in Hv as [i Hi]. unfold id_of. rewrite Hi. by eapply Hrange. Qed.

Lemma listed_push es c a b ids ne cur self :
  listed es c → 1 ≤ a ≤ num_nodes c → 1 ≤ b ≤ num_nodes c →
  listed (es ++ [mkEdge a b]) (mkConv (num_nodes c) ne cur self ids (push b a (push a b (nodes_list c)))).
Proof.
  intros [Hadj Hkeys] Ha Hb. split; cbn [nodes_list num_nodes]; intros u.
  - rewrite adj_app. cbn [adj mbind list_bind src dst]. rewrite app_nil_r, !lookup_push.
    destruct (Nat.eqb_spec a u) as [Hau|Hau], (Nat.eqb_spec b u) as [Hbu|Hbu]; cbn [app].
    + subst. rewrite !decide_True by done. cbn [default from_option]. unfold id. by rewrite Hadj, <- app_assoc.
    + rewrite decide_False, decide_True by done. cbn [default from_option]. unfold id. subst a. by rewrite Hadj.
    + rewrite decide_True, decide_False by congruence. cbn [default from_option]. unfold id. subst b. by rewrite Hadj.
    + rewrite !decide_False by done. by rewrite Hadj, app_nil_r.
  - rewrite !lookup_push. destruct (decide (b = u)) as [->|]; [split; [done|by eexists]|].
    destruct (decide (a = u)) as [->|]; [split; [done|by eexists]|apply Hkeys].
Qed.

Lemma edge_of_stable ls c c' :
  (∀ w, w ∈ ls ≫= nodes_of → id_of c' w = id_of c w) → edge_of c' <$> ls = edge_of c <$> ls.
Proof.
  intros Hid. apply list_fmap_ext. intros i l Hl. unfold edge_of. apply list_elem_of_lookup_2 in Hl.
  rewrite !Hid; [done| |]; apply list_elem_of_bind; exists l; (split; [|done]); unfold nodes_of; set_solver.
Qed.

Lemma line_step_ok ls c l : conv_ok ls c → conv_ok (ls ++ [l]) (step c l).
Proof.
  intros (Hnum & Hlist & Hedges & Hself). set (n1 := to_word 64 l.1). set (n2 := to_word 64 l.2).
  destruct (see_node_numbered _ _ c n1 Hnum Hlist) as (Hnum1 & Hlist1 & Hid1 & He1 & Hs1).
  set (c1 := see_node n1 c) in *.
  destruct (see_node_numbered _ _ c1 n2 Hnum1 Hlist1) as (Hnum2 & Hlist2 & Hid2 & He2 & Hs2).
  set (c2 := see_node n2 c1) in *.
  assert (Hnodes : (ls ++ [l]) ≫= nodes_of = ((ls ≫= nodes_of) ++ [n1]) ++ [n2]).
  { rewrite bind_app, <- app_assoc. done. }
  assert (Hold : edge_of c2 <$> ls = edge_of c <$> ls).
  { apply edge_of_stable. intros w Hw. rewrite Hid2 by set_solver. by apply Hid1. }
  assert (Hr1 : 1 ≤ id_of c2 n1 ≤ num_nodes c2) by (eapply id_range; [exact Hnum2|set_solver]).
  assert (Hr2 : 1 ≤ id_of c2 n2 ≤ num_nodes c2) by (eapply id_range; [exact Hnum2|set_solver]).
  assert (Hes : edge_of (step c l) <$> (ls ++ [l]) = (edge_of c <$> ls) ++ [mkEdge (id_of c2 n1) (id_of c2 n2)]).
  { rewrite fmap_app, <- Hold. done. }
  unfold conv_ok. rewrite Hes, Hnodes. split; [exact Hnum2|]. split; [by apply listed_push|].
  split.
  - change (num_edges (step c l)) with (S (num_edges c2)). rewrite He2, He1, Hedges, length_app. cbn. lia.
  - change (num_self_edges (step c l)) with
      (if id_of c2 n1 =? id_of c2 n2 then S (num_self_edges c2) else num_self_edges c2).
    rewrite Hs2, Hs1, Hself, list.filter_app, length_app. destruct (Nat.eqb_spec (id_of c2 n1) (id_of c2 n2)).
    + rewrite (filter_cons_True _ (mkEdge _ _)) by done. cbn [length filter]. rewrite filter_nil. cbn [length]. lia.
    + rewrite (filter_cons_False _ (mkEdge _ _)) by done. rewrite filter_nil. cbn [length]. lia.
Qed.

Lemma steps_ok ls done_lines c : conv_ok done_lines c → conv_ok (done_lines ++ ls) (foldl step c ls).
Proof.
  revert done_lines c. induction ls as [|l ls IH]; intros dl c Hc; [by rewrite app_nil_r|].
  cbn [foldl]. rewrite (cons_middle l dl ls), app_assoc. by apply IH, line_step_ok.
Qed.

Lemma start_ok : conv_ok [] (mkConv 0 0 1 0 ∅ ∅).
Proof.
  split; [|split; [|done]].
  - split; [done|]. cbn. split; [|split; [|split]].
    + intros v. rewrite lookup_empty. split; [by intros ?%not_elem_of_nil|by intros [??]].
    + intros v i. by rewrite lookup_empty.
    + intros v w i. by rewrite lookup_empty.
    + lia.
  - split; cbn; intros u; rewrite lookup_empty; [done|]. split; [by intros [??]|lia].
Qed.

(** ** Degrees *)

Definition proper (es : list Edge) : list Edge := filter (λ e, src e ≠ dst e) es.

Definition line (es : list Edge) (u : nat) : list nat := filter (λ v, v ≠ u) (adj es u).

Lemma adj_cons e es u :
  adj (e :: es) u = ((if src e =? u then [dst e] else []) ++ (if dst e =? u then [src e] else [])) ++ adj es u.
Proof. done. Qed.

(** How often [u] is an end of an edge between different nodes. *)
Definition ends_at (e : Edge) (u : nat) : nat :=
  if decide (src e = dst e) then 0 else (if src e =? u then 1 else 0) + (if dst e =? u then 1 else 0).

Lemma length_line_cons e es u : length (line (e :: es) u) = ends_at e u + length (line es u).
Proof.
  unfold line, ends_at. rewrite adj_cons, !list.filter_app, !length_app. f_equal.
  destruct (Nat.eqb_spec (src e) u), (Nat.eqb_spec (dst e) u), (decide (src e = dst e)); subst; try congruence;
    repeat first [rewrite filter_cons_True by congruence | rewrite filter_cons_False by tauto | rewrite filter_nil]; done.
Qed.

Lemma sum_one a k n : a ≤ n < a + k → sum_list_with (λ u, if n =? u then 1 else 0) (seq a k) = 1.
Proof.
  revert a. induction k as [|k IH]; intros a Hn; [lia|]. cbn [seq sum_list_with].
  destruct (Nat.eqb_spec n a) as [->|Hne]; [|apply IH; lia].
  assert (Hzero : ∀ b, a < b → sum_list_with (λ u, if a =? u then 1 else 0) (seq b k) = 0).
  { clear. induction k as [|k IH]; intros b Hb; [done|]. cbn [seq sum_list_with].
    rewrite (proj2 (Nat.eqb_neq a b)) by lia. apply IH. lia. }
  rewrite Hzero; lia.
Qed.

Lemma sum_ext {A} (f g : A → nat) l : (∀ x, f x = g x) → sum_list_with f l = sum_list_with g l.
Proof. intros Hfg. induction l as [|x l IH]; [done|]. cbn [sum_list_with]. by rewrite Hfg, IH. Qed.

Lemma sum_add {A} (f g : A → nat) l : sum_list_with (λ x, f x + g x) l = sum_list_with f l + sum_list_with g l.
Proof. induction l as [|x l IH]; [done|]. cbn [sum_list_with]. lia. Qed.

(** The lines together hold every edge between different nodes twice. *)
Lemma degree_sum es k :
  (∀ e, e ∈ es → 1 ≤ src e ≤ k ∧ 1 ≤ dst e ≤ k) →
  sum_list_with (λ u, length (line es u)) (seq 1 k) = 2 * length (proper es).
Proof.
  induction es as [|e es IH]; intros Hends.
  - induction (seq 1 k) as [|u l IHl]; [done|]. cbn [sum_list_with]. by rewrite IHl.
  - rewrite (sum_ext _ _ _ (length_line_cons e es)), sum_add, IH by set_solver.
    destruct (Hends e) as [Hs Hd]; [by apply list_elem_of_here|].
    unfold proper, ends_at. destruct (decide (src e = dst e)) as [Heq|Hne].
    + rewrite (filter_cons_False _ e) by tauto. replace (sum_list_with (λ _, 0) (seq 1 k)) with 0; [done|].
      clear. induction (seq 1 k) as [|u l IH]; [done|]. cbn [sum_list_with]. by rewrite <- IH.
    + rewrite (filter_cons_True _ e) by done. rewrite sum_add, !sum_one by lia. cbn [length]. lia.
Qed.

(** How often [v] is on the line of [u]. *)
Definition occurs (es : list Edge) (u v : nat) : nat := length (filter (v =.) (line es u)).

Lemma occurs_cons e es u v :
  occurs (e :: es) u v = (if decide (v ≠ u ∧ src e = u ∧ dst e = v) then 1 else 0) +
    (if decide (v ≠ u ∧ dst e = u ∧ src e = v) then 1 else 0) + occurs es u v.
Proof.
  unfold occurs, line. rewrite adj_cons, !list.filter_app, !length_app. f_equal. f_equal;
    destruct (Nat.eqb_spec (src e) u), (Nat.eqb_spec (dst e) u); case_decide as Hd; subst;
    repeat first [rewrite filter_cons_True by naive_solver | rewrite filter_cons_False by naive_solver | rewrite filter_nil];
    try done; naive_solver.
Qed.

Lemma occurs_comm es u v : occurs es u v = occurs es v u.
Proof.
  induction es as [|e es IH]; [done|]. rewrite !occurs_cons, IH. repeat case_decide; naive_solver lia.
Qed.

(** ** The file *)

Lemma proper_self es : length (proper es) + length (filter (λ e, src e = dst e) es) = length es.
Proof.
  unfold proper. induction es as [|e es IH]; [done|]. destruct (decide (src e = dst e)).
  - rewrite filter_cons_False by tauto. rewrite filter_cons_True by done. cbn [length]. lia.
  - rewrite filter_cons_True, filter_cons_False by done. cbn [length]. lia.
Qed.

Lemma main_ok lines :
  (N.of_nat (length lines) < 2 ^ 64)%N →
  ∃ c, conv_ok lines c ∧
    let es := edge_of c <$> lines in
    main (Some lines) = mkMetis (N.of_nat (num_nodes c), N.of_nat (length (proper es)))
      ((λ u, N.of_nat <$> line es u) <$> seq 1 (num_nodes c)).
Proof.
  intros Hlen. pose proof (steps_ok lines [] _ start_ok) as Hok. cbn [app] in Hok. set (c := foldl _ _ _) in Hok.
  exists c. split; [done|]. unfold main. cbn [default from_option]. unfold id. fold c.
  destruct Hok as (_ & [Hadj Hkeys] & Hedges & Hself). f_equal.
  - rewrite Hedges, Hself. pose proof (proper_self (edge_of c <$> lines)) as Hsum. rewrite length_fmap in Hsum.
    f_equal. rewrite wsub_small by lia. lia.
  - rewrite (sorted_keys _ (seq 1 (num_nodes c))); [|apply seq_sorted|intros u; rewrite Hkeys, elem_of_seq; lia].
    rewrite <- list_fmap_compose. apply list_fmap_ext. intros i u _. unfold line_of, line. cbn. by rewrite Hadj.
Qed.

Lemma edge_ends ls c e : conv_ok ls c → e ∈ edge_of c <$> ls → 1 ≤ src e ≤ num_nodes c ∧ 1 ≤ dst e ≤ num_nodes c.
Proof.
  intros (Hnum & _) He. apply list_elem_of_fmap in He as (l & -> & Hl). unfold edge_of. cbn.
  split; (eapply id_range; [exact Hnum|]; apply list_elem_of_bind; exists l; split; [unfold nodes_of; set_solver|done]).
Qed.
End MetisFacts.

(** ** adjlist_test *)

Module AdjListFacts.
Import AdjListTest.

Definition task_neighbors (thr_id : nat) : list nat := (λ i, thr_id / 2 * num_neighbors + i) <$> seq 0 num_neighbors.

Lemma task_toggles adj thr_id : task adj thr_id = toggle_all (task_neighbors thr_id) adj.
Proof.
  unfold task, toggle_all, task_neighbors. generalize (seq 0 num_neighbors) as l. intros l. revert adj.
  induction l as [|i l IH]; intros adj; [done|]. cbn [foldl fmap list_fmap]. rewrite IH. done.
Qed.

Lemma run_toggles order adj : foldl task adj order = toggle_all (order ≫= task_neighbors) adj.
Proof.
  revert adj. induction order as [|t order IH]; intros adj; [done|]. cbn [foldl]. rewrite bind_cons, toggle_all_app, IH.
  by rewrite task_toggles.
Qed.
End AdjListFacts.

(** Whatever order the threads get the lock in, the pairs of threads with the same
    neighbours cancel and the last thread's are left. *)
Lemma adjlist_any_order order :
  order ≡ₚ seq 0 AdjListTest.num_threads → AdjListTest.run order = list_to_set (seq 10 5).
Proof.
  intros Hperm. unfold AdjListTest.run. rewrite AdjListFacts.run_toggles.
  rewrite (toggle_all_perm _ (seq 0 AdjListTest.num_threads ≫= AdjListFacts.task_neighbors)); [by vm_compute|].
  by apply bind_Permutation.
Qed.

(** ** Claims *)

(** C32. The METIS converter numbers the nodes of the input from 1 on, each node with a
    number of its own; the file has a line for each number; a line names the other end
    of every input edge of its node, as often as the input has it, and never the node
    itself; [u] names [v] as often as [v] names [u]; and the lines together have twice
    as many entries as the header declares edges. *)
Theorem metis_conversion lines :
  (N.of_nat (length lines) < 2 ^ 64)%N →
  ∃ (id : N → nat) (k : nat),
    let nodes := lines ≫= MetisFacts.nodes_of in
    let es := (λ l, mkEdge (id (to_word 64 l.1)) (id (to_word 64 l.2))) <$> lines in
    let f := ToMetis.main (Some lines) in
    (∀ v w, v ∈ nodes → w ∈ nodes → id v = id w → v = w) ∧ (∀ i, 1 ≤ i ≤ k ↔ ∃ v, v ∈ nodes ∧ id v = i) ∧
    metis_header f = (N.of_nat k, N.of_nat (length (MetisFacts.proper es))) ∧
    metis_lines f = (λ u, N.of_nat <$> MetisFacts.line es u) <$> seq 1 k ∧
    sum_list_with length (metis_lines f) = 2 * N.to_nat (metis_header f).2 ∧
    ∀ u v, MetisFacts.occurs es u v = MetisFacts.occurs es v u ∧ (u ∉ MetisFacts.line es u).
Proof.
  intros Hlen. destruct (MetisFacts.main_ok lines Hlen) as (c & Hok & Hmain). exists (ToMetis.id_of c), (ToMetis.num_nodes c).
  cbv zeta in *. rewrite Hmain. cbn [metis_header metis_lines snd]. fold (MetisFacts.edge_of c).
  pose proof Hok as (Hnum & _). pose proof Hnum as (_ & Hdom & Hrange & Hinj & Hsurj).
  split; [|split; [|split; [done|split; [done|split]]]].
  - intros v w Hv Hw. apply Hdom in Hv as [i Hi], Hw as [j Hj]. unfold ToMetis.id_of. rewrite Hi, Hj. cbn.
    intros <-. by eapply Hinj.
  - intros i. split.
    + intros Hi. destruct (Hsurj i Hi) as [v Hv]. exists v. split; [apply Hdom; by eexists|]. unfold ToMetis.id_of. by rewrite Hv.
    + intros (v & Hv & <-). by eapply MetisFacts.id_range.
  - rewrite Nat2N.id, <- (MetisFacts.degree_sum _ (ToMetis.num_nodes c)) by (intros e He; by eapply MetisFacts.edge_ends).
    generalize (seq 1 (ToMetis.num_nodes c)) as us. intros us. induction us as [|u us IH]; [done|].
    cbn [sum_list_with fmap list_fmap]. rewrite <- IH, length_fmap. done.
  - intros u v. split; [apply MetisFacts.occurs_comm|]. unfold MetisFacts.line. rewrite list_elem_of_filter. tauto.
Qed.

Lemma metis_conversion_witness :
  ∃ (id : N → nat) (k : nat),
    let lines := [(7, 9); (9, 9); (4, 7)]%Z in
    let nodes := lines ≫= MetisFacts.nodes_of in
    let es := (λ l, mkEdge (id (to_word 64 l.1)) (id (to_word 64 l.2))) <$> lines in
    let f := ToMetis.main (Some lines) in
    (∀ v w, v ∈ nodes → w ∈ nodes → id v = id w → v = w) ∧ (∀ i, 1 ≤ i ≤ k ↔ ∃ v, v ∈ nodes ∧ id v = i) ∧
    metis_header f = (N.of_nat k, N.of_nat (length (MetisFacts.proper es))) ∧
    metis_lines f = (λ u, N.of_nat <$> MetisFacts.line es u) <$> seq 1 k ∧
    sum_list_with length (metis_lines f) = 2 * N.to_nat (metis_header f).2 ∧
    ∀ u v, MetisFacts.occurs es u v = MetisFacts.occurs es v u ∧ (u ∉ MetisFacts.line es u).
Proof. apply (metis_conversion [(7, 9); (9, 9); (4, 7)]%Z). done. Defined.


Definition some_updates : list GraphUpdate :=
  [mkUpdate (mkEdge 0 1) INSERT; mkUpdate (mkEdge 2 1) DELETE; mkUpdate (mkEdge 1 0) DELETE].

Definition some_buffers : list (list GraphUpdate) :=
  [take 2 some_updates; drop 2 some_updates ++ [mkUpdate (mkEdge 0 0) BREAKPOINT]].


(** A stream that deletes an edge it inserted comes out of the shuffler with two
    insertions of it. *)
Lemma shuffler_forgets_deletions :
  match Shuffler.main reverse 3 2 [[mkUpdate (mkEdge 0 1) INSERT; mkUpdate (mkEdge 0 1) DELETE; mkUpdate (mkEdge 0 0) BREAKPOINT]] with
  | Ok cs => written cs = [mkUpdate (mkEdge 0 1) INSERT; mkUpdate (mkEdge 0 1) INSERT]
  | Throw _ => False
  end.
Proof. by vm_compute. Qed.
