(* ===== verification/DsuMT.v ===== *)
(** * Threads that share a union-find: [DisjointSetUnion_MT] of src/include/dsu.h

    [merge] and [find_root] called by any number of threads. A step is one access of a
    thread to an atomic of the parent array; priorities never change after the
    constructor. What the language leaves open is chosen anew at every step: which
    operand of a comparison is evaluated first, and whether a weak exchange fails
    although the values agree. *)

From Stdlib Require Import NArith Lia.
From stdpp Require Import base list numbers.
From S2P Require Import Prelude Dsu.

(** ** Calls *)

Inductive call :=
  | CallMerge (u v : nat)
  | CallFind (u : nat).

Inductive answer :=
  | Merged (m : DSUMergeRet)
  | Found (r : nat).

(** Who waits for a [find_root]: the client; or the comparison in [merge], for its left
    or its right operand, with the values of [a] and [b] and whether the other operand
    is evaluated. *)
Inductive caller :=
  | ByClient
  | ByLeft (a b : nat) (right_done : bool)
  | ByRight (a b : nat) (left_done : bool).

(** The left operand [parent[parent[u]]] of the loop's condition: nothing is loaded,
    the inner load gave an index, or the outer load gave the value. *)
Inductive left_operand :=
  | Unloaded
  | Inner (p : nat)
  | Value (g : nat).

(** Where a thread is: before its next call; in the condition of the loop, with what is
    loaded of its operands; before the loads and the store of
    [parent[u] = parent[parent[u]].load()], before [u = parent[u]], before the load of
    [return parent[u]]; at the head of the loop of [merge]; before the exchange. *)
Inductive dsu_pc :=
  | Start
  | Cond (k : caller) (u : nat) (l : left_operand) (r : option nat)
  | LoadParent (k : caller) (u : nat)
  | LoadGrand (k : caller) (u q : nat)
  | StoreHalf (k : caller) (u h : nat)
  | Climb (k : caller) (u : nat)
  | Return (k : caller) (u : nat)
  | Loop (a b : nat)
  | Exchange (a b : nat)
  | Crashed (e : exn).

(** A thread: the calls it has yet to finish, the first of which is running, and where
    it is in that call. *)
Record Thread := mkThread { todo : list call; t_pc : dsu_pc }.

(** The object, its threads, and a ghost: the calls that took effect, in that order,
    with the thread and the answer. *)
Record Shared := mkShared { forest : DSU; threads : list Thread; history : list (nat * (call * answer)) }.

(** Whose turn it is and what the language leaves open. *)
Record turn := mkTurn { who : nat; right_first : bool; spurious : bool }.

(** ** Steps *)

Definition at_pc (th : Thread) (pc : dsu_pc) : Thread := mkThread (todo th) pc.

(** The load of [parent[u]]. *)
Definition load (d : DSU) (u : nat) (th : Thread) (k : nat → dsu_pc) : Thread :=
  match arr_get (parent d) u with Ok v => at_pc th (k v) | Throw e => at_pc th (Crashed e) end.

(** The call returns. *)
Definition finish (th : Thread) (x : answer) : Thread * option (call * answer) :=
  (mkThread (tail (todo th)) Start, c ← head (todo th); Some (c, x)).

Definition test (k : caller) (u : nat) (l : left_operand) (r : option nat) : dsu_pc :=
  match l, r with
  | Value g, Some p => if decide (g ≠ p) then LoadParent k u else Return k u
  | _, _ => Cond k u l r
  end.

(** Both operands of the comparison in [merge] are evaluated. *)
Definition compare (d : DSU) (th : Thread) (a b : nat) : Thread * option (call * answer) :=
  if decide (a = b) then finish th (Merged (mkMergeRet false 0 0))
  else match order_edge d a b with
       | Ok (a, b) => (at_pc th (Exchange a b), None)
       | Throw e => (at_pc th (Crashed e), None)
       end.

(** [find_root] returned [v]. *)
Definition return_root (d : DSU) (th : Thread) (k : caller) (v : nat) : Thread * option (call * answer) :=
  match k with
  | ByClient => finish th (Found v)
  | ByLeft a b true => compare d th v b
  | ByLeft a b false => (at_pc th (Cond (ByRight v b true) b Unloaded None), None)
  | ByRight a b true => compare d th a v
  | ByRight a b false => (at_pc th (Cond (ByLeft a v true) a Unloaded None), None)
  end.

(** One step of a thread: the object, the thread, and the call that took effect. *)
Definition dsu_step (x : turn) (d : DSU) (th : Thread) : DSU * (Thread * option (call * answer)) :=
  match t_pc th with
  | Start =>
      (d, (match todo th with
           | [] => th
           | CallFind u :: _ => at_pc th (Cond ByClient u Unloaded None)
           | CallMerge u v :: _ => at_pc th (Loop u v)
           end, None))
  | Cond k u l r =>
      (d, (match l, r with
           | Unloaded, None =>
               if right_first x then load d u th (λ v, Cond k u l (Some v)) else load d u th (λ v, Cond k u (Inner v) r)
           | Inner p, None =>
               if right_first x then load d u th (λ v, Cond k u l (Some v)) else load d p th (λ v, Cond k u (Value v) r)
           | Value g, _ => load d u th (λ v, test k u l (Some v))
           | Unloaded, Some _ => load d u th (λ v, Cond k u (Inner v) r)
           | Inner p, Some _ => load d p th (λ v, test k u (Value v) r)
           end, None))
  | LoadParent k u => (d, (load d u th (LoadGrand k u), None))
  | LoadGrand k u q => (d, (load d q th (StoreHalf k u), None))
  | StoreHalf k u h =>
      match arr_set (parent d) u h with
      | Ok p => (set_parent d p, (at_pc th (Climb k u), None))
      | Throw e => (d, (at_pc th (Crashed e), None))
      end
  | Climb k u => (d, (load d u th (λ v, Cond k v Unloaded None), None))
  | Return k u =>
      (d, match arr_get (parent d) u with
          | Ok v => return_root d th k v
          | Throw e => (at_pc th (Crashed e), None)
          end)
  | Loop a b =>
      (d, (at_pc th (if right_first x then Cond (ByRight a b false) b Unloaded None
                     else Cond (ByLeft a b false) a Unloaded None), None))
  | Exchange a b =>
      match arr_get (parent d) b with
      | Throw e => (d, (at_pc th (Crashed e), None))
      | Ok seen =>
          if decide (seen = b ∧ spurious x = false) then
            match arr_set (parent d) b a with
            | Ok p => (set_parent d p, finish th (Merged (mkMergeRet true a b)))
            | Throw e => (d, (at_pc th (Crashed e), None))
            end
          else (d, (at_pc th (Loop a seen), None))
      end
  | Crashed _ => (d, (th, None))
  end.

Definition shared_step (st : Shared) (x : turn) : Shared :=
  match threads st !! who x with
  | None => st
  | Some th =>
      let '(d, (th, done)) := dsu_step x (forest st) th in
      mkShared d (<[who x := th]> (threads st))
        (match done with Some c => history st ++ [(who x, c)] | None => history st end)
  end.

Definition run_shared (sched : list turn) (st : Shared) : Shared := foldl shared_step st sched.

(** The threads begin. *)
Definition begin_shared (d : DSU) (calls : list (list call)) : Shared :=
  mkShared d ((λ l, mkThread l Start) <$> calls) [].
