(* ===== verification/DsuMTSpec.v ===== *)
(** * The invariant of threads that share a union-find

    The forest stays ordered by priority and represents the merges that took effect; what
    a thread has loaded stays above its node and in its node's set, whatever the others
    do. *)

From Stdlib Require Import NArith Lia.
From stdpp Require Import base list numbers relations.
From S2P Require Import Prelude Dsu DsuMT.

(** ** Storing an ancestor *)

Definition nonroot (p : list nat) (u : nat) : Prop := ∀ v, p !! u = Some v → v ≠ u.

Section relink.
Variables (n : nat) (prio : list N) (p : list nat) (u h : nat).
Hypothesis wf : forest_wf n prio p.
Hypothesis up : above prio h u.
Hypothesis same : same_set p u h.

Lemma relink_range : u < length p ∧ h < n.
Proof.
  destruct same as (r & Hu & Hh). rewrite (fw_parent _ _ _ wf).
  split; [by eapply root_of_lt in Hu as [? _]|by eapply root_of_lt in Hh as [? _]].
Qed.

Lemma relink_wf : forest_wf n prio (<[u := h]> p).
Proof.
  destruct relink_range as [Hun Hhn]. destruct wf as [Hl Hp Hr Ha].
  constructor; [by rewrite length_insert|done|..]; intros x y Hxy;
    (destruct (decide (x = u)) as [->|Hne];
      [rewrite list_lookup_insert_eq in Hxy by done; injection Hxy as <-; auto
      |rewrite list_lookup_insert_ne in Hxy by done; eauto]).
Qed.

Lemma relink_root_of x r : root_of p x r ↔ root_of (<[u := h]> p) x r.
Proof.
  destruct relink_range as [Hun Hhn]. revert x r. apply (root_of_iff n prio prio); [done|apply relink_wf|].
  intros x. remember (rank prio n x) as k eqn:Hk. revert x Hk. induction (lt_wf k) as [k _ IH]. intros x -> r Hr.
  destruct (decide (x = u)) as [->|Hne].
  - eapply root_up; [by apply list_lookup_insert_eq|intros <-; by eapply above_irrefl|].
    destruct same as (r' & Hu & Hh). rewrite (root_of_det p u r r') by done.
    by apply (IH (rank prio n h)); [apply rank_lt| |].
  - destruct Hr as [r Hr|x y r Hx Hxy Hy]; [constructor; by rewrite list_lookup_insert_ne|].
    eapply root_up; [by rewrite list_lookup_insert_ne|done|].
    destruct (fw_above _ _ _ wf x y Hx) as [->|Hab]; [done|].
    apply (IH (rank prio n y)); [apply rank_lt; [done|by eapply fw_range]|done|done].
Qed.
End relink.

(** ** Linking a root below a node that need not be a root *)

Lemma root_above n prio p u r : forest_wf n prio p → root_of p u r → r = u ∨ above prio r u.
Proof.
  intros Hwf Hr. induction Hr as [r Hr|u v r Hu Hne Hv IH]; [by left|]. right.
  destruct (fw_above _ _ _ Hwf u v Hu) as [->|Hab]; [done|]. destruct IH as [->|IH]; [done|]. by eapply above_trans.
Qed.

Section link_below.
Variables (n : nat) (prio : list N) (p : list nat) (a b : nat).
Hypothesis wf : forest_wf n prio p.
Hypothesis b_root : p !! b = Some b.
Hypothesis up : above prio a b.
Hypothesis a_lt : a < n.

Lemma link_below_apart : ¬ same_set p a b.
Proof.
  intros (r & Ha & Hb). assert (r = b) as -> by (eapply root_of_det; [exact Hb|by constructor]).
  destruct (root_above _ _ _ _ _ wf Ha) as [->|Hab]; [by eapply above_irrefl|].
  by eapply above_irrefl, above_trans.
Qed.

(** The root of [a] could be the new parent of [b] as well. *)
Lemma link_below_ok :
  forest_wf n prio (<[b := a]> p) ∧
  ∀ x y, x < n → y < n → same_set (<[b := a]> p) x y ↔ join_rel (same_set p) a b x y.
Proof.
  destruct (root_of_ex n prio p a wf a_lt) as [r Hr].
  assert (Hrb : above prio r b) by (destruct (root_above _ _ _ _ _ wf Hr) as [->|?]; [done|by eapply above_trans]).
  assert (Hroot : p !! r = Some r) by by eapply root_of_root.
  assert (Hblen : b < length p) by by eapply lookup_lt_Some.
  pose proof (link_wf n prio p r b wf Hroot b_root Hrb) as Hwf'.
  assert (Hsame : same_set (<[b := r]> p) b a).
  { exists r. split.
    - eapply root_up; [by apply list_lookup_insert_eq|intros ->; by eapply above_irrefl|].
      by eapply link_root_a.
    - apply link_root_other; [done| |done]. intros ->. by eapply above_irrefl. }
  assert (Heq : <[b := a]> p = <[b := a]> (<[b := r]> p)) by by rewrite list_insert_insert_eq.
  rewrite Heq. split; [by apply relink_wf|]. intros x y Hx Hy.
  rewrite <- (same_set_ext _ _ (relink_root_of n prio _ b a Hwf' up Hsame)).
  rewrite (link_same_set n prio) by done. apply join_rel_ext; [apply _..| |].
  - symmetry. by apply same_set_root.
  - exists b. split; by constructor.
Qed.
End link_below.

(** ** What a thread knows *)

(** Later forests: sets only grow, and a node that is no root never becomes one. *)
Record grows (p p' : list nat) : Prop := {
  grows_sets : ∀ x y, same_set p x y → same_set p' x y;
  grows_inner : ∀ u, nonroot p u → nonroot p' u;
}.

#[global] Instance grows_preorder : PreOrder grows.
Proof. split; [done|]. intros p1 p2 p3 [H1 H2] [H3 H4]. split; auto. Qed.

Section invariant.
Variables (n : nat) (prio : list N).

Definition at_or_above (v u : nat) : Prop := v = u ∨ above prio v u.

(** [v] was the parent of [u]. *)
Definition seen (p : list nat) (u v : nat) : Prop :=
  same_set p u v ∧ (v = u ∨ above prio v u ∧ nonroot p u).

(** The values of [a] and [b] in the merge of [u] and [v]. *)
Definition pair_ok (p : list nat) (c : option call) (a b : nat) : Prop :=
  match c with
  | Some (CallMerge u v) => same_set p u a ∧ same_set p v b ∨ same_set p u b ∧ same_set p v a
  | _ => False
  end.

(** [x] is the node of the loop of [find_root]. *)
Definition caller_ok (p : list nat) (c : option call) (k : caller) (x : nat) : Prop :=
  match k with
  | ByClient => match c with Some (CallFind u) => same_set p u x | _ => False end
  | ByLeft a b _ => pair_ok p c a b ∧ same_set p a x ∧ at_or_above x a
  | ByRight a b _ => pair_ok p c a b ∧ same_set p b x ∧ at_or_above x b
  end.

Definition pc_ok (p : list nat) (c : option call) (pc : dsu_pc) : Prop :=
  match pc with
  | Start => True
  | Cond k u l r =>
      caller_ok p c k u ∧ match l with Unloaded => True | Inner v | Value v => seen p u v end ∧
      match r with None => True | Some v => seen p u v end
  | LoadParent k u | Climb k u => caller_ok p c k u ∧ nonroot p u
  | LoadGrand k u q | StoreHalf k u q => caller_ok p c k u ∧ nonroot p u ∧ same_set p u q ∧ above prio q u
  | Return k u => caller_ok p c k u
  | Loop a b => pair_ok p c a b
  | Exchange a b => pair_ok p c a b ∧ above prio a b
  | Crashed _ => False
  end.

Definition call_ok (c : call) : Prop :=
  match c with CallMerge u v => u < n ∧ v < n | CallFind u => u < n end.

Definition thread_ok (p : list nat) (th : Thread) : Prop :=
  pc_ok p (head (todo th)) (t_pc th) ∧ Forall call_ok (todo th).

Lemma seen_grows p p' u v : grows p p' → seen p u v → seen p' u v.
Proof. intros [Hs Hi] [? [?|[? ?]]]; split; auto. Qed.

Lemma pair_ok_grows p p' c a b : grows p p' → pair_ok p c a b → pair_ok p' c a b.
Proof. intros [Hs Hi]. destruct c as [[|]|]; cbn; [|done..]. intros [[? ?]|[? ?]]; auto. Qed.

Lemma caller_ok_grows p p' c k x : grows p p' → caller_ok p c k x → caller_ok p' c k x.
Proof.
  intros Hg. destruct k; cbn.
  - destruct c as [[|]|]; [done| |done]. apply Hg.
  - intros (? & ? & ?). split; [by eapply pair_ok_grows|]. split; [by apply Hg|done].
  - intros (? & ? & ?). split; [by eapply pair_ok_grows|]. split; [by apply Hg|done].
Qed.

Lemma thread_ok_grows p p' th : grows p p' → thread_ok p th → thread_ok p' th.
Proof.
  intros Hg [Hpc Hcalls]. split; [|done]. revert Hpc. pose proof (grows_sets _ _ Hg). pose proof (grows_inner _ _ Hg).
  destruct (t_pc th) as [|k u l r|k u|k u q|k u h|k u|k u|a b|a b|e]; cbn; try done.
  - intros (? & Hl & Hr). split; [by eapply caller_ok_grows|].
    split; [destruct l|destruct r]; try done; by eapply seen_grows.
  - intros [? ?]. split; [by eapply caller_ok_grows|auto].
  - intros (? & ? & ? & ?). split; [by eapply caller_ok_grows|auto].
  - intros (? & ? & ? & ?). split; [by eapply caller_ok_grows|auto].
  - intros [? ?]. split; [by eapply caller_ok_grows|auto].
  - by apply caller_ok_grows.
  - by apply pair_ok_grows.
  - intros [? ?]. split; [by eapply pair_ok_grows|done].
Qed.

Lemma caller_ok_climb p c k u v :
  caller_ok p c k u → same_set p u v → at_or_above v u → caller_ok p c k v.
Proof.
  assert (Habove : ∀ a, at_or_above u a → at_or_above v u → at_or_above v a).
  { intros a [->|H1] [->|H2]; [by left|by right..|]. right. by eapply above_trans. }
  intros Hk Huv Hab. destruct k; cbn in *.
  - destruct c as [[|]|]; [done| |done]. by etrans.
  - destruct Hk as (? & ? & ?). split_and!; [done|by etrans|by apply Habove].
  - destruct Hk as (? & ? & ?). split_and!; [done|by etrans|by apply Habove].
Qed.

(** ** A step *)

(** The call [c] took effect with answer [x] between the forests [p] and [p']. *)
Definition effect (p p' : list nat) (c : call) (x : answer) : Prop :=
  match c, x with
  | CallMerge u v, Merged m =>
      (merged m = true ↔ ¬ same_set p u v) ∧
      (∀ x y, x < n → y < n → same_set p' x y ↔ join_rel (same_set p) u v x y) ∧
      (merged m = true → above prio (ret_root m) (ret_child m))
  | CallFind u, Found r => same_set p u r ∧ r < n ∧ ∀ x y, same_set p' x y ↔ same_set p x y
  | _, _ => False
  end.

Definition step_spec (d : DSU) (th : Thread) (s : DSU * (Thread * option (call * answer))) : Prop :=
  let '(d', (th', done)) := s in
  dsu_wf d' ∧ dsu_n d' = n ∧ priority d' = prio ∧ grows (parent d) (parent d') ∧ thread_ok (parent d') th' ∧
  match done with
  | None => todo th' = todo th ∧ ∀ x y, same_set (parent d') x y ↔ same_set (parent d) x y
  | Some (c, x) => todo th = c :: todo th' ∧ t_pc th' = Start ∧ effect (parent d) (parent d') c x
  end.

Section step.
Variables (d : DSU) (th : Thread).
Abbreviation p := (parent d).
Abbreviation c := (head (todo th)).
Hypothesis wf : dsu_wf d.
Hypothesis n_eq : dsu_n d = n.
Hypothesis prio_eq : priority d = prio.
Hypothesis calls_ok : Forall call_ok (todo th).

Lemma fwf : forest_wf n prio p.
Proof. by rewrite <- n_eq, <- prio_eq. Qed.

Lemma silent_step pc : pc_ok p c pc → step_spec d th (d, (at_pc th pc, None)).
Proof. intros Hpc. by split_and!. Qed.

Lemma same_range x y : same_set p x y → x < n ∧ y < n.
Proof. intros (r & Hx & Hy). split; [by apply (root_of_lt _ _ _ _ _ fwf) in Hx as [? _]|by apply (root_of_lt _ _ _ _ _ fwf) in Hy as [? _]]. Qed.

Lemma same_refl x : x < n → same_set p x x.
Proof. apply same_set_refl with prio, fwf. Qed.

Lemma parent_seen u v : p !! u = Some v → seen p u v.
Proof.
  intros Hu. pose proof fwf as Hwf. split.
  - assert (Hun : u < n) by (rewrite <- (fw_parent _ _ _ Hwf); by eapply lookup_lt_Some).
    destruct (root_of_ex n prio p u Hwf Hun) as [r Hr]. exists r. split; [done|by eapply root_of_step].
  - destruct (decide (v = u)) as [->|Hne]; [by left|]. right.
    destruct (fw_above _ _ _ Hwf u v Hu) as [?|?]; [done|]. split; [done|].
    intros w Hw. congruence.
Qed.

Lemma load_step u k :
  u < n → (∀ v, p !! u = Some v → seen p u v → pc_ok p c (k v)) → step_spec d th (d, (load d u th k, None)).
Proof.
  intros Hu Hk. destruct (lookup_lt_is_Some_2 p u) as [v Hv]; [by rewrite (fw_parent _ _ _ fwf)|].
  unfold load. rewrite (arr_get_Ok _ _ _ Hv). apply silent_step, Hk; [done|by apply parent_seen].
Qed.

(** The value of a further load through a value that was seen. *)
Lemma seen_trans u v w : seen p u v → p !! v = Some w → seen p u w.
Proof.
  intros [Hs Hv] Hw. destruct (parent_seen v w Hw) as [Hs' Hw']. split; [by etrans|].
  destruct Hv as [->|[Hv Hi]]; [destruct Hw' as [->|[? ?]]; auto|]. right. split; [|done].
  destruct Hw' as [->|[? _]]; [done|by eapply above_trans].
Qed.

(** *** The comparison in [merge] *)

Lemma pair_ok_moves a b a' b' : pair_ok p c a b → same_set p a a' → same_set p b b' → pair_ok p c a' b'.
Proof.
  unfold pair_ok. destruct (head (todo th)) as [[u v|]|]; [|done..].
  intros [[? ?]|[? ?]] Ha Hb; [left|right]; split; by etrans.
Qed.

Lemma pair_ok_inv a b : pair_ok p c a b →
  ∃ u v rest, todo th = CallMerge u v :: rest ∧ u < n ∧ v < n ∧ a < n ∧ b < n ∧
    (same_set p u a ∧ same_set p v b ∨ same_set p u b ∧ same_set p v a).
Proof.
  intros Hp. destruct (todo th) as [|[u v|] rest] eqn:Hth; [done| |done].
  pose proof calls_ok as Hc. rewrite ?Hth in Hc. apply list.Forall_cons in Hc as [[Hu Hv] _].
  exists u, v, rest. split; [done|]. cbn in Hp. destruct Hp as [[H1 H2]|[H1 H2]];
    destruct (same_range _ _ H1), (same_range _ _ H2); auto 10.
Qed.

Lemma pair_join a b u v x y :
  same_set p u a ∧ same_set p v b ∨ same_set p u b ∧ same_set p v a →
  join_rel (same_set p) a b x y ↔ join_rel (same_set p) u v x y.
Proof.
  intros [[Hu Hv]|[Hu Hv]]; [|rewrite join_rel_comm]; apply join_rel_ext; try apply _; by symmetry.
Qed.

Lemma pair_apart a b u v :
  same_set p u a ∧ same_set p v b ∨ same_set p u b ∧ same_set p v a → same_set p a b ↔ same_set p u v.
Proof.
  intros [[Hu Hv]|[Hu Hv]].
  - split; intros H; [|symmetry in Hu]; [etrans; [exact Hu|etrans; [exact H|by symmetry]]|etrans; [exact Hu|by etrans]].
  - split; intros H; symmetry.
    + etrans; [exact Hv|]. etrans; [exact H|by symmetry].
    + etrans; [symmetry; exact Hu|]. by etrans.
Qed.

Lemma compare_step a b : pair_ok p c a b → step_spec d th (d, compare d th a b).
Proof.
  intros Hp. destruct (pair_ok_inv a b Hp) as (u & v & rest & Hth & Hu & Hv & Ha & Hb & Hpair).
  unfold compare. destruct (decide (a = b)) as [->|Hne].
  - assert (Huv : same_set p u v) by (by apply (pair_apart b b u v Hpair), same_refl).
    unfold finish. rewrite Hth. pose proof calls_ok as Hc. rewrite Hth in Hc. inversion Hc; subst.
    split_and!; try done; cbn. split; [done|]. split; [done|]. split; [by split|]. split; [|done].
    intros x y _ _. symmetry. by apply join_rel_related; [apply _..|].
  - rewrite order_edge_spec; [|done|lia..]. rewrite prio_eq.
    destruct (decide (above prio a b)) as [Hab|Hab]; apply silent_step; cbn; split; try done.
    + unfold pair_ok in *. rewrite Hth in Hp |- *. cbn in *. tauto.
    + by destruct (above_total prio a b Hne).
Qed.

Lemma exchange_step x a b :
  t_pc th = Exchange a b → pair_ok p c a b → above prio a b → step_spec d th (dsu_step x d th).
Proof.
  intros Hpc Hp Hab. destruct (pair_ok_inv a b Hp) as (u & v & rest & Hth & Hu & Hv & Ha & Hb & Hpair).
  unfold dsu_step. rewrite Hpc. pose proof fwf as Hwf.
  destruct (lookup_lt_is_Some_2 p b) as [w Hw]; [by rewrite (fw_parent _ _ _ Hwf)|].
  rewrite (arr_get_Ok _ _ _ Hw). case_decide as Hcas.
  - destruct Hcas as [-> _]. rewrite arr_set_Ok by by eapply lookup_lt_Some. unfold finish. rewrite Hth.
    destruct (link_below_ok n prio p a b Hwf Hw Hab Ha) as [Hwf' Hsets].
    assert (Hmono : ∀ x y, same_set p x y → same_set (<[b:=a]> p) x y).
    { intros y z Hyz. destruct (same_range _ _ Hyz). apply Hsets; [done..|]. by left. }
    pose proof calls_ok as Hc. rewrite ?Hth in Hc. apply list.Forall_cons in Hc as [_ Hc].
    split_and!; cbn; try done.
    + unfold dsu_wf. cbn. by rewrite n_eq, prio_eq.
    + split; [done|]. intros w Hi v' Hv'.
      destruct (decide (w = b)) as [->|Hne]; [by destruct (Hi b Hw)|].
      rewrite list_lookup_insert_ne in Hv' by done. by apply Hi.
    + split; [done|]. split; [done|]. split.
      * rewrite <- (pair_apart a b u v Hpair). split; [|done]. intros _. by apply (link_below_apart n prio p a b).
      * split; [|done]. intros y z Hy Hz. rewrite Hsets by done. by apply pair_join.
  - apply silent_step. cbn. destruct (parent_seen b w Hw) as [Hs _].
    apply (pair_ok_moves a b); [done|by apply same_refl|done].
Qed.

(** *** [find_root] *)

Lemma return_step k u v :
  caller_ok p c k u → p !! u = Some v → step_spec d th (d, return_root d th k v).
Proof.
  intros Hk Hv. destruct (parent_seen u v Hv) as [Hs Hab].
  apply (caller_ok_climb _ _ _ u v) in Hk; [|done|destruct Hab as [->|[? _]]; [by left|by right]].
  destruct k as [|a b []|a b []]; cbn in Hk |- *.
  - destruct (todo th) as [|[|u0] rest] eqn:Hth; [done..|]. unfold finish. rewrite ?Hth.
    pose proof calls_ok as Hc. rewrite ?Hth in Hc. apply list.Forall_cons in Hc as [_ Hc]. cbn in Hk |- *.
    by split_and!; try split_and!; [..|apply (same_range _ _ Hk)|].
  - destruct Hk as (Hp & Ha & _). destruct (pair_ok_inv _ _ Hp) as (_ & _ & _ & _ & _ & _ & _ & Hb & _).
    apply compare_step, (pair_ok_moves a b); [done..|]. by apply same_refl.
  - destruct Hk as (Hp & Ha & _). destruct (pair_ok_inv _ _ Hp) as (_ & _ & _ & _ & _ & _ & _ & Hb & _).
    apply silent_step. cbn. assert (same_set p b b) by by apply same_refl.
    split_and!; try done; [by apply (pair_ok_moves a b)|by left].
  - destruct Hk as (Hp & Hb & _). destruct (pair_ok_inv _ _ Hp) as (_ & _ & _ & _ & _ & _ & Ha & _ & _).
    apply compare_step, (pair_ok_moves a b); [done| |done]. by apply same_refl.
  - destruct Hk as (Hp & Hb & _). destruct (pair_ok_inv _ _ Hp) as (_ & _ & _ & _ & _ & _ & Ha & _ & _).
    apply silent_step. cbn. assert (same_set p a a) by by apply same_refl.
    split_and!; try done; [by apply (pair_ok_moves a b)|by left].
Qed.

Lemma half_step k u h :
  t_pc th = StoreHalf k u h → pc_ok p c (StoreHalf k u h) → ∀ x, step_spec d th (dsu_step x d th).
Proof.
  intros Hpc (Hk & Hi & Hs & Hab) x. unfold dsu_step. rewrite Hpc.
  destruct (relink_range n prio p u h fwf Hs) as [Hu Hh]. rewrite arr_set_Ok by done.
  pose proof (relink_root_of n prio p u h fwf Hab Hs) as Hroots.
  pose proof (same_set_ext _ _ Hroots) as Hsets.
  assert (Hg : grows p (<[u := h]> p)).
  { split; [intros y z; apply Hsets|]. intros w Hw v Hv. destruct (decide (w = u)) as [->|Hne].
    - rewrite list_lookup_insert_eq in Hv by done. injection Hv as <-. intros ->. by eapply above_irrefl.
    - rewrite list_lookup_insert_ne in Hv by done. by apply Hw. }
  split_and!; cbn; try done.
  - unfold dsu_wf. cbn. rewrite n_eq, prio_eq. by apply relink_wf; [apply fwf|..].
  - split; [|done]. split; [by eapply caller_ok_grows|by apply Hg].
Qed.

(** The condition of the loop. *)
Lemma test_ok k u l r :
  pc_ok p c (Cond k u l r) → pc_ok p c (test k u l r).
Proof.
  intros (Hk & Hl & Hr). destruct l as [|v|v], r as [w|]; try done. cbn [test].
  case_decide as Hne; [|done]. split; [done|]. destruct Hl as [_ [->|[_ ?]]], Hr as [_ [->|[_ ?]]]; done.
Qed.

Lemma cond_step k u l r :
  t_pc th = Cond k u l r → pc_ok p c (Cond k u l r) → ∀ x, step_spec d th (dsu_step x d th).
Proof.
  intros Hpc Hok x. pose proof Hok as (Hk & Hl & Hr). unfold dsu_step. rewrite Hpc.
  assert (Hu : u < n).
  { destruct k as [|a b s|a b s]; cbn in Hk; [destruct (head (todo th)) as [[|]|]; [done| |done]|..];
      [by destruct (same_range _ _ Hk)|destruct Hk as (_ & Hk & _); by destruct (same_range _ _ Hk)..]. }
  assert (Hv : ∀ v, seen p u v → v < n) by (intros v [Hs _]; by destruct (same_range _ _ Hs)).
  destruct l as [|v|g], r as [w|]; try (destruct (right_first x));
    (apply load_step; [by auto|]; intros y Hy Hsy);
    try (apply test_ok); cbn in Hl, Hr |- *; (split; [done|]); split; try done; (eapply seen_trans; [exact Hl|done]).
Qed.

(** ** Every step *)

Lemma dsu_step_ok x : pc_ok p c (t_pc th) → step_spec d th (dsu_step x d th).
Proof.
  assert (Hrange : ∀ k u, caller_ok p c k u → u < n).
  { intros k u Hk. destruct k; cbn in Hk; [destruct (head (todo th)) as [[|]|]; [done| |done]|..];
      [by destruct (same_range _ _ Hk)|destruct Hk as (_ & Hk & _); by destruct (same_range _ _ Hk)..]. }
  intros Hok. destruct (t_pc th) as [|k u l r|k u|k u q|k u h|k u|k u|a b|a b|e] eqn:Hpc; [..|done].
  - unfold dsu_step. rewrite Hpc. pose proof calls_ok as Hc.
    destruct (todo th) as [|[u v|u] rest] eqn:Hth in |- *.
    { split_and!; try done. split; [by rewrite Hpc|by rewrite Hth]. }
    all: rewrite Hth in Hc; apply list.Forall_cons in Hc as [Hc _]; apply silent_step; rewrite Hth; cbn in Hc |- *.
    + destruct Hc. left. split; by apply same_refl.
    + split_and!; [by apply same_refl|done..].
  - by eapply cond_step.
  - unfold dsu_step. rewrite Hpc. destruct Hok as [Hk Hi]. apply load_step; [by eapply Hrange|].
    intros v Hv [Hs [->|[Hab _]]]; [by destruct (Hi u Hv)|by split_and!].
  - unfold dsu_step. rewrite Hpc. destruct Hok as (Hk & Hi & Hs & Hab). apply load_step; [by apply same_range in Hs as [_ ?]|].
    intros v Hv [Hs' Hab']. split_and!; [done..|by etrans|].
    destruct Hab' as [->|[Hab' _]]; [done|exact (above_trans _ _ _ _ Hab' Hab)].
  - by eapply half_step.
  - unfold dsu_step. rewrite Hpc. destruct Hok as [Hk Hi]. apply load_step; [by eapply Hrange|].
    intros v Hv [Hs Hab]. split_and!; [|done..]. eapply caller_ok_climb; [done..|].
    destruct Hab as [->|[? _]]; [by left|by right].
  - unfold dsu_step. rewrite Hpc. destruct (lookup_lt_is_Some_2 p u) as [v Hv].
    { rewrite (fw_parent _ _ _ fwf). by eapply Hrange. }
    rewrite (arr_get_Ok _ _ _ Hv). by eapply return_step.
  - unfold dsu_step. rewrite Hpc. apply silent_step. destruct (pair_ok_inv a b Hok) as (_ & _ & _ & _ & _ & _ & Ha & Hb & _).
    destruct (right_first x); cbn; split_and!; try done; (by apply same_refl || by left).
  - destruct Hok. by eapply exchange_step.
Qed.
End step.

(** ** The object and its threads *)

(** The pairs that the merges of a history joined. *)
Definition merge_pairs (h : list (nat * (call * answer))) : list (nat * nat) :=
  omap (λ e, match e.2.1 with CallMerge u v => Some (u, v) | CallFind _ => None end) h.

(** What a union-find used by one client, whose sets were joined by [l0], may answer. *)
Inductive legal (l0 : list (nat * nat)) : list (nat * (call * answer)) → Prop :=
  | legal_nil : legal l0 []
  | legal_merge h t u v m :
      legal l0 h → (merged m = true ↔ ¬ rtc (linked (l0 ++ merge_pairs h)) u v) →
      (merged m = true → above prio (ret_root m) (ret_child m)) →
      legal l0 (h ++ [(t, (CallMerge u v, Merged m))])
  | legal_find h t u r :
      legal l0 h → rtc (linked (l0 ++ merge_pairs h)) u r →
      legal l0 (h ++ [(t, (CallFind u, Found r))]).

(** The calls of thread [t] that took effect. *)
Definition calls_of (h : list (nat * (call * answer))) (t : nat) : list call :=
  omap (λ e, if decide (e.1 = t) then Some e.2.1 else None) h.

(** The forest represents the pairs [l]. *)
Definition represents (d : DSU) (l : list (nat * nat)) : Prop :=
  ∀ x y, x < n → y < n → dsu_rel d x y ↔ rtc (linked l) x y.

Record shared_ok (l0 : list (nat * nat)) (calls : list (list call)) (st : Shared) : Prop := {
  so_wf : dsu_wf (forest st);
  so_n : dsu_n (forest st) = n;
  so_prio : priority (forest st) = prio;
  so_threads : Forall (thread_ok (parent (forest st))) (threads st);
  so_represents : represents (forest st) (l0 ++ merge_pairs (history st));
  so_legal : legal l0 (history st);
  so_owners : Forall (λ e, is_Some (threads st !! e.1)) (history st);
  so_calls : ∀ t th, threads st !! t = Some th → calls !! t = Some (calls_of (history st) t ++ todo th);
}.

Lemma merge_pairs_snoc h e :
  merge_pairs (h ++ [e]) = merge_pairs h ++ match e.2.1 with CallMerge u v => [(u, v)] | CallFind _ => [] end.
Proof. unfold merge_pairs. rewrite omap_app. cbn. by destruct (e.2.1). Qed.

Lemma calls_of_snoc h t e u :
  calls_of (h ++ [(t, e)]) u = calls_of h u ++ if decide (t = u) then [e.1] else [].
Proof. unfold calls_of. rewrite omap_app. cbn. by case_decide. Qed.

Lemma thread_range p th c : thread_ok p th → head (todo th) = Some c → call_ok c.
Proof. intros [_ Hc] Hh. destruct (todo th); [done|]. injection Hh as ->. by inversion Hc. Qed.

(** The new history after a call took effect. *)
Lemma legal_snoc l0 d d' h t c x :
  call_ok c → represents d (l0 ++ merge_pairs h) → legal l0 h → effect (parent d) (parent d') c x →
  legal l0 (h ++ [(t, (c, x))]) ∧ represents d' (l0 ++ merge_pairs (h ++ [(t, (c, x))])).
Proof.
  intros Hc Hrep Hl He. rewrite merge_pairs_snoc. unfold represents, dsu_rel in *.
  destruct c as [u v|u], x as [m|r]; try done; cbn in *.
  - destruct Hc as [Hu Hv], He as (Hm & Hsets & Hab). split.
    + constructor; [done| |done]. by rewrite Hm, Hrep.
    + intros x y Hx Hy. rewrite Hsets by done. rewrite (app_assoc l0), linked_snoc.
      unfold join_rel. by rewrite !Hrep by done.
  - destruct He as (Hr & Hrn & Hsets). rewrite app_nil_r. split.
    + constructor; [done|]. by apply Hrep.
    + intros x y Hx Hy. rewrite Hsets. by apply Hrep.
Qed.

Lemma shared_step_ok l0 calls st x : shared_ok l0 calls st → shared_ok l0 calls (shared_step st x).
Proof.
  intros [Hwf Hn Hp Hth Hrep Hleg Hown Hcalls]. unfold shared_step.
  destruct (threads st !! who x) as [th|] eqn:Ht; [|done].
  pose proof (proj1 (list.Forall_lookup _ _) Hth _ _ Ht) as [Hpc Hok].
  pose proof (dsu_step_ok (forest st) th Hwf Hn Hp Hok x Hpc) as Hspec.
  destruct (dsu_step x (forest st) th) as [d [th' done]]. destruct Hspec as (Hwf' & Hn' & Hp' & Hg & Hth' & Hdone).
  assert (Hall : Forall (thread_ok (parent d)) (<[who x := th']> (threads st))).
  { apply list.Forall_insert; [|done]. eapply list.Forall_impl; [exact Hth|]. intros th2. by apply thread_ok_grows. }
  assert (Hlt : who x < length (threads st)) by by eapply lookup_lt_Some.
  assert (Hown' : Forall (λ e, is_Some (<[who x := th']> (threads st) !! e.1)) (history st)).
  { eapply list.Forall_impl; [exact Hown|]. intros e. cbn. by rewrite !lookup_lt_is_Some, length_insert. }
  assert (Hget : ∀ t th2, <[who x := th']> (threads st) !! t = Some th2 →
    t = who x ∧ th2 = th' ∨ t ≠ who x ∧ threads st !! t = Some th2).
  { intros t th2 H2. destruct (decide (t = who x)) as [->|Hne].
    - rewrite list_lookup_insert_eq in H2 by done. injection H2 as <-. by left.
    - rewrite list_lookup_insert_ne in H2 by done. by right. }
  destruct done as [[c ans]|].
  - destruct Hdone as (Htodo & _ & Heff).
    assert (Hc : call_ok c) by (rewrite Htodo in Hok; by inversion Hok).
    destruct (legal_snoc l0 (forest st) d (history st) (who x) c ans Hc Hrep Hleg Heff) as [Hleg' Hrep'].
    constructor; cbn [forest threads history]; try done.
    { apply Forall_app. split; [done|]. constructor; [|done]. cbn. by rewrite lookup_lt_is_Some, length_insert. }
    intros t th2 [[-> ->]|[Hne H2]]%Hget; rewrite calls_of_snoc.
    + rewrite decide_True by done. cbn. rewrite <- app_assoc. cbn. rewrite <- Htodo. by apply Hcalls.
    + rewrite decide_False by done. rewrite app_nil_r. by apply Hcalls.
  - destruct Hdone as [Htodo Hsets]. constructor; cbn [forest threads history]; try done.
    + intros y z Hy Hz. unfold dsu_rel. rewrite Hsets. by apply Hrep.
    + intros t th2 [[-> ->]|[Hne H2]]%Hget; [rewrite Htodo|]; by apply Hcalls.
Qed.

Lemma run_shared_ok l0 calls sched st : shared_ok l0 calls st → shared_ok l0 calls (run_shared sched st).
Proof. revert st. induction sched as [|x sched IH]; intros st Hst; [done|]. by apply IH, shared_step_ok. Qed.

Lemma begin_shared_ok l0 calls d :
  dsu_wf d → dsu_n d = n → priority d = prio → represents d l0 → Forall (Forall call_ok) calls →
  shared_ok l0 calls (begin_shared d calls).
Proof.
  intros Hwf Hn Hp Hrep Hcalls. constructor; cbn; try done.
  - apply list.Forall_fmap. eapply list.Forall_impl; [exact Hcalls|]. by intros l Hl.
  - by rewrite app_nil_r.
  - constructor.
  - intros t th Hth. rewrite list_lookup_fmap in Hth. destruct (calls !! t); [|done].
    cbn in Hth. by injection Hth as <-.
Qed.
End invariant.
