(* ===== verification/DsuMTProgress.v ===== *)
(** * Every call on a shared union-find finishes

    However the other threads run, a bounded number of its own steps and of spurious
    failures of its exchanges finishes a thread's calls: each turn of a loop moves to a
    node of higher priority. *)

From Stdlib Require Import NArith Lia.
From stdpp Require Import base list numbers relations.
From S2P Require Import Prelude Dsu DsuMT DsuMTSpec.

Section progress.
Variables (n : nat) (prio : list N).
Abbreviation rk := (rank prio n).

(** Bounds on the steps of one search, of one turn of [merge]'s loop, and of one call. *)
Definition find_cost : nat := 8 * n + 10.
Definition turn_cost : nat := 2 * find_cost + 2.
Definition call_cost : nat := 2 * n * turn_cost + turn_cost + 1.

(** The steps that may remain for the caller of a search. *)
Definition caller_work (k : caller) : nat :=
  match k with
  | ByClient => 0
  | ByLeft a b other | ByRight a b other =>
      (rk a + rk b) * turn_cost + 2 + if other then 0 else find_cost
  end.

Definition loads (l : left_operand) (r : option nat) : nat :=
  match l with Unloaded => 0 | Inner _ => 1 | Value _ => 2 end + match r with None => 0 | Some _ => 1 end.

Definition pc_work (pc : dsu_pc) : nat :=
  match pc with
  | Start | Crashed _ => 0
  | Cond k u l r => caller_work k + (8 * rk u + 9 - loads l r)
  | LoadParent k u => caller_work k + 8 * rk u + 5
  | LoadGrand k u _ => caller_work k + 8 * rk u + 4
  | StoreHalf k u _ => caller_work k + 8 * rk u + 3
  | Climb k u => caller_work k + 8 * rk u + 2
  | Return k _ => caller_work k + 1
  | Loop a b => (rk a + rk b) * turn_cost + turn_cost
  | Exchange a b => (rk a + rk b) * turn_cost + 1
  end.

Definition work (th : Thread) : nat :=
  match t_pc th with
  | Start => call_cost * length (todo th)
  | pc => pc_work pc + call_cost * length (tail (todo th))
  end.

Lemma rank_climb v u : at_or_above prio v u → v < n → rk v ≤ rk u.
Proof. intros [->|Hv] Hn; [done|]. by apply Nat.lt_le_incl, rank_lt. Qed.

Lemma search_work u : 8 * rk u + 9 < find_cost.
Proof. pose proof (rank_le prio n u). unfold find_cost. lia. Qed.

Section step.
Variables (d : DSU) (th : Thread).
Abbreviation p := (parent d).
Abbreviation c := (head (todo th)).
Hypothesis wf : dsu_wf d.
Hypothesis n_eq : dsu_n d = n.
Hypothesis prio_eq : priority d = prio.
Hypothesis th_ok : thread_ok n prio p th.
Hypothesis busy : todo th ≠ [].

Definition less (m : nat) (th' : Thread) : Prop := work th' < work th + m.

Lemma finish_less x : t_pc th ≠ Start → 0 < pc_work (t_pc th) → less 0 (finish th x).1.
Proof.
  intros Hpc Hw. unfold less, work, finish. cbn [fst t_pc todo].
  destruct (t_pc th); try done; cbn [pc_work] in *; lia.
Qed.

Lemma pc_less pc m :
  pc ≠ Start → t_pc th ≠ Start → pc_work pc < pc_work (t_pc th) + m → less m (at_pc th pc).
Proof.
  intros Hpc Hpc' Hw. unfold less, work, at_pc. cbn [t_pc todo].
  destruct pc; try done; destruct (t_pc th); try done; cbn [pc_work] in *; lia.
Qed.

Lemma compare_less a b :
  a < n → b < n → (rk a + rk b) * turn_cost + 2 ≤ pc_work (t_pc th) → t_pc th ≠ Start →
  less 0 (compare d th a b).1.
Proof.
  intros Ha Hb Hw Hpc. unfold compare. case_decide as Hab; [apply finish_less; [done|lia]|].
  rewrite order_edge_spec by (done || lia).
  case_decide; apply pc_less; try done; cbn [pc_work]; [lia|]. rewrite (Nat.add_comm (rk b)). lia.
Qed.

Lemma load_less u k m :
  u < n → t_pc th ≠ Start →
  (∀ v, p !! u = Some v → seen prio p u v → v < n → k v ≠ Start ∧ pc_work (k v) < pc_work (t_pc th) + m) →
  less m (load d u th k).
Proof.
  intros Hu Hpc Hk. pose proof (fwf n prio d wf n_eq prio_eq) as Hwf.
  destruct (lookup_lt_is_Some_2 p u) as [v Hv]; [by rewrite (fw_parent _ _ _ Hwf)|].
  unfold load. rewrite (arr_get_Ok _ _ _ Hv).
  destruct (Hk v Hv (parent_seen n prio d wf n_eq prio_eq u v Hv) (fw_range _ _ _ Hwf u v Hv)).
  by apply pc_less.
Qed.

Lemma return_less k u v :
  t_pc th = Return k u → caller_ok prio p c k u → p !! u = Some v → less 0 (return_root d th k v).1.
Proof.
  intros Hpc Hk Hv. pose proof (parent_seen n prio d wf n_eq prio_eq u v Hv) as [Hs Hab].
  pose proof (fw_range _ _ _ (fwf n prio d wf n_eq prio_eq) u v Hv) as Hvn.
  apply (caller_ok_climb prio _ _ _ u v) in Hk; [|done|destruct Hab as [->|[? _]]; [by left|by right]].
  assert (Hns : t_pc th ≠ Start) by by rewrite Hpc.
  destruct k as [|a b []|a b []]; cbn [return_root fst caller_ok] in *.
  - apply finish_less; [done|rewrite Hpc; cbn; lia].
  - destruct Hk as (Hp & _ & Hva). destruct th_ok as [_ Hcalls].
    destruct (pair_ok_inv n prio d th wf n_eq prio_eq Hcalls a b Hp) as (_ & _ & _ & _ & _ & _ & Ha & Hb & _).
    pose proof (rank_climb v a Hva Hvn) as Hr.
    apply compare_less; [done..| |done]. rewrite Hpc. cbn [pc_work caller_work].
    pose proof (Nat.mul_le_mono_r _ _ turn_cost Hr). lia.
  - destruct Hk as (Hp & _ & Hva). pose proof (rank_climb v a Hva Hvn) as Hr. apply pc_less; [done..|]. rewrite Hpc.
    cbn [pc_work caller_work loads]. pose proof (search_work b).
    pose proof (Nat.mul_le_mono_r _ _ turn_cost Hr). lia.
  - destruct Hk as (Hp & _ & Hva). destruct th_ok as [_ Hcalls].
    destruct (pair_ok_inv n prio d th wf n_eq prio_eq Hcalls a b Hp) as (_ & _ & _ & _ & _ & _ & Ha & Hb & _).
    pose proof (rank_climb v b Hva Hvn) as Hr.
    apply compare_less; [done..| |done]. rewrite Hpc. cbn [pc_work caller_work].
    pose proof (Nat.mul_le_mono_r _ _ turn_cost Hr). lia.
  - destruct Hk as (Hp & _ & Hva). pose proof (rank_climb v b Hva Hvn) as Hr. apply pc_less; [done..|]. rewrite Hpc.
    cbn [pc_work caller_work loads]. pose proof (search_work a).
    pose proof (Nat.mul_le_mono_r _ _ turn_cost Hr). lia.
Qed.

(** A failed exchange goes on with a node above [b], unless it failed spuriously. *)
Lemma exchange_less x a b :
  t_pc th = Exchange a b → pair_ok p c a b → above prio a b →
  less (if spurious x then turn_cost else 0) (dsu_step x d th).2.1.
Proof.
  intros Hpc Hp Hab. unfold dsu_step. rewrite Hpc. destruct th_ok as [_ Hcalls].
  destruct (pair_ok_inv n prio d th wf n_eq prio_eq Hcalls a b Hp) as (_ & _ & _ & _ & _ & _ & Ha & Hb & _).
  pose proof (fwf n prio d wf n_eq prio_eq) as Hwf.
  destruct (lookup_lt_is_Some_2 p b) as [s Hs]; [by rewrite (fw_parent _ _ _ Hwf)|].
  rewrite (arr_get_Ok _ _ _ Hs). pose proof (fw_range _ _ _ Hwf b s Hs) as Hsn.
  case_decide as Hcas.
  - rewrite arr_set_Ok by by eapply lookup_lt_Some. cbn [snd].
    assert (Hf : less 0 (finish th (Merged (mkMergeRet true a b))).1) by (apply finish_less; rewrite Hpc; [done|cbn; lia]).
    unfold less in *. lia.
  - cbn [snd fst]. apply pc_less; [done|by rewrite Hpc|]. rewrite Hpc. cbn [pc_work].
    destruct (decide (s = b)) as [->|Hne].
    + destruct (spurious x); [lia|]. destruct Hcas. done.
    + destruct (fw_above _ _ _ Hwf b s Hs) as [?|Hsb]; [done|].
      pose proof (Nat.mul_le_mono_r _ _ turn_cost (rank_lt prio n b s Hsb Hsn)). lia.
Qed.

Lemma node_range k u : caller_ok prio p c k u → u < n.
Proof.
  intros Hk. pose proof (same_range n prio d wf n_eq prio_eq) as Hsame. destruct k; cbn in Hk.
  - destruct (head (todo th)) as [[|]|]; [done|by apply Hsame in Hk as [_ ?]|done].
  - destruct Hk as (_ & Hk & _). by apply Hsame in Hk as [_ ?].
  - destruct Hk as (_ & Hk & _). by apply Hsame in Hk as [_ ?].
Qed.

Lemma start_less x : t_pc th = Start → less 0 (dsu_step x d th).2.1.
Proof.
  intros Hpc. unfold less, work, dsu_step. rewrite Hpc. cbn [snd fst].
  destruct (todo th) as [|[u v|u] rest] eqn:Hth; [done|..]; cbn [at_pc t_pc todo]; rewrite ?Hth;
    cbn [tail length pc_work caller_work loads].
  - pose proof (rank_le prio n u). pose proof (rank_le prio n v).
    assert ((rk u + rk v) * turn_cost ≤ (2 * n) * turn_cost) by (apply Nat.mul_le_mono_r; lia).
    unfold call_cost. lia.
  - pose proof (search_work u). unfold call_cost, turn_cost. lia.
Qed.

Lemma cond_less k u l r x : t_pc th = Cond k u l r → less 0 (dsu_step x d th).2.1.
Proof.
  intros Hpc. unfold dsu_step. rewrite Hpc. destruct th_ok as [Hok _]. rewrite Hpc in Hok.
  destruct Hok as (Hk & Hl & Hr). pose proof (node_range k u Hk) as Hu.
  assert (Hv : ∀ v, seen prio p u v → v < n) by (intros v [Hs _]; by apply (same_range n prio d wf n_eq prio_eq) in Hs as [_ ?]).
  destruct l as [|v|g], r as [w|]; cbn [snd fst]; try (destruct (right_first x));
    apply load_less; try (by rewrite Hpc); auto; intros y _ _ _; rewrite Hpc; cbn [test];
    try case_decide; (split; [done|cbn [pc_work]; unfold loads; lia]).
Qed.

(** The thread's own step uses up some of its work. *)
Lemma dsu_step_less x : less (if spurious x then turn_cost else 0) (dsu_step x d th).2.1.
Proof.
  assert (Hweak : ∀ th', less 0 th' → less (if spurious x then turn_cost else 0) th') by (unfold less; lia).
  destruct th_ok as [Hok Hcalls]. pose proof (fwf n prio d wf n_eq prio_eq) as Hwf.
  destruct (t_pc th) as [|k u l r|k u|k u q|k u h|k u|k u|a b|a b|e] eqn:Hpc; [..|done].
  - by apply Hweak, start_less.
  - by eapply Hweak, cond_less.
  - destruct Hok as [Hk Hi]. apply Hweak. unfold dsu_step. rewrite Hpc. cbn [snd fst].
    apply load_less; [by eapply node_range|by rewrite Hpc|]. intros. rewrite Hpc. cbn. split; [done|lia].
  - destruct Hok as (Hk & Hi & Hs & _). apply Hweak. unfold dsu_step. rewrite Hpc. cbn [snd fst].
    apply load_less; [by apply (same_range n prio d wf n_eq prio_eq) in Hs as [_ ?]|by rewrite Hpc|].
    intros. rewrite Hpc. cbn. split; [done|lia].
  - destruct Hok as (Hk & _). apply Hweak. unfold dsu_step. rewrite Hpc.
    rewrite arr_set_Ok by (rewrite (fw_parent _ _ _ Hwf); by eapply node_range).
    apply pc_less; [done|by rewrite Hpc|]. rewrite Hpc. cbn. lia.
  - destruct Hok as [Hk Hi]. apply Hweak. unfold dsu_step. rewrite Hpc. cbn [snd fst].
    apply load_less; [by eapply node_range|by rewrite Hpc|]. intros v Hv _ Hvn. rewrite Hpc. split; [done|].
    destruct (fw_above _ _ _ Hwf u v Hv) as [->|Hab]; [by destruct (Hi u Hv)|].
    pose proof (rank_lt prio n u v Hab Hvn). cbn [pc_work loads]. lia.
  - apply Hweak. unfold dsu_step. rewrite Hpc. cbn [snd fst].
    destruct (lookup_lt_is_Some_2 p u) as [v Hv]; [rewrite (fw_parent _ _ _ Hwf); by eapply node_range|].
    rewrite (arr_get_Ok _ _ _ Hv). by eapply return_less.
  - apply Hweak. unfold dsu_step. rewrite Hpc. cbn [snd fst]. pose proof (search_work a). pose proof (search_work b).
    apply pc_less; [by destruct (right_first x)|by rewrite Hpc|]. rewrite Hpc.
    assert (turn_cost = 2 * find_cost + 2) by done.
    destruct (right_first x); cbn [pc_work caller_work]; unfold loads; lia.
  - destruct Hok. by eapply exchange_less.
Qed.
End step.

(** ** Runs *)

Definition turns_of (t : nat) (sched : list turn) : nat := length (filter (λ x, who x = t) sched).
Definition spurious_of (t : nat) (sched : list turn) : nat :=
  length (filter (λ x, who x = t ∧ spurious x = true) sched).

Lemma shared_step_work l0 calls st x t th :
  shared_ok n prio l0 calls st → threads st !! t = Some th →
  ∃ th', threads (shared_step st x) !! t = Some th' ∧
    (todo th = [] → todo th' = []) ∧
    (todo th' ≠ [] → turns_of t [x] + work th' ≤ work th + turn_cost * spurious_of t [x]).
Proof.
  intros [Hwf Hn Hp Hths _ _ _ _] Hth. unfold shared_step, turns_of, spurious_of. rewrite !filter_cons.
  destruct (decide (who x = t)) as [<-|Hne].
  - rewrite Hth. pose proof (proj1 (list.Forall_lookup _ _) Hths _ _ Hth) as Hok.
    pose proof (dsu_step_ok n prio (forest st) th Hwf Hn Hp (proj2 Hok) x (proj1 Hok)) as Hspec.
    pose proof (λ Hb, dsu_step_less (forest st) th Hwf Hn Hp Hok Hb x) as Hless.
    destruct (dsu_step x (forest st) th) as [d [th' done]]. cbn [fst snd] in Hless. exists th'.
    cbn [threads]. split; [apply list_lookup_insert_eq; by eapply lookup_lt_Some|].
    destruct Hspec as (_ & _ & _ & _ & _ & Hdone).
    assert (Htodo : todo th = [] → todo th' = []) by (intros Hnil; destruct done as [[c a]|]; destruct Hdone as [Hdone _]; congruence).
    split; [done|]. intros Hbusy. unfold less in Hless. specialize (Hless ltac:(auto)).
    destruct (spurious x); repeat case_decide; try tauto; rewrite ?filter_nil; cbn [length]; try lia.
  - rewrite decide_False by naive_solver. exists th. cbn.
    destruct (threads st !! who x) as [th2|]; [|split_and!; [done..|lia]].
    destruct (dsu_step x (forest st) th2) as [d [th' done]]. cbn [threads].
    rewrite list_lookup_insert_ne by done. split_and!; [done..|lia].
Qed.

Lemma run_shared_work l0 calls sched st t th :
  shared_ok n prio l0 calls st → threads st !! t = Some th →
  ∃ th', threads (run_shared sched st) !! t = Some th' ∧ (todo th = [] → todo th' = []) ∧
    (todo th' ≠ [] → turns_of t sched + work th' ≤ work th + turn_cost * spurious_of t sched).
Proof.
  revert st th. induction sched as [|x sched IH]; intros st th Hst Hth.
  { exists th. cbn. split_and!; [done..|unfold spurious_of; cbn; lia]. }
  destruct (shared_step_work l0 calls st x t th Hst Hth) as (th1 & Hth1 & Hnil1 & Hw1).
  destruct (IH _ _ (shared_step_ok n prio l0 calls st x Hst) Hth1) as (th2 & Hth2 & Hnil2 & Hw2).
  exists th2. split_and!; [done|auto|]. intros Hbusy.
  assert (Hsplit : ∀ P (HP : ∀ y : turn, Decision (P y)), length (filter P (x :: sched)) = length (filter P [x]) + length (filter P sched)).
  { intros P HP. rewrite !filter_cons, filter_nil. by case_decide. }
  unfold turns_of, spurious_of in *. rewrite !Hsplit. specialize (Hw2 Hbusy).
  specialize (Hw1 ltac:(auto)). lia.
Qed.

(** A thread that gets enough turns finishes its calls. *)
Lemma run_finishes l0 calls d sched t l :
  shared_ok n prio l0 calls (begin_shared d calls) → calls !! t = Some l →
  call_cost * length l + turn_cost * spurious_of t sched < turns_of t sched →
  ∃ th, threads (run_shared sched (begin_shared d calls)) !! t = Some th ∧ todo th = [].
Proof.
  intros Hst Hl Hturns.
  assert (Hth : threads (begin_shared d calls) !! t = Some (mkThread l Start)) by (cbn; by rewrite list_lookup_fmap, Hl).
  destruct (run_shared_work l0 calls sched _ t _ Hst Hth) as (th & Hth' & _ & Hw).
  exists th. split; [done|]. destruct (decide (todo th = [])) as [|Hne]; [done|].
  specialize (Hw Hne). change (work (mkThread l Start)) with (call_cost * length l) in Hw. lia.
Qed.
End progress.
