(* ===== verification/DsuMTProps.v ===== *)
(** * What threads that share a union-find can rely on

    Concurrent merges act one at a time and all finish. Concurrent searches find the
    roots of a forest whose paths have at most two links; on longer paths a search can
    return a node that is no root. *)

From Stdlib Require Import NArith Lia.
From stdpp Require Import base list numbers relations.
From S2P Require Import Prelude Dsu DsuMT DsuMTSpec DsuMTProgress.

(** ** Searches on a shallow forest *)

Definition is_root (p : list nat) (v : nat) : Prop := p !! v = Some v.

(** The parent of [v] is a root. *)
Definition near_root (p : list nat) (v : nat) : Prop := ∀ w, p !! v = Some w → is_root p w.

(** No path has more than two links. *)
Definition shallow (p : list nat) : Prop := ∀ u v, p !! u = Some v → near_root p v.

#[global] Instance shallow_dec p : Decision (Forall (λ v, Forall (λ w, p !! w = Some w) (option_list (p !! v))) p).
Proof. apply _. Defined.

Lemma shallow_of p : Forall (λ v, Forall (λ w, p !! w = Some w) (option_list (p !! v))) p → shallow p.
Proof.
  intros H u v Hu w Hv. rewrite list.Forall_lookup in H. specialize (H _ _ Hu). rewrite Hv in H.
  by apply list.Forall_cons in H as [? _].
Qed.

Lemma root_of_same p x r : root_of p x r ↔ same_set p x r ∧ is_root p r.
Proof.
  split.
  - intros H. split; [by apply same_set_root|by eapply root_of_root].
  - intros [(s & Hx & Hs) Hr]. by rewrite (root_of_det p r r s) by (done || by constructor).
Qed.

Definition is_find (c : call) : Prop := if c is CallFind _ then True else False.

Definition near_pc (p : list nat) (pc : dsu_pc) : Prop :=
  match pc with
  | Cond _ u l r =>
      match l with Unloaded => True | Inner v => near_root p v | Value g => is_root p g end ∧
      match r with None => True | Some w => is_root p w → near_root p u end
  | LoadGrand _ _ q => near_root p q
  | StoreHalf _ _ h => is_root p h
  | Return _ u => near_root p u
  | _ => True
  end.

(** A store of a root keeps what is known. *)
Record store_root (p p' : list nat) : Prop := {
  sr_root : ∀ v, is_root p' v ↔ is_root p v;
  sr_near : ∀ v, near_root p v → near_root p' v;
}.

Lemma near_pc_store p p' pc : store_root p p' → near_pc p pc → near_pc p' pc.
Proof.
  intros [Hr Hn]. destruct pc as [|k u l r|k u|k u q|k u h|k u|k u|a b|a b|e]; cbn; try done; [|auto|by rewrite Hr|auto].
  intros [Hl Hw]. split; [destruct l; [done|auto|by rewrite Hr]|]. destruct r as [w|]; [|done].
  rewrite Hr. auto.
Qed.

Lemma store_root_ok n prio p u h :
  forest_wf n prio p → nonroot p u → above prio h u → is_root p h → shallow p → u < length p →
  store_root p (<[u := h]> p) ∧ shallow (<[u := h]> p).
Proof.
  intros Hwf Hi Hab Hh Hsh Hu.
  assert (Hroot : ∀ v, is_root (<[u := h]> p) v ↔ is_root p v).
  { intros v. unfold is_root. destruct (decide (v = u)) as [->|Hne].
    - rewrite list_lookup_insert_eq by done. split; [|intros Hv; by destruct (Hi u Hv)].
      intros [= ->]. by destruct (above_irrefl prio u).
    - by rewrite list_lookup_insert_ne. }
  assert (Hnear : ∀ v, near_root p v → near_root (<[u := h]> p) v).
  { intros v Hv w Hw. apply Hroot. destruct (decide (v = u)) as [->|Hne].
    - rewrite list_lookup_insert_eq in Hw by done. by injection Hw as <-.
    - rewrite list_lookup_insert_ne in Hw by done. by apply Hv. }
  split; [by split|]. intros x y Hx. destruct (decide (x = u)) as [->|Hne].
  - rewrite list_lookup_insert_eq in Hx by done. injection Hx as <-. apply Hnear. intros w Hw.
    assert (w = h) as -> by (unfold is_root in Hh; congruence). done.
  - rewrite list_lookup_insert_ne in Hx by done. by apply Hnear, (Hsh x).
Qed.

Section finds.
Variables (n : nat) (prio : list N).

Definition flat_ok (p : list nat) (th : Thread) : Prop := Forall is_find (todo th) ∧ near_pc p (t_pc th).

Definition flat_spec (d : DSU) (s : DSU * (Thread * option (call * answer))) : Prop :=
  let '(d', (th', done)) := s in
  store_root (parent d) (parent d') ∧ shallow (parent d') ∧ flat_ok (parent d') th' ∧
  match done with Some (CallMerge _ _, _) => False | Some (CallFind _, Found r) => is_root (parent d) r | _ => True end.

Section step.
Variables (d : DSU) (th : Thread).
Abbreviation p := (parent d).
Hypothesis wf : dsu_wf d.
Hypothesis n_eq : dsu_n d = n.
Hypothesis prio_eq : priority d = prio.
Hypothesis th_ok : thread_ok n prio p th.
Hypothesis flat : flat_ok p th.
Hypothesis short : shallow p.

Lemma flat_quiet pc : near_pc p pc → flat_spec d (d, (at_pc th pc, None)).
Proof. destruct flat as [Hf _]. intros Hpc. split_and!; try done. Qed.

Lemma flat_load u k :
  u < n → (∀ v, p !! u = Some v → near_root p v → near_pc p (k v)) → flat_spec d (d, (load d u th k, None)).
Proof.
  intros Hu Hk. pose proof (fwf n prio d wf n_eq prio_eq) as Hwf.
  destruct (lookup_lt_is_Some_2 p u) as [v Hv]; [by rewrite (fw_parent _ _ _ Hwf)|].
  unfold load. rewrite (arr_get_Ok _ _ _ Hv). apply flat_quiet, Hk; [done|by apply (short u)].
Qed.

(** The calls are searches of the client. *)
Lemma finds_only k u : caller_ok prio p (head (todo th)) k u → k = ByClient.
Proof.
  destruct flat as [Hf _]. destruct k; [done|..]; cbn; unfold pair_ok;
    (destruct (todo th) as [|[|] rest]; [by intros [? _]| |by intros [? _]]); by inversion Hf.
Qed.

Lemma flat_cond x k u l r : t_pc th = Cond k u l r → flat_spec d (dsu_step x d th).
Proof.
  intros Hpc. unfold dsu_step. rewrite Hpc. destruct th_ok as [Hok _], flat as [_ Hnear]. rewrite Hpc in Hok, Hnear.
  pose proof Hok as (Hk & Hl & Hr). pose proof (node_range n prio d th wf n_eq prio_eq k u Hk) as Hu.
  assert (Hv : ∀ v, seen prio p u v → v < n) by (intros v [Hs _]; by apply (same_range n prio d wf n_eq prio_eq) in Hs as [_ ?]).
  assert (Hself : ∀ v, p !! u = Some v → is_root p v → near_root p u) by (intros v Hv' Hr' w Hw; congruence).
  destruct Hnear as [Hnl Hnr].
  destruct l as [|v|g], r as [w|]; try (destruct (right_first x));
    (apply flat_load; [by auto|]; intros y Hy Hny; cbn [test]; try case_decide; cbn; eauto; subst;
     by (apply Hnr, Hnl || apply (Hself _ Hy))).
Qed.

Lemma flat_same : store_root p p.
Proof. by split. Qed.

Lemma flat_step x : flat_spec d (dsu_step x d th).
Proof.
  pose proof (fwf n prio d wf n_eq prio_eq) as Hwf. pose proof th_ok as [Hok Hcalls]. pose proof flat as [Hf Hnear].
  destruct (t_pc th) as [|k u l r|k u|k u q|k u h|k u|k u|a b|a b|e] eqn:Hpc; unfold dsu_step; rewrite ?Hpc.
  - destruct (todo th) as [|[u v|u] rest] eqn:Hth in |- *.
    + split_and!; try apply flat_same; try done.
    + rewrite Hth in Hf. by inversion Hf.
    + by apply flat_quiet.
  - pose proof (flat_cond x k u l r Hpc) as H. unfold dsu_step in H. by rewrite Hpc in H.
  - destruct Hok as [Hk Hi]. apply flat_load; [by eapply (node_range n prio d th)|]. done.
  - destruct Hok as (Hk & Hi & Hs & _). apply flat_load; [by apply (same_range n prio d wf n_eq prio_eq) in Hs as [_ ?]|].
    intros v Hv _. by apply Hnear.
  - destruct Hok as (Hk & Hi & Hs & Hab). assert (Hu : u < length p).
    { rewrite (fw_parent _ _ _ Hwf). by apply (same_range n prio d wf n_eq prio_eq) in Hs as [? _]. }
    rewrite arr_set_Ok by done. destruct (store_root_ok n prio p u h Hwf Hi Hab Hnear short Hu). by split_and!.
  - destruct Hok as [Hk Hi]. apply flat_load; [by eapply (node_range n prio d th)|]. done.
  - destruct (lookup_lt_is_Some_2 p u) as [v Hv]; [rewrite (fw_parent _ _ _ Hwf); by eapply (node_range n prio d th)|].
    rewrite (arr_get_Ok _ _ _ Hv). pose proof (finds_only k u Hok) as ->. cbn in Hok.
    unfold return_root, finish. destruct (todo th) as [|[|u0] rest] eqn:Hth in Hok, Hf |- *; [done..|].
    cbn. split_and!; try apply flat_same; try done; [by inversion Hf|]. by apply Hnear.
  - exfalso. cbn in Hok. unfold pair_ok in Hok. destruct (todo th) as [|[|] rest]; [done| |done]. by inversion Hf.
  - exfalso. destruct Hok as [Hok _]. unfold pair_ok in Hok. destruct (todo th) as [|[|] rest]; [done| |done]. by inversion Hf.
  - done.
Qed.
End step.

(** ** Runs of searches *)

Lemma represents_links d : dsu_wf d → dsu_n d = n → priority d = prio → represents n d (imap pair (parent d)).
Proof.
  intros Hwf Hn Hp. pose proof (fwf n prio d Hwf Hn Hp) as Hf.
  assert (Hlink : ∀ x y, (x, y) ∈ imap pair (parent d) ↔ parent d !! x = Some y).
  { intros x y. rewrite elem_of_lookup_imap. split; [intros (i & z & [= -> ->] & ?); done|by eauto]. }
  assert (Hup : ∀ x r, root_of (parent d) x r → rtc (linked (imap pair (parent d))) x r).
  { intros x r Hr. induction Hr as [r Hr|x y r Hx _ _ IH]; [done|]. eapply rtc_l; [|exact IH]. left. by apply Hlink. }
  intros x y Hx Hy. split.
  - intros (r & Hxr & Hyr). etrans; [by apply Hup|]. apply linked_sym. by apply Hup.
  - intros Hxy. induction Hxy as [x|x z y Hxz _ IH].
    + by apply (same_refl n prio d Hwf Hn Hp).
    + assert (Hz : same_set (parent d) x z).
      { destruct Hxz as [H|H]; apply Hlink, (parent_seen n prio d Hwf Hn Hp) in H as [H _]; [done|by symmetry]. }
      etrans; [exact Hz|]. apply IH; [|done]. by apply (same_range n prio d Hwf Hn Hp) in Hz as [_ ?].
Qed.

Record flat_shared (p0 : list nat) (st : Shared) : Prop := {
  fs_shallow : shallow (parent (forest st));
  fs_threads : Forall (flat_ok (parent (forest st))) (threads st);
  fs_roots : ∀ v, is_root (parent (forest st)) v ↔ is_root p0 v;
  fs_sets : ∀ x y, same_set (parent (forest st)) x y ↔ same_set p0 x y;
  fs_history : Forall (λ e, ∃ u r, e.2 = (CallFind u, Found r) ∧ root_of p0 u r) (history st);
}.

Lemma flat_ok_store p p' th : store_root p p' → flat_ok p th → flat_ok p' th.
Proof. intros Hs [Hf Hn]. split; [done|by eapply near_pc_store]. Qed.

Lemma flat_shared_step p0 l0 calls st x :
  shared_ok n prio l0 calls st → flat_shared p0 st → flat_shared p0 (shared_step st x).
Proof.
  intros [Hwf Hn Hp Hths _ _ _ _] [Hsh Hfl Hroots Hsets Hh]. unfold shared_step.
  destruct (threads st !! who x) as [th|] eqn:Ht; [|done].
  pose proof (proj1 (list.Forall_lookup _ _) Hths _ _ Ht) as Hok.
  pose proof (proj1 (list.Forall_lookup _ _) Hfl _ _ Ht) as Hflat.
  pose proof (dsu_step_ok n prio (forest st) th Hwf Hn Hp (proj2 Hok) x (proj1 Hok)) as Hspec.
  pose proof (flat_step (forest st) th Hwf Hn Hp Hok Hflat Hsh x) as Hfspec.
  destruct (dsu_step x (forest st) th) as [d [th' done]].
  destruct Hspec as (_ & _ & _ & _ & _ & Hdone), Hfspec as (Hs & Hsh' & Hth' & Hdone').
  assert (Hsame : ∀ y z, same_set (parent d) y z ↔ same_set (parent (forest st)) y z).
  { destruct done as [[[u v|u] [m|r]]|]; try done; [by destruct Hdone as (_ & _ & [])|by destruct Hdone as (_ & _ & _ & _ & ?)|apply Hdone]. }
  constructor; cbn [forest threads history]; [done| | | |].
  - apply list.Forall_insert; [|done]. eapply list.Forall_impl; [exact Hfl|]. intros th2. by apply flat_ok_store.
  - intros v. by rewrite (sr_root _ _ Hs).
  - intros y z. by rewrite Hsame.
  - destruct done as [[[u v|u] [m|r]]|]; try done; [by destruct Hdone as (_ & _ & [])|].
    apply Forall_app. split; [done|]. constructor; [|done]. exists u, r. split; [done|].
    destruct Hdone as (_ & _ & Hur & _). apply root_of_same. by rewrite <- Hsets, <- Hroots.
Qed.

Lemma flat_run p0 l0 calls sched st :
  shared_ok n prio l0 calls st → flat_shared p0 st → flat_shared p0 (run_shared sched st).
Proof.
  revert st. induction sched as [|x sched IH]; intros st Hst Hfl; [done|].
  apply IH; [by apply shared_step_ok|by eapply flat_shared_step].
Qed.
End finds.

(** ** Where a search goes wrong *)

(** A path of three links, which merges alone can make. *)
Definition chain : DSU := mkDSU 4 [1; 2; 3; 3] [1; 2; 3; 4]%N.

Lemma chain_made : merge_all (new_dsu 4 [1; 2; 3; 4]%N) [([], (0, 1)); ([], (1, 2)); ([], (2, 3))] = Ok chain.
Proof. by vm_compute. Qed.

(** [k] turns of a thread that evaluates the left, or the right, operand first. *)
Definition turns (right : bool) (t k : nat) : list turn := replicate k (mkTurn t right false).

(** Two searches for the root of 0; the second stops after the first load of its
    condition until the other has halved the path. It finds 2, whose parent is 3. *)
Lemma concurrent_find_misses_root :
  let st := run_shared (turns false 1 2 ++ turns false 0 20 ++ turns false 1 20) (begin_shared chain [[CallFind 0]; [CallFind 0]]) in
  history st = [(0, (CallFind 0, Found 3)); (1, (CallFind 0, Found 2))] ∧ parent (forest st) !! 2 = Some 3.
Proof. by vm_compute. Qed.

(** With the right operand first: the third thread's store, delayed past two searches of
    the first, takes the node back below the root before the second returns. *)
Lemma concurrent_find_misses_root_either_order :
  let st := run_shared (turns true 2 6 ++ turns true 0 40 ++ turns true 1 4 ++ turns true 2 1 ++ turns true 1 1)
              (begin_shared chain [[CallFind 0; CallFind 0]; [CallFind 0]; [CallFind 0]]) in
  history st = [(0, (CallFind 0, Found 3)); (0, (CallFind 0, Found 3)); (1, (CallFind 0, Found 2))].
Proof. by vm_compute. Qed.

(** ** The merges of a run *)

Lemma new_shared_ok n prio calls :
  length prio = n → Forall (Forall (call_ok n)) calls → shared_ok n prio [] calls (begin_shared (new_dsu n prio) calls).
Proof.
  intros Hp Hcalls. apply begin_shared_ok; [by apply new_dsu_wf|done..| |done]. intros x y Hx Hy.
  rewrite (reset_rel (new_dsu n prio)). split; [by intros [-> _]|].
  destruct 1 as [|? ? ? [?|?]]; [done|set_solver..].
Qed.

Definition all_pairs (calls : list (list call)) : list (nat * nat) :=
  concat calls ≫= λ c, match c with CallMerge u v => [(u, v)] | CallFind _ => [] end.

Lemma elem_of_all_pairs calls u v : (u, v) ∈ all_pairs calls ↔ ∃ t l, calls !! t = Some l ∧ CallMerge u v ∈ l.
Proof.
  unfold all_pairs. rewrite list_elem_of_bind. split.
  - intros (c & Huv & Hc). apply list_elem_of_In, in_concat in Hc as (l & Hl & Hc).
    apply list_elem_of_In, list_elem_of_lookup in Hl as [t Ht]. exists t, l. split; [done|].
    destruct c as [u' v'|]; [|set_solver]. apply list_elem_of_singleton in Huv as [= -> ->]. by apply list_elem_of_In.
  - intros (t & l & Hl & Hc). exists (CallMerge u v). split; [set_solver|]. apply list_elem_of_In, in_concat.
    exists l. split; apply list_elem_of_In; [by eapply list_elem_of_lookup_2|done].
Qed.

Lemma elem_of_merge_pairs h u v : (u, v) ∈ merge_pairs h ↔ ∃ e, e ∈ h ∧ e.2.1 = CallMerge u v.
Proof.
  unfold merge_pairs. rewrite list_elem_of_omap. split; intros (e & He & Huv); exists e; (split; [done|]).
  - destruct (e.2.1); by simplify_eq.
  - by rewrite Huv.
Qed.

Lemma elem_of_calls_of h t c : c ∈ calls_of h t ↔ ∃ e, e ∈ h ∧ e.1 = t ∧ e.2.1 = c.
Proof.
  unfold calls_of. rewrite list_elem_of_omap. split.
  - intros (e & He & Hc). case_decide; [|done]. exists e. by simplify_eq.
  - intros (e & He & <- & <-). exists e. split; [done|]. by rewrite decide_True.
Qed.

Lemma linked_ext l l' x y : (∀ e, e ∈ l ↔ e ∈ l') → rtc (linked l) x y ↔ rtc (linked l') x y.
Proof. intros H. split; apply rtc_subrel; intros a b; unfold linked; by rewrite !H. Qed.

(** ** Claims *)

(** C6. Calls of [merge] and [find_root] by any number of threads, in any interleaving of
    their accesses: the calls took effect one at a time, each merge reporting [merged]
    exactly when the merges before it had not connected its arguments; the forest stays
    ordered by priority and its sets are those the merges so far connect; each thread's
    calls took effect in its order. *)
Theorem concurrent_merges_linearize n prio calls sched :
  length prio = n → Forall (Forall (call_ok n)) calls →
  let st := run_shared sched (begin_shared (new_dsu n prio) calls) in
  legal prio [] (history st) ∧ dsu_wf (forest st) ∧ represents n (forest st) (merge_pairs (history st)) ∧
  ∀ t th, threads st !! t = Some th → calls !! t = Some (calls_of (history st) t ++ todo th).
Proof.
  intros Hp Hcalls st.
  assert (Hok : shared_ok n prio [] calls st) by by apply run_shared_ok, new_shared_ok.
  destruct Hok as [Hwf _ _ _ Hrep Hleg _ Hc]. by split_and!.
Qed.

(** Two threads in turns; an exchange in a turn divisible by [s] fails. *)
Definition in_turns (s k : nat) : list turn :=
  (λ i, mkTurn (i mod 2) (i mod 3 =? 0) (i mod s =? 0)) <$> seq 0 k.

Definition some_calls : list (list call) := [[CallMerge 0 1; CallMerge 2 3]; [CallMerge 1 0; CallMerge 3 0; CallFind 2]].

Lemma some_calls_ok : Forall (Forall (call_ok 4)) some_calls.
Proof. repeat constructor. Qed.

Lemma concurrent_merges_linearize_witness :
  let st := run_shared (in_turns 5 60) (begin_shared (new_dsu 4 [3; 1; 2; 2]%N) some_calls) in
  legal [3; 1; 2; 2]%N [] (history st) ∧ dsu_wf (forest st) ∧ represents 4 (forest st) (merge_pairs (history st)) ∧
  ∀ t th, threads st !! t = Some th → some_calls !! t = Some (calls_of (history st) t ++ todo th).
Proof. apply (concurrent_merges_linearize 4 [3; 1; 2; 2]%N some_calls (in_turns 5 60)); [reflexivity|apply some_calls_ok]. Defined.

(** C7. The same calls all finish: once each thread has had a bounded number of turns per
    call, and as many more for each spurious failure of its exchanges, every call has
    returned, however the other threads ran; the sets are those that all the merges
    connect. *)
Theorem concurrent_calls_finish n prio calls sched :
  length prio = n → Forall (Forall (call_ok n)) calls →
  (∀ t l, calls !! t = Some l →
     call_cost n * length l + turn_cost n * spurious_of t sched < turns_of t sched) →
  let st := run_shared sched (begin_shared (new_dsu n prio) calls) in
  Forall (λ th, todo th = []) (threads st) ∧
  (∀ t l, calls !! t = Some l → calls_of (history st) t = l) ∧
  represents n (forest st) (all_pairs calls).
Proof.
  intros Hp Hcalls Hturns st. pose proof (new_shared_ok n prio calls Hp Hcalls) as Hbegin.
  pose proof (run_shared_ok n prio [] calls sched _ Hbegin) as [Hwf Hn _ _ Hrep _ Hown Hc]. fold st in Hwf, Hn, Hrep, Hown, Hc.
  assert (Hdone : ∀ t l, calls !! t = Some l → ∃ th, threads st !! t = Some th ∧ todo th = []).
  { intros t l Hl. by apply (run_finishes n prio [] calls _ sched t l Hbegin Hl), Hturns. }
  assert (Hall : ∀ t l, calls !! t = Some l → calls_of (history st) t = l).
  { intros t l Hl. destruct (Hdone t l Hl) as (th & Hth & Hnil). specialize (Hc t th Hth).
    rewrite Hl, Hnil, app_nil_r in Hc. by injection Hc. }
  split_and!; [|done|].
  - apply list.Forall_lookup. intros t th Hth. destruct (Hdone t _ (Hc t th Hth)) as (th' & Hth' & Hnil). congruence.
  - intros x y Hx Hy. rewrite (Hrep x y Hx Hy). apply linked_ext. intros [u v]. cbn [app].
    rewrite elem_of_merge_pairs, elem_of_all_pairs. split.
    + intros (e & He & Huv). rewrite list.Forall_forall in Hown. destruct (Hown e He) as [th Hth].
      eexists e.1, _. split; [by apply Hc|]. apply elem_of_app. left. apply elem_of_calls_of. by exists e.
    + intros (t & l & Hl & Huv). rewrite <- (Hall t l Hl) in Huv. apply elem_of_calls_of in Huv as (e & He & _ & Huv). by exists e.
Qed.

Definition two_merges : list (list call) := [[CallMerge 0 1]; [CallMerge 1 0]].

Lemma concurrent_calls_finish_witness :
  let st := run_shared (in_turns 1000 660) (begin_shared (new_dsu 2 [3; 1]%N) two_merges) in
  Forall (λ th, todo th = []) (threads st) ∧
  (∀ t l, two_merges !! t = Some l → calls_of (history st) t = l) ∧
  represents 2 (forest st) (all_pairs two_merges).
Proof.
  apply (concurrent_calls_finish 2 [3; 1]%N two_merges (in_turns 1000 660)); [reflexivity|repeat constructor|].
  intros t l Hl. apply Nat.ltb_lt. destruct t as [|[|t]]; [| |done]; injection Hl as <-; by vm_compute.
Defined.

(** C8. Searches by any number of threads in a forest none of whose paths has more than
    two links: in any interleaving each finds the root that a search running alone finds. *)
Theorem concurrent_finds_on_shallow_forest d calls sched :
  dsu_wf d → shallow (parent d) → Forall (Forall (call_ok (dsu_n d))) calls → Forall (Forall is_find) calls →
  Forall (λ e, ∃ u r d', e.2 = (CallFind u, Found r) ∧ find_root d u = Ok (r, d'))
    (history (run_shared sched (begin_shared d calls))).
Proof.
  intros Hwf Hsh Hcalls Hfinds.
  pose proof (represents_links (dsu_n d) (priority d) d Hwf eq_refl eq_refl) as Hrep.
  pose proof (begin_shared_ok (dsu_n d) (priority d) _ calls d Hwf eq_refl eq_refl Hrep Hcalls) as Hbegin.
  assert (Hflat : flat_shared (parent d) (begin_shared d calls)).
  { constructor; cbn; try done. apply list.Forall_fmap. eapply list.Forall_impl; [exact Hfinds|]. by intros l Hl. }
  eapply list.Forall_impl; [apply (fs_history _ _ (flat_run _ _ _ _ calls sched _ Hbegin Hflat))|].
  intros e (u & r & He & Hr). exists u, r.
  destruct (find_root_spec d u Hwf) as (r' & d' & Hfind & Hr' & _); [by apply (root_of_lt _ _ _ _ _ Hwf) in Hr as [? _]|].
  assert (r' = r) as -> by by eapply root_of_det. by exists d'.
Qed.

Definition chain_of_three : DSU := mkDSU 3 [1; 2; 2] [1; 2; 3]%N.

Lemma concurrent_finds_on_shallow_forest_witness :
  Forall (λ e, ∃ u r d', e.2 = (CallFind u, Found r) ∧ find_root chain_of_three u = Ok (r, d'))
    (history (run_shared (in_turns 5 60) (begin_shared chain_of_three [[CallFind 0; CallFind 1]; [CallFind 0]]))).
Proof.
  apply (concurrent_finds_on_shallow_forest chain_of_three [[CallFind 0; CallFind 1]; [CallFind 0]] (in_turns 5 60)).
  - destruct (merge_all_ok 3 [1; 2; 3]%N [([], (0, 1)); ([], (1, 2))] eq_refl) as (d & Hd & Hwf & _); [by repeat constructor|].
    vm_compute in Hd. by injection Hd as <-.
  - apply shallow_of. apply (bool_decide_unpack _). by vm_compute.
  - repeat constructor.
  - repeat constructor.
Defined.
